(* ===== verification/_CoqProject ===== *)
-Q . S2P
Prelude.v
Types.v
Text.v
Graph.v
Contract.v
UnionFind.v
Independence.v
Families.v
Fusion.v
FusionLemmas.v
FusionSpec.v
Projection.v
Calibration.v
Decision.v
PolicyContent.v
Voi.v
VoiSpec.v
ContractSat.v
ContractSpec.v
PolicyRevision.v
PolicyResolve.v
PolicyStrict.v
PolicyResolveSpec.v
PolicyBundle.v
PolicyBundleSpec.v
PolicyCache.v
PolicyCacheSpec.v
PolicyStore.v
PolicyStoreLemmas.v
PolicyStoreSpec.v
PolicyStoreInv.v
PolicyStoreServe.v
PolicyStoreExamples.v
Redact.v
AuditEvent.v
AuditLedger.v
AuditLedgerSpec.v
Egress.v
EgressStore.v
EgressSpec.v
AuditCheckpoint.v
AuditCheckpointSpec.v
AuditExamples.v
ExecutionIdentity.v
EventStore.v
EventRead.v
Retention.v
RetentionInv.v
RetentionSpec.v
RetentionExamples.v
Admission.v
Consumption.v
AdmissionSpec.v
AdmissionExamples.v
Shell.v
ShellSpec.v
Runner.v
RunnerSpec.v
Verifiers.v
VerifiersSpec.v
VerifiersExamples.v
Receipt.v
ReceiptGate.v
Delegation.v
ReceiptSpec.v
ReceiptExamples.v
Capabilities.v
Ingest.v
IngestSpec.v
Turnstile.v
TurnstileSpec.v
IngestExamples.v
TestOutput.v
TestOutputSpec.v
Upload.v
UploadRun.v
UploadSpec.v
UploadStageSpec.v
UploadRunSpec.v
Budget.v
