(* ===== verification/Prelude.v ===== *)
(** * Fornax: a verification library

    Fornax runs beside a coding agent. Host adapters turn what the agent does
    into events and evidence; a verification core decides, from that evidence
    alone, which of the agent's claims are supported; a policy layer, signed by
    an organisation and cached on the device, sets how strictly the outcome is
    enforced; and whatever is recorded, sent or deleted is subject to an audit
    ledger, to retention and to an egress decision. This library models the
    parts that decide, and the tables their decisions live in, as executable
    functions, and proves what they promise. Paths are relative to
    [src/crates/].

    ** The parts and their files

    Shared:
    - [Prelude]: results, identifiers, machine integers ([i64], [u64] with
      their wrap-around), [BTreeMap] and [BTreeSet] iteration order
      ([btree_iter]), sorting, the library's tactics and hint database;
    - [Types]: the records and enums of [fornax-types] (lib, sensor,
      capabilities, extension) the components read, JSON values, and the
      interfaces to [chrono] and to the outcome of an SQLite statement;
    - [Text]: Rust strings as UTF-8 bytes and as characters, and the string
      functions used on them.

    Verdicts on one claim ([fornax-verify/src/lib.rs], [runner_command.rs]):
    - [Shell], [ShellSpec]: the parser of observed command lines, against a
      declarative grammar;
    - [Runner], [RunnerSpec]: which commands run tests, which output can be
      attributed to a runner, how an observed command relates to a claimed one;
    - [Verifiers], [VerifiersSpec], [VerifiersExamples]: the five verifiers and
      the registry the daemon runs.

    Evidence of many records ([fornax-types/src/graph.rs], [fornax-verify]):
    - [Graph]: the evidence graph of a claim, conflicts, staleness;
    - [UnionFind], [Independence], [Families] ([independence.rs]): the
      ancestry walk, the union of records into source families, its
      work-budgeted variant; the families are the classes of an abstract
      connectedness relation;
    - [Fusion], [FusionLemmas], [FusionSpec] ([fusion.rs]): the rules R0 to R6
      that turn a graph into a verdict, a band and a rationale trail, against a
      declarative specification of the surviving votes;
    - [Projection] ([fusion.rs], [project_graph]): the graph of a list of
      verifier findings;
    - [Calibration], [Decision] ([calibration.rs], [decision.rs]): calibration
      validity, the recommendation for a risk class and its floors;
    - [Contract], [ContractSat], [ContractSpec]
      ([fornax-types/src/epistemic_contract.rs], [contract_satisfaction.rs]):
      what a class of claims requires, inheritance between classes, and whether
      a pool of records satisfies it;
    - [Voi], [VoiSpec] ([voi.rs]): the gaps of a claim's evidence and the plan
      of probes that could close them;
    - [Budget] ([verification_budget.rs]): the steps planned for unmet obligations
      within a budget, and the floor under them.

    The store ([fornax-store]) and what guards it:
    - [ExecutionIdentity] ([fornax-types/src/execution_identity.rs]): the
      identity envelope of a host event and its wire form;
    - [EventStore], [EventRead] ([lib.rs]): the tables of events, claims,
      evidence, findings, links and lineage tags, their inserts and reads;
    - [Retention], [RetentionInv], [RetentionSpec], [RetentionExamples]
      ([retention.rs], [fornax-daemon/src/retention_sweep.rs]): erasure, purges
      and the daemon's bounded sweep, with their effect on those tables;
    - [Admission], [Consumption], [AdmissionSpec], [AdmissionExamples]
      ([fornax-types/src/provenance_guard.rs], [evidence_consumption.rs],
      [admitted_evidence.rs], [run_verifiers_and_persist_findings] of
      [fornax-daemon/src/main.rs]): which stored evidence may count, which claim
      consumed it, and the live path from stored evidence to a stored finding;
    - [Capabilities] ([fornax-types/src/capabilities.rs], [lib.rs]): capability
      announcements, their legacy form and their table.

    The daemon's ingest ([fornax-daemon/src/main.rs]):
    - [Ingest], [IngestSpec]: its state, the handling of every message with the
      redaction before it is stored, and of every line, with the quarantine of
      lines that could not be handled ([quarantine.rs]);
    - [Turnstile], [TurnstileSpec], [IngestExamples]: the accept loop, the
      turns of connections and their hand-offs, as a step function whose runs
      are all interleavings of the ingest tasks, timeouts and panics included;
    - [TestOutput], [TestOutputSpec] ([fornax-types/src/test_output.rs]):
      the summary of a test run read from a command's output.

    The metadata upload ([fornax-store/src/upload.rs], [fornax-upload]):
    - [Upload]: consents, staging into the outbox, its bound, sealing of
      batches, retirement, as a monad whose every statement may fail;
    - [UploadRun]: the sender with its retries, a run and a scheduled tick;
    - [UploadSpec] (the invariant of outbox and batches and how every operation
      advances them), [UploadStageSpec] (what staging stages and the bound
      it keeps), [UploadRunSpec] (the system as a step relation, with runs).

    Receipts ([fornax-receipt]):
    - [Receipt], [ReceiptGate], [Delegation], [ReceiptSpec], [ReceiptExamples]:
      the receipt of an assessed claim with its withheld evidence, the gate
      that accepts it elsewhere, and envelopes for delegated work.

    Policy ([fornax-types/src/policy/], [fornax-store/src/policy_cache.rs]):
    - [PolicyContent], [PolicyRevision], [PolicyResolve]: layers, revisions,
      bindings, and the resolution of a device's effective policy;
      [PolicyStrict] and [PolicyResolveSpec] hold the strictness order and the
      theorems;
    - [PolicyBundle], [PolicyBundleSpec]: the trust store and the verification
      of signed bundles and revocation lists;
    - [PolicyCache], [PolicyCacheSpec]: the cache's decisions and freshness;
    - [PolicyStore] and its files [PolicyStoreLemmas], [PolicyStoreSpec],
      [PolicyStoreInv], [PolicyStoreServe], [PolicyStoreExamples]: the tables,
      the four store operations as a step relation, their invariants.

    Audit and egress:
    - [Redact] ([fornax-types/src/redact.rs]): secret detectors and redaction;
    - [AuditEvent], [AuditLedger], [AuditLedgerSpec] ([fornax-types/src/audit.rs],
      [fornax-store/src/audit_ledger.rs]): events and the hash chain over them;
    - [Egress], [EgressStore], [EgressSpec] ([egress.rs] of [fornax-types] and
      [fornax-store]): the decision whether a request may leave the machine,
      and the profile, consents and allowlist it reads;
    - [AuditCheckpoint], [AuditCheckpointSpec] ([audit_checkpoint.rs] of
      [fornax-types] and [fornax-store],
      [fornax-daemon/src/audit_checkpoint_submit.rs]): signed attestations of
      the ledger's head and the cycle that obtains them;
    - [AuditExamples]: a concrete run of the four.

    How they meet: the live verdict path of [Consumption] reads the tables of
    [EventStore], admits evidence with [Admission], runs the verifiers of
    [Verifiers] on it, records what they consumed and inserts their findings;
    [Decision] reads the findings of [Fusion], whose collapse rules read the
    families of [Independence], as does [ContractSat]; a receipt of [Receipt]
    carries a claim's evidence links and decision, an envelope of [Delegation]
    an assessment of [ContractSat]; the sweep of [Retention] and a store
    operation of [EgressStore] append to the ledger of [AuditLedger], which
    redacts with [Redact]; the checkpoint cycle asks [EgressStore] for a
    permit, reads the ledger, and verifies the answer with the envelope check
    of [PolicyBundle]; [PolicyStore] re-verifies stored bundles with
    [PolicyBundle], decides with [PolicyCache] and serves revisions that
    [PolicyResolve] resolves; a line of [Ingest] is redacted with [Redact],
    inserted by [EventStore], [PolicyStore] or [Capabilities], verified by
    [Consumption], or quarantined; [Upload] reads the tables of [EventStore]
    under the consents of [EgressStore], and [UploadRun] asks that store for a
    permit before every request.

    ** Conventions

    A pure function of the source is a function of the same name; a fallible
    one returns [result], one that may panic [option]; a store operation takes
    the tables and returns the answer with the new tables, and takes the outcome
    of its SQLite transaction ([Sqlite]: a statement fails, the commit fails, it
    commits) as an argument, so that every theorem holds for every outcome. A
    table is a finite map from its primary key, or the list of its rows where
    the order matters. Clock reads and fresh identifiers are arguments. A [for]
    loop is a structural fixpoint over the list it visits. Where statements
    run one by one outside a transaction, the operation is a computation over
    the tables that asks the world, step by step, whether a statement succeeds
    ([UploadWorld]). Concurrent tasks are the connections of one state and a
    list of steps is their schedule; other processes' writes to the egress
    tables are a function of the world ([HttpWorld]). A trait object is a
    record of its functions ([Verifier]). Messages for humans are kept where
    they are stored or another component reads them.

    Fuel: the ancestry walk of [Independence] is a [while] over a stack and runs
    on [ancestors_fuel], two more than the number of [derived_from] edges, which
    suffices on every pool, cyclic ones too ([ancestors_exact]); the two loops
    of [find] run on the size of the parent table, which suffices on the tables
    the construction reaches ([build_total]); the walk up a contract's parents
    runs on one more than the number of contracts, which finds every chain or a
    cycle ([inheritance_resolves_or_explains]). The sweep's batches and the
    depth of wrapped test commands are bounded by the code itself
    ([MAX_BATCHES_PER_CYCLE], [MAX_WRAPPING]), with the code's answer at the
    bound. Theorems whose bounds mention [i64_max] have the bound of the code's
    64-bit sequence numbers.

    ** Parameters

    Crates outside the repository are type classes without instances here, and
    what is relied on is a class ending in [Ok]: [Chrono], [ChronoFmt],
    [ChronoFromStr], [ChronoSeconds], [NaiveParser] (timestamps; an RFC3339
    string is read as such, seconds are truncated), [SerdeJson] (string
    literals are injective), [EventJson] (columns of the event tables; a list
    of identifiers is read back), [UuidOps] (what it prints is read back,
    [UuidParseOk]), [TableScan] (a table scan returns its rows), [HashOrder]
    (the iteration order of a hash map), [PolicyDigest], [PolicyWire] (base64,
    Ed25519, SHA-256 and parsers; a parsed sequence is a [u64]), [ReceiptJson],
    [ReceiptWire], [DelegationJson], [Sha256] (32 bytes), [AuditWire],
    [StringsJson], [CheckpointWire], [UrlParser], [IngestWire], [CapabilityJson]
    (notes and signals are read back), [QuarantineRows], [ChronoDate],
    [OutboxScan] and [TableScanNatural] (a scan returns its rows, in an order
    that does not depend on their contents); and [UnicodeTables] for the
    Unicode tables of Rust's standard library. The examples instantiate
    them, so every hypothesis is witnessed.

    ** What the theorems show

    - verdicts: the shell parser accepts exactly its grammar; a verdict on a
      test result or on a command is exactly the specified one; the production
      build never verifies the agent's own report of a test run or of an exit
      status, and a verified finding the daemon persists cites one admitted
      record that is a run of the claimed command or git's report, and that its
      turn consumed when the consumption statements commit, unless the claim
      has a quarantine row for it;
    - admission: the admitted evidence is exactly what its origin vouches for,
      and evidence recorded as consumed for one turn is refused to the others,
      unless the pair of claim and evidence had a quarantine row;
    - fusion: verdict and band are those of the declarative tables on the
      surviving votes; every link is counted, discounted or neutral and named
      by the rationale that says so, or left undecided beyond the work budget;
      counted votes of one relation rest on different sources, links to one
      ungrouped record apart; the finding does not depend on the order of the
      input;
    - families: which records share one, exactly: connected by the union rules,
      with the case of a record without provenance stated; the walk terminates;
      the budgeted construction never returns a truncated map;
    - decisions, contracts and plans: a claim proceeds only on evidence; a
      satisfied contract certifies enough independent records; inheritance
      resolves to the nearest declarations, no weaker in level, coverage and
      required trust classes, or explains why not; an evidence plan is exact,
      and a verification plan keeps its budget and names what it leaves
      uncovered;
    - store and retention: every foreign key resolves and every record is
      tagged over any sequence of operations; a sweep touches only what has
      expired, nothing expired outlives a full cycle, and erasing a tenant is
      complete or changes nothing;
    - receipts: a receipt accounts for every link and shows of a payload at
      most its fingerprint, or its length if it is oversized; the gate
      is exact; an accepted receipt or delegation certifies its signature,
      dates and contract;
    - policy: resolution is the field-wise fold of the levels and pins are
      floors; staleness only tightens; accepted artifacts are authentic; over
      every sequence of store operations the high-water marks never fall,
      revocation is sticky, and a reload serves re-verified whole generations,
      of unrevoked bundles if no two policies share a bundle identifier;
    - audit and egress: appending builds a chain that verifies, verification is
      exact, a receipt stored for a valid ledger fixes the hashed columns of
      its history up to a hash collision; which requests are permitted is
      characterised exactly, and consents die with their profile; redaction
      leaves nothing detectable;
    - ingest: in every interleaving a definite verdict is stored only when no
      earlier evidence of its session can still be on its way; every waiting
      connection gets its turn; the content columns stored are redacted; every
      line is on file, or in the quarantine verbatim, or there under its
      identifiers alone if it clashes; a test summary proves a run exactly when
      it should;
    - upload: only consented records of the personal profile are staged, and of
      them only metadata; batches are immutable and hold exactly their rows;
      every request was permitted at its moment and carries a sealed batch; the
      outbox stays bounded and no drop is silent when the statements succeed.

    ** Not modelled

    Host adapters and the command line (external payload formats, terminal
    output), the daemon's HTTP handlers and polling loops, language-model
    judges, floating-point estimators, process execution of experiments and
    probes, and the insert and list operations of the remaining tables. The
    manifest lists each with its reason. *)

(** ** Prelude *)

From stdpp Require Export base tactics numbers list gmap sets strings sorting relations.

(** ** Fallible results *)

(** Rust's [Result<A, E>]. *)
Inductive result (E A : Type) : Type :=
| Ok (a : A)
| Err (e : E).
Arguments Ok {E A} _.
Arguments Err {E A} _.

Declare Scope fornax_scope.
Delimit Scope fornax_scope with fornax.

Notation "'let?' x ':=' c1 'in' c2" :=
  (match c1 with Ok x => c2 | Err e => Err e end)
  (at level 10, x name, c1 at level 100, c2 at level 200)
  : fornax_scope.
Notation "'let!' p ':=' c1 'in' c2" :=
  (match c1 with Some p => c2 | None => None end)
  (at level 10, p pattern, c1 at level 100, c2 at level 200)
  : fornax_scope.

(** A [Result] of code that can also panic ([None]). *)
Notation "'let!?' x ':=' c1 'in' c2" :=
  (match c1 with Some (Ok x) => c2 | Some (Err e) => Some (Err e) | None => None end)
  (at level 10, x name, c1 at level 100, c2 at level 200)
  : fornax_scope.

(** ** Identifiers and integers *)

(** A [Uuid] is a 128-bit number whose [Ord] is the numeric order of its
    big-endian bytes. *)
Abbreviation Uuid := N (only parsing).

Definition u64_max : N := 18446744073709551615.

(** [u64::saturating_add]. *)
Definition saturating_add (a b : N) : N := N.min (a + b) u64_max.

(** [n as i64] of a [u64], and [z as u64] of an [i64]. *)
Definition as_i64 (n : N) : Z :=
  if decide (Z.of_N n < 2 ^ 63)%Z then Z.of_N n else (Z.of_N n - 2 ^ 64)%Z.
(** [n as u32]. *)
Definition as_u32 (n : N) : N := n mod 2 ^ 32.
Definition as_u64 (z : Z) : N := Z.to_N (z mod 2 ^ 64).

(** The range of an [i64], and its arithmetic in a release build, which wraps
    on overflow. *)
Definition i64_modulus : Z := 18446744073709551616.
Definition i64_max : Z := 9223372036854775807.
Definition wrapping_i64 (z : Z) : Z := 
  ((z + 9223372036854775808) mod i64_modulus - 9223372036854775808)%Z.

Lemma as_u64_as_i64 n : (n ≤ u64_max)%N → as_u64 (as_i64 n) = n.
Proof.
  unfold as_u64, as_i64, u64_max. intros Hn. case_decide as Hd.
  - rewrite Z.mod_small by lia. lia.
  - replace (Z.of_N n - 2 ^ 64)%Z with (Z.of_N n + (-1) * 2 ^ 64)%Z by lia.
    rewrite Z_mod_plus_full, Z.mod_small by lia. lia.
Qed.

Lemma wrapping_i64_small z :
  (- 9223372036854775808 ≤ z ≤ i64_max)%Z → wrapping_i64 z = z.
Proof. unfold wrapping_i64, i64_max, i64_modulus. intros ?. rewrite Z.mod_small; lia. Qed.
Lemma wrapping_i64_bounds z :
  (- 9223372036854775808 ≤ wrapping_i64 z ≤ i64_max)%Z.
Proof.
  unfold wrapping_i64, i64_max, i64_modulus.
  pose proof (Z.mod_pos_bound (z + 9223372036854775808) 18446744073709551616). lia.
Qed.

(** ** Sorted lists *)

Lemma StronglySorted_filter {A} (R : relation A) (P : A → Prop) `{!∀ x, Decision (P x)} l :
  StronglySorted R l → StronglySorted R (filter P l).
Proof.
  induction 1 as [|x l _ IH Hx]; [constructor|]. rewrite filter_cons. case_decide; [|done].
  constructor; [done|]. apply Forall_forall. intros y [_ Hy]%list_elem_of_filter.
  by eapply Forall_forall in Hx.
Qed.

Lemma StronglySorted_lookup {A} (R : relation A) l i j x y :
  StronglySorted R l → l !! i = Some x → l !! j = Some y → i < j → R x y.
Proof.
  intros Hs. revert i j. induction Hs as [|z l _ IH Hz]; [done|].
  intros [|i] [|j] Hi Hj Hij; [lia| |lia|].
  - simplify_eq/=. by eapply Forall_lookup in Hz.
  - simpl in *. apply (IH i j); [done|done|lia].
Qed.

(** ** Automation *)

Create HintDb fornax discriminated.

(** Membership in a list that is extended at its end. *)
Lemma elem_of_app_left {A} (x : A) l k : x ∈ l → x ∈ l ++ k.
Proof. rewrite elem_of_app. by left. Qed.
Lemma elem_of_app_right {A} (x : A) l k : x ∈ k → x ∈ l ++ k.
Proof. rewrite elem_of_app. by right. Qed.
Lemma elem_of_one {A} (x : A) : x ∈ [x].
Proof. left. Qed.
#[export] Hint Resolve elem_of_app_left elem_of_app_right elem_of_one : fornax.

(** Case split on the scrutinee of every [match]/[if] of the goal or of a
    hypothesis, closing contradictory branches on the way. *)
Ltac split_match :=
  match goal with
  | H : context [match ?x with _ => _ end] |- _ =>
      lazymatch x with context [match _ with _ => _ end] => fail | _ => idtac end;
      let E := fresh "E" in destruct x eqn:E; simplify_eq/=
  | |- context [match ?x with _ => _ end] =>
      lazymatch x with context [match _ with _ => _ end] => fail | _ => idtac end;
      let E := fresh "E" in destruct x eqn:E; simplify_eq/=
  end.
Ltac split_matches := repeat split_match.

(** ** Ordered keys *)

(** The order a key type has in a [BTreeMap]/[BTreeSet]. *)
Class OrdKey (K : Type) := ord_le : relation K.
#[export] Hint Mode OrdKey ! : typeclass_instances.

(** A total order that is decided by computation. *)
Class OrdKeyDec (K : Type) `{OrdKey K} :=
  ord_key_dec :: RelDecision (ord_le (K := K)).
Class OrdKeyOk (K : Type) `{OrdKey K} : Prop :=
  ord_key_total :: TotalOrder (ord_le (K := K)).

#[export] Instance N_ord : OrdKey N := N.le.
#[export] Instance N_ord_dec : OrdKeyDec N := λ x y, decide (x ≤ y)%N.
#[export] Instance N_ord_ok : OrdKeyOk N.
Proof.
  unfold OrdKeyOk, ord_le, N_ord. repeat split.
  - intros x; lia.
  - intros x y z; lia.
  - intros x y; lia.
  - intros x y; unfold strict; lia.
Qed.

#[export] Instance Z_ord : OrdKey Z := Z.le.
#[export] Instance Z_ord_dec : OrdKeyDec Z := λ x y, decide (x ≤ y)%Z.
#[export] Instance Z_ord_ok : OrdKeyOk Z.
Proof.
  unfold OrdKeyOk, ord_le, Z_ord. repeat split.
  - intros x; lia.
  - intros x y z; lia.
  - intros x y; lia.
  - intros x y; unfold strict; lia.
Qed.

(** Lexicographic order on pairs. *)
#[export] Instance prod_ord {A B} `{OrdKey A, OrdKey B} : OrdKey (A * B) :=
  λ x y, strict ord_le x.1 y.1 ∨ (x.1 = y.1 ∧ ord_le x.2 y.2).
#[export] Instance prod_ord_dec {A B}
  `{OrdKeyDec A, OrdKeyDec B, EqDecision A} : OrdKeyDec (A * B).
Proof. intros x y; unfold ord_le, prod_ord, strict; apply _. Defined.

Lemma prod_ord_antisymm {A B} `{OrdKeyOk A, OrdKeyOk B} (x y : A * B) :
  ord_le x y → ord_le y x → x = y.
Proof.
  destruct x as [a1 b1], y as [a2 b2]; unfold ord_le, prod_ord; simpl.
  intros [[P1 P2]|[-> P1]] [[Q1 Q2]|[Q1 Q2]]; simplify_eq/=; try done.
  f_equal; by apply (anti_symm ord_le).
Qed.

#[export] Instance prod_ord_ok {A B} `{OrdKeyOk A, OrdKeyOk B} :
  OrdKeyOk (A * B).
Proof.
  assert (∀ x y : A * B, ord_le x y → x ≠ y → strict ord_le x y) as Hs.
  { intros x y Hxy Hne. split; [done|]. intros Hyx.
    by apply Hne, prod_ord_antisymm. }
  repeat split.
  - intros [a b]; right; split; simpl; reflexivity.
  - intros [a1 b1] [a2 b2] [a3 b3]; unfold ord_le, prod_ord; simpl.
    intros [P|[-> P]] [Q|[-> Q]]; eauto.
    + left; by etrans.
    + right; split; [done|by etrans].
  - intros x y; apply prod_ord_antisymm.
  - intros [a1 b1] [a2 b2].
    destruct (trichotomy (strict ord_le) a1 a2) as [Ha|[->|Ha]].
    + left; apply Hs; [by left|]. intros [= -> _]; by destruct Ha.
    + destruct (trichotomy (strict ord_le) b1 b2) as [Hb|[->|Hb]].
      * left; apply Hs; [right; by destruct Hb|]. intros [= ->]; by destruct Hb.
      * by right; left.
      * right; right; apply Hs; [right; by destruct Hb|].
        intros [= ->]; by destruct Hb.
    + right; right; apply Hs; [by left|]. intros [= -> _]; by destruct Ha.
Qed.

(** ** Stable sorting by a key *)

Section sort_by_key.
Context {A K : Type} `{OrdKey K, !OrdKeyDec K, !OrdKeyOk K} (key : A → K).

Definition key_le : relation A := λ x y, ord_le (key x) (key y).
#[export] Instance key_le_dec x y : Decision (key_le x y).
Proof. unfold key_le; apply _. Defined.

(** [slice::sort_by_key], which is stable: a record is inserted before the
    later ones whose keys are not smaller ([sort_by_key_stable]). *)
Fixpoint insert_by_key (x : A) (l : list A) : list A :=
  match l with
  | [] => [x]
  | y :: l' => if decide (key_le x y) then x :: l else y :: insert_by_key x l'
  end.
Definition sort_by_key (l : list A) : list A := foldr insert_by_key [] l.

#[export] Instance key_le_trans : Transitive key_le.
Proof. intros x y z; unfold key_le; apply transitivity. Qed.
#[export] Instance key_le_total : Total key_le.
Proof. intros x y; unfold key_le; apply (total ord_le). Qed.

Lemma insert_by_key_Permutation x l : insert_by_key x l ≡ₚ x :: l.
Proof.
  induction l as [|y l IH]; simpl; [done|]. case_decide; [done|].
  rewrite IH. apply Permutation_swap.
Qed.
Lemma sort_by_key_Permutation l : sort_by_key l ≡ₚ l.
Proof.
  induction l as [|x l IH]; simpl; [done|]. by rewrite insert_by_key_Permutation, IH.
Qed.

Lemma insert_by_key_sorted x l :
  StronglySorted key_le l → StronglySorted key_le (insert_by_key x l).
Proof.
  induction 1 as [|y l Hs IH Hy]; simpl; [by repeat constructor|]. case_decide as Hxy.
  - constructor; [by constructor|]. constructor; [done|].
    eapply Forall_impl; [done|]. intros z. by transitivity y.
  - constructor; [done|]. rewrite insert_by_key_Permutation. constructor; [|done].
    destruct (total key_le x y); [by destruct Hxy|done].
Qed.
Lemma sort_by_key_sorted l : StronglySorted key_le (sort_by_key l).
Proof. induction l; simpl; [constructor|by apply insert_by_key_sorted]. Qed.

Lemma insert_by_key_stable `{!EqDecision K} x l k :
  filter (λ y, key y = k) (insert_by_key x l) = filter (λ y, key y = k) (x :: l).
Proof.
  induction l as [|y l IH]; [done|]. simpl. case_decide as Hxy; [done|].
  rewrite filter_cons, IH, !filter_cons. repeat case_decide; try done.
  destruct Hxy. unfold key_le. replace (key y) with (key x) by congruence. reflexivity.
Qed.
(** Records with equal keys keep their relative order. *)
Lemma sort_by_key_stable `{!EqDecision K} l k :
  filter (λ y, key y = k) (sort_by_key l) = filter (λ y, key y = k) l.
Proof.
  induction l as [|x l IH]; [done|]. simpl.
  by rewrite insert_by_key_stable, !filter_cons, IH.
Qed.

Lemma elem_of_sort_by_key x l : x ∈ sort_by_key l ↔ x ∈ l.
Proof. by rewrite sort_by_key_Permutation. Qed.

(** Records with pairwise distinct keys have one sorted arrangement. *)
Lemma sorted_by_key_unique l1 l2 :
  NoDup (key <$> l1) → l1 ≡ₚ l2 →
  StronglySorted key_le l1 → StronglySorted key_le l2 → l1 = l2.
Proof.
  intros Hnd Hp H1 H2.
  apply (StronglySorted_unique_strong key_le); [|done..].
  intros x1 x2 Hx1 Hx2 H12 H21.
  assert (key x1 = key x2) as Heq by by apply (anti_symm ord_le).
  assert (x2 ∈ l1) as Hx2' by by rewrite Hp.
  apply list_elem_of_lookup in Hx1 as [i1 Hi1].
  apply list_elem_of_lookup in Hx2' as [i2 Hi2].
  assert (i1 = i2) as ->; [|congruence].
  apply (NoDup_lookup (key <$> l1) i1 i2 (key x1)); [done| |].
  - by rewrite list_lookup_fmap, Hi1.
  - by rewrite list_lookup_fmap, Hi2, Heq.
Qed.

Lemma sort_by_key_perm l1 l2 :
  NoDup (key <$> l1) → l1 ≡ₚ l2 → sort_by_key l1 = sort_by_key l2.
Proof.
  intros Hnd Hp. apply sorted_by_key_unique; [| |apply sort_by_key_sorted..].
  - by rewrite sort_by_key_Permutation.
  - by rewrite !sort_by_key_Permutation.
Qed.

Lemma sort_by_key_fmap_perm l : key <$> sort_by_key l ≡ₚ key <$> l.
Proof. by rewrite sort_by_key_Permutation. Qed.
End sort_by_key.

(** ** [BTreeMap] and [BTreeSet]

    A [BTreeMap<K, V>] is a [gmap K V] together with the iteration order of
    its keys: [btree_iter] lists the entries in ascending key order. *)
Section btree.
Context {K : Type} `{OrdKey K, !OrdKeyDec K, !OrdKeyOk K}.
Context `{EqDecision K, !Countable K}.
Context {A : Type}.
Implicit Types (m : gmap K A) (g : gmap K (list A)) (kv : list (K * A)).

Definition btree_iter {V : Type} (m : gmap K V) : list (K * V) :=
  sort_by_key fst (map_to_list m).
Definition btree_set_iter (s : gset K) : list K := sort_by_key id (elements s).

(** [map.entry(k).or_default().push(x)]. *)
Definition btree_push (k : K) (x : A) g : gmap K (list A) :=
  <[k := default [] (g !! k) ++ [x]]> g.
(** A loop of such pushes. *)
Definition btree_group kv : gmap K (list A) :=
  foldl (λ g p, btree_push p.1 p.2 g) ∅ kv.

Lemma elem_of_btree_iter {V} (m : gmap K V) k v :
  (k, v) ∈ btree_iter m ↔ m !! k = Some v.
Proof. unfold btree_iter. by rewrite elem_of_sort_by_key, elem_of_map_to_list. Qed.

Lemma btree_iter_Permutation {V} (m : gmap K V) : btree_iter m ≡ₚ map_to_list m.
Proof. apply sort_by_key_Permutation. Qed.

Lemma btree_iter_NoDup_fst {V} (m : gmap K V) : NoDup (btree_iter m).*1.
Proof. rewrite btree_iter_Permutation. apply NoDup_fst_map_to_list. Qed.

Lemma btree_iter_sorted {V} (m : gmap K V) : StronglySorted (key_le fst) (btree_iter m).
Proof. apply sort_by_key_sorted. Qed.

Lemma elem_of_btree_keys {V} (m : gmap K V) k : k ∈ (btree_iter m).*1 ↔ is_Some (m !! k).
Proof.
  rewrite list_elem_of_fmap. split.
  - intros ([k' v] & -> & Hin). exists v. by apply elem_of_btree_iter.
  - intros [v Hv]. exists (k, v). split; [done|]. by apply elem_of_btree_iter.
Qed.

Lemma elem_of_btree_set_iter (s : gset K) k : k ∈ btree_set_iter s ↔ k ∈ s.
Proof. unfold btree_set_iter. by rewrite elem_of_sort_by_key, elem_of_elements. Qed.

Lemma btree_group_snoc kv p :
  btree_group (kv ++ [p]) = btree_push p.1 p.2 (btree_group kv).
Proof. unfold btree_group. by rewrite foldl_app. Qed.

(** A bucket holds the values pushed under its key, in push order, and
    exists only if there is one. *)
Lemma btree_group_lookup kv k :
  default [] (btree_group kv !! k) = (filter (λ p, p.1 = k) kv).*2.
Proof.
  induction kv as [|[k' x] kv IH] using rev_ind; [done|].
  rewrite btree_group_snoc, filter_app, fmap_app. unfold btree_push; simpl.
  destruct (decide (k' = k)) as [->|Hne].
  - rewrite lookup_insert_eq; simpl. rewrite IH, filter_cons_True by done. done.
  - rewrite lookup_insert_ne, filter_cons_False by done. by rewrite IH, app_nil_r.
Qed.

Lemma btree_group_nonempty kv k l : btree_group kv !! k = Some l → l ≠ [].
Proof.
  induction kv as [|[k' x] kv IH] using rev_ind; [done|].
  rewrite btree_group_snoc. unfold btree_push; simpl.
  destruct (decide (k' = k)) as [->|Hne].
  - rewrite lookup_insert_eq. intros [= <-]. by destruct (default _ _).
  - rewrite lookup_insert_ne by done. apply IH.
Qed.

Lemma btree_group_lookup_Some kv k l :
  btree_group kv !! k = Some l → l = (filter (λ p, p.1 = k) kv).*2.
Proof. intros Hl. by rewrite <- btree_group_lookup, Hl. Qed.

Lemma elem_of_btree_group kv k l x :
  btree_group kv !! k = Some l → x ∈ l ↔ (k, x) ∈ kv.
Proof.
  intros ->%btree_group_lookup_Some. rewrite list_elem_of_fmap. split.
  - intros [[k' y] [-> [Hk Hin]%list_elem_of_filter]]. simpl in *. by subst.
  - intros Hin. exists (k, x). split; [done|]. by apply list_elem_of_filter.
Qed.

Lemma btree_group_has kv k x :
  (k, x) ∈ kv → ∃ l, btree_group kv !! k = Some l ∧ x ∈ l.
Proof.
  intros Hin. destruct (btree_group kv !! k) as [l|] eqn:El.
  - exists l. split; [done|]. by apply (elem_of_btree_group kv k).
  - pose proof (btree_group_lookup kv k) as Hk. rewrite El in Hk; simpl in Hk.
    assert (x ∈ (filter (λ p, p.1 = k) kv).*2) as Hx.
    { apply list_elem_of_fmap. exists (k, x). split; [done|].
      by apply list_elem_of_filter. }
    rewrite <- Hk in Hx. by apply elem_of_nil in Hx.
Qed.

(** Grouping loses and duplicates nothing. *)
Lemma btree_group_concat kv :
  concat (btree_iter (btree_group kv)).*2 ≡ₚ kv.*2.
Proof.
  rewrite btree_iter_Permutation.
  induction kv as [|[k x] kv IH] using rev_ind; [done|].
  rewrite btree_group_snoc, fmap_app. unfold btree_push; simpl.
  set (g := btree_group kv) in *.
  destruct (g !! k) as [l|] eqn:El; simpl.
  - assert (map_to_list g ≡ₚ (k, l) :: map_to_list (delete k g)) as Hg.
    { rewrite <- map_to_list_insert by apply lookup_delete_eq.
      by rewrite insert_delete_id. }
    rewrite Hg in IH; simpl in IH. rewrite <- IH.
    rewrite <- (insert_delete_eq g k (l ++ [x])).
    rewrite map_to_list_insert by apply lookup_delete_eq; simpl.
    solve_Permutation.
  - rewrite map_to_list_insert by done; simpl. rewrite IH. solve_Permutation.
Qed.
End btree.

(** [slice::windows(2)]. *)
Definition windows2 {A} (l : list A) : list (A * A) := zip l (tail l).

Lemma elem_of_windows2 {A} (l : list A) x y :
  (x, y) ∈ windows2 l → x ∈ l ∧ y ∈ l.
Proof.
  unfold windows2. intros Hin. apply elem_of_zip_l in Hin as Hl.
  apply elem_of_zip_r in Hin as Hr. split; [done|].
  destruct l; simpl in *; [by apply elem_of_nil in Hr|by right].
Qed.

(** Chaining consecutive elements connects a whole list. *)
Lemma windows2_connected {A} (l : list A) (R : relation A) `{!Equivalence R} :
  (∀ x y, (x, y) ∈ windows2 l → R x y) →
  ∀ x y, x ∈ l → y ∈ l → R x y.
Proof.
  intros HR. assert (∀ a, a ∈ l → match l with [] => True | z :: _ => R z a end) as Hhd.
  { induction l as [|a l IH]; [done|]. intros b [->|Hb]%elem_of_cons; [done|].
    destruct l as [|c l]; [by apply elem_of_nil in Hb|].
    transitivity c; [apply HR; left|]. apply IH; [|done].
    intros x y Hxy. apply HR. by right. }
  intros x y Hx Hy. destruct l as [|z l]; [by apply elem_of_nil in Hx|].
  transitivity z; [symmetry|]; by apply Hhd.
Qed.

(** ** More orders *)

(** The order a type inherits from an injective key. *)
Lemma ord_key_via {A K} `{OrdKeyOk K} (f : A → K) `{!Inj (=) (=) f} :
  TotalOrder (λ x y : A, ord_le (f x) (f y)).
Proof.
  repeat split.
  - intros x; reflexivity.
  - intros x y z; apply transitivity.
  - intros x y Hxy Hyx. apply (inj f). by apply (anti_symm ord_le).
  - intros x y. unfold strict.
    destruct (trichotomy (strict ord_le) (f x) (f y)) as [?|[?%(inj f)|?]]; auto.
Qed.

(** [Option<K>]: [None] sorts first. *)
#[export] Instance option_ord {K} `{OrdKey K} : OrdKey (option K) := λ x y,
  match x, y with
  | None, _ => True
  | Some _, None => False
  | Some a, Some b => ord_le a b
  end.
#[export] Instance option_ord_dec {K} `{OrdKeyDec K} : OrdKeyDec (option K).
Proof. intros [a|] [b|]; unfold ord_le, option_ord; apply _. Defined.
#[export] Instance option_ord_ok {K} `{OrdKeyOk K} : OrdKeyOk (option K).
Proof.
  repeat split.
  - intros [a|]; unfold ord_le, option_ord; [reflexivity|done].
  - intros [a|] [b|] [c|]; unfold ord_le, option_ord; try done. apply transitivity.
  - intros [a|] [b|]; unfold ord_le, option_ord; try done.
    intros ??; f_equal; by apply (anti_symm ord_le).
  - intros [a|] [b|]; unfold strict, ord_le, option_ord; try by auto.
    destruct (trichotomy (strict ord_le) a b) as [[]|[->|[]]]; auto.
Qed.

(** ** Lists *)

(** [Vec::dedup]: drop consecutive repetitions. *)
Fixpoint dedup {A} `{EqDecision A} (l : list A) : list A :=
  match l with
  | [] => []
  | x :: l' =>
      match dedup l' with
      | (y :: _) as r => if decide (x = y) then r else x :: r
      | [] => [x]
      end
  end.

Lemma elem_of_dedup {A} `{EqDecision A} (l : list A) x : x ∈ dedup l ↔ x ∈ l.
Proof.
  induction l as [|a l IH]; [done|]. rewrite elem_of_cons, <- IH. simpl.
  destruct (dedup l) as [|b r].
  { rewrite list_elem_of_singleton, elem_of_nil. tauto. }
  case_decide as Hab; [|rewrite !elem_of_cons; tauto].
  subst b. rewrite !elem_of_cons. tauto.
Qed.

Lemma dedup_NoDup {A} `{EqDecision A} (l : list A) : NoDup l → dedup l = l.
Proof.
  induction l as [|a l IH]; [done|]. intros [Ha Hl]%NoDup_cons.
  simpl. rewrite IH by done. destruct l as [|b l]; [done|].
  rewrite decide_False; [done|]. intros ->. apply Ha. left.
Qed.

Lemma dedup_nil {A} `{EqDecision A} (l : list A) : dedup l = [] → l = [].
Proof.
  destruct l as [|a l]; [done|]. intros Hd.
  assert (a ∈ dedup (a :: l)) as Ha by (apply elem_of_dedup; left).
  rewrite Hd in Ha. by apply elem_of_nil in Ha.
Qed.

(** [iter().map(|x| (key(x), x)).collect::<BTreeMap<_, _>>()]: a later record
    replaces an earlier one with the same key. *)
Definition collect_by {K A} `{Countable K} (key : A → K) (l : list A) : gmap K A :=
  foldl (λ m x, <[key x := x]> m) ∅ l.

Lemma collect_by_snoc {K A} `{Countable K} (key : A → K) l x :
  collect_by key (l ++ [x]) = <[key x := x]> (collect_by key l).
Proof. unfold collect_by. by rewrite foldl_app. Qed.

Lemma collect_by_Some {K A} `{Countable K} (key : A → K) l k x :
  collect_by key l !! k = Some x → x ∈ l ∧ key x = k.
Proof.
  induction l as [|y l IH] using rev_ind; [done|].
  rewrite collect_by_snoc. destruct (decide (key y = k)) as [<-|Hne].
  - rewrite lookup_insert_eq. intros [= ->]. set_solver.
  - rewrite lookup_insert_ne by done. intros Hx%IH. set_solver.
Qed.

Lemma collect_by_is_Some {K A} `{Countable K} (key : A → K) l k :
  is_Some (collect_by key l !! k) ↔ k ∈ key <$> l.
Proof.
  induction l as [|y l IH] using rev_ind.
  { split; [by intros []|]. intros []%elem_of_nil. }
  rewrite collect_by_snoc, fmap_app, elem_of_app, <- IH; simpl.
  destruct (decide (key y = k)) as [<-|Hne].
  - rewrite lookup_insert_eq. set_solver.
  - rewrite lookup_insert_ne by done. set_solver.
Qed.

Lemma collect_by_NoDup {K A} `{Countable K} (key : A → K) l x :
  NoDup (key <$> l) → x ∈ l → collect_by key l !! key x = Some x.
Proof.
  induction l as [|y l IH] using rev_ind; [by intros ? []%elem_of_nil|].
  rewrite collect_by_snoc, fmap_app, NoDup_app. intros (Hnd & Hd & _) Hx.
  apply elem_of_app in Hx as [Hx| ->%list_elem_of_singleton].
  - rewrite lookup_insert_ne; [by apply IH|]. intros Heq.
    apply (Hd (key x)); [by apply list_elem_of_fmap_2|]. rewrite <- Heq. left.
  - by rewrite lookup_insert_eq.
Qed.

(** With pairwise distinct keys the order of collection is irrelevant. *)
Lemma collect_by_perm {K A} `{Countable K} (key : A → K) l1 l2 :
  NoDup (key <$> l1) → l1 ≡ₚ l2 → collect_by key l1 = collect_by key l2.
Proof.
  intros Hnd Hp. assert (NoDup (key <$> l2)) as Hnd2 by by rewrite <- Hp.
  apply map_eq. intros k. apply option_eq. intros x. split.
  - intros [Hx <-]%collect_by_Some. apply collect_by_NoDup; [done|by rewrite <- Hp].
  - intros [Hx <-]%collect_by_Some. apply collect_by_NoDup; [done|by rewrite Hp].
Qed.

Lemma Forall2_elem_of_l {A B} (P : A → B → Prop) l k x :
  Forall2 P l k → x ∈ l → ∃ y, y ∈ k ∧ P x y.
Proof.
  induction 1 as [|a b l k Hab _ IH]; [by intros []%elem_of_nil|].
  intros [->|Hx]%elem_of_cons.
  - exists b. split; [left|done].
  - destruct (IH Hx) as (y & Hy & HP). exists y. split; [by right|done].
Qed.

Lemma Forall2_elem_of_r {A B} (P : A → B → Prop) l k y :
  Forall2 P l k → y ∈ k → ∃ x, x ∈ l ∧ P x y.
Proof. intros HP%Forall2_flip Hy. by apply (Forall2_elem_of_l (flip P) k l y). Qed.

(** Two records of a list with pairwise distinct keys that share a key are
    the same record. *)
Lemma NoDup_fmap_elem {A B} (f : A → B) l x y :
  NoDup (f <$> l) → x ∈ l → y ∈ l → f x = f y → x = y.
Proof.
  intros Hnd [i Hi]%list_elem_of_lookup [j Hj]%list_elem_of_lookup Heq.
  assert (i = j) as ->; [|congruence].
  apply (NoDup_lookup (f <$> l) i j (f x)); [done| |].
  - by rewrite list_lookup_fmap, Hi.
  - by rewrite list_lookup_fmap, Hj, Heq.
Qed.

(** ** Lexicographic order on lists and strings *)

#[export] Instance list_ord {K} `{OrdKey K} : OrdKey (list K) :=
  fix go (x y : list K) :=
    match x, y with
    | [], _ => True
    | _ :: _, [] => False
    | a :: x', b :: y' => strict ord_le a b ∨ (a = b ∧ go x' y')
    end.

#[export] Instance list_ord_dec {K} `{OrdKeyDec K, EqDecision K} : OrdKeyDec (list K).
Proof.
  intros x. induction x as [|a x IH]; intros [|b y]; cbn; unfold strict; apply _.
Defined.

#[export] Instance list_ord_ok {K} `{OrdKeyOk K} : OrdKeyOk (list K).
Proof.
  assert (∀ a b c : K, strict ord_le a b → strict ord_le b c → strict ord_le a c) as Htr
    by (intros ???; apply transitivity).
  repeat split.
  - intros x. induction x as [|a x IH]; cbn; [done|]. by right.
  - intros x. induction x as [|a x IH]; intros [|b y] [|c z]; cbn; try done.
    intros [H1|[-> H1]] [H2|[-> H2]]; eauto.
  - intros x. induction x as [|a x IH]; intros [|b y]; cbn; try done.
    intros [[P1 P2]|[-> P]] [[Q1 Q2]|[? Q]]; subst; try done. by rewrite (IH y).
  - intros x. induction x as [|a x IH]; intros [|b y]; unfold strict; cbn.
    + by right; left.
    + left. split; [done|by intros []].
    + right; right. split; [done|by intros []].
    + destruct (trichotomy (strict ord_le) a b) as [Hab|[->|Hba]].
      * left. split; [by left|]. intros [Hba|[-> _]]; [|by destruct Hab].
        destruct Hab as [_ Hn], Hba as [Hba _]. done.
      * assert (∀ x y, ¬ ord_le y x →
          ¬ (strict ord_le b b ∨ b = b ∧ list_ord (K := K) y x)) as Hirr.
        { intros u v Huv [[H1 H2]|[_ ?]]; done. }
        destruct (IH y) as [[H1 H2]|[->|[H1 H2]]]; [|by right; left|].
        -- left. split; [by right|]. by apply Hirr.
        -- right; right. split; [by right|]. by apply Hirr.
      * right; right. split; [by left|]. intros [Hab|[-> _]]; [|by destruct Hba].
        destruct Hba as [_ Hn], Hab as [Hab _]. done.
Qed.

(** A Rust [String] compares by its bytes. *)
Definition string_bytes (s : string) : list N :=
  Ascii.N_of_ascii <$> String.list_ascii_of_string s.

#[export] Instance string_bytes_inj : Inj (=) (=) string_bytes.
Proof.
  intros x y Heq. unfold string_bytes in Heq.
  assert (Inj (=) (=) Ascii.N_of_ascii) as Hinj.
  { intros a b Hab. by rewrite <- (Ascii.ascii_N_embedding a), Hab, Ascii.ascii_N_embedding. }
  apply (inj (fmap Ascii.N_of_ascii)) in Heq.
  rewrite <- (String.string_of_list_ascii_of_string x), Heq.
  apply String.string_of_list_ascii_of_string.
Qed.

#[export] Instance string_ord : OrdKey string := λ x y, ord_le (string_bytes x) (string_bytes y).
#[export] Instance string_ord_dec : OrdKeyDec string.
Proof. intros x y; unfold ord_le, string_ord; apply _. Defined.
#[export] Instance string_ord_ok : OrdKeyOk string.
Proof. apply (ord_key_via string_bytes). Qed.

(** ** Collecting results *)

(** [Iterator::collect] into a [Result<Vec<_>, _>]: the first error wins. *)
Fixpoint collect_results {E A} (rs : list (result E A)) : result E (list A) :=
  match rs with
  | [] => Ok []
  | Ok a :: rs => match collect_results rs with Ok xs => Ok (a :: xs) | Err e => Err e end
  | Err e :: _ => Err e
  end.

Lemma collect_results_Ok {E A B} (f : A → result E B) xs ys :
  collect_results (f <$> xs) = Ok ys ↔ Forall2 (λ x y, f x = Ok y) xs ys.
Proof.
  revert ys. induction xs as [|x xs IH]; intros ys; simpl.
  - split; [by intros [= <-]|by inversion 1].
  - change (list_fmap A (result E B) f xs) with (f <$> xs).
    destruct (f x) as [y|e] eqn:Ef.
    + destruct (collect_results (f <$> xs)) as [ys'|e] eqn:Ec.
      * split; [intros [= <-]; constructor; [done|by apply IH]|].
        inversion 1; simplify_eq. do 2 f_equal; [congruence|].
        assert (Ok (E := E) ys' = Ok l') as [= ?]; [by apply IH|done].
      * split; [done|]. inversion 1; simplify_eq.
        assert (Err e = Ok (E := E) l'); [by apply IH|done].
    + split; [done|]. inversion 1; congruence.
Qed.

Lemma collect_results_total {E A B} (f : A → result E B) xs :
  (∀ x, x ∈ xs → ∃ y, f x = Ok y) → ∃ ys, collect_results (f <$> xs) = Ok ys.
Proof.
  intros Hall. setoid_rewrite collect_results_Ok.
  induction xs as [|x xs IH]; [by exists []; constructor|].
  destruct (Hall x) as [y Hy]; [by left|].
  destruct IH as [ys Hys]; [intros; apply Hall; by right|].
  exists (y :: ys). by constructor.
Qed.
