(* ===== verification/Types.v ===== *)
(** * Canonical domain types

    The records and enums of [crates/fornax-types/src/lib.rs], [sensor.rs],
    [capabilities.rs] and [extension.rs] that the verification core reads:
    claims, evidence and its provenance, verdicts, findings, and the runtime
    capability vocabulary. Every field of the source record is kept, also
    those no modelled function reads. [serde_json::Value] is the type
    [Value]; RFC3339 timestamps stay strings, as in the source. *)

From S2P Require Import Prelude.

(** ** JSON values *)

(** [serde_json::Value]; an integral number is a [Z], any other number is
    kept as its source text. *)
Inductive Value : Type :=
| JNull
| JBool (b : bool)
| JInt (n : Z)
| JNumber (text : string)
| JString (s : string)
| JArray (items : list Value)
| JObject (fields : list (string * Value)).

#[export] Instance Value_eq_dec : EqDecision Value.
Proof.
  refine (fix go (v w : Value) : Decision (v = w) :=
    match v, w with
    | JNull, JNull => left eq_refl
    | JBool b, JBool c => cast_if (decide (b = c))
    | JInt n, JInt m => cast_if (decide (n = m))
    | JNumber s, JNumber t => cast_if (decide (s = t))
    | JString s, JString t => cast_if (decide (s = t))
    | JArray xs, JArray ys => cast_if (@list_eq_dec _ go xs ys)
    | JObject xs, JObject ys =>
        cast_if (@list_eq_dec _ (@prod_eq_dec _ _ _ go) xs ys)
    | _, _ => right _
    end); abstract congruence.
Defined.

(** ** Providers, signals and capabilities *)

Inductive Provider := ClaudeCode | Codex | OpenCode | ProviderUnknown.
#[export] Instance Provider_eq_dec : EqDecision Provider.
Proof. solve_decision. Defined.

Inductive SignalAvailability :=
| Available | Unsupported | SigUnavailable | Redacted | CollectionFailed
| Unknown | Disabled
| AvailabilityUnrecognized (tag : string).
#[export] Instance SignalAvailability_eq_dec : EqDecision SignalAvailability.
Proof. solve_decision. Defined.

Inductive SignalClass :=
| ToolInvocation | ToolTrace | ToolResultPayload | ProcessResult
| SessionLifecycle | SubagentLifecycle | FinalResponse | ReasoningSummary
| RawReasoning | TokenLogprobs | InternalModelSignals
| ClassUnrecognized (tag : string).
#[export] Instance SignalClass_eq_dec : EqDecision SignalClass.
Proof. solve_decision. Defined.

Record CapabilitySignal := mkCapabilitySignal {
  cs_class : SignalClass;
  cs_state : SignalAvailability;
  cs_detail : option string;
}.

Record RuntimeCapabilities := mkRuntimeCapabilities {
  rc_schema_version : N;
  rc_provider : Provider;
  rc_signals : list CapabilitySignal;
  rc_notes : gmap string string;
}.

(** [RuntimeCapabilities::state_of]: the first recorded signal of the class,
    [Unknown] when the class was never recorded. *)
Definition state_of (c : RuntimeCapabilities) (class : SignalClass) : SignalAvailability :=
  match list_find (λ s, cs_class s = class) (rc_signals c) with
  | Some (_, s) => cs_state s
  | None => Unknown
  end.

(** [RuntimeCapabilities::is_observable]. *)
Definition is_observable (c : RuntimeCapabilities) (class : SignalClass) : bool :=
  match state_of c class with Available => true | _ => false end.

(** ** Evidence provenance *)

Inductive TrustClass :=
| AgentAdjacent | HostObserved | IndependentExternal | HumanReviewed
| ModelInternal
| TrustUnrecognized (tag : string).
#[export] Instance TrustClass_eq_dec : EqDecision TrustClass.
Proof. solve_decision. Defined.

Inductive CollectionMethod :=
| HookCallback | FilePoll | HttpWebhook | HttpQuery | CmProcessObservation
| CmReconstructed | CmPreProvenance
| CmUnrecognized (tag : string).

Inductive ClockSource :=
| HostClock | ProviderReported | ClkReconstructed | ClkPreProvenance
| ClkUnrecognized (tag : string).

Record Freshness := mkFreshness {
  clock_source : ClockSource;
  caveat : option string;
}.

Record TamperBoundary := mkTamperBoundary {
  tb_description : string;
  tb_detail : option string;
}.

Record EvidenceSource := mkEvidenceSource {
  sensor_name : string;
  trust_class : TrustClass;
  collected_at : string;
  src_provider : option Provider;
  collection_method : CollectionMethod;
  collector_version : option string;
  src_freshness : Freshness;
  tamper_boundary : TamperBoundary;
  correlation_group : option Uuid;
  derived_from : list Uuid;
}.

Inductive ContentClass :=
| ToolTelemetry | ProviderDiagnostic | ExperimentalSignal | RawProviderMetadata
| ContentUnrecognized (tag : string).

Record ExtensionEnvelope := mkExtensionEnvelope {
  ext_schema_version : N;
  ext_provider : Provider;
  ext_adapter_version : string;
  ext_content_class : ContentClass;
  ext_fields : Value;
  ext_unknown : list (string * Value);
}.

(** ** Claims, evidence, verdicts and findings *)

Record Claim := mkClaim {
  claim_id : Uuid;
  claim_session_id : string;
  claim_source_event_id : Uuid;
  claim_text : string;
  claim_subject : string;
  claimed_at : string;
}.

Inductive EvidenceKind :=
| ToolResult | ExitCode | FileDiff | ProcessObservation | TranscriptExcerpt.
#[export] Instance EvidenceKind_eq_dec : EqDecision EvidenceKind.
Proof. solve_decision. Defined.

Record Evidence := mkEvidence {
  ev_id : Uuid;
  ev_session_id : string;
  ev_source_event_id : Uuid;
  ev_kind : EvidenceKind;
  ev_observed_at : string;
  ev_payload : Value;
  ev_provenance : string;
  ev_source : option EvidenceSource;
  ev_extension : option ExtensionEnvelope;
  evidence_purged : bool;
}.

Inductive Verdict := Verified | Unverified | Contradicted | Review | Unavailable.
#[export] Instance Verdict_eq_dec : EqDecision Verdict.
Proof. solve_decision. Defined.

Record Finding := mkFinding {
  finding_id : Uuid;
  finding_claim_id : Uuid;
  finding_verdict : Verdict;
  finding_evidence_ids : list Uuid;
  verifier_name : string;
  finding_rationale : string;
  finding_computed_at : string;
}.

(** ** Clock-free time

    [chrono] is not part of the repository: its RFC3339 parser and the
    whole-second reading of a duration are parameters. An instant is a number
    of nanoseconds since the epoch, and a duration a number of
    nanoseconds. *)
Class Chrono := {
  parse_from_rfc3339 : string → option Z;
  num_seconds : Z → Z;
}.

Definition nanos_per_second : Z := 1000000000.

(** The documented behaviour of [TimeDelta::num_seconds]: the number of whole
    seconds of the duration, the fraction dropped toward zero. *)
Class ChronoOk `{Chrono} : Prop :=
  num_seconds_trunc : ∀ d, num_seconds d = Z.quot d nanos_per_second.

(** [DateTime::<Utc>::to_rfc3339], and the sum with a [Duration] of whole
    days, which panics ([None]) when it is out of range. *)
Class ChronoFmt := {
  to_rfc3339 : Z → string;
  add_days : Z → Z → option Z;
}.

(** ** The local store

    [StoreError]: a failing database call, a value that could not be
    serialized, an audit row that cannot be read back, a refused egress
    configuration, and the rows the event store refuses. *)
Inductive StoreError :=
| StoreDb
| StoreJson (detail : string)
| AuditLedgerCorrupt (detail : string)
| InvalidEgress (detail : string)
| IdCollision (table id : string)
| ClaimIdCollision (id : string)
| ClaimSourceMismatch (id : string)
| MissingSessionIdentity (kind : string)
| HostIdentityMismatch (field : string)
| EvidenceConsumptionCorrupt (detail : string).

(** What SQLite answers in an operation's transaction: it commits, its COMMIT
    fails, or an earlier statement fails. *)
Inductive Sqlite := Commits | CommitFails | StatementFails.
