(* ===== verification/Text.v ===== *)
(** * Rust strings as sequences of characters

    A [str] is stored as its UTF-8 bytes (the Rocq [string]s of the data
    model), but the functions the repository calls on it are defined on its
    [char]s: this file holds the two conversions with their round trip, and
    the operations of the standard library the text-processing code uses
    ([lines], [split_whitespace], [join], [contains], [starts_with]). *)

From S2P Require Import Prelude.

(** A Unicode code point. *)
Abbreviation Char := N (only parsing).
Abbreviation Chars := (list N) (only parsing).

(** ** UTF-8 *)

Definition encode_char (c : Char) : list N :=
  (if decide (c < 128) then [c]
   else if decide (c < 2048) then [192 + c / 64; 128 + c mod 64]
   else if decide (c < 65536) then [224 + c / 4096; 128 + (c / 64) mod 64; 128 + c mod 64]
   else [240 + c / 262144; 128 + (c / 4096) mod 64; 128 + (c / 64) mod 64;
         128 + c mod 64])%N.

(** The decoder of a valid byte string: the leading byte gives the width, and
    each continuation byte six bits. *)
Fixpoint decode (bytes : list N) : Chars :=
  match bytes with
  | [] => []
  | b :: r =>
      if decide (b < 128)%N then b :: decode r
      else if decide (b < 224)%N then
        match r with
        | b1 :: r => ((b - 192) * 64 + b1 mod 64)%N :: decode r
        | [] => []
        end
      else if decide (b < 240)%N then
        match r with
        | b1 :: b2 :: r =>
            ((b - 224) * 4096 + (b1 mod 64) * 64 + b2 mod 64)%N :: decode r
        | _ => []
        end
      else
        match r with
        | b1 :: b2 :: b3 :: r =>
            ((b - 240) * 262144 + (b1 mod 64) * 4096 + (b2 mod 64) * 64 + b3 mod 64)%N
              :: decode r
        | _ => []
        end
  end.

Definition bytes_string (bytes : list N) : string :=
  String.string_of_list_ascii (Ascii.ascii_of_N <$> bytes).
Definition chars (s : string) : Chars := decode (string_bytes s).
Definition from_chars (cs : Chars) : string := bytes_string (cs ≫= encode_char).

(** The code points the decoder can produce and the encoder takes back. *)
Definition char_max : N := 4194304.

(** Linear arithmetic with division and remainder by constants. *)
Ltac char_lia := zify; Z.to_euclidean_division_equations; lia.

Lemma encode_decode c bytes :
  (c < char_max)%N → decode (encode_char c ++ bytes) = c :: decode bytes.
Proof.
  unfold char_max, encode_char. intros Hc.
  repeat case_decide; simpl; repeat (rewrite decide_False by (char_lia));
    repeat (rewrite decide_True by (char_lia)); f_equal; char_lia.
Qed.

Lemma encode_char_bytes c : (c < char_max)%N → Forall (λ b, b < 256)%N (encode_char c).
Proof.
  unfold char_max, encode_char. intros Hc.
  repeat case_decide; repeat constructor; char_lia.
Qed.

Lemma decode_encode cs : Forall (λ c, c < char_max)%N cs → decode (cs ≫= encode_char) = cs.
Proof.
  induction 1 as [|c cs Hc _ IH]; [done|]. by rewrite bind_cons, encode_decode, IH.
Qed.

Lemma string_bytes_of_bytes bytes :
  Forall (λ b, b < 256)%N bytes → string_bytes (bytes_string bytes) = bytes.
Proof.
  intros Hb. unfold string_bytes, bytes_string.
  rewrite String.list_ascii_of_string_of_list_ascii, <-list_fmap_compose.
  rewrite <-(list_fmap_id bytes) at 2. apply list_fmap_ext. intros i b Hi. simpl.
  apply Ascii.N_ascii_embedding. by apply (Forall_lookup_1 _ _ _ _ Hb Hi).
Qed.

Lemma string_bytes_bound s : Forall (λ b, b < 256)%N (string_bytes s).
Proof.
  apply Forall_fmap, Forall_forall. intros a _. simpl. apply Ascii.N_ascii_bounded.
Qed.

Lemma decode_bound_len n : ∀ bytes, length bytes ≤ n →
  Forall (λ b, b < 256)%N bytes → Forall (λ c, c < char_max)%N (decode bytes).
Proof.
  induction n as [|n IH]; intros [|b r] Hlen Hb; simpl in *; try by constructor; try lia.
  1: lia.
  unfold char_max in *. inversion Hb as [|? ? Hb0 Hr]; subst.
  repeat case_decide.
  - constructor; [char_lia|]. apply IH; [lia|done].
  - destruct r as [|b1 r]; [constructor|]. inversion Hr; subst.
    constructor; [char_lia|]. apply IH; [simpl in *; lia|done].
  - destruct r as [|b1 [|b2 r]]; try by constructor.
    inversion Hr as [|? ? ? Hr1]; subst. inversion Hr1; subst.
    constructor; [char_lia|]. apply IH; [simpl in *; lia|done].
  - destruct r as [|b1 [|b2 [|b3 r]]]; try by constructor.
    inversion Hr as [|? ? ? Hr1]; subst. inversion Hr1 as [|? ? ? Hr2]; subst.
    inversion Hr2; subst. constructor; [char_lia|]. apply IH; [simpl in *; lia|done].
Qed.

Lemma chars_bound s : Forall (λ c, c < char_max)%N (chars s).
Proof. by eapply decode_bound_len, string_bytes_bound. Qed.

(** Decoding what was encoded. *)
Lemma chars_from_chars cs :
  Forall (λ c, c < char_max)%N cs → chars (from_chars cs) = cs.
Proof.
  intros Hc. unfold chars, from_chars. rewrite string_bytes_of_bytes; [by apply decode_encode|].
  clear -Hc. induction Hc as [|c cs Hc _ IH]; [constructor|]. rewrite bind_cons.
  apply Forall_app. split; [by apply encode_char_bytes|done].
Qed.

(** [str::len], in bytes. *)
Definition len_utf8 (c : Char) : nat := length (encode_char c).
Definition str_len (cs : Chars) : nat := sum_list (len_utf8 <$> cs).

(** ** Classes of characters *)

(** [char::is_whitespace]: the code points of the Unicode property
    White_Space. *)
Definition is_whitespace (c : Char) : bool :=
  bool_decide (9 ≤ c ≤ 13 ∨ c = 32 ∨ c = 0x85 ∨ c = 0xA0 ∨ c = 0x1680 ∨
    0x2000 ≤ c ≤ 0x200A ∨ c = 0x2028 ∨ c = 0x2029 ∨ c = 0x202F ∨ c = 0x205F ∨ c = 0x3000)%N.
Definition is_ascii_digit (c : Char) : bool := bool_decide (48 ≤ c ≤ 57)%N.
Definition is_ascii_uppercase (c : Char) : bool := bool_decide (65 ≤ c ≤ 90)%N.
Definition is_ascii_lowercase (c : Char) : bool := bool_decide (97 ≤ c ≤ 122)%N.
Definition is_ascii_alphabetic (c : Char) : bool :=
  is_ascii_uppercase c || is_ascii_lowercase c.
Definition is_ascii_alphanumeric (c : Char) : bool :=
  is_ascii_alphabetic c || is_ascii_digit c.

(** ** Searching *)

Fixpoint starts_with (pattern cs : Chars) : bool :=
  match pattern, cs with
  | [], _ => true
  | p :: pattern, c :: cs => bool_decide (p = c) && starts_with pattern cs
  | _ :: _, [] => false
  end.

(** [str::contains] of a substring. *)
Fixpoint contains (pattern cs : Chars) : bool :=
  starts_with pattern cs ||
  match cs with [] => false | _ :: cs => contains pattern cs end.

Lemma starts_with_spec p cs : starts_with p cs = true ↔ ∃ post, cs = p ++ post.
Proof.
  revert cs. induction p as [|a p IH]; intros cs; simpl.
  { split; [by exists cs|done]. }
  destruct cs as [|c cs].
  { split; [done|]. by intros [? ?]. }
  rewrite andb_true_iff, bool_decide_eq_true, IH. split.
  - intros [-> [post ->]]. by exists post.
  - intros [post [= -> ->]]. eauto.
Qed.

Lemma contains_spec p cs : contains p cs = true ↔ ∃ pre post, cs = pre ++ p ++ post.
Proof.
  induction cs as [|c cs IH]; simpl; rewrite orb_true_iff, starts_with_spec.
  - split; [intros [[post ->]|]; [by exists [], post|done]|].
    intros (pre & post & Heq). destruct pre; [|done]. left. by exists post.
  - rewrite IH. split.
    + intros [[post ->]|(pre & post & ->)]; [by exists [], post|]. by exists (c :: pre), post.
    + intros ([|a pre] & post & Heq); simplify_eq/=; [left; by exists post|right; eauto].
Qed.

(** ** Splitting and joining *)

Definition flush (cur : Chars) : list Chars := match cur with [] => [] | _ => [cur] end.

(** [str::split_whitespace]. *)
Fixpoint split_ws (cur cs : Chars) : list Chars :=
  match cs with
  | [] => flush cur
  | c :: cs =>
      if is_whitespace c then flush cur ++ split_ws [] cs else split_ws (cur ++ [c]) cs
  end.
Definition split_whitespace (cs : Chars) : list Chars := split_ws [] cs.

(** A line loses its line feed and a carriage return before it. *)
Definition strip_cr (line : Chars) : Chars :=
  match last line with
  | Some 13%N => take (length line - 1) line
  | _ => line
  end.

(** [str::lines]: no line after a final line feed, and a final line without
    one keeps a carriage return. *)
Fixpoint split_lines (cur cs : Chars) : list Chars :=
  match cs with
  | [] => flush cur
  | c :: cs =>
      if decide (c = 10%N) then strip_cr cur :: split_lines [] cs
      else split_lines (cur ++ [c]) cs
  end.
Definition lines (cs : Chars) : list Chars := split_lines [] cs.

(** [\[_\]::join]. *)
Fixpoint join (sep : Chars) (parts : list Chars) : Chars :=
  match parts with
  | [] => []
  | [p] => p
  | p :: parts => p ++ sep ++ join sep parts
  end.

(** A token: not empty, and without whitespace. *)
Definition is_token (t : Chars) : Prop :=
  t ≠ [] ∧ Forall (λ c, is_whitespace c = false) t.

Lemma split_ws_token cur cs t :
  Forall (λ c, is_whitespace c = false) cur → t ∈ split_ws cur cs → is_token t.
Proof.
  revert cur. induction cs as [|c cs IH]; intros cur Hcur; simpl.
  - destruct cur; [by intros ?%elem_of_nil|]. by intros ->%list_elem_of_singleton.
  - destruct (is_whitespace c) eqn:Hc.
    + rewrite elem_of_app. intros [Ht|Ht]; [|by apply (IH [])].
      destruct cur; [by apply elem_of_nil in Ht|]. by apply list_elem_of_singleton in Ht as ->.
    + apply IH. apply Forall_app. by repeat constructor.
Qed.

Lemma split_ws_sublist cur cs t :
  t ∈ split_ws cur cs → ∃ pre post, cur ++ cs = pre ++ t ++ post.
Proof.
  revert cur. induction cs as [|c cs IH]; intros cur; simpl.
  - destruct cur as [|a cur]; [by intros ?%elem_of_nil|].
    intros ->%list_elem_of_singleton. by exists [], [].
  - destruct (is_whitespace c).
    + rewrite elem_of_app. intros [Ht|(pre & post & Heq)%(IH [])].
      * destruct cur as [|a cur]; [by apply elem_of_nil in Ht|].
        apply list_elem_of_singleton in Ht as ->. by exists [], (c :: cs).
      * simpl in Heq. exists (cur ++ c :: pre), post. by rewrite Heq, <-app_assoc.
    + intros (pre & post & Heq)%IH. exists pre, post. by rewrite <-Heq, <-app_assoc.
Qed.

Lemma split_ws_nonspace cur t cs :
  Forall (λ c, is_whitespace c = false) t → split_ws cur (t ++ cs) = split_ws (cur ++ t) cs.
Proof.
  intros Ht. revert cur. induction Ht as [|c t Hc _ IH]; intros cur; simpl.
  { by rewrite app_nil_r. }
  by rewrite Hc, IH, <-app_assoc.
Qed.

(** Joining tokens with spaces and splitting again gives them back. *)
Lemma split_whitespace_join ts :
  Forall is_token ts → split_whitespace (join [32%N] ts) = ts.
Proof.
  unfold split_whitespace.
  induction 1 as [|t ts [Hne Ht] Hts IH]; [done|]. destruct t as [|a t]; [done|].
  destruct ts as [|t2 ts].
  - change (join _ _) with (a :: t). rewrite <-(app_nil_r (a :: t)), split_ws_nonspace by done.
    by rewrite app_nil_r.
  - change (join _ _) with ((a :: t) ++ 32%N :: join [32%N] (t2 :: ts)).
    rewrite split_ws_nonspace by done. simpl. simpl in IH. by rewrite IH.
Qed.

Lemma split_lines_no_lf cur l cs :
  10%N ∉ l → split_lines cur (l ++ cs) = split_lines (cur ++ l) cs.
Proof.
  revert cur. induction l as [|c l IH]; intros cur Hl; simpl; [by rewrite app_nil_r|].
  apply not_elem_of_cons in Hl as [Hc Hl]. rewrite decide_False by done.
  by rewrite IH, <-app_assoc.
Qed.

(** The lines of a text joined from lines are among them. *)
Lemma lines_join ls :
  Forall (λ l, 10%N ∉ l ∧ last l ≠ Some 13%N) ls →
  ∀ l, l ∈ lines (join [10%N] ls) → l ∈ ls.
Proof.
  unfold lines. induction 1 as [|l0 ls [Hl0 Hcr] Hls IH]; intros l; [by intros ?%elem_of_nil|].
  destruct ls as [|l1 ls].
  - change (join _ _) with l0. rewrite <-(app_nil_r l0), split_lines_no_lf by done.
    simpl. rewrite app_nil_r. destruct l0; [by intros ?%elem_of_nil|].
    by intros ->%list_elem_of_singleton; left.
  - change (join _ _) with (l0 ++ 10%N :: join [10%N] (l1 :: ls)).
    rewrite split_lines_no_lf by done. cbn [split_lines]. rewrite decide_True by done.
    rewrite elem_of_cons. intros [->|Hl]; [|right; by apply IH].
    unfold strip_cr. simpl. destruct (last l0) as [n|] eqn:E; [|left].
    destruct (decide (n = 13%N)) as [->|Hn]; [done|].
    assert (match n with 13%N => take (length l0 - 1) l0 | _ => l0 end = l0) as ->; [|left].
    destruct n as [|p]; [done|]. by repeat (destruct p as [p|p|]; try done).
Qed.

(** [s.trim().is_empty()]. *)
Definition is_blank (s : string) : bool := forallb is_whitespace (chars s).
