(* ===== verification/Graph.v ===== *)
(** * Evidence graph and staleness

    [crates/fornax-types/src/graph.rs]: typed claim-to-evidence links, notes
    of missing evidence, the raw conflict query, and the comparison of an
    evidence timestamp with a claim timestamp under a freshness window. *)

From S2P Require Import Prelude.
From S2P Require Import Types.

Inductive EvidenceRelation := Supports | Contradicts | Neutral.
#[export] Instance EvidenceRelation_eq_dec : EqDecision EvidenceRelation.
Proof. solve_decision. Defined.

Record EvidenceLink := mkEvidenceLink {
  link_id : Uuid;
  link_session_id : string;
  link_claim_id : Uuid;
  link_evidence_id : Uuid;
  link_relation : EvidenceRelation;
  linked_at : string;
}.
#[export] Instance EvidenceLink_eq_dec : EqDecision EvidenceLink.
Proof. solve_decision. Defined.

Record MissingEvidence := mkMissingEvidence {
  missing_id : Uuid;
  missing_session_id : string;
  missing_claim_id : Uuid;
  signal_class : SignalClass;
  availability : SignalAvailability;
  missing_detail : option string;
  noted_at : string;
}.

Record EvidenceGraph := mkEvidenceGraph {
  links : list EvidenceLink;
  missing : list MissingEvidence;
}.

Record EvidenceConflict := mkEvidenceConflict {
  conflict_supports : list EvidenceLink;
  conflict_contradicts : list EvidenceLink;
}.

(** [EvidenceGraph::conflict]. *)
Definition conflict (g : EvidenceGraph) : option EvidenceConflict :=
  let supports := filter (λ l, link_relation l = Supports) (links g) in
  let contradicts := filter (λ l, link_relation l = Contradicts) (links g) in
  match supports, contradicts with
  | [], _ | _, [] => None
  | _, _ => Some (mkEvidenceConflict supports contradicts)
  end.

Inductive FreshnessWindow :=
| Durable
| Perishable (max_age_seconds : Z).

Definition DEFAULT_EXIT_CODE_FRESHNESS_SECONDS : Z := 3600.

(** [EvidenceKind::default_freshness_window]. *)
Definition default_freshness_window (k : EvidenceKind) : FreshnessWindow :=
  match k with
  | ExitCode => Perishable DEFAULT_EXIT_CODE_FRESHNESS_SECONDS
  | ToolResult | FileDiff | ProcessObservation | TranscriptExcerpt => Durable
  end.

(** The [&'static str] reasons of an [Indeterminate] assessment. *)
Inductive IndeterminateReason :=
| ObservedAtNotRfc3339
| ClaimedAtNotRfc3339
| ObservedAfterClaimed.

Inductive StalenessAssessment :=
| NotTimeSensitive
| Fresh (age_seconds : Z)
| Stale (age_seconds : Z)
| Indeterminate (reason : IndeterminateReason).

Section staleness.
Context `{Chrono}.

Definition staleness_of (evidence : Evidence) (claim : Claim)
    (window : FreshnessWindow) : StalenessAssessment :=
  match window with
  | Durable => NotTimeSensitive
  | Perishable max_age_seconds =>
      match parse_from_rfc3339 (ev_observed_at evidence) with
      | None => Indeterminate ObservedAtNotRfc3339
      | Some observed_at =>
          match parse_from_rfc3339 (claimed_at claim) with
          | None => Indeterminate ClaimedAtNotRfc3339
          | Some claimed =>
              let age_seconds := num_seconds (claimed - observed_at)%Z in
              if bool_decide (age_seconds < 0)%Z
              then Indeterminate ObservedAfterClaimed
              else if bool_decide (age_seconds > max_age_seconds)%Z
              then Stale age_seconds
              else Fresh age_seconds
          end
      end
  end.

Definition staleness_of_default (evidence : Evidence) (claim : Claim) :
    StalenessAssessment :=
  staleness_of evidence claim (default_freshness_window (ev_kind evidence)).
End staleness.

(** ** Theorems *)

(** The raw conflict of a graph is reported exactly when both a supporting and
    a contradicting link exist, and it lists exactly those links. *)
Lemma conflict_spec g :
  match conflict g with
  | Some c =>
      conflict_supports c = filter (λ l, link_relation l = Supports) (links g)
      ∧ conflict_contradicts c = filter (λ l, link_relation l = Contradicts) (links g)
      ∧ (∃ l, l ∈ links g ∧ link_relation l = Supports)
      ∧ (∃ l, l ∈ links g ∧ link_relation l = Contradicts)
  | None =>
      (∀ l, l ∈ links g → link_relation l ≠ Supports)
      ∨ (∀ l, l ∈ links g → link_relation l ≠ Contradicts)
  end.
Proof.
  assert (∀ r, filter (λ l, link_relation l = r) (links g) = [] →
            ∀ l, l ∈ links g → link_relation l ≠ r) as Hnil.
  { intros r Hr l Hl Hlr. assert (l ∈ filter (λ l, link_relation l = r) (links g)) as Hin
      by by apply list_elem_of_filter.
    rewrite Hr in Hin. by apply elem_of_nil in Hin. }
  assert (∀ r x xs, filter (λ l, link_relation l = r) (links g) = x :: xs →
            ∃ l, l ∈ links g ∧ link_relation l = r) as Hcons.
  { intros r x xs Hr. assert (x ∈ filter (λ l, link_relation l = r) (links g)) as Hin
      by (rewrite Hr; left).
    apply list_elem_of_filter in Hin as [Hx Hin]. eauto. }
  unfold conflict. destruct (filter (λ l, link_relation l = Supports) _) eqn:E1;
    [left; by apply Hnil|].
  destruct (filter (λ l, link_relation l = Contradicts) _) eqn:E2;
    [right; by apply Hnil|].
  rewrite <- E1, <- E2; simpl. eauto 10.
Qed.

Section staleness_theorems.
Context `{Chrono, !ChronoOk}.

(** The three classes of a perishable window, in terms of the two instants:
    stale strictly beyond the window, fresh within it, indeterminate as soon
    as the evidence is a whole second younger than the claim. *)
Lemma staleness_of_perishable e c w o t :
  parse_from_rfc3339 (ev_observed_at e) = Some o →
  parse_from_rfc3339 (claimed_at c) = Some t →
  let age := Z.quot (t - o) nanos_per_second in
  staleness_of e c (Perishable w) =
    if decide (t - o ≤ - nanos_per_second)%Z then Indeterminate ObservedAfterClaimed
    else if decide (w < age)%Z then Stale age else Fresh age.
Proof.
  intros Ho Ht age. unfold staleness_of. rewrite Ho, Ht, num_seconds_trunc.
  fold age. unfold nanos_per_second in *.
  assert (age < 0 ↔ t - o ≤ -1000000000)%Z as Hneg.
  { subst age. split; intros Hlt.
    - destruct (decide (t - o ≤ -1000000000)%Z) as [|Hgt]; [done|].
      assert (0 ≤ Z.quot (t - o) 1000000000)%Z; [|lia].
      destruct (decide (0 ≤ t - o)%Z); [apply Z.quot_pos; lia|].
      replace (t - o)%Z with (- (o - t))%Z by lia.
      rewrite Z.quot_opp_l, Z.quot_small by lia. lia.
    - replace (t - o)%Z with (- (o - t))%Z by lia.
      rewrite Z.quot_opp_l by lia.
      assert (1 ≤ Z.quot (o - t) 1000000000)%Z; [|lia].
      apply Z.quot_le_lower_bound; lia. }
  rewrite (bool_decide_ext _ _ Hneg).
  repeat case_bool_decide; repeat case_decide; try lia; done.
Qed.
End staleness_theorems.
