(* ===== verification/Contract.v ===== *)
(** * Epistemic contracts

    [fornax-types/src/epistemic_contract.rs]: for a class of claims, which
    evidence must exist and how strong it must be. A registry holds the
    contracts, a contract inherits the requirements of its parent, and an
    assessment evaluates the composed requirements of a claim's class against
    a pool of evidence.

    The [loop] that walks the parent chain is a fixpoint on fuel
    ([chain_fuel], one more than the number of contracts); [None] is running
    out of it, which [ContractSpec] excludes. *)

From S2P Require Import Prelude.
From S2P Require Import Types.
From S2P Require Import Graph.

Local Open Scope fornax_scope.

Definition EPISTEMIC_CONTRACT_SCHEMA_VERSION : N := 1.
Definition SUPPORTED_EPISTEMIC_CONTRACT_SCHEMA_VERSIONS : list N := [1%N].

(** ** Data *)

Record ClaimClassId := mkClaimClassId { cc_name : string; cc_version : N }.
#[export] Instance ClaimClassId_eq_dec : EqDecision ClaimClassId.
Proof. solve_decision. Defined.
#[export] Instance ClaimClassId_countable : Countable ClaimClassId.
Proof.
  apply (inj_countable' (λ c, (cc_name c, cc_version c)) (λ p, mkClaimClassId p.1 p.2)).
  by intros [].
Defined.

Inductive SatisfactionState :=
| SSatisfied | SUnsatisfied | SUnavailable | SStale | SContradicted | SNotApplicable | SUnknown
| SUnrecognized (tag : string).
#[export] Instance SatisfactionState_eq_dec : EqDecision SatisfactionState.
Proof. solve_decision. Defined.

Inductive RequirementLevel :=
| Required
| Recommended
| Conditional (condition : string).
#[export] Instance RequirementLevel_eq_dec : EqDecision RequirementLevel.
Proof. solve_decision. Defined.

Definition strictness_rank (l : RequirementLevel) : nat :=
  match l with Required => 2 | Recommended | Conditional _ => 1 end.

Inductive IndependenceRule :=
| NoIndependence
| MustBeIndependentOf (others : list string).

Record CoverageRequirement := mkCoverageRequirement { min_items : N }.
Definition single : CoverageRequirement := mkCoverageRequirement 1.

Record EvidenceRequirement := mkEvidenceRequirement {
  er_id : string;
  er_level : RequirementLevel;
  er_evidence_kind : EvidenceKind;
  acceptable_trust_classes : list TrustClass;
  er_freshness : FreshnessWindow;
  independence : IndependenceRule;
  min_coverage : CoverageRequirement;
  capability_prerequisites : list SignalClass;
  policy_context : option string;
}.

Record EpistemicContract := mkEpistemicContract {
  ec_claim_class : ClaimClassId;
  ec_schema_version : N;
  ec_parent : option ClaimClassId;
  requirements : list EvidenceRequirement;
}.

(** The [&'static str] reasons of the two errors that carry one. *)
Inductive WeakeningReason := WeakerLevel | LowerCoverage | DroppedTrustClass.
Inductive UnsatisfiableReason := NoTrustClass | ZeroCoverage.

Inductive ContractError :=
| WeakenedRequirement (claim_class : ClaimClassId) (requirement_id : string)
    (reason : WeakeningReason)
| UnsatisfiableRequirement (claim_class : ClaimClassId) (requirement_id : string)
    (reason : UnsatisfiableReason)
| InheritanceCycle (claim_class : ClaimClassId)
| MissingParent (claim_class parent : ClaimClassId).

(** ** Validation and composition *)

Fixpoint validate_requirements (claim_class : ClaimClassId) (reqs : list EvidenceRequirement) :
    result ContractError unit :=
  match reqs with
  | [] => Ok tt
  | req :: reqs =>
      if bool_decide (er_level req = Required ∧ acceptable_trust_classes req = [])
      then Err (UnsatisfiableRequirement claim_class (er_id req) NoTrustClass)
      else if bool_decide (min_items (min_coverage req) = 0%N)
      then Err (UnsatisfiableRequirement claim_class (er_id req) ZeroCoverage)
      else validate_requirements claim_class reqs
  end.

(** [EpistemicContract::validate]. *)
Definition validate_contract (c : EpistemicContract) : result ContractError unit :=
  validate_requirements (ec_claim_class c) (requirements c).

(** The checks of an overriding requirement against the inherited one. *)
Definition weakening (parent_req req : EvidenceRequirement) : option WeakeningReason :=
  if decide (strictness_rank (er_level req) < strictness_rank (er_level parent_req))
  then Some WeakerLevel
  else if decide (min_items (min_coverage req) < min_items (min_coverage parent_req))%N
  then Some LowerCoverage
  else if bool_decide (er_level parent_req = Required) &&
          negb (forallb (λ t, bool_decide (t ∈ acceptable_trust_classes req))
                  (acceptable_trust_classes parent_req))
  then Some DroppedTrustClass
  else None.

Fixpoint compose (claim_class : ClaimClassId)
    (parent_requirements merged : gmap string EvidenceRequirement)
    (own : list EvidenceRequirement) : result ContractError (gmap string EvidenceRequirement) :=
  match own with
  | [] => Ok merged
  | req :: own =>
      match parent_requirements !! er_id req ≫= (λ p, weakening p req) with
      | Some reason => Err (WeakenedRequirement claim_class (er_id req) reason)
      | None => compose claim_class parent_requirements (<[er_id req := req]> merged) own
      end
  end.

(** ** The registry *)

Abbreviation ContractRegistry := (gmap ClaimClassId EpistemicContract).

Inductive ContractLookup :=
| Found (contract : EpistemicContract)
| LookupUnknown.

Definition register (reg : ContractRegistry) (contract : EpistemicContract) :
    result ContractError ContractRegistry :=
  let? _u := validate_contract contract in
  Ok (<[ec_claim_class contract := contract]> reg).

Definition lookup_contract (reg : ContractRegistry) (claim_class : ClaimClassId) :
    ContractLookup :=
  match reg !! claim_class with
  | Some c => Found c
  | None => LookupUnknown
  end.

(** The loop of [effective_requirements]: [chain] grows at its end. *)
Fixpoint chain_loop (fuel : nat) (reg : ContractRegistry) (claim_class : ClaimClassId)
    (chain : list ClaimClassId) (current : ClaimClassId) :
    option (result ContractError (list ClaimClassId)) :=
  match fuel with
  | 0 => None
  | S fuel =>
      match reg !! current with
      | None => Some (Err (MissingParent (default claim_class (last chain)) current))
      | Some contract =>
          let chain := chain ++ [current] in
          if decide (size reg < length chain) then Some (Err (InheritanceCycle claim_class))
          else
            match ec_parent contract with
            | Some parent =>
                if decide (parent ∈ chain) then Some (Err (InheritanceCycle claim_class))
                else chain_loop fuel reg claim_class chain parent
            | None => Some (Ok chain)
            end
      end
  end.

Definition chain_fuel (reg : ContractRegistry) : nat := S (size reg).

(** The fold from the root down; the [expect] is the [None] of an absent
    contract. *)
Fixpoint compose_chain (reg : ContractRegistry) (merged : gmap string EvidenceRequirement)
    (from_root : list ClaimClassId) :
    option (result ContractError (gmap string EvidenceRequirement)) :=
  match from_root with
  | [] => Some (Ok merged)
  | cc :: rest =>
      let! contract := reg !! cc in
      match compose cc merged merged (requirements contract) with
      | Err e => Some (Err e)
      | Ok merged => compose_chain reg merged rest
      end
  end.

Definition effective_requirements (reg : ContractRegistry) (claim_class : ClaimClassId) :
    option (result ContractError (list EvidenceRequirement)) :=
  let!? chain := chain_loop (chain_fuel reg) reg claim_class [] claim_class in
  let!? merged := compose_chain reg ∅ (reverse chain) in
  Some (Ok (btree_iter merged).*2).

(** ** Assessment *)

Inductive RejectionReason :=
| WrongTrustClass | RejStale | IndeterminateFreshness | ClaimedByIndependentRequirement.

Record RejectedEvidence := mkRejectedEvidence {
  rejected_id : Uuid;
  rejected_reason : RejectionReason;
}.

Record RequirementAssessment := mkRequirementAssessment {
  requirement_id : string;
  ra_level : RequirementLevel;
  ra_state : SatisfactionState;
  matched_evidence : list Uuid;
  rejected_evidence : list RejectedEvidence;
}.

Record ClaimAssessment := mkClaimAssessment {
  ca_claim_class : ClaimClassId;
  per_requirement : list RequirementAssessment;
  overall : SatisfactionState;
}.

(** What the loop over the evidence accumulates. *)
Record EvalState := mkEvalState {
  qualifying : list Evidence;
  rejected : list RejectedEvidence;
  saw_wrong_trust : bool;
  saw_stale : bool;
  saw_excluded : bool;
}.

Section assessment.
Context `{Chrono}.
Implicit Types (req : EvidenceRequirement) (ev : Evidence).

Definition eval_step req (claim : Claim) (excluded : gset Uuid)
    (trust_class_of : Evidence → option TrustClass) (st : EvalState) ev : EvalState :=
  if decide (ev_kind ev ≠ er_evidence_kind req) then st
  else if decide (ev_id ev ∈ excluded) then
    mkEvalState (qualifying st)
      (rejected st ++ [mkRejectedEvidence (ev_id ev) ClaimedByIndependentRequirement])
      (saw_wrong_trust st) (saw_stale st) true
  else if negb (match trust_class_of ev with
                | Some tc => bool_decide (tc ∈ acceptable_trust_classes req)
                | None => false
                end) then
    mkEvalState (qualifying st)
      (rejected st ++ [mkRejectedEvidence (ev_id ev) WrongTrustClass])
      true (saw_stale st) (saw_excluded st)
  else
    match staleness_of ev claim (er_freshness req) with
    | Stale _ =>
        mkEvalState (qualifying st) (rejected st ++ [mkRejectedEvidence (ev_id ev) RejStale])
          (saw_wrong_trust st) true (saw_excluded st)
    | Indeterminate _ =>
        mkEvalState (qualifying st)
          (rejected st ++ [mkRejectedEvidence (ev_id ev) IndeterminateFreshness])
          (saw_wrong_trust st) true (saw_excluded st)
    | Fresh _ | NotTimeSensitive =>
        mkEvalState (qualifying st ++ [ev]) (rejected st)
          (saw_wrong_trust st) (saw_stale st) (saw_excluded st)
    end.

Definition evaluate_requirement req (claim : Claim) (evidence : list Evidence)
    (excluded : gset Uuid) (trust_class_of : Evidence → option TrustClass) :
    SatisfactionState * list Uuid * list RejectedEvidence :=
  let st := foldl (eval_step req claim excluded trust_class_of)
              (mkEvalState [] [] false false false) evidence in
  let claimed_count :=
    Nat.min (N.to_nat (min_items (min_coverage req))) (length (qualifying st)) in
  let qualifying_ids := ev_id <$> take claimed_count (qualifying st) in
  let state :=
    if decide (min_items (min_coverage req) ≤ as_u32 (N.of_nat (length (qualifying st))))%N
    then SSatisfied
    else if saw_stale st then SStale
    else if saw_wrong_trust st || saw_excluded st then SUnsatisfied
    else SUnavailable in
  (state, qualifying_ids, rejected st).

Definition applicable (conditions_met : list string) (l : RequirementLevel) : bool :=
  match l with
  | Conditional condition => bool_decide (condition ∈ conditions_met)
  | Required | Recommended => true
  end.

(** Pass 1: the ids each applicable requirement would claim on its own. *)
Definition unconstrained_qualifying (claim : Claim) (evidence : list Evidence)
    (conditions_met : list string) (trust_class_of : Evidence → option TrustClass)
    (reqs : list EvidenceRequirement) : gmap string (list Uuid) :=
  foldl (λ m req,
    if applicable conditions_met (er_level req)
    then <[er_id req := (evaluate_requirement req claim evidence ∅ trust_class_of).1.2]> m
    else m) ∅ reqs.

Definition excluded_ids (unconstrained : gmap string (list Uuid)) (rule : IndependenceRule) :
    gset Uuid :=
  match rule with
  | NoIndependence => ∅
  | MustBeIndependentOf other_ids =>
      list_to_set (other_ids ≫= (λ id, default [] (unconstrained !! id)))
  end.

(** Pass 2: one requirement, for real. *)
Definition assess_requirement (claim : Claim) (evidence : list Evidence)
    (conditions_met : list string) (trust_class_of : Evidence → option TrustClass)
    (unconstrained : gmap string (list Uuid)) req : RequirementAssessment :=
  let '(state, matched, rejected_) :=
    if applicable conditions_met (er_level req)
    then evaluate_requirement req claim evidence
           (excluded_ids unconstrained (independence req)) trust_class_of
    else (SNotApplicable, [], []) in
  mkRequirementAssessment (er_id req) (er_level req) state matched rejected_.

Definition is_blocking_level (conditions_met : list string) (l : RequirementLevel) : bool :=
  match l with
  | Required => true
  | Recommended => false
  | Conditional _ => applicable conditions_met l
  end.

Definition state_rank (s : SatisfactionState) : nat :=
  match s with
  | SContradicted => 4
  | SStale => 3
  | SUnsatisfied => 2
  | SUnavailable => 1
  | _ => 0
  end.

(** The filter both aggregations of [overall] apply. *)
Definition blocks (ra : RequirementAssessment) : bool :=
  match ra_level ra with Recommended => false | _ => true end &&
  match ra_state ra with SSatisfied | SNotApplicable => false | _ => true end.

(** [Iterator::max_by_key]: of several maxima the last. *)
Definition max_by_key_last {A} (key : A → nat) (l : list A) : option A :=
  foldl (λ best x, match best with
                   | Some b => if decide (key b ≤ key x) then Some x else Some b
                   | None => Some x
                   end) None l.

Definition assess_claim (reg : ContractRegistry) (claim_class : ClaimClassId) (claim : Claim)
    (evidence : list Evidence) (conditions_met : list string)
    (trust_class_of : Evidence → option TrustClass) :
    option (result ContractError ClaimAssessment) :=
  match lookup_contract reg claim_class with
  | LookupUnknown => Some (Ok (mkClaimAssessment claim_class [] SUnknown))
  | Found _ =>
      let!? reqs := effective_requirements reg claim_class in
      let unconstrained :=
        unconstrained_qualifying claim evidence conditions_met trust_class_of reqs in
      let per := assess_requirement claim evidence conditions_met trust_class_of unconstrained
                   <$> reqs in
      let any_required_blocking :=
        existsb (λ ra, is_blocking_level conditions_met (ra_level ra) &&
                       bool_decide (ra_state ra ≠ SSatisfied)) per in
      let overall_ :=
        if any_required_blocking
        then default SUnsatisfied
               (max_by_key_last state_rank (ra_state <$> filter (λ ra, blocks ra) per))
        else SSatisfied in
      Some (Ok (mkClaimAssessment claim_class per overall_))
  end.
End assessment.

(** ** Canonical JSON *)

(** [canonicalize_value]: every object with its keys inserted in sorted
    order; the keys of an object are distinct. *)
Fixpoint canonicalize_value (value : Value) : Value :=
  match value with
  | JObject fields =>
      JObject (sort_by_key fst
        ((fix go fs :=
            match fs with
            | [] => []
            | (k, v) :: fs => (k, canonicalize_value v) :: go fs
            end) fields))
  | JArray items => JArray (canonicalize_value <$> items)
  | other => other
  end.
