(* ===== verification/UnionFind.v ===== *)
(** * Union-find over evidence ids

    The nested functions [find] and [union] of [SourceFamilyMap::build] and
    [SourceFamilyMap::try_build]
    ([crates/fornax-verify/src/independence.rs]): an iterative root search
    followed by path compression, and a union that makes the smaller id the
    root. The parent table is a [BTreeMap<Uuid, Uuid>].

    [parent[&x]] panics when [x] is absent and the two [while] loops need not
    stop on an arbitrary table, so the operations return [option] and take
    [S (size parent)] as loop fuel; [find_spec] and [union_spec] show that
    neither happens on a table that satisfies [uf_inv], the invariant every
    operation preserves. [uf_models] is the abstract specification: the table
    represents the equivalence closure of the unions performed so far. *)

From S2P Require Import Prelude.

Local Open Scope fornax_scope.

(** ** Operations *)

(** [let mut root = x; while parent[&root] != root { root = parent[&root]; }] *)
Fixpoint find_root (fuel : nat) (parent : gmap N N) (x : N) : option N :=
  match fuel with
  | O => None
  | S fuel =>
      let! p := parent !! x in
      if decide (p = x) then Some x else find_root fuel parent p
  end.

(** [while cur != root { let next = parent[&cur]; parent.insert(cur, root);
    cur = next; }] *)
Fixpoint compress (fuel : nat) (parent : gmap N N) (cur root : N) : option (gmap N N) :=
  match fuel with
  | O => None
  | S fuel =>
      if decide (cur = root) then Some parent
      else let! next := parent !! cur in
           compress fuel (<[cur := root]> parent) next root
  end.

Definition find (parent : gmap N N) (x : N) : option (N * gmap N N) :=
  let fuel := S (size parent) in
  let! root := find_root fuel parent x in
  let! parent' := compress fuel parent x root in
  Some (root, parent').

Definition union (parent : gmap N N) (a b : N) : option (gmap N N) :=
  let! (ra, parent) := find parent a in
  let! (rb, parent) := find parent b in
  if decide (ra = rb) then Some parent
  else if decide (ra < rb)%N then Some (<[rb := ra]> parent)
  else Some (<[ra := rb]> parent).

(** A sequence of unions, stopping at the first panic. *)
Fixpoint unions (parent : gmap N N) (ps : list (N * N)) : option (gmap N N) :=
  match ps with
  | [] => Some parent
  | (a, b) :: ps => let! parent := union parent a b in unions parent ps
  end.

(** ** Invariant and specification *)

(** Pointers never lead to a larger id and never leave the table. *)
Definition uf_inv (parent : gmap N N) : Prop :=
  ∀ x p, parent !! x = Some p → (p ≤ x)%N ∧ is_Some (parent !! p).

(** [repr parent x r]: following pointers from [x] ends at the root [r]. *)
Inductive repr (parent : gmap N N) : N → N → Prop :=
| repr_root r : parent !! r = Some r → repr parent r r
| repr_step x p r : parent !! x = Some p → p ≠ x → repr parent p r → repr parent x r.

(** Two ids are in the same class when they share a root. *)
Definition same (parent : gmap N N) (x y : N) : Prop :=
  ∃ r, repr parent x r ∧ repr parent y r.

(** The table [parent] represents the equivalence closure of [E] on [D]. *)
Definition uf_models (parent : gmap N N) (D : gset N) (E : relation N) : Prop :=
  uf_inv parent ∧ dom parent = D ∧
  ∀ x y, x ∈ D → y ∈ D → same parent x y ↔ rtsc E x y.

#[export] Hint Constructors repr : fornax.

Section union_find.
Implicit Types parent : gmap N N.

Lemma repr_is_root parent x r : repr parent x r → parent !! r = Some r.
Proof. by induction 1. Qed.

Lemma repr_dom parent x r : repr parent x r → is_Some (parent !! x).
Proof. destruct 1; eauto. Qed.

Lemma repr_unique parent x r1 r2 : repr parent x r1 → repr parent x r2 → r1 = r2.
Proof.
  intros H1. revert r2. induction H1 as [r Hr|x p r Hx Hne H1 IH];
    intros r2 H2; inversion H2; simplify_eq; auto.
Qed.

Lemma repr_le parent x r : uf_inv parent → repr parent x r → (r ≤ x)%N.
Proof.
  intros Hinv. induction 1 as [r Hr|x p r Hx Hne H1 IH]; [done|].
  apply Hinv in Hx as [Hx _]. lia.
Qed.

(** Ids of the table up to [x]: the measure of both loops. *)
Definition below parent (x : N) : nat := size (filter (λ y, (y ≤ x)%N) (dom parent)).

Lemma below_decreases parent x p :
  is_Some (parent !! x) → (p < x)%N → below parent p < below parent x.
Proof.
  intros Hx Hp. apply subset_size. split.
  - intros y [Hy Hd]%elem_of_filter. apply elem_of_filter. split; [lia|done].
  - intros Hsub. assert (x ∈ filter (λ y, (y ≤ p)%N) (dom parent)) as Hin.
    { apply Hsub, elem_of_filter. split; [lia|]. by apply elem_of_dom. }
    apply elem_of_filter in Hin as [Hle _]. lia.
Qed.

Lemma below_size parent x : below parent x ≤ size parent.
Proof.
  unfold below. rewrite <- size_dom. apply subseteq_size.
  intros y [_ Hy]%elem_of_filter. done.
Qed.

Lemma below_dom parent parent' x : dom parent = dom parent' → below parent x = below parent' x.
Proof. unfold below. by intros ->. Qed.

Lemma find_root_spec parent fuel x :
  uf_inv parent → is_Some (parent !! x) → below parent x < fuel →
  ∃ r, find_root fuel parent x = Some r ∧ repr parent x r.
Proof.
  intros Hinv. revert x. induction fuel as [|fuel IH]; intros x [p Hx] Hlt; [lia|].
  simpl. rewrite Hx. case_decide as Hpx.
  - subst p. eauto with fornax.
  - destruct (Hinv x p Hx) as [Hle Hp].
    destruct (IH p Hp) as (r & Hr & Hrep).
    { assert (p < x)%N as Hpx' by lia.
      pose proof (below_decreases parent x p (mk_is_Some _ _ Hx) Hpx'). lia. }
    eauto with fornax.
Qed.

(** Redirecting a node to its own root changes no class. *)
Lemma repr_redirect parent c r y s :
  repr parent c r → repr (<[c := r]> parent) y s ↔ repr parent y s.
Proof.
  intros Hc. pose proof (repr_is_root _ _ _ Hc) as Hr.
  destruct (decide (c = r)) as [->|Hne]; [by rewrite insert_id|].
  split.
  - induction 1 as [s Hs|y p s Hy Hyp Hp IH].
    + destruct (decide (c = s)) as [->|]; [|rewrite lookup_insert_ne in Hs by done; eauto with fornax].
      rewrite lookup_insert_eq in Hs. simplify_eq.
    + destruct (decide (c = y)) as [->|];
        [|rewrite lookup_insert_ne in Hy by done; eauto with fornax].
      rewrite lookup_insert_eq in Hy. simplify_eq.
      assert (p = s) as <-; [|done].
      apply (repr_unique parent p); [by apply repr_root|done].
  - induction 1 as [s Hs|y p s Hy Hyp Hp IH].
    + apply repr_root. destruct (decide (c = s)) as [->|]; [|by rewrite lookup_insert_ne].
      exfalso. apply Hne. symmetry. apply (repr_unique parent s); eauto with fornax.
    + destruct (decide (c = y)) as [->|].
      * assert (r = s) as ->.
        { apply (repr_unique parent y); eauto with fornax. }
        apply repr_step with s; [by rewrite lookup_insert_eq|done|].
        apply repr_root. by rewrite lookup_insert_ne.
      * apply repr_step with p; [by rewrite lookup_insert_ne|done|done].
Qed.

Lemma uf_inv_insert parent c r :
  uf_inv parent → is_Some (parent !! r) → (r ≤ c)%N → uf_inv (<[c := r]> parent).
Proof.
  intros Hinv Hr Hle x p Hx.
  assert (∀ z, is_Some (parent !! z) → is_Some (<[c := r]> parent !! z)) as Hsome.
  { intros z Hz. destruct (decide (c = z)) as [->|];
      [rewrite lookup_insert_eq; eauto|by rewrite lookup_insert_ne]. }
  destruct (decide (c = x)) as [->|].
  - rewrite lookup_insert_eq in Hx. simplify_eq. auto.
  - rewrite lookup_insert_ne in Hx by done. apply Hinv in Hx as [? ?]. auto.
Qed.

Lemma dom_insert_known parent c r :
  is_Some (parent !! c) → dom (<[c := r]> parent) = dom parent.
Proof. intros Hc. rewrite dom_insert_L. apply elem_of_dom in Hc. set_solver. Qed.

Lemma compress_spec parent fuel c r :
  uf_inv parent → repr parent c r → below parent c < fuel →
  ∃ parent', compress fuel parent c r = Some parent' ∧ uf_inv parent' ∧
    dom parent' = dom parent ∧ ∀ y s, repr parent' y s ↔ repr parent y s.
Proof.
  revert parent c. induction fuel as [|fuel IH]; intros parent c Hinv Hc Hlt; [lia|].
  simpl. case_decide as Hcr; [subst; by eauto|].
  inversion Hc as [|x p r' Hx Hne Hp]; simplify_eq. rewrite Hx.
  pose proof (Hinv c p Hx) as [Hle _].
  pose proof (dom_insert_known parent c r (mk_is_Some _ _ Hx)) as Hdom.
  destruct (IH (<[c := r]> parent) p) as (parent' & Hcomp & Hinv' & Hdom' & Hrep).
  - apply uf_inv_insert; [done|eauto using repr_is_root|by eapply repr_le].
  - by apply repr_redirect.
  - rewrite (below_dom _ parent) by done.
    assert (p < c)%N as Hpc by lia.
    pose proof (below_decreases parent c p (mk_is_Some _ _ Hx) Hpc). lia.
  - exists parent'. split; [done|]. split; [done|]. split; [congruence|].
    intros y s. rewrite Hrep. by apply repr_redirect.
Qed.

(** [find] neither panics nor loops, returns the root, and leaves every
    class as it was. *)
Lemma find_spec parent x :
  uf_inv parent → is_Some (parent !! x) →
  ∃ r parent', find parent x = Some (r, parent') ∧ repr parent x r ∧
    uf_inv parent' ∧ dom parent' = dom parent ∧
    ∀ y s, repr parent' y s ↔ repr parent y s.
Proof.
  intros Hinv Hx. unfold find. pose proof (below_size parent x) as Hlt.
  destruct (find_root_spec parent (S (size parent)) x) as (r & -> & Hr); [done|done|lia|].
  destruct (compress_spec parent (S (size parent)) x r)
    as (parent' & -> & Hinv' & Hdom & Hrep); [done|done|lia|].
  eauto 10.
Qed.

(** Linking the larger root under the smaller one merges two classes. *)
Lemma repr_link parent lo hi y s :
  parent !! lo = Some lo → parent !! hi = Some hi → lo ≠ hi →
  repr (<[hi := lo]> parent) y s ↔
    (repr parent y hi ∧ s = lo) ∨ (repr parent y s ∧ s ≠ hi).
Proof.
  intros Hlo Hhi Hne. split.
  - induction 1 as [s Hs|y p s Hy Hyp Hp IH].
    + destruct (decide (hi = s)) as [->|].
      * rewrite lookup_insert_eq in Hs. simplify_eq.
      * rewrite lookup_insert_ne in Hs by done. right. eauto with fornax.
    + destruct (decide (hi = y)) as [->|].
      * rewrite lookup_insert_eq in Hy. simplify_eq. left.
        split; [by apply repr_root|].
        destruct IH as [[Hrep _]|[Hrep _]].
        -- exfalso. apply Hne. apply (repr_unique parent p); eauto with fornax.
        -- apply (repr_unique parent p); eauto with fornax.
      * rewrite lookup_insert_ne in Hy by done.
        destruct IH as [[Hrep ->]|[Hrep Hs]]; [left|right]; eauto with fornax.
  - assert (repr (<[hi := lo]> parent) lo lo) as Hlo'.
    { apply repr_root. by rewrite lookup_insert_ne. }
    intros [[Hrep ->]|[Hrep Hs]].
    + induction Hrep as [r Hr|y p r Hy Hyp Hp IH].
      * apply repr_step with lo; [by rewrite lookup_insert_eq|done|done].
      * destruct (decide (r = y)) as [->|]; [congruence|].
        apply repr_step with p; [by rewrite lookup_insert_ne|done|by apply IH].
    + induction Hrep as [r Hr|y p r Hy Hyp Hp IH].
      * apply repr_root. by rewrite lookup_insert_ne.
      * destruct (decide (hi = y)) as [->|]; [congruence|].
        apply repr_step with p; [by rewrite lookup_insert_ne|done|by apply IH].
Qed.
End union_find.

(** ** Refinement of the equivalence closure *)

Definition add_edge {A} (E : relation A) (a b : A) : relation A :=
  λ x y, E x y ∨ (x = a ∧ y = b).

Lemma rtsc_mono {A} (R1 R2 : relation A) x y :
  (∀ u v, R1 u v → R2 u v) → rtsc R1 x y → rtsc R2 x y.
Proof. intros Hsub. apply (rtsc_congruence id). done. Qed.

Lemma rtsc_iff {A} (R1 R2 : relation A) x y :
  (∀ u v, R1 u v ↔ R2 u v) → rtsc R1 x y ↔ rtsc R2 x y.
Proof. intros Heq. split; apply rtsc_mono; naive_solver. Qed.

(** The closure with one more edge merges exactly the classes of its ends. *)
Lemma rtsc_add_edge {A} (E : relation A) a b x y :
  rtsc (add_edge E a b) x y ↔
    rtsc E x y ∨ (rtsc E x a ∧ rtsc E b y) ∨ (rtsc E x b ∧ rtsc E a y).
Proof.
  split.
  - induction 1 as [x|x z y [[Hxz|[-> ->]]|[Hxz|[-> ->]]] _ IH].
    + left. reflexivity.
    + apply rtsc_lr in Hxz. destruct IH as [IH|[[IH1 IH2]|[IH1 IH2]]].
      * left. by etrans.
      * right; left. split; [by etrans|done].
      * right; right. split; [by etrans|done].
    + destruct IH as [IH|[[IH1 IH2]|[IH1 IH2]]].
      * right; left. done.
      * right; left. done.
      * left. done.
    + apply rtsc_rl in Hxz. destruct IH as [IH|[[IH1 IH2]|[IH1 IH2]]].
      * left. by etrans.
      * right; left. split; [by etrans|done].
      * right; right. split; [by etrans|done].
    + destruct IH as [IH|[[IH1 IH2]|[IH1 IH2]]].
      * right; right. done.
      * left. done.
      * right; right. done.
  - assert (∀ u v, rtsc E u v → rtsc (add_edge E a b) u v) as Hmono.
    { intros u v. apply rtsc_mono. by left. }
    assert (rtsc (add_edge E a b) a b) as Hab by (apply rtsc_lr; by right).
    intros [H|[[H1 H2]|[H1 H2]]]; [by apply Hmono| |].
    + etrans; [by apply Hmono|]. etrans; [done|by apply Hmono].
    + etrans; [by apply Hmono|]. etrans; [symmetry; done|by apply Hmono].
Qed.

Section refinement.
Implicit Types parent : gmap N N.

Lemma same_equiv parent x y z : same parent x y → same parent y z → same parent x z.
Proof.
  intros (r & Hx & Hy) (s & Hy' & Hz).
  assert (r = s) as -> by by eapply repr_unique. by exists s.
Qed.

Lemma same_sym parent x y : same parent x y → same parent y x.
Proof. intros (r & Hx & Hy). by exists r. Qed.

Lemma same_iff parent parent' :
  (∀ y s, repr parent' y s ↔ repr parent y s) →
  ∀ x y, same parent' x y ↔ same parent x y.
Proof. intros Hrep x y. unfold same. by setoid_rewrite Hrep. Qed.

Lemma same_link parent lo hi x y :
  parent !! lo = Some lo → parent !! hi = Some hi → lo ≠ hi →
  same (<[hi := lo]> parent) x y ↔
    same parent x y ∨ (repr parent x lo ∧ repr parent y hi)
    ∨ (repr parent x hi ∧ repr parent y lo).
Proof.
  intros Hlo Hhi Hne. unfold same. setoid_rewrite (repr_link parent lo hi); [|done..].
  split.
  - intros (r & [[Hx ->]|[Hx Hr]] & [[Hy Hr']|[Hy Hr']]); simplify_eq; eauto 10.
  - intros [(r & Hx & Hy)|[[Hx Hy]|[Hx Hy]]].
    + destruct (decide (r = hi)) as [->|]; eauto 10.
    + exists lo. eauto 10.
    + exists lo. eauto 10.
Qed.

(** The fresh table [sorted.iter().map(|e| (e.id, e.id)).collect()]. *)
Lemma uf_models_init (ids : list N) :
  uf_models (collect_by id ids) (list_to_set ids) (λ _ _, False).
Proof.
  assert (∀ x, collect_by id ids !! x = Some x ∨ collect_by id ids !! x = None) as Hid.
  { intros x. destruct (collect_by id ids !! x) as [p|] eqn:Hp; [|by auto].
    apply collect_by_Some in Hp as [_ <-]. by auto. }
  split; [|split].
  - intros x p Hx. destruct (Hid x) as [Hx'|Hx']; simplify_eq. rewrite Hx. eauto.
  - apply set_eq. intros x. rewrite elem_of_dom, collect_by_is_Some, list_fmap_id.
    by rewrite elem_of_list_to_set.
  - intros x y Hx Hy. split.
    + assert (∀ z r, repr (collect_by id ids) z r → z = r) as Hroot.
      { destruct 1 as [|z p r Hz Hne _]; [done|].
        destruct (Hid z) as [Hz'|Hz']; simplify_eq. }
      intros (r & ->%Hroot & ->%Hroot). reflexivity.
    + assert (∀ u v, sc (λ _ _ : N, False) u v → False) as Hno by (intros ?? [[]|[]]).
      intros Hxy. destruct Hxy as [x|x z y Hxz _]; [|by apply Hno in Hxz].
      exists x. assert (is_Some (collect_by id ids !! x)) as [p Hp].
      { apply collect_by_is_Some. rewrite list_fmap_id. by apply elem_of_list_to_set in Hx. }
      destruct (Hid x) as [Hx'|Hx']; [|congruence]. auto with fornax.
Qed.

(** [union] adds one edge to the represented equivalence. *)
Lemma union_spec parent D E a b :
  uf_models parent D E → a ∈ D → b ∈ D →
  ∃ parent', union parent a b = Some parent' ∧ uf_models parent' D (add_edge E a b).
Proof.
  intros (Hinv & Hdom & Hmod) Ha Hb. unfold union.
  destruct (find_spec parent a Hinv) as (ra & p1 & -> & Hra & Hinv1 & Hdom1 & Hrep1).
  { apply elem_of_dom. by rewrite Hdom. }
  destruct (find_spec p1 b Hinv1) as (rb & p2 & -> & Hrb & Hinv2 & Hdom2 & Hrep2).
  { apply elem_of_dom. by rewrite Hdom1, Hdom. }
  rewrite Hrep1 in Hrb.
  assert (∀ y s, repr p2 y s ↔ repr parent y s) as Hrep.
  { intros y s. by rewrite Hrep2, Hrep1. }
  pose proof (same_iff parent p2 Hrep) as Hsame.
  assert (∀ x y, x ∈ D → y ∈ D →
    rtsc (add_edge E a b) x y ↔
    same p2 x y ∨ (same p2 x a ∧ same p2 b y) ∨ (same p2 x b ∧ same p2 a y)) as Hclo.
  { intros x y Hx Hy. rewrite rtsc_add_edge. by rewrite !Hsame, !Hmod. }
  assert (∀ z, same p2 z a ↔ repr p2 z ra) as Hsa.
  { intros z. rewrite Hsame, Hrep. split; [intros (r & Hz & Hr)|by exists ra].
    by rewrite (repr_unique _ _ _ _ Hra Hr). }
  assert (∀ z, same p2 z b ↔ repr p2 z rb) as Hsb.
  { intros z. rewrite Hsame, Hrep. split; [intros (r & Hz & Hr)|by exists rb].
    by rewrite (repr_unique _ _ _ _ Hrb Hr). }
  assert (p2 !! ra = Some ra) as Hra' by (apply repr_is_root with a, Hrep, Hra).
  assert (p2 !! rb = Some rb) as Hrb' by (apply repr_is_root with b, Hrep, Hrb).
  assert (∀ lo hi x y, p2 !! lo = Some lo → p2 !! hi = Some hi → lo ≠ hi →
    (lo = ra ∧ hi = rb ∨ lo = rb ∧ hi = ra) → x ∈ D → y ∈ D →
    same (<[hi := lo]> p2) x y ↔ rtsc (add_edge E a b) x y) as Hlink.
  { intros lo hi x y Hlo Hhi Hne Hw Hx Hy. rewrite Hclo, same_link by done.
    assert (∀ u v, same p2 u v ↔ same p2 v u) as Hsym by (split; apply same_sym).
    rewrite (Hsym b y), (Hsym a y), !Hsa, !Hsb.
    destruct Hw as [[-> ->]|[-> ->]]; tauto. }
  case_decide as Heq; [|case_decide as Hlt].
  - exists p2. split; [done|]. split; [done|]. split; [congruence|].
    intros x y Hx Hy. rewrite Hclo by done. split; [by auto|].
    intros [Hxy|[[H1 H2]|[H1 H2]]]; [done| |].
    + apply (same_equiv _ _ a); [done|]. apply (same_equiv _ _ b); [|done].
      exists ra. rewrite !Hrep. by rewrite Heq at 2.
    + apply (same_equiv _ _ b); [done|]. apply (same_equiv _ _ a); [|done].
      exists ra. rewrite !Hrep. by rewrite Heq at 1.
  - eexists. split; [done|]. split; [|split].
    + apply uf_inv_insert; [done|eauto|lia].
    + rewrite dom_insert_known by eauto. congruence.
    + intros x y Hx Hy. apply Hlink; auto.
  - eexists. split; [done|]. split; [|split].
    + apply uf_inv_insert; [done|eauto|lia].
    + rewrite dom_insert_known by eauto. congruence.
    + intros x y Hx Hy. apply Hlink; auto.
Qed.

Lemma uf_models_iff parent D E E' :
  (∀ x y, E x y ↔ E' x y) → uf_models parent D E → uf_models parent D E'.
Proof.
  intros HE (Hinv & Hdom & Hmod). split; [done|]. split; [done|].
  intros x y Hx Hy. rewrite Hmod by done. by apply rtsc_iff.
Qed.

(** A run of unions represents the closure of all of them. *)
Lemma unions_spec ps parent D E :
  uf_models parent D E → (∀ a b, (a, b) ∈ ps → a ∈ D ∧ b ∈ D) →
  ∃ parent', unions parent ps = Some parent' ∧
    uf_models parent' D (λ x y, E x y ∨ (x, y) ∈ ps).
Proof.
  revert parent E. induction ps as [|[a b] ps IH]; intros parent E Hmod Hps.
  { exists parent. split; [done|]. eapply uf_models_iff; [|done].
    intros x y. rewrite elem_of_nil. tauto. }
  destruct (Hps a b) as [Ha Hb]; [left|].
  destruct (union_spec parent D E a b Hmod Ha Hb) as (p1 & Hu & Hmod1). simpl. rewrite Hu.
  destruct (IH p1 _ Hmod1) as (p2 & Hus & Hmod2).
  { intros u v Huv. apply Hps. by right. }
  exists p2. split; [done|]. eapply uf_models_iff; [|done].
  intros x y. unfold add_edge. rewrite elem_of_cons.
  split; [intros [[?|[-> ->]]|?]|intros [?|[[= -> ->]|?]]]; auto.
Qed.
End refinement.
