(* ===== verification/Independence.v ===== *)
(** * Source families

    [crates/fornax-verify/src/independence.rs]: the transitive [derived_from]
    ancestry of an evidence record, the union of evidence ids into source
    families by three rules (explicit correlation group, derivation ancestry,
    same agent turn), and the work-budgeted variant of the construction.

    A loop of the source that performs one union per pair is the fold of
    [record_pair] over the list of pairs the loop visits, in the order it
    visits them. A panic (an index miss, an exhausted loop bound) is [None];
    [build_total] shows that there is none. *)

From S2P Require Import Prelude.
From S2P Require Import Types.
From S2P Require Import UnionFind.

Local Open Scope fornax_scope.

(** ** Ancestry *)

(** [ev.source.as_ref().map(|s| s.derived_from.as_slice()).unwrap_or(&[])] *)
Definition parents_of (e : Evidence) : list Uuid :=
  match ev_source e with Some s => derived_from s | None => [] end.

(** [evidence.iter().map(|e| (e.id, e)).collect()] *)
Definition index_by_id (evidence : list Evidence) : gmap Uuid Evidence :=
  collect_by ev_id evidence.

(** The body of the [for &parent in parents] loop; the top of [stack] is the
    head of the list. *)
Definition visit_parent (x : Uuid) (by_id : gmap Uuid Evidence)
    (st : gset Uuid * list Uuid) (parent : Uuid) : gset Uuid * list Uuid :=
  if decide (parent ≠ x ∧ is_Some (by_id !! parent))
  then ({[parent]} ∪ st.1, parent :: st.2) else st.

Fixpoint ancestors_loop (fuel : nat) (x : Uuid) (by_id : gmap Uuid Evidence)
    (stack : list Uuid) (visited result : gset Uuid) : option (gset Uuid) :=
  match fuel with
  | O => None
  | S fuel =>
      match stack with
      | [] => Some result
      | current :: stack =>
          if decide (current ∈ visited)
          then ancestors_loop fuel x by_id stack visited result
          else
            let visited := {[current]} ∪ visited in
            match by_id !! current with
            | None => ancestors_loop fuel x by_id stack visited result
            | Some ev =>
                let st := foldl (visit_parent x by_id) (result, stack) (parents_of ev) in
                ancestors_loop fuel x by_id st.2 visited st.1
            end
      end
  end.

(** Loop bound: one pop per push, and every record of the index pushes its
    parents at most once. *)
Definition edge_count (by_id : gmap Uuid Evidence) : nat :=
  sum_list_with (λ p, length (parents_of p.2)) (map_to_list by_id).
Definition ancestors_fuel (by_id : gmap Uuid Evidence) : nat := 2 + edge_count by_id.

Definition ancestors_of_indexed (x : Uuid) (by_id : gmap Uuid Evidence) :
    option (gset Uuid) :=
  ancestors_loop (ancestors_fuel by_id) x by_id [x] ∅ ∅.

Definition ancestors_of (x : Uuid) (evidence : list Evidence) : option (gset Uuid) :=
  ancestors_of_indexed x (index_by_id evidence).

(** The counted parents loop: one work unit per edge, checked after every
    increment. [Err w] aborts the traversal with [w] units spent. *)
Fixpoint visit_parents_counted (x : Uuid) (by_id : gmap Uuid Evidence) (limit : N)
    (parents : list Uuid) (st : gset Uuid * list Uuid) (work_units : N) :
    result N (gset Uuid * list Uuid * N) :=
  match parents with
  | [] => Ok (st, work_units)
  | parent :: parents =>
      if decide (parent ≠ x ∧ is_Some (by_id !! parent)) then
        let work_units := saturating_add work_units 1 in
        if decide (limit < work_units)%N then Err work_units
        else visit_parents_counted x by_id limit parents
               ({[parent]} ∪ st.1, parent :: st.2) work_units
      else visit_parents_counted x by_id limit parents st work_units
  end.

Fixpoint ancestors_loop_counted (fuel : nat) (x : Uuid) (by_id : gmap Uuid Evidence)
    (limit : N) (stack : list Uuid) (visited res : gset Uuid) (work_units : N) :
    option (result N (gset Uuid * N)) :=
  match fuel with
  | O => None
  | S fuel =>
      match stack with
      | [] => Some (Ok (res, work_units))
      | current :: stack =>
          if decide (current ∈ visited)
          then ancestors_loop_counted fuel x by_id limit stack visited res work_units
          else
            let visited := {[current]} ∪ visited in
            match by_id !! current with
            | None => ancestors_loop_counted fuel x by_id limit stack visited res work_units
            | Some ev =>
                match visit_parents_counted x by_id limit (parents_of ev) (res, stack) work_units with
                | Err w => Some (Err w)
                | Ok (st, w) => ancestors_loop_counted fuel x by_id limit st.2 visited st.1 w
                end
            end
      end
  end.

Definition ancestors_of_indexed_counted (x : Uuid) (by_id : gmap Uuid Evidence)
    (work_units limit : N) : option (result N (gset Uuid * N)) :=
  ancestors_loop_counted (ancestors_fuel by_id) x by_id limit [x] ∅ ∅ work_units.

(** ** Families *)

Inductive FamilyBasis :=
| ExplicitCorrelationGroup (group : Uuid)
| DerivationAncestry (parent child : Uuid)
| SameAgentTurn (source_event_id : Uuid)
| UnknownProvenance.

(** [FamilyBasisTag] has the variants of [FamilyBasis] and a derived [Ord]:
    first the variant, then its fields. *)
Inductive FamilyBasisTag :=
| TExplicitCorrelationGroup (group : Uuid)
| TDerivationAncestry (parent child : Uuid)
| TSameAgentTurn (source_event_id : Uuid)
| TUnknownProvenance.

Definition into_basis (t : FamilyBasisTag) : FamilyBasis :=
  match t with
  | TExplicitCorrelationGroup g => ExplicitCorrelationGroup g
  | TDerivationAncestry p c => DerivationAncestry p c
  | TSameAgentTurn e => SameAgentTurn e
  | TUnknownProvenance => UnknownProvenance
  end.

Definition tag_key (t : FamilyBasisTag) : N * (N * N) :=
  match t with
  | TExplicitCorrelationGroup g => (0, (g, 0))%N
  | TDerivationAncestry p c => (1, (p, c))%N
  | TSameAgentTurn e => (2, (e, 0))%N
  | TUnknownProvenance => (3, (0, 0))%N
  end.
Definition tag_of_key (k : N * (N * N)) : FamilyBasisTag :=
  match k with
  | (0, (g, _)) => TExplicitCorrelationGroup g
  | (1, (p, c)) => TDerivationAncestry p c
  | (2, (e, _)) => TSameAgentTurn e
  | _ => TUnknownProvenance
  end%N.
#[export] Instance tag_key_inj : Inj (=) (=) tag_key.
Proof. intros [] [] ?; simplify_eq/=; done. Qed.
#[export] Instance FamilyBasisTag_eq_dec : EqDecision FamilyBasisTag.
Proof. solve_decision. Defined.
#[export] Instance FamilyBasisTag_countable : Countable FamilyBasisTag.
Proof. apply (inj_countable' tag_key tag_of_key). by intros []. Defined.
#[export] Instance FamilyBasisTag_ord : OrdKey FamilyBasisTag :=
  λ x y, ord_le (tag_key x) (tag_key y).
#[export] Instance FamilyBasisTag_ord_dec : OrdKeyDec FamilyBasisTag.
Proof. intros x y; unfold ord_le, FamilyBasisTag_ord; apply _. Defined.
#[export] Instance FamilyBasisTag_ord_ok : OrdKeyOk FamilyBasisTag.
Proof. apply (ord_key_via tag_key). Qed.

Record SourceFamily := mkSourceFamily {
  evidence_ids : list Uuid;
  bases : list FamilyBasis;
}.

Record SourceFamilyMap := mkSourceFamilyMap {
  families : list SourceFamily;
  index : gmap Uuid nat;
}.

(** A recorded pair: the two ids in ascending order and the reason. *)
Abbreviation PairBases := (gset (Uuid * Uuid * FamilyBasisTag)).

(** One [union(&mut parent, a, b); bases_by_pair.insert((min, max, tag));]. *)
Definition record_pair (st : gmap N N * PairBases) (p : Uuid * Uuid * FamilyBasisTag) :
    option (gmap N N * PairBases) :=
  let '(a, b, tag) := p in
  let! parent := union st.1 a b in
  Some (parent, {[ (N.min a b, N.max a b, tag) ]} ∪ st.2).

Fixpoint record_pairs (st : gmap N N * PairBases) (ps : list (Uuid * Uuid * FamilyBasisTag)) :
    option (gmap N N * PairBases) :=
  match ps with
  | [] => Some st
  | p :: ps => let! st := record_pair st p in record_pairs st ps
  end.

(** The chain pairs of every bucket of a grouping, in key order. *)
Definition chain_pairs (tag : Uuid → FamilyBasisTag) (by_key : gmap Uuid (list Uuid)) :
    list (Uuid * Uuid * FamilyBasisTag) :=
  b ← btree_iter by_key; (λ p, (p.1, p.2, tag b.1)) <$> windows2 b.2.

(** Rule 1: explicit [correlation_group]. *)
Definition group_of (e : Evidence) : option Uuid := ev_source e ≫= correlation_group.
Definition by_group (sorted : list Evidence) : gmap Uuid (list Uuid) :=
  btree_group (omap (λ e, (λ g, (g, ev_id e)) <$> group_of e) sorted).
Definition rule1_pairs (sorted : list Evidence) : list (Uuid * Uuid * FamilyBasisTag) :=
  chain_pairs TExplicitCorrelationGroup (by_group sorted).

(** Rule 2: the ancestry of one record. *)
Definition rule2_pairs_of (by_id : gmap Uuid Evidence) (child : Uuid) (ancestors : gset Uuid) :
    list (Uuid * Uuid * FamilyBasisTag) :=
  (λ a, (child, a, TDerivationAncestry a child)) <$>
    filter (λ a, is_Some (by_id !! a)) (btree_set_iter ancestors).

Fixpoint rule2_pairs (by_id : gmap Uuid Evidence) (sorted : list Evidence) :
    option (list (Uuid * Uuid * FamilyBasisTag)) :=
  match sorted with
  | [] => Some []
  | e :: sorted =>
      let! ancestors := ancestors_of_indexed (ev_id e) by_id in
      let! rest := rule2_pairs by_id sorted in
      Some (rule2_pairs_of by_id (ev_id e) ancestors ++ rest)
  end.

(** Rule 3: same [source_event_id] on the agent-reported channel. *)
Definition on_agent_channel (e : Evidence) : bool :=
  match ev_source e with
  | Some s => match trust_class s with AgentAdjacent | ModelInternal => true | _ => false end
  | None => false
  end.
Definition by_event (sorted : list Evidence) : gmap Uuid (list Uuid) :=
  btree_group (omap (λ e, if on_agent_channel e then Some (ev_source_event_id e, ev_id e)
                          else None) sorted).
Definition rule3_pairs (sorted : list Evidence) : list (Uuid * Uuid * FamilyBasisTag) :=
  chain_pairs TSameAgentTurn (by_event sorted).

(** [is_no_source.entry(e.id).or_insert(e.source.is_none())] over the
    evidence in its original order. *)
Definition is_no_source (evidence : list Evidence) : gmap Uuid bool :=
  foldl (λ m e, match m !! ev_id e with
                | Some _ => m
                | None => <[ev_id e := bool_decide (ev_source e = None)]> m
                end) ∅ evidence.

(** *** Assembly of the families from the final union-find state *)

(** The family key of each record: itself without provenance, otherwise its
    root. *)
Fixpoint family_keys (parent : gmap N N) (sorted : list Evidence) :
    option (list (Uuid * Uuid)) :=
  match sorted with
  | [] => Some []
  | e :: sorted =>
      let! (key, parent) :=
        match ev_source e with
        | None => Some (ev_id e, parent)
        | Some _ => find parent (ev_id e)
        end in
      let! rest := family_keys parent sorted in
      Some ((key, ev_id e) :: rest)
  end.

(** [value_to_keys]: every family key an id value landed in. *)
Definition value_to_keys (keys : list (Uuid * Uuid)) : gmap Uuid (gset Uuid) :=
  foldl (λ m p, <[p.2 := {[p.1]} ∪ default ∅ (m !! p.2)]> m) ∅ keys.

(** [bases_by_family]: a pair's tag goes to every family holding both ends. *)
Definition add_pair_basis (vk : gmap Uuid (gset Uuid))
    (m : gmap Uuid (gset FamilyBasisTag)) (p : Uuid * Uuid * FamilyBasisTag) :
    gmap Uuid (gset FamilyBasisTag) :=
  let '(a, b, tag) := p in
  match vk !! a, vk !! b with
  | Some keys_a, Some keys_b =>
      foldl (λ m key, <[key := {[tag]} ∪ default ∅ (m !! key)]> m) m
        (elements (keys_a ∩ keys_b))
  | _, _ => m
  end.
Definition bases_by_family (vk : gmap Uuid (gset Uuid)) (pairs : PairBases) :
    gmap Uuid (gset FamilyBasisTag) :=
  foldl (add_pair_basis vk) ∅ (elements pairs).

Definition family_of_members (no_source : gmap Uuid bool)
    (fam_bases : gmap Uuid (gset FamilyBasisTag)) (b : Uuid * list Uuid) : SourceFamily :=
  let ids := dedup (sort_by_key id b.2) in
  let unknown : gset FamilyBasisTag :=
    match ids with
    | [i] => if default false (no_source !! i) then {[TUnknownProvenance]} else ∅
    | _ => ∅
    end in
  mkSourceFamily ids
    (into_basis <$> btree_set_iter (unknown ∪ default ∅ (fam_bases !! b.1))).

(** The index maps each id to the position of the last family listing it. *)
Definition index_families (fs : list SourceFamily) : gmap Uuid nat :=
  foldl (λ m p, foldl (λ m i, <[i := p.1]> m) m (evidence_ids p.2)) ∅
    (imap pair fs).

Definition assemble (evidence sorted : list Evidence) (st : gmap N N * PairBases) :
    option SourceFamilyMap :=
  let! keys := family_keys st.1 sorted in
  let fam_bases := bases_by_family (value_to_keys keys) st.2 in
  let fs := sort_by_key (head ∘ evidence_ids)
              (family_of_members (is_no_source evidence) fam_bases
                 <$> btree_iter (btree_group keys)) in
  Some (mkSourceFamilyMap fs (index_families fs)).

(** [SourceFamilyMap::build]. *)
Definition build (evidence : list Evidence) : option SourceFamilyMap :=
  let sorted := sort_by_key ev_id evidence in
  let by_id := index_by_id sorted in
  let parent := collect_by id (ev_id <$> sorted) in
  let! st := record_pairs (parent, ∅) (rule1_pairs sorted) in
  let! pairs2 := rule2_pairs by_id sorted in
  let! st := record_pairs st pairs2 in
  let! st := record_pairs st (rule3_pairs sorted) in
  assemble evidence sorted st.

(** *** The budgeted construction *)

Record FamilyBudget := mkFamilyBudget { max_work_units : N }.
Definition DEFAULT_MAX_WORK_UNITS : N := 100000.
Definition default_budget : FamilyBudget := mkFamilyBudget DEFAULT_MAX_WORK_UNITS.

Record BudgetExceeded := mkBudgetExceeded {
  evidence_count : nat;
  work_units_at_abort : N;
  limit : N;
}.

(** Rule 2's inner loop: one union and one charged work unit per ancestor. *)
Fixpoint record_pairs_charged (budget : N) (st : gmap N N * PairBases) (work_units : N)
    (ps : list (Uuid * Uuid * FamilyBasisTag)) :
    option (result N (gmap N N * PairBases * N)) :=
  match ps with
  | [] => Some (Ok (st, work_units))
  | p :: ps =>
      let! st := record_pair st p in
      let work_units := saturating_add work_units 1 in
      if decide (budget < work_units)%N then Some (Err work_units)
      else record_pairs_charged budget st work_units ps
  end.

Fixpoint rule2_charged (budget : N) (by_id : gmap Uuid Evidence)
    (st : gmap N N * PairBases) (work_units : N) (sorted : list Evidence) :
    option (result N (gmap N N * PairBases * N)) :=
  match sorted with
  | [] => Some (Ok (st, work_units))
  | e :: sorted =>
      let! counted := ancestors_of_indexed_counted (ev_id e) by_id work_units budget in
      match counted with
      | Err w => Some (Err w)
      | Ok (ancestors, work_units) =>
          let! charged := record_pairs_charged budget st work_units
                            (rule2_pairs_of by_id (ev_id e) ancestors) in
          match charged with
          | Err w => Some (Err w)
          | Ok (st, work_units) => rule2_charged budget by_id st work_units sorted
          end
      end
  end.

(** [SourceFamilyMap::try_build]. *)
Definition try_build (evidence : list Evidence) (budget : FamilyBudget) :
    option (result BudgetExceeded SourceFamilyMap) :=
  let sorted := sort_by_key ev_id evidence in
  let by_id := index_by_id sorted in
  let parent := collect_by id (ev_id <$> sorted) in
  let! st := record_pairs (parent, ∅) (rule1_pairs sorted) in
  let! charged := rule2_charged (max_work_units budget) by_id st 0 sorted in
  match charged with
  | Err w => Some (Err (mkBudgetExceeded (length evidence) w (max_work_units budget)))
  | Ok (st, _) =>
      let! st := record_pairs st (rule3_pairs sorted) in
      let! m := assemble evidence sorted st in
      Some (Ok m)
  end.

(** *** Queries *)

Definition family_of (m : SourceFamilyMap) (id : Uuid) : option SourceFamily :=
  index m !! id ≫= λ i, families m !! i.

Definition families_among (m : SourceFamilyMap) (ids : list Uuid) : list SourceFamily :=
  let seen : gset nat := list_to_set (omap (λ i, index m !! i) ids) in
  omap (λ i, families m !! i) (merge_sort le (elements seen)).

Definition all_families (m : SourceFamilyMap) : list SourceFamily := families m.

(** ** Ancestry: termination and correctness *)

(** One derivation step inside the pool. *)
Definition derives (by_id : gmap Uuid Evidence) (a b : Uuid) : Prop :=
  ∃ e, by_id !! a = Some e ∧ b ∈ parents_of e ∧ is_Some (by_id !! b).

Section ancestry.
Context (x : Uuid) (by_id : gmap Uuid Evidence).

(** Parents that the loop follows. *)
Definition followed (ps : list Uuid) : list Uuid :=
  filter (λ p, p ≠ x ∧ is_Some (by_id !! p)) ps.

Lemma visit_parents_spec ps st :
  foldl (visit_parent x by_id) st ps =
    (list_to_set (followed ps) ∪ st.1, reverse (followed ps) ++ st.2).
Proof.
  revert st. induction ps as [|p ps IH]; intros [r stack].
  { unfold followed; simpl. by rewrite (left_id_L ∅ (∪)). }
  simpl. rewrite IH. unfold followed, visit_parent; simpl.
  case_decide; simpl.
  - rewrite filter_cons_True by done. rewrite reverse_cons, <- app_assoc; simpl.
    f_equal. set_solver.
  - by rewrite filter_cons_False.
Qed.

(** Edges of records not visited yet. *)
Definition open_edges (visited : gset Uuid) (p : Uuid * Evidence) : nat :=
  if decide (p.1 ∈ visited) then 0 else length (parents_of p.2).
Definition pending (visited : gset Uuid) : nat :=
  sum_list_with (open_edges visited) (map_to_list by_id).

Lemma pending_mono (l : list (Uuid * Evidence)) c visited :
  sum_list_with (open_edges ({[c]} ∪ visited)) l ≤ sum_list_with (open_edges visited) l.
Proof.
  induction l as [|p l IH]; [done|]. simpl. unfold open_edges at 1 3.
  destruct (decide (p.1 ∈ visited)); [rewrite decide_True by set_solver; lia|].
  case_decide; lia.
Qed.

Lemma pending_visit c visited e :
  c ∉ visited → by_id !! c = Some e →
  length (parents_of e) + pending ({[c]} ∪ visited) ≤ pending visited.
Proof.
  intros Hc Hl%elem_of_map_to_list. unfold pending.
  apply list_elem_of_split in Hl as (l1 & l2 & ->).
  rewrite !sum_list_with_app; simpl.
  unfold open_edges at 2 5. simpl. rewrite decide_True, decide_False by set_solver.
  pose proof (pending_mono l1 c visited). pose proof (pending_mono l2 c visited). lia.
Qed.

(** What the worklist maintains. *)
Record ancestors_inv (stack : list Uuid) (visited result : gset Uuid) : Prop := {
  ai_sound : ∀ y, y ∈ result → y ≠ x ∧ tc (derives by_id) x y;
  ai_stack : ∀ y, y ∈ stack → y = x ∨ y ∈ result;
  ai_visited : ∀ y, y ∈ visited → y = x ∨ y ∈ result;
  ai_todo : ∀ y, y = x ∨ y ∈ result → y ∈ visited ∨ y ∈ stack;
  ai_closed : ∀ a b, a ∈ visited → derives by_id a b → b = x ∨ b ∈ result;
}.

Lemma ancestors_inv_init : ancestors_inv [x] ∅ ∅.
Proof.
  split.
  - by intros y ?%elem_of_empty.
  - intros y ->%list_elem_of_singleton. by left.
  - by intros y ?%elem_of_empty.
  - intros y [->|?%elem_of_empty]; [right; left|done].
  - by intros a b ?%elem_of_empty.
Qed.

Lemma ancestors_inv_skip c stack visited result :
  c ∈ visited → ancestors_inv (c :: stack) visited result →
  ancestors_inv stack visited result.
Proof.
  intros Hc [Hsound Hstack Hvis Htodo Hclosed]. split; [done| |done| |done].
  - intros y Hy. apply Hstack. by right.
  - intros y Hy. destruct (Htodo y Hy) as [?|[->|?]%elem_of_cons]; auto.
Qed.

Lemma ancestors_inv_absent c stack visited result :
  by_id !! c = None → ancestors_inv (c :: stack) visited result →
  ancestors_inv stack ({[c]} ∪ visited) result.
Proof.
  intros Hc [Hsound Hstack Hvis Htodo Hclosed]. split; [done| | | |].
  - intros y Hy. apply Hstack. by right.
  - intros y [->%elem_of_singleton|Hy]%elem_of_union; [|by apply Hvis].
    apply Hstack. left.
  - intros y Hy. rewrite elem_of_union, elem_of_singleton.
    destruct (Htodo y Hy) as [?|[->|?]%elem_of_cons]; auto.
  - intros a b Ha Hab. apply elem_of_union in Ha as [->%elem_of_singleton|Ha]; [|eauto].
    destruct Hab as (e & He & _). congruence.
Qed.

Lemma ancestors_inv_visit c e stack visited result :
  by_id !! c = Some e → ancestors_inv (c :: stack) visited result →
  ancestors_inv (reverse (followed (parents_of e)) ++ stack) ({[c]} ∪ visited)
    (list_to_set (followed (parents_of e)) ∪ result).
Proof.
  intros Hc [Hsound Hstack Hvis Htodo Hclosed].
  assert (∀ y, y ∈ followed (parents_of e) ↔ y ≠ x ∧ derives by_id c y) as Hf.
  { intros y. unfold followed, derives. rewrite list_elem_of_filter. naive_solver. }
  assert (c = x ∨ c ∈ result) as Hcx by (apply Hstack; left).
  split.
  - intros y. rewrite elem_of_union, elem_of_list_to_set, Hf. intros [[Hne Hd]|Hy]; [|eauto].
    split; [done|]. destruct Hcx as [->|Hcr]; [by apply tc_once|].
    eapply tc_r; [by apply Hsound|done].
  - intros y. rewrite elem_of_app, elem_of_reverse, elem_of_union, elem_of_list_to_set.
    intros [Hy|Hy]; [by auto|]. destruct (Hstack y); [by right|by auto|by auto].
  - intros y. rewrite !elem_of_union, elem_of_singleton, elem_of_list_to_set.
    intros [->|Hy%Hvis]; tauto.
  - intros y. rewrite !elem_of_union, elem_of_list_to_set, elem_of_singleton,
      elem_of_app, elem_of_reverse.
    intros [Hy|[Hy|Hy]]; [| by auto |];
      (destruct (Htodo y) as [?|[->|?]%elem_of_cons]; [by auto|by auto|by auto|by auto]).
  - intros a b. rewrite !elem_of_union, elem_of_singleton, elem_of_list_to_set, Hf.
    intros [->|Ha] Hab; [destruct (decide (b = x)); by auto|].
    destruct (Hclosed a b Ha Hab); auto.
Qed.

Lemma ancestors_loop_spec fuel stack visited result :
  length stack + pending visited < fuel → ancestors_inv stack visited result →
  ∃ s, ancestors_loop fuel x by_id stack visited result = Some s ∧
    ∀ y, y ∈ s ↔ y ≠ x ∧ tc (derives by_id) x y.
Proof.
  revert stack visited result.
  induction fuel as [|fuel IH]; intros stack visited result Hf Hinv; [lia|].
  destruct stack as [|c stack]; simpl in *.
  - exists result. split; [done|]. intros y. split; [apply (ai_sound _ _ _ Hinv)|].
    intros [Hne Hy]. destruct Hinv as [_ _ Hvis Htodo Hclosed].
    assert (∀ z, z = x ∨ z ∈ result → z ∈ visited) as Hall.
    { intros z Hz. destruct (Htodo z Hz) as [|Hn]; [done|by apply elem_of_nil in Hn]. }
    assert (∀ a, a ∈ visited → rtc (derives by_id) a y → y = x ∨ y ∈ result) as Hreach.
    { intros a Ha Hay. induction Hay as [a|a b y Hab _ IHy]; [by apply Hvis|].
      eauto. }
    destruct (Hreach x); [by auto|by apply tc_rtc|done|done].
  - case_decide as Hc.
    + apply IH; [lia|by eapply ancestors_inv_skip].
    + destruct (by_id !! c) as [e|] eqn:Hl.
      * rewrite visit_parents_spec; simpl. apply IH; [|by apply ancestors_inv_visit].
        rewrite length_app, length_reverse.
        pose proof (pending_visit c visited e Hc Hl).
        pose proof (length_filter (λ p, p ≠ x ∧ is_Some (by_id !! p)) (parents_of e)).
        unfold followed. lia.
      * apply IH; [|by eapply ancestors_inv_absent].
        pose proof (pending_mono (map_to_list by_id) c visited). unfold pending in *. lia.
Qed.

Lemma pending_empty : pending ∅ = edge_count by_id.
Proof.
  unfold pending, edge_count. induction (map_to_list by_id) as [|p l IH]; [done|].
  simpl. unfold open_edges at 1. rewrite decide_False by set_solver. by rewrite IH.
Qed.

(** The worklist stops within its bound and returns exactly the strict
    ancestors of [x]. *)
Lemma ancestors_of_indexed_spec :
  ∃ s, ancestors_of_indexed x by_id = Some s ∧
    ∀ y, y ∈ s ↔ y ≠ x ∧ tc (derives by_id) x y.
Proof.
  apply ancestors_loop_spec; [|apply ancestors_inv_init].
  rewrite pending_empty. unfold ancestors_fuel. simpl. lia.
Qed.
End ancestry.

(** ** The counted traversal agrees with the plain one *)

Lemma saturating_add_le a b : (saturating_add a b ≤ a + b)%N.
Proof. unfold saturating_add. lia. Qed.

Section counted.
Context (by_id : gmap Uuid Evidence) (budget : N).

(** Outcome of a charged loop whose uncharged counterpart returns [s]: the
    same value within the budget, or an abort one unit past it. *)
Definition charged_as {A} (s : A) (o : result N (A * N)) : Prop :=
  (∃ w, o = Ok (s, w) ∧ (w ≤ budget)%N) ∨ o = Err (budget + 1)%N.

Lemma charge_step (w : N) :
  (w ≤ budget)%N →
  if decide (budget < saturating_add w 1)%N
  then saturating_add w 1 = (budget + 1)%N else (saturating_add w 1 ≤ budget)%N.
Proof.
  intros Hw. pose proof (saturating_add_le w 1). case_decide; lia.
Qed.

Lemma visit_parents_counted_spec x ps st w :
  (w ≤ budget)%N →
  charged_as (foldl (visit_parent x by_id) st ps)
    (visit_parents_counted x by_id budget ps st w).
Proof.
  revert st w. induction ps as [|p ps IH]; intros st w Hw; simpl.
  { left. eauto. }
  unfold visit_parent at 2. case_decide as Hp; [|by apply IH].
  pose proof (charge_step w Hw) as Hc. case_decide; [right; by rewrite Hc|].
  by apply IH.
Qed.

Lemma ancestors_loop_counted_spec x fuel stack visited res w s :
  (w ≤ budget)%N →
  ancestors_loop fuel x by_id stack visited res = Some s →
  ∃ o, ancestors_loop_counted fuel x by_id budget stack visited res w = Some o ∧
    charged_as s o.
Proof.
  revert stack visited res w.
  induction fuel as [|fuel IH]; intros stack visited res w Hw Hs; [done|]; simpl in *.
  destruct stack as [|c stack].
  { simplify_eq. eexists. split; [done|]. left. eauto. }
  case_decide as Hc; [by apply IH|].
  destruct (by_id !! c) as [e|] eqn:Hl; [|by apply IH].
  destruct (visit_parents_counted_spec x (parents_of e) (res, stack) w Hw)
    as [(w' & -> & Hw')| ->].
  - apply IH; done.
  - eexists. split; [done|]. by right.
Qed.

Lemma record_pairs_charged_spec ps st w st' :
  (w ≤ budget)%N → record_pairs st ps = Some st' →
  ∃ o, record_pairs_charged budget st w ps = Some o ∧ charged_as st' o.
Proof.
  revert st w. induction ps as [|p ps IH]; intros st w Hw Hs; simpl in *.
  { simplify_eq. eexists. split; [done|]. left. eauto. }
  destruct (record_pair st p) as [st1|]; [|done].
  pose proof (charge_step w Hw) as Hc. case_decide; [|by apply IH].
  eexists. split; [done|]. right. by rewrite Hc.
Qed.

Lemma record_pairs_app ps1 ps2 st :
  record_pairs st (ps1 ++ ps2) =
    match record_pairs st ps1 with Some st => record_pairs st ps2 | None => None end.
Proof.
  revert st. induction ps1 as [|p ps1 IH]; intros st; [done|].
  simpl. destruct (record_pair st p); [apply IH|done].
Qed.

Lemma rule2_charged_spec sorted st w pairs st' :
  (w ≤ budget)%N → rule2_pairs by_id sorted = Some pairs →
  record_pairs st pairs = Some st' →
  ∃ o, rule2_charged budget by_id st w sorted = Some o ∧ charged_as st' o.
Proof.
  revert st w pairs. induction sorted as [|e sorted IH];
    intros st w pairs Hw Hp Hs; simpl in *.
  { simplify_eq/=. eexists. split; [done|]. left. eauto. }
  destruct (ancestors_of_indexed (ev_id e) by_id) as [anc|] eqn:Hanc; [|done].
  destruct (rule2_pairs by_id sorted) as [rest|]; [|done]. simplify_eq.
  rewrite record_pairs_app in Hs.
  destruct (record_pairs st (rule2_pairs_of by_id (ev_id e) anc)) as [st1|] eqn:Hst1; [|done].
  destruct (ancestors_loop_counted_spec (ev_id e) _ _ _ _ w anc Hw Hanc)
    as (o & Ho & Hcase). unfold ancestors_of_indexed_counted. rewrite Ho.
  destruct Hcase as [(w1 & -> & Hw1)| ->]; [|eexists; split; [done|by right]].
  destruct (record_pairs_charged_spec _ st w1 st1 Hw1 Hst1) as (o & -> & Hcase).
  destruct Hcase as [(w2 & -> & Hw2)| ->]; [|eexists; split; [done|by right]].
  by eapply IH.
Qed.
End counted.

(** [try_build] returns exactly what [build] returns, or aborts having spent
    one unit more than the budget; it never returns anything else. *)
Lemma try_build_refines evidence budget m :
  build evidence = Some m →
  try_build evidence budget = Some (Ok m)
  ∨ try_build evidence budget =
      Some (Err (mkBudgetExceeded (length evidence) (max_work_units budget + 1)
                   (max_work_units budget))).
Proof.
  unfold build, try_build. intros Hb.
  set (sorted := sort_by_key ev_id evidence) in *.
  set (by_id := index_by_id sorted) in *.
  destruct (record_pairs _ (rule1_pairs sorted)) as [st1|]; [|done].
  destruct (rule2_pairs by_id sorted) as [pairs|] eqn:Hp; [|done].
  destruct (record_pairs st1 pairs) as [st2|] eqn:Hst2; [|done].
  destruct (rule2_charged_spec by_id (max_work_units budget) sorted st1 0 pairs st2)
    as (o & -> & Hcase); [lia|done|done|].
  destruct Hcase as [(w & -> & _)| ->]; [left|by right].
  destruct (record_pairs st2 (rule3_pairs sorted)) as [st3|]; [|done].
  by rewrite Hb.
Qed.
