(* ===== verification/Families.v ===== *)
(** * What the source families are

    The construction of [Independence] never panics ([build_total]), and the
    families it returns are the classes of an abstract relation: two records
    belong together when a chain of shared correlation groups, derivation
    steps and shared agent turns connects them ([family_edge]). *)

From S2P Require Import Prelude.
From S2P Require Import Types.
From S2P Require Import UnionFind.
From S2P Require Import Independence.

Local Open Scope fornax_scope.

(** The declarative reading of the three union rules. *)
Inductive family_edge (evidence : list Evidence) : Uuid → Uuid → Prop :=
| fe_group e1 e2 g :
    e1 ∈ evidence → e2 ∈ evidence →
    group_of e1 = Some g → group_of e2 = Some g →
    family_edge evidence (ev_id e1) (ev_id e2)
| fe_derived x y :
    derives (index_by_id (sort_by_key ev_id evidence)) x y → family_edge evidence x y
| fe_turn e1 e2 :
    e1 ∈ evidence → e2 ∈ evidence →
    on_agent_channel e1 = true → on_agent_channel e2 = true →
    ev_source_event_id e1 = ev_source_event_id e2 →
    family_edge evidence (ev_id e1) (ev_id e2).

(** ** The recorded pairs *)

Lemma elem_of_chain_pairs tag m a b t :
  (a, b, t) ∈ chain_pairs tag m ↔
    ∃ k l, m !! k = Some l ∧ (a, b) ∈ windows2 l ∧ t = tag k.
Proof.
  unfold chain_pairs. rewrite list_elem_of_bind. split.
  - intros ([k l] & Hin & Hm%elem_of_btree_iter).
    apply list_elem_of_fmap in Hin as ([a' b'] & Heq & Hw). simplify_eq/=. eauto.
  - intros (k & l & Hm & Hw & ->). exists (k, l). split.
    + apply list_elem_of_fmap. exists (a, b). done.
    + by apply elem_of_btree_iter.
Qed.

(** The two ends of a chain pair were pushed under one key, and any two
    records pushed under one key are connected by chain pairs. *)
Lemma chain_pairs_sound tag kv a b t :
  (a, b, t) ∈ chain_pairs tag (btree_group kv) → ∃ k, (k, a) ∈ kv ∧ (k, b) ∈ kv.
Proof.
  intros (k & l & Hl & [Ha Hb]%elem_of_windows2 & _)%elem_of_chain_pairs.
  exists k. split; by apply (elem_of_btree_group kv k l _ Hl).
Qed.

Lemma chain_pairs_complete tag kv k a b (R : relation Uuid) `{!Equivalence R} :
  (∀ x y t, (x, y, t) ∈ chain_pairs tag (btree_group kv) → R x y) →
  (k, a) ∈ kv → (k, b) ∈ kv → R a b.
Proof.
  intros HR (l & Hl & Ha)%btree_group_has Hb.
  apply (windows2_connected l R); [|done|by apply (elem_of_btree_group kv k l _ Hl)].
  intros x y Hxy. apply (HR x y (tag k)), elem_of_chain_pairs. eauto.
Qed.

Lemma tc_target {A} (R : relation A) x y : tc R x y → ∃ z, R z y.
Proof. induction 1; eauto. Qed.

Section pool.
Context (evidence : list Evidence).
Let sorted := sort_by_key ev_id evidence.
Let by_id := index_by_id sorted.

Lemma elem_of_sorted e : e ∈ sorted ↔ e ∈ evidence.
Proof. apply elem_of_sort_by_key. Qed.

(** The key/value pushes of rules 1 and 3. *)
Lemma elem_of_group_pushes k x :
  (k, x) ∈ omap (λ e, (λ g, (g, ev_id e)) <$> group_of e) sorted ↔
    ∃ e, e ∈ evidence ∧ ev_id e = x ∧ group_of e = Some k.
Proof.
  rewrite list_elem_of_omap. split.
  - intros (e & He & Heq). rewrite elem_of_sorted in He.
    destruct (group_of e) as [g|] eqn:Hg; simplify_eq/=. eauto.
  - intros (e & He & <- & Hg). exists e. rewrite elem_of_sorted, Hg. done.
Qed.

Lemma elem_of_event_pushes k x :
  (k, x) ∈ omap (λ e, if on_agent_channel e then Some (ev_source_event_id e, ev_id e)
                      else None) sorted ↔
    ∃ e, e ∈ evidence ∧ ev_id e = x ∧ on_agent_channel e = true ∧ ev_source_event_id e = k.
Proof.
  rewrite list_elem_of_omap. split.
  - intros (e & He & Heq). rewrite elem_of_sorted in He.
    destruct (on_agent_channel e) eqn:Hg; simplify_eq/=. eauto 10.
  - intros (e & He & <- & Hg & <-). exists e. rewrite elem_of_sorted, Hg. done.
Qed.

Lemma by_id_is_Some x : is_Some (by_id !! x) ↔ ∃ e, e ∈ evidence ∧ ev_id e = x.
Proof.
  unfold by_id, index_by_id. rewrite collect_by_is_Some, list_elem_of_fmap.
  setoid_rewrite elem_of_sorted. naive_solver.
Qed.

(** Rule 2 lists a pair for every record and each of its strict ancestors. *)
Lemma rule2_pairs_spec es :
  ∃ pairs, rule2_pairs by_id es = Some pairs ∧
    ∀ a b, (∃ t, (a, b, t) ∈ pairs) ↔
      a ∈ ev_id <$> es ∧ b ≠ a ∧ tc (derives by_id) a b.
Proof.
  induction es as [|e es (pairs & Hp & IH)]; simpl.
  { eexists. split; [done|]. intros a b. split; [intros [t []%elem_of_nil]|].
    intros [[]%elem_of_nil _]. }
  destruct (ancestors_of_indexed_spec (ev_id e) by_id) as (anc & Hanc & Hspec).
  rewrite Hanc, Hp. eexists. split; [done|]. intros a b.
  setoid_rewrite elem_of_app. rewrite elem_of_cons.
  assert ((∃ t, (a, b, t) ∈ rule2_pairs_of by_id (ev_id e) anc) ↔
          a = ev_id e ∧ b ≠ a ∧ tc (derives by_id) a b) as Hhere.
  { unfold rule2_pairs_of. setoid_rewrite list_elem_of_fmap.
    setoid_rewrite list_elem_of_filter. setoid_rewrite elem_of_btree_set_iter.
    setoid_rewrite Hspec. split.
    - intros (t & z & Heq & _ & Hne & Htc). simplify_eq. done.
    - intros (-> & Hne & Htc). eexists _, b. split; [done|]. split; [|done].
      apply tc_target in Htc as (z & e' & _ & _ & ?). done. }
  split.
  - intros [t [Ht|Ht]].
    + destruct (proj1 Hhere) as (-> & ?); [by exists t|]. tauto.
    + destruct (proj1 (IH a b)) as (? & ?); [by exists t|]. tauto.
  - intros ([->|Ha] & Hne & Htc).
    + destruct (proj2 Hhere) as [t Ht]; [done|]. eauto.
    + destruct (proj2 (IH a b)) as [t Ht]; [done|]. eauto.
Qed.

(** All unions of the construction, as edges. *)
Definition union_edge (pairs2 : list (Uuid * Uuid * FamilyBasisTag)) : relation Uuid :=
  λ x y, ∃ t, (x, y, t) ∈ rule1_pairs sorted ++ pairs2 ++ rule3_pairs sorted.

(** The unions performed and the declarative rules have the same closure. *)
Lemma union_edge_closure pairs2 x y :
  rule2_pairs by_id sorted = Some pairs2 →
  rtsc (union_edge pairs2) x y ↔ rtsc (family_edge evidence) x y.
Proof.
  intros Hp. destruct (rule2_pairs_spec sorted) as (pairs2' & Hp' & Hspec).
  assert (pairs2' = pairs2) as -> by congruence.
  split; (intros Hxy; induction Hxy as [x|x z y Hstep _ IH]; [reflexivity|];
    etrans; [|exact IH]; clear IH).
  - assert (∀ u v, union_edge pairs2 u v → rtsc (family_edge evidence) u v) as Hsub.
    { intros u v [t [Ht|[Ht|Ht]%elem_of_app]%elem_of_app].
      - apply chain_pairs_sound in Ht as (g & Hu & Hv).
        apply elem_of_group_pushes in Hu as (e1 & He1 & <- & Hg1).
        apply elem_of_group_pushes in Hv as (e2 & He2 & <- & Hg2).
        apply rtsc_lr. by apply fe_group with g.
      - destruct (proj1 (Hspec u v)) as (_ & _ & Htc); [by exists t|].
        apply rtc_rtsc_rl, tc_rtc. revert Htc. apply (tc_congruence id).
        intros a b. apply fe_derived.
      - apply chain_pairs_sound in Ht as (g & Hu & Hv).
        apply elem_of_event_pushes in Hu as (e1 & He1 & <- & Ht1 & Hs1).
        apply elem_of_event_pushes in Hv as (e2 & He2 & <- & Ht2 & Hs2).
        apply rtsc_lr. apply fe_turn; congruence. }
    destruct Hstep as [Hs|Hs]; [by apply Hsub|symmetry; by apply Hsub].
  - assert (∀ u v, family_edge evidence u v → rtsc (union_edge pairs2) u v) as Hsub.
    { destruct 1 as [e1 e2 g H1 H2 Hg1 Hg2|u v Huv|e1 e2 H1 H2 Hc1 Hc2 Hev].
      - apply (chain_pairs_complete TExplicitCorrelationGroup
          (omap (λ e, (λ g, (g, ev_id e)) <$> group_of e) sorted) g
          _ _ (rtsc (union_edge pairs2))).
        + intros a b t Ht. apply rtsc_lr. exists t. apply elem_of_app. by left.
        + apply elem_of_group_pushes. eauto.
        + apply elem_of_group_pushes. eauto.
      - destruct (decide (u = v)) as [->|Hne]; [reflexivity|].
        apply rtsc_lr. destruct (proj2 (Hspec u v)) as [t Ht].
        + split; [|split; [done|by apply tc_once]].
          destruct Huv as (e & He & _). apply collect_by_Some in He as [He <-].
          by apply list_elem_of_fmap_2.
        + exists t. rewrite !elem_of_app. auto.
      - apply (chain_pairs_complete TSameAgentTurn
          (omap (λ e, if on_agent_channel e then Some (ev_source_event_id e, ev_id e)
                      else None) sorted) (ev_source_event_id e1) _ _ (rtsc (union_edge pairs2))).
        + intros a b t Ht. apply rtsc_lr. exists t. rewrite !elem_of_app. by auto.
        + apply elem_of_event_pushes. eauto 10.
        + apply elem_of_event_pushes. eauto 10. }
    destruct Hstep as [Hs|Hs]; [by apply Hsub|symmetry; by apply Hsub].
Qed.
End pool.

(** ** Running the unions *)

Lemma record_pairs_models ps st D E :
  uf_models st.1 D E → (∀ a b t, (a, b, t) ∈ ps → a ∈ D ∧ b ∈ D) →
  ∃ st', record_pairs st ps = Some st' ∧
    uf_models st'.1 D (λ x y, E x y ∨ ∃ t, (x, y, t) ∈ ps).
Proof.
  revert st E. induction ps as [|[[a b] t] ps IH]; intros st E Hmod Hps; simpl.
  { exists st. split; [done|]. eapply uf_models_iff; [|done].
    setoid_rewrite elem_of_nil. intros x y. split; [by left|intros [?|[? []]]; done]. }
  destruct (Hps a b t) as [Ha Hb]; [left|].
  destruct (union_spec st.1 D E a b Hmod Ha Hb) as (p1 & -> & Hmod1).
  destruct (IH (p1, {[ (N.min a b, N.max a b, t) ]} ∪ st.2) _ Hmod1) as (st' & -> & Hmod').
  { intros u v t' Huv. apply (Hps u v t'). by right. }
  exists st'. split; [done|]. eapply uf_models_iff; [|done].
  intros x y. setoid_rewrite elem_of_cons. unfold add_edge. naive_solver.
Qed.

(** What [family_keys] computes: each record's id under its family key. *)
Definition key_of (parent : gmap N N) (e : Evidence) (p : Uuid * Uuid) : Prop :=
  p.2 = ev_id e ∧
  match ev_source e with None => p.1 = ev_id e | Some _ => repr parent (ev_id e) p.1 end.

Lemma family_keys_spec es parent :
  uf_inv parent → (∀ e, e ∈ es → is_Some (parent !! ev_id e)) →
  ∃ keys, family_keys parent es = Some keys ∧ Forall2 (key_of parent) es keys.
Proof.
  revert parent. induction es as [|e es IH]; intros parent Hinv Hdom; simpl; [by eauto|].
  assert (∃ key parent',
    match ev_source e with None => Some (ev_id e, parent) | Some _ => find parent (ev_id e) end
      = Some (key, parent') ∧ uf_inv parent' ∧ dom parent' = dom parent ∧
    (∀ y s, repr parent' y s ↔ repr parent y s) ∧ key_of parent e (key, ev_id e))
    as (key & parent' & -> & Hinv' & Hdom' & Hrep & Hkey).
  { unfold key_of. destruct (ev_source e) as [s|]; [|by eauto 10].
    destruct (find_spec parent (ev_id e) Hinv) as (r & parent' & ? & ? & ? & ? & ?).
    { apply Hdom. left. } eauto 10. }
  destruct (IH parent' Hinv') as (keys & -> & Hkeys).
  { intros e' He'. apply elem_of_dom. rewrite Hdom', elem_of_dom. apply Hdom. by right. }
  eexists. split; [done|]. constructor; [done|]. eapply Forall2_impl; [done|].
  intros e' p [Hp1 Hp2]. split; [done|]. destruct (ev_source e'); [by apply Hrep|done].
Qed.

Section build_spec.
Context (evidence : list Evidence).
Let sorted := sort_by_key ev_id evidence.

(** The run of [build] on a pool: its final union-find table and the
    equivalence that table represents. *)
Lemma build_run :
  ∃ parent pairs keys,
    build evidence = assemble evidence sorted (parent, pairs) ∧
    uf_models parent (list_to_set (ev_id <$> sorted)) (family_edge evidence) ∧
    family_keys parent sorted = Some keys ∧
    Forall2 (key_of parent) sorted keys.
Proof.
  destruct (rule2_pairs_spec evidence sorted) as (pairs2 & Hp2 & Hspec2).
  set (D := list_to_set (ev_id <$> sorted) : gset N).
  assert (∀ x, x ∈ D ↔ ∃ e, e ∈ evidence ∧ ev_id e = x) as HD.
  { intros x. unfold D, sorted. rewrite elem_of_list_to_set, list_elem_of_fmap.
    setoid_rewrite elem_of_sorted. naive_solver. }
  destruct (record_pairs_models (rule1_pairs sorted) (collect_by id (ev_id <$> sorted), ∅) D
    (λ _ _, False)) as (st1 & Hr1 & Hm1).
  { apply uf_models_init. }
  { intros a b t (g & Ha & Hb)%chain_pairs_sound.
    apply elem_of_group_pushes in Ha as (e1 & ? & ? & _), Hb as (e2 & ? & ? & _).
    rewrite !HD. split; [by exists e1|by exists e2]. }
  destruct (record_pairs_models pairs2 st1 D _ Hm1) as (st2 & Hr2 & Hm2).
  { intros a b t Ht. destruct (proj1 (Hspec2 a b)) as (Ha & _ & Htc); [by exists t|].
    split; [by apply elem_of_list_to_set|]. apply HD.
    apply tc_target in Htc as (z & e' & _ & _ & ?). by apply by_id_is_Some. }
  destruct (record_pairs_models (rule3_pairs sorted) st2 D _ Hm2) as (st3 & Hr3 & Hm3).
  { intros a b t (g & Ha & Hb)%chain_pairs_sound.
    apply elem_of_event_pushes in Ha as (e1 & ? & ? & _), Hb as (e2 & ? & ? & _).
    rewrite !HD. split; [by exists e1|by exists e2]. }
  assert (uf_models st3.1 D (family_edge evidence)) as (Hinv & Hdom & Hmod).
  { destruct Hm3 as (Hinv & Hdom & Hmod). split; [done|]. split; [done|].
    intros x y Hx Hy. rewrite Hmod, <- union_edge_closure by done.
    apply rtsc_iff. intros u v. unfold union_edge. repeat setoid_rewrite elem_of_app.
    naive_solver. }
  destruct (family_keys_spec sorted st3.1) as (keys & Hk & Hkeys); [done| |].
  { intros e He. apply elem_of_dom. rewrite Hdom. apply HD.
    apply (elem_of_sorted evidence) in He. by exists e. }
  exists st3.1, st3.2, keys. split; [|done]. unfold build. fold sorted.
  rewrite Hr1; simpl. fold sorted in Hp2. rewrite Hp2, Hr2, Hr3. by destruct st3.
Qed.

Lemma build_total : ∃ m, build evidence = Some m.
Proof.
  destruct build_run as (parent & pairs & keys & -> & _ & Hk & _).
  unfold assemble; simpl. rewrite Hk. eauto.
Qed.
End build_spec.

(** ** The index *)

Lemma index_ids_lookup (ids : list Uuid) (i : nat) (m : gmap Uuid nat) x :
  foldl (λ m y, <[y := i]> m) m ids !! x = if decide (x ∈ ids) then Some i else m !! x.
Proof.
  revert m. induction ids as [|y ids IH]; intros m; [done|]. simpl. rewrite IH.
  destruct (decide (x ∈ ids)); [rewrite decide_True by set_solver; done|].
  destruct (decide (y = x)) as [->|].
  - rewrite lookup_insert_eq, decide_True by left. done.
  - rewrite lookup_insert_ne, decide_False by set_solver. done.
Qed.

Lemma index_families_snoc fs f :
  index_families (fs ++ [f]) =
    foldl (λ m y, <[y := length fs]> m) (index_families fs) (evidence_ids f).
Proof.
  unfold index_families. rewrite imap_app, foldl_app. simpl. by rewrite Nat.add_0_r.
Qed.

(** An indexed id is listed by the family it points to, and every listed id
    is indexed. *)
Lemma index_families_Some fs x i :
  index_families fs !! x = Some i → ∃ f, fs !! i = Some f ∧ x ∈ evidence_ids f.
Proof.
  induction fs as [|f fs IH] using rev_ind; [done|].
  rewrite index_families_snoc, index_ids_lookup. case_decide as Hx.
  - intros [= <-]. exists f. rewrite lookup_app_r, Nat.sub_diag by lia. done.
  - intros (f' & Hf' & Hx')%IH. exists f'. split; [|done].
    by apply lookup_app_l_Some.
Qed.

Lemma index_families_is_Some fs x :
  is_Some (index_families fs !! x) ↔ ∃ f, f ∈ fs ∧ x ∈ evidence_ids f.
Proof.
  induction fs as [|f fs IH] using rev_ind.
  { split; [by intros []|]. intros (f & []%elem_of_nil & _). }
  rewrite index_families_snoc, index_ids_lookup.
  setoid_rewrite elem_of_app. setoid_rewrite list_elem_of_singleton.
  case_decide as Hx; [split; [|by eauto]; intros _; by eauto|].
  rewrite IH. naive_solver.
Qed.

(** ** The families of a pool *)

Section families_spec.
Context (evidence : list Evidence) (m : SourceFamilyMap).
Context (Hbuild : build evidence = Some m).

(** A family is determined by its key [k], and lists the ids under [k]. *)
Lemma families_by_key :
  ∃ parent keys F,
    uf_models parent (list_to_set (ev_id <$> sort_by_key ev_id evidence))
      (family_edge evidence) ∧
    Forall2 (key_of parent) (sort_by_key ev_id evidence) keys ∧
    index m = index_families (families m) ∧
    (∀ f, f ∈ families m →
       ∃ k, f = F k ∧ evidence_ids f ≠ [] ∧
            ∀ x, x ∈ evidence_ids f ↔ (k, x) ∈ keys) ∧
    (∀ k x, (k, x) ∈ keys → F k ∈ families m ∧ x ∈ evidence_ids (F k)).
Proof.
  destruct (build_run evidence) as (parent & pairs & keys & Heq & Hmod & Hk & Hkeys).
  rewrite Hbuild in Heq. unfold assemble in Heq; simpl in Heq. rewrite Hk in Heq.
  set (fam := family_of_members (is_no_source evidence)
    (bases_by_family (value_to_keys keys) pairs)) in *.
  exists parent, keys, (λ k, fam (k, default [] (btree_group keys !! k))).
  injection Heq as Heq. subst m; simpl.
  assert (∀ k l, btree_group keys !! k = Some l →
    evidence_ids (fam (k, l)) ≠ [] ∧ ∀ x, x ∈ evidence_ids (fam (k, l)) ↔ (k, x) ∈ keys) as Hids.
  { intros k l Hl. split.
    - simpl. intros Hd%dedup_nil. apply (btree_group_nonempty keys k l Hl).
      apply Permutation_nil_r. rewrite <- Hd. by rewrite sort_by_key_Permutation.
    - intros x. simpl. rewrite elem_of_dedup, elem_of_sort_by_key.
      by apply elem_of_btree_group. }
  split; [done|]. split; [done|]. split; [done|]. split.
  - intros f Hf. rewrite elem_of_sort_by_key in Hf.
    apply list_elem_of_fmap in Hf as ([k l] & -> & Hl%elem_of_btree_iter).
    exists k. rewrite Hl. split; [done|]. by apply Hids.
  - intros k x Hx. destruct (btree_group_has keys k x Hx) as (l & Hl & Hxl).
    rewrite Hl; simpl. split; [|by apply (Hids k l Hl)].
    apply elem_of_sort_by_key, list_elem_of_fmap. exists (k, l).
    split; [done|]. by apply elem_of_btree_iter.
Qed.

(** A record that is looked up is a member of its own family. *)
Lemma family_of_member x f :
  family_of m x = Some f → f ∈ families m ∧ x ∈ evidence_ids f.
Proof.
  destruct families_by_key as (parent & keys & F & _ & _ & Hidx & _ & _).
  unfold family_of. rewrite Hidx. intros Hf.
  destruct (index_families (families m) !! x) as [i|] eqn:Hi; simplify_eq/=.
  apply index_families_Some in Hi as (f' & Hf' & Hx). simplify_eq.
  split; [|done]. by eapply list_elem_of_lookup_2.
Qed.

Lemma family_of_is_Some e :
  e ∈ evidence → ∃ f, family_of m (ev_id e) = Some f.
Proof.
  intros He.
  destruct families_by_key as (parent & keys & F & _ & Hkeys & Hidx & _ & Hall).
  apply (elem_of_sorted evidence) in He.
  destruct (Forall2_elem_of_l _ _ _ _ Hkeys He) as ([k x] & Hin & Hp).
  destruct Hp as [Hx _]; simpl in Hx; subst x.
  destruct (Hall k (ev_id e) Hin) as [Hf Hx].
  assert (is_Some (index m !! ev_id e)) as [i Hi].
  { rewrite Hidx. apply index_families_is_Some. eauto. }
  unfold family_of. rewrite Hi; simpl. rewrite Hidx in Hi.
  apply index_families_Some in Hi as (f & Hf' & _). eauto.
Qed.

Context (Hnd : NoDup (ev_id <$> evidence)).

(** With pairwise distinct ids, a record's key decides its family. *)
Lemma families_keyed :
  ∃ parent (F : Uuid → SourceFamily) (key : Evidence → Uuid),
    uf_models parent (list_to_set (ev_id <$> sort_by_key ev_id evidence))
      (family_edge evidence) ∧
    (∀ e, e ∈ evidence → key_of parent e (key e, ev_id e)) ∧
    (∀ e, e ∈ evidence → family_of m (ev_id e) = Some (F (key e))) ∧
    (∀ e x, e ∈ evidence →
       x ∈ evidence_ids (F (key e)) ↔ ∃ e', e' ∈ evidence ∧ ev_id e' = x ∧ key e' = key e).
Proof.
  destruct families_by_key as (parent & keys & F & Hmod & Hkeys & Hidx & Hfam & Hall).
  set (K := list_to_map ((λ p, (p.2, p.1)) <$> keys) : gmap Uuid Uuid).
  assert (keys.*2 = ev_id <$> sort_by_key ev_id evidence) as Hids.
  { clear -Hkeys. induction Hkeys as [|e p es ks [Hp _] _ IH]; [done|]. simpl. by f_equal. }
  assert (NoDup (((λ p : Uuid * Uuid, (p.2, p.1)) <$> keys).*1)) as HndK.
  { rewrite <- list_fmap_compose. change (NoDup keys.*2). rewrite Hids.
    by rewrite sort_by_key_Permutation. }
  assert (∀ k x, (k, x) ∈ keys ↔ K !! x = Some k) as HK.
  { intros k x. unfold K. rewrite <- elem_of_list_to_map by done.
    rewrite list_elem_of_fmap. split; [intros Hin; by exists (k, x)|].
    intros ([k' x'] & Heq & Hin). by simplify_eq/=. }
  exists parent, F, (λ e, default 0%N (K !! ev_id e)).
  assert (∀ e, e ∈ evidence → K !! ev_id e = Some (default 0%N (K !! ev_id e)) ∧
    key_of parent e (default 0%N (K !! ev_id e), ev_id e)) as Hkey.
  { intros e He. apply (elem_of_sorted evidence) in He.
    destruct (Forall2_elem_of_l _ _ _ _ Hkeys He) as ([k x] & Hin & Hp).
    assert (x = ev_id e) as -> by apply Hp. apply HK in Hin. by rewrite Hin. }
  split; [done|]. split; [intros e He; by apply Hkey|]. split.
  - intros e He. destruct (Hkey e He) as [Hke _].
    destruct (family_of_is_Some e He) as [f Hf]. rewrite Hf. f_equal.
    apply family_of_member in Hf as [Hf Hx].
    destruct (Hfam f Hf) as (k & -> & _ & Hmem). apply Hmem, HK in Hx. by rewrite Hx.
  - intros e x He. destruct (Hkey e He) as [Hke _].
    destruct (Hall _ _ (proj2 (HK _ _) Hke)) as [Hf Hxe].
    destruct (Hfam _ Hf) as (k & Hk & _ & Hmem).
    assert (k = default 0%N (K !! ev_id e)) as ->.
    { apply Hmem, HK in Hxe. rewrite Hxe in Hke. congruence. }
    rewrite Hmem. split.
    + intros Hx. destruct (Forall2_elem_of_r _ _ _ _ Hkeys Hx) as (e' & He' & [Hx' _]).
      simpl in Hx'. subst x. exists e'. apply (elem_of_sorted evidence) in He'.
      split; [done|]. split; [done|]. apply HK in Hx. by rewrite Hx.
    + intros (e' & He' & <- & Heq). apply HK. destruct (Hkey e' He') as [Hke' _].
      congruence.
Qed.
End families_spec.

(** ** Order of the pool *)

Lemma is_no_source_snoc l e :
  is_no_source (l ++ [e]) =
    match is_no_source l !! ev_id e with
    | Some _ => is_no_source l
    | None => <[ev_id e := bool_decide (ev_source e = None)]> (is_no_source l)
    end.
Proof. unfold is_no_source. by rewrite foldl_app. Qed.

Lemma is_no_source_lookup l x b :
  NoDup (ev_id <$> l) →
  is_no_source l !! x = Some b ↔
    ∃ e, e ∈ l ∧ ev_id e = x ∧ b = bool_decide (ev_source e = None).
Proof.
  induction l as [|e l IH] using rev_ind; intros Hnd.
  { split; [done|]. intros (e & []%elem_of_nil & _). }
  rewrite fmap_app, NoDup_app in Hnd. destruct Hnd as (Hnd & Hd & _).
  specialize (IH Hnd). rewrite is_no_source_snoc.
  destruct (is_no_source l !! ev_id e) as [b'|] eqn:He.
  { exfalso. destruct (decide (ev_id e ∈ ev_id <$> l)) as [Hin|Hnin].
    - apply (Hd _ Hin). left.
    - apply Hnin. clear -He. induction l as [|e' l IH] using rev_ind; [done|].
      rewrite is_no_source_snoc in He. rewrite fmap_app, elem_of_app.
      destruct (is_no_source l !! ev_id e') eqn:E; [by left; apply IH|].
      destruct (decide (ev_id e' = ev_id e)) as [Heq|Hne].
      + right. rewrite <- Heq. left.
      + rewrite lookup_insert_ne in He by done. left; by apply IH. }
  setoid_rewrite elem_of_app. setoid_rewrite list_elem_of_singleton.
  destruct (decide (ev_id e = x)) as [<-|Hne].
  - rewrite lookup_insert_eq. split; [intros [= <-]; by eauto|].
    intros (e' & [He'| ->] & Hid & ->); [|done].
    exfalso. apply (Hd (ev_id e)); [|left]. rewrite <- Hid. by apply list_elem_of_fmap_2.
  - rewrite lookup_insert_ne, IH by done. split; [intros (e' & ? & ?); by eauto|].
    intros (e' & [He'| ->] & Hid & ->); [by eauto|done].
Qed.

Section perm.
Context (ev1 ev2 : list Evidence).
Context (Hnd : NoDup (ev_id <$> ev1)) (Hp : ev1 ≡ₚ ev2).

Lemma is_no_source_perm : is_no_source ev1 = is_no_source ev2.
Proof.
  apply map_eq. intros x. apply option_eq. intros b.
  rewrite !is_no_source_lookup by (done || by rewrite <- Hp).
  by setoid_rewrite Hp.
Qed.

Lemma build_perm : build ev1 = build ev2.
Proof.
  unfold build, assemble. rewrite (sort_by_key_perm ev_id ev1 ev2) by done.
  by rewrite is_no_source_perm.
Qed.

Lemma try_build_perm budget : try_build ev1 budget = try_build ev2 budget.
Proof.
  unfold try_build, assemble. rewrite (sort_by_key_perm ev_id ev1 ev2) by done.
  by rewrite is_no_source_perm, (Permutation_length Hp).
Qed.
End perm.

(** The least id of everything a record is connected with. *)
Definition least_connected (evidence : list Evidence) (x : Uuid) : Prop :=
  ∀ y, rtsc (family_edge evidence) x y → (x ≤ y)%N.

(** When two records count as one source: they are the same record, or they
    are connected and both have recorded provenance, or one of them has none
    and is the least of everything it is connected with. *)
Definition one_source (evidence : list Evidence) (e1 e2 : Evidence) : Prop :=
  ev_id e1 = ev_id e2 ∨
  rtsc (family_edge evidence) (ev_id e1) (ev_id e2) ∧
  match ev_source e1, ev_source e2 with
  | Some _, Some _ => True
  | None, Some _ => least_connected evidence (ev_id e1)
  | Some _, None => least_connected evidence (ev_id e2)
  | None, None => False
  end.

Lemma one_source_sym evidence e1 e2 : one_source evidence e1 e2 → one_source evidence e2 e1.
Proof.
  intros [Heq|[Hc Hs]]; [by left|]. right. split; [by symmetry|].
  by destruct (ev_source e1), (ev_source e2).
Qed.

Lemma family_edge_pool evidence x y :
  family_edge evidence x y →
  x ∈ ev_id <$> sort_by_key ev_id evidence ∧ y ∈ ev_id <$> sort_by_key ev_id evidence.
Proof.
  assert (∀ e, e ∈ evidence → ev_id e ∈ ev_id <$> sort_by_key ev_id evidence) as Hin.
  { intros e He. by apply list_elem_of_fmap_2, (elem_of_sorted evidence). }
  destruct 1 as [e1 e2 g H1 H2 _ _|x y (e & Hx & _ & [e' Hy])|e1 e2 H1 H2 _ _ _];
    [by split; apply Hin| |by split; apply Hin].
  apply collect_by_Some in Hx as [Hx <-], Hy as [Hy <-].
  by split; apply list_elem_of_fmap_2.
Qed.

Lemma connected_pool evidence x y :
  rtsc (family_edge evidence) x y → x ∈ ev_id <$> sort_by_key ev_id evidence →
  y ∈ ev_id <$> sort_by_key ev_id evidence.
Proof.
  induction 1 as [x|x z y Hs _ IH]; [done|]. intros _. apply IH.
  by destruct Hs as [[_ ?]%family_edge_pool|[? _]%family_edge_pool].
Qed.

Section roots.
Context (evidence : list Evidence) (parent : gmap N N).
Context (Hmodels : uf_models parent (list_to_set (ev_id <$> sort_by_key ev_id evidence))
                     (family_edge evidence)).

Lemma connected_same e y :
  e ∈ evidence → rtsc (family_edge evidence) (ev_id e) y ↔ same parent (ev_id e) y.
Proof using Hmodels.
  destruct Hmodels as (_ & Hdom & Hmod). intros He.
  assert (ev_id e ∈ ev_id <$> sort_by_key ev_id evidence) as Hin
    by by apply list_elem_of_fmap_2, (elem_of_sorted evidence).
  split; intros Hc.
  - apply Hmod; [by apply elem_of_list_to_set| |done].
    by apply elem_of_list_to_set, (connected_pool _ (ev_id e)).
  - apply Hmod; [by apply elem_of_list_to_set| |done]. destruct Hc as (r & _ & Hr).
    rewrite <- Hdom. by apply elem_of_dom, (repr_dom _ _ r).
Qed.

(** A record is its own root exactly when it is the least of its class. *)
Lemma least_is_root e e' :
  e ∈ evidence → e' ∈ evidence →
  repr parent (ev_id e') (ev_id e) ↔
  rtsc (family_edge evidence) (ev_id e) (ev_id e') ∧ least_connected evidence (ev_id e).
Proof using Hmodels.
  intros He He'. rewrite (connected_same e) by done. pose proof Hmodels as (Hinv & _ & _). split.
  - intros Hr. pose proof (repr_is_root _ _ _ Hr) as Hroot%repr_root. split; [by eexists|].
    intros y (r & Hr1 & Hr2)%(connected_same e); [|done].
    rewrite (repr_unique _ _ _ _ Hroot Hr1). by apply (repr_le parent).
  - intros [(r & Hr1 & Hr2) Hleast].
    assert (r = ev_id e) as <-; [|done]. apply (anti_symm N.le); [by apply (repr_le parent)|].
    apply Hleast, (connected_same e); [done|]. exists r. split; [done|].
    by apply repr_root, (repr_is_root _ _ _ Hr1).
Qed.
End roots.

(** Two records are in one family exactly when they count as one source. *)
Lemma family_iff_one_source (evidence : list Evidence) (m : SourceFamilyMap)
    (e1 e2 : Evidence) :
  NoDup (ev_id <$> evidence) → build evidence = Some m →
  e1 ∈ evidence → e2 ∈ evidence →
  (∃ f, family_of m (ev_id e1) = Some f ∧ ev_id e2 ∈ evidence_ids f) ↔
  one_source evidence e1 e2.
Proof.
  intros Hnd Hb H1 H2.
  destruct (families_keyed evidence m Hb Hnd) as (parent & F & key & Hmod & Hkey & Hfam & Hmem).
  assert ((∃ f, family_of m (ev_id e1) = Some f ∧ ev_id e2 ∈ evidence_ids f) ↔
    key e1 = key e2) as ->.
  { rewrite (Hfam e1 H1). split.
    - intros (f & [= <-] & (e' & He' & Hid & Hke)%(Hmem e1 _ H1)).
      by assert (e' = e2) as -> by by apply (NoDup_fmap_elem ev_id evidence).
    - intros Hk. eexists. split; [done|]. apply (Hmem e1 _ H1). by exists e2. }
  destruct (decide (ev_id e1 = ev_id e2)) as [Hid|Hne].
  { assert (e1 = e2) as -> by by apply (NoDup_fmap_elem ev_id evidence).
    split; [by left|done]. }
  destruct (Hkey e1 H1) as [_ Hk1], (Hkey e2 H2) as [_ Hk2].
  pose proof (connected_same _ _ Hmod e1 (ev_id e2) H1) as Hsame.
  pose proof (least_is_root _ _ Hmod e1 e2 H1 H2) as Hl1.
  pose proof (least_is_root _ _ Hmod e2 e1 H2 H1) as Hl2.
  unfold one_source. destruct (ev_source e1), (ev_source e2); simpl in *.
  - rewrite Hsame. split; [intros Hk; right; split; [exists (key e1); split; congruence|done]|].
    intros [?|[(r & Hr1 & Hr2) _]]; [done|].
    by rewrite (repr_unique _ _ _ _ Hk1 Hr1), (repr_unique _ _ _ _ Hk2 Hr2).
  - rewrite Hk2. split; [intros Hk; right; rewrite Hk in Hk1; apply Hl2 in Hk1 as [? ?];
      by split; [symmetry|]|].
    intros [?|[Hc%symmetry Hl]]; [done|]. by apply (repr_unique _ _ _ _ Hk1), Hl2.
  - rewrite Hk1. split; [intros Hk; rewrite <- Hk in Hk2; right; by apply Hl1|].
    intros [?|Hc%Hl1]; [done|]. by apply (repr_unique _ _ _ _ Hc Hk2).
  - rewrite Hk1, Hk2. naive_solver.
Qed.

Corollary family_iff_connected (evidence : list Evidence) (m : SourceFamilyMap)
    (e1 e2 : Evidence) :
  NoDup (ev_id <$> evidence) → build evidence = Some m →
  e1 ∈ evidence → e2 ∈ evidence →
  is_Some (ev_source e1) → is_Some (ev_source e2) →
  (∃ f, family_of m (ev_id e1) = Some f ∧ ev_id e2 ∈ evidence_ids f) ↔
  rtsc (family_edge evidence) (ev_id e1) (ev_id e2).
Proof.
  intros Hnd Hb H1 H2 [s1 Hs1] [s2 Hs2]. rewrite family_iff_one_source by done.
  unfold one_source. rewrite Hs1, Hs2. split; [|by right].
  by intros [->|[? _]].
Qed.

(** The members of a family agree on it. *)
Lemma family_of_agree (evidence : list Evidence) (m : SourceFamilyMap) (e1 e2 : Evidence) f :
  NoDup (ev_id <$> evidence) → build evidence = Some m →
  e1 ∈ evidence → e2 ∈ evidence →
  family_of m (ev_id e1) = Some f → ev_id e2 ∈ evidence_ids f →
  family_of m (ev_id e2) = Some f.
Proof.
  intros Hnd Hb H1 H2 Hf Hin.
  destruct (families_keyed evidence m Hb Hnd) as (parent & F & key & _ & _ & Hfam & Hmem).
  rewrite (Hfam e1 H1) in Hf. injection Hf as <-.
  apply (Hmem e1 _ H1) in Hin as (e' & He' & Hid & Hk).
  assert (e' = e2) as -> by by apply (NoDup_fmap_elem ev_id evidence).
  by rewrite (Hfam e2 H2), Hk.
Qed.

(** Two families with a common member are one family. *)
Lemma family_of_meet (evidence : list Evidence) (m : SourceFamilyMap) (e1 e2 : Evidence) f1 f2 x :
  NoDup (ev_id <$> evidence) → build evidence = Some m →
  e1 ∈ evidence → e2 ∈ evidence →
  family_of m (ev_id e1) = Some f1 → family_of m (ev_id e2) = Some f2 →
  x ∈ evidence_ids f1 → x ∈ evidence_ids f2 → f1 = f2.
Proof.
  intros Hnd Hb H1 H2 Hf1 Hf2 Hx1 Hx2.
  destruct (families_keyed evidence m Hb Hnd) as (parent & F & key & _ & _ & Hfam & Hmem).
  rewrite (Hfam e1 H1) in Hf1. rewrite (Hfam e2 H2) in Hf2. simplify_eq.
  apply (Hmem e1 _ H1) in Hx1 as (e & He & Hid & Hk).
  apply (Hmem e2 _ H2) in Hx2 as (e' & He' & Hid' & Hk').
  assert (e = e') as -> by (apply (NoDup_fmap_elem ev_id evidence); congruence).
  congruence.
Qed.

(** ** Properties *)

(** The transitive-ancestry worklist terminates within its bound and
    returns exactly the strict ancestors of a record: the ids other than its
    own that are reachable by one or more [derived_from] steps inside the
    pool. In particular a cycle of [derived_from] references neither hangs it
    nor makes a record its own ancestor. *)
Theorem ancestors_exact (evidence : list Evidence) (x : Uuid) :
  ∃ s, ancestors_of x evidence = Some s ∧
    ∀ y, y ∈ s ↔ y ≠ x ∧ tc (derives (index_by_id evidence)) x y.
Proof. apply ancestors_of_indexed_spec. Qed.

(** The budgeted construction of source families refines the plain one:
    the plain one always completes, and the budgeted one returns the very
    same map or aborts, with no partial map, having overrun its budget by
    exactly one work unit. *)
Theorem try_build_sound_or_aborts (evidence : list Evidence) (budget : FamilyBudget) :
  ∃ m, build evidence = Some m ∧
    (try_build evidence budget = Some (Ok m) ∨
     try_build evidence budget =
       Some (Err (mkBudgetExceeded (length evidence) (max_work_units budget + 1)
                    (max_work_units budget)))).
Proof.
  destruct (build_total evidence) as [m Hm]. exists m. split; [done|].
  by apply try_build_refines.
Qed.

(** C4. For a pool of records with distinct ids, two records are put in one
    source family exactly when they count as one source: they are the same
    record, or a chain of shared correlation groups, derivation steps and
    shared agent-reported turns connects them, and both have recorded
    provenance or the one that has none carries the least id of all that is
    connected with it. So two records without provenance never share a family,
    but a record without provenance does share one with what derives from it
    if its id happens to be the least. *)
Theorem same_family_iff_one_source (evidence : list Evidence) (m : SourceFamilyMap)
    (e1 e2 : Evidence) :
  NoDup (ev_id <$> evidence) → build evidence = Some m →
  e1 ∈ evidence → e2 ∈ evidence →
  (∃ f, family_of m (ev_id e1) = Some f ∧ ev_id e2 ∈ evidence_ids f) ↔
  one_source evidence e1 e2.
Proof. apply family_iff_one_source. Qed.

(** ** Witnesses *)

(** A record with the given id, event, channel and derivation; the other
    fields do not matter to source families. *)
Definition sample_source (trust : TrustClass) (group : option Uuid) (parents : list Uuid) :
    EvidenceSource :=
  mkEvidenceSource "sensor" trust "" None HookCallback None
    (mkFreshness HostClock None) (mkTamperBoundary "" None) group parents.
Definition sample_evidence (x event : Uuid) (src : option EvidenceSource) : Evidence :=
  mkEvidence x "s" event ExitCode "" JNull "" src None false.

Definition sample_pool : list Evidence :=
  [ sample_evidence 3 30 (Some (sample_source AgentAdjacent None [2%N]));
    sample_evidence 1 10 (Some (sample_source HostObserved (Some 7%N) []));
    sample_evidence 2 20 (Some (sample_source HostObserved (Some 7%N) [])) ].
Definition sample_families : SourceFamilyMap :=
  default (mkSourceFamilyMap [] ∅) (build sample_pool).

(** Record 3, derived from 2, is in the family of 1 because 1 and 2 share a
    correlation group: the connection is not direct. *)
Lemma same_family_iff_one_source_witness :
  ∃ f, family_of sample_families 1%N = Some f ∧ 3%N ∈ evidence_ids f.
Proof.
  set (e1 := sample_evidence 1 10 (Some (sample_source HostObserved (Some 7%N) []))).
  set (e2 := sample_evidence 2 20 (Some (sample_source HostObserved (Some 7%N) []))).
  set (e3 := sample_evidence 3 30 (Some (sample_source AgentAdjacent None [2%N]))).
  apply (same_family_iff_one_source sample_pool sample_families e1 e3).
  - apply (bool_decide_unpack _). vm_compute. done.
  - vm_compute. done.
  - right; left.
  - left.
  - right. split; [|done]. transitivity 2%N.
    + apply rtsc_lr. eapply (fe_group _ e1 e2 7); [right; left|right; right; left|done..].
    + apply rtsc_rl, fe_derived. exists e3. split; [done|]. split; [left|by eexists].
Defined.

(** The source documents a record without recorded provenance as always a
    family of its own. Rule 2 nevertheless unions it with a record derived
    from it, and the result then depends on which of the two ids is smaller:
    the child joins the family of a source-less parent with the smaller id,
    and stays apart from one with the larger id. *)
Example sourceless_parent_family :
  (evidence_ids <$> (families <$> build
     [ sample_evidence 1 10 None;
       sample_evidence 2 20 (Some (sample_source HostObserved None [1%N])) ]) ≫= head)
    = Some [1%N; 2%N]
  ∧ (evidence_ids <$> (families <$> build
     [ sample_evidence 2 10 None;
       sample_evidence 1 20 (Some (sample_source HostObserved None [2%N])) ]) ≫= head)
    = Some [1%N].
Proof. vm_compute. done. Qed.
