(* ===== verification/Fusion.v ===== *)
(** * Evidence fusion

    [crates/fornax-verify/src/fusion.rs]: the deterministic baseline policy
    that combines the evidence graph of a claim into one [FusedFinding], and
    the projection of verifier findings into such a graph.

    A [for] loop of the source that pushes to a vector of survivors, to the
    rationale and to the discounted ids is [loop step items]: [step] returns
    what one iteration pushes to each of the three ([Out]), and the pushes of
    all iterations are concatenated in order. The text of a rationale entry
    is a [Detail]: one constructor per format string of the source, with the
    values it interpolates. [fuse] returns [None] only if an ancestry
    traversal were to exceed its bound ([fuse_total] shows that it does
    not). *)

From S2P Require Import Prelude.
From S2P Require Import Types.
From S2P Require Import Graph.
From S2P Require Import UnionFind.
From S2P Require Import Independence.

Local Open Scope fornax_scope.

(** ** Data *)

Record FusionInput := mkFusionInput {
  fi_claim : Claim;
  fi_graph : EvidenceGraph;
  fi_evidence : list Evidence;
}.

Inductive UncertaintyBand := Corroborated | Qualified | Undetermined | Conflicted.
#[export] Instance UncertaintyBand_eq_dec : EqDecision UncertaintyBand.
Proof. solve_decision. Defined.

Inductive FusionRule :=
| EvidenceUnresolved | NeutralNotCounted
| DerivedFromCountedParent | DerivedEvidence
| StaleSupportDemoted | StaleContradictionRetained | FreshnessIndeterminate
| CorrelationCollapsed | CommonSourceCollapsed | IndependenceUnverified
| AllSupportDiscounted | VerdictDecided
| IndependenceBudgetExceeded.
#[export] Instance FusionRule_eq_dec : EqDecision FusionRule.
Proof. solve_decision. Defined.

Inductive RuleEffect := Counted | Discounted | Caveat | Decided.
#[export] Instance RuleEffect_eq_dec : EqDecision RuleEffect.
Proof. solve_decision. Defined.

(** The values interpolated into a rationale entry's text. *)
Inductive Detail :=
| DUnresolved (link evidence : Uuid)
| DNeutral (link : Uuid)
| DDerivedFromCounted (link : Uuid) (parent_hits : list Uuid)
| DDerived (link : Uuid)
| DStaleSupport (link : Uuid) (age_seconds : Z)
| DStaleContradiction (link : Uuid) (age_seconds : Z)
| DIndeterminate (link : Uuid) (reason : IndeterminateReason)
| DCorrelation (siblings : list Uuid) (group representative : Uuid)
| DCommonSource (siblings : list Uuid) (family_key representative : Uuid)
| DUnverifiedIndependence (link : Uuid)
| DBudget (evidence_count : nat) (work_units_at_abort limit : N)
| DConflict (s c_count : nat)
| DContradicting (c_count : nat)
| DSupporting (s : nat)
| DConcerningMissing (count : nat)
| DUnknownMissing (count : nat)
| DAllDiscounted (links : nat)
| DNobodyLooked.

Record RationaleEntry := mkRationaleEntry {
  re_rule : FusionRule;
  re_effect : RuleEffect;
  re_link_ids : list Uuid;
  re_missing_evidence_ids : list Uuid;
  re_evidence_ids : list Uuid;
  re_detail : Detail;
}.

Record FusedFinding := mkFusedFinding {
  ff_claim_id : Uuid;
  ff_verdict : Verdict;
  ff_uncertainty : UncertaintyBand;
  ff_rationale : list RationaleEntry;
  counted_link_ids : list Uuid;
  discounted_link_ids : list Uuid;
  ff_missing_evidence_ids : list Uuid;
  unresolved_conflict : bool;
  ff_policy_name : string;
  ff_policy_version : N;
  ff_computed_at : string;
}.

(** The [FusionPolicy] trait. *)
Class FusionPolicy := {
  policy_name : string;
  policy_version : N;
  policy_fuse : FusionInput → string → option FusedFinding;
}.

Definition is_concerning_availability (a : SignalAvailability) : bool :=
  match a with
  | Unsupported | SigUnavailable | CollectionFailed | Redacted | Disabled => true
  | Available | Unknown | AvailabilityUnrecognized _ => false
  end.

Definition relation_key (r : EvidenceRelation) : N :=
  match r with Supports => 0 | Contradicts => 1 | Neutral => 2 end%N.

Record Candidate := mkCandidate {
  cand_link : EvidenceLink;
  cand_evidence : Evidence;
}.

(** ** Loops *)

Record Out (A : Type) := mkOut {
  out_kept : list A;
  out_notes : list RationaleEntry;
  out_dropped : list Uuid;
}.
Arguments mkOut {A} _ _ _.
Arguments out_kept {A} _.
Arguments out_notes {A} _.
Arguments out_dropped {A} _.

Definition loop {A B} (step : A → Out B) (items : list A) : Out B :=
  mkOut (items ≫= out_kept ∘ step) (items ≫= out_notes ∘ step)
        (items ≫= out_dropped ∘ step).

Definition sort_ids (ids : list Uuid) : list Uuid := sort_by_key id ids.

(** ** The rules *)

(** R1 (unresolvable) and R2 (neutral). *)
Definition r1_r2_step (evidence_by_id : gmap Uuid Evidence) (l : EvidenceLink) :
    Out Candidate :=
  match evidence_by_id !! link_evidence_id l with
  | None =>
      mkOut []
        [mkRationaleEntry EvidenceUnresolved Discounted [link_id l] [] []
           (DUnresolved (link_id l) (link_evidence_id l))]
        [link_id l]
  | Some ev =>
      if decide (link_relation l = Neutral)
      then mkOut []
             [mkRationaleEntry NeutralNotCounted Caveat [link_id l] []
                [link_evidence_id l] (DNeutral (link_id l))]
             []
      else mkOut [mkCandidate l ev] [] []
  end.

(** R3: derived evidence. [ancestry] is the transitive [derived_from] ancestry
    of the candidate's evidence. *)
Definition r3_step (candidate_evidence_ids : gset Uuid) (p : Candidate * gset Uuid) :
    Out Candidate :=
  let '(c, ancestry) := p in
  if decide (ancestry = ∅) then mkOut [c] [] []
  else
    let parent_hits :=
      filter (λ a, a ∈ candidate_evidence_ids) (btree_set_iter ancestry) in
    let l := cand_link c in
    match parent_hits with
    | [] =>
        mkOut [c]
          [mkRationaleEntry DerivedEvidence Caveat [link_id l] [] [link_evidence_id l]
             (DDerived (link_id l))]
          []
    | _ :: _ =>
        mkOut []
          [mkRationaleEntry DerivedFromCountedParent Discounted [link_id l] []
             (link_evidence_id l :: parent_hits)
             (DDerivedFromCounted (link_id l) parent_hits)]
          [link_id l]
    end.

Definition r3 (evidence_index : gmap Uuid Evidence) (candidates : list Candidate) :
    option (Out Candidate) :=
  let candidate_evidence_ids : gset Uuid :=
    list_to_set (link_evidence_id ∘ cand_link <$> candidates) in
  let! ancestries :=
    mapM (λ c, ancestors_of_indexed (ev_id (cand_evidence c)) evidence_index) candidates in
  Some (loop (r3_step candidate_evidence_ids) (zip candidates ancestries)).

(** R4: staleness, asymmetric. *)
Definition r4_step `{Chrono} (claim : Claim) (c : Candidate) : Out Candidate :=
  let l := cand_link c in
  match staleness_of_default (cand_evidence c) claim with
  | NotTimeSensitive | Fresh _ => mkOut [c] [] []
  | Stale age_seconds =>
      if decide (link_relation l = Supports)
      then mkOut []
             [mkRationaleEntry StaleSupportDemoted Discounted [link_id l] []
                [link_evidence_id l] (DStaleSupport (link_id l) age_seconds)]
             [link_id l]
      else mkOut [c]
             [mkRationaleEntry StaleContradictionRetained Caveat [link_id l] []
                [link_evidence_id l] (DStaleContradiction (link_id l) age_seconds)]
             []
  | Indeterminate reason =>
      mkOut [c]
        [mkRationaleEntry FreshnessIndeterminate Caveat [link_id l] []
           [link_evidence_id l] (DIndeterminate (link_id l) reason)]
        []
  end.

(** One bucket of links that share a source: sorted by link id, the first is
    the representative and keeps its vote, the others are discounted. A bucket
    comes from a grouping, so it is never empty ([btree_group_nonempty]) and
    the source's [next().unwrap()] on it cannot panic. *)
Definition collapse_bucket {A} (link_of : A → EvidenceLink) (rule : FusionRule)
    (detail : list Uuid → Uuid → Detail) (bucket : list A) : Out A :=
  match sort_by_key (link_id ∘ link_of) bucket with
  | [] => mkOut [] [] []
  | [rep] => mkOut [rep] [] []
  | (rep :: siblings) as sorted =>
      let representative_id := link_id (link_of rep) in
      let sibling_ids := link_id ∘ link_of <$> siblings in
      mkOut [rep]
        [mkRationaleEntry rule Discounted
           (sort_ids (sibling_ids ++ [representative_id])) []
           (link_evidence_id ∘ link_of <$> sorted)
           (detail sibling_ids representative_id)]
        sibling_ids
  end.

(** R5: links that share a correlation group and a relation. The flag tells
    whether the survivor carried an explicit group. *)
Definition r5_bucket (b : N * Uuid * list Candidate) : Out (Candidate * bool) :=
  let o := collapse_bucket cand_link CorrelationCollapsed
             (λ siblings rep, DCorrelation siblings b.1.2 rep) b.2 in
  mkOut ((λ c, (c, true)) <$> out_kept o) (out_notes o) (out_dropped o).

Definition r5_key (c : Candidate) : option (N * Uuid) :=
  (λ g, (relation_key (link_relation (cand_link c)), g)) <$> group_of (cand_evidence c).

Definition r5 (after_r4 : list Candidate) : Out (Candidate * bool) :=
  let grouped := btree_group (omap (λ c, (λ k, (k, c)) <$> r5_key c) after_r4) in
  let ungrouped := filter (λ c, r5_key c = None) after_r4 in
  let o := loop r5_bucket (btree_iter grouped) in
  mkOut (out_kept o ++ ((λ c, (c, false)) <$> ungrouped)) (out_notes o) (out_dropped o).

(** R5b: survivors that share a source family and a relation. *)
Definition r5b_key (family_map : SourceFamilyMap) (p : Candidate * bool) :
    option (N * Uuid) :=
  match family_of family_map (link_evidence_id (cand_link p.1)) with
  | Some family =>
      match evidence_ids family with
      | family_key :: _ :: _ =>
          Some (relation_key (link_relation (cand_link p.1)), family_key)
      | _ => None
      end
  | None => None
  end.

Definition r5b_bucket (b : N * Uuid * list (Candidate * bool)) : Out (Candidate * bool) :=
  collapse_bucket (cand_link ∘ fst) CommonSourceCollapsed
    (λ siblings rep, DCommonSource siblings b.1.2 rep) b.2.

Definition r5b (family_map : SourceFamilyMap) (phase1_survivors : list (Candidate * bool)) :
    Out (Candidate * bool) :=
  let by_family :=
    btree_group (omap (λ p, (λ k, (k, p)) <$> r5b_key family_map p) phase1_survivors) in
  let solo := filter (λ p, r5b_key family_map p = None) phase1_survivors in
  let o := loop r5b_bucket (btree_iter by_family) in
  mkOut (solo ++ out_kept o) (out_notes o) (out_dropped o).

(** The final loop over [solo]: the independence caveat. *)
Definition final_step (p : Candidate * bool) : Out Candidate :=
  let '(c, had_group) := p in
  let l := cand_link c in
  mkOut [c]
    (if had_group : bool then []
     else [mkRationaleEntry IndependenceUnverified Caveat [link_id l] []
             [link_evidence_id l] (DUnverifiedIndependence (link_id l))])
    [].

(** ** The decision *)

Definition votes (r : EvidenceRelation) (final_counted : list Candidate) : nat :=
  length (filter (λ c, link_relation (cand_link c) = r) final_counted).

(** R6: the verdict and its rationale entry. [links] and [missing] are sorted
    by id, [counted] is the sorted list of counted link ids. *)
Definition r6 (s c_count : nat) (links : list EvidenceLink) (missing : list MissingEvidence)
    (counted : list Uuid) : Verdict * RationaleEntry :=
  let entry rule link_ids missing_ids detail :=
    mkRationaleEntry rule Decided link_ids missing_ids [] detail in
  if bool_decide (0 < s ∧ 0 < c_count)
  then (Review, entry VerdictDecided counted [] (DConflict s c_count))
  else if bool_decide (0 < c_count)
  then (Contradicted, entry VerdictDecided counted [] (DContradicting c_count))
  else if bool_decide (0 < s)
  then (Verified, entry VerdictDecided counted [] (DSupporting s))
  else
    let concerning_missing :=
      missing_id <$> filter (λ m, is_concerning_availability (availability m)) missing in
    match concerning_missing, missing, links with
    | _ :: _, _, _ =>
        (Unavailable, entry VerdictDecided [] concerning_missing
                        (DConcerningMissing (length concerning_missing)))
    | [], _ :: _, _ =>
        (Unverified, entry VerdictDecided [] (missing_id <$> missing)
                       (DUnknownMissing (length missing)))
    | [], [], _ :: _ =>
        (Unverified, entry AllSupportDiscounted (link_id <$> links) []
                       (DAllDiscounted (length links)))
    | [], [], [] => (Unverified, entry VerdictDecided [] [] DNobodyLooked)
    end.

Definition is_banding_caveat (r : RationaleEntry) : bool :=
  match re_rule r with
  | DerivedEvidence | StaleContradictionRetained | FreshnessIndeterminate
  | IndependenceUnverified => true
  | _ => false
  end.

Definition band (s c_count : nat) (rationale : list RationaleEntry)
    (discounted : list Uuid) (missing : list MissingEvidence) : UncertaintyBand :=
  if bool_decide (0 < s ∧ 0 < c_count) then Conflicted
  else if bool_decide (s = 0 ∧ c_count = 0) then Undetermined
  else if existsb is_banding_caveat rationale || bool_decide (discounted ≠ [])
          || bool_decide (missing ≠ [])
  then Qualified
  else Corroborated.

(** ** [BaselineFusionPolicy] *)

Definition baseline_name : string := "deterministic_baseline_v1".
Definition baseline_version : N := 3.

(** The result when R5b's source-family construction exceeds its budget. *)
Definition budget_exceeded_finding (claim : Claim) (missing : list MissingEvidence)
    (rationale : list RationaleEntry) (discounted : list Uuid) (b : BudgetExceeded)
    (computed_at : string) : FusedFinding :=
  mkFusedFinding (claim_id claim) Review Undetermined
    (rationale ++
      [mkRationaleEntry IndependenceBudgetExceeded Decided [] [] []
         (DBudget (evidence_count b) (work_units_at_abort b) (limit b))])
    [] discounted (missing_id <$> missing) false
    baseline_name baseline_version computed_at.

(** R6 and the band, over the surviving votes. *)
Definition decided_finding (claim : Claim) (links : list EvidenceLink)
    (missing : list MissingEvidence) (final_counted : list Candidate)
    (rationale : list RationaleEntry) (discounted : list Uuid)
    (computed_at : string) : FusedFinding :=
  let s := votes Supports final_counted in
  let c_count := votes Contradicts final_counted in
  let counted := sort_ids (link_id ∘ cand_link <$> final_counted) in
  let discounted := sort_ids discounted in
  let '(verdict, decision) := r6 s c_count links missing counted in
  let rationale := rationale ++ [decision] in
  mkFusedFinding (claim_id claim) verdict (band s c_count rationale discounted missing)
    rationale counted discounted (missing_id <$> missing)
    (bool_decide (0 < s ∧ 0 < c_count))
    baseline_name baseline_version computed_at.

(** R0 (canonical order) to R5: the survivors, with everything noted and
    dropped on the way. *)
Definition fuse_to_r5 `{Chrono} (claim : Claim) (links : list EvidenceLink)
    (evidence_by_id : gmap Uuid Evidence) : option (Out (Candidate * bool)) :=
  let o1 := loop (r1_r2_step evidence_by_id) links in
  let! o3 := r3 evidence_by_id (out_kept o1) in
  let o4 := loop (r4_step claim) (out_kept o3) in
  let o5 := r5 (out_kept o4) in
  Some (mkOut (out_kept o5)
          (out_notes o1 ++ out_notes o3 ++ out_notes o4 ++ out_notes o5)
          (out_dropped o1 ++ out_dropped o3 ++ out_dropped o4 ++ out_dropped o5)).

Definition fuse `{Chrono} (input : FusionInput) (computed_at : string) :
    option FusedFinding :=
  let claim := fi_claim input in
  let links := sort_by_key link_id (links (fi_graph input)) in
  let missing := sort_by_key missing_id (missing (fi_graph input)) in
  let evidence_by_id := index_by_id (fi_evidence input) in
  let! o5 := fuse_to_r5 claim links evidence_by_id in
  let! family_map := try_build (fi_evidence input) default_budget in
  match family_map with
  | Err budget_exceeded =>
      Some (budget_exceeded_finding claim missing (out_notes o5) (out_dropped o5)
              budget_exceeded computed_at)
  | Ok family_map =>
      let o5b := r5b family_map (out_kept o5) in
      let o6 := loop final_step (out_kept o5b) in
      Some (decided_finding claim links missing (out_kept o6)
              (out_notes o5 ++ out_notes o5b ++ out_notes o6)
              (out_dropped o5 ++ out_dropped o5b) computed_at)
  end.

#[export] Instance BaselineFusionPolicy `{Chrono} : FusionPolicy := {
  policy_name := baseline_name;
  policy_version := baseline_version;
  policy_fuse := fuse;
}.
