(* ===== verification/FusionLemmas.v ===== *)
(** * The fusion pipeline, rule by rule

    What each rule of [Fusion] keeps, drops and notes: a conservation law
    ([conserves]: nothing is lost or duplicated between the kept and the
    dropped links), what the two collapses leave of a bucket, and the ids a
    rationale entry may name. *)

From S2P Require Import Prelude.
From S2P Require Import Types.
From S2P Require Import Graph.
From S2P Require Import UnionFind.
From S2P Require Import Independence.
From S2P Require Import Fusion.

Local Open Scope fornax_scope.

(** ** Loops *)

Lemma bind_app_Permutation {A B} (f g : A → list B) l :
  (l ≫= f) ++ (l ≫= g) ≡ₚ l ≫= (λ x, f x ++ g x).
Proof. induction l as [|x l IH]; [done|]. csimpl. rewrite <- IH. solve_Permutation. Qed.

Lemma fmap_list_bind {A B C} (f : A → list B) (h : B → C) l :
  h <$> (l ≫= f) = l ≫= (λ x, h <$> f x).
Proof. induction l as [|x l IH]; [done|]. csimpl. by rewrite fmap_app, IH. Qed.

Lemma bind_Permutation_ext {A B} (f g : A → list B) l :
  (∀ x, x ∈ l → f x ≡ₚ g x) → l ≫= f ≡ₚ l ≫= g.
Proof.
  induction l as [|x l IH]; intros Hfg; [done|]. csimpl.
  rewrite (Hfg x) by left. rewrite IH; [done|]. intros y Hy. apply Hfg. by right.
Qed.

Lemma elem_of_loop_kept {A B} (step : A → Out B) l y :
  y ∈ out_kept (loop step l) ↔ ∃ x, x ∈ l ∧ y ∈ out_kept (step x).
Proof. simpl. rewrite list_elem_of_bind. naive_solver. Qed.

Lemma elem_of_loop_notes {A B} (step : A → Out B) l y :
  y ∈ out_notes (loop step l) ↔ ∃ x, x ∈ l ∧ y ∈ out_notes (step x).
Proof. simpl. rewrite list_elem_of_bind. naive_solver. Qed.

Lemma elem_of_loop_dropped {A B} (step : A → Out B) l y :
  y ∈ out_dropped (loop step l) ↔ ∃ x, x ∈ l ∧ y ∈ out_dropped (step x).
Proof. simpl. rewrite list_elem_of_bind. naive_solver. Qed.

Lemma loop_fmap {A B C} (step : B → Out C) (f : A → B) l :
  loop step (f <$> l) = loop (step ∘ f) l.
Proof. unfold loop. by rewrite !list_fmap_bind. Qed.

Lemma mapM_total {A B} (f : A → option B) (g : A → B) l :
  (∀ x, f x = Some (g x)) → mapM f l = Some (g <$> l).
Proof. intros Hf. induction l as [|x l IH]; [done|]. simpl. by rewrite Hf, IH. Qed.

Lemma zip_fmap_self {A B} (g : A → B) (l : list A) : zip l (g <$> l) = (λ x, (x, g x)) <$> l.
Proof. induction l as [|x l IH]; [done|]. cbn [fmap list_fmap zip zip_with]. by f_equal. Qed.

(** The links of the input are those kept and those dropped. *)
Definition conserves {A} (link_of : A → Uuid) (o : Out A) (ids : list Uuid) : Prop :=
  (link_of <$> out_kept o) ++ out_dropped o ≡ₚ ids.

Lemma loop_conserves {A B} (step : A → Out B) (link_of : B → Uuid) (ids : A → list Uuid) l :
  (∀ x, x ∈ l → conserves link_of (step x) (ids x)) →
  conserves link_of (loop step l) (l ≫= ids).
Proof.
  unfold conserves. intros Hstep; simpl.
  rewrite fmap_list_bind, bind_app_Permutation.
  by apply bind_Permutation_ext.
Qed.

Lemma loop_conserves_each {A} (step : A → Out A) (link_of : A → Uuid) l :
  (∀ x, conserves link_of (step x) [link_of x]) →
  conserves link_of (loop step l) (link_of <$> l).
Proof.
  intros Hstep. assert (link_of <$> l = l ≫= λ x, [link_of x]) as ->.
  { induction l as [|x l IH]; [done|]. csimpl. by rewrite IH. }
  by apply loop_conserves.
Qed.

(** Every dropped link is named by a note with effect [Discounted]. *)
Definition explained {A} (o : Out A) : Prop :=
  ∀ x, x ∈ out_dropped o →
    ∃ r, r ∈ out_notes o ∧ re_effect r = Discounted ∧ x ∈ re_link_ids r.

Lemma loop_explained {A B} (step : A → Out B) l :
  (∀ x, x ∈ l → explained (step x)) → explained (loop step l).
Proof.
  intros Hstep y (x & Hx & Hy)%elem_of_loop_dropped.
  destruct (Hstep x Hx y Hy) as (r & Hr & ?). exists r. split; [|done].
  apply elem_of_loop_notes. eauto.
Qed.

(** ** Buckets *)

Section collapse.
Context {A : Type} (link_of : A → EvidenceLink) (rule : FusionRule).
Context (detail : list Uuid → Uuid → Detail).
Let collapse := collapse_bucket link_of rule detail.

Lemma collapse_conserves b :
  conserves (link_id ∘ link_of) (collapse b) (link_id ∘ link_of <$> b).
Proof.
  unfold conserves, collapse, collapse_bucket.
  rewrite <- (sort_by_key_Permutation (link_id ∘ link_of) b) at 3.
  by destruct (sort_by_key _ b) as [|x [|y l]].
Qed.

Lemma collapse_explained b : explained (collapse b).
Proof.
  unfold explained, collapse, collapse_bucket.
  destruct (sort_by_key _ b) as [|x [|y l]]; cbn [out_dropped out_notes];
    [by intros ? []%elem_of_nil..|].
  intros z Hz. eexists. split; [left|]. split; [done|]. cbn [re_link_ids].
  unfold sort_ids. rewrite elem_of_sort_by_key, elem_of_app. by left.
Qed.

(** Exactly one member of a bucket survives. *)
Lemma collapse_kept b : b ≠ [] → ∃ rep, out_kept (collapse b) = [rep] ∧ rep ∈ b.
Proof.
  intros Hb. unfold collapse, collapse_bucket.
  destruct (sort_by_key _ b) as [|x l] eqn:Hs.
  { destruct Hb. apply Permutation_nil_r.
    by rewrite <- Hs, sort_by_key_Permutation. }
  exists x. split; [by destruct l|].
  rewrite <- (sort_by_key_Permutation (link_id ∘ link_of) b), Hs. left.
Qed.

(** A bucket of one drops nothing. *)
Lemma collapse_dropped_nil b : out_dropped (collapse b) = [] → length b ≤ 1.
Proof.
  unfold collapse, collapse_bucket.
  rewrite <- (Permutation_length (sort_by_key_Permutation (link_id ∘ link_of) b)).
  destruct (sort_by_key _ b) as [|x [|y l]]; simpl; [lia..|done].
Qed.

Lemma collapse_notes_ids b r :
  r ∈ out_notes (collapse b) →
  re_rule r = rule ∧ re_missing_evidence_ids r = [] ∧
  (∀ x, x ∈ re_link_ids r → ∃ a, a ∈ b ∧ x = link_id (link_of a)) ∧
  (∀ x, x ∈ re_evidence_ids r → ∃ a, a ∈ b ∧ x = link_evidence_id (link_of a)).
Proof.
  unfold collapse, collapse_bucket. intros Hr.
  setoid_rewrite <- (sort_by_key_Permutation (link_id ∘ link_of) b) at 1.
  setoid_rewrite <- (sort_by_key_Permutation (link_id ∘ link_of) b) at 2.
  destruct (sort_by_key _ b) as [|x [|y l]]; cbn [out_notes] in Hr;
    [by apply elem_of_nil in Hr..|].
  apply list_elem_of_singleton in Hr as ->.
  cbn [re_rule re_missing_evidence_ids re_link_ids re_evidence_ids]. do 2 (split; [done|]). split.
  - intros z. unfold sort_ids.
    rewrite elem_of_sort_by_key, elem_of_app, list_elem_of_singleton.
    intros [(a & -> & Ha)%(list_elem_of_fmap (link_id ∘ link_of) (y :: l))| ->].
    + exists a. split; [by right|done].
    + exists x. split; [left|done].
  - intros z (a & -> & Ha)%(list_elem_of_fmap (link_evidence_id ∘ link_of) (x :: y :: l)).
    eauto.
Qed.
End collapse.

(** ** Grouping *)

Lemma elem_of_keyed {A K} (key : A → option K) (l : list A) k x :
  (k, x) ∈ omap (λ x, (λ k, (k, x)) <$> key x) l ↔ x ∈ l ∧ key x = Some k.
Proof.
  rewrite list_elem_of_omap. split.
  - intros (y & Hy & Hk). destruct (key y) eqn:E; simplify_eq/=. done.
  - intros [Hx Hk]. exists x. by rewrite Hk.
Qed.

Lemma keyed_split {A K} `{EqDecision K} (key : A → option K) (l : list A) :
  (omap (λ x, (λ k, (k, x)) <$> key x) l).*2 ++ filter (λ x, key x = None) l ≡ₚ l.
Proof.
  induction l as [|x l IH]; [done|]. simpl.
  destruct (key x) as [k|] eqn:E; simpl.
  - rewrite filter_cons_False by by rewrite E. by rewrite IH.
  - rewrite filter_cons_True by done. by rewrite <- Permutation_middle, IH.
Qed.

Lemma omap_filter_None {A K} `{EqDecision K} (key : A → option K) (l : list A) :
  omap key (filter (λ x, key x = None) l) = [].
Proof.
  induction l as [|x l IH]; [done|]. rewrite filter_cons.
  case_decide as Hd; [|done]. simpl. by rewrite Hd.
Qed.

Lemma omap_compose_fmap {A B K} (f : B → option K) (g : A → B) (l : list A) :
  omap (f ∘ g) l = omap f (g <$> l).
Proof.
  induction l as [|x l IH]; [done|]. change (omap (f ∘ g) (x :: l)) with
    (match f (g x) with Some y => y :: omap (f ∘ g) l | None => omap (f ∘ g) l end).
  rewrite IH. done.
Qed.

Lemma NoDup_omap_elem {A K} (key : A → option K) (l : list A) x y k :
  NoDup (omap key l) → x ∈ l → y ∈ l → key x = Some k → key y = Some k → x = y.
Proof.
  induction l as [|z l IH]; [by intros _ []%elem_of_nil|]. intros Hnd Hx Hy Hkx Hky.
  assert (∀ u, u ∈ l → key u = Some k → key z = Some k → False) as Habs.
  { intros u Hu Hku Hkz. simpl in Hnd. rewrite Hkz in Hnd.
    apply NoDup_cons in Hnd as [Hn _]. apply Hn, list_elem_of_omap. eauto. }
  apply elem_of_cons in Hx as [->|Hx], Hy as [->|Hy]; [done|by edestruct Habs..|].
  apply IH; try done. simpl in Hnd. destruct (key z); [by apply NoDup_cons in Hnd as []|done].
Qed.

Section groups.
Context {A K : Type} `{OrdKey K, !OrdKeyDec K, !OrdKeyOk K, EqDecision K, !Countable K}.
Context (key : A → option K) (link_of : A → EvidenceLink) (rule : FusionRule).
Context (detail : K → list Uuid → Uuid → Detail) (l : list A).

Definition grouped_buckets : list (K * list A) :=
  btree_iter (btree_group (omap (λ x, (λ k, (k, x)) <$> key x) l)).
Definition collapsed : Out A :=
  loop (λ b, collapse_bucket link_of rule (detail b.1) b.2) grouped_buckets.

Lemma elem_of_bucket k b :
  (k, b) ∈ grouped_buckets → b ≠ [] ∧ ∀ x, x ∈ b ↔ x ∈ l ∧ key x = Some k.
Proof.
  intros Hb%elem_of_btree_iter. split; [by eapply btree_group_nonempty|].
  intros x. rewrite <- elem_of_keyed. by apply elem_of_btree_group.
Qed.

Lemma collapsed_conserves :
  (link_id ∘ link_of <$> out_kept collapsed) ++ out_dropped collapsed ++
    (link_id ∘ link_of <$> filter (λ x, key x = None) l) ≡ₚ link_id ∘ link_of <$> l.
Proof.
  assert (conserves (link_id ∘ link_of) collapsed
    (grouped_buckets ≫= λ b, link_id ∘ link_of <$> b.2)) as Hc.
  { apply loop_conserves. intros b _. apply collapse_conserves. }
  rewrite (assoc (++)), Hc. rewrite <- (keyed_split key l) at 2.
  rewrite fmap_app. apply Permutation_app; [|done].
  rewrite <- btree_group_concat. fold grouped_buckets.
  clear Hc. generalize grouped_buckets as bs.
  induction bs as [|b bs IH]; [done|]. csimpl. by rewrite fmap_app, <- IH.
Qed.

Lemma collapsed_explained : explained collapsed.
Proof. apply loop_explained. intros b _. apply collapse_explained. Qed.

Lemma collapsed_kept x : x ∈ out_kept collapsed → x ∈ l ∧ is_Some (key x).
Proof.
  intros ([k b] & Hb & Hx)%elem_of_loop_kept. simpl in Hx.
  destruct (elem_of_bucket k b Hb) as [Hne Hmem].
  destruct (collapse_kept link_of rule (detail k) b Hne) as (rep & Hrep & Hin).
  rewrite Hrep in Hx. apply list_elem_of_singleton in Hx as ->.
  apply Hmem in Hin as [? ->]. eauto.
Qed.

Lemma collapsed_representative x k :
  x ∈ l → key x = Some k → ∃ rep, rep ∈ out_kept collapsed ∧ key rep = Some k.
Proof.
  intros Hx Hk. destruct (btree_group_has (omap (λ x, (λ k, (k, x)) <$> key x) l) k x)
    as (b & Hb & Hxb); [by apply elem_of_keyed|].
  apply elem_of_btree_iter in Hb. destruct (elem_of_bucket k b Hb) as [Hne Hmem].
  destruct (collapse_kept link_of rule (detail k) b Hne) as (rep & Hrep & Hin).
  exists rep. split; [|by apply Hmem].
  apply elem_of_loop_kept. exists (k, b). split; [done|]. simpl. rewrite Hrep. left.
Qed.

Lemma collapsed_all_kept x k :
  out_dropped collapsed = [] → x ∈ l → key x = Some k → x ∈ out_kept collapsed.
Proof.
  intros Hd Hx Hk. destruct (btree_group_has (omap (λ x, (λ k, (k, x)) <$> key x) l) k x)
    as (b & Hb & Hxb); [by apply elem_of_keyed|].
  apply elem_of_btree_iter in Hb. destruct (elem_of_bucket k b Hb) as [Hne _].
  destruct (collapse_kept link_of rule (detail k) b Hne) as (rep & Hrep & Hin).
  assert (out_dropped (collapse_bucket link_of rule (detail k) b) = []) as Hnil.
  { apply elem_of_nil_inv. intros y Hy. apply (not_elem_of_nil y). rewrite <- Hd.
    apply elem_of_loop_dropped. by exists (k, b). }
  apply collapse_dropped_nil in Hnil.
  apply elem_of_loop_kept. exists (k, b). split; [done|]. simpl. rewrite Hrep.
  destruct b as [|y [|z b]]; simpl in Hnil; [by apply elem_of_nil in Hxb| |lia].
  apply list_elem_of_singleton in Hxb as ->. apply list_elem_of_singleton in Hin as ->. left.
Qed.

Lemma collapsed_keys : omap key (out_kept collapsed) = grouped_buckets.*1.
Proof.
  unfold collapsed. assert (∀ b, b ∈ grouped_buckets → b.2 ≠ [] ∧
    ∀ x, x ∈ b.2 → key x = Some b.1) as Hb.
  { intros [k b] Hb. destruct (elem_of_bucket k b Hb) as [Hne Hmem].
    split; [done|]. intros x Hx. by apply Hmem. }
  revert Hb. generalize grouped_buckets as bs.
  induction bs as [|b bs IH]; intros Hb; [done|]. csimpl.
  rewrite omap_app. destruct (Hb b) as [Hne Hmem]; [left|].
  destruct (collapse_kept link_of rule (detail b.1) b.2 Hne) as (rep & Hrep & Hin).
  simpl. rewrite Hrep. simpl. rewrite (Hmem rep Hin). simpl. f_equal.
  apply IH. intros b' Hb'. apply Hb. by right.
Qed.

Lemma collapsed_keys_NoDup : NoDup (omap key (out_kept collapsed)).
Proof. rewrite collapsed_keys. apply btree_iter_NoDup_fst. Qed.

Lemma collapsed_notes r :
  r ∈ out_notes collapsed →
  re_rule r = rule ∧ re_missing_evidence_ids r = [] ∧
  (∀ x, x ∈ re_link_ids r → ∃ a, a ∈ l ∧ x = link_id (link_of a)) ∧
  (∀ x, x ∈ re_evidence_ids r → ∃ a, a ∈ l ∧ x = link_evidence_id (link_of a)).
Proof.
  intros ([k b] & Hb & Hr)%elem_of_loop_notes. simpl in Hr.
  destruct (elem_of_bucket k b Hb) as [_ Hmem].
  apply collapse_notes_ids in Hr as (? & ? & Hl & He). do 2 (split; [done|]). split.
  - intros x (a & [? _]%Hmem & ?)%Hl. eauto.
  - intros x (a & [? _]%Hmem & ?)%He. eauto.
Qed.
End groups.

(** ** R1 to R4 *)

Definition cand_id (c : Candidate) : Uuid := link_id (cand_link c).

(** A link whose evidence resolves and which votes. *)
Definition is_candidate (by_id : gmap Uuid Evidence) (links : list EvidenceLink)
    (c : Candidate) : Prop :=
  cand_link c ∈ links ∧ by_id !! link_evidence_id (cand_link c) = Some (cand_evidence c)
  ∧ link_relation (cand_link c) ≠ Neutral.

(** Neutral links whose evidence resolves: noted, neither kept nor dropped. *)
Definition neutral_links (by_id : gmap Uuid Evidence) (links : list EvidenceLink) :
    list EvidenceLink :=
  filter (λ l, is_Some (by_id !! link_evidence_id l) ∧ link_relation l = Neutral) links.

Lemma r1_r2_kept by_id links c :
  c ∈ out_kept (loop (r1_r2_step by_id) links) ↔ is_candidate by_id links c.
Proof.
  rewrite elem_of_loop_kept. unfold r1_r2_step, is_candidate. split.
  - intros (l & Hl & Hc). destruct (by_id !! _) as [ev|] eqn:E; [|by apply elem_of_nil in Hc].
    case_decide; simpl in Hc; [by apply elem_of_nil in Hc|].
    apply list_elem_of_singleton in Hc as ->. done.
  - intros (Hl & He & Hr). exists (cand_link c). split; [done|]. rewrite He.
    rewrite decide_False by done. destruct c. left.
Qed.

Lemma r1_r2_conserves by_id links :
  (cand_id <$> out_kept (loop (r1_r2_step by_id) links))
    ++ out_dropped (loop (r1_r2_step by_id) links)
    ++ (link_id <$> neutral_links by_id links) ≡ₚ link_id <$> links.
Proof.
  induction links as [|l links IH]; [done|].
  rewrite fmap_cons, <- IH. unfold neutral_links, loop; csimpl. rewrite filter_cons, fmap_app.
  unfold r1_r2_step at 1 3. destruct (by_id !! _) as [ev|]; simpl.
  - rewrite (decide_ext (is_Some (Some ev) ∧ link_relation l = Neutral)
      (link_relation l = Neutral)) by naive_solver.
    case_decide; simpl; solve_Permutation.
  - solve_Permutation.
Qed.

Section r3.
Context (by_id : gmap Uuid Evidence) (cands : list Candidate).

Definition ancestry_of (c : Candidate) : gset Uuid :=
  default ∅ (ancestors_of_indexed (ev_id (cand_evidence c)) by_id).

Definition candidate_ids : gset Uuid :=
  list_to_set (link_evidence_id ∘ cand_link <$> cands).

Definition r3_out : Out Candidate :=
  loop (λ c, r3_step candidate_ids (c, ancestry_of c)) cands.

Lemma elem_of_ancestry c y :
  y ∈ ancestry_of c ↔
    y ≠ ev_id (cand_evidence c) ∧ tc (derives by_id) (ev_id (cand_evidence c)) y.
Proof.
  unfold ancestry_of.
  destruct (ancestors_of_indexed_spec (ev_id (cand_evidence c)) by_id) as (s & -> & Hs).
  apply Hs.
Qed.

Lemma r3_total : r3 by_id cands = Some r3_out.
Proof.
  unfold r3. rewrite (mapM_total _ ancestry_of), zip_fmap_self, loop_fmap; [done|].
  intros c. unfold ancestry_of.
  by destruct (ancestors_of_indexed_spec (ev_id (cand_evidence c)) by_id) as (s & -> & _).
Qed.

(** The evidence of some candidate is a strict ancestor of that of [c]. *)
Definition derived_from_candidate (c : Candidate) : Prop :=
  ∃ c', c' ∈ cands ∧ link_evidence_id (cand_link c') ∈ ancestry_of c.

Lemma parent_hits_spec c y :
  y ∈ filter (λ a, a ∈ candidate_ids) (btree_set_iter (ancestry_of c)) ↔
    y ∈ ancestry_of c ∧ ∃ c', c' ∈ cands ∧ y = link_evidence_id (cand_link c').
Proof.
  rewrite list_elem_of_filter, elem_of_btree_set_iter. unfold candidate_ids.
  rewrite elem_of_list_to_set, list_elem_of_fmap. naive_solver.
Qed.

Lemma parent_hits_nil c :
  filter (λ a, a ∈ candidate_ids) (btree_set_iter (ancestry_of c)) = [] ↔
    ¬ derived_from_candidate c.
Proof.
  split.
  - intros Hnil (c' & Hc' & Ha).
    assert (link_evidence_id (cand_link c') ∈ ([] : list N)) as []%elem_of_nil.
    rewrite <- Hnil. apply parent_hits_spec. eauto.
  - intros Hn. destruct (filter _ _) as [|y ys] eqn:E; [done|]. destruct Hn.
    destruct (proj1 (parent_hits_spec c y)) as (Ha & c' & Hc' & ->); [rewrite E; left|].
    by exists c'.
Qed.

(** The three outcomes of R3 for one candidate. *)
Lemma r3_step_cases c :
  (r3_step candidate_ids (c, ancestry_of c) = mkOut [c] [] [] ∧ ¬ derived_from_candidate c
     ∧ ancestry_of c = ∅)
  ∨ (∃ r, r3_step candidate_ids (c, ancestry_of c) = mkOut [c] [r] []
       ∧ re_rule r = DerivedEvidence ∧ re_link_ids r = [cand_id c]
       ∧ re_missing_evidence_ids r = []
       ∧ re_evidence_ids r = [link_evidence_id (cand_link c)]
       ∧ ¬ derived_from_candidate c)
  ∨ (∃ r, r3_step candidate_ids (c, ancestry_of c) = mkOut [] [r] [cand_id c]
       ∧ re_effect r = Discounted ∧ re_rule r = DerivedFromCountedParent
       ∧ re_link_ids r = [cand_id c] ∧ re_missing_evidence_ids r = []
       ∧ (∀ y, y ∈ re_evidence_ids r → y = link_evidence_id (cand_link c) ∨
            ∃ c', c' ∈ cands ∧ y = link_evidence_id (cand_link c'))
       ∧ derived_from_candidate c).
Proof.
  unfold r3_step. case_decide as Hemp.
  { left. split; [done|]. split; [|done].
    intros (c' & _ & Ha). rewrite Hemp in Ha. by apply elem_of_empty in Ha. }
  pose proof (parent_hits_nil c) as Hnil.
  pose proof (parent_hits_spec c) as Hspec.
  destruct (filter _ _) as [|y ys].
  - right; left. eexists. split; [done|]. do 4 (split; [done|]). by apply Hnil.
  - right; right. eexists. split; [done|]. do 4 (split; [done|]). split.
    + simpl. intros z [->|Hz]%elem_of_cons; [by left|]. right. by apply Hspec.
    + destruct (proj1 (Hspec y)) as (Ha & c' & Hc' & ->); [left|]. by exists c'.
Qed.

Lemma r3_kept c : c ∈ out_kept r3_out ↔ c ∈ cands ∧ ¬ derived_from_candidate c.
Proof.
  unfold r3_out. rewrite elem_of_loop_kept. split.
  - intros (c' & Hc' & Hin).
    destruct (r3_step_cases c') as [(Heq & ? & _)|[(r & Heq & _ & _ & _ & _ & ?)|(r & Heq & _)]];
      rewrite Heq in Hin; simpl in Hin.
    1,2: by apply list_elem_of_singleton in Hin as ->.
    by apply elem_of_nil in Hin.
  - intros [Hc Hd]. exists c. split; [done|].
    destruct (r3_step_cases c) as [(-> & _)|[(r & -> & _)|(r & _ & _ & _ & _ & _ & _ & ?)]];
      [left..|done].
Qed.

Lemma r3_conserves : conserves cand_id r3_out (cand_id <$> cands).
Proof.
  apply loop_conserves_each. intros c. unfold conserves.
  by destruct (r3_step_cases c) as [(-> & _)|[(r & -> & _)|(r & -> & _)]].
Qed.

Lemma r3_explained : explained r3_out.
Proof.
  apply loop_explained. intros c _. unfold explained.
  destruct (r3_step_cases c) as [(-> & _)|[(r & -> & _)|(r & -> & Hd & _ & Hl & _)]]; simpl.
  1,2: by intros ? []%elem_of_nil.
  intros y ->%list_elem_of_singleton. exists r. rewrite Hl. set_solver.
Qed.
End r3.

Section r4.
Context `{Chrono} (claim : Claim).

Definition stale_support (c : Candidate) : Prop :=
  link_relation (cand_link c) = Supports ∧
  ∃ age, staleness_of_default (cand_evidence c) claim = Stale age.

Lemma r4_step_cases c :
  (r4_step claim c = mkOut [c] [] [] ∧ ¬ stale_support c ∧
     (staleness_of_default (cand_evidence c) claim = NotTimeSensitive ∨
      ∃ age, staleness_of_default (cand_evidence c) claim = Fresh age))
  ∨ (∃ r, r4_step claim c = mkOut [c] [r] []
       ∧ is_banding_caveat r = true ∧ re_link_ids r = [cand_id c]
       ∧ re_missing_evidence_ids r = []
       ∧ re_evidence_ids r = [link_evidence_id (cand_link c)] ∧ ¬ stale_support c)
  ∨ (∃ r, r4_step claim c = mkOut [] [r] [cand_id c]
       ∧ re_effect r = Discounted ∧ re_link_ids r = [cand_id c]
       ∧ re_missing_evidence_ids r = []
       ∧ re_evidence_ids r = [link_evidence_id (cand_link c)] ∧ stale_support c).
Proof.
  unfold r4_step, stale_support. destruct (staleness_of_default _ _) eqn:E.
  1,2: left; naive_solver.
  - case_decide; [right; right|right; left]; eexists; (split; [done|]); naive_solver.
  - right; left. eexists. split; [done|]. naive_solver.
Qed.

Lemma r4_kept cands c :
  c ∈ out_kept (loop (r4_step claim) cands) ↔ c ∈ cands ∧ ¬ stale_support c.
Proof.
  rewrite elem_of_loop_kept. split.
  - intros (c' & Hc' & Hin).
    destruct (r4_step_cases c') as [(Heq & ? & _)|[(r & Heq & _ & _ & _ & _ & ?)|(r & Heq & _)]];
      rewrite Heq in Hin; simpl in Hin.
    1,2: by apply list_elem_of_singleton in Hin as ->.
    by apply elem_of_nil in Hin.
  - intros [Hc Hd]. exists c. split; [done|].
    destruct (r4_step_cases c) as [(-> & _)|[(r & -> & _)|(r & _ & _ & _ & _ & _ & ?)]];
      [left..|done].
Qed.

Lemma r4_conserves cands :
  conserves cand_id (loop (r4_step claim) cands) (cand_id <$> cands).
Proof.
  apply loop_conserves_each. intros c. unfold conserves.
  by destruct (r4_step_cases c) as [(-> & _)|[(r & -> & _)|(r & -> & _)]].
Qed.

Lemma r4_explained cands : explained (loop (r4_step claim) cands).
Proof.
  apply loop_explained. intros c _. unfold explained.
  destruct (r4_step_cases c) as [(-> & _)|[(r & -> & _)|(r & -> & Hd & Hl & _)]]; simpl.
  1,2: by intros ? []%elem_of_nil.
  intros y ->%list_elem_of_singleton. exists r. rewrite Hl. set_solver.
Qed.
End r4.

(** ** R5 and R5b *)

Definition r5_collapsed (l : list Candidate) : Out Candidate :=
  collapsed r5_key cand_link CorrelationCollapsed
    (λ k siblings rep, DCorrelation siblings k.2 rep) l.

Lemma r5_unfold l :
  out_kept (r5 l) = ((λ c, (c, true)) <$> out_kept (r5_collapsed l))
                    ++ ((λ c, (c, false)) <$> filter (λ c, r5_key c = None) l)
  ∧ out_notes (r5 l) = out_notes (r5_collapsed l)
  ∧ out_dropped (r5 l) = out_dropped (r5_collapsed l).
Proof.
  split; [|done]. unfold r5, r5_collapsed, collapsed, grouped_buckets; simpl.
  by rewrite fmap_list_bind.
Qed.

Lemma r5_kept_fst l :
  (out_kept (r5 l)).*1 = out_kept (r5_collapsed l) ++ filter (λ c, r5_key c = None) l.
Proof.
  destruct (r5_unfold l) as (-> & _). rewrite fmap_app, <- !list_fmap_compose.
  by rewrite !list_fmap_id.
Qed.

Lemma r5_conserves l : conserves (cand_id ∘ fst) (r5 l) (cand_id <$> l).
Proof.
  unfold conserves. rewrite list_fmap_compose, r5_kept_fst, fmap_app.
  destruct (r5_unfold l) as (_ & _ & ->).
  pose proof (collapsed_conserves r5_key cand_link CorrelationCollapsed
    (λ k siblings rep, DCorrelation siblings k.2 rep) l) as Hc.
  change (link_id ∘ cand_link) with cand_id in Hc. rewrite <- Hc.
  unfold r5_collapsed. solve_Permutation.
Qed.

Lemma r5_explained l : explained (r5 l).
Proof.
  unfold explained. destruct (r5_unfold l) as (_ & -> & ->). apply collapsed_explained.
Qed.

(** The flag of a survivor tells whether its evidence records a group. *)
Lemma r5_kept l c b :
  (c, b) ∈ out_kept (r5 l) → c ∈ l ∧ b = bool_decide (is_Some (group_of (cand_evidence c))).
Proof.
  destruct (r5_unfold l) as (-> & _). rewrite elem_of_app, !list_elem_of_fmap.
  assert (∀ c, is_Some (r5_key c) ↔ is_Some (group_of (cand_evidence c))) as Hkey.
  { intros c'. unfold r5_key. by rewrite fmap_is_Some. }
  intros [(c' & [= -> ->] & Hc)|(c' & [= -> ->] & Hc)].
  - apply collapsed_kept in Hc as [? Hk]. split; [done|].
    symmetry. apply bool_decide_eq_true_2. by apply Hkey.
  - apply list_elem_of_filter in Hc as [Hk ?]. split; [done|].
    symmetry. apply bool_decide_eq_false_2. rewrite <- Hkey, Hk. by intros [].
Qed.

(** With nothing dropped, every vote survives R5. *)
Lemma r5_all_kept l c :
  out_dropped (r5 l) = [] → c ∈ l →
  (c, bool_decide (is_Some (group_of (cand_evidence c)))) ∈ out_kept (r5 l).
Proof.
  destruct (r5_unfold l) as (-> & _ & ->). intros Hd Hc.
  rewrite elem_of_app, !list_elem_of_fmap. unfold r5_collapsed in Hd.
  destruct (r5_key c) as [k|] eqn:Hk.
  - left. exists c. split; [|by eapply collapsed_all_kept].
    unfold r5_key in Hk. by destruct (group_of (cand_evidence c)).
  - right. exists c. split; [|by apply list_elem_of_filter].
    unfold r5_key in Hk. by destruct (group_of (cand_evidence c)).
Qed.

(** Every vote survives R5 itself, or through one with its relation and its
    recorded group. *)
Lemma r5_represented_by l c :
  c ∈ l → ∃ p, p ∈ out_kept (r5 l) ∧ (p.1 = c ∨ is_Some (r5_key c) ∧ r5_key p.1 = r5_key c).
Proof.
  intros Hc. destruct (r5_unfold l) as (-> & _).
  destruct (r5_key c) as [k|] eqn:Hk.
  - destruct (collapsed_representative r5_key cand_link CorrelationCollapsed
      (λ k siblings rep, DCorrelation siblings k.2 rep) l c k Hc Hk) as (rep & Hrep & Hkr).
    exists (rep, true). split; [|by right; eauto].
    apply elem_of_app. left. apply list_elem_of_fmap. by exists rep.
  - exists (c, false). split; [|by left]. apply elem_of_app. right.
    apply list_elem_of_fmap. exists c. split; [done|]. by apply list_elem_of_filter.
Qed.

Lemma r5_key_relation c c' k :
  r5_key c = Some k → r5_key c' = Some k →
  link_relation (cand_link c) = link_relation (cand_link c') ∧
  ∃ g, group_of (cand_evidence c) = Some g ∧ group_of (cand_evidence c') = Some g.
Proof.
  unfold r5_key. destruct (group_of (cand_evidence c)), (group_of (cand_evidence c'));
    intros ??; simplify_eq/=. split; [|eauto].
  by destruct (link_relation (cand_link c)), (link_relation (cand_link c')).
Qed.

Lemma r5_represented l c :
  c ∈ l → ∃ p, p ∈ out_kept (r5 l) ∧
    link_relation (cand_link p.1) = link_relation (cand_link c).
Proof.
  intros (p & Hp & [<-|[[k Hk] Hkp]])%r5_represented_by; [by exists p|].
  exists p. split; [done|]. rewrite Hk in Hkp. by apply (r5_key_relation _ _ k).
Qed.

(** No two survivors share a relation and a recorded group. *)
Lemma r5_keys_NoDup l : NoDup (omap (r5_key ∘ fst) (out_kept (r5 l))).
Proof.
  rewrite omap_compose_fmap, r5_kept_fst, omap_app.
  rewrite omap_filter_None, app_nil_r. apply collapsed_keys_NoDup.
Qed.

Lemma r5_notes l r :
  r ∈ out_notes (r5 l) →
  re_rule r = CorrelationCollapsed ∧ re_missing_evidence_ids r = [] ∧
  (∀ x, x ∈ re_link_ids r → ∃ a, a ∈ l ∧ x = cand_id a) ∧
  (∀ x, x ∈ re_evidence_ids r → ∃ a, a ∈ l ∧ x = link_evidence_id (cand_link a)).
Proof. destruct (r5_unfold l) as (_ & -> & _). apply collapsed_notes. Qed.

Section r5b.
Context (fm : SourceFamilyMap) (l : list (Candidate * bool)).

Definition r5b_collapsed : Out (Candidate * bool) :=
  collapsed (r5b_key fm) (cand_link ∘ fst) CommonSourceCollapsed
    (λ k siblings rep, DCommonSource siblings k.2 rep) l.

Lemma r5b_unfold :
  r5b fm l = mkOut (filter (λ p, r5b_key fm p = None) l ++ out_kept r5b_collapsed)
               (out_notes r5b_collapsed) (out_dropped r5b_collapsed).
Proof. done. Qed.

Lemma r5b_conserves : conserves (cand_id ∘ fst) (r5b fm l) (cand_id ∘ fst <$> l).
Proof.
  unfold conserves. rewrite r5b_unfold; cbn [out_kept out_dropped out_notes]. rewrite fmap_app.
  pose proof (collapsed_conserves (r5b_key fm) (cand_link ∘ fst) CommonSourceCollapsed
    (λ k siblings rep, DCommonSource siblings k.2 rep) l) as Hc.
  change (link_id ∘ (cand_link ∘ fst)) with (cand_id ∘ @fst Candidate bool) in Hc.
  rewrite <- Hc. unfold r5b_collapsed. solve_Permutation.
Qed.

Lemma r5b_explained : explained (r5b fm l).
Proof. rewrite r5b_unfold. apply collapsed_explained. Qed.

Lemma r5b_kept p : p ∈ out_kept (r5b fm l) → p ∈ l.
Proof.
  rewrite r5b_unfold; cbn [out_kept out_dropped out_notes]. rewrite elem_of_app.
  intros [[_ ?]%list_elem_of_filter|[? _]%collapsed_kept]; done.
Qed.

Lemma r5b_all_kept p : out_dropped (r5b fm l) = [] → p ∈ l → p ∈ out_kept (r5b fm l).
Proof.
  rewrite r5b_unfold; cbn [out_kept out_dropped out_notes]. unfold r5b_collapsed.
  intros Hd Hp. apply elem_of_app. destruct (r5b_key fm p) as [k|] eqn:Hk.
  - right. by eapply collapsed_all_kept.
  - left. by apply list_elem_of_filter.
Qed.

(** A survivor of R5 is counted itself, or through one of its relation and
    family. *)
Lemma r5b_represented_by p :
  p ∈ l → ∃ p', p' ∈ out_kept (r5b fm l) ∧
    (p' = p ∨ is_Some (r5b_key fm p) ∧ r5b_key fm p' = r5b_key fm p).
Proof.
  intros Hp. rewrite r5b_unfold; cbn [out_kept out_dropped out_notes]. destruct (r5b_key fm p) as [k|] eqn:Hk.
  - destruct (collapsed_representative (r5b_key fm) (cand_link ∘ fst) CommonSourceCollapsed
      (λ k siblings rep, DCommonSource siblings k.2 rep) l p k Hp Hk) as (rep & Hrep & Hkr).
    exists rep. split; [apply elem_of_app; by right|]. by right; eauto.
  - exists p. split; [|by left]. apply elem_of_app. left. by apply list_elem_of_filter.
Qed.

(** Links with one key have one relation and families with one first member. *)
Lemma r5b_key_relation p p' k :
  r5b_key fm p = Some k → r5b_key fm p' = Some k →
  link_relation (cand_link p.1) = link_relation (cand_link p'.1) ∧
  ∃ f f', family_of fm (link_evidence_id (cand_link p.1)) = Some f ∧
    family_of fm (link_evidence_id (cand_link p'.1)) = Some f' ∧
    head (evidence_ids f) = Some k.2 ∧ head (evidence_ids f') = Some k.2.
Proof.
  unfold r5b_key. intros Hk Hk'.
  destruct (family_of fm (link_evidence_id (cand_link p.1))) as [f|]; [|done].
  destruct (family_of fm (link_evidence_id (cand_link p'.1))) as [f'|]; [|done].
  destruct (evidence_ids f) as [|y [|? ?]] eqn:Ef; [done..|].
  destruct (evidence_ids f') as [|y' [|? ?]] eqn:Ef'; [done..|]. simplify_eq. split.
  - by destruct (link_relation (cand_link p.1)), (link_relation (cand_link p'.1)).
  - exists f, f'. by rewrite Ef, Ef'.
Qed.

Lemma r5b_represented p :
  p ∈ l → ∃ p', p' ∈ out_kept (r5b fm l) ∧
    link_relation (cand_link p'.1) = link_relation (cand_link p.1).
Proof.
  intros (p' & Hp & [->|[[k Hk] Hkp]])%r5b_represented_by; [by exists p|].
  exists p'. split; [done|]. rewrite Hk in Hkp. by apply (r5b_key_relation _ _ k).
Qed.

Lemma r5b_keys_NoDup : NoDup (omap (r5b_key fm) (out_kept (r5b fm l))).
Proof.
  rewrite r5b_unfold; cbn [out_kept out_dropped out_notes]. rewrite omap_app, omap_filter_None.
  apply collapsed_keys_NoDup.
Qed.

Lemma r5b_notes r :
  r ∈ out_notes (r5b fm l) →
  re_rule r = CommonSourceCollapsed ∧ re_missing_evidence_ids r = [] ∧
  (∀ x, x ∈ re_link_ids r → ∃ a, a ∈ l ∧ x = cand_id a.1) ∧
  (∀ x, x ∈ re_evidence_ids r → ∃ a, a ∈ l ∧ x = link_evidence_id (cand_link a.1)).
Proof. rewrite r5b_unfold. apply collapsed_notes. Qed.
End r5b.
