(* ===== verification/FusionSpec.v ===== *)
(** * What fusion guarantees

    The pipeline of [Fusion.fuse] as a composition of total stages, and the
    properties of the finding it returns: the verdict as a function of the
    votes that survive ([surviving], stated on the input, without the
    pipeline), the accounting of every link, the independence of the counted
    votes, the audit trail, the uncertainty band and replay determinism. *)

From S2P Require Import Prelude.
From S2P Require Import Types.
From S2P Require Import Graph.
From S2P Require Import UnionFind.
From S2P Require Import Independence.
From S2P Require Import Families.
From S2P Require Import Fusion.
From S2P Require Import FusionLemmas.

Local Open Scope fornax_scope.

Section pipeline.
Context `{Chrono} (input : FusionInput).

Definition sorted_links : list EvidenceLink := sort_by_key link_id (links (fi_graph input)).
Definition sorted_missing : list MissingEvidence :=
  sort_by_key missing_id (missing (fi_graph input)).
Definition evidence_by_id : gmap Uuid Evidence := index_by_id (fi_evidence input).

Definition stage1 : Out Candidate := loop (r1_r2_step evidence_by_id) sorted_links.
Definition stage3 : Out Candidate := r3_out evidence_by_id (out_kept stage1).
Definition stage4 : Out Candidate := loop (r4_step (fi_claim input)) (out_kept stage3).
Definition stage5 : Out (Candidate * bool) := r5 (out_kept stage4).
Definition stage5b (fm : SourceFamilyMap) : Out (Candidate * bool) :=
  r5b fm (out_kept stage5).
Definition counted (fm : SourceFamilyMap) : list Candidate := (out_kept (stage5b fm)).*1.

Definition notes_to_r5 : list RationaleEntry :=
  out_notes stage1 ++ out_notes stage3 ++ out_notes stage4 ++ out_notes stage5.
Definition dropped_to_r5 : list Uuid :=
  out_dropped stage1 ++ out_dropped stage3 ++ out_dropped stage4 ++ out_dropped stage5.
Definition final_notes (fm : SourceFamilyMap) : list RationaleEntry :=
  out_notes (loop final_step (out_kept (stage5b fm))).
Definition all_notes (fm : SourceFamilyMap) : list RationaleEntry :=
  notes_to_r5 ++ out_notes (stage5b fm) ++ final_notes fm.
Definition all_dropped (fm : SourceFamilyMap) : list Uuid :=
  dropped_to_r5 ++ out_dropped (stage5b fm).

Lemma final_kept l : out_kept (loop final_step l) = l.*1.
Proof.
  induction l as [|[c b] l IH]; [done|].
  change (c :: out_kept (loop final_step l) = c :: l.*1). by rewrite IH.
Qed.

(** Fusion always returns a finding: the decided one, or the fail-safe one
    when the family construction exceeds its budget. *)
Lemma fuse_cases computed_at :
  (∃ fm, try_build (fi_evidence input) default_budget = Some (Ok fm) ∧
     fuse input computed_at =
       Some (decided_finding (fi_claim input) sorted_links sorted_missing (counted fm)
               (all_notes fm) (all_dropped fm) computed_at))
  ∨ (∃ b, try_build (fi_evidence input) default_budget = Some (Err b) ∧
     fuse input computed_at =
       Some (budget_exceeded_finding (fi_claim input) sorted_missing notes_to_r5
               dropped_to_r5 b computed_at)).
Proof.
  assert (fuse_to_r5 (fi_claim input) sorted_links evidence_by_id
    = Some (mkOut (out_kept stage5) notes_to_r5 dropped_to_r5)) as Hto5.
  { unfold fuse_to_r5. by rewrite r3_total. }
  unfold fuse. fold sorted_links sorted_missing evidence_by_id. rewrite Hto5.
  destruct (build_total (fi_evidence input)) as [m Hm].
  destruct (try_build_refines (fi_evidence input) default_budget m Hm) as [-> | ->].
  - left. exists m. split; [done|]. cbn [out_kept out_notes out_dropped].
    fold (stage5b m). by rewrite final_kept.
  - right. eexists. done.
Qed.

Lemma fuse_total computed_at : ∃ ff, fuse input computed_at = Some ff.
Proof. destruct (fuse_cases computed_at) as [(fm & _ & ->)|(b & _ & ->)]; eauto. Qed.

(** ** Survivors *)

(** A vote that no rule removes for a reason of its own: it resolves, it is
    not neutral, its evidence does not derive from that of another voting
    link, and it is not stale support. *)
Definition surviving (c : Candidate) : Prop :=
  is_candidate evidence_by_id (links (fi_graph input)) c ∧
  (∀ c', is_candidate evidence_by_id (links (fi_graph input)) c' →
     ¬ (link_evidence_id (cand_link c') ≠ link_evidence_id (cand_link c) ∧
        tc (derives evidence_by_id) (link_evidence_id (cand_link c))
           (link_evidence_id (cand_link c')))) ∧
  ¬ stale_support (fi_claim input) c.

Lemma elem_of_sorted_links l : l ∈ sorted_links ↔ l ∈ links (fi_graph input).
Proof. apply elem_of_sort_by_key. Qed.

Lemma stage1_kept c :
  c ∈ out_kept stage1 ↔ is_candidate evidence_by_id (links (fi_graph input)) c.
Proof. unfold stage1. rewrite r1_r2_kept. unfold is_candidate. by rewrite elem_of_sorted_links. Qed.

(** A candidate's evidence is the one its link names. *)
Lemma is_candidate_evidence_id ls c :
  is_candidate evidence_by_id ls c →
  ev_id (cand_evidence c) = link_evidence_id (cand_link c).
Proof. intros (_ & Hc & _). by apply collect_by_Some in Hc as [_ ?]. Qed.

Lemma stage4_kept c : c ∈ out_kept stage4 ↔ surviving c.
Proof.
  unfold stage4, stage3. rewrite r4_kept, r3_kept, stage1_kept. unfold surviving.
  split.
  - intros [[Hc Hd] Hs]. split; [done|]. split; [|done].
    intros c' Hc' Ha. apply Hd. exists c'. rewrite stage1_kept.
    split; [done|]. apply elem_of_ancestry. by rewrite (is_candidate_evidence_id _ _ Hc).
  - intros (Hc & Hd & Hs). split; [|done]. split; [done|].
    intros (c' & Hc' & Ha). rewrite stage1_kept in Hc'. apply (Hd c' Hc').
    apply elem_of_ancestry in Ha. by rewrite (is_candidate_evidence_id _ _ Hc) in Ha.
Qed.

Lemma counted_surviving fm c : c ∈ counted fm → surviving c.
Proof.
  intros (p & -> & Hp%r5b_kept)%list_elem_of_fmap. destruct p as [c b].
  apply r5_kept in Hp as [Hc _]. by apply stage4_kept.
Qed.

(** The collapses never silence a side. *)
Lemma surviving_represented fm c :
  surviving c →
  ∃ c', c' ∈ counted fm ∧ link_relation (cand_link c') = link_relation (cand_link c).
Proof.
  intros (p & Hp & Hr)%stage4_kept%r5_represented.
  destruct (r5b_represented fm _ p Hp) as (p' & Hp' & Hr').
  exists p'.1. split; [by apply list_elem_of_fmap_2|congruence].
Qed.

Lemma votes_pos fm r :
  0 < votes r (counted fm) ↔ ∃ c, surviving c ∧ link_relation (cand_link c) = r.
Proof.
  unfold votes. split.
  - intros Hpos. destruct (filter _ _) as [|c cs] eqn:E; simpl in Hpos; [lia|].
    assert (c ∈ filter (λ c, link_relation (cand_link c) = r) (counted fm)) as Hc
      by (rewrite E; left).
    apply list_elem_of_filter in Hc as [Hr Hc]. exists c. split; [|done].
    by apply counted_surviving in Hc.
  - intros (c & Hs & Hr). destruct (surviving_represented fm c Hs) as (c' & Hc' & Hr').
    assert (c' ∈ filter (λ c, link_relation (cand_link c) = r) (counted fm)) as Hin
      by (apply list_elem_of_filter; split; [congruence|done]).
    destruct (filter _ _); [by apply elem_of_nil in Hin|simpl; lia].
Qed.

(** ** Accounting *)

Lemma stage5_conserves :
  (cand_id ∘ fst <$> out_kept stage5) ++ dropped_to_r5
    ++ (link_id <$> neutral_links evidence_by_id (links (fi_graph input)))
  ≡ₚ link_id <$> links (fi_graph input).
Proof.
  assert (neutral_links evidence_by_id sorted_links
    ≡ₚ neutral_links evidence_by_id (links (fi_graph input))) as Hn.
  { unfold neutral_links, sorted_links. by rewrite sort_by_key_Permutation. }
  pose proof (r1_r2_conserves evidence_by_id sorted_links) as H1.
  pose proof (r3_conserves evidence_by_id (out_kept stage1)) as H3.
  pose proof (r4_conserves (fi_claim input) (out_kept stage3)) as H4.
  pose proof (r5_conserves (out_kept stage4)) as H5. unfold conserves in *.
  fold stage1 in H1. fold stage3 in H3. fold stage4 in H4. fold stage5 in H5.
  rewrite Hn in H1. unfold sorted_links in H1. rewrite (sort_by_key_Permutation link_id) in H1.
  rewrite <- H1, <- H3, <- H4, <- H5. unfold dropped_to_r5. solve_Permutation.
Qed.

Lemma pipeline_conserves fm :
  (cand_id <$> counted fm) ++ all_dropped fm
    ++ (link_id <$> neutral_links evidence_by_id (links (fi_graph input)))
  ≡ₚ link_id <$> links (fi_graph input).
Proof.
  rewrite <- stage5_conserves. pose proof (r5b_conserves fm (out_kept stage5)) as H5b.
  unfold conserves in H5b. fold (stage5b fm) in H5b. rewrite <- H5b.
  unfold counted, all_dropped. rewrite <- list_fmap_compose. solve_Permutation.
Qed.

(** A counted link, by its id, is a kept pair of the last collapse. *)
Lemma counted_link fm l :
  NoDup (link_id <$> links (fi_graph input)) → l ∈ links (fi_graph input) →
  link_id l ∈ sort_ids (cand_id <$> counted fm) →
  ∃ p, p ∈ out_kept (stage5b fm) ∧ cand_link p.1 = l.
Proof.
  intros Hnd Hl. unfold sort_ids. rewrite elem_of_sort_by_key.
  intros (c & Hid & Hc)%list_elem_of_fmap.
  destruct (counted_surviving fm c Hc) as ((Hcl & _) & _).
  apply list_elem_of_fmap in Hc as (p & -> & Hp). exists p. split; [done|].
  symmetry. by apply (NoDup_fmap_elem link_id (links (fi_graph input))).
Qed.

(** ** The audit trail *)

(** Every id an entry names exists in the input. *)
Definition traceable (r : RationaleEntry) : Prop :=
  (∀ x, x ∈ re_link_ids r → x ∈ link_id <$> links (fi_graph input)) ∧
  (∀ x, x ∈ re_missing_evidence_ids r → x ∈ missing_id <$> missing (fi_graph input)) ∧
  (∀ x, x ∈ re_evidence_ids r → x ∈ ev_id <$> fi_evidence input).

Lemma candidate_traceable c :
  is_candidate evidence_by_id (links (fi_graph input)) c →
  cand_id c ∈ link_id <$> links (fi_graph input) ∧
  link_evidence_id (cand_link c) ∈ ev_id <$> fi_evidence input.
Proof.
  intros (Hl & He & _). split; [by apply (list_elem_of_fmap_2 link_id)|].
  apply collect_by_Some in He as [He <-]. by apply list_elem_of_fmap_2.
Qed.

(** An entry that names only links and evidence of candidates. *)
Lemma traceable_candidates r (cs : list Candidate) :
  (∀ c, c ∈ cs → is_candidate evidence_by_id (links (fi_graph input)) c) →
  re_missing_evidence_ids r = [] →
  (∀ x, x ∈ re_link_ids r → ∃ c, c ∈ cs ∧ x = cand_id c) →
  (∀ x, x ∈ re_evidence_ids r → ∃ c, c ∈ cs ∧ x = link_evidence_id (cand_link c)) →
  traceable r.
Proof.
  intros Hcs Hm Hl He. split; [|split].
  - intros x (c & Hc & ->)%Hl. by apply (candidate_traceable c (Hcs c Hc)).
  - rewrite Hm. by intros x []%elem_of_nil.
  - intros x (c & Hc & ->)%He. by apply (candidate_traceable c (Hcs c Hc)).
Qed.

Lemma traceable_one r c :
  is_candidate evidence_by_id (links (fi_graph input)) c →
  re_missing_evidence_ids r = [] → re_link_ids r = [cand_id c] →
  re_evidence_ids r = [link_evidence_id (cand_link c)] → traceable r.
Proof.
  intros Hc Hm Hl He. apply (traceable_candidates r [c]); [|done|..].
  - by intros c' ->%list_elem_of_singleton.
  - rewrite Hl. intros x ->%list_elem_of_singleton. exists c. split; [left|done].
  - rewrite He. intros x ->%list_elem_of_singleton. exists c. split; [left|done].
Qed.

Lemma stage1_traceable r : r ∈ out_notes stage1 → traceable r.
Proof.
  intros (l & Hl%elem_of_sorted_links & Hr)%elem_of_loop_notes.
  pose proof (list_elem_of_fmap_2 link_id _ _ Hl) as Hid.
  unfold r1_r2_step in Hr. destruct (evidence_by_id !! _) as [ev|] eqn:E; simpl in Hr.
  - case_decide; simpl in Hr; [|by apply elem_of_nil in Hr].
    apply list_elem_of_singleton in Hr as ->. split; [|split]; simpl.
    + by intros x ->%list_elem_of_singleton.
    + by intros x []%elem_of_nil.
    + intros x ->%list_elem_of_singleton. apply collect_by_Some in E as [He <-].
      by apply list_elem_of_fmap_2.
  - apply list_elem_of_singleton in Hr as ->. split; [|split]; simpl.
    + by intros x ->%list_elem_of_singleton.
    + by intros x []%elem_of_nil.
    + by intros x []%elem_of_nil.
Qed.

Lemma stage3_traceable r : r ∈ out_notes stage3 → traceable r.
Proof.
  intros (c & Hc & Hr)%elem_of_loop_notes.
  destruct (r3_step_cases evidence_by_id (out_kept stage1) c)
    as [(Heq & _)|[(r' & Heq & _ & Hl & Hm & He & _)|(r' & Heq & _ & _ & Hl & Hm & He & _)]];
    rewrite Heq in Hr; simpl in Hr; [by apply elem_of_nil in Hr|..];
    apply list_elem_of_singleton in Hr as ->.
  - apply (traceable_one _ c); [by apply stage1_kept|done..].
  - apply (traceable_candidates _ (out_kept stage1)); [|done|..].
    + intros c' Hc'. by apply stage1_kept.
    + rewrite Hl. intros x ->%list_elem_of_singleton. eauto.
    + intros x [->|(c' & ? & ->)]%He; eauto.
Qed.

Lemma stage3_kept c :
  c ∈ out_kept stage3 → is_candidate evidence_by_id (links (fi_graph input)) c.
Proof. intros [Hc _]%r3_kept. by apply stage1_kept. Qed.

Lemma stage4_traceable r : r ∈ out_notes stage4 → traceable r.
Proof.
  intros (c & Hc%stage3_kept & Hr)%elem_of_loop_notes.
  destruct (r4_step_cases (fi_claim input) c)
    as [(Heq & _)|[(r' & Heq & _ & Hl & Hm & He & _)|(r' & Heq & _ & Hl & Hm & He & _)]];
    rewrite Heq in Hr; simpl in Hr; [by apply elem_of_nil in Hr|..];
    apply list_elem_of_singleton in Hr as ->; by apply (traceable_one _ c).
Qed.

Lemma stage4_candidate c :
  c ∈ out_kept stage4 → is_candidate evidence_by_id (links (fi_graph input)) c.
Proof. by intros [? _]%stage4_kept. Qed.

Lemma stage5_candidate p :
  p ∈ out_kept stage5 → is_candidate evidence_by_id (links (fi_graph input)) p.1.
Proof. destruct p. intros [? _]%r5_kept. by apply stage4_candidate. Qed.

Lemma notes_to_r5_traceable r : r ∈ notes_to_r5 → traceable r.
Proof.
  unfold notes_to_r5. rewrite !elem_of_app. intros [Hr|[Hr|[Hr|Hr]]].
  - by apply stage1_traceable.
  - by apply stage3_traceable.
  - by apply stage4_traceable.
  - apply r5_notes in Hr as (_ & Hm & Hl & He).
    apply (traceable_candidates r (out_kept stage4)); [apply stage4_candidate|done..].
Qed.

Lemma all_notes_traceable fm r : r ∈ all_notes fm → traceable r.
Proof.
  unfold all_notes. rewrite !elem_of_app. intros [Hr|[Hr|Hr]].
  - by apply notes_to_r5_traceable.
  - apply r5b_notes in Hr as (_ & Hm & Hl & He).
    apply (traceable_candidates r (out_kept stage5).*1); [|done|..].
    + intros c (p & -> & Hp)%list_elem_of_fmap. by apply stage5_candidate.
    + intros x (p & Hp & ->)%Hl. exists p.1. split; [by apply list_elem_of_fmap_2|done].
    + intros x (p & Hp & ->)%He. exists p.1. split; [by apply list_elem_of_fmap_2|done].
  - apply elem_of_loop_notes in Hr as ([c b] & Hp%r5b_kept & Hr). simpl in Hr.
    destruct b; [by apply elem_of_nil in Hr|].
    apply list_elem_of_singleton in Hr as ->.
    by apply (traceable_one _ c); [apply (stage5_candidate (c, false))|..].
Qed.

Lemma decision_traceable s c ids :
  (∀ x, x ∈ ids → x ∈ link_id <$> links (fi_graph input)) →
  traceable (r6 s c sorted_links sorted_missing ids).2.
Proof.
  intros Hids.
  assert (∀ x, x ∈ link_id <$> sorted_links → x ∈ link_id <$> links (fi_graph input)) as Hl.
  { intros x. unfold sorted_links. by rewrite sort_by_key_fmap_perm. }
  assert (∀ x, x ∈ missing_id <$> sorted_missing → x ∈ missing_id <$> missing (fi_graph input))
    as Hm.
  { intros x. unfold sorted_missing. by rewrite sort_by_key_fmap_perm. }
  assert (∀ x, x ∈ missing_id <$> filter (λ m, is_concerning_availability (availability m))
    sorted_missing → x ∈ missing_id <$> missing (fi_graph input)) as Hc.
  { intros x (m & -> & [_ Hin]%list_elem_of_filter)%list_elem_of_fmap.
    by apply Hm, list_elem_of_fmap_2. }
  assert (∀ rule d ls ms, (∀ x, x ∈ ls → x ∈ link_id <$> links (fi_graph input)) →
    (∀ x, x ∈ ms → x ∈ missing_id <$> missing (fi_graph input)) →
    traceable (mkRationaleEntry rule Decided ls ms [] d)) as Hentry.
  { intros rule d ls ms Hls Hms. split; [done|]. split; [done|]. by intros x []%elem_of_nil. }
  assert (∀ P : N → Prop, ∀ x, x ∈ ([] : list N) → P x) as Hnil by by intros P x []%elem_of_nil.
  unfold r6. repeat case_bool_decide; [by apply Hentry; [|apply Hnil]..|].
  destruct (missing_id <$> filter _ _) as [|y ys]; [|by apply Hentry; [apply Hnil|]].
  destruct sorted_missing as [|m ms]; [|by apply Hentry; [apply Hnil|]].
  destruct sorted_links as [|l ls]; apply Hentry; try apply Hnil; done.
Qed.

(** Every dropped link is explained by a note. *)
Lemma dropped_to_r5_explained x :
  x ∈ dropped_to_r5 →
  ∃ r, r ∈ notes_to_r5 ∧ re_effect r = Discounted ∧ x ∈ re_link_ids r.
Proof.
  assert (explained stage1) as H1.
  { apply loop_explained. intros l _ y. unfold r1_r2_step.
    destruct (evidence_by_id !! _); [case_decide|]; simpl; [by intros []%elem_of_nil..|].
    intros ->%list_elem_of_singleton. eexists. split; [left|]. split; [done|left]. }
  unfold dropped_to_r5, notes_to_r5. rewrite !elem_of_app.
  intros [(r & ? & ?)%H1|[(r & ? & ?)%r3_explained|
    [(r & ? & ?)%r4_explained|(r & ? & ?)%r5_explained]]];
    exists r; (split; [|done]); rewrite !elem_of_app; auto.
Qed.

Lemma all_dropped_explained fm x :
  x ∈ all_dropped fm →
  ∃ r, r ∈ all_notes fm ∧ re_effect r = Discounted ∧ x ∈ re_link_ids r.
Proof.
  unfold all_dropped. rewrite elem_of_app.
  intros [(r & ? & ?)%dropped_to_r5_explained|(r & ? & ?)%r5b_explained];
    exists r; (split; [|done]); unfold all_notes; rewrite !elem_of_app; auto.
Qed.
End pipeline.

(** What is known of a finding once fusion returned it. *)
Record decided `{Chrono} (input : FusionInput) (fm : SourceFamilyMap) (ff : FusedFinding)
    (s c : nat) (decision : Verdict * RationaleEntry) : Prop := {
  decided_s : s = votes Supports (counted input fm);
  decided_c : c = votes Contradicts (counted input fm);
  decided_by : decision = r6 s c (sorted_links input) (sorted_missing input)
                            (counted_link_ids ff);
  decided_counted : counted_link_ids ff = sort_ids (cand_id <$> counted input fm);
  decided_discounted : discounted_link_ids ff = sort_ids (all_dropped input fm);
  decided_verdict : ff_verdict ff = decision.1;
  decided_rationale : ff_rationale ff = all_notes input fm ++ [decision.2];
  decided_conflict : unresolved_conflict ff = bool_decide (0 < s ∧ 0 < c);
  decided_band : ff_uncertainty ff =
    band s c (ff_rationale ff) (discounted_link_ids ff) (sorted_missing input);
}.

Lemma fuse_inv `{Chrono} input computed_at ff :
  fuse input computed_at = Some ff →
  (∃ fm s c d, try_build (fi_evidence input) default_budget = Some (Ok fm)
     ∧ decided input fm ff s c d)
  ∨ (∃ b, try_build (fi_evidence input) default_budget = Some (Err b)
     ∧ ff = budget_exceeded_finding (fi_claim input) (sorted_missing input)
              (notes_to_r5 input) (dropped_to_r5 input) b computed_at).
Proof.
  destruct (fuse_cases input computed_at) as [(fm & Hb & ->)|(b & Hb & ->)]; intros [= <-].
  - left. exists fm, (votes Supports (counted input fm)), (votes Contradicts (counted input fm)).
    unfold decided_finding. change (link_id ∘ cand_link) with cand_id.
    destruct (r6 _ _ _ _ _) as [v e] eqn:E. exists (v, e). by split.
  - right. eauto.
Qed.

Lemma try_build_Ok evidence budget m :
  try_build evidence budget = Some (Ok m) → build evidence = Some m.
Proof.
  intros Hb. destruct (build_total evidence) as [m' Hm].
  destruct (try_build_refines evidence budget m' Hm) as [Hb'|Hb']; rewrite Hb' in Hb;
    by simplify_eq.
Qed.

Lemma sort_ids_nil ids : sort_ids ids = [] → ids = [].
Proof.
  intros Hs. apply Permutation_nil_r. rewrite <- Hs. unfold sort_ids.
  by rewrite sort_by_key_Permutation.
Qed.

Lemma two_members {A} (l : list A) x y :
  x ∈ l → y ∈ l → x ≠ y → ∃ a b rest, l = a :: b :: rest.
Proof.
  destruct l as [|a [|b rest]]; [by intros []%elem_of_nil| |by eauto].
  intros ->%list_elem_of_singleton ->%list_elem_of_singleton. done.
Qed.

(** ** The decision *)

Lemma r6_verdict s c ls ms ids :
  (r6 s c ls ms ids).1 =
    if bool_decide (0 < s) then if bool_decide (0 < c) then Review else Verified
    else if bool_decide (0 < c) then Contradicted
    else if existsb (λ m, is_concerning_availability (availability m)) ms
    then Unavailable else Unverified.
Proof.
  assert (existsb (λ m, is_concerning_availability (availability m)) ms =
    bool_decide (missing_id <$> filter (λ m, is_concerning_availability (availability m)) ms ≠ []))
    as ->.
  { clear. induction ms as [|m ms IH]; [done|]. simpl. rewrite filter_cons.
    destruct (is_concerning_availability (availability m)) eqn:E; simpl; [done|].
    by rewrite IH. }
  unfold r6. repeat case_bool_decide; try lia; try done.
  all: destruct (missing_id <$> _); [|done]; try done; by destruct ms, ls.
Qed.

Lemma existsb_concerning ms :
  existsb (λ m, is_concerning_availability (availability m)) ms = true ↔
    ∃ m, m ∈ ms ∧ is_concerning_availability (availability m) = true.
Proof. rewrite existsb_exists. by setoid_rewrite list_elem_of_In. Qed.

Section properties.
Context `{Chrono}.
Implicit Types (input : FusionInput).

(** Some surviving vote has the given relation. *)
Definition has_vote input (r : EvidenceRelation) : Prop :=
  ∃ c, surviving input c ∧ link_relation (cand_link c) = r.

(** The verdict the surviving votes give. *)
Definition verdict_table input (ff : FusedFinding) : Prop :=
  (ff_verdict ff = Review ↔ has_vote input Supports ∧ has_vote input Contradicts) ∧
  (ff_verdict ff = Contradicted ↔ has_vote input Contradicts ∧ ¬ has_vote input Supports) ∧
  (ff_verdict ff = Verified ↔ has_vote input Supports ∧ ¬ has_vote input Contradicts) ∧
  (ff_verdict ff = Unavailable ↔
     ¬ has_vote input Supports ∧ ¬ has_vote input Contradicts ∧
     ∃ m, m ∈ missing (fi_graph input) ∧ is_concerning_availability (availability m) = true) ∧
  (unresolved_conflict ff = true ↔ has_vote input Supports ∧ has_vote input Contradicts).

(** A vote with nothing to qualify it: its record states a correlation group,
    derives from no other record of the pool, and is fresh or not time
    sensitive. *)
Definition clean input (c : Candidate) : Prop :=
  is_Some (group_of (cand_evidence c)) ∧
  (∀ y, tc (derives (evidence_by_id input)) (ev_id (cand_evidence c)) y →
        y = ev_id (cand_evidence c)) ∧
  (staleness_of_default (cand_evidence c) (fi_claim input) = NotTimeSensitive ∨
   ∃ age, staleness_of_default (cand_evidence c) (fi_claim input) = Fresh age).

(** The uncertainty band the surviving votes give; [Qualified] is what is left
    when none of these applies. *)
Definition band_table input (ff : FusedFinding) : Prop :=
  (ff_uncertainty ff = Conflicted ↔ has_vote input Supports ∧ has_vote input Contradicts) ∧
  (ff_uncertainty ff = Undetermined ↔ ¬ has_vote input Supports ∧ ¬ has_vote input Contradicts) ∧
  (ff_uncertainty ff = Corroborated ↔
     (has_vote input Supports ∧ ¬ has_vote input Contradicts ∨
      has_vote input Contradicts ∧ ¬ has_vote input Supports) ∧
     discounted_link_ids ff = [] ∧ missing (fi_graph input) = [] ∧
     ∀ c, is_candidate (evidence_by_id input) (links (fi_graph input)) c → clean input c).

Lemma ancestry_empty input c :
  ancestry_of (evidence_by_id input) c = ∅ ↔
  ∀ y, tc (derives (evidence_by_id input)) (ev_id (cand_evidence c)) y →
       y = ev_id (cand_evidence c).
Proof.
  split.
  - intros He y Hy. destruct (decide (y = ev_id (cand_evidence c))) as [|Hne]; [done|].
    assert (y ∈ ancestry_of (evidence_by_id input) c) as Hin by by apply elem_of_ancestry.
    rewrite He in Hin. by apply elem_of_empty in Hin.
  - intros Hall. apply elem_of_equiv_empty_L. intros y [Hne Hy]%elem_of_ancestry.
    by apply Hne, Hall.
Qed.

(** With nothing dropped, every vote goes through every stage. *)
Lemma undropped_candidate input fm c :
  all_dropped input fm = [] →
  is_candidate (evidence_by_id input) (links (fi_graph input)) c →
  c ∈ out_kept (stage1 input) ∧ c ∈ out_kept (stage3 input) ∧ c ∈ out_kept (stage4 input) ∧
  (c, bool_decide (is_Some (group_of (cand_evidence c)))) ∈ out_kept (stage5b input fm).
Proof.
  unfold all_dropped, dropped_to_r5. 
  intros [[Hd1 [Hd3 [Hd4 Hd5]%app_nil]%app_nil]%app_nil Hd5b]%app_nil Hc.
  apply stage1_kept in Hc. split; [done|].
  assert (c ∈ out_kept (stage3 input)) as H3.
  { apply r3_kept. split; [done|]. intros Hder.
    destruct (r3_step_cases (evidence_by_id input) (out_kept (stage1 input)) c)
      as [(_ & ? & _)|[(r & _ & _ & _ & _ & _ & ?)|(r & Hs & _)]]; [done..|].
    apply (not_elem_of_nil (cand_id c)). rewrite <- Hd3. apply elem_of_loop_dropped.
    exists c. split; [done|]. rewrite Hs. left. }
  split; [done|].
  assert (c ∈ out_kept (stage4 input)) as H4.
  { apply r4_kept. split; [done|]. intros Hst.
    destruct (r4_step_cases (fi_claim input) c)
      as [(_ & ? & _)|[(r & _ & _ & _ & _ & _ & ?)|(r & Hs & _)]]; [done..|].
    apply (not_elem_of_nil (cand_id c)). rewrite <- Hd4. apply elem_of_loop_dropped.
    exists c. split; [done|]. rewrite Hs. left. }
  split; [done|]. by apply r5b_all_kept, r5_all_kept.
Qed.

(** Then no caveat qualifies the finding exactly when every vote is clean. *)
Lemma caveats_clean input fm :
  all_dropped input fm = [] →
  (∀ r, r ∈ all_notes input fm → is_banding_caveat r = false) ↔
  ∀ c, is_candidate (evidence_by_id input) (links (fi_graph input)) c → clean input c.
Proof.
  intros Hd. unfold all_notes, notes_to_r5. split.
  - intros Hcav c Hc. destruct (undropped_candidate input fm c Hd Hc) as (H1 & H3 & H4 & H5).
    setoid_rewrite elem_of_app in Hcav. split_and!.
    + destruct (bool_decide _) eqn:E in H5; [by apply bool_decide_eq_true in E|]. exfalso.
      enough (true = false) by done.
      apply (Hcav (mkRationaleEntry IndependenceUnverified Caveat [cand_id c] []
        [link_evidence_id (cand_link c)] (DUnverifiedIndependence (cand_id c)))).
      right. apply elem_of_app. right. apply elem_of_loop_notes. exists (c, false).
      split; [done|]. left.
    + apply ancestry_empty.
      destruct (r3_step_cases (evidence_by_id input) (out_kept (stage1 input)) c)
        as [(_ & _ & ?)|[(r & Hs & Hrule & _)|(r & _ & _ & _ & _ & _ & _ & Hder)]]; [done| |].
      * exfalso. assert (is_banding_caveat r = false) as Hb;
          [|by unfold is_banding_caveat in Hb; rewrite Hrule in Hb].
        apply Hcav. left. rewrite !elem_of_app. right; left. apply elem_of_loop_notes.
        exists c. split; [done|]. rewrite Hs. left.
      * by apply r3_kept in H3 as [_ []].
    + destruct (r4_step_cases (fi_claim input) c)
        as [(_ & _ & ?)|[(r & Hs & Hb & _)|(r & _ & _ & _ & _ & _ & Hst)]]; [done| |].
      * exfalso. assert (is_banding_caveat r = false); [|congruence].
        apply Hcav. left. rewrite !elem_of_app. right; right; left. apply elem_of_loop_notes.
        exists c. split; [done|]. rewrite Hs. left.
      * by apply r4_kept in H4 as [_ []].
  - intros Hcl r. rewrite !elem_of_app. intros [[Hr|[Hr|[Hr|Hr]]]|[Hr|Hr]].
    + apply elem_of_loop_notes in Hr as (l & _ & Hr). unfold r1_r2_step in Hr.
      destruct (_ !! _); [case_decide|]; simpl in Hr; try by apply elem_of_nil in Hr.
      all: by apply list_elem_of_singleton in Hr as ->.
    + apply elem_of_loop_notes in Hr as (c & Hc & Hr).
      destruct (Hcl c) as (_ & Hanc%ancestry_empty & _); [by apply stage1_kept|].
      unfold r3_step in Hr. rewrite decide_True in Hr by done. by apply elem_of_nil in Hr.
    + apply elem_of_loop_notes in Hr as (c & Hc & Hr).
      destruct (Hcl c) as (_ & _ & Hst); [by apply stage3_kept|].
      unfold r4_step in Hr. destruct Hst as [E|[age E]]; rewrite E in Hr; by apply elem_of_nil in Hr.
    + apply r5_notes in Hr as [Hrule _]. unfold is_banding_caveat. by rewrite Hrule.
    + apply r5b_notes in Hr as [Hrule _]. unfold is_banding_caveat. by rewrite Hrule.
    + apply elem_of_loop_notes in Hr as ([c b] & Hp%r5b_kept & Hr).
      destruct (Hcl c) as [Hg _]; [by apply (stage5_candidate input (c, b))|].
      apply r5_kept in Hp as [_ ->]. simpl in Hr. rewrite bool_decide_true in Hr by done.
      by apply elem_of_nil in Hr.
Qed.

Lemma decision_no_caveat s c ls ms ids : is_banding_caveat (r6 s c ls ms ids).2 = false.
Proof.
  unfold r6. repeat case_bool_decide; try done.
  destruct (missing_id <$> _); [|done]. by destruct ms, ls.
Qed.

Lemma band_spec s c notes dropped ms :
  (band s c notes dropped ms = Conflicted ↔ 0 < s ∧ 0 < c) ∧
  (band s c notes dropped ms = Undetermined ↔ ¬ 0 < s ∧ ¬ 0 < c) ∧
  (band s c notes dropped ms = Corroborated ↔
     (0 < s ∧ ¬ 0 < c ∨ 0 < c ∧ ¬ 0 < s) ∧ dropped = [] ∧ ms = [] ∧
     ∀ r, r ∈ notes → is_banding_caveat r = false).
Proof.
  assert (existsb is_banding_caveat notes = false ↔
    ∀ r, r ∈ notes → is_banding_caveat r = false) as <-.
  { rewrite <- not_true_iff_false, existsb_exists. setoid_rewrite <- list_elem_of_In.
    setoid_rewrite <- not_true_iff_false. naive_solver. }
  unfold band. case_bool_decide; [intuition (done || lia)|].
  case_bool_decide; [intuition (done || lia)|].
  destruct (existsb is_banding_caveat notes), dropped, ms; simpl; intuition (done || lia).
Qed.

(** The outcome of a construction of the source families that succeeds, and
    of one that exceeds its budget. *)
Lemma fuse_outcome input computed_at :
  ∃ ff, fuse input computed_at = Some ff ∧
    match try_build (fi_evidence input) default_budget with
    | Some (Ok _) => verdict_table input ff ∧ band_table input ff
    | Some (Err _) =>
        ff_verdict ff = Review ∧ ff_uncertainty ff = Undetermined ∧
        counted_link_ids ff = [] ∧ unresolved_conflict ff = false
    | None => False
    end.
Proof.
  destruct (fuse_total input computed_at) as [ff Hff]. exists ff. split; [done|].
  destruct (fuse_inv input computed_at ff Hff)
    as [(fm & s & c & d & -> & Hd)|(b & -> & ->)]; [|done].
  pose proof (votes_pos input fm Supports) as HS.
  pose proof (votes_pos input fm Contradicts) as HC.
  fold (has_vote input Supports) in HS. fold (has_vote input Contradicts) in HC.
  destruct Hd as [Hs Hc Hby _ Hdisc Hv Hrat Hcf Hbd]. rewrite <- Hs in HS. rewrite <- Hc in HC.
  split.
  - unfold verdict_table. rewrite Hv, Hcf, Hby, r6_verdict, bool_decide_eq_true.
    pose proof (existsb_concerning (sorted_missing input)) as Hm.
    unfold sorted_missing in Hm at 2. setoid_rewrite elem_of_sort_by_key in Hm.
    rewrite <- HS, <- HC, <- Hm. clear HS HC Hm.
    repeat case_bool_decide; destruct (existsb _ _); intuition (congruence || lia).
  - unfold band_table. rewrite Hbd, <- HS, <- HC.
    destruct (band_spec s c (ff_rationale ff) (discounted_link_ids ff) (sorted_missing input))
      as (HB1 & HB2 & HB3). split; [done|]. split; [done|]. rewrite HB3.
    assert (sorted_missing input = [] ↔ missing (fi_graph input) = []) as Hm.
    { unfold sorted_missing. split; intros Hm; [|by rewrite Hm].
      apply Permutation_nil_r. by rewrite <- Hm, sort_by_key_Permutation. }
    rewrite Hm. apply and_iff_compat_l.
    split; intros (Hdr & Hmi & Hr); (split_and!; [done..|]);
      rewrite Hdisc in Hdr; apply sort_ids_nil in Hdr.
    + apply (caveats_clean input fm Hdr). intros r Hin. apply Hr. rewrite Hrat.
      apply elem_of_app. by left.
    + intros r. rewrite Hrat, elem_of_app, list_elem_of_singleton.
      intros [Hin| ->]; [by apply (proj2 (caveats_clean input fm Hdr))|].
      rewrite Hby. apply decision_no_caveat.
Qed.


(** A neutral link is named by a caveat of its own. *)
Lemma neutral_noted input l :
  l ∈ neutral_links (evidence_by_id input) (links (fi_graph input)) →
  ∃ r, r ∈ notes_to_r5 input ∧ re_rule r = NeutralNotCounted ∧ re_effect r = Caveat ∧
       re_link_ids r = [link_id l].
Proof.
  intros [[[e He] Hn] Hl]%list_elem_of_filter.
  eexists (mkRationaleEntry NeutralNotCounted Caveat [link_id l] [] [link_evidence_id l] _).
  split; [|done]. unfold notes_to_r5. apply elem_of_app. left. apply elem_of_loop_notes.
  exists l. split; [by apply elem_of_sorted_links|]. unfold r1_r2_step.
  rewrite He, decide_True by done. left.
Qed.

(** C2. Every link of the graph is accounted for exactly once: it is counted,
    or discounted and named by a rationale entry that discounts it, or a
    neutral link whose evidence resolves and that a caveat of its own names,
    or, only when the source families exceed their budget, a surviving vote
    left undecided; in that case nothing is counted. *)
Theorem fuse_accounts_for_every_link input (computed_at : string) :
  ∃ ff undecided, fuse input computed_at = Some ff ∧
    counted_link_ids ff ++ discounted_link_ids ff
      ++ (link_id <$> neutral_links (evidence_by_id input) (links (fi_graph input)))
      ++ undecided
    ≡ₚ link_id <$> links (fi_graph input) ∧
    (∀ x, x ∈ discounted_link_ids ff →
       ∃ r, r ∈ ff_rationale ff ∧ re_effect r = Discounted ∧ x ∈ re_link_ids r) ∧
    (∀ l, l ∈ neutral_links (evidence_by_id input) (links (fi_graph input)) →
       ∃ r, r ∈ ff_rationale ff ∧ re_rule r = NeutralNotCounted ∧ re_effect r = Caveat ∧
            re_link_ids r = [link_id l]) ∧
    match try_build (fi_evidence input) default_budget with
    | Some (Ok _) => undecided = []
    | Some (Err _) =>
        counted_link_ids ff = [] ∧
        ∀ x, x ∈ undecided → ∃ c, surviving input c ∧ cand_id c = x
    | None => False
    end.
Proof.
  destruct (fuse_total input computed_at) as [ff Hff]. exists ff.
  destruct (fuse_inv input computed_at ff Hff)
    as [(fm & s & c & d & -> & [_ _ _ -> -> _ -> _ _])|(b & -> & ->)]; simpl.
  - exists []. rewrite app_nil_r. unfold sort_ids. split_and!; [done|..|done].
    + rewrite !sort_by_key_Permutation. apply pipeline_conserves.
    + intros x. rewrite elem_of_sort_by_key.
      intros (r & Hr & ?)%all_dropped_explained. exists r. split; [|done].
      apply elem_of_app. by left.
    + intros l (r & Hr & ?)%neutral_noted. exists r. split; [|done].
      unfold all_notes. rewrite !elem_of_app. by left; left.
  - exists (cand_id ∘ fst <$> out_kept (stage5 input)). split_and!; [done|..|done|].
    + rewrite <- stage5_conserves. solve_Permutation.
    + intros x (r & Hr & ?)%dropped_to_r5_explained. exists r. split; [|done].
      apply elem_of_app. by left.
    + intros l (r & Hr & ?)%neutral_noted. exists r. split; [|done].
      apply elem_of_app. by left.
    + intros x ([c b'] & -> & Hp)%list_elem_of_fmap. exists c. split; [|done].
      apply r5_kept in Hp as [Hc _]. by apply stage4_kept.
Qed.

(** ** Independence of the counted votes *)

Section independent.
Context (input : FusionInput) (fm : SourceFamilyMap).
Context (Hnd : NoDup (ev_id <$> fi_evidence input)).
Context (Hbuild : build (fi_evidence input) = Some fm).

Lemma candidate_record c :
  is_candidate (evidence_by_id input) (links (fi_graph input)) c →
  cand_evidence c ∈ fi_evidence input ∧
  ev_id (cand_evidence c) = link_evidence_id (cand_link c).
Proof using. intros (_ & He & _). by apply collect_by_Some in He. Qed.

(** Records of one source have one family. *)
Lemma one_source_family e1 e2 :
  e1 ∈ fi_evidence input → e2 ∈ fi_evidence input →
  one_source (fi_evidence input) e1 e2 ↔
  ∃ f, family_of fm (ev_id e1) = Some f ∧ family_of fm (ev_id e2) = Some f.
Proof using Hnd Hbuild.
  intros H1 H2. rewrite <- family_iff_one_source by done. split.
  - intros (f & Hf & Hin). exists f. split; [done|]. by apply (family_of_agree (fi_evidence input) fm e1).
  - intros (f & Hf1 & Hf2). exists f. split; [done|].
    by destruct (family_of_member _ fm Hbuild _ f Hf2).
Qed.

(** Two kept pairs of one relation that rest on one source rest on one record,
    which names no group and has a family of its own. *)
Lemma counted_pair_sources p1 p2 :
  p1 ∈ out_kept (stage5b input fm) → p2 ∈ out_kept (stage5b input fm) → p1 ≠ p2 →
  link_relation (cand_link p1.1) = link_relation (cand_link p2.1) →
  one_source (fi_evidence input) (cand_evidence p1.1) (cand_evidence p2.1) →
  cand_evidence p1.1 = cand_evidence p2.1 ∧ group_of (cand_evidence p1.1) = None ∧
  ∀ e, e ∈ fi_evidence input → one_source (fi_evidence input) (cand_evidence p1.1) e →
       e = cand_evidence p1.1.
Proof using Hnd Hbuild.
  intros Hp1 Hp2 Hne Hr Hone.
  pose proof (stage5_candidate _ _ (r5b_kept _ _ _ Hp1)) as Hc1.
  pose proof (stage5_candidate _ _ (r5b_kept _ _ _ Hp2)) as Hc2.
  destruct (candidate_record _ Hc1) as [He1 Hid1], (candidate_record _ Hc2) as [He2 Hid2].
  pose proof Hone as (f & Hf1 & Hf2)%one_source_family; [|done..].
  destruct (family_of_member _ fm Hbuild _ f Hf1) as [_ Hin1].
  assert (∀ x, x ∈ evidence_ids f → x = ev_id (cand_evidence p1.1)) as Hsolo.
  { intros x Hx. destruct (decide (x = ev_id (cand_evidence p1.1))) as [|Hxne]; [done|].
    destruct (two_members _ _ _ Hx Hin1 Hxne) as (k & y & rest & Hids). exfalso. apply Hne.
    eapply (NoDup_omap_elem (r5b_key fm)); [apply r5b_keys_NoDup|exact Hp1|exact Hp2|..].
    - unfold r5b_key. by rewrite <- Hid1, Hf1, Hids.
    - unfold r5b_key. by rewrite <- Hid2, Hf2, Hids, Hr. }
  destruct (family_of_member _ fm Hbuild _ f Hf2) as [_ Hin2%Hsolo].
  assert (cand_evidence p1.1 = cand_evidence p2.1) as Heq
    by by apply (NoDup_fmap_elem ev_id (fi_evidence input)).
  split; [done|]. split.
  - destruct (group_of (cand_evidence p1.1)) as [g|] eqn:Hg; [|done]. exfalso. apply Hne.
    eapply (NoDup_omap_elem (r5_key ∘ fst));
      [apply r5_keys_NoDup|exact (r5b_kept _ _ _ Hp1)|exact (r5b_kept _ _ _ Hp2)|..].
    + unfold r5_key; simpl. by rewrite Hg.
    + unfold r5_key; simpl. by rewrite <- Heq, Hg, Hr.
  - intros e He (f' & Hf1' & Hf2')%one_source_family; [|done..].
    rewrite Hf1 in Hf1'. injection Hf1' as <-.
    destruct (family_of_member _ fm Hbuild _ f Hf2') as [_ Hin%Hsolo].
    by apply (NoDup_fmap_elem ev_id (fi_evidence input)).
Qed.

(** Every surviving vote is counted through one of its relation and source. *)
Lemma surviving_source c :
  surviving input c →
  ∃ p, p ∈ out_kept (stage5b input fm) ∧
    link_relation (cand_link p.1) = link_relation (cand_link c) ∧
    one_source (fi_evidence input) (cand_evidence c) (cand_evidence p.1).
Proof using Hnd Hbuild.
  intros Hs. pose proof Hs as [Hc _]. destruct (candidate_record _ Hc) as [He Hid].
  destruct (r5_represented_by _ _ (proj2 (stage4_kept input c) Hs)) as (p & Hp & Hcp).
  pose proof (stage5_candidate _ _ Hp) as Hpc. destruct (candidate_record _ Hpc) as [Hpe Hpid].
  assert (link_relation (cand_link p.1) = link_relation (cand_link c) ∧
    one_source (fi_evidence input) (cand_evidence c) (cand_evidence p.1)) as [Hrel Hone].
  { destruct Hcp as [->|[[k Hk] Hkp]]; [split; [done|by left]|]. rewrite Hk in Hkp.
    destruct (r5_key_relation _ _ _ Hk Hkp) as (Hrel & g & Hg1 & Hg2). split; [done|]. right.
    split; [by apply rtsc_lr, fe_group with g|].
    unfold group_of in Hg1, Hg2.
    by destruct (ev_source (cand_evidence c)), (ev_source (cand_evidence p.1)). }
  destruct (r5b_represented_by fm _ p Hp) as (q & Hq & [->|[[k Hk] Hkq]]); [by exists p|].
  rewrite Hk in Hkq. destruct (r5b_key_relation fm _ _ _ Hk Hkq)
    as (Hrel' & f & f' & Hf & Hf' & Hh & Hh').
  pose proof (stage5_candidate _ _ (r5b_kept _ _ _ Hq)) as Hqc.
  destruct (candidate_record _ Hqc) as [Hqe Hqid].
  exists q. split; [done|]. split; [congruence|].
  rewrite <- Hpid in Hf. rewrite <- Hqid in Hf'.
  assert (f = f') as <-.
  { apply (family_of_meet _ fm _ _ _ _ k.2 Hnd Hbuild Hpe Hqe Hf Hf');
      by apply head_Some_elem_of. }
  apply one_source_family in Hone as (f1 & Hf1 & Hf2); [|done..].
  apply one_source_family; [done..|]. exists f. by simplify_eq.
Qed.
End independent.

(** A link that is counted, with its record. *)
Definition is_counted input (ff : FusedFinding) (c : Candidate) : Prop :=
  is_candidate (evidence_by_id input) (links (fi_graph input)) c ∧
  cand_id c ∈ counted_link_ids ff.

Lemma is_counted_pair input fm ff c :
  NoDup (link_id <$> links (fi_graph input)) →
  counted_link_ids ff = sort_ids (cand_id <$> counted input fm) →
  is_counted input ff c → ∃ b, (c, b) ∈ out_kept (stage5b input fm).
Proof.
  intros Hndl Hids [(Hl & He & _) Hin]. rewrite Hids in Hin.
  destruct (counted_link input fm (cand_link c) Hndl Hl Hin) as ([[l e] b] & Hp & Heq).
  simpl in Heq. subst l. exists b.
  pose proof (stage5_candidate _ _ (r5b_kept _ _ _ Hp)) as (_ & He' & _). simpl in He'.
  rewrite He in He'. injection He' as <-. by destruct c.
Qed.

(** C3. With distinct record and link ids, the counted votes are one per
    relation and source: two counted links of one relation do not rest on one
    source, except that several links to the same record are all counted when
    that record names no correlation group and shares its source with no other
    record; no counted link rests on a record that derives from the record of
    another voting link; and if the source families are built within budget,
    every surviving vote has a counted one of its relation and source. *)
Theorem counted_votes_are_independent input (computed_at : string) ff :
  NoDup (ev_id <$> fi_evidence input) → NoDup (link_id <$> links (fi_graph input)) →
  fuse input computed_at = Some ff →
  (∀ c1 c2, is_counted input ff c1 → is_counted input ff c2 → c1 ≠ c2 →
     link_relation (cand_link c1) = link_relation (cand_link c2) →
     one_source (fi_evidence input) (cand_evidence c1) (cand_evidence c2) →
     cand_evidence c1 = cand_evidence c2 ∧ group_of (cand_evidence c1) = None ∧
     ∀ e, e ∈ fi_evidence input → one_source (fi_evidence input) (cand_evidence c1) e →
          e = cand_evidence c1) ∧
  (∀ c c', is_counted input ff c →
     is_candidate (evidence_by_id input) (links (fi_graph input)) c' →
     link_evidence_id (cand_link c') ≠ link_evidence_id (cand_link c) →
     ¬ tc (derives (evidence_by_id input)) (link_evidence_id (cand_link c))
          (link_evidence_id (cand_link c'))) ∧
  (∀ fm c, try_build (fi_evidence input) default_budget = Some (Ok fm) → surviving input c →
     ∃ c', is_counted input ff c' ∧
       link_relation (cand_link c') = link_relation (cand_link c) ∧
       one_source (fi_evidence input) (cand_evidence c) (cand_evidence c')).
Proof.
  intros Hnd Hndl Hf.
  destruct (fuse_inv input computed_at ff Hf)
    as [(fm & s & c & d & Hb & [_ _ _ Hids _ _ _ _ _])|(b & Hb & ->)].
  2: { split_and!; [by intros c1 c2 [_ []%elem_of_nil]|by intros c c' [_ []%elem_of_nil]|].
       intros fm c Hb'. congruence. }
  pose proof (try_build_Ok _ _ _ Hb) as Hbuild. split_and!.
  - intros c1 c2 (b1 & H1)%(is_counted_pair _ fm) (b2 & H2)%(is_counted_pair _ fm) Hne; [|done..].
    apply (counted_pair_sources input fm Hnd Hbuild (c1, b1) (c2, b2) H1 H2). by intros [= ?].
  - intros c0 c' (b0 & H0)%(is_counted_pair _ fm) Hc' Hne Htc; [|done..].
    destruct (counted_surviving input fm c0) as (_ & Hd & _).
    { by apply (list_elem_of_fmap_2 fst _ (c0, b0)). }
    by apply (Hd c' Hc').
  - intros fm' c0 Hb' Hs. assert (fm' = fm) as -> by congruence.
    destruct (surviving_source input fm Hnd Hbuild c0 Hs) as (p & Hp & Hr & Ho).
    exists p.1. split; [|done]. split; [by apply stage5_candidate, (r5b_kept fm)|].
    rewrite Hids. unfold sort_ids. rewrite elem_of_sort_by_key.
    apply (list_elem_of_fmap_2 cand_id). by apply list_elem_of_fmap_2.
Qed.

(** The audit trail is complete and names nothing that is not there: every
    link, missing-evidence and evidence id of every rationale entry exists in
    the fusion input, and every discounted link is named by an entry whose
    effect is [Discounted]. *)
Theorem fuse_trail input (computed_at : string) ff :
  fuse input computed_at = Some ff →
  (∀ r, r ∈ ff_rationale ff → traceable input r) ∧
  (∀ x, x ∈ discounted_link_ids ff →
     ∃ r, r ∈ ff_rationale ff ∧ re_effect r = Discounted ∧ x ∈ re_link_ids r).
Proof.
  intros [(fm & s & c & d & _ & Hd)|(b & _ & ->)]%fuse_inv.
  - destruct Hd as [_ _ Hby Hc -> _ -> _ _]. split.
    + intros r. rewrite elem_of_app, list_elem_of_singleton.
      intros [Hr| ->]; [by apply (all_notes_traceable input fm)|].
      rewrite Hby. apply decision_traceable. rewrite Hc. unfold sort_ids.
      intros x. rewrite elem_of_sort_by_key. rewrite <- (pipeline_conserves input fm).
      rewrite elem_of_app. by left.
    + intros x. unfold sort_ids. rewrite elem_of_sort_by_key.
      intros (r & ? & ?)%all_dropped_explained. exists r. split; [|done].
      apply elem_of_app. by left.
  - simpl. split.
    + intros r. rewrite elem_of_app, list_elem_of_singleton.
      intros [Hr| ->]; [by apply notes_to_r5_traceable|].
      split; [|split]; simpl; by intros x []%elem_of_nil.
    + intros x (r & ? & ?)%dropped_to_r5_explained. exists r. split; [|done].
      apply elem_of_app. by left.
Qed.

Lemma band_corroborated s c notes dropped ms :
  band s c notes dropped ms = Corroborated →
  ((0 < s ∧ c = 0) ∨ (s = 0 ∧ 0 < c)) ∧ dropped = [] ∧ ms = [] ∧
  ∀ r, r ∈ notes → is_banding_caveat r = false.
Proof.
  intros Hb. destruct (band_spec s c notes dropped ms) as (_ & _ & Hspec).
  apply Hspec in Hb as (Hsc & ?). split; [lia|done].
Qed.

(** With nothing dropped and no caveat, a non-neutral link went through every
    stage. *)
Lemma clean_link input fm l :
  all_dropped input fm = [] →
  (∀ r, r ∈ all_notes input fm → is_banding_caveat r = false) →
  l ∈ links (fi_graph input) → link_relation l ≠ Neutral →
  ∃ e, (mkCandidate l e, true) ∈ out_kept (stage5b input fm) ∧ clean input (mkCandidate l e).
Proof.
  intros Hdrop Hcav Hl Hr.
  destruct (evidence_by_id input !! link_evidence_id l) as [e|] eqn:He.
  - assert (is_candidate (evidence_by_id input) (links (fi_graph input)) (mkCandidate l e)) as Hc
      by done.
    exists e. pose proof (proj1 (caveats_clean input fm Hdrop) Hcav _ Hc) as Hcl. split; [|done].
    destruct (undropped_candidate input fm _ Hdrop Hc) as (_ & _ & _ & Hk).
    by rewrite bool_decide_true in Hk by apply Hcl.
  - exfalso. apply (not_elem_of_nil (link_id l)). rewrite <- Hdrop.
    unfold all_dropped, dropped_to_r5. rewrite !elem_of_app. left; left.
    apply elem_of_loop_dropped. exists l. split; [by apply elem_of_sorted_links|].
    unfold r1_r2_step. rewrite He. left.
Qed.

(** What one voting link of a corroborated finding is known to rest on. *)
Definition rests_on_clean_evidence input (ff : FusedFinding) (l : EvidenceLink) : Prop :=
  link_id l ∈ counted_link_ids ff ∧
  ∃ e, evidence_by_id input !! link_evidence_id l = Some e ∧ clean input (mkCandidate l e).

Section corroborated.
Context (input : FusionInput) (computed_at : string) (ff : FusedFinding).
Context (Hf : fuse input computed_at = Some ff) (Hband : ff_uncertainty ff = Corroborated).

Lemma corroborated_run :
  ∃ fm, try_build (fi_evidence input) default_budget = Some (Ok fm) ∧
    counted_link_ids ff = sort_ids (cand_id <$> counted input fm) ∧
    (ff_verdict ff = Verified ∨ ff_verdict ff = Contradicted) ∧
    missing (fi_graph input) = [] ∧
    ∀ l, l ∈ links (fi_graph input) → link_relation l ≠ Neutral →
      ∃ e, (mkCandidate l e, true) ∈ out_kept (stage5b input fm) ∧
           clean input (mkCandidate l e).
Proof using Hf Hband.
  destruct (fuse_inv input computed_at ff Hf) as [(fm & s & c & d & Hb & Hd)|(b & _ & Hb)];
    [|by rewrite Hb in Hband].
  exists fm. split; [done|].
  destruct Hd as [_ _ Hby Hids Hdisc Hv Hrat _ Hbd]. rewrite Hbd in Hband.
  apply band_corroborated in Hband as (Hsc & Hdrop & Hmiss & Hcav).
  rewrite Hdisc in Hdrop. apply sort_ids_nil in Hdrop. split; [done|]. split; [|split].
  - rewrite Hv, Hby, r6_verdict. repeat case_bool_decide; auto; lia.
  - apply Permutation_nil_r. rewrite <- Hmiss. unfold sorted_missing.
    by rewrite sort_by_key_Permutation.
  - intros l. apply clean_link; [done..|].
    intros r Hr. apply Hcav. rewrite Hrat. apply elem_of_app. by left.
Qed.

Lemma kept_with_group fm l e :
  (mkCandidate l e, true) ∈ out_kept (stage5b input fm) →
  evidence_by_id input !! link_evidence_id l = Some e ∧ is_Some (group_of e).
Proof using.
  intros Hp%r5b_kept. split; [by apply stage5_candidate in Hp as (_ & ? & _)|].
  apply r5_kept in Hp as [_ Hg]. symmetry in Hg. by apply bool_decide_eq_true in Hg.
Qed.

Lemma corroborated_links l :
  l ∈ links (fi_graph input) → link_relation l ≠ Neutral →
  rests_on_clean_evidence input ff l ∧ has_vote input (link_relation l).
Proof using Hf Hband.
  destruct corroborated_run as (fm & _ & Hids & _ & _ & Hclean). intros Hl Hr.
  destruct (Hclean l Hl Hr) as (e & Hp & Hcl).
  pose proof (list_elem_of_fmap_2 fst _ _ Hp : mkCandidate l e ∈ counted input fm) as Hc.
  split; [|exists (mkCandidate l e); split; [by apply (counted_surviving input fm)|done]].
  split.
  - rewrite Hids. unfold sort_ids. rewrite elem_of_sort_by_key.
    by apply (list_elem_of_fmap_2 cand_id _ (mkCandidate l e)).
  - exists e. split; [|done]. by destruct (kept_with_group fm l e Hp).
Qed.

Lemma corroborated_groups l1 l2 e1 e2 :
  l1 ∈ links (fi_graph input) → l2 ∈ links (fi_graph input) → l1 ≠ l2 →
  link_relation l1 = link_relation l2 → link_relation l1 ≠ Neutral →
  evidence_by_id input !! link_evidence_id l1 = Some e1 →
  evidence_by_id input !! link_evidence_id l2 = Some e2 →
  group_of e1 ≠ group_of e2.
Proof using Hf Hband.
  destruct corroborated_run as (fm & _ & _ & _ & _ & Hclean).
  intros Hl1 Hl2 Hne Hr12 Hr He1 He2 Hg12.
  destruct (Hclean l1 Hl1 Hr) as (e1' & Hp1 & _).
  destruct (Hclean l2 Hl2) as (e2' & Hp2 & _); [congruence|].
  destruct (kept_with_group _ _ _ Hp1) as [He1' [g Hg]], (kept_with_group _ _ _ Hp2) as [He2' _].
  simplify_eq. apply Hne. apply r5b_kept in Hp1, Hp2.
  assert ((mkCandidate l1 e1, true) = (mkCandidate l2 e2, true)) as [= -> _]; [|done].
  apply (NoDup_omap_elem (r5_key ∘ fst) (out_kept (stage5 input)) _ _
    (relation_key (link_relation l1), g)); [apply r5_keys_NoDup|done|done|..];
    unfold r5_key; simpl.
  - by rewrite Hg.
  - by rewrite <- Hg12, Hg, Hr12.
Qed.
End corroborated.

(** What [Corroborated] certifies: the verdict is [Verified] or
    [Contradicted], no expected signal is missing, and every link that votes
    is counted, rests on a resolved record that is fresh or not time
    sensitive, derives from no other record and states its correlation group,
    with no two of them in the same group. *)
Theorem corroborated_certifies input (computed_at : string) ff :
  fuse input computed_at = Some ff → ff_uncertainty ff = Corroborated →
  (ff_verdict ff = Verified ∨ ff_verdict ff = Contradicted) ∧
  missing (fi_graph input) = [] ∧
  (∀ l, l ∈ links (fi_graph input) → link_relation l ≠ Neutral →
     rests_on_clean_evidence input ff l) ∧
  (∀ l1 l2 e1 e2,
     l1 ∈ links (fi_graph input) → l2 ∈ links (fi_graph input) → l1 ≠ l2 →
     link_relation l1 = link_relation l2 → link_relation l1 ≠ Neutral →
     evidence_by_id input !! link_evidence_id l1 = Some e1 →
     evidence_by_id input !! link_evidence_id l2 = Some e2 →
     group_of e1 ≠ group_of e2).
Proof.
  intros Hf Hband.
  destruct (corroborated_run input computed_at ff Hf Hband) as (_ & _ & _ & Hv & Hm & _).
  do 2 (split; [done|]). split; [|by eapply corroborated_groups].
  intros l Hl Hr. by apply (corroborated_links input computed_at).
Qed.

(** Which uncertainty band goes with which verdict: a one-sided verdict is
    corroborated or qualified, an absent one undetermined, and [Review] comes
    either from a conflict of counted votes or from an exceeded budget, in
    which case it is undetermined and reports no conflict. *)
Theorem verdict_band_table input (computed_at : string) ff :
  fuse input computed_at = Some ff →
  match ff_verdict ff with
  | Verified | Contradicted =>
      (ff_uncertainty ff = Corroborated ∨ ff_uncertainty ff = Qualified)
      ∧ unresolved_conflict ff = false
  | Unverified | Unavailable =>
      ff_uncertainty ff = Undetermined ∧ unresolved_conflict ff = false
  | Review =>
      (ff_uncertainty ff = Conflicted ∧ unresolved_conflict ff = true)
      ∨ (ff_uncertainty ff = Undetermined ∧ unresolved_conflict ff = false ∧
         ∃ b, try_build (fi_evidence input) default_budget = Some (Err b))
  end.
Proof.
  intros [(fm & s & c & d & _ & [_ _ -> _ _ -> _ -> ->])|(b & Hb & ->)]%fuse_inv;
    [|right; simpl; eauto].
  rewrite r6_verdict. unfold band.
  repeat case_bool_decide; try lia; try by auto.
  all: try (destruct (existsb _ (sorted_missing input)); by auto).
  all: rewrite ?orb_true_r, ?orb_false_r; auto.
  all: destruct (existsb _ _); auto.
Qed.

(** Replay is deterministic: the finding does not depend on the order in
    which links, missing-evidence notes and evidence records are supplied, as
    long as ids identify them. *)
Theorem fuse_order_independent input1 input2 (computed_at : string) :
  fi_claim input1 = fi_claim input2 →
  links (fi_graph input1) ≡ₚ links (fi_graph input2) →
  missing (fi_graph input1) ≡ₚ missing (fi_graph input2) →
  fi_evidence input1 ≡ₚ fi_evidence input2 →
  NoDup (link_id <$> links (fi_graph input1)) →
  NoDup (missing_id <$> missing (fi_graph input1)) →
  NoDup (ev_id <$> fi_evidence input1) →
  fuse input1 computed_at = fuse input2 computed_at.
Proof.
  intros Hc Hl Hm He Hndl Hndm Hnde. unfold fuse.
  rewrite Hc, (sort_by_key_perm link_id _ _ Hndl Hl), (sort_by_key_perm missing_id _ _ Hndm Hm).
  unfold index_by_id. rewrite (collect_by_perm ev_id _ _ Hnde He).
  by rewrite (try_build_perm _ _ Hnde He).
Qed.
End properties.

(** ** Witnesses *)

(** A clock that reads three timestamps. *)
#[local] Instance sample_chrono : Chrono := {
  parse_from_rfc3339 s :=
    if decide (s = "2026-01-01T00:00:00Z") then Some 0%Z
    else if decide (s = "2026-01-01T00:30:00Z") then Some (1800 * nanos_per_second)%Z
    else if decide (s = "2026-01-01T02:00:00Z") then Some (7200 * nanos_per_second)%Z
    else None;
  num_seconds d := Z.quot d nanos_per_second;
}.
#[local] Instance sample_chrono_ok : ChronoOk.
Proof. done. Qed.

Definition sample_claim : Claim := mkClaim 9 "s" 1 "tests pass" "tests" "2026-01-01T02:00:00Z".
Definition sample_link (x evidence : Uuid) (r : EvidenceRelation) : EvidenceLink :=
  mkEvidenceLink x "s" 9 evidence r "2026-01-01T02:00:00Z".
Definition sample_record (x : Uuid) (kind : EvidenceKind) (observed : string)
    (group : option Uuid) (parents : list Uuid) : Evidence :=
  mkEvidence x "s" (100 + x) kind observed JNull ""
    (Some (sample_source HostObserved group parents)) None false.
Definition fused (input : FusionInput) : FusedFinding :=
  match fuse input "now" with
  | Some ff => ff
  | None => budget_exceeded_finding (fi_claim input) [] [] [] (mkBudgetExceeded 0 0 0) "now"
  end.

(** Two independent supports, each with its own group. *)
Definition clean_input : FusionInput :=
  mkFusionInput sample_claim
    (mkEvidenceGraph [sample_link 2 12 Supports; sample_link 1 11 Supports] [])
    [ sample_record 11 ToolResult "2026-01-01T00:00:00Z" (Some 7%N) [];
      sample_record 12 FileDiff "2026-01-01T00:30:00Z" (Some 8%N) [] ].

(** A stale support, a stale contradiction, a neutral link, a link to nothing,
    and a support derived from another voting record. *)
Definition mixed_input : FusionInput :=
  mkFusionInput sample_claim
    (mkEvidenceGraph
       [ sample_link 1 11 Supports; sample_link 2 12 Contradicts; sample_link 3 13 Neutral;
         sample_link 4 99 Supports; sample_link 5 15 Supports; sample_link 6 13 Supports ] [])
    [ sample_record 11 ExitCode "2026-01-01T00:00:00Z" None [];
      sample_record 12 ExitCode "2026-01-01T00:30:00Z" None [];
      sample_record 13 FileDiff "2026-01-01T00:30:00Z" None [];
      sample_record 14 FileDiff "2026-01-01T00:30:00Z" None [13%N];
      sample_record 15 FileDiff "2026-01-01T00:30:00Z" None [14%N] ].

Definition families_of (input : FusionInput) : SourceFamilyMap :=
  match try_build (fi_evidence input) default_budget with
  | Some (Ok fm) => fm
  | _ => mkSourceFamilyMap [] ∅
  end.

(** What becomes of the links of the mixed input: two are counted, three
    discounted, one is neutral. *)
Example mixed_input_links :
  counted_link_ids (fused mixed_input) = [2; 6]%N ∧
  discounted_link_ids (fused mixed_input) = [1; 4; 5]%N ∧
  link_id <$> neutral_links (evidence_by_id mixed_input) (links (fi_graph mixed_input)) = [3%N].
Proof. vm_compute. done. Qed.

Lemma counted_votes_are_independent_witness :
  ¬ one_source (fi_evidence clean_input)
      (sample_record 11 ToolResult "2026-01-01T00:00:00Z" (Some 7%N) [])
      (sample_record 12 FileDiff "2026-01-01T00:30:00Z" (Some 8%N) []).
Proof.
  destruct (counted_votes_are_independent clean_input "now" (fused clean_input)) as [Hone _].
  - apply (bool_decide_unpack _). vm_compute. done.
  - apply (bool_decide_unpack _). vm_compute. done.
  - vm_compute. done.
  - intros Hsrc. destruct (Hone
      (mkCandidate (sample_link 1 11 Supports)
         (sample_record 11 ToolResult "2026-01-01T00:00:00Z" (Some 7%N) []))
      (mkCandidate (sample_link 2 12 Supports)
         (sample_record 12 FileDiff "2026-01-01T00:30:00Z" (Some 8%N) []))) as [? _]; try done.
    + split; [split; [right; left|done]|]. apply (bool_decide_unpack _). vm_compute. done.
    + split; [split; [left|done]|]. apply (bool_decide_unpack _). vm_compute. done.
Defined.

Lemma fuse_trail_witness :
  discounted_link_ids (fused mixed_input) ≠ [] ∧
  (∀ x, x ∈ discounted_link_ids (fused mixed_input) →
    ∃ r, r ∈ ff_rationale (fused mixed_input) ∧ re_effect r = Discounted ∧ x ∈ re_link_ids r).
Proof.
  split; [vm_compute; discriminate|].
  apply (fuse_trail mixed_input "now" (fused mixed_input)). vm_compute. done.
Defined.

Lemma corroborated_certifies_witness :
  ff_uncertainty (fused clean_input) = Corroborated ∧ missing (fi_graph clean_input) = [].
Proof.
  split; [vm_compute; done|].
  apply (corroborated_certifies clean_input "now" (fused clean_input)).
  - vm_compute. done.
  - vm_compute. done.
Defined.

Definition shuffled_input : FusionInput :=
  mkFusionInput sample_claim
    (mkEvidenceGraph (rev (links (fi_graph mixed_input))) []) (rev (fi_evidence mixed_input)).

Lemma verdict_band_table_witness :
  ff_uncertainty (fused mixed_input) = Conflicted ∧ unresolved_conflict (fused mixed_input) = true.
Proof.
  assert (fuse mixed_input "now" = Some (fused mixed_input)) as Hf by (vm_compute; done).
  pose proof (verdict_band_table mixed_input "now" (fused mixed_input) Hf) as Ht.
  assert (ff_verdict (fused mixed_input) = Review) as Hv by (vm_compute; done).
  rewrite Hv in Ht. destruct Ht as [Ht|(_ & Hc & _)]; [done|].
  exfalso. vm_compute in Hc. done.
Defined.

Lemma fuse_order_independent_witness :
  fuse mixed_input "now" = fuse shuffled_input "now".
Proof.
  apply fuse_order_independent; [done| |done| |..].
  - apply Permutation_rev.
  - apply Permutation_rev.
  - apply (bool_decide_unpack _). vm_compute. done.
  - constructor.
  - apply (bool_decide_unpack _). vm_compute. done.
Defined.

(** ** Recorded divergences *)

(** Two links of one relation to the same record share its source family, yet
    both are counted when that family has no other member: R5b only collapses
    families of two or more records. The decision then reports two distinct
    supporting votes for one piece of evidence. *)
Example duplicate_links_count_twice :
  let ff := fused (mkFusionInput sample_claim
    (mkEvidenceGraph [sample_link 1 11 Supports; sample_link 2 11 Supports] [])
    [sample_record 11 ToolResult "2026-01-01T00:00:00Z" None []]) in
  counted_link_ids ff = [1; 2]%N ∧ re_detail <$> last (ff_rationale ff) = Some (DSupporting 2).
Proof. vm_compute. done. Qed.

(** R3 discounts a link as derived from a counted one although that one is not
    counted: here the parent is demoted as stale, the child is dropped because
    of the parent, and a claim with live supporting evidence is left
    [Unverified]. *)
Example derived_from_uncounted_parent :
  let ff := fused (mkFusionInput sample_claim
    (mkEvidenceGraph [sample_link 1 11 Supports; sample_link 2 12 Supports] [])
    [ sample_record 11 ExitCode "2026-01-01T00:00:00Z" None [];
      sample_record 12 FileDiff "2026-01-01T00:30:00Z" None [11%N] ]) in
  ff_verdict ff = Unverified ∧ counted_link_ids ff = [] ∧ discounted_link_ids ff = [1; 2]%N.
Proof. vm_compute. done. Qed.

(** R3 does not look at relations either: a contradicting record that derives
    from a supporting one is discounted with it, and the claim is
    [Verified]. *)
Example contradiction_derived_from_support :
  let ff := fused (mkFusionInput sample_claim
    (mkEvidenceGraph [sample_link 1 11 Supports; sample_link 2 12 Contradicts] [])
    [ sample_record 11 ToolResult "2026-01-01T00:00:00Z" None [];
      sample_record 12 ToolResult "2026-01-01T00:30:00Z" None [11%N] ]) in
  ff_verdict ff = Verified ∧ discounted_link_ids ff = [2%N].
Proof. vm_compute. done. Qed.
