(* ===== verification/Projection.v ===== *)
(** * Projection of verifier findings

    [project_graph] of [crates/fornax-verify/src/fusion.rs]: the in-memory
    evidence graph built from the findings of a claim. The [uuid] crate is not
    part of the repository: the rendering of an id and the name-based id
    constructor [Uuid::new_v5] are parameters. *)

From S2P Require Import Prelude.
From S2P Require Import Types.
From S2P Require Import Graph.
From S2P Require Import UnionFind.
From S2P Require Import Independence.
From S2P Require Import Families.
From S2P Require Import Fusion.
From S2P Require Import FusionLemmas.
From S2P Require Import FusionSpec.

Local Open Scope fornax_scope.

Class UuidOps := {
  uuid_to_string : Uuid → string;
  new_v5 : Uuid → string → Uuid;
}.

(** The derived [Debug] of [SignalClass]. Only the named classes are
    projected, so the escapes [Debug] applies to an unrecognized tag are not
    modelled. *)
Definition signal_class_debug (c : SignalClass) : string :=
  match c with
  | ToolInvocation => "ToolInvocation"
  | ToolTrace => "ToolTrace"
  | ToolResultPayload => "ToolResultPayload"
  | ProcessResult => "ProcessResult"
  | SessionLifecycle => "SessionLifecycle"
  | SubagentLifecycle => "SubagentLifecycle"
  | FinalResponse => "FinalResponse"
  | ReasoningSummary => "ReasoningSummary"
  | RawReasoning => "RawReasoning"
  | TokenLogprobs => "TokenLogprobs"
  | InternalModelSignals => "InternalModelSignals"
  | ClassUnrecognized tag => "Unrecognized(" +:+ String (Ascii.ascii_of_nat 34) tag +:+ String (Ascii.ascii_of_nat 34) ")"
  end.

Definition expected_signal_classes_for_verifier (verifier_name : string) : list SignalClass :=
  if decide (verifier_name = "file_modified_verifier_v1"
             ∨ verifier_name = "git_operation_verifier_v1")
  then [ToolTrace; ToolResultPayload]
  else [ToolTrace; FinalResponse].

Definition PROJECTION_NAMESPACE : Uuid := 0x8f1a4b932c6e4d719a0e531caf2b77d4.

Section projection.
Context `{UuidOps}.

Definition projected_id (finding_id : Uuid) (tag : string) : Uuid :=
  new_v5 PROJECTION_NAMESPACE (uuid_to_string finding_id +:+ ":" +:+ tag).

(** The links one finding projects to, for a verdict mapped to [r]. *)
Definition project_links (claim : Claim) (f : Finding) (tag : string)
    (r : EvidenceRelation) : list EvidenceLink :=
  (λ eid, mkEvidenceLink (projected_id (finding_id f) (tag +:+ uuid_to_string eid))
            (claim_session_id claim) (claim_id claim) eid r (finding_computed_at f))
    <$> finding_evidence_ids f.

Definition project_missing (claim : Claim) (f : Finding) : list MissingEvidence :=
  (λ class, mkMissingEvidence
              (projected_id (finding_id f) ("missing:" +:+ signal_class_debug class))
              (claim_session_id claim) (claim_id claim) class SigUnavailable
              (Some (finding_rationale f)) (finding_computed_at f))
    <$> expected_signal_classes_for_verifier (verifier_name f).

(** The match on the verdict of one finding. *)
Definition project_finding (claim : Claim) (f : Finding) :
    list EvidenceLink * list MissingEvidence :=
  match finding_verdict f with
  | Verified => (project_links claim f "supports:" Supports, [])
  | Contradicted => (project_links claim f "contradicts:" Contradicts, [])
  | Review => (project_links claim f "neutral:" Neutral, [])
  | Unverified => ([], [])
  | Unavailable => ([], project_missing claim f)
  end.

Definition project_graph (claim : Claim) (findings : list Finding) : EvidenceGraph :=
  let own := filter (λ f, finding_claim_id f = claim_id claim) findings in
  mkEvidenceGraph (own ≫= fst ∘ project_finding claim) (own ≫= snd ∘ project_finding claim).

(** The verdict whose findings project to links of a relation. *)
Definition projected_verdict (r : EvidenceRelation) : Verdict :=
  match r with Supports => Verified | Contradicts => Contradicted | Neutral => Review end.

Lemma project_links_spec claim findings l :
  l ∈ links (project_graph claim findings) →
  ∃ f, f ∈ findings ∧ finding_claim_id f = claim_id claim ∧
       finding_verdict f = projected_verdict (link_relation l) ∧
       link_evidence_id l ∈ finding_evidence_ids f ∧ link_claim_id l = claim_id claim.
Proof.
  simpl. intros (f & Hl & [Hid Hf]%list_elem_of_filter)%list_elem_of_bind. exists f.
  do 2 (split; [done|]). unfold project_finding in Hl; simpl in Hl.
  destruct (finding_verdict f); simpl in Hl; try by apply elem_of_nil in Hl.
  all: apply list_elem_of_fmap in Hl as (eid & -> & Heid); done.
Qed.

Lemma project_missing_spec claim findings m :
  m ∈ missing (project_graph claim findings) →
  ∃ f, f ∈ findings ∧ finding_claim_id f = claim_id claim ∧ finding_verdict f = Unavailable.
Proof.
  simpl. intros (f & Hm & [Hid Hf]%list_elem_of_filter)%list_elem_of_bind. exists f.
  do 2 (split; [done|]). unfold project_finding in Hm; simpl in Hm.
  by destruct (finding_verdict f); simpl in Hm; try by apply elem_of_nil in Hm.
Qed.

(** Re-fusing projected findings never promotes a claim: a fused
    [Verified] or [Contradicted] rests on a finding of this very claim with
    that verdict citing the evidence that counted, a fused [Unavailable] on a
    finding that was [Unavailable], and a reported conflict on findings of
    both kinds. *)
Theorem projection_never_promotes `{Chrono} (claim : Claim) (findings : list Finding)
    (evidence : list Evidence) (computed_at : string) :
  ∃ ff, fuse (mkFusionInput claim (project_graph claim findings) evidence) computed_at = Some ff ∧
    let from v := ∃ f, f ∈ findings ∧ finding_claim_id f = claim_id claim ∧
                       finding_verdict f = v in
    (ff_verdict ff = Verified → from Verified) ∧
    (ff_verdict ff = Contradicted → from Contradicted) ∧
    (ff_verdict ff = Unavailable → from Unavailable) ∧
    (unresolved_conflict ff = true → from Verified ∧ from Contradicted).
Proof.
  set (input := mkFusionInput _ _ _).
  assert (∀ r, has_vote input r → ∃ f, f ∈ findings ∧ finding_claim_id f = claim_id claim ∧
    finding_verdict f = projected_verdict r) as Hvote.
  { intros r (c & ((Hl & _) & _) & <-).
    apply project_links_spec in Hl as (f & ? & ? & ? & _). eauto. }
  destruct (fuse_outcome input computed_at) as (ff & Hf & Hout). exists ff. split; [done|].
  destruct (try_build _ _) as [[fm|b]|]; [|by destruct Hout as (-> & _ & _ & ->)|done].
  destruct Hout as [(_ & HC & HV & HU & Hconf) _]. repeat split.
  - intros [Hs _]%HV. by apply (Hvote Supports).
  - intros [Hc _]%HC. by apply (Hvote Contradicts).
  - intros (_ & _ & m & Hm & _)%HU. by apply project_missing_spec in Hm.
  - by apply Hconf in H1 as [? _]; apply (Hvote Supports).
  - by apply Hconf in H1 as [_ ?]; apply (Hvote Contradicts).
Qed.
End projection.
