(* ===== verification/Calibration.v ===== *)
(** * Calibration validity

    [crates/fornax-verify/src/calibration.rs] and the provenance record of
    [crates/fornax-types/src/calibration.rs]: the comparison of the provenance
    of the active calibration revision with a live read, and the state it
    gives. The statistics of [reliability.rs] are floating-point estimates:
    their type is the parameter [Estimate] of a signal, and only the drift
    state and the sample support decided from them are read here. The text of
    a suppression reason is the value [SuppressionReason] of what it
    interpolates. *)

From S2P Require Import Prelude.
From S2P Require Import Types.

(** ** Data *)

Record CalibrationProvenance := mkCalibrationProvenance {
  cp_schema_version : N;
  cp_provider : string;
  cp_adapter_version : option string;
  cp_capability_schema_version : N;
  cp_capability_fingerprint : list (string * string);
  cp_fusion_policy_name : string;
  cp_fusion_policy_version : N;
  cp_decision_policy_name : string;
  cp_decision_policy_version : N;
  cp_reliability_policy_version : N;
  cp_disabled_sensors : list string;
  cp_active_policy_revision_digest : option string;
  cp_model_version : option string;
  cp_model_family : option string;
}.

Inductive SampleSupport :=
| Confident (sample_count : N)
| InsufficientSampleSupport (sample_count minimum_required : N).

Definition MINIMUM_COHORT_SAMPLE_SUPPORT : N := 30.

Definition evaluate_sample_support (sample_count : N) : SampleSupport :=
  if decide (MINIMUM_COHORT_SAMPLE_SUPPORT ≤ sample_count)%N
  then Confident sample_count
  else InsufficientSampleSupport sample_count MINIMUM_COHORT_SAMPLE_SUPPORT.

Inductive DriftState :=
| Stable
| Drifted
| InsufficientDataForComparison
| NotComparable (differing_dimensions : list string).

Inductive CalibrationState :=
| NoActiveCalibration
| CalValid
| CalStale (changed : list string)
| Suspect (drift : DriftState)
| InsufficientSupport (sample_support : SampleSupport).

Record CalibrationAssessment := mkCalibrationAssessment {
  ca_state : CalibrationState;
  ca_policy_version : N;
}.

Definition CALIBRATION_POLICY_VERSION : N := 1.

Section calibration.
Context {ContextKey Estimate : Type}.

Record ReliabilitySignal := mkReliabilitySignal {
  rs_context_key : ContextKey;
  rs_sample_support : SampleSupport;
  rs_not_evaluable_count : N;
  rs_policy_version : N;
  rs_reliability_estimate : option Estimate;
}.

Record DriftAssessment := mkDriftAssessment {
  baseline_signal : ReliabilitySignal;
  comparison_signal : ReliabilitySignal;
  drift_state : DriftState;
  da_policy_version : N;
}.

(** ** Operations *)

(** One [if a != b { changed.push(name) }]. *)
Definition push_if {A} `{EqDecision A} (name : string) (a b : A) : list string :=
  if decide (a = b) then [] else [name].

Definition changed_dimensions (active live : CalibrationProvenance) : list string :=
  push_if "provider" (cp_provider active) (cp_provider live) ++
  push_if "adapter_version" (cp_adapter_version active) (cp_adapter_version live) ++
  push_if "capability_schema_version"
    (cp_capability_schema_version active) (cp_capability_schema_version live) ++
  push_if "capability_fingerprint"
    (cp_capability_fingerprint active) (cp_capability_fingerprint live) ++
  push_if "fusion_policy"
    (cp_fusion_policy_name active, cp_fusion_policy_version active)
    (cp_fusion_policy_name live, cp_fusion_policy_version live) ++
  push_if "decision_policy"
    (cp_decision_policy_name active, cp_decision_policy_version active)
    (cp_decision_policy_name live, cp_decision_policy_version live) ++
  push_if "reliability_policy_version"
    (cp_reliability_policy_version active) (cp_reliability_policy_version live) ++
  push_if "disabled_sensors" (cp_disabled_sensors active) (cp_disabled_sensors live) ++
  push_if "active_policy_revision_digest"
    (cp_active_policy_revision_digest active) (cp_active_policy_revision_digest live) ++
  push_if "model_version" (cp_model_version active) (cp_model_version live) ++
  push_if "model_family" (cp_model_family active) (cp_model_family live).

Definition assess_calibration (active : option CalibrationProvenance)
    (live : CalibrationProvenance) (drift : option DriftAssessment)
    (historical_aggregation_enabled : bool) : CalibrationAssessment :=
  let state :=
    match active with
    | None => NoActiveCalibration
    | Some active =>
        match changed_dimensions active live with
        | _ :: _ as changed => CalStale changed
        | [] =>
            if negb historical_aggregation_enabled then CalValid
            else
              match drift with
              | None => CalValid
              | Some assessment =>
                  match drift_state assessment with
                  | Stable => CalValid
                  | NotComparable _ => CalValid
                  | Drifted => Suspect (drift_state assessment)
                  | InsufficientDataForComparison =>
                      InsufficientSupport (rs_sample_support (comparison_signal assessment))
                  end
              end
        end
    end in
  mkCalibrationAssessment state CALIBRATION_POLICY_VERSION.

Inductive SuppressionReason :=
| ReasonStale (changed : list string)
| ReasonSuspect (drift : DriftState)
| ReasonInsufficientSupport.

Definition suppression_reason (state : CalibrationState) : option SuppressionReason :=
  match state with
  | CalValid | NoActiveCalibration => None
  | CalStale changed => Some (ReasonStale changed)
  | Suspect drift => Some (ReasonSuspect drift)
  | InsufficientSupport _ => Some ReasonInsufficientSupport
  end.

Record CalibratedReliabilityView := mkCalibratedReliabilityView {
  view_signal : ReliabilitySignal;
  view_calibration_state : CalibrationState;
  estimate_suppressed_because : option SuppressionReason;
}.

(** [CalibratedReliabilityView::new]. *)
Definition calibrated_view (signal : ReliabilitySignal) (state : CalibrationState) :
    CalibratedReliabilityView :=
  mkCalibratedReliabilityView signal state (suppression_reason state).

(** ** Theorems *)

Lemma push_if_nil {A} `{EqDecision A} name (a b : A) : push_if name a b = [] ↔ a = b.
Proof. unfold push_if. case_decide; naive_solver. Qed.

(** The comparison covers every dimension except the schema version. *)
Lemma changed_dimensions_nil active live :
  changed_dimensions active live = [] ↔
    active = mkCalibrationProvenance (cp_schema_version active)
      (cp_provider live) (cp_adapter_version live) (cp_capability_schema_version live)
      (cp_capability_fingerprint live) (cp_fusion_policy_name live)
      (cp_fusion_policy_version live) (cp_decision_policy_name live)
      (cp_decision_policy_version live) (cp_reliability_policy_version live)
      (cp_disabled_sensors live) (cp_active_policy_revision_digest live)
      (cp_model_version live) (cp_model_family live).
Proof.
  unfold changed_dimensions. rewrite !app_nil, !push_if_nil.
  destruct active, live; simpl. split.
  - intros; destruct_and!; by simplify_eq.
  - intros [=]; simplify_eq. done.
Qed.

(** When an assessment reports a calibration as still valid: exactly when
    a revision is active, every compared dimension of its provenance is the
    live one, and no enabled drift comparison found a drift or lacked data.
    The schema version of the provenance is not among the dimensions. *)
Theorem assess_valid_iff (active : option CalibrationProvenance)
    (live : CalibrationProvenance) (drift : option DriftAssessment) (enabled : bool) :
  ca_state (assess_calibration active live drift enabled) = CalValid ↔
  ∃ a, active = Some a ∧
    a = mkCalibrationProvenance (cp_schema_version a)
      (cp_provider live) (cp_adapter_version live) (cp_capability_schema_version live)
      (cp_capability_fingerprint live) (cp_fusion_policy_name live)
      (cp_fusion_policy_version live) (cp_decision_policy_name live)
      (cp_decision_policy_version live) (cp_reliability_policy_version live)
      (cp_disabled_sensors live) (cp_active_policy_revision_digest live)
      (cp_model_version live) (cp_model_family live) ∧
    (enabled = true → ∀ d, drift = Some d →
       drift_state d ≠ Drifted ∧ drift_state d ≠ InsufficientDataForComparison).
Proof.
  unfold assess_calibration; simpl. destruct active as [a|]; [|naive_solver].
  destruct (changed_dimensions a live) as [|x xs] eqn:E; simpl.
  - apply changed_dimensions_nil in E. destruct enabled; simpl;
      [|split; [|done]; intros _; by exists a].
    destruct drift as [d|]; [|split; [|done]; intros _; by exists a].
    destruct (drift_state d) eqn:Ed; (split; [intros Hv|intros (_ & _ & _ & Hd)]); try done.
    1,4: exists a; do 2 (split; [done|]); intros _ d' [= <-]; by rewrite Ed.
    all: by destruct (Hd eq_refl d eq_refl).
  - split; [done|]. intros (a' & [= <-] & Ha & _).
    apply changed_dimensions_nil in Ha. congruence.
Qed.
End calibration.
Arguments ReliabilitySignal : clear implicits.
Arguments DriftAssessment : clear implicits.
