(* ===== verification/Decision.v ===== *)
(** * Decision recommendations

    [crates/fornax-verify/src/decision.rs]: the mapping of a fused finding
    and a risk class to an action, and the calibration floor applied to the
    recommendation afterwards. The summary text is the value [Summary] of what
    it interpolates. *)

From S2P Require Import Prelude.
From S2P Require Import Types.
From S2P Require Import Graph.
From S2P Require Import Contract.
From S2P Require Import UnionFind.
From S2P Require Import Independence.
From S2P Require Import Fusion.
From S2P Require Import FusionLemmas.
From S2P Require Import FusionSpec.
From S2P Require Import Calibration.

Local Open Scope fornax_scope.

(** ** Data *)

Inductive RecommendationAction := Proceed | ReviewAction | Block.
#[export] Instance RecommendationAction_eq_dec : EqDecision RecommendationAction.
Proof. solve_decision. Defined.

Inductive RiskClass := Strict | Balanced | Lenient.

Inductive Summary :=
| SDecided (verdict : Verdict) (uncertainty : UncertaintyBand) (risk : RiskClass)
    (action : RecommendationAction) (name : string) (version : N) (claim : Uuid)
| SFloor (summary : Summary) (reason : SuppressionReason)
| SContractFloor (summary : Summary) (claim_class : ClaimClassId) (overall : SatisfactionState)
| SVerificationFloor (summary : Summary) (unmet_requirement_ids : list string).

Record Recommendation := mkRecommendation {
  rec_claim_id : Uuid;
  rec_action : RecommendationAction;
  rec_risk_class : RiskClass;
  rec_policy_name : string;
  rec_policy_version : N;
  rationale_summary : Summary;
}.

(** The [DecisionPolicy] trait. *)
Class DecisionPolicy := {
  decision_name : string;
  decision_version : N;
  policy_decide : FusedFinding → RiskClass → Recommendation;
}.

(** ** [DefaultRiskPolicy] *)

Definition action_for (verdict : Verdict) (band : UncertaintyBand) (risk : RiskClass) :
    RecommendationAction :=
  match verdict, band, risk with
  | Verified, Corroborated, Strict => Proceed
  | Verified, Corroborated, Balanced => Proceed
  | Verified, Corroborated, Lenient => Proceed
  | Verified, Qualified, _ => ReviewAction
  | Verified, Undetermined, _ => ReviewAction
  | Verified, Conflicted, _ => ReviewAction
  | Contradicted, Corroborated, Strict => Block
  | Contradicted, Corroborated, Balanced => Block
  | Contradicted, Corroborated, Lenient => ReviewAction
  | Contradicted, Qualified, Strict => Block
  | Contradicted, Qualified, Balanced => ReviewAction
  | Contradicted, Qualified, Lenient => ReviewAction
  | Contradicted, Undetermined, _ => Block
  | Contradicted, Conflicted, _ => Block
  | Unverified, _, Strict => Block
  | Unverified, _, Balanced => ReviewAction
  | Unverified, _, Lenient => ReviewAction
  | Unavailable, _, Strict => Block
  | Unavailable, _, Balanced => Block
  | Unavailable, _, Lenient => ReviewAction
  | Review, _, _ => Block
  end.

Definition default_risk_name : string := "default_risk_policy_v1".
Definition default_risk_version : N := 1.

Definition decide_default (fused : FusedFinding) (risk : RiskClass) : Recommendation :=
  let action := action_for (ff_verdict fused) (ff_uncertainty fused) risk in
  mkRecommendation (ff_claim_id fused) action risk default_risk_name default_risk_version
    (SDecided (ff_verdict fused) (ff_uncertainty fused) risk action
       default_risk_name default_risk_version (ff_claim_id fused)).

#[export] Instance DefaultRiskPolicy : DecisionPolicy := {
  decision_name := default_risk_name;
  decision_version := default_risk_version;
  policy_decide := decide_default;
}.

Definition apply_calibration_floor (rec : Recommendation) (state : CalibrationState) :
    Recommendation :=
  match suppression_reason state with
  | None => rec
  | Some reason =>
      if decide (rec_action rec ≠ Proceed) then rec
      else mkRecommendation (rec_claim_id rec) ReviewAction (rec_risk_class rec)
             (rec_policy_name rec) (rec_policy_version rec)
             (SFloor (rationale_summary rec) reason)
  end.

(** ** Orders *)

(** How restrictive an action is, and how cautious a risk class. *)
Definition action_rank (a : RecommendationAction) : nat :=
  match a with Proceed => 0 | ReviewAction => 1 | Block => 2 end.
Definition risk_rank (r : RiskClass) : nat :=
  match r with Lenient => 0 | Balanced => 1 | Strict => 2 end.

(** ** Theorems *)

Lemma action_for_proceed v b r : action_for v b r = Proceed ↔ v = Verified ∧ b = Corroborated.
Proof. destruct v, b, r; simpl; intuition congruence. Qed.

(** The floor either leaves the recommendation alone or steps it down. *)
Lemma floor_cases rec state :
  (apply_calibration_floor rec state = rec ∧
     (rec_action rec = Proceed → state = CalValid ∨ state = NoActiveCalibration))
  ∨ (rec_action rec = Proceed ∧ ∃ reason, suppression_reason state = Some reason ∧
     apply_calibration_floor rec state =
       mkRecommendation (rec_claim_id rec) ReviewAction (rec_risk_class rec)
         (rec_policy_name rec) (rec_policy_version rec) (SFloor (rationale_summary rec) reason)).
Proof.
  unfold apply_calibration_floor. destruct (suppression_reason state) eqn:E.
  - case_decide as Ha; [by left|]. right.
    split; [by destruct (rec_action rec); [|destruct Ha..]|eauto].
  - left. split; [done|]. intros _. destruct state; simpl in E; auto; done.
Qed.

Lemma floor_proceed rec state :
  rec_action (apply_calibration_floor rec state) = Proceed ↔
    rec_action rec = Proceed ∧ (state = CalValid ∨ state = NoActiveCalibration).
Proof.
  destruct (floor_cases rec state) as [[-> Hs]|(Ha & r & Hr & ->)]; simpl; [naive_solver|].
  split; [done|]. by intros [_ [-> | ->]].
Qed.

(** A more cautious risk class never gets a more permissive action for
    the same finding, and only a [Verified], [Corroborated] finding gets
    [Proceed], under every risk class alike. *)
Theorem decision_monotone_and_floored (fused : FusedFinding) (r1 r2 : RiskClass) :
  (risk_rank r1 ≤ risk_rank r2 →
     action_rank (rec_action (decide_default fused r1))
       ≤ action_rank (rec_action (decide_default fused r2))) ∧
  (rec_action (decide_default fused r1) = Proceed ↔
     ff_verdict fused = Verified ∧ ff_uncertainty fused = Corroborated).
Proof.
  split; [|apply action_for_proceed]. unfold decide_default; simpl.
  destruct (ff_verdict fused), (ff_uncertainty fused), r1, r2; simpl; lia.
Qed.

(** The calibration floor never relaxes a recommendation, changes only
    its action (from [Proceed] to [Review]) and its summary, applies at most
    once, and leaves [Proceed] only to a valid or never recorded
    calibration. *)
Theorem calibration_floor_only_tightens (rec : Recommendation) (state : CalibrationState) :
  let rec' := apply_calibration_floor rec state in
  action_rank (rec_action rec) ≤ action_rank (rec_action rec') ∧
  (rec' = rec ∨ rec_action rec = Proceed ∧ rec_action rec' = ReviewAction) ∧
  rec_claim_id rec' = rec_claim_id rec ∧ rec_risk_class rec' = rec_risk_class rec ∧
  apply_calibration_floor rec' state = rec' ∧
  (rec_action rec' = Proceed ↔
     rec_action rec = Proceed ∧ (state = CalValid ∨ state = NoActiveCalibration)).
Proof.
  intros rec'. subst rec'. rewrite floor_proceed.
  destruct (floor_cases rec state) as [[Heq Hs]|(Ha & r & Hr & Heq)]; rewrite !Heq.
  - split_and!; auto.
  - rewrite Ha. split_and!; try done; [simpl; lia|by right|].
    unfold apply_calibration_floor. by rewrite Hr.
Qed.

(** C11. What a final [Proceed] certifies about the evidence, from the graph
    to the floored recommendation: the calibration is valid or was never
    recorded, no expected signal is missing, some link supports the claim, and
    every link that votes supports it, is counted, and rests on a resolved,
    underived record with its own correlation group that is fresh or not time
    sensitive. *)
Theorem proceed_certifies_evidence `{Chrono} (input : FusionInput) (computed_at : string)
    (ff : FusedFinding) (risk : RiskClass) (state : CalibrationState) :
  fuse input computed_at = Some ff →
  rec_action (apply_calibration_floor (decide_default ff risk) state) = Proceed →
  (state = CalValid ∨ state = NoActiveCalibration) ∧
  missing (fi_graph input) = [] ∧
  (∃ l, l ∈ links (fi_graph input) ∧ link_relation l = Supports) ∧
  (∀ l, l ∈ links (fi_graph input) → link_relation l ≠ Neutral →
     link_relation l = Supports ∧ rests_on_clean_evidence input ff l).
Proof.
  intros Hf [[Hv Hb]%action_for_proceed Hstate]%floor_proceed. split; [done|].
  destruct (corroborated_run input computed_at ff Hf Hb) as (fm & Hfm & _ & _ & Hm & _).
  split; [done|].
  destruct (fuse_outcome input computed_at) as (ff' & Hf' & Hout).
  rewrite Hf in Hf'. injection Hf' as <-. rewrite Hfm in Hout.
  destruct Hout as [(_ & _ & HV & _) _]. destruct (proj1 HV Hv) as [Hs Hc]. split.
  - destruct Hs as (c & ((Hl & _) & _) & Hr). eauto.
  - intros l Hl Hr. destruct (corroborated_links input computed_at ff Hf Hb l Hl Hr)
      as [Hrest Hvote].
    split; [|done]. by destruct (link_relation l); [|destruct Hc|].
Qed.

(** ** Witness *)

Lemma proceed_certifies_evidence_witness :
  rec_action (apply_calibration_floor (decide_default (fused clean_input) Strict) CalValid)
    = Proceed ∧
  ∀ l, l ∈ links (fi_graph clean_input) → link_relation l ≠ Neutral →
    link_relation l = Supports.
Proof.
  split; [vm_compute; done|].
  destruct (proceed_certifies_evidence (H := sample_chrono) clean_input "now"
    (fused clean_input) Strict CalValid) as (_ & _ & _ & Hl).
  - vm_compute. done.
  - vm_compute. done.
  - intros l Hin Hr. by apply Hl.
Defined.
