(* ===== verification/PolicyContent.v ===== *)
(** * Policy content

    [crates/fornax-types/src/policy/content.rs], [diagnostics.rs] and
    [local.rs]: the vocabulary of a policy layer, where an absent field means
    that the layer does not speak to it, the all-concrete resolved values, and
    the layer read from the local environment.

    [serde_json]'s rendering of a string is a parameter ([SerdeJson]): it
    only orders signal classes. Messages and remediations of diagnostics are
    display text and are not kept. *)

From S2P Require Import Prelude.
From S2P Require Import Types.

Local Open Scope fornax_scope.

Class SerdeJson := { json_string : string → string }.
(** JSON string literals of distinct strings are distinct. *)
Class SerdeJsonOk `{SerdeJson} : Prop := json_string_inj :: Inj (=) (=) json_string.

Definition POLICY_SCHEMA_VERSION : N := 1.
Definition SUPPORTED_POLICY_SCHEMA_VERSIONS : list N := [1%N].

(** ** Enums *)

Inductive ActionClass :=
| CodeEdit | ShellCommand | VersionControlWrite | NetworkFetch | PackageInstall
| CredentialAccess | InfrastructureMutation | DataEgress
| ActionUnrecognized (tag : string).
#[export] Instance ActionClass_eq_dec : EqDecision ActionClass.
Proof. solve_decision. Defined.

(** The derived [Ord]: the variant, then the payload. *)
Definition action_key (a : ActionClass) : N * string :=
  match a with
  | CodeEdit => (0, "") | ShellCommand => (1, "") | VersionControlWrite => (2, "")
  | NetworkFetch => (3, "") | PackageInstall => (4, "") | CredentialAccess => (5, "")
  | InfrastructureMutation => (6, "") | DataEgress => (7, "")
  | ActionUnrecognized tag => (8, tag)
  end%N.
Definition action_of_key (k : N * string) : ActionClass :=
  match k with
  | (0, _) => CodeEdit | (1, _) => ShellCommand | (2, _) => VersionControlWrite
  | (3, _) => NetworkFetch | (4, _) => PackageInstall | (5, _) => CredentialAccess
  | (6, _) => InfrastructureMutation | (7, _) => DataEgress
  | (_, tag) => ActionUnrecognized tag
  end%N.
#[export] Instance action_key_inj : Inj (=) (=) action_key.
Proof. by intros [] [] ?; simplify_eq/=. Qed.
#[export] Instance ActionClass_countable : Countable ActionClass.
Proof. apply (inj_countable' action_key action_of_key). by intros []. Defined.
#[export] Instance ActionClass_ord : OrdKey ActionClass :=
  λ x y, ord_le (action_key x) (action_key y).
#[export] Instance ActionClass_ord_dec : OrdKeyDec ActionClass.
Proof. intros x y; unfold ord_le, ActionClass_ord; apply _. Defined.
#[export] Instance ActionClass_ord_ok : OrdKeyOk ActionClass.
Proof. apply (ord_key_via action_key). Qed.

Inductive PolicyRiskClass := RiskLow | RiskElevated | RiskHigh | RiskCritical.
#[export] Instance PolicyRiskClass_eq_dec : EqDecision PolicyRiskClass.
Proof. solve_decision. Defined.
Definition risk_ord (r : PolicyRiskClass) : nat :=
  match r with RiskLow => 0 | RiskElevated => 1 | RiskHigh => 2 | RiskCritical => 3 end.

Inductive EnforcementOutcome := EAllow | EObserveOnly | EWarn | EBlock.
#[export] Instance EnforcementOutcome_eq_dec : EqDecision EnforcementOutcome.
Proof. solve_decision. Defined.
Definition outcome_ord (o : EnforcementOutcome) : nat :=
  match o with EAllow => 0 | EObserveOnly => 1 | EWarn => 2 | EBlock => 3 end.

Inductive RedactionProfile := RedactStandard | RedactStrict.
#[export] Instance RedactionProfile_eq_dec : EqDecision RedactionProfile.
Proof. solve_decision. Defined.
Definition redaction_ord (r : RedactionProfile) : nat :=
  match r with RedactStandard => 0 | RedactStrict => 1 end.

Inductive EgressContentClass :=
| FindingVerdicts | ClaimText | EvidenceMetadata | RedactedEvidencePayload
| CapabilityDeclarations
| EgressUnrecognized (tag : string).
#[export] Instance EgressContentClass_eq_dec : EqDecision EgressContentClass.
Proof. solve_decision. Defined.
#[export] Instance EgressContentClass_countable : Countable EgressContentClass.
Proof.
  apply (inj_countable'
    (λ c, match c with
          | FindingVerdicts => inl 0 | ClaimText => inl 1 | EvidenceMetadata => inl 2
          | RedactedEvidencePayload => inl 3 | CapabilityDeclarations => inl 4
          | EgressUnrecognized tag => inr tag
          end)
    (λ s, match s with
          | inl 0 => FindingVerdicts | inl 1 => ClaimText | inl 2 => EvidenceMetadata
          | inl 3 => RedactedEvidencePayload | inl _ => CapabilityDeclarations
          | inr tag => EgressUnrecognized tag
          end)). by intros [].
Defined.

(** [Ord::max] of an enum ordered by [rank]; on a tie the second argument. *)
Definition max_by {A} (rank : A → nat) (a b : A) : A :=
  if decide (rank a ≤ rank b) then b else a.

(** ** Records *)

Record VerdictOutcomes := mkVerdictOutcomes {
  vo_verified : EnforcementOutcome;
  vo_unverified : EnforcementOutcome;
  vo_contradicted : EnforcementOutcome;
  vo_review : EnforcementOutcome;
  vo_unavailable : EnforcementOutcome;
}.
#[export] Instance VerdictOutcomes_eq_dec : EqDecision VerdictOutcomes.
Proof. solve_decision. Defined.

Definition uniform (o : EnforcementOutcome) : VerdictOutcomes := mkVerdictOutcomes o o o o o.

Definition for_verdict (vo : VerdictOutcomes) (v : Verdict) : EnforcementOutcome :=
  match v with
  | Verified => vo_verified vo
  | Unverified => vo_unverified vo
  | Contradicted => vo_contradicted vo
  | Review => vo_review vo
  | Unavailable => vo_unavailable vo
  end.

Definition outcomes_meet (a b : VerdictOutcomes) : VerdictOutcomes :=
  let max := max_by outcome_ord in
  mkVerdictOutcomes (max (vo_verified a) (vo_verified b))
    (max (vo_unverified a) (vo_unverified b))
    (max (vo_contradicted a) (vo_contradicted b))
    (max (vo_review a) (vo_review b))
    (max (vo_unavailable a) (vo_unavailable b)).

Record EnforcementRule := mkEnforcementRule {
  action_class : ActionClass;
  risk_class : PolicyRiskClass;
  outcomes : VerdictOutcomes;
}.
#[export] Instance EnforcementRule_eq_dec : EqDecision EnforcementRule.
Proof. solve_decision. Defined.

Record RiskClassSeconds := mkRiskClassSeconds {
  rcs_low : N;
  rcs_elevated : N;
  rcs_high : N;
  rcs_critical : N;
}.
#[export] Instance RiskClassSeconds_eq_dec : EqDecision RiskClassSeconds.
Proof. solve_decision. Defined.

Definition seconds_meet (a b : RiskClassSeconds) : RiskClassSeconds :=
  mkRiskClassSeconds (N.min (rcs_low a) (rcs_low b))
    (N.min (rcs_elevated a) (rcs_elevated b))
    (N.min (rcs_high a) (rcs_high b)) (N.min (rcs_critical a) (rcs_critical b)).

Record CollectionScope := mkCollectionScope {
  longitudinal_aggregation_allowed : option bool;
}.
Record EgressScope := mkEgressScope {
  cloud_sync_allowed : option bool;
  redaction_profile : option RedactionProfile;
  allowed_content : option (gset EgressContentClass);
}.
Record SensorScope := mkSensorScope {
  disabled : option (gset string);
  required_signals : option (list SignalClass);
}.
Record EnforcementScope := mkEnforcementScope {
  rules : option (list EnforcementRule);
}.
Record CacheScope := mkCacheScope {
  max_age_seconds_by_risk : option RiskClassSeconds;
  offline_grace_seconds : option N;
}.

Record PolicyContent := mkPolicyContent {
  collection : CollectionScope;
  egress : EgressScope;
  sensors : SensorScope;
  enforcement : EnforcementScope;
  cache : CacheScope;
}.

Record ResolvedValues := mkResolvedValues {
  rv_longitudinal_aggregation_allowed : bool;
  rv_cloud_sync_allowed : bool;
  rv_redaction_profile : RedactionProfile;
  rv_allowed_content : gset EgressContentClass;
  rv_sensors_disabled : gset string;
  rv_sensors_required_signals : list SignalClass;
  rv_enforcement_rules : list EnforcementRule;
  rv_cache_max_age_seconds_by_risk : RiskClassSeconds;
  rv_cache_offline_grace_seconds : N;
}.

(** [PolicyContent::baseline]. *)
Definition baseline : ResolvedValues :=
  mkResolvedValues false false RedactStandard ∅ ∅ [] []
    (mkRiskClassSeconds 86400 21600 3600 900) 604800.

(** [ResolvedValues::enforcement_outcome_for]. *)
Definition enforcement_outcome_for (values : ResolvedValues) (a : ActionClass) (v : Verdict) :
    EnforcementOutcome :=
  match list_find (λ r, action_class r = a) (rv_enforcement_rules values) with
  | Some (_, r) => for_verdict (outcomes r) v
  | None => EObserveOnly
  end.

(** ** Signal classes *)

(** The serde wire tag. *)
Definition signal_class_tag (c : SignalClass) : string :=
  match c with
  | ToolInvocation => "tool_invocation"
  | ToolTrace => "tool_trace"
  | ToolResultPayload => "tool_result_payload"
  | ProcessResult => "process_result"
  | SessionLifecycle => "session_lifecycle"
  | SubagentLifecycle => "subagent_lifecycle"
  | FinalResponse => "final_response"
  | ReasoningSummary => "reasoning_summary"
  | RawReasoning => "raw_reasoning"
  | TokenLogprobs => "token_logprobs"
  | InternalModelSignals => "internal_model_signals"
  | ClassUnrecognized tag => tag
  end.

Section signals.
Context `{SerdeJson}.

Definition signal_class_sort_key (c : SignalClass) : string := json_string (signal_class_tag c).

Definition normalize_signal_classes (classes : list SignalClass) : list SignalClass :=
  dedup (sort_by_key signal_class_sort_key classes).

Definition union_signal_classes (a b : list SignalClass) : list SignalClass :=
  normalize_signal_classes (a ++ b).
End signals.

(** A class as deserialization produces it: an unrecognized tag is never the
    tag of a known class. *)
Definition known_tags : list string :=
  signal_class_tag <$>
    [ToolInvocation; ToolTrace; ToolResultPayload; ProcessResult; SessionLifecycle;
     SubagentLifecycle; FinalResponse; ReasoningSummary; RawReasoning; TokenLogprobs;
     InternalModelSignals].
Definition canonical_class (c : SignalClass) : Prop :=
  match c with ClassUnrecognized tag => tag ∉ known_tags | _ => True end.

Lemma canonical_class_tag_inj a b :
  canonical_class a → canonical_class b → signal_class_tag a = signal_class_tag b → a = b.
Proof.
  assert (∀ c tag, tag ∉ known_tags → signal_class_tag c = tag →
    c = ClassUnrecognized tag) as Hunrec.
  { intros c tag Hn <-. destruct c; [..|done]; exfalso; apply Hn; unfold known_tags; set_solver. }
  intros Ha Hb Heq. destruct b as [| | | | | | | | | | |tag]; try (by apply Hunrec).
  all: destruct a as [| | | | | | | | | | |tag]; try done.
  all: simpl in Heq; subst tag; exfalso; apply Ha; unfold known_tags; set_solver.
Qed.

(** ** Diagnostics *)

Inductive DiagnosticSeverity := SeverityError | SeverityWarning | SeverityInfo.
#[export] Instance DiagnosticSeverity_eq_dec : EqDecision DiagnosticSeverity.
Proof. solve_decision. Defined.

Inductive DiagnosticCode :=
| UnsupportedSchemaVersion | DigestMismatch | DuplicateActionClassRule
| UnsortedEnforcementRules | PinAtLocalUserLayer | PinNamesUnsetField
| EmptyDisplayName | SupersedesSelf | RevisionNotMonotonic
| ConflictingBindingsAtLevel | PinViolation | SelectorNotUnderstood
| RequiredSignalUnavailable | UnrecognizedEnvValue | NoApplicablePolicy
| PolicyCacheStale | PolicyCacheExpired | PolicyCacheUnverifiable
| PolicyCacheUnavailable | PolicyRollbackRejected | PolicyIssuerMismatch
| TrustStoreUnavailable | PolicyCacheRevoked | PolicyRevocationEntryNotUnderstood
| PolicyRevocationRejected | PolicyRefreshUnavailable.

Inductive PolicyFieldId :=
| CollectionLongitudinalAggregationAllowed | EgressCloudSyncAllowed
| EgressRedactionProfile | EgressAllowedContent | SensorsDisabled
| SensorsRequiredSignals | EnforcementRules | CacheMaxAgeByRisk
| CacheOfflineGraceSeconds
| FieldUnrecognized (tag : string).
#[export] Instance PolicyFieldId_eq_dec : EqDecision PolicyFieldId.
Proof. solve_decision. Defined.

(** The derived [Ord]: the variant, then the payload. *)
Definition field_key (f : PolicyFieldId) : N * string :=
  match f with
  | CollectionLongitudinalAggregationAllowed => (0, "")
  | EgressCloudSyncAllowed => (1, "") | EgressRedactionProfile => (2, "")
  | EgressAllowedContent => (3, "") | SensorsDisabled => (4, "")
  | SensorsRequiredSignals => (5, "") | EnforcementRules => (6, "")
  | CacheMaxAgeByRisk => (7, "") | CacheOfflineGraceSeconds => (8, "")
  | FieldUnrecognized tag => (9, tag)
  end%N.
Definition field_of_key (k : N * string) : PolicyFieldId :=
  match k with
  | (0, _) => CollectionLongitudinalAggregationAllowed
  | (1, _) => EgressCloudSyncAllowed | (2, _) => EgressRedactionProfile
  | (3, _) => EgressAllowedContent | (4, _) => SensorsDisabled
  | (5, _) => SensorsRequiredSignals | (6, _) => EnforcementRules
  | (7, _) => CacheMaxAgeByRisk | (8, _) => CacheOfflineGraceSeconds
  | (_, tag) => FieldUnrecognized tag
  end%N.
#[export] Instance field_key_inj : Inj (=) (=) field_key.
Proof. by intros [] [] ?; simplify_eq/=. Qed.
#[export] Instance PolicyFieldId_countable : Countable PolicyFieldId.
Proof. apply (inj_countable' field_key field_of_key). by intros []. Defined.
#[export] Instance PolicyFieldId_ord : OrdKey PolicyFieldId :=
  λ x y, ord_le (field_key x) (field_key y).
#[export] Instance PolicyFieldId_ord_dec : OrdKeyDec PolicyFieldId.
Proof. intros x y; unfold ord_le, PolicyFieldId_ord; apply _. Defined.
#[export] Instance PolicyFieldId_ord_ok : OrdKeyOk PolicyFieldId.
Proof. apply (ord_key_via field_key). Qed.

(** [PolicyFieldId::ALL]. *)
Definition ALL_FIELDS : list PolicyFieldId :=
  [ CollectionLongitudinalAggregationAllowed; EgressCloudSyncAllowed;
    EgressRedactionProfile; EgressAllowedContent; SensorsDisabled;
    SensorsRequiredSignals; EnforcementRules; CacheMaxAgeByRisk;
    CacheOfflineGraceSeconds ].

(** [PolicyRevisionRef]; a digest is its text. *)
Record PolicyRevisionRef := mkPolicyRevisionRef {
  ref_policy_id : Uuid;
  ref_revision : N;
  ref_digest : string;
}.
#[export] Instance PolicyRevisionRef_eq_dec : EqDecision PolicyRevisionRef.
Proof. solve_decision. Defined.

Record PolicyDiagnostic := mkPolicyDiagnostic {
  pd_code : DiagnosticCode;
  pd_severity : DiagnosticSeverity;
  pd_field : option PolicyFieldId;
  pd_bindings : list Uuid;
  pd_revisions : list PolicyRevisionRef;
}.

(** [PolicyDiagnostic::new] and its builder methods. *)
Definition new_diagnostic (code : DiagnosticCode) (severity : DiagnosticSeverity) :
    PolicyDiagnostic :=
  mkPolicyDiagnostic code severity None [] [].
Definition with_field (d : PolicyDiagnostic) (f : PolicyFieldId) : PolicyDiagnostic :=
  mkPolicyDiagnostic (pd_code d) (pd_severity d) (Some f) (pd_bindings d) (pd_revisions d).
Definition with_bindings (d : PolicyDiagnostic) (bs : list Uuid) : PolicyDiagnostic :=
  mkPolicyDiagnostic (pd_code d) (pd_severity d) (pd_field d) bs (pd_revisions d).
Definition with_revisions (d : PolicyDiagnostic) (rs : list PolicyRevisionRef) :
    PolicyDiagnostic :=
  mkPolicyDiagnostic (pd_code d) (pd_severity d) (pd_field d) (pd_bindings d) rs.

(** [PolicyValidationReport]. *)
Definition has_errors (diagnostics : list PolicyDiagnostic) : bool :=
  existsb (λ d, bool_decide (pd_severity d = SeverityError)) diagnostics.

(** ** The local user layer *)

Definition ascii_lower (c : Ascii.ascii) : Ascii.ascii :=
  let n := Ascii.nat_of_ascii c in
  if decide (65 ≤ n ∧ n ≤ 90) then Ascii.ascii_of_nat (n + 32) else c.
Definition eq_ignore_ascii_case (a b : string) : bool :=
  bool_decide ((ascii_lower <$> String.list_ascii_of_string a)
               = (ascii_lower <$> String.list_ascii_of_string b)).

Definition parse_bool_gate (raw : option string) : option bool * option PolicyDiagnostic :=
  match raw with
  | None => (None, None)
  | Some v =>
      if bool_decide (v = "1") || eq_ignore_ascii_case v "true" then (Some true, None)
      else (Some false, Some (new_diagnostic UnrecognizedEnvValue SeverityWarning))
  end.

Definition local_user_layer_from_values (cloud_sync_env longitudinal_env : option string)
    (disabled_names : gset string) : PolicyContent * list PolicyDiagnostic :=
  let '(cloud_sync, cloud_sync_warning) := parse_bool_gate cloud_sync_env in
  let '(longitudinal, longitudinal_warning) := parse_bool_gate longitudinal_env in
  let diagnostics := option_list cloud_sync_warning ++ option_list longitudinal_warning in
  let sensors_disabled := if decide (disabled_names = ∅) then None else Some disabled_names in
  (mkPolicyContent (mkCollectionScope longitudinal)
     (mkEgressScope cloud_sync None None)
     (mkSensorScope sensors_disabled None)
     (mkEnforcementScope None) (mkCacheScope None None),
   diagnostics).
