(* ===== verification/Voi.v ===== *)
(** * The evidence planner

    [fornax-verify/src/voi.rs]: which evidence a claim still lacks
    ([derive_gaps]), which probes could supply it, what local policy allows of
    them, and the ranked plan; and the side-effect allow-list of
    [fornax-types/src/experiment.rs] the policy is stated in. Texts composed
    for a reader are the values they are composed from. A [SignalClass] is
    compared by its wire tag ([signal_class_tag]), as in the source. *)

From S2P Require Import Prelude.
From S2P Require Import Types.
From S2P Require Import Graph.
From S2P Require Import Contract.
From S2P Require Import UnionFind.
From S2P Require Import Independence.
From S2P Require Import Fusion.
From S2P Require Import Decision.
From S2P Require Import PolicyContent.

Local Open Scope fornax_scope.

(** ** Side effects ([experiment.rs]) *)

Inductive SideEffectClass :=
| EphemeralWorktreeMutation | ProcessSpawn | NetworkCall | FilesystemWriteOutsideWorktree.
#[export] Instance SideEffectClass_eq_dec : EqDecision SideEffectClass.
Proof. solve_decision. Defined.

(** The derived [Ord]: the order of declaration. *)
Definition side_effect_key (c : SideEffectClass) : N :=
  match c with
  | EphemeralWorktreeMutation => 0
  | ProcessSpawn => 1
  | NetworkCall => 2
  | FilesystemWriteOutsideWorktree => 3
  end.

Record SideEffectAllowList := mkSideEffectAllowList { allowed : list SideEffectClass }.

(** [SideEffectAllowList::new]. *)
Definition allow_list (classes : list SideEffectClass) : SideEffectAllowList :=
  mkSideEffectAllowList (dedup (sort_by_key side_effect_key classes)).
Definition permits (l : SideEffectAllowList) (class : SideEffectClass) : bool :=
  bool_decide (class ∈ allowed l).

Definition side_effect_debug (c : SideEffectClass) : string :=
  match c with
  | EphemeralWorktreeMutation => "EphemeralWorktreeMutation"
  | ProcessSpawn => "ProcessSpawn"
  | NetworkCall => "NetworkCall"
  | FilesystemWriteOutsideWorktree => "FilesystemWriteOutsideWorktree"
  end.

(** ** Gaps *)

Inductive EvidenceGapKind :=
| NoEvidenceAtAll
| ExpectedSignalMissing (signal_class : SignalClass)
| SignalClassUnobservable (signal_class : SignalClass)
| AllVotesDiscounted
| StaleSupport
| GapIndependenceUnverified
| SingleSourceCorroboration
| UnresolvedConflict
| ContractObligationUnmet (requirement_id : string) (state : SatisfactionState)
| GapIndependenceBudgetExceeded.

(** The text of a gap: that of a rationale entry, a recorded detail, a fixed
    sentence of the source, or the values of a contract gap. *)
Inductive GapDetail :=
| GRationale (detail : Detail)
| GRecorded (detail : string)
| GFixed
| GContract (requirement_id : string) (level : RequirementLevel) (state : SatisfactionState).

Record EvidenceGap := mkEvidenceGap {
  eg_kind : EvidenceGapKind;
  eg_claim_id : Uuid;
  eg_link_ids : list Uuid;
  eg_missing_evidence_ids : list Uuid;
  eg_detail : GapDetail;
}.

(** [is_concerning] and [is_concerning_capability]. *)
Definition is_concerning (a : SignalAvailability) : bool :=
  match a with
  | Unsupported | SigUnavailable | CollectionFailed | Redacted | Disabled => true
  | _ => false
  end.

Definition conflict_gaps (claim : Claim) (fused : FusedFinding) : list EvidenceGap :=
  if unresolved_conflict fused
  then [mkEvidenceGap UnresolvedConflict (claim_id claim) (counted_link_ids fused) [] GFixed]
  else [].

Definition rationale_gap_kind (rule : FusionRule) : option EvidenceGapKind :=
  match rule with
  | StaleSupportDemoted => Some StaleSupport
  | AllSupportDiscounted => Some AllVotesDiscounted
  | IndependenceUnverified => Some GapIndependenceUnverified
  | _ => None
  end.
Definition rationale_gaps (claim : Claim) (fused : FusedFinding) : list EvidenceGap :=
  omap (λ entry,
    (λ kind, mkEvidenceGap kind (claim_id claim) (re_link_ids entry) []
               (GRationale (re_detail entry))) <$> rationale_gap_kind (re_rule entry))
    (ff_rationale fused).

(** The evidence behind the counted links. *)
Definition find_link (graph : EvidenceGraph) (id : Uuid) : option EvidenceLink :=
  snd <$> list_find (λ l, link_id l = id) (links graph).
Definition counted_evidence_ids (fused : FusedFinding) (graph : EvidenceGraph) : list Uuid :=
  omap (λ id, link_evidence_id <$> find_link graph id) (counted_link_ids fused).

Definition family_gaps (claim : Claim) (graph : EvidenceGraph) (evidence : list Evidence)
    (fused : FusedFinding) : option (list EvidenceGap) :=
  let! r := try_build evidence default_budget in
  Some match r with
  | Ok family_map =>
      if bool_decide
           (length (families_among family_map (counted_evidence_ids fused graph)) = 1
            ∧ 2 ≤ length (counted_link_ids fused))
      then [mkEvidenceGap SingleSourceCorroboration (claim_id claim)
              (counted_link_ids fused) [] GFixed]
      else []
  | Err _ =>
      [mkEvidenceGap GapIndependenceBudgetExceeded (claim_id claim)
         (counted_link_ids fused) [] GFixed]
  end.

(** The loop over [graph.missing], with the classes it covers. *)
Definition missing_gaps (claim : Claim) (graph : EvidenceGraph) : list EvidenceGap :=
  (λ m, mkEvidenceGap (ExpectedSignalMissing (signal_class m)) (claim_id claim) []
          [missing_id m] (from_option GRecorded GFixed (missing_detail m)))
    <$> filter (λ m, is_concerning (availability m)) (missing graph).
Definition missing_classes (graph : EvidenceGraph) : gset string :=
  list_to_set ((signal_class_tag ∘ signal_class)
    <$> filter (λ m, is_concerning (availability m)) (missing graph)).

(** The loop over the capability signals of every runtime. *)
Fixpoint capability_gaps (claim : Claim) (covered : gset string)
    (signals : list CapabilitySignal) : list EvidenceGap :=
  match signals with
  | [] => []
  | signal :: signals =>
      if bool_decide (is_concerning (cs_state signal) ∧
                      signal_class_tag (cs_class signal) ∉ covered)
      then mkEvidenceGap (SignalClassUnobservable (cs_class signal)) (claim_id claim) [] []
             (from_option GRecorded GFixed (cs_detail signal))
           :: capability_gaps claim ({[signal_class_tag (cs_class signal)]} ∪ covered) signals
      else capability_gaps claim covered signals
  end.

Definition no_evidence_gaps (claim : Claim) (graph : EvidenceGraph) : list EvidenceGap :=
  match links graph, missing graph with
  | [], [] => [mkEvidenceGap NoEvidenceAtAll (claim_id claim) [] [] GFixed]
  | _, _ => []
  end.

Definition derive_gaps (claim : Claim) (graph : EvidenceGraph) (evidence : list Evidence)
    (fused : FusedFinding) (capabilities : list RuntimeCapabilities) :
    option (list EvidenceGap) :=
  let! family := family_gaps claim graph evidence fused in
  Some (conflict_gaps claim fused ++ rationale_gaps claim fused ++ family ++
        missing_gaps claim graph ++
        capability_gaps claim (missing_classes graph) (capabilities ≫= rc_signals) ++
        no_evidence_gaps claim graph).

(** ** Independence *)

Inductive ProbeIndependence :=
| IndependentOfCounted | PartiallyCorrelated | SameSourceAsCounted | IndUnverified.
#[export] Instance ProbeIndependence_eq_dec : EqDecision ProbeIndependence.
Proof. solve_decision. Defined.

(** The provenance of the evidence behind the counted links, as far as it is
    resolved. *)
Definition counted_sources (fused : FusedFinding) (graph : EvidenceGraph)
    (evidence : list Evidence) : list EvidenceSource :=
  omap (λ id,
    l ← find_link graph id;
    ev ← snd <$> list_find (λ e, ev_id e = link_evidence_id l) evidence;
    ev_source ev) (counted_link_ids fused).

Definition counted_correlation_groups (fused : FusedFinding) (graph : EvidenceGraph)
    (evidence : list Evidence) : gset Uuid :=
  list_to_set (omap correlation_group (counted_sources fused graph evidence)).

(** [trust_class_key]: the serde wire tag. *)
Definition trust_class_key (c : TrustClass) : string :=
  match c with
  | AgentAdjacent => "agent_adjacent"
  | HostObserved => "host_observed"
  | IndependentExternal => "independent_external"
  | HumanReviewed => "human_reviewed"
  | ModelInternal => "model_internal"
  | TrustUnrecognized tag => tag
  end.
Definition counted_trust_classes (fused : FusedFinding) (graph : EvidenceGraph)
    (evidence : list Evidence) : gset string :=
  list_to_set ((trust_class_key ∘ trust_class) <$> counted_sources fused graph evidence).

Definition independence_of (probe_trust_class : TrustClass) (fused : FusedFinding)
    (graph : EvidenceGraph) (evidence : list Evidence) : option ProbeIndependence :=
  if decide (trust_class_key probe_trust_class ∉ counted_trust_classes fused graph evidence)
  then Some IndependentOfCounted
  else
    let! r := try_build evidence default_budget in
    Some match r with
    | Err _ => IndUnverified
    | Ok family_map =>
        let fams := families_among family_map (counted_evidence_ids fused graph) in
        if bool_decide (counted_correlation_groups fused graph evidence = ∅ ∧ length fams ≤ 1)
        then IndUnverified
        else if decide (2 ≤ length fams) then PartiallyCorrelated
        else SameSourceAsCounted
    end.

(** ** Probes *)

Inductive ProbeKind :=
| RerunTest | InspectVcsState | QueryCiStatus | VerifyArtifactHash
| BoundedReplayExperiment | HumanReview.
#[export] Instance ProbeKind_eq_dec : EqDecision ProbeKind.
Proof. solve_decision. Defined.

(** The derived [Debug]. *)
Definition probe_kind_debug (k : ProbeKind) : string :=
  match k with
  | RerunTest => "RerunTest"
  | InspectVcsState => "InspectVcsState"
  | QueryCiStatus => "QueryCiStatus"
  | VerifyArtifactHash => "VerifyArtifactHash"
  | BoundedReplayExperiment => "BoundedReplayExperiment"
  | HumanReview => "HumanReview"
  end.

Record EvidenceRequest := mkEvidenceRequest {
  req_kind : ProbeKind;
  target_signal_class : SignalClass;
  expected_trust_class : TrustClass;
  required_side_effects : SideEffectAllowList;
  req_description : string;
}.

(** The closures [describe]. *)
Definition describe (kind : ProbeKind) (class : SignalClass) (trust : TrustClass)
    (effects : list SideEffectClass) (desc : string) : EvidenceRequest :=
  mkEvidenceRequest kind class trust (allow_list effects) desc.

Definition probes_for_class (class : SignalClass) : list EvidenceRequest :=
  match class with
  | ProcessResult =>
      [describe RerunTest class HostObserved [ProcessSpawn]
         "rerun the relevant command/test and observe its real exit code"]
  | ToolTrace | ToolResultPayload =>
      [describe InspectVcsState class HostObserved []
         "inspect current git/filesystem state directly";
       describe VerifyArtifactHash class HostObserved []
         "verify a referenced file/artifact hash against disk, read-only"]
  | _ =>
      [describe HumanReview class HumanReviewed []
         "no automated probe can reconstruct this signal after the fact -- needs human review"]
  end.

Definition probes_for_gap (gap : EvidenceGap) : list EvidenceRequest :=
  match eg_kind gap with
  | ExpectedSignalMissing class | SignalClassUnobservable class => probes_for_class class
  | StaleSupport =>
      [describe InspectVcsState ToolTrace HostObserved []
         "re-observe current state now -- the counted evidence is stale";
       describe QueryCiStatus ToolResultPayload IndependentExternal [NetworkCall]
         "query current CI status as a fresh, independent observation"]
  | GapIndependenceUnverified | SingleSourceCorroboration | GapIndependenceBudgetExceeded =>
      [describe QueryCiStatus ToolResultPayload IndependentExternal [NetworkCall]
         "an independent external source would corroborate without sharing the counted source";
       describe InspectVcsState ToolTrace HostObserved []
         "a host-observed check is independent of an agent-reported source";
       describe HumanReview FinalResponse HumanReviewed []
         "human review is independent of every automated source"]
  | AllVotesDiscounted =>
      [describe RerunTest ProcessResult HostObserved [ProcessSpawn]
         "every prior vote was discounted -- a fresh direct observation is needed";
       describe InspectVcsState ToolTrace HostObserved [] "inspect current state directly"]
  | UnresolvedConflict =>
      [describe InspectVcsState ToolTrace HostObserved []
         "inspect current state to help resolve the conflict";
       describe RerunTest ProcessResult HostObserved [ProcessSpawn]
         "rerun to see which side of the conflict current reality supports";
       describe BoundedReplayExperiment ProcessResult HostObserved
         [EphemeralWorktreeMutation; ProcessSpawn]
         "a bounded counterfactual replay could discriminate between the conflicting claims";
       describe HumanReview FinalResponse HumanReviewed []
         "a human can resolve what automated evidence alone could not"]
  | ContractObligationUnmet _ _ =>
      [describe InspectVcsState ToolTrace HostObserved []
         "a host-observed check may satisfy this unmet epistemic-contract obligation";
       describe HumanReview FinalResponse HumanReviewed []
         "a human-reviewed disposition may satisfy this unmet epistemic-contract obligation"]
  | NoEvidenceAtAll =>
      probes_for_class ProcessResult ++ probes_for_class ToolTrace ++
      [describe HumanReview FinalResponse HumanReviewed []
         "nothing has looked at this claim at all yet"]
  end.

(** ** Utility and availability *)

Inductive Discrimination := DiscHigh | DiscModerate | DiscLow.
Inductive Recency := FreshObservation | PossiblyStale | HistoricalOnly.
Inductive AcquisitionCost := CostFree | CostCheap | CostModerate | CostExpensive.
Inductive AcquisitionLatency := SubSecond | LatSeconds | LatMinutes | LatLong.
Inductive PrivacySensitivity := PrivNone | LocalOnly | EgressRequired.
#[export] Instance PrivacySensitivity_eq_dec : EqDecision PrivacySensitivity.
Proof. solve_decision. Defined.
Inductive ActionRisk := ReadOnly | SandboxedMutation | ExternalSideEffect.

Record UtilityEstimate := mkUtilityEstimate {
  u_discrimination : Discrimination;
  u_independence : ProbeIndependence;
  u_recency : Recency;
  u_cost : AcquisitionCost;
  u_latency : AcquisitionLatency;
  u_privacy : PrivacySensitivity;
  u_action_risk : ActionRisk;
}.

Inductive UnavailableReason :=
| NotObservable (state : SignalAvailability) (class : SignalClass)
| SensorDisabled.
Inductive CandidateAvailability :=
| CandAvailable
| RequiresApproval (missing_grant : string)
| CandUnavailable (reason : UnavailableReason)
| Forbidden (class : SideEffectClass).

Record AcquisitionCandidate := mkAcquisitionCandidate {
  cd_request : EvidenceRequest;
  cd_utility : UtilityEstimate;
  cd_availability : CandidateAvailability;
  addresses_gaps : list nat;
  cd_rank : option N;
  why_it_matters : list EvidenceGapKind;
}.

Record AcquisitionPolicy := mkAcquisitionPolicy {
  granted_side_effects : SideEffectAllowList;
  egress_allowed : bool;
  disabled_sensors : gset string;
}.

Definition effective_classes (request : EvidenceRequest) : list SideEffectClass :=
  filter (λ c, permits (required_side_effects request) c)
    [EphemeralWorktreeMutation; ProcessSpawn; NetworkCall; FilesystemWriteOutsideWorktree].
Definition request_requires (request : EvidenceRequest) (class : SideEffectClass) : bool :=
  bool_decide (class ∈ effective_classes request).

Definition privacy_of (request : EvidenceRequest) : PrivacySensitivity :=
  if permits (required_side_effects request) NetworkCall then EgressRequired else PrivNone.

(** The early return of one runtime's capabilities. *)
Definition runtime_unavailable (class : SignalClass) (caps : RuntimeCapabilities) :
    option UnavailableReason :=
  match state_of caps class with
  | Unsupported => Some (NotObservable Unsupported class)
  | SigUnavailable => Some (NotObservable SigUnavailable class)
  | Disabled => Some SensorDisabled
  | _ => None
  end.

Definition classify_availability (request : EvidenceRequest)
    (capabilities : list RuntimeCapabilities) (policy : AcquisitionPolicy) :
    CandidateAvailability :=
  if request_requires request FilesystemWriteOutsideWorktree
  then Forbidden FilesystemWriteOutsideWorktree
  else
    match omap (runtime_unavailable (target_signal_class request)) capabilities with
    | reason :: _ => CandUnavailable reason
    | [] =>
        match filter (λ c, ¬ permits (granted_side_effects policy) c)
                (effective_classes request) with
        | class :: _ => RequiresApproval (side_effect_debug class)
        | [] =>
            if bool_decide (privacy_of request = EgressRequired) && negb (egress_allowed policy)
            then RequiresApproval "FORNAX_CLOUD_SYNC_ENABLED"
            else CandAvailable
        end
    end.

Definition discrimination_for (gap_count : nat) (kind : ProbeKind) : Discrimination :=
  if decide (2 ≤ gap_count) then DiscHigh
  else
    match kind with
    | RerunTest | InspectVcsState | QueryCiStatus => DiscHigh
    | VerifyArtifactHash | BoundedReplayExperiment => DiscModerate
    | HumanReview => DiscLow
    end.
Definition recency_for (kind : ProbeKind) : Recency :=
  match kind with
  | RerunTest | InspectVcsState | QueryCiStatus => FreshObservation
  | VerifyArtifactHash => PossiblyStale
  | BoundedReplayExperiment => FreshObservation
  | HumanReview => HistoricalOnly
  end.
Definition cost_for (kind : ProbeKind) : AcquisitionCost :=
  match kind with
  | VerifyArtifactHash => CostFree
  | InspectVcsState | QueryCiStatus => CostCheap
  | RerunTest => CostModerate
  | BoundedReplayExperiment | HumanReview => CostExpensive
  end.
Definition latency_for (kind : ProbeKind) : AcquisitionLatency :=
  match kind with
  | VerifyArtifactHash => SubSecond
  | InspectVcsState | QueryCiStatus => LatSeconds
  | RerunTest | BoundedReplayExperiment => LatMinutes
  | HumanReview => LatLong
  end.
Definition action_risk_for (kind : ProbeKind) : ActionRisk :=
  match kind with
  | VerifyArtifactHash | InspectVcsState | QueryCiStatus | HumanReview => ReadOnly
  | RerunTest | BoundedReplayExperiment => SandboxedMutation
  end.

(** ** The plan *)

Inductive PlanOutcome := CandidatesRanked | NoUsefulEvidenceAvailable | NoGapIdentified.

Record EvidencePlan := mkEvidencePlan {
  plan_claim_id : Uuid;
  plan_outcome : PlanOutcome;
  gaps : list EvidenceGap;
  candidates : list AcquisitionCandidate;
  unavailable : list AcquisitionCandidate;
  plan_policy_name : string;
  plan_policy_version : N;
  plan_computed_at : string;
}.

Record PlanInput := mkPlanInput {
  pi_claim : Claim;
  pi_graph : EvidenceGraph;
  pi_evidence : list Evidence;
  pi_fused : FusedFinding;
  pi_risk : RiskClass;
  pi_capabilities : list RuntimeCapabilities;
  pi_acquisition : AcquisitionPolicy;
}.

(** The [VoiPolicy] trait. *)
Class VoiPolicy := {
  voi_name : string;
  voi_version : N;
  voi_plan : PlanInput → string → option EvidencePlan;
}.

Local Open Scope Z_scope.
Definition saturating_sub_i32 (a b : Z) : Z :=
  Z.max (-2147483648) (Z.min 2147483647 (a - b)).

Definition score (u : UtilityEstimate) : Z :=
  let discrimination_points :=
    match u_discrimination u with DiscHigh => 60 | DiscModerate => 30 | DiscLow => 10 end in
  let independence_numerator :=
    match u_independence u with
    | IndependentOfCounted => 100
    | PartiallyCorrelated => 40
    | IndUnverified => 70
    | SameSourceAsCounted => 10
    end in
  let gain := Z.quot (discrimination_points * independence_numerator) 100 +
    match u_recency u with FreshObservation => 10 | PossiblyStale => 0 | HistoricalOnly => -10 end in
  let penalty :=
    match u_cost u with CostFree => 0 | CostCheap => 5 | CostModerate => 15 | CostExpensive => 35 end +
    match u_latency u with SubSecond => 0 | LatSeconds => 3 | LatMinutes => 10 | LatLong => 25 end +
    match u_action_risk u with
    | ReadOnly => 0 | SandboxedMutation => 5 | ExternalSideEffect => 20 end +
    match u_privacy u with PrivNone | LocalOnly => 0 | EgressRequired => 2 end in
  saturating_sub_i32 gain penalty.
Local Close Scope Z_scope.

Definition voi_policy_name : string := "deterministic_voi_v1".
Definition voi_policy_version : N := 2.

(** An entry of [by_key]: the request and the gaps it would address. *)
Definition request_key (r : EvidenceRequest) : ProbeKind * string :=
  (req_kind r, signal_class_tag (target_signal_class r)).

Definition add_request (gap_index : nat) (by_key : list (EvidenceRequest * list nat))
    (request : EvidenceRequest) : list (EvidenceRequest * list nat) :=
  match list_find (λ p, request_key p.1 = request_key request) by_key with
  | Some (i, (r, gs)) => <[i := (r, gs ++ [gap_index])]> by_key
  | None => by_key ++ [(request, [gap_index])]
  end.

(** The two nested loops that fill it. *)
Definition requests_by_key (gs : list EvidenceGap) : list (EvidenceRequest * list nat) :=
  foldl (λ by_key p, foldl (add_request p.1) by_key (probes_for_gap p.2)) [] (imap pair gs).

Definition candidate_of (input : PlanInput) (gs : list EvidenceGap)
    (p : EvidenceRequest * list nat) : option AcquisitionCandidate :=
  let '(request, addresses) := p in
  let kind := req_kind request in
  let! ind := independence_of (expected_trust_class request) (pi_fused input)
                (pi_graph input) (pi_evidence input) in
  Some (mkAcquisitionCandidate request
    (mkUtilityEstimate (discrimination_for (length addresses) kind) ind (recency_for kind)
       (cost_for kind) (latency_for kind) (privacy_of request) (action_risk_for kind))
    (classify_availability request (pi_capabilities input) (pi_acquisition input))
    addresses None (omap (λ i, eg_kind <$> gs !! i) addresses)).

(** The comparison of [sort_by], as a key: score descending, then the probe's
    name, then the signal class. *)
Definition plan_key (c : AcquisitionCandidate) : Z * (string * string) :=
  ((- score (cd_utility c))%Z,
   (probe_kind_debug (req_kind (cd_request c)),
    signal_class_tag (target_signal_class (cd_request c)))).

Definition is_rankable (a : CandidateAvailability) : bool :=
  match a with CandAvailable | RequiresApproval _ => true | _ => false end.

Definition with_rank (rank : N) (c : AcquisitionCandidate) : AcquisitionCandidate :=
  mkAcquisitionCandidate (cd_request c) (cd_utility c) (cd_availability c)
    (addresses_gaps c) (Some rank) (why_it_matters c).

Definition plan (input : PlanInput) (computed_at : string) : option EvidencePlan :=
  let! gs := derive_gaps (pi_claim input) (pi_graph input) (pi_evidence input)
               (pi_fused input) (pi_capabilities input) in
  match gs with
  | [] =>
      Some (mkEvidencePlan (claim_id (pi_claim input)) NoGapIdentified [] [] []
              voi_policy_name voi_policy_version computed_at)
  | _ :: _ =>
      let! cs := mapM (candidate_of input gs) (requests_by_key gs) in
      let scored := sort_by_key plan_key cs in
      let ranked := imap (λ i, with_rank (N.of_nat (S i)))
                      (filter (λ c, is_rankable (cd_availability c)) scored) in
      let outcome :=
        if existsb (λ c, match cd_availability c with CandAvailable => true | _ => false end)
             ranked
        then CandidatesRanked else NoUsefulEvidenceAvailable in
      Some (mkEvidencePlan (claim_id (pi_claim input)) outcome gs ranked
              (filter (λ c, negb (is_rankable (cd_availability c))) scored)
              voi_policy_name voi_policy_version computed_at)
  end.

#[export] Instance DeterministicVoiPolicy : VoiPolicy := {
  voi_name := voi_policy_name;
  voi_version := voi_policy_version;
  voi_plan := plan;
}.
