(* ===== verification/VoiSpec.v ===== *)
(** * What an evidence plan guarantees

    The theorems on [Voi]: a plan always exists, it covers every gap, keeps
    one candidate per probe and signal class, ranks by score, and calls
    available only what local policy and the runtimes allow. *)

From S2P Require Import Prelude.
From S2P Require Import Types.
From S2P Require Import Graph.
From S2P Require Import Contract.
From S2P Require Import UnionFind.
From S2P Require Import Independence.
From S2P Require Import Families.
From S2P Require Import Fusion.
From S2P Require Import FusionLemmas.
From S2P Require Import FusionSpec.
From S2P Require Import Decision.
From S2P Require Import PolicyContent.
From S2P Require Import Voi.

Local Open Scope fornax_scope.

(** ** Totality *)

Lemma try_build_total evidence budget : ∃ r, try_build evidence budget = Some r.
Proof.
  destruct (build_total evidence) as [m Hm].
  destruct (try_build_refines evidence budget m Hm) as [-> | ->]; eauto.
Qed.

Lemma derive_gaps_total claim graph evidence fused caps :
  ∃ gs, derive_gaps claim graph evidence fused caps = Some gs.
Proof.
  unfold derive_gaps, family_gaps.
  destruct (try_build_total evidence default_budget) as [r ->]. eauto.
Qed.

Lemma independence_of_total trust fused graph evidence :
  ∃ i, independence_of trust fused graph evidence = Some i.
Proof.
  unfold independence_of. case_decide; [eauto|].
  destruct (try_build_total evidence default_budget) as [r ->]. eauto.
Qed.

(** ** The requests of a list of gaps *)

(** Every probe of every gap, with the index of its gap. *)
Definition probes (gs : list EvidenceGap) : list (nat * EvidenceRequest) :=
  imap pair gs ≫= λ p, pair p.1 <$> probes_for_gap p.2.

Lemma elem_of_probes gs i r :
  (i, r) ∈ probes gs ↔ ∃ g, gs !! i = Some g ∧ r ∈ probes_for_gap g.
Proof.
  unfold probes. rewrite list_elem_of_bind. split.
  - intros ([j g] & Hin & Hj). apply list_elem_of_fmap in Hin as (r' & [= -> ->] & Hr).
    apply elem_of_lookup_imap in Hj as (k & g' & [= -> ->] & Hk). eauto.
  - intros (g & Hg & Hr). exists (i, g). split; [by apply list_elem_of_fmap_2|].
    apply elem_of_lookup_imap. eauto.
Qed.

Lemma requests_by_key_fold gs :
  requests_by_key gs = foldl (λ bk p, add_request p.1 bk p.2) [] (probes gs).
Proof.
  unfold requests_by_key, probes. generalize (@nil (EvidenceRequest * list nat)).
  induction (imap pair gs) as [|[i g] l IH]; intros bk; [done|]. simpl.
  rewrite foldl_app, <- IH. f_equal. revert bk.
  induction (probes_for_gap g) as [|r rs IHr]; intros bk; simpl; [done|apply IHr].
Qed.

(** What the loops have collected from the probes [l]. *)
Record collected (l : list (nat * EvidenceRequest)) (bk : list (EvidenceRequest * list nat)) :
    Prop := {
  col_keys : NoDup ((request_key ∘ fst) <$> bk);
  col_origin : ∀ p, p ∈ bk → ∃ i, (i, p.1) ∈ l;
  col_gaps : ∀ p i, p ∈ bk →
    i ∈ p.2 ↔ ∃ r, (i, r) ∈ l ∧ request_key r = request_key p.1;
  col_covers : ∀ i r, (i, r) ∈ l → ∃ p, p ∈ bk ∧ request_key p.1 = request_key r;
}.

Lemma collected_fresh l bk i r :
  collected l bk → Forall (λ p, request_key p.1 ≠ request_key r) bk →
  collected (l ++ [(i, r)]) (bk ++ [(r, [i])]).
Proof.
  intros [Hk Ho Hg Hc] Hn.
  assert (∀ j r', (j, r') ∈ l → request_key r' ≠ request_key r) as Hn'.
  { intros j r' Hin. destruct (Hc j r' Hin) as (p & Hp & <-).
    eapply (Forall_forall _ _) in Hn; done. }
  split.
  - rewrite fmap_app. apply NoDup_app. split; [done|]. split; [|apply NoDup_singleton].
    intros k (p & -> & Hp)%list_elem_of_fmap Heq%list_elem_of_singleton.
    eapply (Forall_forall _ _) in Hn; [|done]. done.
  - intros p [Hp| ->%list_elem_of_singleton]%elem_of_app.
    + destruct (Ho p Hp) as [j Hj]. eauto with fornax.
    + eauto with fornax.
  - intros p j [Hp| ->%list_elem_of_singleton]%elem_of_app.
    + rewrite (Hg p j Hp). split; [intros (r' & ? & ?); eauto with fornax|].
      intros (r' & [?|Heq%list_elem_of_singleton]%elem_of_app & Hr'); [eauto|].
      injection Heq as -> ->. exfalso. by apply (proj1 (Forall_forall _ _) Hn p Hp).
    + simpl. rewrite list_elem_of_singleton. split.
      * intros ->. eauto with fornax.
      * intros (r' & [Hin|Heq%list_elem_of_singleton]%elem_of_app & Hr'); [|by injection Heq as -> ->].
        by destruct (Hn' j r' Hin).
  - intros j r' [Hin|Heq%list_elem_of_singleton]%elem_of_app.
    + destruct (Hc j r' Hin) as (p & ? & ?). eauto with fornax.
    + injection Heq as -> ->. exists (r, [i]). auto with fornax.
Qed.

Lemma collected_known l bk i r k r0 gs :
  collected l bk → bk !! k = Some (r0, gs) → request_key r0 = request_key r →
  collected (l ++ [(i, r)]) (<[k := (r0, gs ++ [i])]> bk).
Proof.
  intros [Hk Ho Hg Hc] Hbk Hkey.
  assert ((r0, gs) ∈ bk) as Hin0 by by eapply list_elem_of_lookup_2.
  assert (∀ p, p ∈ <[k:=(r0, gs ++ [i])]> bk →
    (p = (r0, gs ++ [i])) ∨ (p ∈ bk ∧ request_key p.1 ≠ request_key r0)) as Hcase.
  { intros p [j Hj]%list_elem_of_lookup.
    apply list_lookup_insert_Some in Hj as [(-> & <- & _)|[Hne Hj]]; [by left|].
    right. split; [by eapply list_elem_of_lookup_2|]. intros Heq. apply Hne.
    eapply NoDup_lookup; [exact Hk|..]; rewrite list_lookup_fmap.
    - by rewrite Hbk.
    - rewrite Hj. simpl. by rewrite Heq. }
  split.
  - rewrite list_fmap_insert. simpl. rewrite list_insert_id; [done|].
    by rewrite list_lookup_fmap, Hbk.
  - intros p [->|[Hp _]]%Hcase.
    + destruct (Ho _ Hin0) as [j Hj]. eauto with fornax.
    + destruct (Ho p Hp) as [j Hj]. eauto with fornax.
  - intros p j [->|[Hp Hne]]%Hcase; simpl.
    + rewrite elem_of_app, (Hg _ j Hin0), list_elem_of_singleton. simpl. split.
      * intros [(r' & ? & ?)| ->]; eauto with fornax.
      * intros (r' & [?|Heq%list_elem_of_singleton]%elem_of_app & Hr'); [eauto|].
        injection Heq as -> ->. by right.
    + rewrite (Hg p j Hp). split; [intros (r' & ? & ?); eauto with fornax|].
      intros (r' & [?|Heq%list_elem_of_singleton]%elem_of_app & Hr'); [eauto|].
      injection Heq as -> ->. exfalso. apply Hne. congruence.
  - intros j r' [Hin|Heq%list_elem_of_singleton]%elem_of_app; last first.
    { injection Heq as -> ->. exists (r0, gs ++ [i]). split; [|done].
      apply list_elem_of_lookup. exists k. by eapply list_lookup_insert_eq, lookup_lt_Some. }
    destruct (Hc j r' Hin) as (p & Hp & Hpk). apply list_elem_of_lookup in Hp as [m Hm].
    destruct (decide (m = k)) as [->|Hne].
    + exists (r0, gs ++ [i]). split; [|by rewrite Hbk in Hm; injection Hm as <-].
      apply list_elem_of_lookup. exists k. by eapply list_lookup_insert_eq, lookup_lt_Some.
    + exists p. split; [|done]. apply list_elem_of_lookup. exists m.
      by rewrite list_lookup_insert_ne.
Qed.

Lemma requests_collected gs : collected (probes gs) (requests_by_key gs).
Proof.
  rewrite requests_by_key_fold. induction (probes gs) as [|[i r] l IH] using rev_ind.
  - split; simpl; [constructor| | |].
    + by intros ? ?%elem_of_nil.
    + by intros ?? ?%elem_of_nil.
    + by intros ?? ?%elem_of_nil.
  - rewrite foldl_app. simpl. unfold add_request.
    destruct (list_find _ _) as [[k [r0 js]]|] eqn:Hf.
    + apply list_find_Some in Hf as (Hk & Hkey & _). by apply collected_known.
    + apply list_find_None in Hf. by apply collected_fresh.
Qed.

(** ** Availability *)

(** What local policy and the runtimes allow. *)
Definition allowed_by (policy : AcquisitionPolicy) (caps : list RuntimeCapabilities)
    (r : EvidenceRequest) : Prop :=
  (∀ class, permits (required_side_effects r) class = true →
     class ≠ FilesystemWriteOutsideWorktree ∧
     permits (granted_side_effects policy) class = true) ∧
  (permits (required_side_effects r) NetworkCall = true → egress_allowed policy = true) ∧
  ∀ cap, cap ∈ caps →
    state_of cap (target_signal_class r) ∉ [Unsupported; SigUnavailable; Disabled].

Lemma elem_of_effective_classes r class :
  class ∈ effective_classes r ↔ permits (required_side_effects r) class = true.
Proof.
  unfold effective_classes. rewrite list_elem_of_filter, Is_true_true. split; [naive_solver|].
  intros Hp. split; [done|]. destruct class; set_solver.
Qed.

(** A candidate is available exactly when its request is allowed. *)
Lemma classify_available_iff r caps policy :
  classify_availability r caps policy = CandAvailable ↔ allowed_by policy caps r.
Proof.
  unfold classify_availability, request_requires, allowed_by. case_bool_decide as Hfs.
  { split; [done|]. intros (Hp & _). apply elem_of_effective_classes in Hfs.
    by destruct (Hp _ Hfs). }
  assert (∀ class, permits (required_side_effects r) class = true →
    class ≠ FilesystemWriteOutsideWorktree) as Hnfs.
  { intros class Hc ->. by apply Hfs, elem_of_effective_classes. }
  destruct (omap _ caps) as [|u us] eqn:Hom; last first.
  { split; [done|]. intros (_ & _ & Hcap).
    assert (u ∈ omap (runtime_unavailable (target_signal_class r)) caps) as Hu
      by (rewrite Hom; left).
    apply list_elem_of_omap in Hu as (cap & Hin & Hu). specialize (Hcap cap Hin).
    unfold runtime_unavailable in Hu. destruct (state_of cap _); set_solver. }
  assert (∀ cap, cap ∈ caps →
    state_of cap (target_signal_class r) ∉ [Unsupported; SigUnavailable; Disabled]) as Hcap.
  { intros cap Hin Hst. assert (∃ u, runtime_unavailable (target_signal_class r) cap = Some u)
      as [u Hu].
    { unfold runtime_unavailable. destruct (state_of cap _); eauto; set_solver. }
    assert (u ∈ omap (runtime_unavailable (target_signal_class r)) caps) as Hn
      by (apply list_elem_of_omap; eauto).
    rewrite Hom in Hn. by apply elem_of_nil in Hn. }
  destruct (filter _ (effective_classes r)) as [|c cs] eqn:Hf; last first.
  { split; [done|]. intros (Hp & _).
    assert (c ∈ filter (λ c, ¬ permits (granted_side_effects policy) c) (effective_classes r))
      as [Hn Hc]%list_elem_of_filter by (rewrite Hf; left).
    apply elem_of_effective_classes, Hp in Hc as [_ Hc]. by rewrite Hc in Hn. }
  assert (∀ class, permits (required_side_effects r) class = true →
    permits (granted_side_effects policy) class = true) as Hgrant.
  { intros class Hc. destruct (permits (granted_side_effects policy) class) eqn:Hg; [done|].
    assert (class ∈ filter (λ c, ¬ permits (granted_side_effects policy) c)
      (effective_classes r)) as Hn.
    { apply list_elem_of_filter. rewrite Hg. split; [by intros []|].
      by apply elem_of_effective_classes. }
    rewrite Hf in Hn. by apply elem_of_nil in Hn. }
  unfold privacy_of. destruct (permits (required_side_effects r) NetworkCall) eqn:Hnet; simpl.
  - destruct (egress_allowed policy); simpl; naive_solver.
  - naive_solver.
Qed.

(** ** The plan *)

Lemma candidate_of_total input gs p :
  ∃ c, candidate_of input gs p = Some c ∧ cd_request c = p.1 ∧ addresses_gaps c = p.2 ∧
    cd_availability c =
      classify_availability p.1 (pi_capabilities input) (pi_acquisition input).
Proof.
  destruct p as [r js]. unfold candidate_of.
  destruct (independence_of_total (expected_trust_class r) (pi_fused input) (pi_graph input)
    (pi_evidence input)) as [ind ->]. by eexists.
Qed.

(** The candidates before ranking: one for each collected request. *)
Definition drawn_from (input : PlanInput) (p : EvidenceRequest * list nat)
    (c : AcquisitionCandidate) : Prop :=
  cd_request c = p.1 ∧ addresses_gaps c = p.2 ∧
  cd_availability c = classify_availability p.1 (pi_capabilities input) (pi_acquisition input).

Lemma candidates_total input gs bk :
  ∃ cs, mapM (candidate_of input gs) bk = Some cs ∧ Forall2 (drawn_from input) bk cs.
Proof.
  induction bk as [|p bk (cs & Hcs & HF)]; [by exists []|].
  destruct (candidate_of_total input gs p) as (c & Hc & Hd).
  exists (c :: cs). simpl. rewrite Hc. simpl. rewrite Hcs. split; [done|]. by constructor.
Qed.

(** The ranked candidates are the rankable ones of the sorted list. *)
Definition same_candidate (c d : AcquisitionCandidate) : Prop :=
  cd_request c = cd_request d ∧ cd_utility c = cd_utility d ∧
  cd_availability c = cd_availability d ∧ addresses_gaps c = addresses_gaps d.

(** A plan covers its gaps: every probe of every gap is a candidate that
    addresses it, each candidate is a probe of one of them, and there is one
    per probe kind and signal class. *)
Definition covers_gaps (gs : list EvidenceGap) (cs : list AcquisitionCandidate) : Prop :=
  NoDup ((request_key ∘ cd_request) <$> cs) ∧
  (∀ i g r, gs !! i = Some g → r ∈ probes_for_gap g →
     ∃ c, c ∈ cs ∧ request_key (cd_request c) = request_key r ∧ i ∈ addresses_gaps c) ∧
  (∀ c, c ∈ cs →
     (∃ i g, gs !! i = Some g ∧ cd_request c ∈ probes_for_gap g) ∧
     ∀ i, i ∈ addresses_gaps c → ∃ g r, gs !! i = Some g ∧ r ∈ probes_for_gap g ∧
       request_key r = request_key (cd_request c)).

Lemma drawn_covers input gs cs :
  Forall2 (drawn_from input) (requests_by_key gs) cs → covers_gaps gs cs.
Proof.
  intros HF. destruct (requests_collected gs) as [Hk Ho Hg Hc]. split; [|split].
  - replace ((request_key ∘ cd_request) <$> cs)
      with ((request_key ∘ fst) <$> requests_by_key gs); [done|].
    clear -HF. induction HF as [|p c l k [Hr _] _ IH]; csimpl; [done|]. by rewrite Hr, IH.
  - intros i g r Hi Hr. assert ((i, r) ∈ probes gs) as Hp by (apply elem_of_probes; eauto).
    destruct (Hc i r Hp) as (p & Hin & Hkey).
    destruct (Forall2_elem_of_l _ _ _ _ HF Hin) as (c & Hcin & Hcr & Hca & _).
    exists c. rewrite Hcr, Hca. split; [done|]. split; [done|].
    apply (Hg p i Hin). eauto.
  - intros c Hcin. destruct (Forall2_elem_of_r _ _ _ _ HF Hcin) as (p & Hin & Hcr & Hca & _).
    rewrite Hcr, Hca. split.
    + destruct (Ho p Hin) as [i (g & ? & ?)%elem_of_probes]. eauto.
    + intros i (r & (g & ? & ?)%elem_of_probes & ?)%(Hg p i Hin). eauto.
Qed.

Lemma covers_gaps_same gs cs ds :
  covers_gaps gs cs → Forall2 same_candidate cs ds → covers_gaps gs ds.
Proof.
  intros (Hnd & Hcov & Horig) HF. split; [|split].
  - replace ((request_key ∘ cd_request) <$> ds) with ((request_key ∘ cd_request) <$> cs);
      [done|].
    clear -HF. induction HF as [|c d l k [Hr _] _ IH]; csimpl; [done|]. by rewrite Hr, IH.
  - intros i g r Hi Hr. destruct (Hcov i g r Hi Hr) as (c & Hin & Hkey & Hadd).
    destruct (Forall2_elem_of_l _ _ _ _ HF Hin) as (d & Hd & Hrq & _ & _ & Ha).
    exists d. by rewrite <- Hrq, <- Ha.
  - intros d Hd. destruct (Forall2_elem_of_r _ _ _ _ HF Hd) as (c & Hin & Hrq & _ & _ & Ha).
    rewrite <- Hrq, <- Ha. by apply Horig.
Qed.

Lemma covers_gaps_perm gs cs ds : covers_gaps gs cs → cs ≡ₚ ds → covers_gaps gs ds.
Proof.
  intros (Hnd & Hcov & Horig) Hp. split; [by rewrite <- Hp|]. split.
  - intros i g r Hi Hr. destruct (Hcov i g r Hi Hr) as (c & Hin & ?). exists c.
    by rewrite <- Hp.
  - intros c. rewrite <- Hp. apply Horig.
Qed.

(** The order and the numbering of the ranked candidates. *)
Definition ranked_by_score (cs : list AcquisitionCandidate) : Prop :=
  (∀ i c, cs !! i = Some c → cd_rank c = Some (N.of_nat (S i))) ∧
  (∀ i j c d, i < j → cs !! i = Some c → cs !! j = Some d →
     (score (cd_utility d) ≤ score (cd_utility c))%Z).

Lemma ranked_same f (l : list AcquisitionCandidate) :
  (∀ i c, same_candidate c (f i c)) → Forall2 same_candidate l (imap f l).
Proof.
  revert f. induction l as [|c l IH]; intros f Hf; [done|]. rewrite imap_cons.
  constructor; [done|]. apply IH. intros i d. apply Hf.
Qed.

Lemma ranked_sorted cs :
  ranked_by_score (imap (λ i, with_rank (N.of_nat (S i)))
    (filter (λ c, is_rankable (cd_availability c)) (sort_by_key plan_key cs))).
Proof.
  split.
  - intros i c. rewrite list_lookup_imap, fmap_Some. by intros (d & _ & ->).
  - intros i j c d Hij. rewrite !list_lookup_imap, !fmap_Some.
    intros (c0 & Hc & ->) (d0 & Hd & ->). simpl.
    assert (key_le plan_key c0 d0) as Hle.
    { eapply StronglySorted_lookup; [|done..]. apply StronglySorted_filter, sort_by_key_sorted. }
    destruct Hle as [[Hle _]|[Heq _]]; unfold ord_le, Z_ord in *; simpl in *; lia.
Qed.

Lemma same_with_rank n c : same_candidate c (with_rank n c).
Proof. by split. Qed.

Lemma filter_split {A} (P : A → bool) (l : list A) :
  filter (λ x, P x) l ++ filter (λ x, negb (P x)) l ≡ₚ l.
Proof.
  induction l as [|x l IH]; [done|]. rewrite !filter_cons.
  destruct (P x) eqn:HP; simpl.
  - by rewrite IH.
  - by rewrite <- Permutation_middle, IH.
Qed.

Section ranking.
Context (input : PlanInput) (gs : list EvidenceGap) (cs : list AcquisitionCandidate).
Context (Hcs : Forall2 (drawn_from input) (requests_by_key gs) cs).

Local Definition scored := sort_by_key plan_key cs.
Local Definition ranked :=
  imap (λ i, with_rank (N.of_nat (S i))) (filter (λ c, is_rankable (cd_availability c)) scored).
Local Definition unranked := filter (λ c, negb (is_rankable (cd_availability c))) scored.

Lemma ranked_from_scored :
  Forall2 same_candidate
    (filter (λ c, is_rankable (cd_availability c)) scored ++ unranked) (ranked ++ unranked).
Proof.
  apply Forall2_app.
  - apply ranked_same. intros. apply same_with_rank.
  - apply Forall_Forall2_diag, Forall_true. by split.
Qed.

Lemma ranked_covers : covers_gaps gs (ranked ++ unranked).
Proof.
  eapply covers_gaps_same; [|apply ranked_from_scored].
  eapply covers_gaps_perm; [by eapply drawn_covers|].
  unfold unranked. rewrite (filter_split (λ c, is_rankable (cd_availability c))).
  by rewrite (sort_by_key_Permutation plan_key cs : scored ≡ₚ cs).
Qed.

Lemma ranked_availability c :
  c ∈ ranked ++ unranked →
  cd_availability c =
    classify_availability (cd_request c) (pi_capabilities input) (pi_acquisition input).
Proof.
  intros Hc. destruct (Forall2_elem_of_r _ _ _ _ ranked_from_scored Hc)
    as (d & Hd & Hr & _ & Ha & _). rewrite <- Ha, <- Hr.
  unfold unranked in Hd. rewrite (filter_split (λ c, is_rankable (cd_availability c))) in Hd.
  apply elem_of_sort_by_key in Hd.
  destruct (Forall2_elem_of_r _ _ _ _ Hcs Hd) as (p & _ & -> & _ & ->). done.
Qed.

Lemma elem_of_ranked c :
  c ∈ ranked ++ unranked → c ∈ ranked ↔ is_rankable (cd_availability c).
Proof.
  assert (∀ c, c ∈ ranked → is_rankable (cd_availability c)) as Hr.
  { intros d (i & e & -> & He)%elem_of_lookup_imap.
    by apply list_elem_of_lookup_2, list_elem_of_filter in He as [He _]. }
  intros [Hc|Hc]%elem_of_app; [by split; [apply Hr|]|]. split; [apply Hr|].
  apply list_elem_of_filter in Hc as [Hn _]. by destruct (is_rankable (cd_availability c)).
Qed.
End ranking.

(** C7. An evidence plan is always produced, and it is exact: it says that
    there is no gap exactly when there is none; otherwise every probe that
    could close one of its gaps is listed, once per probe kind and signal
    class and with the gaps it addresses, and nothing else is; candidates are
    numbered from 1 by falling score; a candidate is called available exactly
    when every side effect it needs is granted, none writes outside the
    worktree, network access comes with permitted egress and no runtime has
    its signal class unsupported, unavailable or disabled; and the plan
    promises candidates exactly when one is available. *)
Theorem plan_exact (input : PlanInput) (computed_at : string) :
  ∃ p, plan input computed_at = Some p ∧
    derive_gaps (pi_claim input) (pi_graph input) (pi_evidence input) (pi_fused input)
      (pi_capabilities input) = Some (gaps p) ∧
    (plan_outcome p = NoGapIdentified ↔ gaps p = []) ∧
    covers_gaps (gaps p) (candidates p ++ unavailable p) ∧
    ranked_by_score (candidates p) ∧
    (∀ c, c ∈ candidates p ++ unavailable p →
       (cd_availability c = CandAvailable ↔
        allowed_by (pi_acquisition input) (pi_capabilities input) (cd_request c)) ∧
       (c ∈ candidates p ↔ is_rankable (cd_availability c))) ∧
    (plan_outcome p = CandidatesRanked ↔
       ∃ c, c ∈ candidates p ∧ cd_availability c = CandAvailable).
Proof.
  unfold plan. destruct (derive_gaps_total (pi_claim input) (pi_graph input) (pi_evidence input)
    (pi_fused input) (pi_capabilities input)) as [gs ->].
  destruct gs as [|g gs'].
  { eexists. split; [done|]. split; [done|]. split; [done|]. simpl. split_and!.
    - split; [constructor|]. split; [by intros i g r Hg|by intros c ?%elem_of_nil].
    - by split.
    - by intros c ?%elem_of_nil.
    - split; [done|]. by intros (c & ?%elem_of_nil & _). }
  set (gs := g :: gs'). destruct (candidates_total input gs (requests_by_key gs))
    as (cs & -> & Hcs). fold (scored cs). fold (ranked cs). fold (unranked cs).
  eexists. split; [done|]. split; [done|]. simpl. split; [by destruct (existsb _ _)|].
  split; [by apply (ranked_covers input)|]. split; [apply ranked_sorted|]. split.
  - intros c Hc. split; [|by eapply elem_of_ranked].
    rewrite (ranked_availability input gs cs Hcs c Hc). apply classify_available_iff.
  - destruct (existsb _ _) eqn:He.
    + split; [|done]. intros _. apply existsb_exists in He as (c & Hc%list_elem_of_In & Ha).
      exists c. split; [done|]. by destruct (cd_availability c).
    + split; [done|]. intros (c & Hc & Ha). apply not_true_iff_false in He. destruct He.
      apply existsb_exists. exists c. rewrite Ha. split; [by apply list_elem_of_In|done].
Qed.

(** Documentation says that every finding other than a verified, corroborated
    one has a gap. An unverified one whose only note is of unknown
    availability has none. *)
Definition silent_graph : EvidenceGraph :=
  mkEvidenceGraph [] [mkMissingEvidence 1 "s" 9 ToolTrace Unknown None "2026-01-01T00:00:00Z"].
Definition silent_finding : FusedFinding :=
  match fuse (H := sample_chrono) (mkFusionInput sample_claim silent_graph []) "now" with
  | Some ff => ff
  | None => fused clean_input
  end.
Example unverified_without_gap :
  ff_verdict silent_finding = Unverified ∧
  derive_gaps sample_claim silent_graph [] silent_finding [] = Some [].
Proof. vm_compute. done. Qed.
