(* ===== verification/ContractSat.v ===== *)
(** * Contract satisfaction

    [fornax-verify/src/contract_satisfaction.rs]: the assessment of a claim
    against its contract, hardened against duplicated records and against
    records of one source that pose as independent, the capability check, the
    recommendation floor and the gaps; and the representative contracts of
    [fornax-types/src/epistemic_contract.rs] with the registry made of them.

    A [HashSet]'s iteration order is not specified: where the source iterates
    over one into a list, the order is that of the parameter [hash_iter]. *)

From S2P Require Import Prelude.
From S2P Require Import Types.
From S2P Require Import Graph.
From S2P Require Import Contract.
From S2P Require Import UnionFind.
From S2P Require Import Independence.
From S2P Require Import Fusion.
From S2P Require Import Decision.
From S2P Require Import PolicyContent.
From S2P Require Import Voi.

Local Open Scope fornax_scope.

(** The order in which the set stripped from a requirement is visited. *)
Class HashOrder := { hash_iter : string → gset Uuid → list Uuid }.
Class HashOrderOk `{HashOrder} : Prop :=
  hash_iter_elements : ∀ k s, hash_iter k s ≡ₚ elements s.

Definition trust_class_of (evidence : Evidence) : option TrustClass :=
  trust_class <$> ev_source evidence.

Record FamilyIndependenceViolation := mkFamilyIndependenceViolation {
  fv_requirement_id : string;
  shared_with_requirement_id : string;
  fv_evidence_id : Uuid;
}.

Record SatisfactionReport := mkSatisfactionReport {
  assessment : ClaimAssessment;
  family_violations : list FamilyIndependenceViolation;
}.

Fixpoint dedupe_by_id (seen : gset Uuid) (evidence : list Evidence) : list Evidence :=
  match evidence with
  | [] => []
  | e :: evidence =>
      if decide (ev_id e ∈ seen) then dedupe_by_id seen evidence
      else e :: dedupe_by_id ({[ev_id e]} ∪ seen) evidence
  end.

Definition recompute_overall (per : list RequirementAssessment) : SatisfactionState :=
  default SSatisfied
    (foldl (λ worst ra,
       Some match worst with
            | Some w => if decide (state_rank (ra_state ra) ≤ state_rank w) then w else ra_state ra
            | None => ra_state ra
            end) None (filter (λ ra, blocks ra) per)).

Definition with_state (ra : RequirementAssessment) (s : SatisfactionState) :
    RequirementAssessment :=
  mkRequirementAssessment (requirement_id ra) (ra_level ra) s (matched_evidence ra)
    (rejected_evidence ra).

(** The budget-exceeded branch: what rests on the family map becomes
    [Unknown]. *)
Definition without_family (req : EvidenceRequirement) (ra : RequirementAssessment) :
    RequirementAssessment :=
  match independence req with
  | NoIndependence => ra
  | MustBeIndependentOf _ =>
      if bool_decide (requirement_id ra = er_id req ∧ ra_state ra = SSatisfied)
      then with_state ra SUnknown else ra
  end.
Definition unknown_without_families (reqs : list EvidenceRequirement)
    (per : list RequirementAssessment) : list RequirementAssessment :=
  foldl (λ per req, without_family req <$> per) per reqs.

Definition matched_by_id (per : list RequirementAssessment) : gmap string (list Uuid) :=
  matched_evidence <$> collect_by requirement_id per.

(** The violations of one requirement, in the order of the nested loops. *)
Definition violations_of (fams : SourceFamilyMap) (matched : gmap string (list Uuid))
    (req : EvidenceRequirement) : list FamilyIndependenceViolation :=
  match independence req, matched !! er_id req with
  | MustBeIndependentOf other_ids, Some mine =>
      other_id ← other_ids;
      match matched !! other_id with
      | None => []
      | Some other_matched =>
          omap (λ mine_id,
            family ← family_of fams mine_id;
            if existsb (λ other_ev, bool_decide (other_ev ∈ evidence_ids family)) other_matched
            then Some (mkFamilyIndependenceViolation (er_id req) other_id mine_id)
            else None) mine
      end
  | _, _ => []
  end.

(** [strip]: the evidence ids to take from each requirement. *)
Definition strip_map (vs : list FamilyIndependenceViolation) : gmap string (gset Uuid) :=
  foldl (λ m v, <[fv_requirement_id v :=
                    {[fv_evidence_id v]} ∪ default ∅ (m !! fv_requirement_id v)]> m) ∅ vs.

Section hardening.
Context `{HashOrder}.

Definition strip_requirement (min_by_id : gmap string N) (strip : gmap string (gset Uuid))
    (ra : RequirementAssessment) : RequirementAssessment :=
  match strip !! requirement_id ra with
  | None => ra
  | Some strip_ids =>
      let matched := filter (λ id, id ∉ strip_ids) (matched_evidence ra) in
      let rejected_ := rejected_evidence ra ++
        ((λ id, mkRejectedEvidence id ClaimedByIndependentRequirement)
           <$> hash_iter (requirement_id ra) strip_ids) in
      let min_items_ := default 1%N (min_by_id !! requirement_id ra) in
      let state :=
        if bool_decide (as_u32 (N.of_nat (length matched)) < min_items_)%N &&
           bool_decide (ra_state ra = SSatisfied)
        then SUnsatisfied else ra_state ra in
      mkRequirementAssessment (requirement_id ra) (ra_level ra) state matched rejected_
  end.

Definition harden (fams : SourceFamilyMap) (reqs : list EvidenceRequirement)
    (a : ClaimAssessment) : SatisfactionReport :=
  let violations := reqs ≫= violations_of fams (matched_by_id (per_requirement a)) in
  match violations with
  | [] => mkSatisfactionReport a []
  | _ :: _ =>
      let min_by_id := (min_items ∘ min_coverage) <$> collect_by er_id reqs in
      let per := strip_requirement min_by_id (strip_map violations) <$> per_requirement a in
      mkSatisfactionReport (mkClaimAssessment (ca_claim_class a) per (recompute_overall per))
        violations
  end.

Definition assess `{Chrono} (reg : ContractRegistry) (claim_class : ClaimClassId)
    (claim : Claim) (evidence : list Evidence) (conditions_met : list string) :
    option (result ContractError SatisfactionReport) :=
  let deduped := dedupe_by_id ∅ evidence in
  let!? a := assess_claim reg claim_class claim deduped conditions_met trust_class_of in
  match lookup_contract reg claim_class with
  | LookupUnknown => Some (Ok (mkSatisfactionReport a []))
  | Found _ =>
      let!? reqs := effective_requirements reg claim_class in
      let! fams := try_build deduped default_budget in
      Some (Ok match fams with
      | Err _ =>
          let per := unknown_without_families reqs (per_requirement a) in
          mkSatisfactionReport
            (mkClaimAssessment (ca_claim_class a) per (recompute_overall per)) []
      | Ok fams => harden fams reqs a
      end)
  end.

(** ** Capabilities *)

Record CapabilityViolation := mkCapabilityViolation {
  cv_requirement_id : string;
  missing_capabilities : list SignalClass;
}.

Definition missing_prerequisites (available : list SignalClass) (req : EvidenceRequirement) :
    list SignalClass :=
  filter (λ c, c ∉ available) (capability_prerequisites req).

(** [iter_mut().find(...)] and its update, with the flag [changed]. *)
Definition revoke_first (id : string) (per : list RequirementAssessment) :
    list RequirementAssessment * bool :=
  match list_find (λ ra, requirement_id ra = id) per with
  | Some (i, ra) =>
      if decide (ra_state ra = SSatisfied)
      then (<[i := mkRequirementAssessment (requirement_id ra) (ra_level ra) SUnavailable []
                     (rejected_evidence ra)]> per, true)
      else (per, false)
  | None => (per, false)
  end.

Fixpoint capability_loop (available : list SignalClass) (reqs : list EvidenceRequirement)
    (per : list RequirementAssessment) (changed : bool) :
    list RequirementAssessment * bool * list CapabilityViolation :=
  match reqs with
  | [] => (per, changed, [])
  | req :: reqs =>
      match missing_prerequisites available req with
      | [] => capability_loop available reqs per changed
      | missing =>
          let '(per, c) := revoke_first (er_id req) per in
          let '(per, changed, vs) := capability_loop available reqs per (changed || c) in
          (per, changed, mkCapabilityViolation (er_id req) missing :: vs)
      end
  end.

Definition assess_with_capabilities `{Chrono} (reg : ContractRegistry)
    (claim_class : ClaimClassId) (claim : Claim) (evidence : list Evidence)
    (conditions_met : list string) (available : list SignalClass) :
    option (result ContractError (SatisfactionReport * list CapabilityViolation)) :=
  let!? report := assess reg claim_class claim evidence conditions_met in
  match lookup_contract reg claim_class with
  | LookupUnknown => Some (Ok (report, []))
  | Found _ =>
      let!? reqs := effective_requirements reg claim_class in
      let a := assessment report in
      let '(per, changed, vs) := capability_loop available reqs (per_requirement a) false in
      let overall_ := if changed : bool then recompute_overall per else overall a in
      Some (Ok (mkSatisfactionReport (mkClaimAssessment (ca_claim_class a) per overall_)
                  (family_violations report), vs))
  end.
End hardening.

(** ** The floor and the gaps *)

Definition apply_contract_floor (rec : Recommendation) (a : ClaimAssessment) : Recommendation :=
  if decide (overall a = SSatisfied) then rec
  else if decide (rec_action rec ≠ Proceed) then rec
  else mkRecommendation (rec_claim_id rec) ReviewAction (rec_risk_class rec)
         (rec_policy_name rec) (rec_policy_version rec)
         (SContractFloor (rationale_summary rec) (ca_claim_class a) (overall a)).

Definition gap_from_requirement (claim_id : Uuid) (ra : RequirementAssessment) :
    option EvidenceGap :=
  match ra_state ra with
  | SSatisfied | SNotApplicable | SUnknown => None
  | state =>
      Some (mkEvidenceGap (ContractObligationUnmet (requirement_id ra) state) claim_id [] []
              (GContract (requirement_id ra) (ra_level ra) state))
  end.
Definition gaps_from_assessment (claim_id : Uuid) (a : ClaimAssessment) : list EvidenceGap :=
  omap (gap_from_requirement claim_id) (per_requirement a).

(** ** Representative contracts *)

Definition contract_v1 (name : string) (reqs : list EvidenceRequirement) : EpistemicContract :=
  mkEpistemicContract (mkClaimClassId name 1) EPISTEMIC_CONTRACT_SCHEMA_VERSION None reqs.

Definition tests_passed : EpistemicContract :=
  contract_v1 "tests_passed"
    [mkEvidenceRequirement "test_runner_exit_code" Required ExitCode [HostObserved]
       (Perishable 3600) NoIndependence single [ProcessResult] None;
     mkEvidenceRequirement "provider_tool_result_corroboration" Recommended ToolResult
       [AgentAdjacent] Durable (MustBeIndependentOf ["test_runner_exit_code"]) single [] None].

Definition build_succeeded : EpistemicContract :=
  contract_v1 "build_succeeded"
    [mkEvidenceRequirement "build_exit_code" Required ExitCode [HostObserved]
       (Perishable 3600) NoIndependence single [ProcessResult] None].

Definition file_changed : EpistemicContract :=
  contract_v1 "file_changed"
    [mkEvidenceRequirement "file_diff_observed" Required FileDiff [HostObserved; AgentAdjacent]
       Durable NoIndependence single [] None].

Definition commit_push_completed : EpistemicContract :=
  contract_v1 "commit_push_completed"
    [mkEvidenceRequirement "vcs_operation_observed" Required ProcessObservation [HostObserved]
       Durable NoIndependence single [] None;
     mkEvidenceRequirement "remote_ref_independent_confirmation"
       (Conditional "claim asserts a push to a shared/remote ref") ProcessObservation
       [IndependentExternal] (Perishable 86400)
       (MustBeIndependentOf ["vcs_operation_observed"]) single []
       (Some "change-management evidence trail for shared history")].

Definition deployment_healthy : EpistemicContract :=
  contract_v1 "deployment_healthy"
    [mkEvidenceRequirement "independent_health_check" Required ProcessObservation
       [IndependentExternal] (Perishable 300) NoIndependence single []
       (Some "production change-safety gate")].

Definition security_defect_fixed : EpistemicContract :=
  contract_v1 "security_defect_fixed"
    [mkEvidenceRequirement "regression_test_exit_code" Required ExitCode [HostObserved]
       (Perishable 3600) NoIndependence single [ProcessResult] None;
     mkEvidenceRequirement "human_security_review" Required TranscriptExcerpt [HumanReviewed]
       Durable (MustBeIndependentOf ["regression_test_exit_code"]) single []
       (Some "security-defect claims require a human-reviewed disposition, not agent self-attestation alone")].

Definition all_contracts : list EpistemicContract :=
  [tests_passed; build_succeeded; file_changed; commit_push_completed; deployment_healthy;
   security_defect_fixed].

(** [default_registry]; [None] is the panic of its [expect]. *)
Definition default_registry : option ContractRegistry :=
  foldl (λ reg c,
    let! reg := reg in
    match register reg c with Ok reg => Some reg | Err _ => None end) (Some ∅) all_contracts.
