(* ===== verification/ContractSpec.v ===== *)
(** * What a satisfied contract certifies

    The theorems on [Contract] and [ContractSat]: resolving a contract's
    requirements terminates on every registry and never drops or weakens, in
    the compared dimensions, what an ancestor declared; and a contract that is
    assessed as satisfied rests on enough distinct, qualifying and independent
    records for every requirement that binds. *)

From S2P Require Import Prelude.
From S2P Require Import Types.
From S2P Require Import Graph.
From S2P Require Import Contract.
From S2P Require Import UnionFind.
From S2P Require Import Independence.
From S2P Require Import Families.
From S2P Require Import Fusion.
From S2P Require Import FusionLemmas.
From S2P Require Import FusionSpec.
From S2P Require Import Calibration.
From S2P Require Import Decision.
From S2P Require Import PolicyContent.
From S2P Require Import Voi.
From S2P Require Import ContractSat.

Local Open Scope fornax_scope.

(** ** Inheritance *)

Definition parent_of (reg : ContractRegistry) (a b : ClaimClassId) : Prop :=
  ∃ c, reg !! a = Some c ∧ ec_parent c = Some b.

(** The chain of contracts from a class to its root. *)
Inductive ancestry (reg : ContractRegistry) : ClaimClassId → list ClaimClassId → Prop :=
| ancestry_root cc c : reg !! cc = Some c → ec_parent c = None → ancestry reg cc [cc]
| ancestry_step cc p ch : parent_of reg cc p → ancestry reg p ch → ancestry reg cc (cc :: ch).

(** [q] keeps what [p] asks for in the dimensions [compose] compares. *)
Record keeps (p q : EvidenceRequirement) : Prop := {
  keeps_level : strictness_rank (er_level p) ≤ strictness_rank (er_level q);
  keeps_coverage : (min_items (min_coverage p) ≤ min_items (min_coverage q))%N;
  keeps_trust : er_level p = Required →
    acceptable_trust_classes p ⊆ acceptable_trust_classes q;
}.

#[export] Instance keeps_reflexive : Reflexive keeps.
Proof. intros p. split; [done|lia|done]. Qed.
#[export] Instance keeps_transitive : Transitive keeps.
Proof.
  intros p q r [L1 C1 T1] [L2 C2 T2]. split; [lia|lia|].
  intros Hp. etrans; [by apply T1|]. apply T2.
  rewrite Hp in L1. destruct (er_level q); simpl in *; [done|lia..].
Qed.

Lemma weakening_None p q : weakening p q = None ↔ keeps p q.
Proof.
  unfold weakening. split.
  - case_decide as HL; [done|]. case_decide as HC; [done|]. intros Ht.
    split; [lia|lia|]. intros Hp t Hin. rewrite bool_decide_true in Ht by done.
    simpl in Ht. destruct (forallb _ _) eqn:E; [|done].
    apply Is_true_true_2, forallb_True in E.
    apply (bool_decide_unpack _). by eapply (Forall_forall _ _) in E.
  - intros [L C T]. rewrite decide_False by lia. rewrite decide_False by lia.
    case_bool_decide as Hp; [|done]. simpl.
    destruct (forallb _ _) eqn:E; [done|]. exfalso. apply not_true_iff_false in E.
    apply E, Is_true_true, forallb_True, Forall_forall. intros t Hin.
    by apply bool_decide_pack, T.
Qed.

(** What the requirements of one contract declare for an id: the last one. *)
Definition declared (c : EpistemicContract) : gmap string EvidenceRequirement :=
  collect_by er_id (requirements c).

Lemma foldl_insert_collect (own : list EvidenceRequirement) merged :
  foldl (λ m req, <[er_id req := req]> m) merged own = collect_by er_id own ∪ merged.
Proof.
  induction own as [|req own IH] using rev_ind.
  - unfold collect_by; simpl. by rewrite (left_id_L ∅ (∪)).
  - by rewrite foldl_app, collect_by_snoc, <- insert_union_l, <- IH.
Qed.

(** A composed set has what the contract declares and, for the other ids, what
    it inherits; every inherited requirement is kept. *)
Lemma compose_Ok cc parent merged own m :
  compose cc parent merged own = Ok m →
  m = collect_by er_id own ∪ merged ∧
  ∀ req p, req ∈ own → parent !! er_id req = Some p → keeps p req.
Proof.
  rewrite <- foldl_insert_collect. revert merged.
  induction own as [|req own IH]; intros merged; simpl.
  - intros [= ->]. split; [done|]. by intros ?? ?%elem_of_nil.
  - destruct (parent !! er_id req ≫= _) eqn:Hw; [done|]. intros [-> Hk]%IH.
    split; [done|]. intros req' p [->|Hin]%elem_of_cons; [|by apply Hk].
    intros Hp. rewrite Hp in Hw. by apply weakening_None.
Qed.

Lemma compose_Err cc parent merged own e :
  compose cc parent merged own = Err e →
  ∃ req p reason, e = WeakenedRequirement cc (er_id req) reason ∧ req ∈ own ∧
    parent !! er_id req = Some p ∧ weakening p req = Some reason.
Proof.
  revert merged. induction own as [|req own IH]; intros merged; simpl; [done|].
  destruct (parent !! er_id req ≫= _) eqn:Hw.
  - intros [= <-]. destruct (parent !! er_id req) as [p|] eqn:Hp; [|done].
    do 3 eexists. split; [done|]. split; [left|done].
  - intros (req' & p & reason & -> & Hin & ?)%IH. do 3 eexists.
    split; [done|]. split; [by right|done].
Qed.

Section chain.
Context (reg : ContractRegistry).

Lemma registered_length ch :
  NoDup ch → (∀ a, a ∈ ch → is_Some (reg !! a)) → length ch ≤ size reg.
Proof.
  intros Hnd Hin. rewrite <- (size_list_to_set (C := gset ClaimClassId)), <- (size_dom reg) by done.
  apply subseteq_size. intros a Ha. apply elem_of_dom, Hin. set_solver.
Qed.

(** What an answer of the walk from [cc] means. *)
Definition chain_answer (cc : ClaimClassId) (r : result ContractError (list ClaimClassId)) :
    Prop :=
  match r with
  | Ok ch => ancestry reg cc ch
  | Err (MissingParent c p) =>
      reg !! p = None ∧ rtc (parent_of reg) cc p ∧ (p = cc ∧ c = cc ∨ parent_of reg c p)
  | Err (InheritanceCycle c) =>
      c = cc ∧ ∃ a, rtc (parent_of reg) cc a ∧ tc (parent_of reg) a a
  | Err _ => False
  end.

Lemma chain_loop_spec cc fuel : ∀ chain cur,
  size reg < fuel + length chain → NoDup (chain ++ [cur]) →
  (∀ a, a ∈ chain → is_Some (reg !! a)) →
  rtc (parent_of reg) cc cur →
  (∀ a, a ∈ chain → rtc (parent_of reg) cc a ∧ tc (parent_of reg) a cur) →
  match last chain with Some l => parent_of reg l cur | None => cur = cc end →
  ∃ r, chain_loop fuel reg cc chain cur = Some r ∧
    match r with
    | Ok ch => ∃ ch', ch = chain ++ ch' ∧ ancestry reg cur ch'
    | Err _ => chain_answer cc r
    end.
Proof.
  induction fuel as [|fuel IH]; intros chain cur Hf Hnd Hreg Hcur Hch Hlast; simpl.
  { apply NoDup_app in Hnd as (Hnd & _). pose proof (registered_length chain Hnd Hreg). lia. }
  destruct (reg !! cur) as [c|] eqn:Hc; last first.
  { eexists. split; [done|]. simpl. split; [done|]. split; [done|].
    destruct (last chain); simpl; [by right|by left]. }
  assert (∀ a, a ∈ chain ++ [cur] → is_Some (reg !! a)) as Hreg'.
  { intros a [?| ->%list_elem_of_singleton]%elem_of_app; eauto. }
  rewrite decide_False by (pose proof (registered_length _ Hnd Hreg'); lia).
  destruct (ec_parent c) as [p|] eqn:Hp; last first.
  { eexists. split; [done|]. exists [cur]. split; [done|]. by eapply ancestry_root. }
  assert (parent_of reg cur p) as Hstep by (by exists c).
  assert (∀ a, a ∈ chain ++ [cur] → rtc (parent_of reg) cc a ∧ tc (parent_of reg) a p) as Hch'.
  { intros a [Ha| ->%list_elem_of_singleton]%elem_of_app.
    - destruct (Hch a Ha). split; [done|]. by eapply tc_r.
    - split; [done|]. by apply tc_once. }
  case_decide as Hin.
  { eexists. split; [done|]. simpl. split; [done|]. exists p. by apply Hch'. }
  destruct (IH (chain ++ [cur]) p) as (r & Hr & Ha);
    [rewrite length_app; simpl; lia| |done|by eapply rtc_r|done|by rewrite last_snoc|].
  { apply NoDup_app. split; [done|]. split; [set_solver|apply NoDup_singleton]. }
  exists r. split; [done|]. destruct r as [ch|e]; [|done].
  destruct Ha as (ch' & -> & Ha). exists (cur :: ch').
  split; [by rewrite <- (assoc_L (++))|]. by eapply ancestry_step.
Qed.

Lemma chain_total cc :
  ∃ r, chain_loop (chain_fuel reg) reg cc [] cc = Some r ∧ chain_answer cc r.
Proof.
  destruct (chain_loop_spec cc (chain_fuel reg) [] cc) as (r & Hr & Ha).
  - simpl. unfold chain_fuel. lia.
  - apply NoDup_singleton.
  - by intros ? ?%elem_of_nil.
  - done.
  - by intros ? ?%elem_of_nil.
  - done.
  - exists r. split; [done|]. destruct r; [|done]. by destruct Ha as (? & -> & ?).
Qed.

Lemma ancestry_registered cc ch a : ancestry reg cc ch → a ∈ ch → is_Some (reg !! a).
Proof.
  induction 1 as [cc c Hc Hp|cc p ch (c & Hc & Hp) Ha IH].
  - intros ->%list_elem_of_singleton. eauto.
  - intros [->|Hin]%elem_of_cons; eauto.
Qed.

(** The contract nearest to the class, the first of the chain, that declares a
    requirement of the id declares [q]. *)
Definition nearest (ch : list ClaimClassId) (id : string) (q : EvidenceRequirement) : Prop :=
  ∃ nearer a farther c, ch = nearer ++ a :: farther ∧ reg !! a = Some c ∧
    declared c !! id = Some q ∧
    ∀ b c', b ∈ nearer → reg !! b = Some c' → declared c' !! id = None.

Lemma nearest_declares ch id q :
  nearest ch id q → ∃ a c, a ∈ ch ∧ reg !! a = Some c ∧ declared c !! id = Some q.
Proof. intros (nearer & a & farther & c & -> & ? & ? & _). exists a, c. set_solver. Qed.

(** The requirements of the contracts folded so far, from the root: [m] keeps
    every requirement one of them declared, and holds the nearest ones. *)
Definition inherits (done_ : list ClaimClassId) (m : gmap string EvidenceRequirement) : Prop :=
  (∀ a c id p, a ∈ done_ → reg !! a = Some c → declared c !! id = Some p →
     ∃ q, m !! id = Some q ∧ keeps p q) ∧
  (∀ id q, m !! id = Some q → er_id q = id ∧ nearest (reverse done_) id q).

Lemma inherits_step done_ m cc c m' :
  inherits done_ m → reg !! cc = Some c → compose cc m m (requirements c) = Ok m' →
  inherits (done_ ++ [cc]) m'.
Proof.
  intros [Hk Ho] Hc [-> Hw]%compose_Ok. fold (declared c). split.
  - intros a c' id p Ha Hc' Hp. rewrite lookup_union.
    destruct (declared c !! id) as [q|] eqn:Hq.
    + exists q. rewrite union_Some_l. split; [done|].
      apply elem_of_app in Ha as [Ha| ->%list_elem_of_singleton]; [|by simplify_eq].
      destruct (Hk _ _ _ _ Ha Hc' Hp) as (r & Hr & ?). etrans; [done|].
      apply collect_by_Some in Hq as [Hin <-]. by apply Hw.
    + rewrite (left_id_L None _).
      apply elem_of_app in Ha as [Ha| ->%list_elem_of_singleton]; [eauto|by simplify_eq].
  - intros id q. rewrite lookup_union_Some_raw, reverse_snoc. intros [Hq|[Hn Hq]].
    + split; [by apply collect_by_Some in Hq as [_ ?]|].
      exists [], cc, (reverse done_), c. split_and!; [done..|]. by intros ?? ?%elem_of_nil.
    + apply Ho in Hq as (? & nearer & a & farther & c' & -> & ? & ? & Hnone). split; [done|].
      exists (cc :: nearer), a, farther, c'. split_and!; [done..|].
      intros b cb [->|Hb]%elem_of_cons Hcb; [by simplify_eq|by eapply Hnone].
Qed.

Lemma compose_chain_spec rest : ∀ done_ m,
  inherits done_ m → (∀ a, a ∈ rest → is_Some (reg !! a)) →
  ∃ r, compose_chain reg m rest = Some r ∧
    match r with
    | Ok m' => inherits (done_ ++ rest) m'
    | Err e => ∃ cc c req p reason a c', e = WeakenedRequirement cc (er_id req) reason ∧
        cc ∈ rest ∧ reg !! cc = Some c ∧ req ∈ requirements c ∧
        a ∈ done_ ++ rest ∧ reg !! a = Some c' ∧ declared c' !! er_id req = Some p ∧
        weakening p req = Some reason
    end.
Proof.
  induction rest as [|cc rest IH]; intros done_ m Hm Hreg; simpl.
  { eexists. split; [done|]. by rewrite app_nil_r. }
  destruct (Hreg cc) as [c Hc]; [left|]. rewrite Hc.
  destruct (compose cc m m (requirements c)) as [m'|e] eqn:Hcomp.
  - destruct (IH (done_ ++ [cc]) m') as (r & Hr & Hs); [by eapply inherits_step|set_solver|].
    exists r. split; [done|]. rewrite <- (assoc_L (++)) in Hs. simpl in Hs.
    destruct r; [done|]. destruct Hs as (cc' & c1 & req & p & reason & a & c2 & -> & ? & ?).
    do 7 eexists. split; [done|]. split; [by right|done].
  - eexists. split; [done|]. apply compose_Err in Hcomp as (req & p & reason & -> & Hin & Hp & Hw).
    destruct Hm as [_ Ho]. apply Ho in Hp as [_ (a & c' & Ha & Hc' & Hd)%nearest_declares].
    rewrite elem_of_reverse in Ha.
    exists cc, c, req, p, reason, a, c'. split; [done|]. split; [left|].
    split; [done|]. split; [done|]. split; [set_solver|done].
Qed.
End chain.

(** What a resolved requirement set keeps of every contract it was composed
    from, and where its requirements come from. *)
Definition resolved (reg : ContractRegistry) (ch : list ClaimClassId)
    (reqs : list EvidenceRequirement) : Prop :=
  NoDup (er_id <$> reqs) ∧
  (∀ a c id p, a ∈ ch → reg !! a = Some c → declared c !! id = Some p →
     ∃ q, q ∈ reqs ∧ er_id q = id ∧ keeps p q) ∧
  (∀ q, q ∈ reqs → nearest reg ch (er_id q) q).

Lemma inherits_resolved reg ch m :
  inherits reg (reverse ch) m → resolved reg ch (btree_iter m).*2.
Proof.
  intros [Hk Ho]. setoid_rewrite elem_of_reverse in Hk. rewrite reverse_involutive in Ho.
  assert (∀ q, q ∈ (btree_iter m).*2 ↔ m !! er_id q = Some q) as Helem.
  { intros q. rewrite list_elem_of_fmap. split.
    - intros ([k q'] & -> & Hin%elem_of_btree_iter). simpl.
      by destruct (Ho _ _ Hin) as [-> _].
    - intros Hq. exists (er_id q, q). split; [done|]. by apply elem_of_btree_iter. }
  split; [|split].
  - replace (er_id <$> (btree_iter m).*2) with (btree_iter m).*1;
      [apply btree_iter_NoDup_fst|].
    rewrite <- list_fmap_compose. apply list_fmap_ext.
    intros i [k q] Hin%list_elem_of_lookup_2%elem_of_btree_iter. simpl.
    by destruct (Ho _ _ Hin).
  - intros a c id p Ha Hc Hp. destruct (Hk _ _ _ _ Ha Hc Hp) as (q & Hq & ?).
    destruct (Ho _ _ Hq) as [<- _]. exists q. by rewrite Helem.
  - intros q Hq%Helem. by apply Ho in Hq as (_ & ?).
Qed.

(** What an error of the resolution means: a class without a contract, a cycle
    of parents, or a requirement that asks less than an inherited one. *)
Definition resolution_error (reg : ContractRegistry) (cc : ClaimClassId) (e : ContractError) :
    Prop :=
  match e with
  | WeakenedRequirement a id reason =>
      ∃ ch c req b c' p, ancestry reg cc ch ∧ a ∈ ch ∧ reg !! a = Some c ∧
        req ∈ requirements c ∧ er_id req = id ∧ b ∈ ch ∧ reg !! b = Some c' ∧
        declared c' !! id = Some p ∧ weakening p req = Some reason
  | _ => chain_answer reg cc (Err e)
  end.

Lemma effective_requirements_spec reg cc :
  ∃ r, effective_requirements reg cc = Some r ∧
    match r with
    | Ok reqs => ∃ ch, ancestry reg cc ch ∧ resolved reg ch reqs
    | Err e => resolution_error reg cc e
    end.
Proof.
  unfold effective_requirements.
  destruct (chain_total reg cc) as ([ch|e] & -> & Ha); last first.
  { eexists. split; [done|]. by destruct e. }
  destruct (compose_chain_spec reg (reverse ch) [] ∅) as ([m|e] & -> & Hm); [..|].
  - split; [by intros ???? ?%elem_of_nil|done].
  - intros a. rewrite elem_of_reverse. by apply ancestry_registered with cc.
  - eexists. split; [done|]. exists ch. split; [done|].
    by apply inherits_resolved.
  - eexists. split; [done|].
    destruct Hm as (a & c & req & p & reason & b & c' & -> & Ha' & Hc & Hr & Hb & ?).
    rewrite app_nil_l in Hb. rewrite elem_of_reverse in Ha', Hb.
    exists ch, c, req, b, c', p. naive_solver.
Qed.

(** ** Evaluating one requirement *)

Section evaluate.
Context `{Chrono}.
Implicit Types (req : EvidenceRequirement) (e : Evidence).

Definition is_fresh (req : EvidenceRequirement) (claim : Claim) (e : Evidence) : Prop :=
  match staleness_of e claim (er_freshness req) with
  | Fresh _ | NotTimeSensitive => True
  | Stale _ | Indeterminate _ => False
  end.

(** A record that can count towards a requirement: of the right kind, from an
    accepted source, and fresh for the claim. *)
Definition qualifies req (claim : Claim) e : Prop :=
  ev_kind e = er_evidence_kind req ∧
  (∃ s, ev_source e = Some s ∧ trust_class s ∈ acceptable_trust_classes req) ∧
  is_fresh req claim e.
#[export] Instance is_fresh_dec req claim e : Decision (is_fresh req claim e).
Proof. unfold is_fresh. destruct (staleness_of _ _ _); apply _. Defined.

Lemma eval_step_qualifying req claim excluded st e :
  (qualifying (eval_step req claim excluded trust_class_of st e) = qualifying st) ∨
  (qualifying (eval_step req claim excluded trust_class_of st e) = qualifying st ++ [e] ∧
     qualifies req claim e ∧ ev_id e ∉ excluded).
Proof.
  unfold eval_step. case_decide as Hk; [by left|]. case_decide as Hx; [by left|].
  unfold trust_class_of. destruct (ev_source e) as [s|] eqn:Hs; simpl; [|by left].
  case_bool_decide as Ht; simpl; [|by left].
  destruct (staleness_of _ _ _) eqn:Hst; simpl; [right|right|by left|by left].
  all: split; [done|]; split; [|done]; split; [by destruct (decide (ev_kind e = er_evidence_kind req))|].
  all: split; [by exists s|unfold is_fresh; by rewrite Hst].
Qed.

Lemma eval_fold_qualifying req claim excluded evidence st :
  let st' := foldl (eval_step req claim excluded trust_class_of) st evidence in
  ∃ es, qualifying st' = qualifying st ++ es ∧ sublist es evidence ∧
    Forall (λ e, qualifies req claim e ∧ ev_id e ∉ excluded) es.
Proof.
  revert st. induction evidence as [|e evidence IH]; intros st; simpl.
  { exists []. by rewrite app_nil_r. }
  destruct (IH (eval_step req claim excluded trust_class_of st e)) as (es & -> & Hsub & Hq).
  destruct (eval_step_qualifying req claim excluded st e) as [->|(-> & He)].
  - exists es. split; [done|]. split; [by constructor|done].
  - exists (e :: es). split; [by rewrite <- (assoc_L (++))|]. split; [by constructor|by constructor].
Qed.

(** The claimed ids: distinct records that qualify, none of them excluded, and
    as many as the coverage asks for when the requirement is satisfied. *)
Lemma evaluate_requirement_spec req claim evidence excluded :
  let r := evaluate_requirement req claim evidence excluded trust_class_of in
  sublist r.1.2 (ev_id <$> evidence) ∧
  (∀ i, i ∈ r.1.2 → i ∉ excluded ∧ ∃ e, e ∈ evidence ∧ ev_id e = i ∧ qualifies req claim e) ∧
  (r.1.1 = SSatisfied → length r.1.2 = N.to_nat (min_items (min_coverage req))) ∧
  r.1.1 ≠ SNotApplicable.
Proof.
  unfold evaluate_requirement. simpl.
  destruct (eval_fold_qualifying req claim excluded evidence (mkEvalState [] [] false false false))
    as (es & Heq & Hsub & Hq). simpl in Heq. rewrite Heq.
  split; [|split; [|split]].
  - apply fmap_sublist. etrans; [apply sublist_take|done].
  - intros i (e & -> & He%elem_of_take)%list_elem_of_fmap. destruct He as (k & Hk & _).
    apply list_elem_of_lookup_2 in Hk. eapply (Forall_forall _ _) in Hq as [He ?]; [|done].
    split; [done|]. exists e. split; [|done]. by eapply elem_of_submseteq, sublist_submseteq.
  - rewrite length_fmap, length_take. case_decide as Hc; [|by repeat case_match].
    intros _. unfold as_u32 in Hc.
    pose proof (N.mod_le (N.of_nat (length es)) (2 ^ 32) ltac:(done)). lia.
  - by repeat case_match.
Qed.
End evaluate.

(** ** The pool and the aggregation *)

Lemma dedupe_elem seen evidence e :
  e ∈ dedupe_by_id seen evidence → e ∈ evidence ∧ ev_id e ∉ seen.
Proof.
  revert seen. induction evidence as [|x evidence IH]; intros seen; simpl; [by intros ?%elem_of_nil|].
  case_decide; [intros ?%IH; set_solver|].
  intros [->|?%IH]%elem_of_cons; set_solver.
Qed.

Lemma dedupe_NoDup seen evidence : NoDup (ev_id <$> dedupe_by_id seen evidence).
Proof.
  revert seen. induction evidence as [|x evidence IH]; intros seen; simpl; [constructor|].
  case_decide; [done|]. simpl. constructor; [|done].
  intros (e & Heq & [_ Hn]%dedupe_elem)%list_elem_of_fmap. set_solver.
Qed.

Lemma max_by_key_last_elem {A} (key : A → nat) (l : list A) x :
  max_by_key_last key l = Some x → x ∈ l.
Proof.
  unfold max_by_key_last.
  assert (∀ acc, foldl (λ best x, match best with
     | Some b => if decide (key b ≤ key x) then Some x else Some b
     | None => Some x end) acc l = Some x → acc = Some x ∨ x ∈ l) as Hgen.
  { induction l as [|y l IH]; intros acc; simpl; [by left|].
    intros [Hacc|?]%IH; [|set_solver]. destruct acc as [b|]; [case_decide|]; set_solver. }
  intros [?|?]%Hgen; done.
Qed.

Lemma recompute_satisfied per :
  recompute_overall per = SSatisfied ↔ ∀ ra, ra ∈ per → blocks ra = false.
Proof.
  unfold recompute_overall.
  assert (∀ l acc, (∀ ra, ra ∈ l → ra_state ra ≠ SSatisfied) →
    (∀ w, acc = Some w → w ≠ SSatisfied) →
    default SSatisfied (foldl (λ worst ra,
       Some match worst with
            | Some w => if decide (state_rank (ra_state ra) ≤ state_rank w) then w else ra_state ra
            | None => ra_state ra
            end) acc l) = SSatisfied ↔ acc = None ∧ l = []) as Hgen.
  { induction l as [|ra l IH]; intros acc Hl Hacc; simpl.
    - destruct acc as [w|]; simpl; [|naive_solver]. specialize (Hacc w eq_refl). naive_solver.
    - rewrite IH; [naive_solver|set_solver|]. intros w [= <-].
      specialize (Hl ra ltac:(left)). destruct acc as [w|]; [case_decide|]; eauto. }
  rewrite Hgen; [| |done].
  - split.
    + intros [_ Hf] ra Hin. destruct (blocks ra) eqn:Hb; [|done].
      assert (ra ∈ filter (λ ra, blocks ra) per) as Hin'.
      { apply list_elem_of_filter. by rewrite Hb. }
      rewrite Hf in Hin'. by apply elem_of_nil in Hin'.
    + intros Hall. split; [done|]. apply elem_of_nil_inv.
      intros ra [Hb Hin]%list_elem_of_filter. by rewrite Hall in Hb.
  - intros ra [Hb _]%list_elem_of_filter. unfold blocks in Hb.
    intros Hs. rewrite Hs in Hb. by destruct (ra_level ra).
Qed.

(** The levels that bind under the conditions of the claim. *)
Definition binding (conditions_met : list string) (l : RequirementLevel) : Prop :=
  match l with
  | Required => True
  | Recommended => False
  | Conditional c => c ∈ conditions_met
  end.

Section assess.
Context `{Chrono, HashOrder}.
Context (claim : Claim) (conditions_met : list string) (pool : list Evidence).
Context (unc : gmap string (list Uuid)).
Implicit Types (req : EvidenceRequirement) (ra : RequirementAssessment).

Local Abbreviation first_pass :=
  (assess_requirement claim pool conditions_met trust_class_of unc).

Lemma binding_blocking l : binding conditions_met l → is_blocking_level conditions_met l = true.
Proof. destruct l; simpl; [done|done|]. intros. by apply bool_decide_true. Qed.

Lemma assess_requirement_spec req :
  let ra := first_pass req in
  requirement_id ra = er_id req ∧ ra_level ra = er_level req ∧
  sublist (matched_evidence ra) (ev_id <$> pool) ∧
  (∀ i, i ∈ matched_evidence ra → ∃ e, e ∈ pool ∧ ev_id e = i ∧ qualifies req claim e) ∧
  (ra_state ra = SSatisfied →
     length (matched_evidence ra) = N.to_nat (min_items (min_coverage req))) ∧
  (binding conditions_met (er_level req) → ra_state ra ≠ SNotApplicable).
Proof.
  unfold assess_requirement. destruct (applicable conditions_met (er_level req)) eqn:Ha.
  - pose proof (evaluate_requirement_spec req claim pool (excluded_ids unc (independence req)))
      as Hspec. revert Hspec.
    destruct (evaluate_requirement _ _ _ _ _) as [[s ids] rej]; simpl. intros (H1 & H2 & H3 & H4).
    split_and!; [done|done|done| |done|done].
    intros i Hi. by destruct (H2 i Hi) as [_ ?].
  - simpl. split_and!; [done|done|apply sublist_nil_l|by intros ? ?%elem_of_nil|done|].
    destruct (er_level req); simpl in *; [done..|]. by rewrite bool_decide_eq_false in Ha.
Qed.

(** What hardening may do to the assessment of a requirement. *)
Record shrinks req ra : Prop := {
  sh_id : requirement_id ra = er_id req;
  sh_level : ra_level ra = er_level req;
  sh_matched : sublist (matched_evidence ra) (matched_evidence (first_pass req));
  sh_satisfied : ra_state ra = SSatisfied →
    N.to_nat (min_items (min_coverage req)) ≤ length (matched_evidence ra);
  sh_applicable : binding conditions_met (er_level req) → ra_state ra ≠ SNotApplicable;
}.

Lemma first_pass_shrinks req : shrinks req (first_pass req).
Proof.
  destruct (assess_requirement_spec req) as (? & ? & ? & ? & Hlen & ?).
  split; [done|done|done| |done]. intros Hs. by rewrite Hlen.
Qed.

Lemma strip_shrinks req ra min_by_id strip :
  min_by_id !! er_id req = Some (min_items (min_coverage req)) →
  shrinks req ra → shrinks req (strip_requirement min_by_id strip ra).
Proof.
  intros Hmin [Hid Hl Hm Hs Ha]. unfold strip_requirement.
  destruct (strip !! requirement_id ra) as [ids|]; [|by split]. rewrite Hid, Hmin. simpl.
  split; simpl; [done|done| | |].
  - etrans; [apply sublist_filter|done].
  - case_bool_decide as Hlt; [by case_bool_decide|]. simpl. intros _. unfold as_u32 in Hlt.
    match goal with |- _ ≤ length ?l =>
      pose proof (N.mod_le (N.of_nat (length l)) (2 ^ 32) ltac:(done)) end. lia.
  - intros Hb. specialize (Ha Hb). by destruct (_ && _).
Qed.

Lemma unknown_shrinks req ra : shrinks req ra → shrinks req (with_state ra SUnknown).
Proof. intros [Hid Hl Hm Hs Ha]. by split. Qed.

(** An assessment that is satisfied overall is satisfied in what binds. *)
Lemma recompute_binding req ra per :
  recompute_overall per = SSatisfied → ra ∈ per → shrinks req ra →
  binding conditions_met (er_level req) → ra_state ra = SSatisfied.
Proof.
  intros Hr Hin [_ Hl _ _ Ha] Hb.
  pose proof (proj1 (recompute_satisfied per) Hr ra Hin) as Hnb. unfold blocks in Hnb.
  rewrite Hl in Hnb. specialize (Ha Hb).
  destruct (er_level req); simpl in *; [|done|]; destruct (ra_state ra); done.
Qed.
End assess.

(** ** Hardening *)

Lemma strip_map_elem vs v :
  v ∈ vs → ∃ s, strip_map vs !! fv_requirement_id v = Some s ∧ fv_evidence_id v ∈ s.
Proof.
  induction vs as [|w vs IH] using rev_ind; [by intros ?%elem_of_nil|].
  unfold strip_map. rewrite foldl_app. fold (strip_map vs). simpl.
  destruct (decide (fv_requirement_id w = fv_requirement_id v)) as [Heq|Hne].
  - rewrite Heq, lookup_insert_eq. intros [Hv| ->%list_elem_of_singleton]%elem_of_app.
    + destruct (IH Hv) as (s & -> & ?). eexists. split; [done|]. set_solver.
    + eexists. split; [done|]. set_solver.
  - rewrite lookup_insert_ne by done.
    intros [Hv| ->%list_elem_of_singleton]%elem_of_app; [by apply IH|done].
Qed.

Lemma violation_found fams matched req others other mine theirs i j f :
  independence req = MustBeIndependentOf others → other ∈ others →
  matched !! er_id req = Some mine → matched !! other = Some theirs →
  i ∈ mine → j ∈ theirs → family_of fams i = Some f → j ∈ evidence_ids f →
  mkFamilyIndependenceViolation (er_id req) other i ∈ violations_of fams matched req.
Proof.
  intros Hi Ho Hm Ht Hin Hjn Hf Hj. unfold violations_of. rewrite Hi, Hm.
  apply list_elem_of_bind. exists other. split; [|done]. rewrite Ht.
  apply list_elem_of_omap. exists i. split; [done|]. rewrite Hf. simpl.
  assert (existsb (λ other_ev, bool_decide (other_ev ∈ evidence_ids f)) theirs = true) as ->; [|done].
  apply existsb_exists. exists j. split; [by apply list_elem_of_In|]. by apply bool_decide_true.
Qed.

Section harden.
Context `{Chrono, HashOrder}.
Context (claim : Claim) (conditions_met : list string) (pool : list Evidence).
Context (unc : gmap string (list Uuid)) (reqs : list EvidenceRequirement).
Context (Hids : NoDup (er_id <$> reqs)).

Local Abbreviation first_pass :=
  (assess_requirement claim pool conditions_met trust_class_of unc).
Local Abbreviation shrinks := (shrinks claim conditions_met pool unc).

Lemma first_pass_ids : requirement_id <$> (first_pass <$> reqs) = er_id <$> reqs.
Proof.
  rewrite <- list_fmap_compose. apply list_fmap_ext. intros i req _.
  apply assess_requirement_spec.
Qed.

Lemma matched_by_id_lookup req :
  req ∈ reqs →
  matched_by_id (first_pass <$> reqs) !! er_id req = Some (matched_evidence (first_pass req)).
Proof.
  intros Hin. unfold matched_by_id. rewrite lookup_fmap.
  replace (er_id req) with (requirement_id (first_pass req)) by apply assess_requirement_spec.
  rewrite collect_by_NoDup; [done| |by apply list_elem_of_fmap_2].
  by rewrite first_pass_ids.
Qed.

Lemma min_by_id_lookup req :
  req ∈ reqs →
  ((min_items ∘ min_coverage) <$> collect_by er_id reqs) !! er_id req
    = Some (min_items (min_coverage req)).
Proof. intros Hin. rewrite lookup_fmap, collect_by_NoDup by done. done. Qed.

(** The assessments after hardening, requirement by requirement. *)
Lemma harden_shrinks fams a :
  per_requirement a = first_pass <$> reqs →
  Forall2 shrinks reqs (per_requirement (assessment (harden fams reqs a))).
Proof.
  intros Hper. unfold harden. rewrite Hper.
  destruct (reqs ≫= _) as [|v vs]; simpl.
  - rewrite Hper. apply Forall2_fmap_r, Forall_Forall2_diag, Forall_forall.
    intros. apply first_pass_shrinks.
  - apply Forall2_fmap_r, Forall2_fmap_r, Forall_Forall2_diag, Forall_forall.
    intros req Hin. apply strip_shrinks; [by apply min_by_id_lookup|apply first_pass_shrinks].
Qed.

Lemma shrinks_of per req ra :
  Forall2 shrinks reqs per → req ∈ reqs → ra ∈ per → requirement_id ra = er_id req →
  shrinks req ra.
Proof.
  intros Hf Hreq Hra Hid. destruct (Forall2_elem_of_r _ _ _ _ Hf Hra) as (req1 & Hreq1 & Hs).
  replace req with req1; [done|]. apply (NoDup_fmap_elem er_id reqs); [done..|].
  rewrite <- Hid. by destruct Hs.
Qed.

Lemma unknown_without_families_fmap rs per :
  Forall2 shrinks reqs per → Forall2 shrinks reqs (unknown_without_families rs per).
Proof.
  revert per. induction rs as [|r rs IH]; intros per Hp; [done|]. apply (IH (without_family r <$> per)).
  apply Forall2_fmap_r. eapply Forall2_impl; [done|]. intros req ra Hs. unfold without_family.
  destruct (independence r); [done|]. simpl. case_bool_decide; [by apply unknown_shrinks|done].
Qed.

Lemma unknown_without_families_back rs per ra :
  ra ∈ unknown_without_families rs per →
  ∃ ra0, ra0 ∈ per ∧ requirement_id ra0 = requirement_id ra ∧
    (ra_state ra = SSatisfied → ra_state ra0 = SSatisfied).
Proof.
  revert per. induction rs as [|r rs IH]; intros per; [simpl; eauto|].
  intros (ra1 & Hin & Hid & Hst)%(IH (without_family r <$> per)).
  apply list_elem_of_fmap in Hin as (ra0 & -> & Hin). exists ra0. split; [done|].
  unfold without_family in *. destruct (independence r); [done|].
  case_bool_decide; simpl in *; naive_solver.
Qed.

(** Without a family map nothing that needs one stays satisfied. *)
Lemma unknown_without_families_state rs per ra req others :
  ra ∈ unknown_without_families rs per → req ∈ rs →
  independence req = MustBeIndependentOf others → requirement_id ra = er_id req →
  ra_state ra ≠ SSatisfied.
Proof.
  revert per. induction rs as [|r rs IH]; intros per Hin Hreq Hind Hid;
    [by apply elem_of_nil in Hreq|].
  apply elem_of_cons in Hreq as [<-|Hreq]; [|by apply (IH (without_family r <$> per))].
  apply (unknown_without_families_back rs (without_family req <$> per)) in Hin
    as (ra1 & Hin & Hid1 & Hst).
  apply list_elem_of_fmap in Hin as (ra0 & -> & _). intros Hs. specialize (Hst Hs).
  unfold without_family in *. rewrite Hind in *.
  case_bool_decide as Hc; simpl in *; [done|]. apply Hc. split; congruence.
Qed.

Lemma harden_independent fams a req ra others ra' i j :
  per_requirement a = first_pass <$> reqs → NoDup (ev_id <$> pool) → build pool = Some fams →
  let per := per_requirement (assessment (harden fams reqs a)) in
  req ∈ reqs → ra ∈ per → requirement_id ra = er_id req →
  independence req = MustBeIndependentOf others → ra' ∈ per → requirement_id ra' ∈ others →
  i ∈ matched_evidence ra → j ∈ matched_evidence ra' → ¬ rtsc (family_edge pool) i j.
Proof.
  intros Hper Hnd Hb per Hreq Hra Hid Hind Hra' Hoth Hi Hj Hconn.
  pose proof (harden_shrinks fams a Hper) as Hsh. fold per in Hsh.
  destruct (Forall2_elem_of_r _ _ _ _ Hsh Hra) as (req1 & Hreq1 & Hs1).
  destruct (Forall2_elem_of_r _ _ _ _ Hsh Hra') as (req2 & Hreq2 & Hs2).
  assert (req1 = req) as ->.
  { apply (NoDup_fmap_elem er_id reqs); [done..|]. rewrite <- Hid. by destruct Hs1. }
  assert (i ∈ matched_evidence (first_pass req)) as Hi0
    by (eapply elem_of_submseteq, sublist_submseteq; [done|apply Hs1]).
  assert (j ∈ matched_evidence (first_pass req2)) as Hj0
    by (eapply elem_of_submseteq, sublist_submseteq; [done|apply Hs2]).
  destruct (assess_requirement_spec claim conditions_met pool unc req)
    as (_ & _ & _ & Hq & _). destruct (Hq i Hi0) as (ei & Hei & <- & _ & (si & Hsi & _) & _).
  destruct (assess_requirement_spec claim conditions_met pool unc req2)
    as (_ & _ & _ & Hq2 & _). destruct (Hq2 j Hj0) as (ej & Hej & <- & _ & (sj & Hsj & _) & _).
  apply (family_iff_connected pool fams) in Hconn as (f & Hf & Hfj); [|eauto..].
  assert (mkFamilyIndependenceViolation (er_id req) (requirement_id ra') (ev_id ei)
    ∈ reqs ≫= violations_of fams (matched_by_id (per_requirement a))) as Hv.
  { apply list_elem_of_bind. exists req. split; [|done]. rewrite Hper.
    eapply violation_found; [done|done|by apply matched_by_id_lookup| |done|done|done|done].
    rewrite (sh_id _ _ _ _ _ _ Hs2). by apply matched_by_id_lookup. }
  subst per. unfold harden in Hra.
  destruct (reqs ≫= _) as [|v vs] eqn:Hvs; [by apply elem_of_nil in Hv|]. simpl in Hra.
  apply list_elem_of_fmap in Hra as (ra0 & -> & _). rewrite <- Hvs in *.
  apply strip_map_elem in Hv as (s & Hs & Hin). simpl in Hs, Hin.
  unfold strip_requirement in Hid, Hi.
  destruct (strip_map _ !! requirement_id ra0) as [s'|] eqn:Hs'; simpl in Hid.
  - rewrite Hid, Hs in Hs'. simplify_eq. simpl in Hi.
    apply list_elem_of_filter in Hi as [Hn _]. done.
  - by rewrite Hid, Hs in Hs'.
Qed.
End harden.

(** ** The assessment *)

Section theorems.
Context `{Chrono, HashOrder}.

Lemma assess_claim_spec reg cc claim pool conds reqs c :
  reg !! cc = Some c → effective_requirements reg cc = Some (Ok reqs) →
  let unc := unconstrained_qualifying claim pool conds trust_class_of reqs in
  ∃ o, assess_claim reg cc claim pool conds trust_class_of = Some (Ok
    (mkClaimAssessment cc (assess_requirement claim pool conds trust_class_of unc <$> reqs) o)) ∧
    (o = SSatisfied → ∀ req, req ∈ reqs → binding conds (er_level req) →
       ra_state (assess_requirement claim pool conds trust_class_of unc req) = SSatisfied).
Proof.
  intros Hc Hr unc. unfold assess_claim, lookup_contract. rewrite Hc, Hr.
  eexists. split; [done|]. fold unc. destruct (existsb _ _) eqn:He.
  - destruct (max_by_key_last _ _) as [s|] eqn:Hm; simpl; [|done]. intros ->.
    apply max_by_key_last_elem, list_elem_of_fmap in Hm as (ra & Hs & Hin).
    apply list_elem_of_filter in Hin as [Hb _]. unfold blocks in Hb. rewrite <- Hs in Hb.
    by destruct (ra_level ra).
  - intros _ req Hin Hb. apply not_true_iff_false in He.
    destruct (decide (ra_state (assess_requirement claim pool conds trust_class_of unc req)
      = SSatisfied)) as [|Hn]; [done|]. exfalso. apply He, existsb_exists.
    eexists. split; [apply list_elem_of_In, list_elem_of_fmap_2, Hin|].
    apply andb_true_intro. split; [|by apply bool_decide_true].
    apply binding_blocking. by rewrite (proj1 (proj2 (assess_requirement_spec _ _ _ _ req))).
Qed.

(** What [assess] returns when the class has a contract that resolves. *)
Lemma assess_spec reg cc claim evidence conds reqs c :
  let pool := dedupe_by_id ∅ evidence in
  reg !! cc = Some c → effective_requirements reg cc = Some (Ok reqs) →
  NoDup (er_id <$> reqs) →
  ∃ report unc, assess reg cc claim evidence conds = Some (Ok report) ∧
    let per := per_requirement (assessment report) in
    Forall2 (shrinks claim conds pool unc) reqs per ∧
    (overall (assessment report) = SSatisfied → ∀ req ra, req ∈ reqs → ra ∈ per →
       requirement_id ra = er_id req → binding conds (er_level req) →
       ra_state ra = SSatisfied) ∧
    (∀ req ra others ra' i j, req ∈ reqs → ra ∈ per → requirement_id ra = er_id req →
       ra_state ra = SSatisfied → independence req = MustBeIndependentOf others →
       ra' ∈ per → requirement_id ra' ∈ others →
       i ∈ matched_evidence ra → j ∈ matched_evidence ra' → ¬ rtsc (family_edge pool) i j).
Proof.
  intros pool Hc Hr Hids. unfold assess. fold pool.
  destruct (assess_claim_spec reg cc claim pool conds reqs c Hc Hr) as (o & -> & Ho).
  set (unc := unconstrained_qualifying _ _ _ _ _) in *.
  set (a := mkClaimAssessment _ _ _). unfold lookup_contract. rewrite Hc, Hr.
  destruct (build_total pool) as [m Hm].
  destruct (try_build_refines pool default_budget m Hm) as [-> | ->].
  - eexists _, unc. split; [done|].
    pose proof (harden_shrinks claim conds pool unc reqs Hids m a eq_refl) as Hsh.
    split; [done|]. split.
    + intros Hsat req ra Hreq Hra Hid Hb. revert Hsat Hra Hsh. unfold harden.
      destruct (reqs ≫= _); simpl.
      * intros -> (req1 & -> & Hreq1)%list_elem_of_fmap _. apply Ho; [done|done|].
        replace req with req1 in Hb; [done|]. apply (NoDup_fmap_elem er_id reqs); [done..|].
        rewrite <- Hid. symmetry. apply assess_requirement_spec.
      * intros Hrec Hra Hsh. eapply recompute_binding; [done|done|by eapply shrinks_of|done].
    + intros req ra others ra' i j Hreq Hra Hid _ Hind Hra' Hoth.
      apply (harden_independent claim conds pool unc reqs Hids m a req ra others ra'); try done.
      apply dedupe_NoDup.
  - eexists _, unc. split; [done|]. simpl.
    assert (Forall2 (shrinks claim conds pool unc) reqs
      (unknown_without_families reqs (per_requirement a))) as Hsh.
    { apply unknown_without_families_fmap. simpl.
      apply Forall2_fmap_r, Forall_Forall2_diag, Forall_forall.
      intros. apply first_pass_shrinks. }
    split; [done|]. split.
    + intros Hsat req ra Hreq Hra Hid Hb.
      eapply recompute_binding; [done|done|by eapply shrinks_of|done].
    + intros req ra others ra' i j Hreq Hra Hid Hst Hind. exfalso.
      by apply (unknown_without_families_state reqs (per_requirement a) ra req others).
Qed.

Lemma assess_Ok_found reg cc claim evidence conds report :
  assess reg cc claim evidence conds = Some (Ok report) →
  (reg !! cc = None ∧ overall (assessment report) = SUnknown) ∨
  ∃ c reqs, reg !! cc = Some c ∧ effective_requirements reg cc = Some (Ok reqs) ∧
    NoDup (er_id <$> reqs).
Proof.
  unfold assess, assess_claim, lookup_contract.
  destruct (reg !! cc) as [c|]; [|intros; simplify_eq; by left].
  destruct (effective_requirements_spec reg cc) as ([reqs|e] & -> & Hspec); [|done].
  intros _. right. destruct Hspec as (ch & _ & Hids & _). eauto.
Qed.

(** ** Capabilities *)

(** Revoking leaves an assessment alone or clears it. *)
Definition revoked_from (ra0 ra : RequirementAssessment) : Prop :=
  requirement_id ra = requirement_id ra0 ∧ ra_level ra = ra_level ra0 ∧
  (ra = ra0 ∨ ra_state ra = SUnavailable ∧ matched_evidence ra = []).

#[local] Instance revoked_from_trans : Transitive revoked_from.
Proof.
  intros x y z (H1 & H2 & H3) (H4 & H5 & H6). split; [congruence|]. split; [congruence|].
  destruct H6 as [->|?]; [done|by right].
Qed.

Lemma revoke_first_spec id per :
  NoDup (requirement_id <$> per) →
  Forall2 revoked_from per (revoke_first id per).1 ∧
  (∀ ra, ra ∈ (revoke_first id per).1 → requirement_id ra = id → ra_state ra ≠ SSatisfied) ∧
  ((revoke_first id per).2 = false → (revoke_first id per).1 = per).
Proof.
  intros Hnd. unfold revoke_first.
  assert (Forall2 revoked_from per per) as Hrefl.
  { apply Forall_Forall2_diag, Forall_true. intros ra. by split_and!; [..|left]. }
  destruct (list_find _ per) as [[i ra]|] eqn:Hf; simpl.
  - apply list_find_Some in Hf as (Hi & Hid & _). case_decide as Hs; simpl.
    + split; [|split; [|done]].
      * rewrite <- (list_insert_id per i ra Hi) at 1. apply Forall2_insert; [done|].
        split; [done|]. split; [done|]. by right.
      * intros ra' Hin Hid'. apply list_elem_of_lookup in Hin as [j Hj].
        apply list_lookup_insert_Some in Hj as [(-> & <- & _)|[Hne Hj]]; [done|].
        exfalso. apply Hne. eapply NoDup_lookup; [done|..]; rewrite list_lookup_fmap.
        -- by rewrite Hi.
        -- rewrite Hj. simpl. by rewrite Hid, Hid'.
    + split; [done|]. split; [|done]. intros ra' Hin Hid'.
      replace ra' with ra; [done|].
      apply (NoDup_fmap_elem requirement_id per); [done|by eapply list_elem_of_lookup_2|done|].
      congruence.
  - split; [done|]. split; [|done]. intros ra' Hin Hid'.
    apply list_find_None in Hf. eapply (Forall_forall _ _) in Hf; [|done]. by destruct Hf.
Qed.

Lemma revoked_ids per per' :
  Forall2 revoked_from per per' → requirement_id <$> per' = requirement_id <$> per.
Proof. induction 1 as [|x y l k [Hid _] _ IH]; csimpl; [done|]. by rewrite Hid, IH. Qed.

Lemma capability_loop_spec available reqs : ∀ per changed,
  NoDup (requirement_id <$> per) →
  let r := capability_loop available reqs per changed in
  Forall2 revoked_from per r.1.1 ∧
  (∀ req ra, req ∈ reqs → ra ∈ r.1.1 → requirement_id ra = er_id req →
     ra_state ra = SSatisfied → missing_prerequisites available req = []) ∧
  (r.1.2 = false → changed = false ∧ r.1.1 = per).
Proof.
  induction reqs as [|req reqs IH]; intros per changed Hnd; simpl.
  { split; [|split; [by intros ?? ?%elem_of_nil|done]].
    apply Forall_Forall2_diag, Forall_true. intros ra. by split_and!; [..|left]. }
  destruct (missing_prerequisites available req) as [|c cs] eqn:Hmiss.
  - destruct (IH per changed Hnd) as (H1 & H2 & H3). split; [done|]. split; [|done].
    intros req' ra [->|Hin]%elem_of_cons; [done|by apply H2].
  - destruct (revoke_first_spec (er_id req) per Hnd) as (R1 & R2 & R3).
    destruct (revoke_first (er_id req) per) as [per1 c1]; simpl in *.
    assert (NoDup (requirement_id <$> per1)) as Hnd1 by by rewrite (revoked_ids _ _ R1).
    destruct (IH per1 (changed || c1) Hnd1) as (H1 & H2 & H3). revert H1 H2 H3.
    destruct (capability_loop available reqs per1 (changed || c1)) as [[per2 ch] vs] eqn:Hloop.
    simpl. intros H1 H2 H3. split; [by etrans|]. split.
    + intros req' ra [->|Hin]%elem_of_cons Hra Hid Hst; [|by eapply H2]. exfalso.
      destruct (Forall2_elem_of_r _ _ _ _ H1 Hra) as (ra1 & Hra1 & Hid1 & _ & [->|[Hu _]]);
        [|congruence]. by apply (R2 ra1).
    + intros Hch. destruct (H3 Hch) as [Hor ->]. apply orb_false_iff in Hor as [-> Hc1].
      split; [done|by apply R3].
Qed.

(** A binding requirement of the claim's contract, met: enough distinct
    records of the evidence, each of them qualifying, and none connected to a
    record that a requirement it must be independent of rests on. *)
Definition met (claim : Claim) (evidence : list Evidence) (per : list RequirementAssessment)
    (req : EvidenceRequirement) : Prop :=
  ∃ ra, ra ∈ per ∧ requirement_id ra = er_id req ∧
    NoDup (matched_evidence ra) ∧
    N.to_nat (min_items (min_coverage req)) ≤ length (matched_evidence ra) ∧
    (∀ i, i ∈ matched_evidence ra →
       ∃ e, e ∈ evidence ∧ ev_id e = i ∧ qualifies req claim e) ∧
    (∀ others ra' i j, independence req = MustBeIndependentOf others →
       ra' ∈ per → requirement_id ra' ∈ others →
       i ∈ matched_evidence ra → j ∈ matched_evidence ra' →
       ¬ rtsc (family_edge (dedupe_by_id ∅ evidence)) i j).

(** The assessments of [assess], with some of them revoked: whatever is still
    satisfied and binds is met. *)
Lemma revoked_met claim evidence conds unc reqs per per' req :
  let pool := dedupe_by_id ∅ evidence in
  NoDup (er_id <$> reqs) → Forall2 (shrinks claim conds pool unc) reqs per →
  (∀ req ra others ra' i j, req ∈ reqs → ra ∈ per → requirement_id ra = er_id req →
     ra_state ra = SSatisfied → independence req = MustBeIndependentOf others →
     ra' ∈ per → requirement_id ra' ∈ others →
     i ∈ matched_evidence ra → j ∈ matched_evidence ra' → ¬ rtsc (family_edge pool) i j) →
  Forall2 revoked_from per per' → req ∈ reqs →
  (∀ ra, ra ∈ per' → requirement_id ra = er_id req → ra_state ra = SSatisfied) →
  met claim evidence per' req.
Proof.
  intros pool Hids Hsh Hind Hrev Hreq Hst.
  destruct (Forall2_elem_of_l _ _ _ _ Hsh Hreq) as (ra0 & Hra0 & Hs).
  destruct (Forall2_elem_of_l _ _ _ _ Hrev Hra0) as (ra & Hra & Hid & _ & Hcase).
  pose proof (sh_id _ _ _ _ _ _ Hs) as Hid0.
  assert (ra_state ra = SSatisfied) as Hsat by (apply Hst; congruence).
  destruct Hcase as [->|[Hu _]]; [|congruence].
  destruct (assess_requirement_spec claim conds pool unc req) as (_ & _ & Hsub & Hq & _).
  exists ra0. split; [done|]. split; [done|]. split; [|split; [|split]].
  - eapply sublist_NoDup; [apply dedupe_NoDup|]. etrans; [apply Hs|done].
  - by apply Hs.
  - intros i Hi. destruct (Hq i) as (e & He & ?).
    { eapply elem_of_submseteq, sublist_submseteq; [done|apply Hs]. }
    exists e. split; [by apply dedupe_elem in He as [? _]|done].
  - intros others ra' i j Hi Hra' Ho Hin Hjn.
    destruct (Forall2_elem_of_r _ _ _ _ Hrev Hra') as (ra1 & Hra1 & Hid1 & _ & [->|[_ Hnil]]).
    + by apply (Hind req ra0 others ra1 i j).
    + rewrite Hnil in Hjn. by apply elem_of_nil in Hjn.
Qed.

(** Whatever binds is satisfied when the overall state recomputed after
    revoking is. *)
Lemma revoked_binding claim conds pool unc reqs per per' req ra :
  NoDup (er_id <$> reqs) → Forall2 (shrinks claim conds pool unc) reqs per →
  Forall2 revoked_from per per' → recompute_overall per' = SSatisfied →
  req ∈ reqs → binding conds (er_level req) → ra ∈ per' → requirement_id ra = er_id req →
  ra_state ra = SSatisfied.
Proof.
  intros Hids Hsh Hrev Hov Hreq Hb Hra Hid.
  destruct (Forall2_elem_of_r _ _ _ _ Hrev Hra) as (ra0 & Hra0 & Hid0 & Hl & Hcase).
  pose proof (proj1 (recompute_satisfied per') Hov ra Hra) as Hnb. unfold blocks in Hnb.
  assert (shrinks claim conds pool unc req ra0) as Hs
    by (eapply shrinks_of; [done..|congruence]).
  pose proof (sh_applicable _ _ _ _ _ _ Hs Hb) as Hna.
  rewrite Hl, (sh_level _ _ _ _ _ _ Hs) in Hnb.
  destruct Hcase as [->|[Hu _]]; [|rewrite Hu in Hnb];
    destruct (er_level req); simpl in *; try done; by destruct (ra_state ra0).
Qed.

(** The assessment without the capability check. *)
Lemma assess_satisfied_met reg cc claim evidence conds report :
  assess reg cc claim evidence conds = Some (Ok report) →
  overall (assessment report) = SSatisfied →
  ∃ reqs, effective_requirements reg cc = Some (Ok reqs) ∧
    ∀ req, req ∈ reqs → binding conds (er_level req) →
      met claim evidence (per_requirement (assessment report)) req.
Proof.
  intros Ha Hov.
  pose proof (assess_Ok_found _ _ _ _ _ _ Ha) as [[_ Hu]|(c & reqs & Hc & Hr & Hids)];
    [congruence|].
  destruct (assess_spec reg cc claim evidence conds reqs c Hc Hr Hids)
    as (report1 & unc & Ha' & Hsh & Hsat & Hind). rewrite Ha in Ha'. simplify_eq.
  exists reqs. split; [done|]. intros req Hreq Hb.
  eapply revoked_met; [done|done|done| |done|eauto].
  apply Forall_Forall2_diag, Forall_true. intros ra. by split_and!; [..|left].
Qed.

(** C14. What a satisfied contract certifies: the claim's class has a contract
    that resolves, and for each of its requirements that binds (required, or
    conditional with its condition met) there are as many distinct evidence
    records as it asks for, each of the right kind, from an accepted source
    and fresh for the claim, none of them connected by provenance to a record
    that a requirement it must be independent of rests on; and the capabilities
    it presupposes are available. *)
Theorem satisfied_contract_certifies reg cc claim evidence conds available report vs :
  assess_with_capabilities reg cc claim evidence conds available = Some (Ok (report, vs)) →
  overall (assessment report) = SSatisfied →
  ∃ reqs, effective_requirements reg cc = Some (Ok reqs) ∧
    ∀ req, req ∈ reqs → binding conds (er_level req) →
      met claim evidence (per_requirement (assessment report)) req ∧
      capability_prerequisites req ⊆ available.
Proof.
  unfold assess_with_capabilities.
  destruct (assess reg cc claim evidence conds) as [[report0|]|] eqn:Ha; [|done..].
  pose proof (assess_Ok_found _ _ _ _ _ _ Ha) as [[Hc Hu]|(c & reqs & Hc & Hr & Hids)].
  { unfold lookup_contract. rewrite Hc. intros [= <- <-] Hs. congruence. }
  destruct (assess_spec reg cc claim evidence conds reqs c Hc Hr Hids)
    as (report1 & unc & Ha' & Hsh & Hsat0 & Hind). rewrite Ha in Ha'. simplify_eq.
  unfold lookup_contract. rewrite Hc, Hr.
  set (per0 := per_requirement (assessment report1)) in *.
  assert (NoDup (requirement_id <$> per0)) as Hnd.
  { replace (requirement_id <$> per0) with (er_id <$> reqs); [done|].
    clear -Hsh. induction Hsh as [|x y l k Hs _ IH]; csimpl; [done|].
    by rewrite IH, (sh_id _ _ _ _ _ _ Hs). }
  destruct (capability_loop_spec available reqs per0 false Hnd) as (Hrev & Hmiss & Hch).
  destruct (capability_loop available reqs per0 false) as [[per ch] vs'] eqn:Hloop.
  simpl in *. intros [= <- <-] Hov. simpl in *. exists reqs. split; [done|].
  intros req Hreq Hb.
  assert (∀ ra, ra ∈ per → requirement_id ra = er_id req → ra_state ra = SSatisfied) as Hst.
  { intros ra Hra Hid. destruct ch; [by eapply revoked_binding|].
    destruct (Hch eq_refl) as [_ ->]. by apply (Hsat0 Hov req). }
  split; [by eapply revoked_met|].
  destruct (Forall2_elem_of_l _ _ _ _ Hsh Hreq) as (ra0 & Hra0 & Hs).
  destruct (Forall2_elem_of_l _ _ _ _ Hrev Hra0) as (ra & Hra & Hid & _ & _).
  assert (missing_prerequisites available req = []) as Hm.
  { apply (Hmiss req ra); [done|done| |]; [|apply Hst; [done|]];
      by rewrite Hid, (sh_id _ _ _ _ _ _ Hs). }
  intros cl Hcl. destruct (decide (cl ∈ available)) as [|Hn]; [done|].
  assert (cl ∈ missing_prerequisites available req) as Hin
    by by apply list_elem_of_filter.
  rewrite Hm in Hin. by apply elem_of_nil in Hin.
Qed.
End theorems.

(** C15. Resolving the requirements of a class terminates whatever the
    registry, cycles of parents included. When it succeeds, there is exactly one
    requirement for every id that a contract from the class up to the root
    declares: the one the nearest of them declares, which replaces the inherited
    one as a whole. It is no weaker than any of theirs in level and coverage, and
    accepts every trust class that a required one of theirs accepts; it may be
    weaker in everything else, as in freshness, in independence and in accepting
    further trust classes. When it fails, the error names a class without a
    contract, a real cycle, or a requirement that is weaker in one of these three
    ways than one that a contract of the chain declares. *)
Theorem inheritance_resolves_or_explains reg cc :
  ∃ r, effective_requirements reg cc = Some r ∧
    match r with
    | Ok reqs => ∃ ch, ancestry reg cc ch ∧ resolved reg ch reqs
    | Err e => resolution_error reg cc e
    end.
Proof. apply effective_requirements_spec. Qed.

(** The contract floor only tightens, and lets [Proceed] stand exactly when the
    contract is satisfied. *)
Lemma contract_floor_proceed rec a :
  action_rank (rec_action rec) ≤ action_rank (rec_action (apply_contract_floor rec a)) ∧
  (rec_action (apply_contract_floor rec a) = Proceed ↔
     rec_action rec = Proceed ∧ overall a = SSatisfied).
Proof.
  unfold apply_contract_floor. case_decide as Ho; [split; [lia|naive_solver]|].
  case_decide as Ha; simpl; [split; [lia|naive_solver]|].
  rewrite Ha. simpl. split; [lia|naive_solver].
Qed.

(** ** Witnesses and examples *)

#[local] Instance sample_hash_order : HashOrder := { hash_iter _ s := elements s }.
#[local] Instance sample_hash_order_ok : HashOrderOk.
Proof. intros k s. reflexivity. Qed.
#[local] Existing Instance sample_chrono.

Definition registry : ContractRegistry := default ∅ default_registry.

(** The representative contracts are all accepted and resolve. *)
Example default_registry_total :
  is_Some default_registry ∧
  Forall (λ c, effective_requirements registry (ec_claim_class c)
               = Some (Ok (btree_iter (declared c)).*2)) all_contracts.
Proof.
  split; [apply (bool_decide_unpack _); vm_compute; exact I|].
  unfold all_contracts. do 6 (apply Forall_cons_2; [vm_compute; reflexivity|]).
  apply Forall_nil_2.
Qed.

Definition record (i event : Uuid) (kind : EvidenceKind) (payload : Value) (trust : TrustClass)
    (group : option Uuid) : Evidence :=
  mkEvidence i "s" event kind "2026-01-01T02:00:00Z" payload "" 
    (Some (sample_source trust group [])) None false.

Definition overall_of (r : option (result ContractError SatisfactionReport)) :
    option SatisfactionState :=
  match r with Some (Ok report) => Some (overall (assessment report)) | _ => None end.

Definition fixed_class : ClaimClassId := mkClaimClassId "security_defect_fixed" 1.
Definition fixed_evidence : list Evidence :=
  [record 1 10 ExitCode JNull HostObserved None;
   record 1 10 ExitCode JNull HostObserved None;
   record 2 20 TranscriptExcerpt JNull HumanReviewed None].

Definition fixed_report : SatisfactionReport :=
  match assess_with_capabilities registry fixed_class sample_claim fixed_evidence []
          [ProcessResult] with
  | Some (Ok (report, _)) => report
  | _ => mkSatisfactionReport (mkClaimAssessment fixed_class [] SUnknown) []
  end.

Lemma satisfied_contract_certifies_witness :
  overall (assessment fixed_report) = SSatisfied ∧
  met sample_claim fixed_evidence (per_requirement (assessment fixed_report))
    (default (mkEvidenceRequirement "" Required ExitCode [] Durable NoIndependence single [] None)
       (requirements security_defect_fixed !! 1)).
Proof.
  split; [vm_compute; done|].
  destruct (satisfied_contract_certifies registry fixed_class sample_claim fixed_evidence []
    [ProcessResult] fixed_report []) as (reqs & Hr & Hmet).
  - vm_compute. done.
  - vm_compute. done.
  - apply Hmet; [|exact I].
    assert (reqs = (btree_iter (declared security_defect_fixed)).*2) as ->.
    { vm_compute in Hr. injection Hr as <-. vm_compute. done. }
    vm_compute. left.
Defined.

(** Two records of one correlation group do not count as independent: the
    review is taken from its requirement and reported. *)
Example shared_source_is_caught :
  overall_of (assess registry fixed_class sample_claim
    [record 1 10 ExitCode JNull HostObserved (Some 7%N);
     record 2 20 TranscriptExcerpt JNull HumanReviewed (Some 7%N)] []) = Some SUnsatisfied.
Proof. vm_compute. done. Qed.

(** The contents of a record are not read: the exit code of a failed run
    satisfies the contract for passing tests. *)
Example failed_run_satisfies_tests_passed :
  overall_of (assess registry (mkClaimClassId "tests_passed" 1) sample_claim
    [record 1 10 ExitCode (JObject [("exit_code", JNumber "1")]) HostObserved None] [])
  = Some SSatisfied.
Proof. vm_compute. done. Qed.

(** A child contract that accepts a further trust class is composed, although
    it asks for less: a record its parent rejects satisfies it. *)
Definition lax_child : EpistemicContract :=
  mkEpistemicContract (mkClaimClassId "deployment_reported" 1) 1
    (Some (mkClaimClassId "deployment_healthy" 1))
    [mkEvidenceRequirement "independent_health_check" Required ProcessObservation
       [IndependentExternal; AgentAdjacent] Durable NoIndependence single [] None].
Definition lax_registry : ContractRegistry :=
  match register registry lax_child with Ok r => r | Err _ => ∅ end.
Example child_weakens_parent :
  let e := [record 1 10 ProcessObservation JNull AgentAdjacent None] in
  overall_of (assess lax_registry (mkClaimClassId "deployment_healthy" 1) sample_claim e [])
    = Some SUnsatisfied ∧
  overall_of (assess lax_registry (mkClaimClassId "deployment_reported" 1) sample_claim e [])
    = Some SSatisfied.
Proof. vm_compute. done. Qed.

(** Records are claimed in the order of the pool and not reconsidered after
    hardening: the same records satisfy a contract or not by their order. *)
Example satisfaction_depends_on_order :
  let code := record 1 10 ExitCode JNull HostObserved (Some 7%N) in
  let shared := record 2 20 TranscriptExcerpt JNull HumanReviewed (Some 7%N) in
  let own := record 3 30 TranscriptExcerpt JNull HumanReviewed None in
  overall_of (assess registry fixed_class sample_claim [code; shared; own] []) = Some SUnsatisfied ∧
  overall_of (assess registry fixed_class sample_claim [code; own; shared] []) = Some SSatisfied.
Proof. vm_compute. done. Qed.

(** [matched_evidence] is not empty for a requirement that is not satisfied. *)
Example matched_without_satisfaction :
  let req := mkEvidenceRequirement "two" Required ExitCode [HostObserved] Durable NoIndependence
               (mkCoverageRequirement 2) [] None in
  (evaluate_requirement req sample_claim [record 1 10 ExitCode JNull HostObserved None] ∅
     trust_class_of).1 = (SUnavailable, [1%N]).
Proof. vm_compute. done. Qed.
