(* ===== verification/PolicyRevision.v ===== *)
(** * Policy revisions and targeting

    [crates/fornax-types/src/policy/revision.rs] and [target.rs]: publishing a
    draft, reading a revision from the wire, joining it with a binding, and
    the match of a binding against the local device. The digest of a revision
    body ([serde_json] and [sha2]) is the parameter [digest_of]. *)

From S2P Require Import Prelude.
From S2P Require Import Types.
From S2P Require Import Text.
From S2P Require Import PolicyContent.

Local Open Scope fornax_scope.

(** ** Field values *)

Inductive FieldValue :=
| FBool (b : bool)
| FRedactionProfile (r : RedactionProfile)
| FAllowedContent (s : gset EgressContentClass)
| FSensorsDisabled (s : gset string)
| FRequiredSignals (v : list SignalClass)
| FEnforcementRules (v : list EnforcementRule)
| FCacheMaxAgeByRisk (v : RiskClassSeconds)
| FCacheOfflineGraceSeconds (n : N).
#[export] Instance FieldValue_eq_dec : EqDecision FieldValue.
Proof. solve_decision. Defined.

Definition get_field `{SerdeJson} (content : PolicyContent) (field : PolicyFieldId) :
    option FieldValue :=
  match field with
  | CollectionLongitudinalAggregationAllowed =>
      FBool <$> longitudinal_aggregation_allowed (collection content)
  | EgressCloudSyncAllowed => FBool <$> cloud_sync_allowed (egress content)
  | EgressRedactionProfile => FRedactionProfile <$> redaction_profile (egress content)
  | EgressAllowedContent => FAllowedContent <$> allowed_content (egress content)
  | SensorsDisabled => FSensorsDisabled <$> disabled (sensors content)
  | SensorsRequiredSignals =>
      (λ v, FRequiredSignals (dedup (sort_by_key signal_class_sort_key v)))
        <$> required_signals (sensors content)
  | EnforcementRules =>
      (λ v, FEnforcementRules (sort_by_key action_class v)) <$> rules (enforcement content)
  | CacheMaxAgeByRisk => FCacheMaxAgeByRisk <$> max_age_seconds_by_risk (cache content)
  | CacheOfflineGraceSeconds =>
      FCacheOfflineGraceSeconds <$> offline_grace_seconds (cache content)
  | FieldUnrecognized _ => None
  end.

(** ** Revisions *)

Record PolicyRevisionBody := mkPolicyRevisionBody {
  body_schema_version : N;
  body_policy_id : Uuid;
  body_revision : N;
  body_supersedes : option string;
  body_published_at : string;
  body_display_name : string;
  body_content : PolicyContent;
  pinned_fields : gset PolicyFieldId;
}.

Class PolicyDigest := { digest_of : PolicyRevisionBody → string }.

Record PolicyRevisionWire := mkPolicyRevisionWire {
  wire_body : PolicyRevisionBody;
  wire_digest : string;
}.

Record PublishedPolicyRevision := mkPublishedPolicyRevision {
  rev_body : PolicyRevisionBody;
  rev_digest : string;
}.

(** [PublishedPolicyRevision::reference]. *)
Definition reference (r : PublishedPolicyRevision) : PolicyRevisionRef :=
  mkPolicyRevisionRef (body_policy_id (rev_body r)) (body_revision (rev_body r)) (rev_digest r).

Definition try_from_wire `{PolicyDigest} (wire : PolicyRevisionWire) :
    result (list PolicyDiagnostic) PublishedPolicyRevision :=
  if decide (body_schema_version (wire_body wire) ∉ SUPPORTED_POLICY_SCHEMA_VERSIONS)
  then Err [new_diagnostic UnsupportedSchemaVersion SeverityError]
  else if decide (digest_of (wire_body wire) ≠ wire_digest wire)
  then Err [new_diagnostic DigestMismatch SeverityError]
  else Ok (mkPublishedPolicyRevision (wire_body wire) (wire_digest wire)).

Record PolicyDraft := mkPolicyDraft {
  draft_policy_id : Uuid;
  draft_revision : N;
  draft_supersedes : option string;
  draft_display_name : string;
  draft_content : PolicyContent;
  draft_pinned_fields : gset PolicyFieldId;
}.

(** One diagnostic per rule whose action class was already seen. *)
Fixpoint duplicate_rule_diagnostics (seen : gset ActionClass) (rs : list EnforcementRule) :
    list PolicyDiagnostic :=
  match rs with
  | [] => []
  | r :: rs =>
      (if decide (action_class r ∈ seen)
       then [with_field (new_diagnostic DuplicateActionClassRule SeverityError) EnforcementRules]
       else [])
      ++ duplicate_rule_diagnostics ({[action_class r]} ∪ seen) rs
  end.

Definition unsorted_rule_diagnostics (rs : list EnforcementRule) : list PolicyDiagnostic :=
  let actual := action_class <$> rs in
  if decide (sort_by_key id actual ≠ actual)
  then [with_field (new_diagnostic UnsortedEnforcementRules SeverityError) EnforcementRules]
  else [].

Section publish.
Context `{SerdeJson, PolicyDigest}.

Definition pin_diagnostics (content : PolicyContent) (pins : gset PolicyFieldId) :
    list PolicyDiagnostic :=
  field ← btree_set_iter pins;
  match field with
  | FieldUnrecognized _ => []
  | _ =>
      match get_field content field with
      | None => [with_field (new_diagnostic PinNamesUnsetField SeverityError) field]
      | Some _ => []
      end
  end.

Definition draft_diagnostics (d : PolicyDraft) : list PolicyDiagnostic :=
  (if is_blank (draft_display_name d)
   then [new_diagnostic EmptyDisplayName SeverityError] else []) ++
  match rules (enforcement (draft_content d)) with
  | Some rs => duplicate_rule_diagnostics ∅ rs ++ unsorted_rule_diagnostics rs
  | None => []
  end ++
  pin_diagnostics (draft_content d) (draft_pinned_fields d).

(** Canonicalization of the two collections that are vectors. *)
Definition canonicalize (c : PolicyContent) : PolicyContent :=
  mkPolicyContent (collection c) (egress c)
    (mkSensorScope (disabled (sensors c))
       (normalize_signal_classes <$> required_signals (sensors c)))
    (mkEnforcementScope (sort_by_key action_class <$> rules (enforcement c)))
    (cache c).

Definition publish (d : PolicyDraft) (published_at : string) :
    result (list PolicyDiagnostic) PublishedPolicyRevision :=
  let diagnostics := draft_diagnostics d in
  if has_errors diagnostics then Err diagnostics
  else
    let body :=
      mkPolicyRevisionBody POLICY_SCHEMA_VERSION (draft_policy_id d) (draft_revision d)
        (draft_supersedes d) published_at (draft_display_name d)
        (canonicalize (draft_content d)) (draft_pinned_fields d) in
    let digest := digest_of body in
    if decide (body_supersedes body = Some digest)
    then Err [new_diagnostic SupersedesSelf SeverityError]
    else Ok (mkPublishedPolicyRevision body digest).
End publish.

(** ** Targeting *)

Inductive TargetLevel := LOrg | LTeam | LProject | LDevice | LLocalUser.
#[export] Instance TargetLevel_eq_dec : EqDecision TargetLevel.
Proof. solve_decision. Defined.

Inductive OsFamily := MacOs | Linux | Windows | OsUnrecognized (tag : string).
#[export] Instance OsFamily_eq_dec : EqDecision OsFamily.
Proof. solve_decision. Defined.

Inductive TargetScope :=
| ScopeOrg (org_id : string)
| ScopeTeam (org_id team_id : string)
| ScopeProject (org_id project_id : string)
| ScopeDevice (device_id : string)
| ScopeLocalUser.

Record DeviceContext := mkDeviceContext {
  ctx_org_id : option string;
  ctx_team_ids : gset string;
  ctx_project_ids : gset string;
  ctx_device_id : string;
  ctx_provider : Provider;
  ctx_capabilities : RuntimeCapabilities;
  ctx_os_family : OsFamily;
}.

(** [TargetScope::level] and [TargetScope::matches]. *)
Definition level (s : TargetScope) : TargetLevel :=
  match s with
  | ScopeOrg _ => LOrg
  | ScopeTeam _ _ => LTeam
  | ScopeProject _ _ => LProject
  | ScopeDevice _ => LDevice
  | ScopeLocalUser => LLocalUser
  end.

Definition scope_matches (s : TargetScope) (ctx : DeviceContext) : bool :=
  match s with
  | ScopeOrg org => bool_decide (ctx_org_id ctx = Some org)
  | ScopeTeam org team => bool_decide (ctx_org_id ctx = Some org ∧ team ∈ ctx_team_ids ctx)
  | ScopeProject org project =>
      bool_decide (ctx_org_id ctx = Some org ∧ project ∈ ctx_project_ids ctx)
  | ScopeDevice device => bool_decide (ctx_device_id ctx = device)
  | ScopeLocalUser => true
  end.

(** [os_families] is a set of which only membership and the presence of an
    unrecognized value are read. *)
Record TargetSelector := mkTargetSelector {
  sel_providers : option (list Provider);
  sel_os_families : option (list OsFamily);
  sel_requires_signals : option (list SignalClass);
}.

Definition os_unrecognized (o : OsFamily) : bool :=
  match o with OsUnrecognized _ => true | _ => false end.
Definition class_unrecognized (c : SignalClass) : bool :=
  match c with ClassUnrecognized _ => true | _ => false end.

(** The [os_families] and [requires_signals] clauses: rejected, not
    understood, or satisfied. *)
Inductive ClauseResult := ClauseRejects | ClauseNotUnderstood | ClauseAccepts.

Definition os_clause (sel : TargetSelector) (ctx : DeviceContext) : ClauseResult :=
  match sel_os_families sel with
  | None => ClauseAccepts
  | Some families =>
      if existsb os_unrecognized families then ClauseNotUnderstood
      else if decide (ctx_os_family ctx ∈ families) then ClauseAccepts else ClauseRejects
  end.

Definition signal_clause (sel : TargetSelector) (ctx : DeviceContext) : ClauseResult :=
  match sel_requires_signals sel with
  | None => ClauseAccepts
  | Some signals =>
      if existsb class_unrecognized signals then ClauseNotUnderstood
      else if forallb (is_observable (ctx_capabilities ctx)) signals then ClauseAccepts
      else ClauseRejects
  end.

(** [TargetSelector::matches]: the answer and the diagnostics pushed. *)
Definition selector_matches (sel : TargetSelector) (ctx : DeviceContext) (binding_id : Uuid) :
    bool * list PolicyDiagnostic :=
  let provider_ok :=
    match sel_providers sel with
    | None => true
    | Some ps => bool_decide (ctx_provider ctx ∈ ps)
    end in
  if negb provider_ok then (false, [])
  else
    match os_clause sel ctx with
    | ClauseRejects => (false, [])
    | os =>
        match signal_clause sel ctx with
        | ClauseRejects =>
            (false, [with_bindings (new_diagnostic RequiredSignalUnavailable SeverityWarning)
                       [binding_id]])
        | signals =>
            match os, signals with
            | ClauseAccepts, ClauseAccepts => (true, [])
            | _, _ =>
                (true, [with_bindings (new_diagnostic SelectorNotUnderstood SeverityWarning)
                          [binding_id]])
            end
        end
    end.

Record PolicyBinding := mkPolicyBinding {
  binding_id : Uuid;
  binding_scope : TargetScope;
  binding_selector : TargetSelector;
  binding_revision_ref : PolicyRevisionRef;
}.

Definition binding_matches (b : PolicyBinding) (ctx : DeviceContext) :
    bool * list PolicyDiagnostic :=
  if scope_matches (binding_scope b) ctx
  then selector_matches (binding_selector b) ctx (binding_id b)
  else (false, []).

Record BoundRevision := mkBoundRevision {
  bound_binding : PolicyBinding;
  bound_revision : PublishedPolicyRevision;
}.

(** [BoundRevision::new]. *)
Definition bind_revision (b : PolicyBinding) (r : PublishedPolicyRevision) :
    result (list PolicyDiagnostic) BoundRevision :=
  if decide (ref_digest (binding_revision_ref b) ≠ rev_digest r)
  then Err [with_bindings (new_diagnostic DigestMismatch SeverityError) [binding_id b]]
  else if decide (level (binding_scope b) = LLocalUser ∧ pinned_fields (rev_body r) ≠ ∅)
  then Err [with_bindings (new_diagnostic PinAtLocalUserLayer SeverityError) [binding_id b]]
  else Ok (mkBoundRevision b r).
