(* ===== verification/PolicyResolve.v ===== *)
(** * Policy resolution

    [crates/fornax-types/src/policy/resolve.rs]: the strictness meet of two
    values of a field, the pin-violation check, and [resolve], which combines
    the bound revisions that apply to a device, level by level, into concrete
    values with their provenance. *)

From S2P Require Import Prelude.
From S2P Require Import Types.
From S2P Require Import PolicyContent.
From S2P Require Import PolicyRevision.

Local Open Scope fornax_scope.

(** ** Strictness *)

(** [meet_enforcement_rules]: one rule per action class, the stricter risk
    class and outcomes winning, in the order of the action classes. *)
Definition merge_rule (merged : gmap ActionClass EnforcementRule) (r : EnforcementRule) :
    gmap ActionClass EnforcementRule :=
  match merged !! action_class r with
  | Some existing =>
      <[action_class r :=
          mkEnforcementRule (action_class existing)
            (max_by risk_ord (risk_class existing) (risk_class r))
            (outcomes_meet (outcomes existing) (outcomes r))]> merged
  | None => <[action_class r := r]> merged
  end.

Definition meet_enforcement_rules (a b : list EnforcementRule) : list EnforcementRule :=
  (btree_iter (foldl merge_rule ∅ (a ++ b))).*2.

Section resolve.
Context `{SerdeJson}.

Definition meet_field (field : PolicyFieldId) (a b : FieldValue) : FieldValue :=
  match field, a, b with
  | CollectionLongitudinalAggregationAllowed, FBool a, FBool b => FBool (a && b)
  | EgressCloudSyncAllowed, FBool a, FBool b => FBool (a && b)
  | EgressRedactionProfile, FRedactionProfile a, FRedactionProfile b =>
      FRedactionProfile (max_by redaction_ord a b)
  | EgressAllowedContent, FAllowedContent a, FAllowedContent b => FAllowedContent (a ∩ b)
  | SensorsDisabled, FSensorsDisabled a, FSensorsDisabled b => FSensorsDisabled (a ∪ b)
  | SensorsRequiredSignals, FRequiredSignals a, FRequiredSignals b =>
      FRequiredSignals (union_signal_classes a b)
  | EnforcementRules, FEnforcementRules a, FEnforcementRules b =>
      FEnforcementRules (meet_enforcement_rules a b)
  | CacheMaxAgeByRisk, FCacheMaxAgeByRisk a, FCacheMaxAgeByRisk b =>
      FCacheMaxAgeByRisk (seconds_meet a b)
  | CacheOfflineGraceSeconds, FCacheOfflineGraceSeconds a, FCacheOfflineGraceSeconds b =>
      FCacheOfflineGraceSeconds (N.min a b)
  | _, a, _ => a
  end.

(** Whether rule [c] is at least as strict as [f] in every component. *)
Definition rule_at_least (c f : EnforcementRule) : bool :=
  bool_decide (risk_ord (risk_class f) ≤ risk_ord (risk_class c)) &&
  let ge p := bool_decide (outcome_ord (p (outcomes f)) ≤ outcome_ord (p (outcomes c))) in
  ge vo_verified && ge vo_unverified && ge vo_contradicted && ge vo_review
  && ge vo_unavailable.

Definition is_at_least_as_strict (field : PolicyFieldId) (candidate floor : FieldValue) : bool :=
  match field, candidate, floor with
  | CollectionLongitudinalAggregationAllowed, FBool c, FBool f => f || negb c
  | EgressCloudSyncAllowed, FBool c, FBool f => f || negb c
  | EgressRedactionProfile, FRedactionProfile c, FRedactionProfile f =>
      bool_decide (redaction_ord f ≤ redaction_ord c)
  | EgressAllowedContent, FAllowedContent c, FAllowedContent f => bool_decide (c ⊆ f)
  | SensorsDisabled, FSensorsDisabled c, FSensorsDisabled f => bool_decide (f ⊆ c)
  | SensorsRequiredSignals, FRequiredSignals c, FRequiredSignals f =>
      forallb (λ fs, existsb (λ cs, bool_decide (cs = fs)) c) f
  | EnforcementRules, FEnforcementRules c, FEnforcementRules f =>
      forallb (λ floor_rule,
        match list_find (λ cr, action_class cr = action_class floor_rule) c with
        | Some (_, cr) => rule_at_least cr floor_rule
        | None => false
        end) f
  | CacheMaxAgeByRisk, FCacheMaxAgeByRisk c, FCacheMaxAgeByRisk f =>
      bool_decide (rcs_low c ≤ rcs_low f ∧ rcs_elevated c ≤ rcs_elevated f
                   ∧ rcs_high c ≤ rcs_high f ∧ rcs_critical c ≤ rcs_critical f)%N
  | CacheOfflineGraceSeconds, FCacheOfflineGraceSeconds c, FCacheOfflineGraceSeconds f =>
      bool_decide (c ≤ f)%N
  | _, _, _ => true
  end.

(** ** Resolution *)

Inductive FieldProvenance :=
| ProvBaseline
| ProvLayer (level : TargetLevel) (binding : Uuid) (revision : PolicyRevisionRef)
| ProvPinned (level : TargetLevel) (binding : Uuid) (revision : PolicyRevisionRef).

Record ResolvedPolicy := mkResolvedPolicy {
  rp_values : ResolvedValues;
  rp_provenance : gmap PolicyFieldId FieldProvenance;
  rp_contributing : list PolicyRevisionRef;
}.

Definition is_accumulate_field (field : PolicyFieldId) : bool :=
  match field with SensorsDisabled | SensorsRequiredSignals => true | _ => false end.

Definition provenance_level (p : FieldProvenance) : option TargetLevel :=
  match p with
  | ProvBaseline => None
  | ProvLayer l _ _ | ProvPinned l _ _ => Some l
  end.

Definition apply_field_to_resolved (v : ResolvedValues) (field : PolicyFieldId)
    (value : FieldValue) : ResolvedValues :=
  let '(mkResolvedValues lo cs rp ac sd sr er ma og) := v in
  match field, value with
  | CollectionLongitudinalAggregationAllowed, FBool b =>
      mkResolvedValues b cs rp ac sd sr er ma og
  | EgressCloudSyncAllowed, FBool b => mkResolvedValues lo b rp ac sd sr er ma og
  | EgressRedactionProfile, FRedactionProfile r => mkResolvedValues lo cs r ac sd sr er ma og
  | EgressAllowedContent, FAllowedContent s => mkResolvedValues lo cs rp s sd sr er ma og
  | SensorsDisabled, FSensorsDisabled s => mkResolvedValues lo cs rp ac s sr er ma og
  | SensorsRequiredSignals, FRequiredSignals l => mkResolvedValues lo cs rp ac sd l er ma og
  | EnforcementRules, FEnforcementRules l => mkResolvedValues lo cs rp ac sd sr l ma og
  | CacheMaxAgeByRisk, FCacheMaxAgeByRisk m => mkResolvedValues lo cs rp ac sd sr er m og
  | CacheOfflineGraceSeconds, FCacheOfflineGraceSeconds n =>
      mkResolvedValues lo cs rp ac sd sr er ma n
  | _, _ => v
  end.

(** The mutable state of the two loops. *)
Record RState := mkRState {
  st_floors : gmap PolicyFieldId (FieldValue * FieldProvenance);
  st_current : gmap PolicyFieldId (FieldValue * FieldProvenance);
  st_contributing : list PolicyRevisionRef;
  st_diagnostics : list PolicyDiagnostic;
}.

(** The values the bindings of one level give to a field. *)
Definition candidates_of (field : PolicyFieldId) (bindings : list BoundRevision) :
    list (FieldValue * Uuid * PolicyRevisionRef) :=
  omap (λ b, (λ v, (v, binding_id (bound_binding b), reference (bound_revision b)))
               <$> get_field (body_content (rev_body (bound_revision b))) field) bindings.

(** The candidate with the least binding id, the earliest on a tie. *)
Definition representative (first : FieldValue * Uuid * PolicyRevisionRef)
    (cands : list (FieldValue * Uuid * PolicyRevisionRef)) : Uuid * PolicyRevisionRef :=
  foldl (λ rep c, if decide (c.1.2 < rep.1)%N then (c.1.2, c.2) else rep)
    (first.1.2, first.2) cands.

(** The bindings that pin the field, each recording the accepted value as the
    floor and itself as the provenance of the field. *)
Definition apply_pins (lvl : TargetLevel) (field : PolicyFieldId) (accepted : FieldValue)
    (bindings : list BoundRevision) (st : RState) : RState :=
  foldl (λ st b,
    if decide (field ∈ pinned_fields (rev_body (bound_revision b))) then
      let prov := ProvPinned lvl (binding_id (bound_binding b)) (reference (bound_revision b)) in
      mkRState (<[field := (accepted, prov)]> (st_floors st))
        (match st_current st !! field with
         | Some entry => <[field := (entry.1, prov)]> (st_current st)
         | None => st_current st
         end)
        (st_contributing st) (st_diagnostics st)
    else st) st bindings.

(** The value of a level: the meet of its candidates, folded for an
    accumulating field into what less specific levels contributed. *)
Definition level_value (field : PolicyFieldId) (merged : FieldValue) (st : RState) : FieldValue :=
  if is_accumulate_field field then
    match st_current st !! field with
    | Some (prev, _) => meet_field field prev merged
    | None => merged
    end
  else merged.

(** The body of the loop over the fields at one level. *)
Definition resolve_field (lvl : TargetLevel) (bindings : list BoundRevision) (st : RState)
    (field : PolicyFieldId) : RState :=
  match candidates_of field bindings with
  | [] => st
  | (first :: rest) as cands =>
      let first_value := first.1.1 in
      let differing := existsb (λ c, bool_decide (c.1.1 ≠ first_value)) cands in
      let merged := foldl (λ m c, meet_field field m c.1.1) first_value rest in
      let '(rep_binding, rep_ref) := representative first cands in
      let diags := st_diagnostics st ++
        (if differing then
           [with_revisions
              (with_bindings
                 (with_field (new_diagnostic ConflictingBindingsAtLevel SeverityError) field)
                 ((λ c, c.1.2) <$> cands)) (snd <$> cands)]
         else []) in
      let lvl_value := level_value field merged st in
      let layer := ProvLayer lvl rep_binding rep_ref in
      let '(accepted, prov, violation) :=
        match st_floors st !! field with
        | Some (floor_value, floor_prov) =>
            if is_at_least_as_strict field lvl_value floor_value
            then (lvl_value, layer, [])
            else (floor_value, floor_prov,
                  [with_revisions
                     (with_bindings
                        (with_field (new_diagnostic PinViolation SeverityError) field)
                        [rep_binding]) [rep_ref]])
        | None => (lvl_value, layer, [])
        end in
      apply_pins lvl field accepted bindings
        (mkRState (st_floors st) (<[field := (accepted, prov)]> (st_current st))
           (if decide (rep_ref ∈ st_contributing st) then st_contributing st
            else st_contributing st ++ [rep_ref])
           (diags ++ violation))
  end.

Definition levels : list TargetLevel := [LOrg; LTeam; LProject; LDevice; LLocalUser].

(** [by_level.get(&level)]: the applicable bindings of a level, in slice
    order. *)
Definition at_level (lvl : TargetLevel) (applicable : list BoundRevision) : list BoundRevision :=
  filter (λ b, level (binding_scope (bound_binding b)) = lvl) applicable.

Definition resolve_level (applicable : list BoundRevision) (st : RState) (lvl : TargetLevel) :
    RState :=
  match at_level lvl applicable with
  | [] => st
  | bindings => foldl (resolve_field lvl bindings) st ALL_FIELDS
  end.

(** The selection loop: the bindings that apply, and its diagnostics. *)
Definition select (bound : list BoundRevision) (ctx : DeviceContext) :
    list BoundRevision * list PolicyDiagnostic :=
  (filter (λ b, (binding_matches (bound_binding b) ctx).1 = true) bound,
   bound ≫= λ b, (binding_matches (bound_binding b) ctx).2).

(** The final loop: the concrete values and the provenance of each field. *)
Definition finish (st : RState) : ResolvedPolicy :=
  mkResolvedPolicy
    (foldl (λ v field, match st_current st !! field with
                       | Some (value, _) => apply_field_to_resolved v field value
                       | None => v
                       end) baseline ALL_FIELDS)
    (foldl (λ m field, match st_current st !! field with
                       | Some (_, prov) => <[field := prov]> m
                       | None => <[field := ProvBaseline]> m
                       end) ∅ ALL_FIELDS)
    (st_contributing st).

Definition resolve (bound : list BoundRevision) (ctx : DeviceContext) :
    ResolvedPolicy * list PolicyDiagnostic :=
  let '(applicable, diagnostics) := select bound ctx in
  match applicable with
  | [] =>
      (mkResolvedPolicy baseline
         (foldl (λ m f, <[f := ProvBaseline]> m) ∅ ALL_FIELDS) [],
       diagnostics ++ [new_diagnostic NoApplicablePolicy SeverityInfo])
  | _ =>
      let st := foldl (resolve_level applicable) (mkRState ∅ ∅ [] diagnostics) levels in
      (finish st, st_diagnostics st)
  end.
End resolve.
