(* ===== verification/PolicyStrict.v ===== *)
(** * The strictness order of policy fields

    [meet_field] is a commutative, associative meet of well-shaped values, it
    is at least as strict as both its operands, and [is_at_least_as_strict]
    is transitive. *)

From S2P Require Import Prelude.
From S2P Require Import Types.
From S2P Require Import PolicyContent.
From S2P Require Import PolicyRevision.
From S2P Require Import PolicyResolve.

Local Open Scope fornax_scope.

(** The shape a field's value has, with signal classes as deserialization
    produces them. *)
Definition well_shaped (field : PolicyFieldId) (v : FieldValue) : Prop :=
  match field, v with
  | CollectionLongitudinalAggregationAllowed, FBool _ => True
  | EgressCloudSyncAllowed, FBool _ => True
  | EgressRedactionProfile, FRedactionProfile _ => True
  | EgressAllowedContent, FAllowedContent _ => True
  | SensorsDisabled, FSensorsDisabled _ => True
  | SensorsRequiredSignals, FRequiredSignals l => Forall canonical_class l
  | EnforcementRules, FEnforcementRules _ => True
  | CacheMaxAgeByRisk, FCacheMaxAgeByRisk _ => True
  | CacheOfflineGraceSeconds, FCacheOfflineGraceSeconds _ => True
  | _, _ => False
  end.

(** ** Maxima *)

Section max_by.
Context {A} (rank : A → nat) `{!Inj (=) (=) rank}.
Lemma max_by_rank a b : rank (max_by rank a b) = rank a `max` rank b.
Proof. unfold max_by. case_decide; lia. Qed.
Lemma max_by_comm a b : max_by rank a b = max_by rank b a.
Proof. apply (inj rank). rewrite !max_by_rank. lia. Qed.
Lemma max_by_assoc a b c : max_by rank (max_by rank a b) c = max_by rank a (max_by rank b c).
Proof. apply (inj rank). rewrite !max_by_rank. lia. Qed.
End max_by.

#[export] Instance risk_ord_inj : Inj (=) (=) risk_ord.
Proof. by intros [] []. Qed.
#[export] Instance outcome_ord_inj : Inj (=) (=) outcome_ord.
Proof. by intros [] []. Qed.
#[export] Instance redaction_ord_inj : Inj (=) (=) redaction_ord.
Proof. by intros [] []. Qed.

Lemma outcomes_meet_comm a b : outcomes_meet a b = outcomes_meet b a.
Proof. unfold outcomes_meet. f_equal; apply max_by_comm, _. Qed.
Lemma outcomes_meet_assoc a b c :
  outcomes_meet (outcomes_meet a b) c = outcomes_meet a (outcomes_meet b c).
Proof. unfold outcomes_meet; simpl. f_equal; apply max_by_assoc, _. Qed.

(** ** Rules *)

Definition join_rule (e r : EnforcementRule) : EnforcementRule :=
  mkEnforcementRule (action_class e) (max_by risk_ord (risk_class e) (risk_class r))
    (outcomes_meet (outcomes e) (outcomes r)).

Lemma join_rule_swap e r1 r2 :
  join_rule (join_rule e r1) r2 = join_rule (join_rule e r2) r1.
Proof.
  unfold join_rule; simpl. f_equal.
  - rewrite !max_by_assoc by apply _. f_equal. apply max_by_comm, _.
  - rewrite !outcomes_meet_assoc. f_equal. apply outcomes_meet_comm.
Qed.

Lemma join_rule_comm r1 r2 :
  action_class r1 = action_class r2 → join_rule r1 r2 = join_rule r2 r1.
Proof.
  intros Hc. unfold join_rule. rewrite Hc. f_equal; [apply max_by_comm, _|].
  apply outcomes_meet_comm.
Qed.

Lemma merge_rule_lookup m r k :
  merge_rule m r !! k =
    if decide (action_class r = k)
    then Some (match m !! k with Some e => join_rule e r | None => r end)
    else m !! k.
Proof.
  unfold merge_rule. case_decide as Hk.
  - subst k. destruct (m !! action_class r); by rewrite lookup_insert_eq.
  - destruct (m !! action_class r); by rewrite lookup_insert_ne.
Qed.

Lemma merge_rule_comm m r1 r2 :
  merge_rule (merge_rule m r1) r2 = merge_rule (merge_rule m r2) r1.
Proof.
  apply map_eq. intros k. rewrite !merge_rule_lookup.
  repeat case_decide; try done. destruct (m !! k); [by rewrite join_rule_swap|].
  rewrite join_rule_comm; [done|congruence].
Qed.

Lemma merge_rules_perm m l1 l2 :
  l1 ≡ₚ l2 → foldl merge_rule m l1 = foldl merge_rule m l2.
Proof.
  intros Hp. revert m. induction Hp as [|r l1 l2 _ IH|r1 r2 l|l1 l2 l3 _ IH1 _ IH2];
    intros m; simpl; [done|done|by rewrite merge_rule_comm|by rewrite IH1].
Qed.

(** A merged map stores each rule under its own action class. *)
Lemma merge_rules_keyed l m :
  map_Forall (λ k r, action_class r = k) m →
  map_Forall (λ k r, action_class r = k) (foldl merge_rule m l).
Proof.
  revert m. induction l as [|r l IH]; intros m Hm; [done|]. simpl. apply IH.
  intros k r'. rewrite merge_rule_lookup. case_decide as Hk; [|apply Hm].
  subst k. destruct (m !! action_class r) eqn:E; intros [= <-]; [|done].
  simpl. by apply Hm in E.
Qed.

Lemma merge_distinct_lookup (rs : list EnforcementRule) m k :
  NoDup (action_class <$> rs) → (∀ r, r ∈ rs → m !! action_class r = None) →
  foldl merge_rule m rs !! k =
    match list_find (λ r, action_class r = k) rs with Some (_, r) => Some r | None => m !! k end.
Proof.
  revert m. induction rs as [|r rs IH]; intros m Hnd Hfresh; [done|].
  apply NoDup_cons in Hnd as [Hr Hnd]. simpl. rewrite IH; [|done|].
  - rewrite merge_rule_lookup. case_decide as Hk; [|by destruct (list_find _ rs) as [[]|]].
    subst k. rewrite (Hfresh r) by left. destruct (list_find _ rs) as [[i r']|] eqn:E; [|done].
    exfalso. apply list_find_Some in E as (Hi & Hc & _). apply Hr.
    rewrite <- Hc. apply list_elem_of_fmap_2. by eapply list_elem_of_lookup_2.
  - intros r' Hr'. rewrite merge_rule_lookup, decide_False; [apply Hfresh; by right|].
    intros Hc. apply Hr. rewrite Hc. by apply list_elem_of_fmap_2.
Qed.

Section rules_map.
Context (m : gmap ActionClass EnforcementRule).
Context (Hm : map_Forall (λ k r, action_class r = k) m).
Let rs := (btree_iter m).*2.

Lemma rules_of_map_classes : action_class <$> rs = (btree_iter m).*1.
Proof.
  unfold rs. rewrite <- list_fmap_compose. apply list_fmap_ext.
  intros i [k r] Hi. apply list_elem_of_lookup_2, elem_of_btree_iter in Hi. by apply Hm.
Qed.

Lemma rules_of_map_find k : snd <$> list_find (λ r, action_class r = k) rs = m !! k.
Proof.
  destruct (list_find _ rs) as [[i r]|] eqn:E; simpl.
  - apply list_find_Some in E as (Hi & Hc & _). apply list_elem_of_lookup_2 in Hi.
    apply list_elem_of_fmap in Hi as ([k' r'] & -> & Hin%elem_of_btree_iter).
    simpl in *. rewrite <- Hin. f_equal. by apply Hm in Hin as <-.
  - destruct (m !! k) as [r|] eqn:Ek; [|done]. exfalso.
    rewrite list_find_None, Forall_forall in E. apply (E r); [|by apply Hm].
    apply list_elem_of_fmap. exists (k, r). split; [done|]. by apply elem_of_btree_iter.
Qed.

Lemma merge_rules_of_map : foldl merge_rule ∅ rs = m.
Proof.
  apply map_eq. intros k. rewrite merge_distinct_lookup.
  - rewrite <- rules_of_map_find. by destruct (list_find _ rs) as [[]|].
  - rewrite rules_of_map_classes. apply btree_iter_NoDup_fst.
  - intros r _. apply lookup_empty.
Qed.
End rules_map.

Lemma merged_keyed l : map_Forall (λ k r, action_class r = k) (foldl merge_rule ∅ l).
Proof. apply merge_rules_keyed, map_Forall_empty. Qed.

Lemma meet_rules_comm a b : meet_enforcement_rules a b = meet_enforcement_rules b a.
Proof.
  unfold meet_enforcement_rules. by rewrite (merge_rules_perm ∅ (a ++ b) (b ++ a))
    by apply Permutation_app_comm.
Qed.

Lemma merge_meet_rules a b l :
  foldl merge_rule ∅ (meet_enforcement_rules a b ++ l) = foldl merge_rule ∅ ((a ++ b) ++ l).
Proof.
  unfold meet_enforcement_rules. rewrite foldl_app.
  rewrite merge_rules_of_map by apply merged_keyed. by rewrite <- foldl_app.
Qed.

Lemma meet_rules_assoc a b c :
  meet_enforcement_rules (meet_enforcement_rules a b) c
  = meet_enforcement_rules a (meet_enforcement_rules b c).
Proof.
  unfold meet_enforcement_rules at 1 3. rewrite merge_meet_rules.
  rewrite (merge_rules_perm ∅ (a ++ meet_enforcement_rules b c) (meet_enforcement_rules b c ++ a))
    by apply Permutation_app_comm.
  rewrite merge_meet_rules. by rewrite (merge_rules_perm ∅ ((a ++ b) ++ c) ((b ++ c) ++ a))
    by solve_Permutation.
Qed.

(** ** Normalized signal classes *)

Lemma dedup_sorted {A} `{EqDecision A} (R : relation A) (l : list A) :
  StronglySorted R l → StronglySorted R (dedup l).
Proof.
  induction 1 as [|x l Hl IH Hx]; [constructor|]. simpl.
  destruct (dedup l) as [|y r] eqn:E; [repeat constructor|].
  case_decide; [done|]. constructor; [done|]. rewrite <- E.
  apply Forall_forall. intros z Hz. rewrite elem_of_dedup in Hz.
  by apply (proj1 (Forall_forall _ _) Hx).
Qed.

Lemma dedup_sorted_NoDup {A} `{EqDecision A} (R : relation A) (l : list A) :
  (∀ x y, x ∈ l → y ∈ l → R x y → R y x → x = y) →
  StronglySorted R l → NoDup (dedup l).
Proof.
  induction l as [|x l IH]; intros Hanti Hs; [constructor|].
  apply StronglySorted_inv in Hs as [Hl Hx]. rewrite Forall_forall in Hx.
  assert (NoDup (dedup l)) as Hnd.
  { apply IH; [|done]. intros y z Hy Hz. apply Hanti; by right. }
  pose proof (dedup_sorted R l Hl) as Hds. simpl.
  destruct (dedup l) as [|y r] eqn:E; [apply NoDup_singleton|].
  case_decide as Hxy; [done|]. apply NoDup_cons. split; [|done].
  intros [->|Hin]%elem_of_cons; [done|]. apply Hxy.
  assert (y ∈ l) as Hy by (apply elem_of_dedup; rewrite E; left).
  assert (x ∈ l) as Hxl by (apply elem_of_dedup; rewrite E; by right).
  apply StronglySorted_inv in Hds as [_ Hyr]. rewrite Forall_forall in Hyr.
  apply Hanti; [left|by right|by apply Hx|by apply Hyr].
Qed.

Section signals.
Context `{SerdeJson, !SerdeJsonOk}.

Lemma canonical_key_inj a b :
  canonical_class a → canonical_class b →
  signal_class_sort_key a = signal_class_sort_key b → a = b.
Proof. intros Ha Hb Hk%(inj json_string). by apply canonical_class_tag_inj. Qed.

Lemma elem_of_normalize l c : c ∈ normalize_signal_classes l ↔ c ∈ l.
Proof. unfold normalize_signal_classes. by rewrite elem_of_dedup, elem_of_sort_by_key. Qed.

(** Equal sets of canonical classes normalize to equal lists. *)
Lemma normalize_ext l1 l2 :
  Forall canonical_class l1 → (∀ c, c ∈ l1 ↔ c ∈ l2) →
  normalize_signal_classes l1 = normalize_signal_classes l2.
Proof.
  intros Hc1 Heq. assert (Forall canonical_class l2) as Hc2.
  { rewrite Forall_forall in *. intros c Hc. by apply Hc1, Heq. }
  assert (∀ l, Forall canonical_class l → NoDup (normalize_signal_classes l)) as Hnd.
  { intros l Hc. rewrite Forall_forall in Hc. apply (dedup_sorted_NoDup (key_le signal_class_sort_key));
      [|apply sort_by_key_sorted].
    intros x y. rewrite !elem_of_sort_by_key. intros Hx Hy Hxy Hyx.
    apply canonical_key_inj; [by apply Hc..|]. by apply (anti_symm ord_le). }
  apply (sorted_by_key_unique signal_class_sort_key).
  - apply NoDup_fmap_2_strong; [|by apply Hnd]. rewrite Forall_forall in Hc1.
    intros x y. rewrite !elem_of_normalize. intros Hx Hy. apply canonical_key_inj; by apply Hc1.
  - apply NoDup_Permutation; [by apply Hnd..|]. intros c. by rewrite !elem_of_normalize.
  - apply dedup_sorted, sort_by_key_sorted.
  - apply dedup_sorted, sort_by_key_sorted.
Qed.

Lemma elem_of_union_signals a b c : c ∈ union_signal_classes a b ↔ c ∈ a ∨ c ∈ b.
Proof. unfold union_signal_classes. by rewrite elem_of_normalize, elem_of_app. Qed.

Lemma union_signals_canonical a b :
  Forall canonical_class a → Forall canonical_class b →
  Forall canonical_class (union_signal_classes a b).
Proof.
  rewrite !Forall_forall. intros Ha Hb c [?|?]%elem_of_union_signals; auto.
Qed.

Lemma union_signals_comm a b :
  Forall canonical_class a → Forall canonical_class b →
  union_signal_classes a b = union_signal_classes b a.
Proof.
  intros Ha Hb. apply normalize_ext; [by apply Forall_app|].
  intros c. rewrite !elem_of_app. tauto.
Qed.

Lemma union_signals_assoc a b c :
  Forall canonical_class a → Forall canonical_class b → Forall canonical_class c →
  union_signal_classes (union_signal_classes a b) c
  = union_signal_classes a (union_signal_classes b c).
Proof.
  intros Ha Hb Hc. apply normalize_ext.
  - apply Forall_app. split; [by apply union_signals_canonical|done].
  - intros x. rewrite !elem_of_app, !elem_of_union_signals. tauto.
Qed.

(** ** The meet *)

Lemma meet_well_shaped f a b :
  well_shaped f a → well_shaped f b → well_shaped f (meet_field f a b).
Proof.
  destruct f, a; try done; destruct b; try done. simpl. apply union_signals_canonical.
Qed.

Lemma seconds_meet_comm a b : seconds_meet a b = seconds_meet b a.
Proof. unfold seconds_meet. f_equal; lia. Qed.
Lemma seconds_meet_assoc a b c :
  seconds_meet (seconds_meet a b) c = seconds_meet a (seconds_meet b c).
Proof. unfold seconds_meet; simpl. f_equal; lia. Qed.

Lemma meet_comm f a b :
  well_shaped f a → well_shaped f b → meet_field f a b = meet_field f b a.
Proof.
  destruct f, a; try done; destruct b; try done; intros Ha Hb; simpl; f_equal;
    first [apply andb_comm | apply max_by_comm, _ | by apply union_signals_comm
          | apply meet_rules_comm | apply seconds_meet_comm | lia | set_solver].
Qed.

Lemma meet_assoc f a b c :
  well_shaped f a → well_shaped f b → well_shaped f c →
  meet_field f (meet_field f a b) c = meet_field f a (meet_field f b c).
Proof.
  destruct f, a; try done; destruct b; try done; destruct c; try done;
    intros Ha Hb Hc; simpl; f_equal;
    first [apply eq_sym, andb_assoc | apply max_by_assoc, _ | by apply union_signals_assoc
          | apply meet_rules_assoc | apply seconds_meet_assoc | lia | set_solver].
Qed.

(** The meet of a non-empty list does not depend on its order. *)
Definition meet_all (f : PolicyFieldId) (vs : list FieldValue) : option FieldValue :=
  match vs with [] => None | v :: vs => Some (foldl (meet_field f) v vs) end.

Lemma foldl_meet_well_shaped f v vs :
  well_shaped f v → Forall (well_shaped f) vs → well_shaped f (foldl (meet_field f) v vs).
Proof.
  revert v. induction vs as [|w vs IH]; intros v Hv Hvs; [done|].
  apply Forall_cons in Hvs as [Hw Hvs]. simpl. apply IH; [by apply meet_well_shaped|done].
Qed.

Lemma foldl_meet_perm f v vs ws :
  vs ≡ₚ ws → well_shaped f v → Forall (well_shaped f) vs →
  foldl (meet_field f) v vs = foldl (meet_field f) v ws.
Proof.
  intros Hp. revert v. induction Hp as [|x l1 l2 Hp IH|x y l|l1 l2 l3 Hp1 IH1 _ IH2];
    intros v Hv Hl; simpl; [done|..].
  - apply Forall_cons in Hl as [? ?]. apply IH; [by apply meet_well_shaped|done].
  - apply Forall_cons in Hl as [Hy Hl]. apply Forall_cons in Hl as [Hx Hl]. f_equal.
    rewrite !meet_assoc by done. f_equal. by apply meet_comm.
  - rewrite IH1 by done. apply IH2; [done|]. by rewrite <- Hp1.
Qed.

Lemma meet_all_perm f vs ws :
  vs ≡ₚ ws → Forall (well_shaped f) vs → meet_all f vs = meet_all f ws.
Proof.
  intros Hp. induction Hp as [|x l1 l2 Hp IH|x y l|l1 l2 l3 Hp1 IH1 _ IH2];
    intros Hl; simpl; [done|..].
  - apply Forall_cons in Hl as [? ?]. f_equal. by apply foldl_meet_perm.
  - apply Forall_cons in Hl as [Hy Hl]. apply Forall_cons in Hl as [Hx Hl].
    by rewrite meet_comm.
  - rewrite IH1 by done. apply IH2. by rewrite <- Hp1.
Qed.

(** ** The order *)

(** At least as strict, or the same value. *)
Definition at_least (f : PolicyFieldId) (v w : FieldValue) : Prop :=
  v = w ∨ is_at_least_as_strict f v w = true.

Lemma rule_at_least_trans a b c :
  rule_at_least a b = true → rule_at_least b c = true → rule_at_least a c = true.
Proof.
  unfold rule_at_least. rewrite !andb_true_iff, !bool_decide_eq_true. lia.
Qed.

Lemma rules_at_least_spec c f :
  is_at_least_as_strict EnforcementRules (FEnforcementRules c) (FEnforcementRules f) = true ↔
  ∀ fr, fr ∈ f → ∃ i cr, list_find (λ r, action_class r = action_class fr) c = Some (i, cr)
                       ∧ rule_at_least cr fr = true.
Proof.
  simpl. rewrite forallb_forall. setoid_rewrite <- list_elem_of_In. split; intros Hf fr Hfr.
  - specialize (Hf fr Hfr). destruct (list_find _ c) as [[i cr]|]; [eauto|done].
  - destruct (Hf fr Hfr) as (i & cr & -> & ?). done.
Qed.

Lemma signals_at_least_spec c f :
  is_at_least_as_strict SensorsRequiredSignals (FRequiredSignals c) (FRequiredSignals f) = true
  ↔ ∀ x, x ∈ f → x ∈ c.
Proof.
  simpl. rewrite forallb_forall. setoid_rewrite <- list_elem_of_In.
  setoid_rewrite existsb_exists. setoid_rewrite <- list_elem_of_In.
  setoid_rewrite bool_decide_eq_true. naive_solver.
Qed.

Lemma strict_trans f a b c :
  well_shaped f a → well_shaped f b → well_shaped f c →
  is_at_least_as_strict f a b = true → is_at_least_as_strict f b c = true →
  is_at_least_as_strict f a c = true.
Proof.
  destruct f, a; try done; destruct b; try done; destruct c; try done; intros _ _ _.
  6: rewrite !signals_at_least_spec; eauto.
  6: { rewrite !rules_at_least_spec. intros Hab Hbc cr Hcr.
       destruct (Hbc cr Hcr) as (i & br & Hb & Hbr).
       apply list_find_Some in Hb as (Hb & Hcl & _). apply list_elem_of_lookup_2 in Hb.
       destruct (Hab br Hb) as (j & ar & Ha & Har). rewrite Hcl in Ha.
       exists j, ar. split; [done|]. by eapply rule_at_least_trans. }
  all: simpl; rewrite ?bool_decide_eq_true; try lia; try set_solver.
  all: repeat match goal with b : bool |- _ => destruct b end; done.
Qed.

Lemma at_least_trans f a b c :
  well_shaped f a → well_shaped f b → well_shaped f c →
  at_least f a b → at_least f b c → at_least f a c.
Proof.
  intros Ha Hb Hc [->|Hab]; [done|]. intros [->|Hbc]; [by right|].
  right. by apply (strict_trans f a b c).
Qed.

Lemma rule_at_least_join_l e r : rule_at_least (join_rule e r) e = true.
Proof.
  unfold rule_at_least; simpl. rewrite !andb_true_iff, !bool_decide_eq_true.
  rewrite !max_by_rank. lia.
Qed.
Lemma rule_at_least_join_r e r : rule_at_least (join_rule e r) r = true.
Proof.
  unfold rule_at_least; simpl. rewrite !andb_true_iff, !bool_decide_eq_true.
  rewrite !max_by_rank. lia.
Qed.
Lemma rule_at_least_refl r : rule_at_least r r = true.
Proof. unfold rule_at_least. by rewrite !andb_true_iff, !bool_decide_eq_true. Qed.

(** Merging only makes the rule of a class stricter. *)
Lemma merge_rules_at_least l m k e :
  m !! k = Some e → ∃ e', foldl merge_rule m l !! k = Some e' ∧ rule_at_least e' e = true.
Proof.
  revert m e. induction l as [|r l IH]; intros m e Hm; simpl.
  { exists e. split; [done|apply rule_at_least_refl]. }
  destruct (decide (action_class r = k)) as [Hk|Hk].
  - destruct (IH (merge_rule m r) (join_rule e r)) as (e' & He' & Hr').
    { rewrite merge_rule_lookup, decide_True by done. by rewrite Hm. }
    exists e'. split; [done|]. eapply rule_at_least_trans; [done|apply rule_at_least_join_l].
  - apply IH. by rewrite merge_rule_lookup, decide_False.
Qed.

Lemma merged_rule_at_least l m r :
  r ∈ l → ∃ e, foldl merge_rule m l !! action_class r = Some e ∧ rule_at_least e r = true.
Proof.
  revert m. induction l as [|r' l IH]; [by intros ? []%elem_of_nil|].
  intros m [->|Hr]%elem_of_cons; simpl; [|by apply IH].
  destruct (merge_rules_at_least l (merge_rule m r') (action_class r')
    (match m !! action_class r' with Some e => join_rule e r' | None => r' end))
    as (e & He & Hre).
  { by rewrite merge_rule_lookup, decide_True. }
  exists e. split; [done|]. eapply rule_at_least_trans; [done|].
  destruct (m !! action_class r'); [apply rule_at_least_join_r|apply rule_at_least_refl].
Qed.

(** The meet is at least as strict as both operands. *)
Lemma meet_at_least_l f a b :
  well_shaped f a → well_shaped f b →
  is_at_least_as_strict f (meet_field f a b) a = true.
Proof.
  destruct f, a; try done; destruct b; try done; intros _ _.
  6: { apply signals_at_least_spec. intros x Hx. apply elem_of_union_signals. by left. }
  6: { apply rules_at_least_spec. intros r Hr.
       destruct (merged_rule_at_least (v ++ v0) ∅ r) as (e & He & Hre);
         [apply elem_of_app; by left|].
       rewrite <- (rules_of_map_find _ (merged_keyed (v ++ v0))) in He.
       fold (meet_enforcement_rules v v0) in He.
       destruct (list_find _ _) as [[i e']|]; simplify_eq/=. eauto. }
  all: simpl; rewrite ?bool_decide_eq_true; try (rewrite max_by_rank); try lia; try set_solver.
  1,2: by repeat match goal with b : bool |- _ => destruct b end.
  all: simpl; lia.
Qed.

Lemma meet_at_least_r f a b :
  well_shaped f a → well_shaped f b →
  is_at_least_as_strict f (meet_field f a b) b = true.
Proof. intros Ha Hb. rewrite meet_comm by done. by apply meet_at_least_l. Qed.

Lemma foldl_meet_at_least f v vs w :
  well_shaped f v → Forall (well_shaped f) vs → w ∈ v :: vs →
  at_least f (foldl (meet_field f) v vs) w.
Proof.
  revert v w. induction vs as [|x vs IH]; intros v w Hv Hvs Hw; simpl.
  { apply list_elem_of_singleton in Hw as ->. by left. }
  apply Forall_cons in Hvs as [Hx Hvs].
  assert (well_shaped f (meet_field f v x)) as Hm by by apply meet_well_shaped.
  apply elem_of_cons in Hw as [->|Hw].
  - eapply at_least_trans; [..|apply (IH (meet_field f v x) (meet_field f v x)); [done..|left]|];
      [by apply foldl_meet_well_shaped|done|done|]. right. by apply meet_at_least_l.
  - apply elem_of_cons in Hw as [->|Hw]; [|apply IH; [done..|by right]].
    eapply at_least_trans; [..|apply (IH (meet_field f v x) (meet_field f v x)); [done..|left]|];
      [by apply foldl_meet_well_shaped|done|done|]. right. by apply meet_at_least_r.
Qed.
End signals.
