(* ===== verification/PolicyResolveSpec.v ===== *)
(** * What policy resolution guarantees

    [resolve] refines a specification that treats each field on its own
    ([field_step] folded over the levels); from it follow that the values do
    not depend on the order of the bindings, that a pinned value is never
    loosened, that accumulating fields are the union of every layer, and that
    an unset field has its baseline value. *)

From S2P Require Import Prelude.
From S2P Require Import Types.
From S2P Require Import Text.
From S2P Require Import PolicyContent.
From S2P Require Import PolicyRevision.
From S2P Require Import PolicyResolve.
From S2P Require Import PolicyStrict.

Local Open Scope fornax_scope.

Section spec.
Context `{SerdeJson}.

(** ** One field *)

Definition value_of (field : PolicyFieldId) (b : BoundRevision) : option FieldValue :=
  get_field (body_content (rev_body (bound_revision b))) field.
Definition pins (field : PolicyFieldId) (b : BoundRevision) : Prop :=
  field ∈ pinned_fields (rev_body (bound_revision b)).
#[local] Instance pins_dec field b : Decision (pins field b).
Proof. unfold pins. apply _. Defined.

(** What one level does to a field, given the value and the floor left by the
    less specific levels. *)
Definition field_step (field : PolicyFieldId) (bindings : list BoundRevision)
    (s : option FieldValue * option FieldValue) : option FieldValue * option FieldValue :=
  match meet_all field (omap (value_of field) bindings) with
  | None => s
  | Some merged =>
      let lv := if is_accumulate_field field
                then match s.1 with Some prev => meet_field field prev merged | None => merged end
                else merged in
      let accepted := match s.2 with
                      | Some floor =>
                          if is_at_least_as_strict field lv floor then lv else floor
                      | None => lv
                      end in
      (Some accepted,
       if existsb (λ b, bool_decide (pins field b)) bindings then Some accepted else s.2)
  end.

Definition field_result (applicable : list BoundRevision) (field : PolicyFieldId)
    (lvls : list TargetLevel) : option FieldValue * option FieldValue :=
  foldl (λ s lvl, field_step field (at_level lvl applicable) s) (None, None) lvls.

(** The value and floor of a field in a loop state. *)
Definition view (field : PolicyFieldId) (st : RState) : option FieldValue * option FieldValue :=
  (fst <$> st_current st !! field, fst <$> st_floors st !! field).

(** ** Simulation *)

Lemma candidates_values field bindings :
  (λ c, c.1.1) <$> candidates_of field bindings = omap (value_of field) bindings.
Proof.
  unfold candidates_of, value_of. induction bindings as [|b bs IH]; [done|]. simpl.
  destruct (get_field _ field); simpl; [|done]. by f_equal.
Qed.

Lemma view_apply_pins lvl field accepted bindings st g :
  view g (apply_pins lvl field accepted bindings st) =
    if decide (g = field)
    then ((view g st).1,
          if existsb (λ b, bool_decide (pins field b)) bindings then Some accepted
          else (view g st).2)
    else view g st.
Proof.
  unfold apply_pins. revert st. induction bindings as [|b bs IH]; intros st; simpl.
  { by case_decide. }
  rewrite IH. clear IH. unfold pins at 2. repeat case_decide; subst.
  - rewrite bool_decide_true by done. simpl. f_equal.
    + unfold view; simpl. destruct (st_current st !! field) eqn:E; [|by rewrite E].
      by rewrite lookup_insert_eq.
    + destruct (existsb _ _); [done|]. unfold view; simpl. by rewrite lookup_insert_eq.
  - by rewrite bool_decide_false.
  - unfold view; simpl. rewrite lookup_insert_ne by done.
    destruct (st_current st !! field); [|done]. by rewrite lookup_insert_ne.
  - done.
Qed.

Lemma level_value_view field merged st :
  level_value field merged st =
    if is_accumulate_field field
    then match (view field st).1 with
         | Some prev => meet_field field prev merged | None => merged end
    else merged.
Proof.
  unfold level_value, view; simpl. destruct (is_accumulate_field field); [|done].
  by destruct (st_current st !! field) as [[]|].
Qed.

Lemma meet_all_candidates field bindings :
  meet_all field (omap (value_of field) bindings) =
    match candidates_of field bindings with
    | [] => None
    | first :: rest => Some (foldl (λ m c, meet_field field m c.1.1) first.1.1 rest)
    end.
Proof.
  rewrite <- candidates_values. destruct (candidates_of field bindings) as [|c cs]; [done|].
  simpl. f_equal. generalize c.1.1. induction cs as [|d cs IH]; intros v; [done|].
  simpl. apply IH.
Qed.

Lemma view_resolve_field lvl bindings st field g :
  view g (resolve_field lvl bindings st field) =
    if decide (g = field) then field_step field bindings (view g st) else view g st.
Proof.
  unfold field_step. rewrite meet_all_candidates. unfold resolve_field.
  destruct (candidates_of field bindings) as [|first rest]; [by case_decide|].
  destruct (representative _ _) as [rb rr]. rewrite level_value_view.
  set (lv := if is_accumulate_field field then _ else _).
  destruct (match st_floors st !! field with Some _ => _ | None => _ end)
    as [[accepted prov] violation] eqn:Eacc.
  assert (accepted = match (view field st).2 with
    | Some floor => if is_at_least_as_strict field lv floor then lv else floor
    | None => lv end) as Hacc.
  { unfold view; simpl. destruct (st_floors st !! field) as [[fv fp]|]; simpl; [|by simplify_eq].
    destruct (is_at_least_as_strict field lv fv); by simplify_eq. }
  rewrite view_apply_pins. case_decide as Hg; [subst g|].
  - fold lv. rewrite <- Hacc. unfold view; simpl. by rewrite lookup_insert_eq.
  - unfold view; simpl. by rewrite lookup_insert_ne.
Qed.

Lemma view_resolve_fields lvl bindings fields st g :
  NoDup fields →
  view g (foldl (resolve_field lvl bindings) st fields) =
    if decide (g ∈ fields) then field_step g bindings (view g st) else view g st.
Proof.
  intros Hnd. revert st. induction Hnd as [|f fields Hf Hnd IH]; intros st.
  { by rewrite decide_False by apply not_elem_of_nil. }
  simpl.
  rewrite IH, view_resolve_field. destruct (decide (g = f)) as [->|Hne].
  - rewrite decide_False by done. rewrite decide_True by left. done.
  - rewrite (decide_ext (g ∈ f :: fields) (g ∈ fields)); [done|].
    rewrite elem_of_cons. tauto.
Qed.

Lemma ALL_FIELDS_NoDup : NoDup ALL_FIELDS.
Proof. apply (bool_decide_unpack _). vm_compute. done. Qed.

Lemma view_resolve_level applicable st lvl g :
  g ∈ ALL_FIELDS →
  view g (resolve_level applicable st lvl) = field_step g (at_level lvl applicable) (view g st).
Proof.
  intros Hg. unfold resolve_level. destruct (at_level lvl applicable) as [|b bs] eqn:E; [done|].
  rewrite view_resolve_fields by apply ALL_FIELDS_NoDup. by rewrite decide_True.
Qed.

Lemma view_resolve_levels applicable st lvls g :
  g ∈ ALL_FIELDS →
  view g (foldl (resolve_level applicable) st lvls) =
    foldl (λ s lvl, field_step g (at_level lvl applicable) s) (view g st) lvls.
Proof.
  intros Hg. revert st. induction lvls as [|lvl lvls IH]; intros st; [done|]. simpl.
  by rewrite IH, view_resolve_level.
Qed.

(** A field outside the nine is never touched. *)
Lemma view_unlisted applicable st lvls g :
  g ∉ ALL_FIELDS → view g (foldl (resolve_level applicable) st lvls) = view g st.
Proof.
  intros Hg. revert st. induction lvls as [|lvl lvls IH]; intros st; [done|]. simpl.
  rewrite IH. unfold resolve_level. destruct (at_level lvl applicable) as [|b bs]; [done|].
  rewrite view_resolve_fields by apply ALL_FIELDS_NoDup. by rewrite decide_False.
Qed.

Lemma view_initial g diags : view g (mkRState ∅ ∅ [] diags) = (None, None).
Proof. unfold view; simpl. by rewrite !lookup_empty. Qed.

(** ** Reading a field of the resolved values *)

Definition read_field (v : ResolvedValues) (field : PolicyFieldId) : option FieldValue :=
  match field with
  | CollectionLongitudinalAggregationAllowed =>
      Some (FBool (rv_longitudinal_aggregation_allowed v))
  | EgressCloudSyncAllowed => Some (FBool (rv_cloud_sync_allowed v))
  | EgressRedactionProfile => Some (FRedactionProfile (rv_redaction_profile v))
  | EgressAllowedContent => Some (FAllowedContent (rv_allowed_content v))
  | SensorsDisabled => Some (FSensorsDisabled (rv_sensors_disabled v))
  | SensorsRequiredSignals => Some (FRequiredSignals (rv_sensors_required_signals v))
  | EnforcementRules => Some (FEnforcementRules (rv_enforcement_rules v))
  | CacheMaxAgeByRisk => Some (FCacheMaxAgeByRisk (rv_cache_max_age_seconds_by_risk v))
  | CacheOfflineGraceSeconds =>
      Some (FCacheOfflineGraceSeconds (rv_cache_offline_grace_seconds v))
  | FieldUnrecognized _ => None
  end.

(** A value in the constructor its field uses. *)
Definition shaped (field : PolicyFieldId) (v : FieldValue) : Prop :=
  match field, v with
  | CollectionLongitudinalAggregationAllowed, FBool _
  | EgressCloudSyncAllowed, FBool _
  | EgressRedactionProfile, FRedactionProfile _
  | EgressAllowedContent, FAllowedContent _
  | SensorsDisabled, FSensorsDisabled _
  | SensorsRequiredSignals, FRequiredSignals _
  | EnforcementRules, FEnforcementRules _
  | CacheMaxAgeByRisk, FCacheMaxAgeByRisk _
  | CacheOfflineGraceSeconds, FCacheOfflineGraceSeconds _ => True
  | _, _ => False
  end.

Lemma read_apply_eq field v val :
  shaped field val → read_field (apply_field_to_resolved v field val) field = Some val.
Proof. by destruct v, field, val. Qed.

Lemma read_apply_ne field g v val :
  g ≠ field → read_field (apply_field_to_resolved v field val) g = read_field v g.
Proof. intros Hne. by destruct v, field, val, g. Qed.

Lemma get_field_shaped field b v : value_of field b = Some v → shaped field v.
Proof.
  unfold value_of. destruct field; simpl; try done; intros Hv;
    by apply fmap_Some in Hv as (? & _ & ->).
Qed.

Lemma meet_shaped field a b : shaped field a → shaped field b → shaped field (meet_field field a b).
Proof. by destruct field, a, b. Qed.

Lemma meet_all_shaped field bindings m :
  meet_all field (omap (value_of field) bindings) = Some m → shaped field m.
Proof.
  assert (Forall (shaped field) (omap (value_of field) bindings)) as Hall.
  { apply Forall_forall. intros v (b & _ & Hb)%list_elem_of_omap. by eapply get_field_shaped. }
  destruct (omap _ _) as [|v vs]; [done|]. simpl. intros [= <-].
  apply Forall_cons in Hall as [Hv Hvs]. revert v Hv.
  induction Hvs as [|w vs Hw _ IH]; intros v Hv; [done|]. simpl. by apply IH, meet_shaped.
Qed.

Lemma field_step_shaped field bindings s :
  (∀ v, s.1 = Some v → shaped field v) → (∀ v, s.2 = Some v → shaped field v) →
  let s' := field_step field bindings s in
  (∀ v, s'.1 = Some v → shaped field v) ∧ (∀ v, s'.2 = Some v → shaped field v).
Proof.
  intros H1 H2. unfold field_step. destruct (meet_all _ _) as [m|] eqn:E; [|done].
  apply meet_all_shaped in E as Hm.
  set (lv := if is_accumulate_field field then _ else _).
  assert (shaped field lv) as Hlv.
  { unfold lv. destruct (is_accumulate_field field); [|done].
    destruct s.1 eqn:Es; [|done]. apply meet_shaped; eauto. }
  set (acc := match s.2 with Some _ => _ | None => _ end).
  assert (shaped field acc) as Hacc.
  { unfold acc. destruct s.2 eqn:Es; [|done]. destruct (is_at_least_as_strict _ _ _); eauto. }
  simpl. split; [by intros v [= <-]|]. destruct (existsb _ _); [by intros v [= <-]|done].
Qed.

Lemma field_result_shaped applicable field lvls v :
  (field_result applicable field lvls).1 = Some v → shaped field v.
Proof.
  unfold field_result.
  assert (∀ s, (∀ v, s.1 = Some v → shaped field v) → (∀ v, s.2 = Some v → shaped field v) →
    ∀ v, (foldl (λ s lvl, field_step field (at_level lvl applicable) s) s lvls).1 = Some v →
    shaped field v) as Hgen; [|by apply Hgen].
  induction lvls as [|lvl lvls IH]; intros s H1 H2; [done|]. simpl.
  destruct (field_step_shaped field (at_level lvl applicable) s H1 H2) as [H1' H2'].
  by apply IH.
Qed.

(** The loop that applies the current values, read back. *)
Lemma read_finish st fields v g :
  NoDup fields →
  (∀ f val p, st_current st !! f = Some (val, p) → shaped f val) →
  read_field
    (foldl (λ v field, match st_current st !! field with
                       | Some (value, _) => apply_field_to_resolved v field value
                       | None => v end) v fields) g =
    if decide (g ∈ fields)
    then match st_current st !! g with Some (val, _) => Some val | None => read_field v g end
    else read_field v g.
Proof.
  intros Hnd Hsh. revert v. induction Hnd as [|f fields Hf Hnd IH]; intros v.
  { by rewrite decide_False by apply not_elem_of_nil. }
  simpl.
  rewrite IH. destruct (decide (g = f)) as [->|Hne].
  - rewrite decide_False by done. rewrite decide_True by left.
    destruct (st_current st !! f) as [[val p]|] eqn:E; [|done].
    by eapply read_apply_eq, Hsh.
  - rewrite (decide_ext (g ∈ f :: fields) (g ∈ fields)) by (rewrite elem_of_cons; tauto).
    assert (read_field (match st_current st !! f with
      | Some (value, _) => apply_field_to_resolved v f value | None => v end) g
      = read_field v g) as ->; [|done].
    destruct (st_current st !! f) as [[val p]|]; [|done]. by apply read_apply_ne.
Qed.

(** ** The refinement *)

Definition applicable_to (bound : list BoundRevision) (ctx : DeviceContext) :
    list BoundRevision := (select bound ctx).1.

Lemma resolve_field_value bound ctx field :
  field ∈ ALL_FIELDS →
  read_field (rp_values (resolve bound ctx).1) field =
    match (field_result (applicable_to bound ctx) field levels).1 with
    | Some v => Some v
    | None => read_field baseline field
    end.
Proof.
  intros Hf. unfold resolve, applicable_to, select. cbv beta iota zeta. cbn [fst].
  destruct (filter _ bound) as [|b bs] eqn:E.
  { assert (∀ s lvls, foldl (λ s lvl, field_step field (at_level lvl []) s) s lvls = s) as Hid.
    { intros s lvls. revert s. induction lvls as [|l ls IH]; intros s; [done|]. apply IH. }
    unfold field_result. by rewrite Hid. }
  set (st := foldl (resolve_level (b :: bs)) _ levels). cbn [rp_values fst].
  change (rp_values (finish st)) with
    (foldl (λ v field, match st_current st !! field with
                       | Some (value, _) => apply_field_to_resolved v field value
                       | None => v end) baseline ALL_FIELDS).
  assert (∀ g, g ∈ ALL_FIELDS → view g st = field_result (b :: bs) g levels) as Hview.
  { intros g Hg. unfold st. rewrite view_resolve_levels by done. unfold field_result.
    by rewrite view_initial. }
  rewrite read_finish; [|apply ALL_FIELDS_NoDup|].
  - rewrite decide_True by done. rewrite <- Hview by done. unfold view; simpl.
    by destruct (st_current st !! field) as [[]|].
  - intros g val p Hg. destruct (decide (g ∈ ALL_FIELDS)) as [Hin|Hnin].
    + apply (field_result_shaped (b :: bs) g levels). rewrite <- Hview by done.
      unfold view; simpl. by rewrite Hg.
    + exfalso. assert ((view g st).1 = None) as Hn.
      { unfold st. rewrite view_unlisted by done. by rewrite view_initial. }
      unfold view in Hn; simpl in Hn. by rewrite Hg in Hn.
Qed.

Lemma read_field_ext v1 v2 :
  (∀ f, f ∈ ALL_FIELDS → read_field v1 f = read_field v2 f) → v1 = v2.
Proof.
  intros Heq. unfold ALL_FIELDS in Heq. destruct v1, v2.
  pose proof (Heq CollectionLongitudinalAggregationAllowed) as H1.
  pose proof (Heq EgressCloudSyncAllowed) as H2.
  pose proof (Heq EgressRedactionProfile) as H3.
  pose proof (Heq EgressAllowedContent) as H4.
  pose proof (Heq SensorsDisabled) as H5.
  pose proof (Heq SensorsRequiredSignals) as H6.
  pose proof (Heq EnforcementRules) as H7.
  pose proof (Heq CacheMaxAgeByRisk) as H8.
  pose proof (Heq CacheOfflineGraceSeconds) as H9. simpl in *.
  assert (∀ f, f ∈ ALL_FIELDS ↔ match f with FieldUnrecognized _ => False | _ => True end) as Hin.
  { intros f. unfold ALL_FIELDS. destruct f; set_solver. }
  unfold ALL_FIELDS in Hin. rewrite Hin in H1, H2, H3, H4, H5, H6, H7, H8, H9.
  repeat match goal with H : True → _ |- _ => specialize (H I); injection H as -> end. done.
Qed.

(** ** Accumulating fields *)

Section accumulate.
Context (field : PolicyFieldId) (Hacc : is_accumulate_field field = true).
Context {X : Type} (has : FieldValue → X → Prop).
Context (Hmeet : ∀ a b x, shaped field a → shaped field b →
  has (meet_field field a b) x ↔ has a x ∨ has b x).
Context (Hstrict : ∀ a b, shaped field a → shaped field b →
  (∀ x, has b x → has a x) → is_at_least_as_strict field a b = true).

Definition has_opt (o : option FieldValue) (x : X) : Prop := ∃ v, o = Some v ∧ has v x.

(** The state of an accumulating field: the floor is contained in the value. *)
Definition accumulated (s : option FieldValue * option FieldValue) : Prop :=
  (∀ v, s.1 = Some v → shaped field v) ∧ (∀ v, s.2 = Some v → shaped field v) ∧
  ∀ x, has_opt s.2 x → has_opt s.1 x.

Lemma has_meet_all bs m x :
  meet_all field (omap (value_of field) bs) = Some m →
  has m x ↔ ∃ b v, b ∈ bs ∧ value_of field b = Some v ∧ has v x.
Proof using Hmeet.
  intros Hm.
  assert (Forall (shaped field) (omap (value_of field) bs)) as Hsh.
  { apply Forall_forall. intros v (b & _ & Hb)%list_elem_of_omap. by eapply get_field_shaped. }
  transitivity (∃ v, v ∈ omap (value_of field) bs ∧ has v x).
  2: { setoid_rewrite list_elem_of_omap. naive_solver. }
  destruct (omap (value_of field) bs) as [|v vs]; [done|]. injection Hm as <-.
  apply Forall_cons in Hsh as [Hv Hvs]. revert v Hv.
  induction Hvs as [|w vs Hw _ IH]; intros v Hv; simpl.
  - setoid_rewrite list_elem_of_singleton. naive_solver.
  - rewrite IH by by apply meet_shaped. setoid_rewrite elem_of_cons.
    setoid_rewrite elem_of_cons. split.
    + intros (u & [->|Hu] & Hx); [|by eauto]. apply Hmeet in Hx as [?|?]; eauto.
    + intros (u & [->|[->|Hu]] & Hx); [..|by eauto].
      * exists (meet_field field v w). rewrite Hmeet by done. auto.
      * exists (meet_field field v w). rewrite Hmeet by done. auto.
Qed.

Lemma accumulate_step bs s :
  accumulated s →
  accumulated (field_step field bs s) ∧
  ∀ x, has_opt (field_step field bs s).1 x ↔
         has_opt s.1 x ∨ ∃ b v, b ∈ bs ∧ value_of field b = Some v ∧ has v x.
Proof using Hacc Hmeet Hstrict.
  intros (H1 & H2 & Hfl). unfold field_step.
  destruct (meet_all _ _) as [m|] eqn:E.
  2: { split; [done|]. intros x. split; [by left|]. intros [?|(b & v & Hb & Hv & _)]; [done|].
       exfalso. assert (v ∈ omap (value_of field) bs) as Hin by (apply list_elem_of_omap; eauto).
       destruct (omap _ _); [by apply elem_of_nil in Hin|done]. }
  apply meet_all_shaped in E as Hm. rewrite Hacc.
  set (lv := match s.1 with Some _ => _ | None => _ end).
  assert (shaped field lv ∧ ∀ x, has lv x ↔ has_opt s.1 x ∨ has m x) as [Hlv Hhas].
  { unfold lv, has_opt. destruct s.1 as [prev|]; [|split; [done|naive_solver]].
    split; [apply meet_shaped; eauto|]. intros x. rewrite Hmeet by eauto. naive_solver. }
  assert (match s.2 with
          | Some floor => if is_at_least_as_strict field lv floor then lv else floor
          | None => lv end = lv) as ->.
  { destruct s.2 as [fl|] eqn:Es; [|done]. rewrite Hstrict; eauto.
    intros x Hx. apply Hhas. left. apply Hfl. exists fl. done. }
  cbn [fst snd]. split.
  - split_and!; cbn [fst snd]; [by intros v [= <-]|..].
    + destruct (existsb _ _); [by intros v [= <-]|done].
    + destruct (existsb _ _); [done|]. intros x Hx%Hfl. exists lv. split; [done|].
      apply Hhas. by left.
  - intros x. rewrite <- (has_meet_all bs m x E). unfold has_opt at 1. rewrite <- Hhas.
    naive_solver.
Qed.

Lemma accumulate_result applicable x :
  has_opt (field_result applicable field levels).1 x ↔
    ∃ b v, b ∈ applicable ∧ value_of field b = Some v ∧ has v x.
Proof using Hacc Hmeet Hstrict.
  assert (∀ lvls s, accumulated s →
    (∀ x, has_opt (foldl (λ s lvl, field_step field (at_level lvl applicable) s) s lvls).1 x ↔
      has_opt s.1 x ∨ ∃ b v, b ∈ applicable ∧ level (binding_scope (bound_binding b)) ∈ lvls ∧
        value_of field b = Some v ∧ has v x)) as Hfold.
  { induction lvls as [|lvl lvls IH]; intros s Hs y.
    - setoid_rewrite elem_of_nil. naive_solver.
    - cbn [foldl]. destruct (accumulate_step (at_level lvl applicable) s Hs) as [Hs' Hstep].
      rewrite (IH _ Hs' y), Hstep. setoid_rewrite elem_of_cons. unfold at_level.
      setoid_rewrite list_elem_of_filter. naive_solver. }
  unfold field_result. rewrite Hfold by (split_and!; [intros ? [=]..|intros ? (? & [=] & _)]).
  split.
  - intros [(v & [=] & _)|(b & v & Hb & _ & Hv)]; eauto.
  - intros (b & v & Hb & Hv). right. exists b, v. split; [done|]. split; [|done].
    unfold levels. destruct (level _); set_solver.
Qed.
End accumulate.

Context `{!SerdeJsonOk}.

(** Signal classes as deserialization produces them. *)
Definition canonical_bound (b : BoundRevision) : Prop :=
  match required_signals (sensors (body_content (rev_body (bound_revision b)))) with
  | Some l => Forall canonical_class l
  | None => True
  end.

Lemma value_well_shaped field b v :
  canonical_bound b → value_of field b = Some v → well_shaped field v.
Proof.
  unfold canonical_bound, value_of. intros Hc Hv.
  destruct field; simpl in Hv; try done; try (by apply fmap_Some in Hv as (? & _ & ->)).
  apply fmap_Some in Hv as (l & Hl & ->). rewrite Hl in Hc. simpl.
  rewrite Forall_forall in *. intros c Hc'. apply Hc.
  by rewrite elem_of_dedup, elem_of_sort_by_key in Hc'.
Qed.

Lemma values_well_shaped field bs :
  (∀ b, b ∈ bs → canonical_bound b) → Forall (well_shaped field) (omap (value_of field) bs).
Proof.
  intros Hc. apply Forall_forall. intros v (b & Hb & Hv)%list_elem_of_omap.
  eapply value_well_shaped; [by apply Hc|done].
Qed.

Lemma omap_Permutation {A B} (f : A → option B) (l1 l2 : list A) :
  l1 ≡ₚ l2 → omap f l1 ≡ₚ omap f l2.
Proof.
  induction 1 as [|x l1 l2 _ IH|x y l|l1 l2 l3 _ IH1 _ IH2]; simpl; [done|..].
  - destruct (f x); by rewrite IH.
  - destruct (f x), (f y); solve_Permutation.
  - by etrans.
Qed.

Lemma field_step_perm field bs1 bs2 s :
  bs1 ≡ₚ bs2 → (∀ b, b ∈ bs1 → canonical_bound b) →
  field_step field bs1 s = field_step field bs2 s.
Proof.
  intros Hp Hc. unfold field_step.
  rewrite (meet_all_perm field _ (omap (value_of field) bs2)
    (omap_Permutation _ _ _ Hp) (values_well_shaped field bs1 Hc)).
  assert (existsb (λ b, bool_decide (pins field b)) bs1
    = existsb (λ b, bool_decide (pins field b)) bs2) as ->; [|done].
  apply eq_true_iff_eq. rewrite !existsb_exists. setoid_rewrite <- list_elem_of_In.
  by setoid_rewrite Hp.
Qed.

Lemma at_level_perm lvl bs1 bs2 : bs1 ≡ₚ bs2 → at_level lvl bs1 ≡ₚ at_level lvl bs2.
Proof. unfold at_level. by intros ->. Qed.

Lemma field_result_perm field bs1 bs2 lvls :
  bs1 ≡ₚ bs2 → (∀ b, b ∈ bs1 → canonical_bound b) →
  field_result bs1 field lvls = field_result bs2 field lvls.
Proof.
  intros Hp Hc. unfold field_result. generalize (@None FieldValue, @None FieldValue).
  induction lvls as [|lvl lvls IH]; intros s; [done|]. simpl.
  rewrite (field_step_perm field (at_level lvl bs1) (at_level lvl bs2)); [done|by apply at_level_perm|].
  intros b [_ Hb]%list_elem_of_filter. by apply Hc.
Qed.

(** ** Pins *)

(** What the loop keeps of a floor: it is well shaped, and the current value
    is at least as strict. *)
Definition floor_ok (field : PolicyFieldId) (s : option FieldValue * option FieldValue) : Prop :=
  (∀ v, s.1 = Some v → well_shaped field v) ∧
  ∀ fl, s.2 = Some fl → well_shaped field fl ∧ ∃ v, s.1 = Some v ∧ at_least field v fl.

Lemma meet_all_well_shaped field bs m :
  (∀ b, b ∈ bs → canonical_bound b) →
  meet_all field (omap (value_of field) bs) = Some m → well_shaped field m.
Proof.
  intros Hc%(values_well_shaped field). destruct (omap _ _) as [|v vs]; [done|].
  apply Forall_cons in Hc as [Hv Hvs]. intros [= <-]. by apply foldl_meet_well_shaped.
Qed.

(** One level: the accepted value is the level's own unless a floor refuses
    it, and never looser than the floor. *)
Lemma field_step_floor field bs s :
  (∀ b, b ∈ bs → canonical_bound b) → floor_ok field s →
  floor_ok field (field_step field bs s) ∧
  ∀ fl, s.2 = Some fl → ∃ v fl', (field_step field bs s).1 = Some v ∧
    (field_step field bs s).2 = Some fl' ∧ at_least field v fl' ∧ at_least field fl' fl.
Proof.
  intros Hc [H1 H2]. unfold field_step.
  destruct (meet_all _ _) as [m|] eqn:E.
  2: { split; [done|]. intros fl Hfl. destruct (H2 fl Hfl) as (_ & v & Hv & Hge).
       exists v, fl. split_and!; try done. by left. }
  pose proof (meet_all_well_shaped field bs m Hc E) as Hm.
  set (lv := if is_accumulate_field field then _ else _).
  assert (well_shaped field lv) as Hlv.
  { unfold lv. destruct (is_accumulate_field field); [|done].
    destruct s.1 eqn:Es; [|done]. apply meet_well_shaped; eauto. }
  set (acc := match s.2 with Some _ => _ | None => _ end).
  assert (well_shaped field acc ∧ ∀ fl, s.2 = Some fl → at_least field acc fl) as [Hacc Hge].
  { unfold acc. destruct s.2 as [fl|] eqn:Es; [|done].
    destruct (H2 fl) as [Hfl _]; [done|].
    destruct (is_at_least_as_strict _ _ _) eqn:Eg; (split; [done|]); intros fl' [= <-];
      [by right|by left]. }
  cbn [fst snd]. split.
  - split; cbn [fst snd]; [by intros v [= <-]|]. intros fl Hfl.
    destruct (existsb _ _); [injection Hfl as <-; split; [done|]; exists acc; split; [done|by left]|].
    destruct (H2 fl Hfl) as [Hsh _]. split; [done|]. exists acc. auto.
  - intros fl Hfl. exists acc. destruct (existsb _ _).
    + exists acc. split_and!; try done; [by left|by apply Hge].
    + exists fl. split_and!; try done; [by apply Hge|by left].
Qed.

Lemma floor_ok_fold field applicable lvls s w :
  (∀ b, b ∈ applicable → canonical_bound b) → floor_ok field s →
  (foldl (λ s lvl, field_step field (at_level lvl applicable) s) s lvls).1 = Some w →
  well_shaped field w.
Proof.
  intros Hc. revert s. induction lvls as [|lvl lvls IH]; intros s Hok; [by apply Hok|].
  apply IH. apply field_step_floor; [|done].
  intros b [_ Hb]%list_elem_of_filter. by apply Hc.
Qed.

Lemma floor_persists field applicable lvls s fl :
  (∀ b, b ∈ applicable → canonical_bound b) → floor_ok field s →
  s.2 = Some fl → well_shaped field fl →
  ∃ v, (foldl (λ s lvl, field_step field (at_level lvl applicable) s) s lvls).1 = Some v
       ∧ at_least field v fl.
Proof.
  intros Hc. revert s fl. induction lvls as [|lvl lvls IH]; intros s fl Hok Hfl Hsh.
  { destruct Hok as [_ Hok]. destruct (Hok fl Hfl) as (_ & v & Hv & Hge). eauto. }
  destruct (field_step_floor field (at_level lvl applicable) s) as [Hok' Hstep]; [|done|].
  { intros b [_ Hb]%list_elem_of_filter. by apply Hc. }
  destruct (Hstep fl Hfl) as (v & fl' & _ & Hfl' & _ & Hge). cbn [foldl].
  assert (well_shaped field fl') as Hsh' by by apply (proj2 Hok' fl' Hfl').
  destruct (IH _ fl' Hok' Hfl' Hsh') as (w & Hw & Hgew).
  exists w. split; [done|].
  assert (well_shaped field w) as Hshw.
  { eapply (floor_ok_fold field applicable lvls); eauto. }
  by apply (at_least_trans field w fl' fl).
Qed.

Lemma elem_of_applicable bound ctx b :
  b ∈ applicable_to bound ctx ↔ b ∈ bound ∧ (binding_matches (bound_binding b) ctx).1 = true.
Proof. unfold applicable_to, select. simpl. rewrite list_elem_of_filter. tauto. Qed.

Definition level_rank (l : TargetLevel) : nat :=
  match l with LOrg => 0 | LTeam => 1 | LProject => 2 | LDevice => 3 | LLocalUser => 4 end.
Definition bound_level (b : BoundRevision) : TargetLevel :=
  level (binding_scope (bound_binding b)).

Lemma levels_split lvl :
  ∃ before after, levels = before ++ lvl :: after ∧
    ∀ l, l ∈ before → level_rank l < level_rank lvl.
Proof.
  exists (take (level_rank lvl) levels), (drop (S (level_rank lvl)) levels).
  destruct lvl; (split; [done|]); intros l Hl; simpl in Hl;
    repeat (apply elem_of_cons in Hl as [->|Hl]; [simpl; lia|]); by apply elem_of_nil in Hl.
Qed.

Lemma unpinned_no_floor field applicable lvls s :
  (∀ b, b ∈ applicable → bound_level b ∈ lvls → ¬ pins field b) → s.2 = None →
  (foldl (λ s lvl, field_step field (at_level lvl applicable) s) s lvls).2 = None.
Proof.
  revert s. induction lvls as [|lvl lvls IH]; intros s Hnp Hs; [done|]. cbn [foldl]. apply IH.
  { intros b Hb Hl. apply Hnp; [done|by right]. }
  unfold field_step. destruct (meet_all _ _); [|done]. cbn [snd].
  destruct (existsb _ _) eqn:E; [|done]. exfalso.
  apply existsb_exists in E as (b & Hb%list_elem_of_In & Hp%bool_decide_eq_true).
  apply list_elem_of_filter in Hb as [Hl Hb]. apply (Hnp b Hb); [|done].
  unfold bound_level. rewrite Hl. left.
Qed.

(** The level at which a field is first pinned accepts a value at least as
    strict as that of each of its bindings. *)
Lemma first_pin_accepts field bs s b v :
  (∀ b, b ∈ bs → canonical_bound b) → floor_ok field s → s.2 = None →
  b ∈ bs → value_of field b = Some v → pins field b →
  ∃ acc, (field_step field bs s).1 = Some acc ∧ (field_step field bs s).2 = Some acc ∧
         at_least field acc v.
Proof.
  intros Hc Hok Hs Hb Hv Hp. pose proof (values_well_shaped field bs Hc) as Hsh.
  assert (v ∈ omap (value_of field) bs) as Hin by (apply list_elem_of_omap; eauto).
  unfold field_step. rewrite Hs.
  destruct (omap (value_of field) bs) as [|x xs]; [by apply elem_of_nil in Hin|].
  apply Forall_cons in Hsh as [Hx Hxs]. cbn [meet_all fst snd].
  set (merged := foldl _ x xs). set (lv := if is_accumulate_field field then _ else _).
  assert (well_shaped field merged) as Hm by by apply foldl_meet_well_shaped.
  assert (at_least field merged v) as Hmv by by apply foldl_meet_at_least.
  assert (well_shaped field v) as Hvs by (eapply value_well_shaped; [by apply Hc|done]).
  assert (well_shaped field lv ∧ at_least field lv merged) as [Hlv Hlvm].
  { unfold lv. destruct (is_accumulate_field field); [|split; [done|by left]].
    destruct s.1 as [prev|] eqn:Es; [|split; [done|by left]].
    assert (well_shaped field prev) as Hprev by by apply (proj1 Hok).
    split; [by apply meet_well_shaped|right; by apply meet_at_least_r]. }
  exists lv. split; [done|]. split.
  - assert (existsb (λ b, bool_decide (pins field b)) bs = true) as ->; [|done].
    apply existsb_exists. exists b. by rewrite <- list_elem_of_In, bool_decide_eq_true.
  - by apply (at_least_trans field lv merged v).
Qed.

(** A pin is a floor for the device: if a binding that applies pins a
    field it sets, and no applicable binding of a more general level pins that
    field, then whatever more specific levels say the resolved value is at
    least as strict as the pinned one. *)
Theorem pinned_value_is_a_floor (bound : list BoundRevision) (ctx : DeviceContext)
    (field : PolicyFieldId) (b : BoundRevision) (v : FieldValue) :
  (∀ b', b' ∈ bound → canonical_bound b') → field ∈ ALL_FIELDS →
  b ∈ bound → (binding_matches (bound_binding b) ctx).1 = true →
  pins field b → value_of field b = Some v →
  (∀ b', b' ∈ bound → (binding_matches (bound_binding b') ctx).1 = true →
     level_rank (bound_level b') < level_rank (bound_level b) → ¬ pins field b') →
  ∃ w, read_field (rp_values (resolve bound ctx).1) field = Some w ∧ at_least field w v.
Proof.
  intros Hc Hf Hb Hmatch Hp Hv Hfirst. rewrite resolve_field_value by done.
  assert (∀ b, b ∈ applicable_to bound ctx → canonical_bound b) as Hca.
  { intros b' [? _]%elem_of_applicable. by apply Hc. }
  destruct (levels_split (bound_level b)) as (before & after & Hlv & Hbefore).
  unfold field_result. rewrite Hlv, foldl_app. cbn [foldl].
  set (s := foldl _ (None, None) before).
  assert (floor_ok field (None, None)) as Hinit by (split; intros ? [=]).
  assert (floor_ok field s) as Hok.
  { unfold s. clear -Hca Hinit. revert Hinit. generalize (@None FieldValue, @None FieldValue).
    induction before as [|lvl lvls IH]; intros s Hs; [done|]. apply IH.
    apply field_step_floor; [|done]. intros b [_ Hb]%list_elem_of_filter. by apply Hca. }
  assert (s.2 = None) as Hs2.
  { apply unpinned_no_floor; [|done]. intros b' [Hb' Hm']%elem_of_applicable Hl.
    apply Hfirst; [done..|]. by apply Hbefore. }
  destruct (first_pin_accepts field (at_level (bound_level b) (applicable_to bound ctx)) s b v)
    as (acc & Hacc1 & Hacc2 & Hge); try done.
  { intros b' [_ Hb']%list_elem_of_filter. by apply Hca. }
  { apply list_elem_of_filter. split; [done|]. by apply elem_of_applicable. }
  assert (floor_ok field (field_step field (at_level (bound_level b) (applicable_to bound ctx)) s))
    as Hok'.
  { apply field_step_floor; [|done]. intros b' [_ Hb']%list_elem_of_filter. by apply Hca. }
  assert (well_shaped field acc) as Hsh by by apply (proj1 Hok').
  destruct (floor_persists field _ after _ acc Hca Hok' Hacc2 Hsh) as (w & Hw & Hwge).
  rewrite Hw. exists w. split; [done|]. apply (at_least_trans field w acc v); try done.
  - by eapply (floor_ok_fold field _ after).
  - eapply value_well_shaped; [by apply Hc|done].
Qed.

(** The resolved values do not depend on the order in which the bound
    revisions are supplied, for signal classes as deserialization produces
    them. *)
Theorem resolve_order_independent (bound1 bound2 : list BoundRevision) (ctx : DeviceContext) :
  bound1 ≡ₚ bound2 → (∀ b, b ∈ bound1 → canonical_bound b) →
  rp_values (resolve bound1 ctx).1 = rp_values (resolve bound2 ctx).1.
Proof.
  intros Hp Hc. apply read_field_ext. intros f Hf. rewrite !resolve_field_value by done.
  rewrite (field_result_perm f (applicable_to bound1 ctx) (applicable_to bound2 ctx)); [done|..].
  - unfold applicable_to, select. simpl. by rewrite Hp.
  - intros b [Hb _]%elem_of_applicable. by apply Hc.
Qed.

Definition applies (bound : list BoundRevision) (ctx : DeviceContext) (b : BoundRevision) : Prop :=
  b ∈ bound ∧ (binding_matches (bound_binding b) ctx).1 = true.
Definition sensor_scope (b : BoundRevision) : SensorScope :=
  sensors (body_content (rev_body (bound_revision b))).

Lemma sensors_disabled_union bound ctx x :
  x ∈ rv_sensors_disabled (rp_values (resolve bound ctx).1) ↔
    ∃ b s, applies bound ctx b ∧ disabled (sensor_scope b) = Some s ∧ x ∈ s.
Proof.
  set (has := λ (v : FieldValue) (x : string),
    match v with FSensorsDisabled s => x ∈ s | _ => False end).
  pose proof (resolve_field_value bound ctx SensorsDisabled
    ltac:(unfold ALL_FIELDS; set_solver)) as Hd. simpl in Hd.
  transitivity (has_opt has (field_result (applicable_to bound ctx) SensorsDisabled levels).1 x).
  { unfold has_opt. destruct (field_result _ SensorsDisabled levels).1 as [v|]; simplify_eq/=.
    - naive_solver.
    - rewrite Hd. set_solver. }
  rewrite (accumulate_result SensorsDisabled eq_refl has).
  - unfold value_of, sensor_scope; simpl. setoid_rewrite elem_of_applicable. split.
    + intros (b & v & Hb & Hv & Hx). destruct (disabled _) as [s|] eqn:E; simplify_eq/=. eauto.
    + intros (b & s & Hb & Hs & Hx). exists b, (FSensorsDisabled s). by rewrite Hs.
  - intros [] [] y; simpl; try done. set_solver.
  - intros [] []; simpl; try done. intros _ _ Hsub. by apply bool_decide_eq_true.
Qed.

Lemma required_signals_union bound ctx c :
  c ∈ rv_sensors_required_signals (rp_values (resolve bound ctx).1) ↔
    ∃ b l, applies bound ctx b ∧ required_signals (sensor_scope b) = Some l ∧ c ∈ l.
Proof.
  set (has := λ (v : FieldValue) (c : SignalClass),
    match v with FRequiredSignals l => c ∈ l | _ => False end).
  pose proof (resolve_field_value bound ctx SensorsRequiredSignals
    ltac:(unfold ALL_FIELDS; set_solver)) as Hr. simpl in Hr.
  transitivity (has_opt has
    (field_result (applicable_to bound ctx) SensorsRequiredSignals levels).1 c).
  { unfold has_opt.
    destruct (field_result _ SensorsRequiredSignals levels).1 as [v|]; simplify_eq/=.
    - naive_solver.
    - rewrite Hr. set_solver. }
  rewrite (accumulate_result SensorsRequiredSignals eq_refl has).
  - unfold value_of, sensor_scope; simpl. setoid_rewrite elem_of_applicable. split.
    + intros (b & v & Hb & Hv & Hx). destruct (required_signals _) as [l|] eqn:E; simplify_eq/=.
      rewrite elem_of_dedup, elem_of_sort_by_key in Hx. eauto.
    + intros (b & l & Hb & Hl & Hx).
      exists b, (FRequiredSignals (dedup (sort_by_key signal_class_sort_key l))).
      rewrite Hl. do 2 (split; [done|]). simpl. by rewrite elem_of_dedup, elem_of_sort_by_key.
  - intros [] [] y; simpl; try done. intros _ _. apply elem_of_union_signals.
  - intros a b Ha Hb. destruct a, b; try done. apply signals_at_least_spec.
Qed.

(** Safety floors accumulate: a sensor is disabled on the device exactly
    when some applicable layer disables it, and a signal is required exactly
    when some applicable layer requires it, whatever the levels and pins. *)
Theorem safety_floors_accumulate (bound : list BoundRevision) (ctx : DeviceContext) :
  let values := rp_values (resolve bound ctx).1 in
  (∀ x, x ∈ rv_sensors_disabled values ↔
     ∃ b s, applies bound ctx b ∧ disabled (sensor_scope b) = Some s ∧ x ∈ s) ∧
  (∀ c, c ∈ rv_sensors_required_signals values ↔
     ∃ b l, applies bound ctx b ∧ required_signals (sensor_scope b) = Some l ∧ c ∈ l).
Proof. split; [apply sensors_disabled_union|apply required_signals_union]. Qed.

(** C16. Resolution refines a specification that looks at one field at a time:
    the two nested loops over levels and fields, with their shared maps of
    values and floors, give each field the value its own fold over the levels
    gives, and the baseline value if no applicable binding sets it. *)
Theorem resolve_refines_fieldwise (bound : list BoundRevision) (ctx : DeviceContext) :
  Forall (λ field,
    read_field (rp_values (resolve bound ctx).1) field =
      match (field_result (applicable_to bound ctx) field levels).1 with
      | Some v => Some v
      | None => read_field baseline field
      end) ALL_FIELDS.
Proof. apply Forall_forall. intros field. apply resolve_field_value. Qed.

End spec.

(** ** Publishing *)

Section publish_spec.
Context `{SerdeJson}.

Lemma duplicate_rules_nil seen rs :
  has_errors (duplicate_rule_diagnostics seen rs) = false →
  NoDup (action_class <$> rs) ∧ ∀ r, r ∈ rs → action_class r ∉ seen.
Proof.
  revert seen. induction rs as [|r rs IH]; intros seen Hd; [split; [constructor|set_solver]|].
  simpl in Hd. unfold has_errors in Hd. rewrite existsb_app in Hd.
  apply orb_false_iff in Hd as [Hr Hd]. apply IH in Hd as [Hnd Hseen].
  case_decide as Hin; [done|]. split.
  - simpl. apply NoDup_cons. split; [|done]. intros (r' & Heq & Hr')%list_elem_of_fmap.
    apply (Hseen r' Hr'). rewrite <- Heq. set_solver.
  - intros r' [->|Hr']%elem_of_cons; [done|]. specialize (Hseen r' Hr'). set_solver.
Qed.

Lemma unsorted_rules_nil rs :
  has_errors (unsorted_rule_diagnostics rs) = false →
  sort_by_key id (action_class <$> rs) = action_class <$> rs.
Proof.
  unfold unsorted_rule_diagnostics. case_decide as Hs; [done|]. by intros _.
Qed.

(** Rules whose action classes are sorted and distinct are in canonical
    order. *)
Lemma sorted_rules_canonical rs :
  NoDup (action_class <$> rs) → sort_by_key id (action_class <$> rs) = action_class <$> rs →
  sort_by_key action_class rs = rs.
Proof.
  intros Hnd Hs. apply (sorted_by_key_unique action_class).
  - by rewrite sort_by_key_Permutation.
  - apply sort_by_key_Permutation.
  - apply sort_by_key_sorted.
  - pose proof (sort_by_key_sorted id (action_class <$> rs)) as Hsorted. rewrite Hs in Hsorted.
    clear -Hsorted. induction rs as [|r rs IH]; [constructor|].
    apply StronglySorted_inv in Hsorted as [Hrs Hr]. constructor; [by apply IH|].
    by apply (Forall_fmap action_class (key_le id (action_class r)) rs) in Hr.
Qed.

Context `{PolicyDigest}.

Lemma pin_diagnostics_nil content ps f :
  has_errors (pin_diagnostics content ps) = false → f ∈ ps →
  (∀ tag, f ≠ FieldUnrecognized tag) → is_Some (get_field content f).
Proof.
  intros Hd Hf Hrec. destruct (get_field content f) as [v|] eqn:E; [eauto|]. exfalso.
  assert (has_errors (pin_diagnostics content ps) = true); [|congruence].
  unfold has_errors. apply existsb_exists.
  exists (with_field (new_diagnostic PinNamesUnsetField SeverityError) f). split; [|done].
  apply list_elem_of_In. unfold pin_diagnostics. apply list_elem_of_bind. exists f.
  split; [|by apply elem_of_btree_set_iter].
  destruct f; try (by destruct (Hrec tag)); rewrite E; left.
Qed.

(** Publishing either fails with an error diagnostic or yields a revision
    that is what it claims: a name that is not blank, the digest of its own
    body, rules left as given with pairwise distinct action classes in
    order, a value for every recognized field it pins, no reference to itself
    as superseded, and wire bytes that read back as the same revision. *)
Theorem publish_sound (d : PolicyDraft) (published_at : string) :
  match publish d published_at with
  | Ok r =>
      is_blank (draft_display_name d) = false ∧
      rev_digest r = digest_of (rev_body r) ∧
      body_supersedes (rev_body r) ≠ Some (rev_digest r) ∧
      (∀ rs, rules (enforcement (draft_content d)) = Some rs →
         NoDup (action_class <$> rs) ∧
         rules (enforcement (body_content (rev_body r))) = Some rs) ∧
      (∀ f, f ∈ pinned_fields (rev_body r) → (∀ tag, f ≠ FieldUnrecognized tag) →
         is_Some (get_field (draft_content d) f)) ∧
      try_from_wire (mkPolicyRevisionWire (rev_body r) (rev_digest r)) = Ok r
  | Err ds => has_errors ds = true
  end.
Proof.
  unfold publish. destruct (has_errors (draft_diagnostics d)) eqn:Hd; [done|].
  case_decide as Hsup; [done|]. unfold draft_diagnostics, has_errors in Hd.
  rewrite !existsb_app in Hd. apply orb_false_iff in Hd as [Hname Hd].
  apply orb_false_iff in Hd as [Hrules Hpins]. split_and!.
  - by destruct (is_blank (draft_display_name d)).
  - done.
  - done.
  - intros rs Hrs. rewrite Hrs in Hrules. rewrite existsb_app in Hrules.
    apply orb_false_iff in Hrules as [Hdup Huns].
    apply duplicate_rules_nil in Hdup as [Hnd _]. apply unsorted_rules_nil in Huns.
    split; [done|]. simpl. rewrite Hrs. simpl. by rewrite sorted_rules_canonical.
  - intros f. by apply pin_diagnostics_nil.
  - unfold try_from_wire. simpl. by repeat case_decide.
Qed.
End publish_spec.

(** ** Witnesses *)

(** Quoting, without escapes. *)
Definition quote : string := String (Ascii.ascii_of_nat 34) "".
#[local] Instance sample_json : SerdeJson := { json_string s := quote +:+ s +:+ quote }.

Lemma app_quote_inj x y : x +:+ quote = y +:+ quote → x = y.
Proof.
  revert y. induction x as [|a x IH]; intros [|b y]; simpl; try done.
  - intros [= _ Hq]. by destruct y.
  - intros [= _ Hq]. by destruct x.
  - intros [= -> Hq]. f_equal. by apply IH.
Qed.
#[local] Instance sample_json_ok : SerdeJsonOk.
Proof. intros x y [= Heq]. by apply app_quote_inj. Qed.

Definition sample_ctx : DeviceContext :=
  mkDeviceContext (Some "acme") ∅ ∅ "laptop" ClaudeCode
    (mkRuntimeCapabilities 1 ClaudeCode [] ∅) MacOs.
Definition sample_bound (x : Uuid) (scope : TargetScope) (content : PolicyContent)
    (ps : gset PolicyFieldId) : BoundRevision :=
  mkBoundRevision
    (mkPolicyBinding x scope (mkTargetSelector None None None)
       (mkPolicyRevisionRef (10 + x) 1 "d"))
    (mkPublishedPolicyRevision
       (mkPolicyRevisionBody 1 (10 + x) 1 None "" "p" content ps) "d").
Definition sync_content (allowed : bool) (sensors_off : gset string) : PolicyContent :=
  mkPolicyContent (mkCollectionScope None) (mkEgressScope (Some allowed) None None)
    (mkSensorScope (Some sensors_off) (Some [FinalResponse; ToolTrace]))
    (mkEnforcementScope None) (mkCacheScope None None).

Definition org_bound : BoundRevision :=
  sample_bound 1 (ScopeOrg "acme") (sync_content false {["a"]}) {[EgressCloudSyncAllowed]}.
Definition device_bound : BoundRevision :=
  sample_bound 2 (ScopeDevice "laptop") (sync_content true {["b"]}) ∅.

Lemma pinned_value_is_a_floor_witness :
  ∃ w, read_field (rp_values (resolve [device_bound; org_bound] sample_ctx).1)
         EgressCloudSyncAllowed = Some w ∧ at_least EgressCloudSyncAllowed w (FBool false).
Proof.
  apply (pinned_value_is_a_floor [device_bound; org_bound] sample_ctx EgressCloudSyncAllowed
    org_bound (FBool false)).
  - intros b Hb. repeat (apply elem_of_cons in Hb as [->|Hb]; [by repeat constructor|]).
    by apply elem_of_nil in Hb.
  - apply (bool_decide_unpack _). vm_compute. done.
  - right; left.
  - done.
  - unfold pins. simpl. set_solver.
  - done.
  - intros b _ _ Hlt. simpl in Hlt. lia.
Defined.

Lemma resolve_order_independent_witness :
  rp_values (resolve [device_bound; org_bound] sample_ctx).1 =
  rp_values (resolve [org_bound; device_bound] sample_ctx).1.
Proof.
  apply resolve_order_independent; [constructor|].
  intros b Hb. repeat (apply elem_of_cons in Hb as [->|Hb]; [by repeat constructor|]).
  by apply elem_of_nil in Hb.
Defined.

Lemma safety_floors_accumulate_witness :
  let values := rp_values (resolve [device_bound; org_bound] sample_ctx).1 in
  ("a" ∈ rv_sensors_disabled values ↔
     ∃ b s, applies [device_bound; org_bound] sample_ctx b ∧
       disabled (sensor_scope b) = Some s ∧ "a" ∈ s) ∧
  rv_sensors_disabled values = {["a"; "b"]}.
Proof.
  split; [|vm_compute; reflexivity].
  apply (safety_floors_accumulate [device_bound; org_bound] sample_ctx).
Defined.

(** The values are order independent, the rest of the result is not: with two
    bindings of one level that pin the same field, the recorded provenance is
    that of the binding supplied last. *)
Example provenance_depends_on_order :
  let b1 := sample_bound 1 (ScopeOrg "acme") (sync_content false ∅) {[EgressCloudSyncAllowed]} in
  let b2 := sample_bound 2 (ScopeOrg "acme") (sync_content false ∅) {[EgressCloudSyncAllowed]} in
  rp_provenance (resolve [b1; b2] sample_ctx).1 !! EgressCloudSyncAllowed
  ≠ rp_provenance (resolve [b2; b1] sample_ctx).1 !! EgressCloudSyncAllowed.
Proof. vm_compute. done. Qed.

(** A pin at a more specific level than another pin of the same field need not
    hold its own value: the floor is the value that level accepts, here the
    organisation's, which the device's own pinned set does not contain. *)
Example second_pin_is_not_a_floor :
  let content c := mkPolicyContent (mkCollectionScope None) (mkEgressScope None None (Some c))
    (mkSensorScope None None) (mkEnforcementScope None) (mkCacheScope None None) in
  let b1 := sample_bound 1 (ScopeOrg "acme") (content {[ClaimText]}) {[EgressAllowedContent]} in
  let b2 := sample_bound 2 (ScopeDevice "laptop") (content {[FindingVerdicts]})
              {[EgressAllowedContent]} in
  rv_allowed_content (rp_values (resolve [b1; b2] sample_ctx).1) = {[ClaimText]}.
Proof. vm_compute. done. Qed.
