(* ===== verification/PolicyBundle.v ===== *)
(** * Signed policy artifacts

    [fornax-types/src/policy/bundle.rs] and [policy/revocation.rs]: the trust
    store, the envelope check both artifact types share, and the two
    verifiers. The crates they call (strict base64, Ed25519, SHA-256 and
    [serde_json]) are not part of the repository and are the parameters of
    the class [PolicyWire]; [chrono]'s RFC3339 parser is that of [Chrono]. A
    byte is an [N], and a byte string a list of them. *)

From S2P Require Import Prelude.
From S2P Require Import Types.
From S2P Require Import Text.
From S2P Require Import PolicyContent.
From S2P Require Import PolicyRevision.

Open Scope fornax_scope.

(** ** Data *)

Definition SUPPORTED_BUNDLE_SCHEMA_VERSIONS : list N := [1%N].
Definition MAX_PAYLOAD_BYTES : N := 1024 * 1024.
Definition MAX_SIGNATURES : nat := 8.
(** [fornax-policy-bundle/v1] followed by a line feed. *)
Definition BUNDLE_SIGNING_DOMAIN : list N := string_bytes "fornax-policy-bundle/v1" ++ [10%N].
Definition CLOCK_SKEW_TOLERANCE_SECONDS : Z := 300.

Definition KeyId := string.

Inductive SignatureAlgorithm := Ed25519 | AlgorithmUnrecognized (tag : string).
#[export] Instance SignatureAlgorithm_eq_dec : EqDecision SignatureAlgorithm.
Proof. solve_decision. Defined.

Record BundleSignature := mkBundleSignature {
  sig_key_id : KeyId;
  sig_algorithm : SignatureAlgorithm;
  signature_b64 : string;
}.

Record SignedPolicyBundle := mkSignedPolicyBundle {
  env_schema_version : N;
  env_payload_b64 : string;
  env_signatures : list BundleSignature;
}.

Record BundleProvenance := mkBundleProvenance {
  issuer : string;
  prov_audit_ref : option string;
  authorized_by : option string;
}.

(** The payload, over the type its revision has: [PolicyRevisionWire] as it
    is read, [PublishedPolicyRevision] once the revision's [TryFrom] accepted
    it. *)
Record BundlePayloadOf (R : Type) := mkBundlePayload {
  bp_schema_version : N;
  bundle_id : Uuid;
  sequence : N;
  bp_issued_at : string;
  bp_not_before : string;
  bp_expires_at : string;
  provenance : BundleProvenance;
  bp_revision : R;
  bindings : list PolicyBinding;
}.
Arguments mkBundlePayload {R}.
Arguments bp_schema_version {R}. Arguments bundle_id {R}. Arguments sequence {R}.
Arguments bp_issued_at {R}. Arguments bp_not_before {R}. Arguments bp_expires_at {R}.
Arguments provenance {R}. Arguments bp_revision {R}. Arguments bindings {R}.

Definition BundlePayloadWire := BundlePayloadOf PolicyRevisionWire.
Definition BundlePayload := BundlePayloadOf PublishedPolicyRevision.

Record VerifiedPolicyBundle := mkVerifiedPolicyBundle {
  vb_payload : BundlePayload;
  vb_verified_by : KeyId;
  vb_payload_digest : string;
}.
Definition vb_revision (v : VerifiedPolicyBundle) : PublishedPolicyRevision :=
  bp_revision (vb_payload v).

Definition into_bound_revisions (v : VerifiedPolicyBundle) :
    result (list PolicyDiagnostic) (list BoundRevision) :=
  collect_results ((λ b, bind_revision b (vb_revision v)) <$> bindings (vb_payload v)).

Record TrustedKey := mkTrustedKey {
  tk_key_id : KeyId;
  tk_algorithm : SignatureAlgorithm;
  public_key_b64 : string;
  tk_not_before : option string;
  tk_not_after : option string;
  tk_comment : option string;
}.
#[export] Instance TrustedKey_eq_dec : EqDecision TrustedKey.
Proof. solve_decision. Defined.

Record TrustedVerificationKeys := mkTrustedVerificationKeys {
  tvk_schema_version : N;
  trusted_keys : list TrustedKey;
}.

(** [TrustedVerificationKeys::get]. *)
Definition get_key (t : TrustedVerificationKeys) (k : KeyId) : option TrustedKey :=
  snd <$> list_find (λ key, tk_key_id key = k) (trusted_keys t).

Inductive TrustStoreError :=
| TrustMalformed | DuplicateKeyId (k : KeyId) | MalformedKey (k : KeyId) | TrustEmpty.

Inductive EnvelopeVerificationError :=
| EMalformedPayloadEncoding (detail : string)
| EPayloadTooLarge (found max : N)
| ENoSignatures
| ETooManySignatures (found max : nat)
| EUnknownKeyId (offered : list KeyId)
| EUnsupportedAlgorithm (k : KeyId) (a : SignatureAlgorithm)
| EMalformedSignature (k : KeyId)
| EKeyNotYetValid (k : KeyId) (not_before : string) (now : Z)
| EKeyRetired (k : KeyId) (not_after : string) (now : Z)
| ESignatureInvalid (ks : list KeyId)
| EMalformedKeyTimestamp (field value : string).

Inductive BundleRejection :=
| MalformedEnvelope (detail : string)
| UnsupportedBundleSchemaVersion (found : N) (supported : list N)
| SchemaVersionMismatch (envelope payload : N)
| MalformedPayloadEncoding (detail : string)
| PayloadTooLarge (found max : N)
| NoSignatures
| TooManySignatures (found max : nat)
| UnknownKeyId (offered : list KeyId)
| UnsupportedAlgorithm (k : KeyId) (a : SignatureAlgorithm)
| MalformedSignature (k : KeyId)
| KeyNotYetValid (k : KeyId) (not_before : string) (now : Z)
| KeyRetired (k : KeyId) (not_after : string) (now : Z)
| SignatureInvalid (ks : list KeyId)
| MalformedPayload (detail : string)
| MalformedTimestamp (field value : string)
| BundleNotYetValid (not_before : string) (now tolerance_seconds : Z)
| BundleExpired (expires_at : string) (now : Z)
| BindingRevisionMismatch (binding : Uuid) (expected actual : string).

(** [impl From<EnvelopeVerificationError> for BundleRejection]. *)
Definition bundle_rejection_of (e : EnvelopeVerificationError) : BundleRejection :=
  match e with
  | EMalformedPayloadEncoding d => MalformedPayloadEncoding d
  | EPayloadTooLarge f m => PayloadTooLarge f m
  | ENoSignatures => NoSignatures
  | ETooManySignatures f m => TooManySignatures f m
  | EUnknownKeyId o => UnknownKeyId o
  | EUnsupportedAlgorithm k a => UnsupportedAlgorithm k a
  | EMalformedSignature k => MalformedSignature k
  | EKeyNotYetValid k nb now => KeyNotYetValid k nb now
  | EKeyRetired k na now => KeyRetired k na now
  | ESignatureInvalid ks => SignatureInvalid ks
  | EMalformedKeyTimestamp f v => MalformedTimestamp f v
  end.

(** ** Revocation lists *)

Definition SUPPORTED_REVOCATION_SCHEMA_VERSIONS : list N := [1%N].
Definition REVOCATION_SIGNING_DOMAIN : list N :=
  string_bytes "fornax-policy-revocation/v1" ++ [10%N].
Definition MAX_REVOCATION_ENTRIES : nat := 4096.

Record SignedRevocationList := mkSignedRevocationList {
  rl_schema_version : N;
  rl_payload_b64 : string;
  rl_signatures : list BundleSignature;
}.

Inductive RevocationTarget :=
| TargetRevisionDigest (digest : string)
| TargetPayloadDigest (digest : string)
| TargetUnrecognized.
#[export] Instance RevocationTarget_eq_dec : EqDecision RevocationTarget.
Proof. solve_decision. Defined.

Record RevocationEntry := mkRevocationEntry {
  re_target : RevocationTarget;
  re_revoked_at : string;
  re_reason : string;
  re_audit_ref : option string;
  re_superseded_by : option string;
}.

Record RevocationPayload := mkRevocationPayload {
  rp_schema_version : N;
  rp_issuer : string;
  rp_sequence : N;
  rp_issued_at : string;
  rp_entries : list RevocationEntry;
}.

Record VerifiedRevocationList := mkVerifiedRevocationList {
  vr_payload : RevocationPayload;
  vr_verified_by : KeyId;
  vr_payload_digest : string;
}.

Inductive RevocationRejection :=
| RMalformedEnvelope (detail : string)
| UnsupportedRevocationSchemaVersion (found : N) (supported : list N)
| RSchemaVersionMismatch (envelope payload : N)
| RMalformedPayloadEncoding (detail : string)
| RPayloadTooLarge (found max : N)
| RNoSignatures
| RTooManySignatures (found max : nat)
| RUnknownKeyId (offered : list KeyId)
| RUnsupportedAlgorithm (k : KeyId) (a : SignatureAlgorithm)
| RMalformedSignature (k : KeyId)
| RKeyNotYetValid (k : KeyId) (not_before : string) (now : Z)
| RKeyRetired (k : KeyId) (not_after : string) (now : Z)
| RSignatureInvalid (ks : list KeyId)
| RMalformedTimestamp (field value : string)
| EntryTimestampMalformed (index : nat) (value : string)
| RMalformedPayload (detail : string)
| TooManyEntries (found max : nat)
| EmptyReason (index : nat)
| EmptyIssuer.

(** [impl From<EnvelopeVerificationError> for RevocationRejection]. *)
Definition revocation_rejection_of (e : EnvelopeVerificationError) : RevocationRejection :=
  match e with
  | EMalformedPayloadEncoding d => RMalformedPayloadEncoding d
  | EPayloadTooLarge f m => RPayloadTooLarge f m
  | ENoSignatures => RNoSignatures
  | ETooManySignatures f m => RTooManySignatures f m
  | EUnknownKeyId o => RUnknownKeyId o
  | EUnsupportedAlgorithm k a => RUnsupportedAlgorithm k a
  | EMalformedSignature k => RMalformedSignature k
  | EKeyNotYetValid k nb now => RKeyNotYetValid k nb now
  | EKeyRetired k na now => RKeyRetired k na now
  | ESignatureInvalid ks => RSignatureInvalid ks
  | EMalformedKeyTimestamp f v => RMalformedTimestamp f v
  end.

(** ** The libraries the verifiers call *)

Class PolicyWire := {
  (** [GeneralPurpose::decode] of the strict engine *)
  strict_base64_decode : string → result string (list N);
  (** [ed25519_dalek] *)
  VerifyingKey : Type;
  verifying_key_from_bytes : list N → option VerifyingKey;
  verify_strict : VerifyingKey → list N → list N → bool;
  (** the lower-case hexadecimal of [Sha256::digest] *)
  sha256_hex : list N → string;
  (** [serde_json::from_slice] and [from_str] at each type *)
  parse_bundle_envelope : list N → result string SignedPolicyBundle;
  parse_bundle_payload : list N → result string BundlePayloadWire;
  parse_revocation_envelope : list N → result string SignedRevocationList;
  parse_revocation_payload : list N → result string RevocationPayload;
  parse_trust_store : string → result string TrustedVerificationKeys;
  (** the text of a [TryFrom] error inside a parse *)
  report_text : list PolicyDiagnostic → string;
}.

(** What the libraries promise of a parsed [u64]. *)
Class PolicyWireOk `{PolicyWire} : Prop := {
  bundle_sequence_u64 bytes p :
    parse_bundle_payload bytes = Ok p → (sequence p ≤ u64_max)%N;
  revocation_sequence_u64 bytes p :
    parse_revocation_payload bytes = Ok p → (rp_sequence p ≤ u64_max)%N;
}.

Section verify.
Context `{Chrono, PolicyWire, PolicyDigest}.

Definition digest_payload_bytes (bytes : list N) : string :=
  String.append "sha256:" (sha256_hex bytes).

Definition decode_verifying_key (key : TrustedKey) : option VerifyingKey :=
  match strict_base64_decode (public_key_b64 key) with
  | Err _ => None
  | Ok bytes => if decide (length bytes = 32) then verifying_key_from_bytes bytes else None
  end.

(** ** Loading the trust store *)

Definition timestamp_ok (value : option string) : bool :=
  match value with
  | Some v => bool_decide (is_Some (parse_from_rfc3339 v))
  | None => true
  end.

Fixpoint load_keys (seen : gmap KeyId TrustedKey) (keys : list TrustedKey) :
    result TrustStoreError unit :=
  match keys with
  | [] => Ok tt
  | key :: rest =>
      let? seen' :=
        match seen !! tk_key_id key with
        | Some existing =>
            if decide (existing ≠ key) then Err (DuplicateKeyId (tk_key_id key)) else Ok seen
        | None => Ok (<[tk_key_id key := key]> seen)
        end in
      match decode_verifying_key key with
      | None => Err (MalformedKey (tk_key_id key))
      | Some _ =>
          if timestamp_ok (tk_not_before key) && timestamp_ok (tk_not_after key)
          then load_keys seen' rest else Err TrustMalformed
      end
  end.

(** [TrustedVerificationKeys::load]. *)
Definition load_trust_store (raw : string) : result TrustStoreError TrustedVerificationKeys :=
  match parse_trust_store raw with
  | Err _ => Err TrustMalformed
  | Ok parsed =>
      match trusted_keys parsed with
      | [] => Err TrustEmpty
      | _ => let? u := load_keys ∅ (trusted_keys parsed) in Ok parsed
      end
  end.

(** ** The key window *)

Inductive KeyTemporalStatus :=
| Valid | NotYetValid | Retired | MalformedNotBefore | MalformedNotAfter.

Definition key_temporal_status_from_parsed (not_before not_after : option Z) (now : Z) :
    KeyTemporalStatus :=
  if match not_before with Some nb => bool_decide (now < nb)%Z | None => false end
  then NotYetValid
  else if match not_after with Some na => bool_decide (na < now)%Z | None => false end
  then Retired
  else Valid.

(** [None] where a bound is present and does not parse. *)
Definition parse_bound (bound : option string) : option (option Z) :=
  match bound with
  | None => Some None
  | Some v => Some <$> parse_from_rfc3339 v
  end.

Definition key_temporal_status (not_before not_after : option string) (now : Z) :
    KeyTemporalStatus :=
  match parse_bound not_before with
  | None => MalformedNotBefore
  | Some nb =>
      match parse_bound not_after with
      | None => MalformedNotAfter
      | Some na => key_temporal_status_from_parsed nb na now
      end
  end.

(** ** The shared envelope check *)

(** What one turn of the signature loop does. *)
Inductive SigCheck :=
| SigUnknown
| SigSkip (reason : EnvelopeVerificationError)
| SigFailed
| SigVerified.

Definition check_crypto (trusted_key : TrustedKey) (message : list N) (s : BundleSignature) :
    SigCheck :=
  match decode_verifying_key trusted_key with
  | None => SigSkip (EMalformedSignature (sig_key_id s))
  | Some vk =>
      match strict_base64_decode (signature_b64 s) with
      | Err _ => SigSkip (EMalformedSignature (sig_key_id s))
      | Ok sig_bytes =>
          if decide (length sig_bytes ≠ 64) then SigSkip (EMalformedSignature (sig_key_id s))
          else if verify_strict vk message sig_bytes then SigVerified else SigFailed
      end
  end.

Definition check_signature (trusted : TrustedVerificationKeys) (now : Z) (message : list N)
    (s : BundleSignature) : SigCheck :=
  match get_key trusted (sig_key_id s) with
  | None => SigUnknown
  | Some key =>
      match key_temporal_status (tk_not_before key) (tk_not_after key) now with
      | NotYetValid =>
          SigSkip (EKeyNotYetValid (sig_key_id s) (default "" (tk_not_before key)) now)
      | Retired => SigSkip (EKeyRetired (sig_key_id s) (default "" (tk_not_after key)) now)
      | MalformedNotBefore =>
          SigSkip (EMalformedKeyTimestamp "trusted_key.not_before"
                     (default "" (tk_not_before key)))
      | MalformedNotAfter =>
          SigSkip (EMalformedKeyTimestamp "trusted_key.not_after"
                     (default "" (tk_not_after key)))
      | Valid =>
          if decide (sig_algorithm s = Ed25519 ∧ tk_algorithm key = Ed25519)
          then check_crypto key message s
          else SigSkip (EUnsupportedAlgorithm (sig_key_id s) (sig_algorithm s))
      end
  end.

(** The loop's variables. *)
Record SigState := mkSigState {
  offered_key_ids : list KeyId;
  trusted_current_but_failed : list KeyId;
  first_skip_reason : option EnvelopeVerificationError;
}.

Definition record_envelope_skip (slot : option EnvelopeVerificationError)
    (reason : EnvelopeVerificationError) : option EnvelopeVerificationError :=
  match slot with None => Some reason | Some _ => slot end.

(** [Ok] is the loop's [break] with [verified_by] set, [Err] its end with the
    variables it accumulated. *)
Fixpoint signature_loop (trusted : TrustedVerificationKeys) (now : Z) (message : list N)
    (st : SigState) (signatures : list BundleSignature) : result SigState KeyId :=
  match signatures with
  | [] => Err st
  | s :: rest =>
      let k := sig_key_id s in
      let offered := offered_key_ids st ++ [k] in
      match check_signature trusted now message s with
      | SigUnknown =>
          signature_loop trusted now message
            (mkSigState offered (trusted_current_but_failed st) (first_skip_reason st)) rest
      | SigSkip reason =>
          signature_loop trusted now message
            (mkSigState offered (trusted_current_but_failed st)
               (record_envelope_skip (first_skip_reason st) reason)) rest
      | SigFailed =>
          signature_loop trusted now message
            (mkSigState offered (trusted_current_but_failed st ++ [k]) (first_skip_reason st))
            rest
      | SigVerified => Ok k
      end
  end.

(** The precedence of the failures. *)
Definition loop_failure (st : SigState) : EnvelopeVerificationError :=
  match trusted_current_but_failed st with
  | _ :: _ => ESignatureInvalid (trusted_current_but_failed st)
  | [] =>
      match first_skip_reason st with
      | Some reason => reason
      | None => EUnknownKeyId (offered_key_ids st)
      end
  end.

Record VerifiedEnvelope := mkVerifiedEnvelope {
  payload_bytes : list N;
  ve_verified_by : KeyId;
}.

Definition verify_signed_envelope (payload_b64 : string) (signatures : list BundleSignature)
    (domain : list N) (max_payload_bytes : N) (trusted : TrustedVerificationKeys)
    (now : Z) : result EnvelopeVerificationError VerifiedEnvelope :=
  if decide (length signatures = 0) then Err ENoSignatures
  else if decide (MAX_SIGNATURES < length signatures)
  then Err (ETooManySignatures (length signatures) MAX_SIGNATURES)
  else
    match strict_base64_decode payload_b64 with
    | Err detail => Err (EMalformedPayloadEncoding detail)
    | Ok bytes =>
        if decide (max_payload_bytes < N.of_nat (length bytes))%N
        then Err (EPayloadTooLarge (N.of_nat (length bytes)) max_payload_bytes)
        else
          match signature_loop trusted now (domain ++ bytes) (mkSigState [] [] None) signatures with
          | Ok k => Ok (mkVerifiedEnvelope bytes k)
          | Err st => Err (loop_failure st)
          end
    end.

(** ** [verify_bundle] *)

(** The payload's parse, the [TryFrom] of its revision included. *)
Definition parse_payload (bytes : list N) : result string BundlePayload :=
  let? w := parse_bundle_payload bytes in
  match try_from_wire (bp_revision w) with
  | Err report => Err (report_text report)
  | Ok r =>
      Ok (mkBundlePayload (bp_schema_version w) (bundle_id w) (sequence w) (bp_issued_at w)
            (bp_not_before w) (bp_expires_at w) (provenance w) r (bindings w))
  end.

Definition parse_rfc3339 (field value : string) : result BundleRejection Z :=
  match parse_from_rfc3339 value with
  | Some t => Ok t
  | None => Err (MalformedTimestamp field value)
  end.

(** Step 10: the first binding whose digest is not the revision's. *)
Definition check_bindings (revision_digest : string) (bs : list PolicyBinding) :
    result BundleRejection unit :=
  match list_find (λ b, ref_digest (binding_revision_ref b) ≠ revision_digest) bs with
  | Some (_, b) =>
      Err (BindingRevisionMismatch (binding_id b) (ref_digest (binding_revision_ref b))
             revision_digest)
  | None => Ok tt
  end.

(** Steps 7-10, on a payload that was authenticated. *)
Definition check_payload (envelope_version : N) (payload : BundlePayload) (now : Z) :
    result BundleRejection unit :=
  if decide (bp_schema_version payload ≠ envelope_version)
  then Err (SchemaVersionMismatch envelope_version (bp_schema_version payload))
  else
    let? not_before := parse_rfc3339 "not_before" (bp_not_before payload) in
    let? expires_at := parse_rfc3339 "expires_at" (bp_expires_at payload) in
    let? issued_at := parse_rfc3339 "issued_at" (bp_issued_at payload) in
    if decide (now < not_before - CLOCK_SKEW_TOLERANCE_SECONDS * nanos_per_second)%Z
    then Err (BundleNotYetValid (bp_not_before payload) now CLOCK_SKEW_TOLERANCE_SECONDS)
    else if decide (expires_at < now)%Z
    then Err (BundleExpired (bp_expires_at payload) now)
    else check_bindings (rev_digest (bp_revision payload)) (bindings payload).

Definition verify_bundle (envelope_bytes : list N) (trusted : TrustedVerificationKeys)
    (now : Z) : result BundleRejection VerifiedPolicyBundle :=
  match parse_bundle_envelope envelope_bytes with
  | Err detail => Err (MalformedEnvelope detail)
  | Ok envelope =>
      if decide (env_schema_version envelope ∉ SUPPORTED_BUNDLE_SCHEMA_VERSIONS)
      then Err (UnsupportedBundleSchemaVersion (env_schema_version envelope)
                  SUPPORTED_BUNDLE_SCHEMA_VERSIONS)
      else
        match verify_signed_envelope (env_payload_b64 envelope) (env_signatures envelope)
                BUNDLE_SIGNING_DOMAIN MAX_PAYLOAD_BYTES trusted now with
        | Err e => Err (bundle_rejection_of e)
        | Ok ve =>
            match parse_payload (payload_bytes ve) with
            | Err detail => Err (MalformedPayload detail)
            | Ok payload =>
                let? u := check_payload (env_schema_version envelope) payload now in
                Ok (mkVerifiedPolicyBundle payload (ve_verified_by ve)
                      (digest_payload_bytes (payload_bytes ve)))
            end
        end
  end.

(** ** [verify_revocation_list] *)

Definition check_entry_timestamps (entries : list RevocationEntry) :
    result RevocationRejection unit :=
  match list_find (λ e, parse_from_rfc3339 (re_revoked_at e) = None) entries with
  | Some (i, e) => Err (EntryTimestampMalformed i (re_revoked_at e))
  | None => Ok tt
  end.
Definition check_entry_reasons (entries : list RevocationEntry) :
    result RevocationRejection unit :=
  match list_find (λ e, is_blank (re_reason e) = true) entries with
  | Some (i, _) => Err (EmptyReason i)
  | None => Ok tt
  end.

(** Steps 7-9. *)
Definition check_revocation_payload (envelope_version : N) (payload : RevocationPayload) :
    result RevocationRejection unit :=
  if decide (rp_schema_version payload ≠ envelope_version)
  then Err (RSchemaVersionMismatch envelope_version (rp_schema_version payload))
  else if decide (parse_from_rfc3339 (rp_issued_at payload) = None)
  then Err (RMalformedTimestamp "issued_at" (rp_issued_at payload))
  else
    let? u := check_entry_timestamps (rp_entries payload) in
    if decide (MAX_REVOCATION_ENTRIES < length (rp_entries payload))
    then Err (TooManyEntries (length (rp_entries payload)) MAX_REVOCATION_ENTRIES)
    else
      let? v := check_entry_reasons (rp_entries payload) in
      if is_blank (rp_issuer payload) then Err EmptyIssuer else Ok tt.

Definition verify_revocation_list (envelope_bytes : list N)
    (trusted : TrustedVerificationKeys) (now : Z) :
    result RevocationRejection VerifiedRevocationList :=
  match parse_revocation_envelope envelope_bytes with
  | Err detail => Err (RMalformedEnvelope detail)
  | Ok envelope =>
      if decide (rl_schema_version envelope ∉ SUPPORTED_REVOCATION_SCHEMA_VERSIONS)
      then Err (UnsupportedRevocationSchemaVersion (rl_schema_version envelope)
                  SUPPORTED_REVOCATION_SCHEMA_VERSIONS)
      else
        match verify_signed_envelope (rl_payload_b64 envelope) (rl_signatures envelope)
                REVOCATION_SIGNING_DOMAIN MAX_PAYLOAD_BYTES trusted now with
        | Err e => Err (revocation_rejection_of e)
        | Ok ve =>
            match parse_revocation_payload (payload_bytes ve) with
            | Err detail => Err (RMalformedPayload detail)
            | Ok payload =>
                let? u := check_revocation_payload (rl_schema_version envelope) payload in
                Ok (mkVerifiedRevocationList payload (ve_verified_by ve)
                      (digest_payload_bytes (payload_bytes ve)))
            end
        end
  end.

End verify.
