(* ===== verification/PolicyBundleSpec.v ===== *)
(** * What a verified policy artifact certifies

    The theorems on [PolicyBundle]: exactly which envelopes the shared
    signature check accepts and with which key, which failure it reports
    otherwise, and what follows for a bundle or a revocation list that was
    accepted. *)

From S2P Require Import Prelude.
From S2P Require Import Types.
From S2P Require Import Text.
From S2P Require Import PolicyContent.
From S2P Require Import PolicyRevision.
From S2P Require Import PolicyBundle.

Open Scope fornax_scope.

Section spec.
Context `{Chrono, PolicyWire, PolicyDigest}.
Implicit Types (t : TrustedVerificationKeys) (now : Z) (message : list N).

(** ** One signature *)

(** [now] lies within a key's window, each bound of which is absent or
    parses. *)
Definition within_window (not_before not_after : option string) now : Prop :=
  (∀ v, not_before = Some v → ∃ nb, parse_from_rfc3339 v = Some nb ∧ (nb ≤ now)%Z) ∧
  (∀ v, not_after = Some v → ∃ na, parse_from_rfc3339 v = Some na ∧ (now ≤ na)%Z).

(** The signature is by a key of the trust store that is in force at [now],
    over exactly [message]. *)
Definition good_signature t now message (s : BundleSignature) : Prop :=
  ∃ key vk sig_bytes,
    get_key t (sig_key_id s) = Some key ∧
    within_window (tk_not_before key) (tk_not_after key) now ∧
    sig_algorithm s = Ed25519 ∧ tk_algorithm key = Ed25519 ∧
    decode_verifying_key key = Some vk ∧
    strict_base64_decode (signature_b64 s) = Ok sig_bytes ∧ length sig_bytes = 64 ∧
    verify_strict vk message sig_bytes = true.

Lemma key_temporal_status_valid not_before not_after now :
  key_temporal_status not_before not_after now = Valid ↔
  within_window not_before not_after now.
Proof.
  unfold key_temporal_status, key_temporal_status_from_parsed, parse_bound, within_window.
  split.
  - intros Hv.
    destruct not_before as [v1|]; [destruct (parse_from_rfc3339 v1) eqn:E1|];
      destruct not_after as [v2|]; try (destruct (parse_from_rfc3339 v2) eqn:E2);
      simplify_eq/=; repeat case_bool_decide; simplify_eq/=;
      split; intros v Hs; simplify_eq; eexists; (split; [done|lia]).
  - intros [Hb Ha].
    assert (∃ nb, match not_before with None => Some None
                  | Some v => Some <$> parse_from_rfc3339 v end = Some nb ∧
                  ∀ z, nb = Some z → (z ≤ now)%Z) as (nb & -> & Hnb).
    { destruct not_before as [v|]; [|by exists None].
      destruct (Hb v) as (z & -> & Hz); [done|]. exists (Some z). split; [done|].
      intros ? [= <-]. done. }
    assert (∃ na, match not_after with None => Some None
                  | Some v => Some <$> parse_from_rfc3339 v end = Some na ∧
                  ∀ z, na = Some z → (now ≤ z)%Z) as (na & -> & Hna).
    { destruct not_after as [v|]; [|by exists None].
      destruct (Ha v) as (z & -> & Hz); [done|]. exists (Some z). split; [done|].
      intros ? [= <-]. done. }
    destruct nb as [z1|], na as [z2|]; simpl; repeat case_bool_decide; try done;
      try (specialize (Hnb _ eq_refl)); try (specialize (Hna _ eq_refl)); lia.
Qed.

Lemma check_signature_verified t now message s :
  check_signature t now message s = SigVerified ↔ good_signature t now message s.
Proof.
  unfold check_signature, good_signature, check_crypto. split.
  - destruct (get_key t (sig_key_id s)) as [key|] eqn:Ek; [|done].
    destruct (key_temporal_status _ _ _) eqn:Ew; try done.
    apply key_temporal_status_valid in Ew.
    case_decide as Ha; [|done].
    destruct (decode_verifying_key key) as [vk|] eqn:Ed; [|done].
    destruct (strict_base64_decode _) as [sb|] eqn:Es; [|done].
    case_decide as Hl; [done|].
    destruct (verify_strict vk message sb) eqn:Ev; [|done].
    intros _. exists key, vk, sb. destruct Ha. split_and!; done || lia.
  - intros (key & vk & sb & -> & Hw & Hs & Hk & -> & -> & Hl & ->).
    apply key_temporal_status_valid in Hw as ->.
    rewrite decide_True by done. rewrite decide_False by lia. done.
Qed.

(** ** The loop *)

(** The verdicts of the loop on a list of signatures, as comprehensions. *)
Definition failed_ids t now message (sigs : list BundleSignature) : list KeyId :=
  omap (λ s, match check_signature t now message s with
             | SigFailed => Some (sig_key_id s) | _ => None end) sigs.
Definition skip_reason (c : SigCheck) : option EnvelopeVerificationError :=
  match c with SigSkip r => Some r | _ => None end.
Definition skip_reasons t now message (sigs : list BundleSignature) :
    list EnvelopeVerificationError :=
  omap (λ s, skip_reason (check_signature t now message s)) sigs.

(** The failure reported when no signature is good: a trusted key's bad
    signature first, then the first reason a known key was skipped, then the
    key ids nobody trusts. *)
Definition failure_of t now message (sigs : list BundleSignature) :
    EnvelopeVerificationError :=
  match failed_ids t now message sigs with
  | [] =>
      match skip_reasons t now message sigs with
      | r :: _ => r
      | [] => EUnknownKeyId (sig_key_id <$> sigs)
      end
  | ks => ESignatureInvalid ks
  end.

Lemma signature_loop_ok t now message sigs : ∀ st k,
  signature_loop t now message st sigs = Ok k ↔
  ∃ pre s post, sigs = pre ++ s :: post ∧ k = sig_key_id s ∧
    good_signature t now message s ∧
    Forall (λ s', ¬ good_signature t now message s') pre.
Proof.
  induction sigs as [|s0 sigs IH]; intros st k; simpl.
  { split; [done|]. by intros ([|] & ? & ? & ? & _). }
  destruct (check_signature t now message s0) eqn:Ec.
  1,2,3: rewrite IH; split;
    [ intros (pre & s & post & -> & -> & Hg & Hpre); exists (s0 :: pre), s, post;
      split_and!; [done..|]; constructor; [|done];
      by rewrite <-check_signature_verified, Ec
    | intros ([|s1 pre] & s & post & Heq & -> & Hg & Hpre); simplify_eq/=;
      [ by rewrite <-check_signature_verified, Ec in Hg
      | inversion Hpre; simplify_eq; by exists pre, s, post ] ].
  pose proof Ec as Hg0. rewrite check_signature_verified in Hg0. split.
  - intros [= <-]. by exists [], s0, sigs.
  - intros ([|s1 pre] & s & post & Heq & -> & Hg & Hpre); simplify_eq/=; [done|].
    inversion Hpre; simplify_eq. done.
Qed.

Lemma signature_loop_err t now message sigs : ∀ st st',
  signature_loop t now message st sigs = Err st' →
  st' = mkSigState (offered_key_ids st ++ (sig_key_id <$> sigs))
          (trusted_current_but_failed st ++ failed_ids t now message sigs)
          (match first_skip_reason st with
           | Some r => Some r
           | None => head (skip_reasons t now message sigs)
           end).
Proof.
  unfold failed_ids, skip_reasons.
  induction sigs as [|s sigs IH]; intros st st'; simpl.
  { intros [= <-].
    rewrite !app_nil_r. destruct st as [? ? []]; done. }
  destruct (check_signature t now message s) eqn:Ec; [| | |done];
    intros ->%IH; simpl; rewrite <-?app_assoc; simpl; f_equal;
    destruct (first_skip_reason st); done.
Qed.

Lemma verify_signed_envelope_ok payload_b64 sigs domain max t now ve :
  verify_signed_envelope payload_b64 sigs domain max t now = Ok ve ↔
  (1 ≤ length sigs ≤ MAX_SIGNATURES) ∧
  strict_base64_decode payload_b64 = Ok (payload_bytes ve) ∧
  (N.of_nat (length (payload_bytes ve)) ≤ max)%N ∧
  ∃ pre s post, sigs = pre ++ s :: post ∧ ve_verified_by ve = sig_key_id s ∧
    good_signature t now (domain ++ payload_bytes ve) s ∧
    Forall (λ s', ¬ good_signature t now (domain ++ payload_bytes ve) s') pre.
Proof.
  unfold verify_signed_envelope. destruct ve as [bytes k]; simpl. split.
  - case_decide as H2; [done|]. case_decide as H3; [done|].
    destruct (strict_base64_decode payload_b64) as [b|] eqn:Eb; [|done].
    case_decide as H4; [done|].
    destruct (signature_loop _ _ _ _ _) as [k'|] eqn:El; [|done].
    intros [= -> ->]. apply signature_loop_ok in El.
    split_and!; [lia..|done|lia|done].
  - intros (Hl & -> & Hb & Hs).
    rewrite decide_False by lia. rewrite decide_False by lia.
    rewrite decide_False by lia.
    by erewrite (proj2 (signature_loop_ok _ _ _ _ _ _)).
Qed.

Lemma verify_signed_envelope_err payload_b64 sigs domain max t now bytes :
  1 ≤ length sigs ≤ MAX_SIGNATURES →
  strict_base64_decode payload_b64 = Ok bytes → (N.of_nat (length bytes) ≤ max)%N →
  Forall (λ s, ¬ good_signature t now (domain ++ bytes) s) sigs →
  verify_signed_envelope payload_b64 sigs domain max t now =
    Err (failure_of t now (domain ++ bytes) sigs).
Proof.
  unfold verify_signed_envelope. intros Hl -> Hb Hbad.
  rewrite decide_False by lia. rewrite decide_False by lia.
  rewrite decide_False by lia.
  destruct (signature_loop _ _ _ _ _) as [k|st] eqn:El.
  - apply signature_loop_ok in El as (pre & s & post & -> & _ & Hg & _).
    apply Forall_app in Hbad as [_ Hbad]. by inversion Hbad.
  - apply signature_loop_err in El as ->. unfold loop_failure, failure_of; simpl.
    destruct (failed_ids _ _ _ _); [|done]. by destruct (skip_reasons _ _ _ _).
Qed.

(** ** Accepted artifacts *)

(** The two signing domains never produce the same message. *)
Lemma signing_domains_disjoint p q :
  BUNDLE_SIGNING_DOMAIN ++ p ≠ REVOCATION_SIGNING_DOMAIN ++ q.
Proof.
  intros Heq. apply (f_equal (λ l, l !! 14)) in Heq.
  vm_compute in Heq. discriminate.
Qed.

Lemma parse_payload_revision bytes p :
  parse_payload bytes = Ok p →
  rev_digest (bp_revision p) = digest_of (rev_body (bp_revision p)) ∧
  body_schema_version (rev_body (bp_revision p)) ∈ SUPPORTED_POLICY_SCHEMA_VERSIONS.
Proof.
  unfold parse_payload, try_from_wire. intros Hp.
  destruct (parse_bundle_payload bytes) as [w|]; [|done].
  simpl in Hp.
  destruct (decide (_ ∉ _)) as [Hs|Hs]; [done|].
  destruct (decide (_ ≠ _)) as [Hd|Hd]; [done|]. simplify_eq/=.
  split; [symmetry|]; by apply dec_stable.
Qed.

Lemma parse_rfc3339_ok field value z :
  parse_rfc3339 field value = Ok z ↔ parse_from_rfc3339 value = Some z.
Proof. unfold parse_rfc3339. destruct (parse_from_rfc3339 value); naive_solver. Qed.

Lemma check_bindings_ok digest bs :
  check_bindings digest bs = Ok tt ↔
  Forall (λ b, ref_digest (binding_revision_ref b) = digest) bs.
Proof.
  unfold check_bindings. destruct (list_find _ bs) as [[i b]|] eqn:E.
  - apply list_find_Some in E as (Hi & Hb & _). split; [done|].
    intros Hall. rewrite Forall_forall in Hall.
    destruct Hb. apply Hall. by eapply list_elem_of_lookup_2.
  - apply list_find_None in E. split; [|done]. intros _.
    eapply Forall_impl; [exact E|]. simpl. intros b Hb. by apply dec_stable.
Qed.

Definition bundle_window (p : BundlePayload) now : Prop :=
  ∃ not_before expires_at,
    parse_from_rfc3339 (bp_not_before p) = Some not_before ∧
    parse_from_rfc3339 (bp_expires_at p) = Some expires_at ∧
    is_Some (parse_from_rfc3339 (bp_issued_at p)) ∧
    (not_before - CLOCK_SKEW_TOLERANCE_SECONDS * nanos_per_second ≤ now ≤ expires_at)%Z.

Lemma check_payload_ok version p now :
  check_payload version p now = Ok tt ↔
  bp_schema_version p = version ∧ bundle_window p now ∧
  Forall (λ b, ref_digest (binding_revision_ref b) = rev_digest (bp_revision p)) (bindings p).
Proof.
  unfold check_payload, bundle_window, parse_rfc3339.
  destruct (decide (bp_schema_version p ≠ version)) as [Hv|Hv]; [naive_solver|].
  apply dec_stable in Hv.
  destruct (parse_from_rfc3339 (bp_not_before p)) as [nb|]; [|naive_solver].
  destruct (parse_from_rfc3339 (bp_expires_at p)) as [ea|]; [|naive_solver].
  destruct (parse_from_rfc3339 (bp_issued_at p)) as [ia|];
    [|split; [done|intros (_ & (? & ? & _ & _ & [? ?] & _) & _); done]].
  case_decide; [|case_decide].
  - split; [done|]. intros (_ & (? & ? & ? & ? & _ & ?) & _). simplify_eq. lia.
  - split; [done|]. intros (_ & (? & ? & ? & ? & _ & ?) & _). simplify_eq. lia.
  - rewrite check_bindings_ok. split.
    + intros Hb. split_and!; [done| |done]. exists nb, ea. split_and!; [done..|lia|lia].
    + by intros (_ & _ & ?).
Qed.

(** Everything a caller may rely on of a bundle that was accepted. *)
Record certified (envelope_bytes : list N) t now (v : VerifiedPolicyBundle) : Prop := {
  cert_payload : ∃ envelope bytes s,
    parse_bundle_envelope envelope_bytes = Ok envelope ∧
    strict_base64_decode (env_payload_b64 envelope) = Ok bytes ∧
    parse_payload bytes = Ok (vb_payload v) ∧
    vb_payload_digest v = digest_payload_bytes bytes ∧
    s ∈ env_signatures envelope ∧ vb_verified_by v = sig_key_id s ∧
    good_signature t now (BUNDLE_SIGNING_DOMAIN ++ bytes) s ∧
    (N.of_nat (length bytes) ≤ MAX_PAYLOAD_BYTES)%N ∧
    (∀ other, BUNDLE_SIGNING_DOMAIN ++ bytes ≠ REVOCATION_SIGNING_DOMAIN ++ other);
  cert_revision : rev_digest (vb_revision v) = digest_of (rev_body (vb_revision v));
  cert_window : bundle_window (vb_payload v) now;
  cert_bindings :
    Forall (λ b, ref_digest (binding_revision_ref b) = rev_digest (vb_revision v))
      (bindings (vb_payload v));
}.

Lemma verify_bundle_certified envelope_bytes t now v :
  verify_bundle envelope_bytes t now = Ok v → certified envelope_bytes t now v.
Proof.
  unfold verify_bundle. intros Hv.
  destruct (parse_bundle_envelope envelope_bytes) as [env|] eqn:Ee; [|done].
  case_decide as Hs; [done|].
  destruct (verify_signed_envelope _ _ _ _ _ _) as [ve|] eqn:Ev; [|done].
  destruct (parse_payload (payload_bytes ve)) as [p|] eqn:Ep; [|done].
  destruct (check_payload _ p now) as [[]|] eqn:Ec; [|done]. simplify_eq/=.
  apply verify_signed_envelope_ok in Ev as (_ & Hd & Hl & pre & s & post & Hsig & Hk & Hg & _).
  apply check_payload_ok in Ec as (_ & Hw & Hb).
  split; simpl; [|by eapply parse_payload_revision|done|done].
  exists env, (payload_bytes ve), s.
  split_and!; [done..| |done|done|done|intros q; apply signing_domains_disjoint].
  rewrite Hsig. apply elem_of_app. right. by constructor.
Qed.

(** A bundle is reported expired only when everything before the expiry check
    passed: the bytes were authenticated at [now], and the reported instant is
    the signed one. *)
Lemma verify_bundle_expired envelope_bytes t now expires_at now' :
  verify_bundle envelope_bytes t now = Err (BundleExpired expires_at now') →
  now' = now ∧ ∃ te envelope bytes s p,
    parse_from_rfc3339 expires_at = Some te ∧ (te < now)%Z ∧
    parse_bundle_envelope envelope_bytes = Ok envelope ∧
    strict_base64_decode (env_payload_b64 envelope) = Ok bytes ∧
    parse_payload bytes = Ok p ∧ bp_expires_at p = expires_at ∧
    s ∈ env_signatures envelope ∧
    good_signature t now (BUNDLE_SIGNING_DOMAIN ++ bytes) s.
Proof.
  unfold verify_bundle. intros Hv.
  destruct (parse_bundle_envelope envelope_bytes) as [env|] eqn:Ee; [|done].
  case_decide as Hs; [done|].
  destruct (verify_signed_envelope _ _ _ _ _ _) as [ve|e] eqn:Ev; [|by destruct e].
  destruct (parse_payload (payload_bytes ve)) as [p|] eqn:Ep; [|done].
  destruct (check_payload _ p now) as [[]|e] eqn:Ec; [done|]. simplify_eq/=.
  apply verify_signed_envelope_ok in Ev as (_ & Hd & Hl & pre & s & post & Hsig & Hk & Hg & _).
  unfold check_payload, parse_rfc3339 in Ec. case_decide; [done|].
  destruct (parse_from_rfc3339 (bp_not_before p)); [|done].
  destruct (parse_from_rfc3339 (bp_expires_at p)) as [te|] eqn:Et; [|done].
  destruct (parse_from_rfc3339 (bp_issued_at p)); [|done].
  case_decide; [done|]. case_decide as Hlt; simplify_eq/=.
  - split; [done|]. exists te, env, (payload_bytes ve), s, p. split_and!; try done.
    rewrite Hsig. apply elem_of_app. right. by constructor.
  - unfold check_bindings in Ec. by destruct (list_find _ _) as [[? ?]|].
Qed.

Lemma check_entries_ok {A} (P : A → Prop) `{∀ x, Decision (P x)} (xs : list A) :
  list_find P xs = None → Forall (λ x, ¬ P x) xs.
Proof. by rewrite list_find_None. Qed.

Lemma check_revocation_payload_ok version p :
  check_revocation_payload version p = Ok tt →
  rp_schema_version p = version ∧ is_Some (parse_from_rfc3339 (rp_issued_at p)) ∧
  length (rp_entries p) ≤ MAX_REVOCATION_ENTRIES ∧ is_blank (rp_issuer p) = false ∧
  Forall (λ e, is_Some (parse_from_rfc3339 (re_revoked_at e)) ∧ is_blank (re_reason e) = false)
    (rp_entries p).
Proof.
  unfold check_revocation_payload, check_entry_timestamps, check_entry_reasons. intros Hp.
  case_decide as Hv; [done|]. case_decide as Hi; [done|].
  destruct (list_find _ (rp_entries p)) as [[? ?]|] eqn:Et; [done|].
  case_decide as Hn; [done|].
  destruct (list_find (λ e, is_blank _ = true) _) as [[? ?]|] eqn:Er; [done|].
  destruct (is_blank (rp_issuer p)) eqn:Eb; [done|].
  apply check_entries_ok in Et, Er.
  split_and!; [done|by rewrite <-not_eq_None_Some|lia|done|].
  rewrite Forall_forall in Et, Er |- *. intros e He.
  rewrite <-not_eq_None_Some. split; [by apply Et|]. by apply not_true_is_false, Er.
Qed.

(** Everything a caller may rely on of a revocation list that was accepted. *)
Record certified_list (envelope_bytes : list N) t now (v : VerifiedRevocationList) : Prop := {
  certl_payload : ∃ envelope bytes s,
    parse_revocation_envelope envelope_bytes = Ok envelope ∧
    strict_base64_decode (rl_payload_b64 envelope) = Ok bytes ∧
    parse_revocation_payload bytes = Ok (vr_payload v) ∧
    vr_payload_digest v = digest_payload_bytes bytes ∧
    s ∈ rl_signatures envelope ∧ vr_verified_by v = sig_key_id s ∧
    good_signature t now (REVOCATION_SIGNING_DOMAIN ++ bytes) s ∧
    (∀ other, REVOCATION_SIGNING_DOMAIN ++ bytes ≠ BUNDLE_SIGNING_DOMAIN ++ other);
  certl_issuer : is_blank (rp_issuer (vr_payload v)) = false;
  certl_bound : length (rp_entries (vr_payload v)) ≤ MAX_REVOCATION_ENTRIES;
  certl_entries :
    Forall (λ e, is_Some (parse_from_rfc3339 (re_revoked_at e)) ∧ is_blank (re_reason e) = false)
      (rp_entries (vr_payload v));
}.

Lemma verify_revocation_list_certified envelope_bytes t now v :
  verify_revocation_list envelope_bytes t now = Ok v → certified_list envelope_bytes t now v.
Proof.
  unfold verify_revocation_list. intros Hv.
  destruct (parse_revocation_envelope envelope_bytes) as [env|] eqn:Ee; [|done].
  case_decide as Hs; [done|].
  destruct (verify_signed_envelope _ _ _ _ _ _) as [ve|] eqn:Ev; [|done].
  destruct (parse_revocation_payload (payload_bytes ve)) as [p|] eqn:Ep; [|done].
  destruct (check_revocation_payload _ p) as [[]|] eqn:Ec; [|done]. simplify_eq/=.
  apply verify_signed_envelope_ok in Ev as (_ & Hd & Hl & pre & s & post & Hsig & Hk & Hg & _).
  apply check_revocation_payload_ok in Ec as (_ & _ & Hn & Hi & He).
  split; simpl; try done.
  exists env, (payload_bytes ve), s.
  split_and!; [done..| |done|done|intros q Heq; by apply (signing_domains_disjoint q (payload_bytes ve))].
  rewrite Hsig. apply elem_of_app. right. by constructor.
Qed.

(** C21. What acceptance certifies. A bundle that [verify_bundle] returns was
    parsed from payload bytes that a trusted key, inside its own validity
    window at [now], signed under the bundle domain; its revision's digest is
    the digest of its body, every binding names that digest, and [now] lies
    inside the signed window (with the clock-skew grace on its start only).
    The same holds of a revocation list under its own domain, with its
    structural bounds; and no message of one domain is a message of the
    other, so neither artifact's signature can serve for the other. *)
Theorem accepted_artifacts_are_authentic envelope_bytes t now :
  (∀ v, verify_bundle envelope_bytes t now = Ok v → certified envelope_bytes t now v) ∧
  (∀ v, verify_revocation_list envelope_bytes t now = Ok v →
    certified_list envelope_bytes t now v).
Proof.
  split; intros v; [apply verify_bundle_certified|apply verify_revocation_list_certified].
Qed.

(** The signature check accepts an envelope exactly when it carries one
    to eight signatures, its payload decodes within the size bound, and some
    signature is by a trusted key in force at [now] over the domain and the
    payload bytes: the key it names is that of the first such signature, so
    no unusable signature placed before it can mask it. When it accepts none,
    the reported failure follows the documented precedence. *)
Theorem envelope_accepted_iff payload_b64 sigs domain max t now :
  (∀ ve, verify_signed_envelope payload_b64 sigs domain max t now = Ok ve ↔
    (1 ≤ length sigs ≤ MAX_SIGNATURES) ∧
    strict_base64_decode payload_b64 = Ok (payload_bytes ve) ∧
    (N.of_nat (length (payload_bytes ve)) ≤ max)%N ∧
    ∃ pre s post, sigs = pre ++ s :: post ∧ ve_verified_by ve = sig_key_id s ∧
      good_signature t now (domain ++ payload_bytes ve) s ∧
      Forall (λ s', ¬ good_signature t now (domain ++ payload_bytes ve) s') pre) ∧
  (∀ bytes, 1 ≤ length sigs ≤ MAX_SIGNATURES →
    strict_base64_decode payload_b64 = Ok bytes → (N.of_nat (length bytes) ≤ max)%N →
    Forall (λ s, ¬ good_signature t now (domain ++ bytes) s) sigs →
    verify_signed_envelope payload_b64 sigs domain max t now =
      Err (failure_of t now (domain ++ bytes) sigs)).
Proof.
  split; intros *; [apply verify_signed_envelope_ok|apply verify_signed_envelope_err].
Qed.

End spec.
