(* ===== verification/PolicyCache.v ===== *)
(** * The policy cache's decisions

    [fornax-types/src/policy/cache.rs]: the cache's data, the decision a
    verified bundle or revocation list leads to, the posture, and the
    freshness tiers with their compiled-in enforcement floors. All of it is
    pure; the store that executes the decisions is [PolicyStore]. *)

From S2P Require Import Prelude.
From S2P Require Import Types.
From S2P Require Import PolicyContent.
From S2P Require Import PolicyRevision.
From S2P Require Import PolicyResolve.
From S2P Require Import PolicyBundle.

Open Scope fornax_scope.

(** ** Data *)

Definition POLICY_CACHE_SCHEMA_VERSION : N := 1.

Record CachedBundleRef := mkCachedBundleRef {
  c_bundle_id : Uuid;
  c_issuer : string;
  c_sequence : N;
  c_policy_id : Uuid;
  c_revision : N;
  c_revision_digest : string;
  c_payload_digest : string;
  c_verified_by : KeyId;
  c_not_before : Z;
  c_expires_at : Z;
  c_first_activated_at : Z;
  c_confirmed_at : Z;
}.
#[export] Instance CachedBundleRef_eq_dec : EqDecision CachedBundleRef.
Proof. solve_decision. Defined.

Record CacheGeneration := mkCacheGeneration {
  generation : N;
  members : list CachedBundleRef;
  written_at : Z;
}.

Inductive CacheSlotKind := SlotActive | SlotPending | SlotLastKnownGood.

Record SequenceHighWater := mkSequenceHighWater {
  hw_issuer : string;
  hw_policy_id : Uuid;
  max_sequence : N;
  last_bundle_id : Uuid;
  last_payload_digest : string;
  last_seen_at : Z;
}.

Record RevocationHit := mkRevocationHit {
  hit_target : RevocationTarget;
  hit_reason : string;
  hit_revoked_at : string;
}.

Record RevocationHitMeta := mkRevocationHitMeta {
  meta_reason : string;
  meta_revoked_at : string;
}.

Record RevocationSet := mkRevocationSet {
  revision_digests : gmap string RevocationHitMeta;
  payload_digests : gmap string RevocationHitMeta;
  max_sequence_by_issuer : gmap string N;
  unrecognized_entry_count : N;
}.

Definition hit (rs : RevocationSet) (rev payload : string) : option RevocationHit :=
  match revision_digests rs !! rev with
  | Some meta =>
      Some (mkRevocationHit (TargetRevisionDigest rev) (meta_reason meta) (meta_revoked_at meta))
  | None =>
      match payload_digests rs !! payload with
      | Some meta =>
          Some (mkRevocationHit (TargetPayloadDigest payload) (meta_reason meta)
                  (meta_revoked_at meta))
      | None => None
      end
  end.

Record PolicyCacheState := mkPolicyCacheState {
  schema_version : N;
  active : option CacheGeneration;
  pending_generation : option CacheGeneration;
  last_known_good : option CacheGeneration;
  high_water : gmap (string * Uuid) SequenceHighWater;
  ever_configured : bool;
  revocations : RevocationSet;
}.

(** ** Revocation ingest *)

Inductive RevocationIngestRejection :=
| RevSequenceNotAdvanced (issuer : string) (candidate high_water : N).

Inductive RevocationIngestDecision :=
| Apply (issuer : string) (sequence : N) (new_entries : list RevocationEntry)
    (superseded_sequence : option N)
| AlreadyCurrent (issuer : string) (sequence : N).

(** The filter of [new_entries]: the entry's digest is not recorded yet. *)
Definition entry_is_new (rs : RevocationSet) (e : RevocationEntry) : bool :=
  match re_target e with
  | TargetRevisionDigest d => bool_decide (revision_digests rs !! d = None)
  | TargetPayloadDigest d => bool_decide (payload_digests rs !! d = None)
  | TargetUnrecognized => true
  end.

Definition evaluate_revocation_ingest (candidate : VerifiedRevocationList)
    (state : PolicyCacheState) :
    result RevocationIngestRejection RevocationIngestDecision :=
  let p := vr_payload candidate in
  let existing_high_water := max_sequence_by_issuer (revocations state) !! rp_issuer p in
  let new_entries := filter (λ e, entry_is_new (revocations state) e = true) (rp_entries p) in
  match existing_high_water with
  | Some hw =>
      if decide (rp_sequence p < hw)%N
      then Err (RevSequenceNotAdvanced (rp_issuer p) (rp_sequence p) hw)
      else if decide (rp_sequence p = hw)
      then Ok (AlreadyCurrent (rp_issuer p) (rp_sequence p))
      else Ok (Apply (rp_issuer p) (rp_sequence p) new_entries (Some hw))
  | None => Ok (Apply (rp_issuer p) (rp_sequence p) new_entries None)
  end.

(** ** Posture *)

Inductive PolicyDegradationReason :=
| DegradedRevoked | DegradedUnverifiable | DegradedTrustStoreUnavailable
| DegradedNoUsableGeneration.

Inductive PolicyPosture := Normal | Degraded (reason : PolicyDegradationReason).

#[export] Instance DiagnosticCode_eq_dec : EqDecision DiagnosticCode.
Proof. solve_decision. Defined.

Definition any_code (code : DiagnosticCode) (diagnostics : list PolicyDiagnostic) : bool :=
  existsb (λ d, bool_decide (pd_code d = code)) diagnostics.

Definition compute_posture (ever_configured usable_is_empty : bool)
    (diagnostics : list PolicyDiagnostic) : PolicyPosture :=
  if negb usable_is_empty || negb ever_configured then Normal
  else if any_code PolicyCacheRevoked diagnostics then Degraded DegradedRevoked
  else if any_code PolicyCacheUnverifiable diagnostics then Degraded DegradedUnverifiable
  else if any_code TrustStoreUnavailable diagnostics
  then Degraded DegradedTrustStoreUnavailable
  else Degraded DegradedNoUsableGeneration.

(** ** Freshness *)

Inductive FreshnessTier := Unconfigured | TierFresh | TierStale | GraceExpired.
#[export] Instance FreshnessTier_eq_dec : EqDecision FreshnessTier.
Proof. solve_decision. Defined.

Definition tier_ord (t : FreshnessTier) : nat :=
  match t with Unconfigured => 0 | TierFresh => 1 | TierStale => 2 | GraceExpired => 3 end.

Record RiskClassTiers := mkRiskClassTiers {
  tier_low : FreshnessTier;
  tier_elevated : FreshnessTier;
  tier_high : FreshnessTier;
  tier_critical : FreshnessTier;
}.

(** [RiskClassTiers::uniform], [for_risk] and [meet]. *)
Definition uniform_tiers (t : FreshnessTier) : RiskClassTiers := mkRiskClassTiers t t t t.
Definition for_risk (ts : RiskClassTiers) (r : PolicyRiskClass) : FreshnessTier :=
  match r with
  | RiskLow => tier_low ts
  | RiskElevated => tier_elevated ts
  | RiskHigh => tier_high ts
  | RiskCritical => tier_critical ts
  end.
Definition meet_tiers (a b : RiskClassTiers) : RiskClassTiers :=
  mkRiskClassTiers (max_by tier_ord (tier_low a) (tier_low b))
    (max_by tier_ord (tier_elevated a) (tier_elevated b))
    (max_by tier_ord (tier_high a) (tier_high b))
    (max_by tier_ord (tier_critical a) (tier_critical b)).

Record MemberFreshness := mkMemberFreshness {
  mf_bundle_id : Uuid;
  mf_policy_id : Uuid;
  mf_confirmed_at : Z;
  mf_expires_at : Z;
  age_seconds : Z;
  mf_tier_by_risk : RiskClassTiers;
}.

Record PolicyFreshness := mkPolicyFreshness {
  pf_tier_by_risk : RiskClassTiers;
  pf_members : list MemberFreshness;
  evaluated_at : Z;
}.

(** [Duration::seconds] of a [u32]. *)
Definition seconds (n : N) : Z := (Z.of_N n * nanos_per_second)%Z.

Definition tier_for_risk (confirmed_at expires_at : Z) (max_age_seconds grace_seconds : N)
    (now : Z) : FreshnessTier :=
  let stale_at := (confirmed_at + seconds max_age_seconds)%Z in
  let grace_expired_at := (stale_at + seconds grace_seconds)%Z in
  if decide (grace_expired_at < now)%Z then GraceExpired
  else if decide (stale_at < now ∨ expires_at < now)%Z then TierStale
  else TierFresh.

Section freshness.
Context `{Chrono}.

Definition member_freshness (m : CachedBundleRef) (max_age : RiskClassSeconds)
    (grace_seconds : N) (now : Z) : MemberFreshness :=
  let tier n := tier_for_risk (c_confirmed_at m) (c_expires_at m) n grace_seconds now in
  mkMemberFreshness (c_bundle_id m) (c_policy_id m) (c_confirmed_at m) (c_expires_at m)
    (Z.max (num_seconds (now - c_confirmed_at m)) 0)
    (mkRiskClassTiers (tier (rcs_low max_age)) (tier (rcs_elevated max_age))
       (tier (rcs_high max_age)) (tier (rcs_critical max_age))).

Definition freshness (ms : list CachedBundleRef) (configured : bool)
    (max_age : RiskClassSeconds) (grace_seconds : N) (now : Z) : PolicyFreshness :=
  match (λ m, member_freshness m max_age grace_seconds now) <$> ms with
  | [] =>
      mkPolicyFreshness
        (uniform_tiers (if configured then GraceExpired else Unconfigured)) [] now
  | mf :: rest =>
      mkPolicyFreshness
        (foldl (λ acc m, meet_tiers acc (mf_tier_by_risk m)) (mf_tier_by_risk mf) rest)
        (mf :: rest) now
  end.
End freshness.

Definition staleness_floor (risk : PolicyRiskClass) (tier : FreshnessTier) :
    option EnforcementOutcome :=
  match risk, tier with
  | RiskLow, _ => None
  | RiskElevated, GraceExpired => Some EWarn
  | RiskElevated, _ => None
  | RiskHigh, (TierStale | GraceExpired) => Some EWarn
  | RiskHigh, _ => None
  | RiskCritical, TierStale => Some EWarn
  | RiskCritical, GraceExpired => Some EBlock
  | RiskCritical, _ => None
  end.

Definition effective_outcome (resolved : EnforcementOutcome) (risk : PolicyRiskClass)
    (tier : FreshnessTier) : EnforcementOutcome :=
  match staleness_floor risk tier with
  | Some floor => max_by outcome_ord resolved floor
  | None => resolved
  end.

Record EffectivePolicy := mkEffectivePolicy {
  ep_resolved : ResolvedPolicy;
  ep_freshness : PolicyFreshness;
}.

(** [EffectivePolicy::enforcement_outcome_for]. *)
Definition effective_enforcement_outcome_for (ep : EffectivePolicy) (ac : ActionClass)
    (v : Verdict) : EnforcementOutcome :=
  match list_find (λ r, action_class r = ac) (rv_enforcement_rules (rp_values (ep_resolved ep))) with
  | None => EObserveOnly
  | Some (_, rule) =>
      effective_outcome (for_verdict (outcomes rule) v) (risk_class rule)
        (for_risk (pf_tier_by_risk (ep_freshness ep)) (risk_class rule))
  end.

(** ** Activation *)

Inductive ActivationRejection :=
| NotVerified (e : BundleRejection)
| SequenceNotAdvanced (issuer : string) (policy_id : Uuid) (candidate high_water : N)
| SequenceReused (policy_id : Uuid) (sequence : N) (recorded_bundle_id : Uuid)
| IssuerMismatchForLineage (policy_id : Uuid) (bound_issuer candidate_issuer : string)
| BindingsUnusable (report : list PolicyDiagnostic)
| ActivationPersistence
| Revoked (policy_id : Uuid) (target : RevocationTarget) (reason revoked_at : string).

Inductive ActivationDecision :=
| Activate (members : list CachedBundleRef) (replaced : option Uuid)
| Confirm (policy_id bundle_id : Uuid) (payload_digest : string).

(** [str::parse::<DateTime<Utc>>] is [chrono]'s relaxed reading of RFC3339. *)
Class ChronoFromStr := { datetime_from_str : string → option Z }.
(** Its documentation: whatever is RFC3339 is read as such. *)
Class ChronoFromStrOk `{Chrono, ChronoFromStr} : Prop :=
  datetime_from_str_rfc3339 : ∀ s t,
    parse_from_rfc3339 s = Some t → datetime_from_str s = Some t.

Section activation.
Context `{ChronoFromStr}.

(** The first high-water key of the lineage that another issuer holds. *)
Definition foreign_issuer (hws : gmap (string * Uuid) SequenceHighWater) (policy_id : Uuid)
    (issuer : string) : option string :=
  (λ x, x.2.1.1) <$>
    list_find (λ kv, kv.1.2 = policy_id ∧ kv.1.1 ≠ issuer) (btree_iter hws).

(** [candidate] as a new member, the decision's last steps. *)
Definition activate_member (candidate : VerifiedPolicyBundle) (state : PolicyCacheState)
    (now : Z) : result ActivationRejection ActivationDecision :=
  let p := vb_payload candidate in
  let policy_id := body_policy_id (rev_body (vb_revision candidate)) in
  match into_bound_revisions candidate with
  | Err report => Err (BindingsUnusable report)
  | Ok _ =>
      match datetime_from_str (bp_not_before p), datetime_from_str (bp_expires_at p) with
      | Some not_before, Some expires_at =>
          let new_member :=
            mkCachedBundleRef (bundle_id p) (issuer (provenance p)) (sequence p) policy_id
              (body_revision (rev_body (vb_revision candidate)))
              (rev_digest (vb_revision candidate)) (vb_payload_digest candidate)
              (vb_verified_by candidate) not_before expires_at now now in
          let ms := default [] (members <$> active state) in
          let replaced :=
            if existsb (λ m, bool_decide (c_policy_id m = policy_id)) ms
            then Some policy_id else None in
          let kept := filter (λ m, c_policy_id m ≠ policy_id) ms in
          Ok (Activate (sort_by_key c_policy_id (kept ++ [new_member])) replaced)
      | _, _ => Err ActivationPersistence
      end
  end.

Definition evaluate_activation (candidate : VerifiedPolicyBundle) (state : PolicyCacheState)
    (now : Z) : result ActivationRejection ActivationDecision :=
  let p := vb_payload candidate in
  let iss := issuer (provenance p) in
  let policy_id := body_policy_id (rev_body (vb_revision candidate)) in
  match hit (revocations state) (rev_digest (vb_revision candidate)) (vb_payload_digest candidate) with
  | Some h => Err (Revoked policy_id (hit_target h) (hit_reason h) (hit_revoked_at h))
  | None =>
      match foreign_issuer (high_water state) policy_id iss with
      | Some bound => Err (IssuerMismatchForLineage policy_id bound iss)
      | None =>
          match high_water state !! (iss, policy_id) with
          | Some hw =>
              if decide (sequence p < max_sequence hw)%N
              then Err (SequenceNotAdvanced iss policy_id (sequence p) (max_sequence hw))
              else if decide (sequence p = max_sequence hw)
              then
                if decide (last_bundle_id hw = bundle_id p ∧
                           last_payload_digest hw = vb_payload_digest candidate)
                then Ok (Confirm policy_id (bundle_id p) (vb_payload_digest candidate))
                else Err (SequenceReused policy_id (sequence p) (last_bundle_id hw))
              else activate_member candidate state now
          | None => activate_member candidate state now
          end
      end
  end.

End activation.
