(* ===== verification/PolicyCacheSpec.v ===== *)
(** * What the cache's decisions guarantee

    The theorems on [PolicyCache]: the exact meaning of a generation's
    freshness tier, that staleness can only tighten enforcement and only over
    time, and what each outcome of [evaluate_activation] certifies. *)

From S2P Require Import Prelude.
From S2P Require Import Types.
From S2P Require Import PolicyContent.
From S2P Require Import PolicyRevision.
From S2P Require Import PolicyResolve.
From S2P Require Import PolicyBundle.
From S2P Require Import PolicyCache.

Open Scope fornax_scope.

(** ** Freshness *)

Definition max_age_for (max_age : RiskClassSeconds) (r : PolicyRiskClass) : N :=
  match r with
  | RiskLow => rcs_low max_age
  | RiskElevated => rcs_elevated max_age
  | RiskHigh => rcs_high max_age
  | RiskCritical => rcs_critical max_age
  end.

Lemma max_by_ord {A} (rank : A → nat) a b : rank (max_by rank a b) = rank a `max` rank b.
Proof. unfold max_by. case_decide; lia. Qed.

Lemma for_risk_meet a b r :
  tier_ord (for_risk (meet_tiers a b) r) =
  tier_ord (for_risk a r) `max` tier_ord (for_risk b r).
Proof. by destruct r; simpl; rewrite max_by_ord. Qed.

Lemma seconds_nonneg n : (0 ≤ seconds n)%Z.
Proof. unfold seconds, nanos_per_second. lia. Qed.

Section tiers.
Context `{Chrono}.
Implicit Types (ms : list CachedBundleRef) (now : Z) (r : PolicyRiskClass).
Variables (max_age : RiskClassSeconds) (grace : N).

Let tier_of m r now :=
  tier_for_risk (c_confirmed_at m) (c_expires_at m) (max_age_for max_age r) grace now.

Lemma for_risk_member m r now :
  for_risk (mf_tier_by_risk (member_freshness m max_age grace now)) r = tier_of m r now.
Proof. by destruct r. Qed.

Lemma fold_tiers_ge ms ts r now n :
  n ≤ tier_ord (for_risk (foldl (λ acc m, meet_tiers acc (mf_tier_by_risk m)) ts
         ((λ m, member_freshness m max_age grace now) <$> ms)) r) ↔
  n ≤ tier_ord (for_risk ts r) ∨ ∃ m, m ∈ ms ∧ n ≤ tier_ord (tier_of m r now).
Proof.
  revert ts. induction ms as [|m ms IH]; intros ts.
  { split; [by left|]. intros [?|(? & []%elem_of_nil & _)]; done. }
  rewrite fmap_cons. cbn [foldl].
  rewrite IH, for_risk_meet, for_risk_member. setoid_rewrite elem_of_cons. split.
  - intros [Hn|(m' & Hm & Hn)]; [|by right; exists m'; auto].
    destruct (decide (n ≤ tier_ord (for_risk ts r))); [by left|].
    right; exists m. split; [by left|lia].
  - intros [Hn|(m' & [->|Hm] & Hn)]; [left; lia|left; lia|right; by exists m'].
Qed.

(** The tier of a generation with members is the strictest of theirs. *)
Lemma freshness_tier_ge ms configured r now n :
  ms ≠ [] →
  n ≤ tier_ord (for_risk (pf_tier_by_risk (freshness ms configured max_age grace now)) r) ↔
  ∃ m, m ∈ ms ∧ n ≤ tier_ord (tier_of m r now).
Proof.
  destruct ms as [|m ms]; [done|]. intros _. unfold freshness. rewrite fmap_cons.
  cbn [pf_tier_by_risk]. rewrite fold_tiers_ge, for_risk_member. setoid_rewrite elem_of_cons. split.
  - intros [Hn|(m' & ? & ?)]; eauto.
  - intros (m' & [->|?] & ?); eauto.
Qed.

Lemma tier_of_mono m r now now' :
  (now ≤ now')%Z → tier_ord (tier_of m r now) ≤ tier_ord (tier_of m r now').
Proof.
  intros Hle. unfold tier_of, tier_for_risk. pose proof (seconds_nonneg grace).
  repeat case_decide; simpl; lia.
Qed.

Lemma freshness_mono ms configured r now now' :
  (now ≤ now')%Z →
  tier_ord (for_risk (pf_tier_by_risk (freshness ms configured max_age grace now)) r) ≤
  tier_ord (for_risk (pf_tier_by_risk (freshness ms configured max_age grace now')) r).
Proof.
  intros Hle. destruct ms as [|m ms]; [done|].
  rewrite freshness_tier_ge by done.
  destruct (proj1 (freshness_tier_ge (m :: ms) configured r now _ ltac:(done)) (le_n _))
    as (m' & Hm & Hn).
  exists m'. split; [done|]. etrans; [exact Hn|]. by apply tier_of_mono.
Qed.
End tiers.

Lemma staleness_floor_mono risk t t' :
  tier_ord t ≤ tier_ord t' →
  ∀ o o', outcome_ord o ≤ outcome_ord o' →
  outcome_ord (effective_outcome o risk t) ≤ outcome_ord (effective_outcome o' risk t').
Proof.
  intros Ht o o' Ho. unfold effective_outcome.
  destruct risk, t, t'; simpl in *; rewrite ?max_by_ord; simpl; lia.
Qed.

Lemma effective_outcome_ge o risk t :
  outcome_ord o ≤ outcome_ord (effective_outcome o risk t).
Proof. unfold effective_outcome. destruct (staleness_floor risk t); rewrite ?max_by_ord; lia. Qed.

(** The freshness tier of a generation says exactly what it is named
    for: with members, a risk class is [GraceExpired] iff some member was
    last confirmed longer ago than the class's maximum age plus the grace
    period; it is at least [TierStale] iff some member is past its maximum
    age or past its signed expiry; and it is never [Unconfigured]. Without
    members it is [GraceExpired] or [Unconfigured] by whether a policy was
    ever configured. *)
Theorem freshness_tier_exact `{Chrono} ms configured max_age grace now r :
  let tier := for_risk (pf_tier_by_risk (freshness ms configured max_age grace now)) r in
  let stale_at m := (c_confirmed_at m + seconds (max_age_for max_age r))%Z in
  (ms = [] → tier = if configured then GraceExpired else Unconfigured) ∧
  (ms ≠ [] →
    tier ≠ Unconfigured ∧
    (tier = GraceExpired ↔ ∃ m, m ∈ ms ∧ (stale_at m + seconds grace < now)%Z) ∧
    (tier = TierFresh ↔ ∀ m, m ∈ ms → (now ≤ stale_at m)%Z ∧ (now ≤ c_expires_at m)%Z)).
Proof.
  intros tier stale_at. split.
  { intros ->. by destruct configured, r. }
  intros Hne. pose proof (freshness_tier_ge max_age grace ms configured r now) as Hge.
  fold tier in Hge.
  assert (tier ≠ Unconfigured) as Hu.
  { intros Ht. destruct ms as [|m ms]; [done|].
    assert (1 ≤ tier_ord tier) as H1; [|rewrite Ht in H1; simpl in H1; lia].
    apply Hge; [done|]. exists m. split; [by left|].
    unfold tier_for_risk. repeat case_decide; simpl; lia. }
  split_and!; [done| |].
  - transitivity (3 ≤ tier_ord tier); [destruct tier; simpl; split; done || lia|].
    rewrite Hge by done. unfold tier_for_risk, stale_at. split; intros (m & Hm & Ht); exists m;
      (split; [done|]); repeat case_decide; simpl in *; lia || done.
  - transitivity (¬ 2 ≤ tier_ord tier).
    { destruct tier; simpl; split; try done; try lia. }
    rewrite Hge by done. unfold tier_for_risk, stale_at.
    pose proof (seconds_nonneg grace) as Hg. split.
    + intros Hn m Hm. destruct (decide (c_confirmed_at m + seconds (max_age_for max_age r) < now
          ∨ c_expires_at m < now)%Z) as [Hs|Hs]; [|lia].
      destruct Hn. exists m. split; [done|]. repeat case_decide; simpl; tauto || lia.
    + intros Hall (m & Hm & Ht). destruct (Hall m Hm).
      repeat case_decide; simpl in *; lia.
Qed.

(** C24. Staleness only ever tightens: whatever the members and the clock,
    the effective outcome for an action is at least as strict as the one the
    resolved policy gives, and it never relaxes as time passes without a
    confirmation. *)
Theorem staleness_only_tightens `{Chrono} resolved ms configured max_age grace ac v now now' :
  let outcome t :=
    outcome_ord (effective_enforcement_outcome_for
      (mkEffectivePolicy resolved (freshness ms configured max_age grace t)) ac v) in
  outcome_ord (enforcement_outcome_for (rp_values resolved) ac v) ≤ outcome now ∧
  (outcome now ≤ outcome (Z.max now now')).
Proof.
  unfold effective_enforcement_outcome_for, enforcement_outcome_for; simpl.
  destruct (list_find _ _) as [[i rule]|]; [|done]. split.
  - apply effective_outcome_ge.
  - apply staleness_floor_mono; [|done]. apply freshness_mono. lia.
Qed.

(** ** Activation *)

Section activation.
Context `{ChronoFromStr}.
Implicit Types (candidate : VerifiedPolicyBundle) (state : PolicyCacheState) (now : Z).

Definition candidate_policy candidate : Uuid := body_policy_id (rev_body (vb_revision candidate)).
Definition candidate_issuer candidate : string := issuer (provenance (vb_payload candidate)).
Definition active_members state : list CachedBundleRef := default [] (members <$> active state).

(** The candidate is the member [m] that enters the cache at [now]. *)
Record member_of candidate now (m : CachedBundleRef) : Prop := {
  mo_bundle_id : c_bundle_id m = bundle_id (vb_payload candidate);
  mo_issuer : c_issuer m = candidate_issuer candidate;
  mo_sequence : c_sequence m = sequence (vb_payload candidate);
  mo_policy_id : c_policy_id m = candidate_policy candidate;
  mo_revision : c_revision m = body_revision (rev_body (vb_revision candidate));
  mo_revision_digest : c_revision_digest m = rev_digest (vb_revision candidate);
  mo_payload_digest : c_payload_digest m = vb_payload_digest candidate;
  mo_verified_by : c_verified_by m = vb_verified_by candidate;
  mo_not_before : datetime_from_str (bp_not_before (vb_payload candidate)) = Some (c_not_before m);
  mo_expires_at : datetime_from_str (bp_expires_at (vb_payload candidate)) = Some (c_expires_at m);
  mo_activated : c_first_activated_at m = now ∧ c_confirmed_at m = now;
}.

Lemma activate_member_spec candidate state now :
  match activate_member candidate state now with
  | Ok (Activate ms replaced) =>
      (∃ bound, into_bound_revisions candidate = Ok bound) ∧
      StronglySorted (key_le c_policy_id) ms ∧
      (∃ new, member_of candidate now new ∧
        ms ≡ₚ filter (λ m, c_policy_id m ≠ candidate_policy candidate) (active_members state)
              ++ [new]) ∧
      replaced = (if decide (candidate_policy candidate ∈ c_policy_id <$> active_members state)
                  then Some (candidate_policy candidate) else None)
  | Ok (Confirm _ _ _) => False
  | Err (BindingsUnusable report) => into_bound_revisions candidate = Err report
  | Err ActivationPersistence =>
      datetime_from_str (bp_not_before (vb_payload candidate)) = None ∨
      datetime_from_str (bp_expires_at (vb_payload candidate)) = None
  | Err _ => False
  end.
Proof.
  unfold activate_member.
  destruct (into_bound_revisions candidate) as [bound|report]; [|done].
  destruct (datetime_from_str (bp_not_before _)) as [nb|] eqn:Enb; [|by left].
  destruct (datetime_from_str (bp_expires_at _)) as [ea|] eqn:Eea; [|by right].
  split_and!; [by exists bound|apply sort_by_key_sorted| |].
  - eexists. split; [|apply sort_by_key_Permutation]. by constructor.
  - fold (active_members state). fold (candidate_policy candidate).
    destruct (existsb _ _) eqn:Ex.
    + apply existsb_exists in Ex as (m & Hm & Hp%bool_decide_eq_true).
      rewrite decide_True; [done|]. apply list_elem_of_fmap. exists m.
      split; [done|]. by apply list_elem_of_In.
    + rewrite decide_False; [done|]. intros (m & Hp & Hm)%list_elem_of_fmap.
      apply not_true_iff_false in Ex. apply Ex, existsb_exists.
      exists m. split; [by apply list_elem_of_In|]. by apply bool_decide_eq_true.
Qed.

Lemma foreign_issuer_Some hws policy_id iss bound :
  foreign_issuer hws policy_id iss = Some bound →
  bound ≠ iss ∧ is_Some (hws !! (bound, policy_id)).
Proof.
  unfold foreign_issuer. destruct (list_find _ _) as [[i [[iss' p'] v]]|] eqn:E; [|done].
  intros [= <-]. apply list_find_Some in E as (Hi & [Hp Hne] & _); simpl in *. subst p'.
  split; [done|]. exists v. apply elem_of_btree_iter. by eapply list_elem_of_lookup_2.
Qed.

Lemma foreign_issuer_None hws policy_id iss :
  foreign_issuer hws policy_id iss = None →
  ∀ iss', is_Some (hws !! (iss', policy_id)) → iss' = iss.
Proof.
  unfold foreign_issuer. intros E iss' [v Hv].
  destruct (list_find _ _) eqn:El; [done|]. apply list_find_None in El.
  rewrite Forall_forall in El. apply elem_of_btree_iter in Hv.
  apply dec_stable. intros Hne. by apply (El _ Hv).
Qed.

(** What an answer of [evaluate_activation] means. *)
Definition decision_certified candidate state now
    (decision : result ActivationRejection ActivationDecision) : Prop :=
  let key := (candidate_issuer candidate, candidate_policy candidate) in
  let seq := sequence (vb_payload candidate) in
  let unrevoked :=
    hit (revocations state) (rev_digest (vb_revision candidate)) (vb_payload_digest candidate)
    = None in
  let own_lineage :=
    ∀ iss, is_Some (high_water state !! (iss, candidate_policy candidate)) →
           iss = candidate_issuer candidate in
  match decision with
  | Ok (Activate ms replaced) =>
      unrevoked ∧ own_lineage ∧
      (∀ hw, high_water state !! key = Some hw → (max_sequence hw < seq)%N) ∧
      (∃ bound, into_bound_revisions candidate = Ok bound) ∧
      StronglySorted (key_le c_policy_id) ms ∧
      (∃ new, member_of candidate now new ∧
        ms ≡ₚ filter (λ m, c_policy_id m ≠ candidate_policy candidate) (active_members state)
              ++ [new]) ∧
      replaced = (if decide (candidate_policy candidate ∈ c_policy_id <$> active_members state)
                  then Some (candidate_policy candidate) else None)
  | Ok (Confirm policy_id bid digest) =>
      unrevoked ∧ own_lineage ∧ policy_id = candidate_policy candidate ∧
      bid = bundle_id (vb_payload candidate) ∧ digest = vb_payload_digest candidate ∧
      ∃ hw, high_water state !! key = Some hw ∧
        max_sequence hw = seq ∧ last_bundle_id hw = bid ∧ last_payload_digest hw = digest
  | Err (Revoked policy_id target _ _) =>
      ¬ unrevoked ∧ policy_id = candidate_policy candidate ∧
      (target = TargetRevisionDigest (rev_digest (vb_revision candidate)) ∨
       target = TargetPayloadDigest (vb_payload_digest candidate))
  | Err (IssuerMismatchForLineage _ bound _) =>
      bound ≠ candidate_issuer candidate ∧
      is_Some (high_water state !! (bound, candidate_policy candidate))
  | Err (SequenceNotAdvanced _ _ found recorded) =>
      found = seq ∧ (seq < recorded)%N ∧
      max_sequence <$> high_water state !! key = Some recorded
  | Err (SequenceReused _ found recorded_bundle) =>
      found = seq ∧ ∃ hw, high_water state !! key = Some hw ∧ max_sequence hw = seq ∧
        recorded_bundle = last_bundle_id hw ∧
        ¬ (last_bundle_id hw = bundle_id (vb_payload candidate) ∧
           last_payload_digest hw = vb_payload_digest candidate)
  | Err (BindingsUnusable report) => into_bound_revisions candidate = Err report
  | Err ActivationPersistence =>
      datetime_from_str (bp_not_before (vb_payload candidate)) = None ∨
      datetime_from_str (bp_expires_at (vb_payload candidate)) = None
  | Err (NotVerified _) => False
  end.

Lemma evaluate_activation_certified candidate state now :
  decision_certified candidate state now (evaluate_activation candidate state now).
Proof.
  unfold decision_certified, evaluate_activation.
  set (key := (_, _)). set (seq := sequence _). set (own_lineage := ∀ iss, _ → _).
  set (unrevoked := _ = None).
  fold (candidate_policy candidate). fold (candidate_issuer candidate). fold key seq.
  destruct (hit _ _ _) as [h|] eqn:Eh.
  { split_and!; [by unfold unrevoked|done|].
    unfold hit in Eh. repeat case_match; simplify_eq/=; auto. }
  destruct (foreign_issuer _ _ _) as [bound|] eqn:Ef.
  { by apply foreign_issuer_Some. }
  assert (unrevoked ∧ own_lineage) as [Hu Ho].
  { split; [done|]. intros iss. by apply foreign_issuer_None. }
  pose proof (activate_member_spec candidate state now) as Hm.
  destruct (high_water state !! key) as [hw|] eqn:Ek; fold seq.
  - destruct (decide (seq < max_sequence hw)%N) as [Hlt|Hge]; [done|].
    destruct (decide (seq = max_sequence hw)) as [Heq|Hne].
    { destruct (decide (_ ∧ _)) as [[Hb Hd]|Hn].
      - split_and!; [done..|]. by exists hw.
      - split; [done|]. by exists hw. }
    assert (∀ hw', Some hw = Some hw' → (max_sequence hw' < seq)%N) as Hadv.
    { intros ? [= <-]. lia. }
    destruct (activate_member _ _ _) as [[]|[]]; try done.
  - assert (∀ hw', None = Some hw' → (max_sequence hw' < seq)%N) as Hadv by done.
    destruct (activate_member _ _ _) as [[]|[]]; try done.
Qed.

(** What each answer of [evaluate_activation] certifies. An activation
    happens only for a candidate neither of whose digests is revoked, whose
    lineage no other issuer holds, whose sequence lies strictly above the
    lineage's high water and whose bindings all bind; the new member set is
    sorted by policy id and is the active one with the lineage's member
    replaced by the candidate and nothing else touched. A confirmation needs
    the recorded bundle id and payload digest at exactly the recorded
    sequence. Every rejection names a condition that really holds. *)
Theorem activation_decision_certifies candidate state now :
  decision_certified candidate state now (evaluate_activation candidate state now).
Proof. apply evaluate_activation_certified. Qed.

End activation.
