(* ===== verification/PolicyStore.v ===== *)
(** * The policy cache's store

    [fornax-store/src/policy_cache.rs]: the tables of the policy cache, the
    reading of the cache state from them, and the four operations of [Store]
    on it. A table is a finite map from its primary key to the row's other
    columns (migrations 0008 and 0009); identifiers, digests and timestamps are the
    values their text columns encode, and a [u64] stored in an INTEGER column
    is the [i64] it is cast to.

    SQLite is not part of the repository. Every write happens inside one
    transaction, and what SQLite makes of it is an argument of the operation
    ([Sqlite]): the transaction commits, its COMMIT fails, or an earlier
    statement does; in the last two cases no change is kept. *)

From S2P Require Import Prelude.
From S2P Require Import Types.
From S2P Require Import PolicyContent.
From S2P Require Import PolicyRevision.
From S2P Require Import PolicyBundle.
From S2P Require Import PolicyCache.

Open Scope fornax_scope.

(** ** Tables *)

(** [policy_cache_bundles], keyed by the bundle id and the payload digest. *)
Record BundleRow := mkBundleRow {
  br_envelope : list N;
  br_issuer : string;
  br_sequence : Z;
  br_policy_id : Uuid;
  br_revision : N;
  br_revision_digest : string;
  br_verified_by : KeyId;
  br_not_before : Z;
  br_expires_at : Z;
  br_first_activated_at : Z;
  br_confirmed_at : Z;
}.

(** The single row of [policy_cache_slots]. *)
Record SlotsRow := mkSlotsRow {
  sl_schema_version : N;
  sl_active : option N;
  sl_pending : option N;
  sl_last_known_good : option N;
  sl_ever_configured : bool;
  sl_updated_at : Z;
}.

(** [policy_sequence_high_water], keyed by the issuer and the policy id. *)
Record HighWaterRow := mkHighWaterRow {
  hwr_max_sequence : Z;
  hwr_last_bundle_id : Uuid;
  hwr_last_payload_digest : string;
  hwr_last_seen_at : Z;
}.

(** [policy_revocation_state], keyed by the issuer. *)
Record RevocationStateRow := mkRevocationStateRow {
  rsr_max_sequence : Z;
  rsr_last_payload_digest : string;
  rsr_last_seen_at : Z;
  rsr_unrecognized_entry_count : N;
}.

(** [policy_revocations], keyed by the issuer, the target kind and the target
    digest. *)
Record RevocationEntryRow := mkRevocationEntryRow {
  rer_reason : string;
  rer_revoked_at : string;
  rer_audit_ref : option string;
  rer_superseded_by : option string;
  rer_first_seen_sequence : Z;
  rer_first_seen_at : Z;
}.

Record Db := mkDb {
  t_bundles : gmap (Uuid * string) BundleRow;
  t_generations : gmap N Z;
  t_members : gmap (N * Uuid) (Uuid * string);
  t_slots : option SlotsRow;
  t_high_water : gmap (string * Uuid) HighWaterRow;
  t_revocation_artifacts : gmap (string * Z) (list N * Z);
  t_revocation_state : gmap string RevocationStateRow;
  t_revocations : gmap (string * string * string) RevocationEntryRow;
}.

(** The tables the migrations create. *)
Definition empty_db : Db := mkDb ∅ ∅ ∅ None ∅ ∅ ∅ ∅.

(** ** Reading the state *)

(** [MemberRow::into_cached_bundle_ref]. *)
Definition into_cached_bundle_ref (key : Uuid * string) (r : BundleRow) : CachedBundleRef :=
  mkCachedBundleRef key.1 (br_issuer r) (as_u64 (br_sequence r)) (br_policy_id r)
    (br_revision r) (br_revision_digest r) key.2 (br_verified_by r) (br_not_before r)
    (br_expires_at r) (br_first_activated_at r) (br_confirmed_at r).

(** [HighWaterRow::into_high_water]. *)
Definition into_high_water (key : string * Uuid) (r : HighWaterRow) : SequenceHighWater :=
  mkSequenceHighWater key.1 key.2 (as_u64 (hwr_max_sequence r)) (hwr_last_bundle_id r)
    (hwr_last_payload_digest r) (hwr_last_seen_at r).

Definition zero_digest : string :=
  "sha256:0000000000000000000000000000000000000000000000000000000000000000".

(** The stand-in for a member whose bundle row is missing. *)
Definition dangling_ref (policy_id bundle_id : Uuid) (payload_digest : string) :
    CachedBundleRef :=
  mkCachedBundleRef bundle_id EmptyString 0 policy_id 0 zero_digest payload_digest EmptyString
    0 0 0 0.

(** The rows of a generation by ascending policy id. *)
Definition raw_members (db : Db) (g : N) : list (Uuid * (Uuid * string)) :=
  omap (λ kv, if decide (kv.1.1 = g) then Some (kv.1.2, kv.2) else None)
    (btree_iter (t_members db)).

(** Each member takes its row out of [resolved], so a second member with the
    same key finds none. *)
Fixpoint resolve_members (resolved : gmap (Uuid * string) BundleRow)
    (raw_rows : list (Uuid * (Uuid * string))) : list CachedBundleRef :=
  match raw_rows with
  | [] => []
  | (policy_id, key) :: rest =>
      match resolved !! key with
      | Some row => into_cached_bundle_ref key row :: resolve_members (delete key resolved) rest
      | None => dangling_ref policy_id key.1 key.2 :: resolve_members resolved rest
      end
  end.

Definition load_generation (db : Db) (g : N) : result StoreError CacheGeneration :=
  match t_generations db !! g with
  | None => Err StoreDb
  | Some written_at =>
      Ok (mkCacheGeneration g (resolve_members (t_bundles db) (raw_members db g)) written_at)
  end.

Definition REVISION_DIGEST_KIND : string := "revision_digest".
Definition PAYLOAD_DIGEST_KIND : string := "payload_digest".

Definition load_entry (rs : RevocationSet)
    (kv : string * string * string * RevocationEntryRow) : RevocationSet :=
  let '(_, target_kind, target_digest, row) := kv in
  let meta := mkRevocationHitMeta (rer_reason row) (rer_revoked_at row) in
  if decide (target_kind = REVISION_DIGEST_KIND)
  then mkRevocationSet (<[target_digest := meta]> (revision_digests rs)) (payload_digests rs)
         (max_sequence_by_issuer rs) (unrecognized_entry_count rs)
  else if decide (target_kind = PAYLOAD_DIGEST_KIND)
  then mkRevocationSet (revision_digests rs) (<[target_digest := meta]> (payload_digests rs))
         (max_sequence_by_issuer rs) (unrecognized_entry_count rs)
  else mkRevocationSet (revision_digests rs) (payload_digests rs) (max_sequence_by_issuer rs)
         (unrecognized_entry_count rs + 1).

Definition load_revocations (db : Db) : RevocationSet :=
  let state_rows := btree_iter (t_revocation_state db) in
  let init :=
    mkRevocationSet ∅ ∅ ((λ r, as_u64 (rsr_max_sequence r)) <$> t_revocation_state db)
      (foldl (λ n kv, n + rsr_unrecognized_entry_count kv.2)%N 0%N state_rows) in
  foldl load_entry init (btree_iter (t_revocations db)).

Definition load_slot (db : Db) (slot : option N) : result StoreError (option CacheGeneration) :=
  match slot with
  | None => Ok None
  | Some g => let? gen := load_generation db g in Ok (Some gen)
  end.

Definition load_state_from_conn (db : Db) : result StoreError PolicyCacheState :=
  let hw := map_imap (λ k r, Some (into_high_water k r)) (t_high_water db) in
  let rs := load_revocations db in
  match t_slots db with
  | None =>
      Ok (mkPolicyCacheState POLICY_CACHE_SCHEMA_VERSION None None None hw false rs)
  | Some slots =>
      let? active := load_slot db (sl_active slots) in
      let? lkg := load_slot db (sl_last_known_good slots) in
      Ok (mkPolicyCacheState (sl_schema_version slots) active None lkg hw
            (sl_ever_configured slots) rs)
  end.

(** ** Reloading *)

Definition revoked_diagnostic : PolicyDiagnostic :=
  new_diagnostic PolicyCacheRevoked SeverityError.
Definition unverifiable_diagnostic : PolicyDiagnostic :=
  new_diagnostic PolicyCacheUnverifiable SeverityWarning.
Definition unavailable_diagnostic : PolicyDiagnostic :=
  new_diagnostic PolicyCacheUnavailable SeverityWarning.
Definition entry_not_understood_diagnostic : PolicyDiagnostic :=
  new_diagnostic PolicyRevocationEntryNotUnderstood SeverityWarning.

Record PolicyCacheLoad := mkPolicyCacheLoad {
  pl_state : PolicyCacheState;
  usable : list BoundRevision;
  loaded_slot : option CacheSlotKind;
  pl_diagnostics : list PolicyDiagnostic;
}.

Section store.
Context `{Chrono, ChronoFromStr, PolicyWire, PolicyDigest}.

(** The bound revisions of a bundle that verified, or the diagnostic. *)
Definition bound_or_unverifiable (v : VerifiedPolicyBundle) :
    result PolicyDiagnostic (list BoundRevision) :=
  match into_bound_revisions v with
  | Ok bound => Ok bound
  | Err _ => Err unverifiable_diagnostic
  end.

(** One turn of the member loop: an expired bundle is verified once more at
    the instant it expired. *)
Definition member_usable (db : Db) (trusted : TrustedVerificationKeys) (rs : RevocationSet)
    (now : Z) (m : CachedBundleRef) : result PolicyDiagnostic (list BoundRevision) :=
  match hit rs (c_revision_digest m) (c_payload_digest m) with
  | Some _ => Err revoked_diagnostic
  | None =>
      match t_bundles db !! (c_bundle_id m, c_payload_digest m) with
      | None => Err unverifiable_diagnostic
      | Some row =>
          match verify_bundle (br_envelope row) trusted now with
          | Ok v => bound_or_unverifiable v
          | Err (BundleExpired expires_at _) =>
              match parse_from_rfc3339 expires_at with
              | None => Err unverifiable_diagnostic
              | Some rewind_now =>
                  match verify_bundle (br_envelope row) trusted rewind_now with
                  | Ok v => bound_or_unverifiable v
                  | Err _ => Err unverifiable_diagnostic
                  end
              end
          | Err _ => Err unverifiable_diagnostic
          end
      end
  end.

(** [Err] is [Ok(None)] with the diagnostic it pushed. *)
Definition try_generation_usable (db : Db) (trusted : TrustedVerificationKeys)
    (rs : RevocationSet) (now : Z) (g : CacheGeneration) :
    result PolicyDiagnostic (list BoundRevision) :=
  let? bounds := collect_results (member_usable db trusted rs now <$> members g) in
  Ok (concat bounds).

(** One slot of the reload: the bound revisions if the slot is usable, and
    the diagnostics it pushed. *)
Definition try_slot (db : Db) (trusted : TrustedVerificationKeys) (rs : RevocationSet)
    (now : Z) (slot : option CacheGeneration) :
    option (list BoundRevision) * list PolicyDiagnostic :=
  match slot with
  | None => (None, [])
  | Some g =>
      match try_generation_usable db trusted rs now g with
      | Ok u => (Some u, [])
      | Err d => (None, [d])
      end
  end.

Definition load_policy_cache (db : Db) (trusted : option TrustedVerificationKeys) (now : Z) :
    result StoreError PolicyCacheLoad :=
  let? state := load_state_from_conn db in
  let rs := revocations state in
  let diagnostics :=
    if decide (0 < unrecognized_entry_count rs)%N
    then [entry_not_understood_diagnostic] else [] in
  match trusted with
  | None =>
      Ok (mkPolicyCacheLoad state [] None (diagnostics ++ [unavailable_diagnostic]))
  | Some trusted =>
      match try_slot db trusted rs now (active state) with
      | (Some u, d1) =>
          Ok (mkPolicyCacheLoad state u (Some SlotActive) (diagnostics ++ d1))
      | (None, d1) =>
          match try_slot db trusted rs now (last_known_good state) with
          | (Some u, d2) =>
              Ok (mkPolicyCacheLoad state u (Some SlotLastKnownGood) (diagnostics ++ d1 ++ d2))
          | (None, d2) =>
              Ok (mkPolicyCacheLoad state [] None
                    (diagnostics ++ d1 ++ d2 ++ [unavailable_diagnostic]))
          end
      end
  end.

(** [Store::current_active_generation]. *)
Definition current_active_generation (db : Db) : result StoreError (option N) :=
  let? state := load_state_from_conn db in
  Ok (generation <$> active state).

(** ** Submitting a bundle *)

Inductive ActivationOutcome :=
| Activated (generation : N) (superseded : option N) (replaced_member : option Uuid)
| Confirmed (generation : N) (policy_id : Uuid) (confirmed_at : Z)
| ActivationRejected (rejection : ActivationRejection) (active_generation : option N).

(** INSERT OR IGNORE. *)
Definition insert_or_ignore {K V} `{Countable K} (k : K) (v : V) (m : gmap K V) : gmap K V :=
  match m !! k with Some _ => m | None => <[k := v]> m end.

(** [SELECT MAX(generation)], [unwrap_or(0)]. *)
Definition max_generation (db : Db) : N :=
  foldr N.max 0%N (map_to_list (t_generations db)).*1.

(** The member rows of a generation, a constraint violation on a taken key. *)
Fixpoint insert_members (g : N) (ms : list CachedBundleRef)
    (t : gmap (N * Uuid) (Uuid * string)) : result StoreError (gmap (N * Uuid) (Uuid * string)) :=
  match ms with
  | [] => Ok t
  | m :: rest =>
      match t !! (g, c_policy_id m) with
      | Some _ => Err StoreDb
      | None =>
          insert_members g rest
            (<[(g, c_policy_id m) := (c_bundle_id m, c_payload_digest m)]> t)
      end
  end.

Definition bundle_row (envelope_bytes : list N) (m : CachedBundleRef) : BundleRow :=
  mkBundleRow envelope_bytes (c_issuer m) (as_i64 (c_sequence m)) (c_policy_id m)
    (c_revision m) (c_revision_digest m) (c_verified_by m) (c_not_before m) (c_expires_at m)
    (c_first_activated_at m) (c_confirmed_at m).

Definition lineage (v : VerifiedPolicyBundle) : string * Uuid :=
  (issuer (provenance (vb_payload v)), body_policy_id (rev_body (vb_revision v))).

(** [None] is the panic of the [expect]. *)
Definition persist_activation (db : Db) (envelope_bytes : list N)
    (candidate : VerifiedPolicyBundle) (ms : list CachedBundleRef) (now : Z) :
    option (result StoreError (N * Db)) :=
  let p := vb_payload candidate in
  match list_find (λ m, c_bundle_id m = bundle_id p) ms with
  | None => None
  | Some (_, new_member) =>
      let bundles :=
        insert_or_ignore (c_bundle_id new_member, c_payload_digest new_member)
          (bundle_row envelope_bytes new_member) (t_bundles db) in
      let new_gen_num := (max_generation db + 1)%N in
      Some (
        let? member_rows := insert_members new_gen_num ms (t_members db) in
        let previous_active := t_slots db ≫= sl_active in
        Ok (new_gen_num,
            mkDb bundles (<[new_gen_num := now]> (t_generations db)) member_rows
              (Some (mkSlotsRow POLICY_CACHE_SCHEMA_VERSION (Some new_gen_num) None
                       previous_active true now))
              (<[lineage candidate :=
                   mkHighWaterRow (as_i64 (sequence p)) (bundle_id p)
                     (vb_payload_digest candidate) now]> (t_high_water db))
              (t_revocation_artifacts db) (t_revocation_state db) (t_revocations db)))
  end.

Definition persist_confirm (db : Db) (candidate : VerifiedPolicyBundle) (now : Z) : Db :=
  mkDb
    (alter (λ r, mkBundleRow (br_envelope r) (br_issuer r) (br_sequence r) (br_policy_id r)
                   (br_revision r) (br_revision_digest r) (br_verified_by r) (br_not_before r)
                   (br_expires_at r) (br_first_activated_at r) now)
       (bundle_id (vb_payload candidate), vb_payload_digest candidate) (t_bundles db))
    (t_generations db) (t_members db) (t_slots db)
    (alter (λ r, mkHighWaterRow (hwr_max_sequence r) (hwr_last_bundle_id r)
                   (hwr_last_payload_digest r) now)
       (lineage candidate) (t_high_water db))
    (t_revocation_artifacts db) (t_revocation_state db) (t_revocations db).

(** [None] is a panic; otherwise the result and the tables after it. *)
Definition submit_policy_bundle (sql : Sqlite) (db : Db) (envelope_bytes : list N)
    (trusted : TrustedVerificationKeys) (now : Z) :
    option (result StoreError ActivationOutcome * Db) :=
  match verify_bundle envelope_bytes trusted now with
  | Err e =>
      Some (let? g := current_active_generation db in
            Ok (ActivationRejected (NotVerified e) g), db)
  | Ok candidate =>
      match sql, load_state_from_conn db with
      | StatementFails, _ => Some (Err StoreDb, db)
      | _, Err e => Some (Err e, db)
      | _, Ok state =>
          let active_generation := generation <$> active state in
          match evaluate_activation candidate state now with
          | Err rejection => Some (Ok (ActivationRejected rejection active_generation), db)
          | Ok (Activate ms replaced) =>
              let! persisted := persist_activation db envelope_bytes candidate ms now in
              match persisted with
              | Err e => Some (Err e, db)
              | Ok (new_gen_num, db') =>
                  match sql with
                  | Commits => Some (Ok (Activated new_gen_num active_generation replaced), db')
                  | _ => Some (Ok (ActivationRejected ActivationPersistence active_generation), db)
                  end
              end
          | Ok (Confirm policy_id _ _) =>
              match sql with
              | Commits =>
                  Some (Ok (Confirmed (default 0%N active_generation) policy_id now),
                        persist_confirm db candidate now)
              | _ => Some (Ok (ActivationRejected ActivationPersistence active_generation), db)
              end
          end
      end
  end.

(** ** Rolling back *)

Definition rollback_policy_to_last_known_good (sql : Sqlite) (db : Db) (now : Z) :
    result StoreError unit * Db :=
  match sql, load_state_from_conn db with
  | Commits, Ok state =>
      (Ok tt,
       mkDb (t_bundles db) (t_generations db) (t_members db)
         ((λ s, mkSlotsRow (sl_schema_version s) (generation <$> last_known_good state) None
                  (sl_last_known_good s) (sl_ever_configured s) now) <$> t_slots db)
         (t_high_water db) (t_revocation_artifacts db) (t_revocation_state db)
         (t_revocations db))
  | _, _ => (Err StoreDb, db)
  end.

(** ** Submitting a revocation list *)

Inductive RevocationSubmissionRejection :=
| RevNotVerified (e : RevocationRejection)
| RevIngest (e : RevocationIngestRejection).

Inductive RevocationIngestOutcome :=
| RevApplied (issuer : string) (sequence : N) (new_entry_count : nat)
    (superseded_sequence : option N)
| RevAlreadyCurrent (issuer : string) (sequence : N)
| RevRejected (rejection : RevocationSubmissionRejection).

Definition is_unrecognized (e : RevocationEntry) : bool :=
  match re_target e with TargetUnrecognized => true | _ => false end.

(** The key of the entry's row; an unrecognized target has none. *)
Definition entry_key (issuer : string) (e : RevocationEntry) :
    option (string * string * string) :=
  match re_target e with
  | TargetRevisionDigest d => Some (issuer, REVISION_DIGEST_KIND, d)
  | TargetPayloadDigest d => Some (issuer, PAYLOAD_DIGEST_KIND, d)
  | TargetUnrecognized => None
  end.

Definition insert_entry (issuer : string) (sequence : N) (now : Z)
    (t : gmap (string * string * string) RevocationEntryRow) (e : RevocationEntry) :
    gmap (string * string * string) RevocationEntryRow :=
  match entry_key issuer e with
  | None => t
  | Some k =>
      insert_or_ignore k
        (mkRevocationEntryRow (re_reason e) (re_revoked_at e) (re_audit_ref e)
           (re_superseded_by e) (as_i64 sequence) now) t
  end.

Definition persist_revocation_apply (db : Db) (envelope_bytes : list N)
    (candidate : VerifiedRevocationList) (issuer : string) (sequence : N)
    (new_entries : list RevocationEntry) (now : Z) : Db :=
  let new_unrecognized :=
    N.of_nat (length (filter (λ e, is_unrecognized e = true) new_entries)) in
  let before :=
    match t_revocation_state db !! issuer with
    | Some r => rsr_unrecognized_entry_count r
    | None => 0%N
    end in
  mkDb (t_bundles db) (t_generations db) (t_members db) (t_slots db) (t_high_water db)
    (insert_or_ignore (issuer, as_i64 sequence) (envelope_bytes, now)
       (t_revocation_artifacts db))
    (<[issuer :=
         mkRevocationStateRow (as_i64 sequence) (vr_payload_digest candidate) now
           (before + new_unrecognized)]> (t_revocation_state db))
    (foldl (insert_entry issuer sequence now) (t_revocations db) new_entries).

Definition submit_policy_revocation (sql : Sqlite) (db : Db) (envelope_bytes : list N)
    (trusted : TrustedVerificationKeys) (now : Z) :
    result StoreError RevocationIngestOutcome * Db :=
  match verify_revocation_list envelope_bytes trusted now with
  | Err e => (Ok (RevRejected (RevNotVerified e)), db)
  | Ok candidate =>
      match sql, load_state_from_conn db with
      | StatementFails, _ => (Err StoreDb, db)
      | _, Err e => (Err e, db)
      | _, Ok state =>
          match evaluate_revocation_ingest candidate state with
          | Err rejection => (Ok (RevRejected (RevIngest rejection)), db)
          | Ok (AlreadyCurrent iss seq) => (Ok (RevAlreadyCurrent iss seq), db)
          | Ok (Apply iss seq new_entries superseded) =>
              match sql with
              | Commits =>
                  (Ok (RevApplied iss seq (length new_entries) superseded),
                   persist_revocation_apply db envelope_bytes candidate iss seq new_entries now)
              | _ => (Err StoreDb, db)
              end
          end
      end
  end.

End store.
