(* ===== verification/PolicyStoreLemmas.v ===== *)
(** * The store's step relation and its lemmas

    The operations of [PolicyStore] as a step relation on the tables, what
    each operation can do to them, and how the loaded state reflects them. *)

From S2P Require Import Prelude.
From S2P Require Import Types.
From S2P Require Import PolicyContent.
From S2P Require Import PolicyRevision.
From S2P Require Import PolicyBundle.
From S2P Require Import PolicyBundleSpec.
From S2P Require Import PolicyCache.
From S2P Require Import PolicyCacheSpec.
From S2P Require Import PolicyStore.

Open Scope fornax_scope.

(** ** Insert or ignore *)

Section insert_or_ignore.
Context {K V : Type} `{Countable K}.
Implicit Types (m : gmap K V).

Lemma insert_or_ignore_lookup k v m k' :
  insert_or_ignore k v m !! k' =
  match m !! k' with
  | Some v' => Some v'
  | None => if decide (k' = k) then Some v else None
  end.
Proof.
  unfold insert_or_ignore. destruct (m !! k) as [v0|] eqn:E.
  - destruct (m !! k') eqn:E'; [done|]. case_decide; congruence.
  - destruct (decide (k' = k)) as [->|Hne].
    + by rewrite E, lookup_insert_eq.
    + rewrite lookup_insert_ne by done. by destruct (m !! k').
Qed.

Lemma insert_or_ignore_keeps k v m k' v' :
  m !! k' = Some v' → insert_or_ignore k v m !! k' = Some v'.
Proof. rewrite insert_or_ignore_lookup. by intros ->. Qed.
End insert_or_ignore.

(** ** The loaded revocations *)

Lemma fold_entries_sequences l rs :
  max_sequence_by_issuer (foldl load_entry rs l) = max_sequence_by_issuer rs.
Proof.
  revert rs. induction l as [|[[[i k] d] row] l IH]; intros rs; [done|]; simpl.
  rewrite IH. by repeat case_decide.
Qed.

Lemma fold_entries_revision l rs d :
  is_Some (revision_digests (foldl load_entry rs l) !! d) ↔
  is_Some (revision_digests rs !! d) ∨ ∃ i, (i, REVISION_DIGEST_KIND, d) ∈ l.*1.
Proof.
  revert rs. induction l as [|[[[i k] d'] row] l IH]; intros rs; simpl.
  { split; [by left|]. intros [?|[? []%elem_of_nil]]; done. }
  rewrite IH. setoid_rewrite elem_of_cons. case_decide as Hk; simpl; [|case_decide as Hk'; simpl].
  - rewrite lookup_insert_is_Some. split.
    + intros [[->|[_ ?]]|[j ?]]; [right; exists i; left; by subst|by left|right; exists j; by right].
    + intros [?|[j [Hj|?]]]; [|simplify_eq; by left; left|right; by exists j].
      destruct (decide (d' = d)); [by left; left|by left; right].
  - split; (intros [?|[j Hj]]; [by left|right; exists j]); [by right|].
    destruct Hj as [Hj|]; [|done]. simplify_eq.
  - split; (intros [?|[j Hj]]; [by left|right; exists j]); [by right|].
    destruct Hj as [Hj|]; [|done]. simplify_eq.
Qed.

Lemma fold_entries_payload l rs d :
  is_Some (payload_digests (foldl load_entry rs l) !! d) ↔
  is_Some (payload_digests rs !! d) ∨ ∃ i, (i, PAYLOAD_DIGEST_KIND, d) ∈ l.*1.
Proof.
  revert rs. induction l as [|[[[i k] d'] row] l IH]; intros rs; simpl.
  { split; [by left|]. intros [?|[? []%elem_of_nil]]; done. }
  rewrite IH. setoid_rewrite elem_of_cons. case_decide as Hk; simpl; [|case_decide as Hk'; simpl].
  - split; (intros [?|[j Hj]]; [by left|right; exists j]); [by right|].
    destruct Hj as [Hj|]; [|done]. simplify_eq.
  - rewrite lookup_insert_is_Some. split.
    + intros [[->|[_ ?]]|[j ?]]; [right; exists i; left; by subst|by left|right; exists j; by right].
    + intros [?|[j [Hj|?]]]; [|simplify_eq; by left; left|right; by exists j].
      destruct (decide (d' = d)); [by left; left|by left; right].
  - split; (intros [?|[j Hj]]; [by left|right; exists j]); [by right|].
    destruct Hj as [Hj|]; [|done]. simplify_eq.
Qed.

(** A digest is recorded as revoked in the tables. *)
Definition digest_revoked (db : Db) (kind d : string) : Prop :=
  ∃ i, is_Some (t_revocations db !! (i, kind, d)).

Lemma loaded_revision_digests db d :
  is_Some (revision_digests (load_revocations db) !! d) ↔
  digest_revoked db REVISION_DIGEST_KIND d.
Proof.
  unfold load_revocations, digest_revoked. rewrite fold_entries_revision; simpl.
  setoid_rewrite elem_of_btree_keys. rewrite lookup_empty.
  split; [intros [[]%is_Some_None|?]|]; auto.
Qed.

Lemma loaded_payload_digests db d :
  is_Some (payload_digests (load_revocations db) !! d) ↔
  digest_revoked db PAYLOAD_DIGEST_KIND d.
Proof.
  unfold load_revocations, digest_revoked. rewrite fold_entries_payload; simpl.
  setoid_rewrite elem_of_btree_keys. rewrite lookup_empty.
  split; [intros [[]%is_Some_None|?]|]; auto.
Qed.

Lemma hit_is_Some rs r p :
  is_Some (hit rs r p) ↔
  is_Some (revision_digests rs !! r) ∨ is_Some (payload_digests rs !! p).
Proof.
  unfold hit. destruct (revision_digests rs !! r) as [?|]; [by split; eauto|].
  destruct (payload_digests rs !! p) as [?|]; [by split; eauto|].
  split; [by intros []|by intros [[]|[]]].
Qed.

(** A bundle with these digests is revoked. *)
Definition revoked (db : Db) (r p : string) : Prop :=
  digest_revoked db REVISION_DIGEST_KIND r ∨ digest_revoked db PAYLOAD_DIGEST_KIND p.

Lemma hit_revoked db r p : is_Some (hit (load_revocations db) r p) ↔ revoked db r p.
Proof.
  unfold revoked. by rewrite hit_is_Some, loaded_revision_digests, loaded_payload_digests.
Qed.

Lemma hit_not_revoked db r p : hit (load_revocations db) r p = None ↔ ¬ revoked db r p.
Proof. rewrite <-hit_revoked. apply eq_None_not_Some. Qed.

(** ** The loaded state *)

Lemma load_state_revocations db st :
  load_state_from_conn db = Ok st → revocations st = load_revocations db.
Proof.
  unfold load_state_from_conn. destruct (t_slots db) as [s|]; [|by intros [= <-]].
  destruct (load_slot db (sl_active s)); [|done].
  by destruct (load_slot db (sl_last_known_good s)); [intros [= <-]|].
Qed.

Lemma load_state_high_water db st k :
  load_state_from_conn db = Ok st →
  high_water st !! k = into_high_water k <$> t_high_water db !! k.
Proof.
  assert (∀ m : gmap (string * Uuid) HighWaterRow,
    map_imap (λ k r, Some (into_high_water k r)) m !! k = into_high_water k <$> m !! k) as Hm.
  { intros m. rewrite map_lookup_imap. by destruct (m !! k). }
  unfold load_state_from_conn. destruct (t_slots db) as [s|]; [|intros [= <-]; apply Hm].
  destruct (load_slot db (sl_active s)); [|done].
  destruct (load_slot db (sl_last_known_good s)); [intros [= <-]; apply Hm|done].
Qed.

Section steps.
Context `{Chrono, ChronoFromStr, PolicyWire, PolicyDigest}.
Implicit Types (db : Db) (t : TrustedVerificationKeys) (now : Z) (sql : Sqlite).

(** ** Steps *)

(** One call of an operation that writes, whatever it returned. *)
Inductive step : relation Db :=
| step_bundle sql db envelope_bytes t now r db' :
    submit_policy_bundle sql db envelope_bytes t now = Some (r, db') → step db db'
| step_revocation sql db envelope_bytes t now r db' :
    submit_policy_revocation sql db envelope_bytes t now = (r, db') → step db db'
| step_rollback sql db now r db' :
    rollback_policy_to_last_known_good sql db now = (r, db') → step db db'.

(** The outcomes that report no change. *)
Definition bundle_refused (r : result StoreError ActivationOutcome) : Prop :=
  match r with Ok (Activated _ _ _ | Confirmed _ _ _) => False | _ => True end.
Definition list_refused (r : result StoreError RevocationIngestOutcome) : Prop :=
  match r with Ok (RevApplied _ _ _ _) => False | _ => True end.

(** The three ways a submission of a bundle can end. *)
Inductive bundle_effect sql db envelope_bytes t now :
    result StoreError ActivationOutcome → Db → Prop :=
| effect_none r : bundle_refused r → bundle_effect sql db envelope_bytes t now r db
| effect_activate candidate st ms replaced g db' :
    verify_bundle envelope_bytes t now = Ok candidate →
    load_state_from_conn db = Ok st →
    evaluate_activation candidate st now = Ok (Activate ms replaced) →
    persist_activation db envelope_bytes candidate ms now = Some (Ok (g, db')) →
    bundle_effect sql db envelope_bytes t now
      (Ok (Activated g (generation <$> active st) replaced)) db'
| effect_confirm candidate st p b d :
    verify_bundle envelope_bytes t now = Ok candidate →
    load_state_from_conn db = Ok st →
    evaluate_activation candidate st now = Ok (Confirm p b d) →
    bundle_effect sql db envelope_bytes t now
      (Ok (Confirmed (default 0%N (generation <$> active st)) p now))
      (persist_confirm db candidate now).

Lemma submit_effect sql db envelope_bytes t now r db' :
  submit_policy_bundle sql db envelope_bytes t now = Some (r, db') →
  bundle_effect sql db envelope_bytes t now r db'.
Proof.
  unfold submit_policy_bundle.
  destruct (verify_bundle envelope_bytes t now) as [candidate|] eqn:Ev;
    [|intros [= <- <-]; constructor; by destruct (current_active_generation db)].
  destruct sql; [| |by intros [= <- <-]; constructor];
    (destruct (load_state_from_conn db) as [st|] eqn:Es; [|by intros [= <- <-]; constructor]);
    (destruct (evaluate_activation candidate st now) as [[ms rep|p b d]|] eqn:Ea;
      [| |by intros [= <- <-]; constructor]).
  2,4: intros [= <- <-]; by econstructor.
  all: destruct (persist_activation _ _ _ _ _) as [[[g db'']|]|] eqn:Ep; [| |done];
    intros [= <- <-]; by econstructor.
Qed.

Lemma persist_activation_tables db envelope_bytes candidate ms now g db' :
  persist_activation db envelope_bytes candidate ms now = Some (Ok (g, db')) →
  ∃ i new rows,
    list_find (λ m, c_bundle_id m = bundle_id (vb_payload candidate)) ms = Some (i, new) ∧
    g = (max_generation db + 1)%N ∧
    insert_members g ms (t_members db) = Ok rows ∧
    db' = mkDb
      (insert_or_ignore (c_bundle_id new, c_payload_digest new) (bundle_row envelope_bytes new)
         (t_bundles db))
      (<[g := now]> (t_generations db)) rows
      (Some (mkSlotsRow POLICY_CACHE_SCHEMA_VERSION (Some g) None (t_slots db ≫= sl_active)
               true now))
      (<[lineage candidate :=
           mkHighWaterRow (as_i64 (sequence (vb_payload candidate)))
             (bundle_id (vb_payload candidate)) (vb_payload_digest candidate) now]>
         (t_high_water db))
      (t_revocation_artifacts db) (t_revocation_state db) (t_revocations db).
Proof.
  unfold persist_activation. destruct (list_find _ ms) as [[i new]|]; [|done].
  destruct (insert_members _ ms _) as [rows|] eqn:Er; [|done].
  intros [= <- <-]. by exists i, new, rows.
Qed.

(** The two ways a submission of a revocation list can end. *)
Inductive revocation_effect db envelope_bytes t now :
    result StoreError RevocationIngestOutcome → Db → Prop :=
| reffect_none r : list_refused r → revocation_effect db envelope_bytes t now r db
| reffect_apply candidate st iss seq entries superseded :
    verify_revocation_list envelope_bytes t now = Ok candidate →
    load_state_from_conn db = Ok st →
    evaluate_revocation_ingest candidate st = Ok (Apply iss seq entries superseded) →
    revocation_effect db envelope_bytes t now
      (Ok (RevApplied iss seq (length entries) superseded))
      (persist_revocation_apply db envelope_bytes candidate iss seq entries now).

Lemma revocation_submit_effect sql db envelope_bytes t now r db' :
  submit_policy_revocation sql db envelope_bytes t now = (r, db') →
  revocation_effect db envelope_bytes t now r db'.
Proof.
  unfold submit_policy_revocation.
  destruct (verify_revocation_list envelope_bytes t now) as [candidate|] eqn:Ev;
    [|by intros [= <- <-]; constructor].
  destruct sql; [| |by intros [= <- <-]; constructor];
    (destruct (load_state_from_conn db) as [st|] eqn:Es; [|by intros [= <- <-]; constructor]);
    (destruct (evaluate_revocation_ingest candidate st) as [[]|] eqn:Ea;
      [|by intros [= <- <-]; constructor..]);
    intros [= <- <-]; by econstructor.
Qed.

(** What an applied decision is. *)
Lemma ingest_apply candidate st iss seq entries superseded :
  evaluate_revocation_ingest candidate st = Ok (Apply iss seq entries superseded) →
  iss = rp_issuer (vr_payload candidate) ∧ seq = rp_sequence (vr_payload candidate) ∧
  entries = filter (λ e, entry_is_new (revocations st) e = true)
              (rp_entries (vr_payload candidate)) ∧
  superseded = max_sequence_by_issuer (revocations st) !! iss ∧
  (∀ hw, max_sequence_by_issuer (revocations st) !! iss = Some hw → (hw < seq)%N).
Proof.
  unfold evaluate_revocation_ingest.
  destruct (max_sequence_by_issuer _ !! _) as [hw|] eqn:E.
  - case_decide; [done|]. case_decide; [done|]. intros [= <- <- <- <-].
    split_and!; try done. intros ? Hw. rewrite E in Hw. simplify_eq. lia.
  - intros [= <- <- <- <-]. split_and!; try done. intros ? Hw. congruence.
Qed.

End steps.
