(* ===== verification/PolicyStoreSpec.v ===== *)
(** * What the policy store guarantees

    The theorems on [PolicyStore], over any sequence of submissions,
    revocations and rollbacks, each of which SQLite may fail: anti-rollback,
    sticky revocation, that every outcome other than a commit leaves the
    tables as they were, and what a reload serves. *)

From S2P Require Import Prelude.
From S2P Require Import Types.
From S2P Require Import PolicyContent.
From S2P Require Import PolicyRevision.
From S2P Require Import PolicyBundle.
From S2P Require Import PolicyBundleSpec.
From S2P Require Import PolicyCache.
From S2P Require Import PolicyCacheSpec.
From S2P Require Import PolicyStore.
From S2P Require Import PolicyStoreLemmas.

Open Scope fornax_scope.

Section anti_rollback.
Context `{Chrono, ChronoFromStr, PolicyWire, PolicyDigest, !PolicyWireOk}.
Implicit Types (db : Db) (t : TrustedVerificationKeys) (now : Z) (sql : Sqlite).

(** ** The high water *)

(** [r'] is at least [r], and equal only for the same bundle. *)
Definition high_water_le (r r' : HighWaterRow) : Prop :=
  (as_u64 (hwr_max_sequence r) < as_u64 (hwr_max_sequence r'))%N ∨
  (hwr_max_sequence r = hwr_max_sequence r' ∧ hwr_last_bundle_id r = hwr_last_bundle_id r' ∧
   hwr_last_payload_digest r = hwr_last_payload_digest r').

#[local] Instance high_water_le_preorder : PreOrder high_water_le.
Proof.
  split.
  - intros r. by right.
  - intros r1 r2 r3 [?|(E1 & E2 & E3)] [?|(E4 & E5 & E6)].
    + left; lia.
    + left. by rewrite <-E4.
    + left. by rewrite E1.
    + right. split_and!; congruence.
Qed.

(** No lineage loses its high water or sees it lowered. *)
Definition high_water_grows db db' : Prop :=
  ∀ l r, t_high_water db !! l = Some r →
    ∃ r', t_high_water db' !! l = Some r' ∧ high_water_le r r'.

#[local] Instance high_water_grows_preorder : PreOrder high_water_grows.
Proof.
  split.
  - intros db l r Hr. by exists r.
  - intros db1 db2 db3 H12 H23 l r Hr.
    destruct (H12 l r Hr) as (r2 & Hr2 & Hle). destruct (H23 l r2 Hr2) as (r3 & Hr3 & Hle').
    exists r3. split; [done|]. by etrans.
Qed.

(** One issuer per lineage. *)
Definition lineage_bound db : Prop :=
  ∀ i i' p, is_Some (t_high_water db !! (i, p)) → is_Some (t_high_water db !! (i', p)) → i = i'.

Lemma verified_sequence_u64 envelope_bytes t now v :
  verify_bundle envelope_bytes t now = Ok v → (sequence (vb_payload v) ≤ u64_max)%N.
Proof.
  intros Hv. apply verify_bundle_certified, cert_payload in Hv
    as (env & bytes & s & _ & _ & Hp & _).
  unfold parse_payload in Hp.
  destruct (parse_bundle_payload bytes) as [w|] eqn:Ew; [|done].
  apply bundle_sequence_u64 in Ew. destruct (try_from_wire _); simplify_eq/=.
  destruct v as [vp ? ?]; simpl in *. congruence || by subst vp.
Qed.

Lemma activation_high_water db envelope_bytes t now candidate st ms replaced :
  verify_bundle envelope_bytes t now = Ok candidate →
  load_state_from_conn db = Ok st →
  evaluate_activation candidate st now = Ok (Activate ms replaced) →
  (∀ r, t_high_water db !! lineage candidate = Some r →
    (as_u64 (hwr_max_sequence r) < sequence (vb_payload candidate))%N) ∧
  (∀ i, is_Some (t_high_water db !! (i, candidate_policy candidate)) →
    i = candidate_issuer candidate).
Proof.
  intros Hv Hst He.
  pose proof (evaluate_activation_certified candidate st now) as Hd.
  rewrite He in Hd; simpl in Hd. destruct Hd as (_ & Ho & Hadv & _).
  setoid_rewrite (load_state_high_water db st _ Hst) in Ho.
  setoid_rewrite (load_state_high_water db st _ Hst) in Hadv.
  split.
  - intros r Hr. specialize (Hadv (into_high_water (lineage candidate) r)).
    apply Hadv. unfold lineage in Hr |- *. fold (candidate_issuer candidate) in Hr.
    fold (candidate_policy candidate) in Hr. by rewrite Hr.
  - intros i Hi. apply Ho. by apply fmap_is_Some.
Qed.

Lemma step_high_water db db' :
  step db db' → high_water_grows db db' ∧ (lineage_bound db → lineage_bound db').
Proof.
  intros [sql' db1 env t now r db2 Hs|sql' db1 env t now r db2 Hs|sql' db1 now r db2 Hs].
  - apply submit_effect in Hs as [|candidate st ms rep g db3 Hv Hst He Hp|candidate st p b d Hv Hst He].
    + by split.
    + destruct (activation_high_water _ _ _ _ _ _ _ _ Hv Hst He) as [Hadv Hown].
      apply persist_activation_tables in Hp as (j & new & rows & _ & _ & _ & ->).
      apply verified_sequence_u64 in Hv. split.
      * intros l r' Hr'. simpl. destruct (decide (l = lineage candidate)) as [->|Hne].
        -- rewrite lookup_insert_eq. eexists. split; [done|]. left; simpl.
           rewrite as_u64_as_i64 by done. by apply Hadv.
        -- rewrite lookup_insert_ne by done. by exists r'.
      * intros Hb i i' p; simpl. rewrite !lookup_insert_is_Some.
        unfold lineage. fold (candidate_issuer candidate) (candidate_policy candidate).
        intros [Hi|[_ Hi]] [Hi'|[_ Hi']]; simplify_eq.
        -- done.
        -- symmetry. by apply Hown.
        -- by apply Hown.
        -- by eapply Hb.
    + split.
      * intros l r' Hr'. simpl. destruct (decide (l = lineage candidate)) as [->|Hne].
        -- rewrite lookup_alter_eq, Hr'. eexists. split; [done|]. by right.
        -- rewrite lookup_alter_ne by done. by exists r'.
      * intros Hb i i' q; simpl. rewrite !lookup_alter_is_Some. apply Hb.
  - apply revocation_submit_effect in Hs as []; (split; [intros l r' Hr'; by exists r'|done]).
  - unfold rollback_policy_to_last_known_good in Hs.
    destruct sql', (load_state_from_conn db1); simplify_eq;
      (split; [intros l r' Hr'; by exists r'|done]).
Qed.

Lemma steps_high_water db db' :
  rtc step db db' → high_water_grows db db' ∧ (lineage_bound db → lineage_bound db').
Proof.
  induction 1 as [db|db1 db2 db3 [Hg Hl]%step_high_water _ [IHg IHl]]; [done|].
  split; [by etrans|]. auto.
Qed.

(** C26. Anti-rollback. Over any sequence of submissions, revocations and
    rollbacks to last-known-good, from any tables, a lineage's sequence high
    water is never lost or lowered, and stays the same only for the same
    bundle; and in tables reached from an empty store a lineage is bound to
    one issuer for ever. *)
Theorem high_water_never_lowered db db' :
  rtc step db db' →
  high_water_grows db db' ∧ (rtc step empty_db db → lineage_bound db').
Proof.
  intros Hs. split; [by apply steps_high_water|].
  intros Hr. eapply (steps_high_water empty_db); [by etrans|].
  intros i i' p [? Hi]; simpl in Hi. by rewrite lookup_empty in Hi.
Qed.
End anti_rollback.

Section revocation.
Context `{Chrono, ChronoFromStr, PolicyWire, PolicyDigest}.
Implicit Types (db : Db) (t : TrustedVerificationKeys) (now : Z) (sql : Sqlite).

(** ** Revocation *)

Lemma insert_entries_keep (iss : string) (seq : N) now (entries : list RevocationEntry) (m : gmap (string * string * string) RevocationEntryRow) :
  m ⊆ foldl (insert_entry iss seq now) m entries.
Proof.
  revert m. induction entries as [|e entries IH]; intros m; [done|]; simpl.
  etrans; [|apply IH]. apply map_subseteq_spec. intros k row Hk. unfold insert_entry.
  destruct (entry_key iss e); [|done]. by apply insert_or_ignore_keeps.
Qed.

Lemma insert_entries_add (iss : string) (seq : N) now (entries : list RevocationEntry) e k :
  e ∈ entries → entry_key iss e = Some k →
  ∀ m, is_Some (foldl (insert_entry iss seq now) m entries !! k).
Proof.
  intros He Hk. induction entries as [|e' entries IH]; intros m; [by apply elem_of_nil in He|].
  simpl. apply elem_of_cons in He as [<-|He]; [|by apply IH].
  assert (is_Some (insert_entry iss seq now m e !! k)) as [row Hrow].
  { unfold insert_entry. rewrite Hk, insert_or_ignore_lookup.
    destruct (m !! k); [done|]. by rewrite decide_True. }
  exists row. by eapply lookup_weaken, insert_entries_keep.
Qed.

Lemma step_revocations db db' : step db db' → t_revocations db ⊆ t_revocations db'.
Proof.
  intros [sql' db1 env t now r db2 Hs|sql' db1 env t now r db2 Hs|sql' db1 now r db2 Hs].
  - apply submit_effect in Hs as [|candidate st ms rep g db3 Hv Hst He Hp|]; [done| |done].
    by apply persist_activation_tables in Hp as (j & new & rows & _ & _ & _ & ->).
  - apply revocation_submit_effect in Hs as []; [done|]. apply insert_entries_keep.
  - unfold rollback_policy_to_last_known_good in Hs.
    by destruct sql', (load_state_from_conn db1); simplify_eq.
Qed.

Lemma steps_revocations db db' : rtc step db db' → t_revocations db ⊆ t_revocations db'.
Proof. induction 1 as [|db1 db2 db3 Hs _ IH]; [done|]. etrans; [by apply step_revocations|done]. Qed.

Lemma digest_revoked_mono db db' kind d :
  t_revocations db ⊆ t_revocations db' → digest_revoked db kind d → digest_revoked db' kind d.
Proof. intros Hsub (i & row & Hrow). exists i, row. by eapply lookup_weaken. Qed.

Lemma revoked_mono db db' r p :
  t_revocations db ⊆ t_revocations db' → revoked db r p → revoked db' r p.
Proof. intros Hsub [?|?]; [left|right]; by eapply digest_revoked_mono. Qed.

Lemma submit_revoked sql db envelope_bytes t now v :
  verify_bundle envelope_bytes t now = Ok v →
  revoked db (rev_digest (vb_revision v)) (vb_payload_digest v) →
  ∃ res, submit_policy_bundle sql db envelope_bytes t now = Some (res, db) ∧
    match res with
    | Ok (ActivationRejected (Revoked p _ _ _) _) => p = candidate_policy v
    | Ok _ => False
    | Err _ => sql = StatementFails ∨ ∃ e, load_state_from_conn db = Err e
    end.
Proof.
  intros Hv Hr. apply hit_revoked in Hr as [h Hh].
  unfold submit_policy_bundle. rewrite Hv.
  destruct (load_state_from_conn db) as [st|e] eqn:Es;
    [|destruct sql; eexists; (split; [done|]); first [by left|right; by exists e]].
  unfold evaluate_activation. rewrite (load_state_revocations _ _ Es), Hh.
  destruct sql; eexists; (split; [done|]); first [done|by left|by right].
Qed.

(** Revocation is sticky. Over any sequence of operations the recorded
    revocations are only ever added to; a digest revoked once stays revoked,
    and from then on every submission of a bundle that carries it, however
    validly signed, is answered with the revocation (or with SQLite's own
    error) and changes nothing. *)
Theorem revocation_is_sticky db db' :
  rtc step db db' →
  t_revocations db ⊆ t_revocations db' ∧
  ∀ sql envelope_bytes t now v,
    verify_bundle envelope_bytes t now = Ok v →
    revoked db (rev_digest (vb_revision v)) (vb_payload_digest v) →
    ∃ res, submit_policy_bundle sql db' envelope_bytes t now = Some (res, db') ∧
      match res with
      | Ok (ActivationRejected (Revoked p _ _ _) _) => p = candidate_policy v
      | Ok _ => False
      | Err _ => sql = StatementFails ∨ ∃ e, load_state_from_conn db' = Err e
      end.
Proof.
  intros Hs%steps_revocations. split; [done|].
  intros * Hv Hr. apply submit_revoked; [done|]. by eapply revoked_mono.
Qed.

(** The target of an entry, as the row it is recorded under. *)
Definition entry_target (e : RevocationEntry) : option (string * string) :=
  match re_target e with
  | TargetRevisionDigest d => Some (REVISION_DIGEST_KIND, d)
  | TargetPayloadDigest d => Some (PAYLOAD_DIGEST_KIND, d)
  | TargetUnrecognized => None
  end.

Lemma entry_not_new db e kind d :
  entry_target e = Some (kind, d) → entry_is_new (load_revocations db) e = false →
  digest_revoked db kind d.
Proof.
  unfold entry_target, entry_is_new.
  destruct (re_target e) as [d'|d'|]; intros [= <- <-] Hn%bool_decide_eq_false;
    apply not_eq_None_Some in Hn.
  - by apply loaded_revision_digests.
  - by apply loaded_payload_digests.
Qed.

Lemma verified_list_sequence_u64 `{!PolicyWireOk} envelope_bytes t now v :
  verify_revocation_list envelope_bytes t now = Ok v → (rp_sequence (vr_payload v) ≤ u64_max)%N.
Proof.
  intros Hv. apply verify_revocation_list_certified, certl_payload in Hv
    as (env & bytes & s & _ & _ & Hp & _). by eapply revocation_sequence_u64.
Qed.

(** An applied revocation list takes full effect: every digest it names
    is revoked afterwards, whether it was new or known; the issuer's recorded
    sequence becomes the list's, which is above every one recorded before;
    and no other table changes. *)
Theorem applied_list_revokes `{!PolicyWireOk} sql db envelope_bytes t now iss seq n superseded db' :
  submit_policy_revocation sql db envelope_bytes t now =
    (Ok (RevApplied iss seq n superseded), db') →
  ∃ v, verify_revocation_list envelope_bytes t now = Ok v ∧
    iss = rp_issuer (vr_payload v) ∧ seq = rp_sequence (vr_payload v) ∧
    (∀ e kind d, e ∈ rp_entries (vr_payload v) → entry_target e = Some (kind, d) →
      digest_revoked db' kind d) ∧
    (as_u64 ∘ rsr_max_sequence <$> t_revocation_state db' !! iss) = Some seq ∧
    (∀ row, t_revocation_state db !! iss = Some row →
      (as_u64 (rsr_max_sequence row) < seq)%N) ∧
    t_bundles db' = t_bundles db ∧ t_generations db' = t_generations db ∧
    t_members db' = t_members db ∧ t_slots db' = t_slots db ∧
    t_high_water db' = t_high_water db.
Proof.
  intros Hs. apply revocation_submit_effect in Hs.
  remember (Ok (RevApplied iss seq n superseded)) as r eqn:Er.
  destruct Hs as [r Href|v st iss' seq' entries sup Hv Hst Hi]; simplify_eq/=; [done|].
  apply ingest_apply in Hi as (-> & -> & -> & -> & Hadv).
  rewrite (load_state_revocations _ _ Hst) in *.
  exists v. split_and!; try done; simpl.
  - intros e kind d He Ht.
    destruct (entry_is_new (load_revocations db) e) eqn:En.
    + exists (rp_issuer (vr_payload v)). simpl. eapply insert_entries_add.
      * apply list_elem_of_filter. by split.
      * revert Ht. unfold entry_target, entry_key. by destruct (re_target e); intros [= <- <-].
    + eapply digest_revoked_mono; [|by eapply entry_not_new]. apply insert_entries_keep.
  - rewrite lookup_insert_eq; simpl. rewrite as_u64_as_i64; [done|].
    by eapply verified_list_sequence_u64.
  - intros row Hrow. apply Hadv. unfold load_revocations. rewrite fold_entries_sequences; simpl.
    by rewrite lookup_fmap, Hrow.
Qed.
End revocation.
