(* ===== verification/PolicyStoreInv.v ===== *)
(** * The store's invariant

    The invariant that relates the tables of the policy cache, over the
    operations whose bundles carry an identifier of their own lineage
    ([own_identifier]), and its preservation. The loop that stores an
    activated bundle looks its member up by bundle id alone, so without that
    condition the invariant can be broken: see [PolicyStoreServe]. *)

From S2P Require Import Prelude.
From S2P Require Import Types.
From S2P Require Import PolicyContent.
From S2P Require Import PolicyRevision.
From S2P Require Import PolicyBundle.
From S2P Require Import PolicyBundleSpec.
From S2P Require Import PolicyCache.
From S2P Require Import PolicyCacheSpec.
From S2P Require Import PolicyStore.
From S2P Require Import PolicyStoreLemmas.

Open Scope fornax_scope.

(** ** The member rows *)

Definition member_key (m : CachedBundleRef) : Uuid * (Uuid * string) :=
  (c_policy_id m, (c_bundle_id m, c_payload_digest m)).

Lemma elem_of_raw_members db g p key :
  (p, key) ∈ raw_members db g ↔ t_members db !! (g, p) = Some key.
Proof.
  unfold raw_members. rewrite list_elem_of_omap. split.
  - intros ([[g' p'] key'] & Hin & Hd); simpl in *. case_decide; simplify_eq.
    by apply elem_of_btree_iter.
  - intros Hk. exists ((g, p), key). split; [by apply elem_of_btree_iter|].
    simpl. by rewrite decide_True.
Qed.

Lemma raw_members_sorted db g :
  StronglySorted (key_le fst) (raw_members db g) ∧ NoDup (raw_members db g).*1.
Proof.
  unfold raw_members.
  pose proof (btree_iter_sorted (t_members db)) as Hs.
  pose proof (btree_iter_NoDup_fst (t_members db)) as Hnd.
  revert Hs Hnd. generalize (btree_iter (t_members db)) as l.
  induction l as [|[[g' p] key] l IH]; intros Hs Hnd; simpl.
  { split; constructor. }
  inversion Hs as [|? ? Hs' Hall]; simplify_eq. inversion Hnd as [|? ? Hni Hnd']; simplify_eq.
  destruct (IH Hs' Hnd') as [IH1 IH2]. case_decide as Hg; [|done]. simpl in Hg; subst g'.
  split; simpl; constructor; try done.
  - apply Forall_forall. intros [p' key'] (x & Hx & Hd)%list_elem_of_omap.
    rewrite Forall_forall in Hall. specialize (Hall x Hx).
    destruct x as [[g' p''] key'']; simpl in *. case_decide; simplify_eq.
    unfold key_le, ord_le, prod_ord in *; simpl in *.
    destruct Hall as [[? Hn]|[_ ?]]; [|done]. by destruct Hn.
  - intros ([p' key'] & Hp & (x & Hx & Hd)%list_elem_of_omap)%list_elem_of_fmap.
    destruct x as [[g' p''] key'']; simpl in *. case_decide; simplify_eq/=.
    apply Hni. change ((g, p') ∈ l.*1). apply list_elem_of_fmap. by exists (g, p', key').
Qed.

(** Every member has its row, in tables where a row's policy is its
    member's. *)
Lemma resolve_members_rows raws : ∀ m : gmap (Uuid * string) BundleRow,
  NoDup raws.*1 →
  (∀ p key, (p, key) ∈ raws → ∃ row, m !! key = Some row ∧ br_policy_id row = p) →
  Forall2 (λ raw c, ∃ row, m !! raw.2 = Some row ∧ br_policy_id row = raw.1 ∧
                           c = into_cached_bundle_ref raw.2 row)
    raws (resolve_members m raws).
Proof.
  induction raws as [|[p key] raws IH]; intros m Hnd Hrows; simpl; [constructor|].
  inversion Hnd as [|? ? Hni Hnd']; simplify_eq/=.
  destruct (Hrows p key) as (row & Hrow & Hp); [by left|]. rewrite Hrow.
  constructor; [by exists row|].
  assert (∀ p' key', (p', key') ∈ raws → key' ≠ key) as Hne.
  { intros p' key' Hin ->. destruct (Hrows p' key) as (row' & Hrow' & Hp'); [by right|].
    simplify_eq. apply Hni, list_elem_of_fmap. by exists (br_policy_id row, key). }
  eapply Forall2_impl; [apply IH; [done|]|].
  - intros p' key' Hin. rewrite lookup_delete_ne; [|by apply not_eq_sym, (Hne p')].
    apply Hrows. by right.
  - simpl. intros [p' key'] c (row' & Hrow' & ? & ?).
    apply lookup_delete_Some in Hrow' as [_ Hrow']. by exists row'.
Qed.

Lemma insert_members_lookup g ms : ∀ tbl rows,
  insert_members g ms tbl = Ok rows →
  ∀ k key, rows !! k = Some key ↔
    tbl !! k = Some key ∨
    ∃ m, m ∈ ms ∧ k = (g, c_policy_id m) ∧ key = (c_bundle_id m, c_payload_digest m).
Proof.
  induction ms as [|m ms IH]; intros tbl rows; simpl.
  { intros [= <-] k key. split; [by left|].
    intros [?|(? & []%elem_of_nil & _)]; done. }
  destruct (tbl !! (g, c_policy_id m)) eqn:Et; [done|]. intros Hi k key.
  rewrite (IH _ _ Hi). setoid_rewrite elem_of_cons.
  destruct (decide (k = (g, c_policy_id m))) as [->|Hne].
  - rewrite lookup_insert_eq, Et. split.
    + intros [[= <-]|(m' & ? & ? & ?)]; right; [exists m|exists m']; auto.
    + intros [?|(m' & [->|?] & Hk & ->)]; [done|by left|right; by exists m'].
  - rewrite lookup_insert_ne by done. split.
    + intros [?|(m' & ? & ? & ?)]; [by left|right; exists m'; auto].
    + intros [?|(m' & [->|?] & Hk & ->)]; [by left|done|right; by exists m'].
Qed.

Lemma insert_members_total g ms : ∀ tbl,
  (∀ p, tbl !! (g, p) = None ∨ p ∉ c_policy_id <$> ms) →
  NoDup (c_policy_id <$> ms) →
  ∃ rows, insert_members g ms tbl = Ok rows.
Proof.
  induction ms as [|m ms IH]; intros tbl Hfree Hnd; simpl; [by eexists|].
  inversion Hnd as [|? ? Hni Hnd']; simplify_eq/=.
  destruct (Hfree (c_policy_id m)) as [->|Hn]; [|destruct Hn; by left].
  apply IH; [|done]. intros p.
  destruct (decide (p = c_policy_id m)) as [->|Hne]; [by right|].
  rewrite lookup_insert_ne by congruence.
  destruct (Hfree p) as [?|Hn]; [by left|right]. intros Hp. apply Hn. by right.
Qed.

Lemma max_generation_bound db g : is_Some (t_generations db !! g) → (g ≤ max_generation db)%N.
Proof.
  intros [z Hz]. unfold max_generation.
  assert (g ∈ (map_to_list (t_generations db)).*1) as Hg.
  { apply list_elem_of_fmap. exists (g, z). split; [done|]. by apply elem_of_map_to_list. }
  revert Hg. generalize (map_to_list (t_generations db)).*1 as l.
  induction l as [|x l IH]; [by intros ?%elem_of_nil|]; simpl.
  intros [->|Hin]%elem_of_cons; [lia|]. specialize (IH Hin). lia.
Qed.

Section inv.
Context `{Chrono, ChronoFromStr, PolicyWire, PolicyDigest}.
Implicit Types (db : Db) (t : TrustedVerificationKeys) (now : Z) (sql : Sqlite).

(** ** The invariant *)

(** A stored row holds an envelope that verified, and its columns are those
    of the bundle in it. *)
Definition row_certified (key : Uuid * string) (row : BundleRow) : Prop :=
  ∃ t now v, verify_bundle (br_envelope row) t now = Ok v ∧
    bundle_id (vb_payload v) = key.1 ∧ vb_payload_digest v = key.2 ∧
    br_policy_id row = candidate_policy v ∧ br_issuer row = candidate_issuer v ∧
    br_revision_digest row = rev_digest (vb_revision v) ∧
    br_sequence row = as_i64 (sequence (vb_payload v)).

Record store_inv db : Prop := {
  inv_slots : ∀ s g, t_slots db = Some s →
    sl_active s = Some g ∨ sl_last_known_good s = Some g → is_Some (t_generations db !! g);
  inv_members : ∀ g p key, t_members db !! (g, p) = Some key →
    is_Some (t_generations db !! g) ∧
    ∃ row, t_bundles db !! key = Some row ∧ br_policy_id row = p;
  inv_rows : ∀ key row, t_bundles db !! key = Some row → row_certified key row;
}.

(** No bundle of another lineage is stored under the candidate's id. *)
Definition own_identifier db (v : VerifiedPolicyBundle) : Prop :=
  ∀ digest row, t_bundles db !! (bundle_id (vb_payload v), digest) = Some row →
    br_policy_id row = candidate_policy v.

(** A step whose bundle, if it verifies, has an identifier of its own. *)
Inductive own_step : relation Db :=
| own_bundle sql db envelope_bytes t now r db' :
    (∀ v, verify_bundle envelope_bytes t now = Ok v → own_identifier db v) →
    submit_policy_bundle sql db envelope_bytes t now = Some (r, db') → own_step db db'
| own_revocation sql db envelope_bytes t now r db' :
    submit_policy_revocation sql db envelope_bytes t now = (r, db') → own_step db db'
| own_rollback sql db now r db' :
    rollback_policy_to_last_known_good sql db now = (r, db') → own_step db db'.

Lemma store_inv_empty : store_inv empty_db.
Proof. split; simpl; [done|intros ? ? ?; by rewrite lookup_empty|intros ? ?; by rewrite lookup_empty]. Qed.

(** ** Loading under the invariant *)

Lemma load_generation_members db g gen :
  store_inv db → load_generation db g = Ok gen →
  generation gen = g ∧ member_key <$> members gen = raw_members db g ∧
  ∀ m, m ∈ members gen →
    ∃ row, t_members db !! (g, c_policy_id m) = Some (c_bundle_id m, c_payload_digest m) ∧
      t_bundles db !! (c_bundle_id m, c_payload_digest m) = Some row ∧
      br_policy_id row = c_policy_id m ∧
      m = into_cached_bundle_ref (c_bundle_id m, c_payload_digest m) row.
Proof.
  intros Hinv. unfold load_generation. destruct (t_generations db !! g) as [w|]; [|done].
  intros [= <-]; simpl. split; [done|].
  assert (Forall2 (λ raw c, ∃ row, t_bundles db !! raw.2 = Some row ∧ br_policy_id row = raw.1 ∧
      c = into_cached_bundle_ref raw.2 row)
      (raw_members db g) (resolve_members (t_bundles db) (raw_members db g))) as Hr.
  { apply resolve_members_rows; [apply raw_members_sorted|].
    intros p key Hin%elem_of_raw_members. by eapply inv_members. }
  split.
  - revert Hr. generalize (resolve_members (t_bundles db) (raw_members db g)) as cs.
    induction 1 as [|[p key] c raws cs (row & _ & Hp & ->) _ IH]; [done|]. simpl.
    f_equal; [|done]. unfold member_key; simpl in *. subst p. by destruct key.
  - intros m Hm. apply (Forall2_elem_of_r _ _ _ _ Hr) in Hm as ([p key] & Hin & row & Hrow & Hp & ->).
    simpl in *. exists row. subst p. destruct key as [b d]; simpl.
    split_and!; try done. by apply elem_of_raw_members.
Qed.

Lemma load_slot_total db g :
  is_Some (t_generations db !! g) → ∃ gen, load_generation db g = Ok gen.
Proof. intros [w Hw]. unfold load_generation. rewrite Hw. by eexists. Qed.

Lemma load_state_total db : store_inv db → ∃ st, load_state_from_conn db = Ok st.
Proof.
  intros Hinv. unfold load_state_from_conn. destruct (t_slots db) as [s|] eqn:Es; [|by eexists].
  assert (∀ o, o = sl_active s ∨ o = sl_last_known_good s → ∃ x, load_slot db o = Ok x) as Hl.
  { intros [g|] Ho; [|by eexists]. unfold load_slot.
    destruct (load_slot_total db g) as [gen ->]; [|by eexists].
    eapply inv_slots; [done..|]. by destruct Ho; auto. }
  destruct (Hl (sl_active s)) as [a ->]; [by left|].
  destruct (Hl (sl_last_known_good s)) as [l ->]; [by right|]. by eexists.
Qed.

Lemma load_state_slots db st :
  load_state_from_conn db = Ok st →
  load_slot db (t_slots db ≫= sl_active) = Ok (active st) ∧
  load_slot db (t_slots db ≫= sl_last_known_good) = Ok (last_known_good st) ∧
  ever_configured st = match t_slots db with Some s => sl_ever_configured s | None => false end.
Proof.
  unfold load_state_from_conn. destruct (t_slots db) as [s|]; [|by intros [= <-]]; simpl.
  destruct (load_slot db (sl_active s)) as [a|] eqn:Ea; [|done].
  destruct (load_slot db (sl_last_known_good s)) as [l|] eqn:El; [|done].
  by intros [= <-].
Qed.

Lemma load_slot_Some db o gen :
  load_slot db o = Ok (Some gen) → ∃ g, o = Some g ∧ load_generation db g = Ok gen.
Proof.
  unfold load_slot. destruct o as [g|]; [|done].
  destruct (load_generation db g) as [gen'|] eqn:E; [|done]. intros [= ->]. by exists g.
Qed.

(** The members of the active generation, with their rows. *)
Lemma active_member_row db st m :
  store_inv db → load_state_from_conn db = Ok st → m ∈ active_members st →
  ∃ row, t_bundles db !! (c_bundle_id m, c_payload_digest m) = Some row ∧
    br_policy_id row = c_policy_id m ∧
    m = into_cached_bundle_ref (c_bundle_id m, c_payload_digest m) row.
Proof.
  intros Hinv (Ha & _ & _)%load_state_slots. unfold active_members.
  destruct (active st) as [gen|]; simpl; [|by intros ?%elem_of_nil].
  intros Hm. apply load_slot_Some in Ha as (g & _ & Hg).
  apply load_generation_members in Hg as (_ & _ & Hms); [|done].
  destruct (Hms m Hm) as (row & _ & ? & ? & ?). by exists row.
Qed.

Lemma active_members_NoDup db st :
  store_inv db → load_state_from_conn db = Ok st → NoDup (c_policy_id <$> active_members st).
Proof.
  intros Hinv (Ha & _ & _)%load_state_slots. unfold active_members.
  destruct (active st) as [gen|]; simpl; [|constructor].
  apply load_slot_Some in Ha as (g & _ & Hg).
  apply load_generation_members in Hg as (_ & Hk & _); [|done].
  replace (c_policy_id <$> members gen) with (member_key <$> members gen).*1
    by (rewrite <-list_fmap_compose; done).
  rewrite Hk. apply raw_members_sorted.
Qed.

(** ** Preservation *)

(** What the decision's member set is, in tables that satisfy the invariant. *)
Lemma activated_members db st candidate now ms replaced :
  store_inv db → load_state_from_conn db = Ok st → own_identifier db candidate →
  evaluate_activation candidate st now = Ok (Activate ms replaced) →
  ∃ new, member_of candidate now new ∧
    ms ≡ₚ filter (λ m, c_policy_id m ≠ candidate_policy candidate) (active_members st) ++ [new] ∧
    StronglySorted (key_le c_policy_id) ms ∧ NoDup (c_policy_id <$> ms) ∧
    (∃ i, list_find (λ m, c_bundle_id m = bundle_id (vb_payload candidate)) ms = Some (i, new)).
Proof.
  intros Hinv Hst Hown He. pose proof (evaluate_activation_certified candidate st now) as Hd.
  rewrite He in Hd; simpl in Hd. destruct Hd as (_ & _ & _ & _ & Hsort & (new & Hnew & Hms) & _).
  exists new. split_and!; [done..| |].
  - rewrite Hms, fmap_app. apply NoDup_app. split_and!; simpl.
    + eapply sublist_NoDup; [by eapply active_members_NoDup|].
      apply fmap_sublist, sublist_filter.
    + intros p (m & -> & (Hne & _)%list_elem_of_filter)%list_elem_of_fmap ?%list_elem_of_singleton.
      by rewrite (mo_policy_id _ _ _ Hnew) in *.
    + apply NoDup_singleton.
  - destruct (list_find _ ms) as [[i m]|] eqn:Ef.
    + exists i. apply list_find_Some in Ef as (Hi & Hb & _). do 2 f_equal.
      apply list_elem_of_lookup_2 in Hi. rewrite Hms in Hi.
      apply elem_of_app in Hi as [(Hne & Hm)%list_elem_of_filter|Hm%list_elem_of_singleton]; [|done].
      destruct (active_member_row db st m Hinv Hst Hm) as (row & Hrow & Hp & _).
      rewrite Hb in Hrow. apply Hown in Hrow. congruence.
    + apply list_find_None in Ef. rewrite Forall_forall in Ef.
      destruct (Ef new); [|by apply (mo_bundle_id _ _ _ Hnew)].
      rewrite Hms. apply elem_of_app. right. by left.
Qed.

Lemma persist_activation_inv db st envelope_bytes t now candidate ms replaced g db' :
  store_inv db → load_state_from_conn db = Ok st → own_identifier db candidate →
  verify_bundle envelope_bytes t now = Ok candidate →
  evaluate_activation candidate st now = Ok (Activate ms replaced) →
  persist_activation db envelope_bytes candidate ms now = Some (Ok (g, db')) →
  store_inv db'.
Proof.
  intros Hinv Hst Hown Hv He Hp.
  destruct (activated_members db st candidate now ms replaced)
    as (new & Hnew & Hms & _ & _ & j & Hfind); [done..|].
  apply persist_activation_tables in Hp as (i & new' & rows & Hf & -> & Hrows & ->).
  rewrite Hfind in Hf. simplify_eq. split; simpl.
  - intros s g [= <-] [[= <-]|Hg]; simpl in *; rewrite lookup_insert_is_Some'; [by left|right].
    destruct (t_slots db) as [s|] eqn:Es; [|done]. eapply inv_slots; eauto.
  - intros g p key Hk. rewrite lookup_insert_is_Some'.
    apply (insert_members_lookup _ _ _ _ Hrows) in Hk as [Hk|(m & Hm & Hk & ->)].
    + destruct (inv_members _ Hinv _ _ _ Hk) as (Hg & row & Hrow & Hp).
      split; [by right|]. exists row. split; [|done]. by apply insert_or_ignore_keeps.
    + simplify_eq. split; [by left|]. rewrite Hms in Hm.
      apply elem_of_app in Hm as [(Hne & Hm)%list_elem_of_filter| ->%list_elem_of_singleton].
      * destruct (active_member_row db st m Hinv Hst Hm) as (row & Hrow & Hp & _).
        exists row. split; [|done]. by apply insert_or_ignore_keeps.
      * rewrite insert_or_ignore_lookup.
        destruct (t_bundles db !! _) as [row|] eqn:Erow; [|rewrite decide_True by done; by eexists].
        exists row. split; [done|]. rewrite (mo_policy_id _ _ _ Hnew).
        rewrite (mo_bundle_id _ _ _ Hnew) in Erow. by eapply Hown.
  - intros key row. rewrite insert_or_ignore_lookup.
    destruct (t_bundles db !! key) eqn:Ek; [intros [= ->]; by eapply inv_rows|].
    case_decide as Hkey; [|done]. subst key. intros [= <-].
    exists t, now, candidate. destruct Hnew. split_and!; simpl; by f_equal.
Qed.

Lemma persist_confirm_inv db candidate now : store_inv db → store_inv (persist_confirm db candidate now).
Proof.
  intros Hinv. split; simpl.
  - apply Hinv.
  - intros g p key Hk. destruct (inv_members _ Hinv _ _ _ Hk) as (Hg & row & Hrow & Hp).
    split; [done|]. rewrite lookup_alter. case_decide; subst; rewrite Hrow; by eexists.
  - intros key row. rewrite lookup_alter. case_decide as Hkey.
    + destruct (t_bundles db !! _) as [row'|] eqn:Ek; [|done]. intros [= <-]. subst key.
      by apply (inv_rows _ Hinv) in Ek.
    + by apply Hinv.
Qed.

Lemma own_step_inv db db' : store_inv db → own_step db db' → store_inv db'.
Proof.
  intros Hinv Hstep. revert Hinv.
  destruct Hstep as
    [sql' db1 env t now r db2 Hown Hs|sql' db1 env t now r db2 Hs|sql' db1 now r db2 Hs];
    intros Hinv.
  - apply submit_effect in Hs as [|candidate st ms rep g db3 Hv Hst He Hp|]; [done| |].
    + eapply persist_activation_inv; eauto.
    + by apply persist_confirm_inv.
  - apply revocation_submit_effect in Hs as []; [done|]. split; apply Hinv.
  - unfold rollback_policy_to_last_known_good in Hs.
    destruct sql', (load_state_from_conn db1) as [st|] eqn:Est; simplify_eq; try done.
    split; simpl; [|apply Hinv..]. intros s g Hs Hg.
    destruct (t_slots db1) as [s0|] eqn:Es; simplify_eq/=.
    destruct Hg as [Hg|Hg]; [|eapply inv_slots; eauto].
    apply load_state_slots in Est as (_ & Hl & _). rewrite Es in Hl; simpl in Hl.
    destruct (last_known_good st) as [gen|]; simplify_eq/=.
    apply load_slot_Some in Hl as (g & Hg & Hgen).
    apply load_generation_members in Hgen as (-> & _); [|done].
    eapply inv_slots; eauto.
Qed.

Lemma own_steps_inv db : rtc own_step empty_db db → store_inv db.
Proof.
  intros Hs. assert (∀ db0, rtc own_step db0 db → store_inv db0 → store_inv db) as Hgen.
  { clear. induction 1; eauto using own_step_inv. }
  apply (Hgen empty_db); [done|apply store_inv_empty].
Qed.

Lemma own_step_step db db' : own_step db db' → step db db'.
Proof. intros []; by econstructor. Qed.

End inv.
