(* ===== verification/PolicyStoreServe.v ===== *)
(** * What an activation stores and a reload serves

    The theorems on the store that need its invariant: every operation
    terminates with an answer and is atomic, an activation takes effect as
    decided, a reload serves whole generations of verified, unrevoked
    bundles only, and a bundle just activated is served. The last section
    shows what happens without the condition on bundle identifiers. *)

From S2P Require Import Prelude.
From S2P Require Import Types.
From S2P Require Import PolicyContent.
From S2P Require Import PolicyRevision.
From S2P Require Import PolicyBundle.
From S2P Require Import PolicyBundleSpec.
From S2P Require Import PolicyCache.
From S2P Require Import PolicyCacheSpec.
From S2P Require Import PolicyStore.
From S2P Require Import PolicyStoreLemmas.
From S2P Require Import PolicyStoreInv.

Open Scope fornax_scope.

(** A generation's members depend only on their own rows. *)
Lemma resolve_members_ext raws : ∀ m m' : gmap (Uuid * string) BundleRow,
  (∀ p key, (p, key) ∈ raws → m !! key = m' !! key) →
  resolve_members m raws = resolve_members m' raws.
Proof.
  induction raws as [|[p key] raws IH]; intros m m' Hext; [done|]; simpl.
  rewrite <-(Hext p key) by by left.
  assert (∀ p' key', (p', key') ∈ raws → m !! key' = m' !! key') as Hext'.
  { intros p' key' Hin. apply (Hext p'). by right. }
  destruct (m !! key); f_equal; apply IH; [|done].
  intros p' key' Hin. destruct (decide (key' = key)) as [->|Hne].
  - by rewrite !lookup_delete_eq.
  - rewrite !lookup_delete_ne by done. by eapply Hext'.
Qed.

Lemma Forall2_impl_elem {A B} (P Q : A → B → Prop) l k :
  Forall2 P l k → (∀ x y, x ∈ l → P x y → Q x y) → Forall2 Q l k.
Proof.
  induction 1 as [|x y l k Hxy _ IH]; intros Hq; constructor.
  - apply Hq; [by left|done].
  - apply IH. intros x' y' Hin. apply Hq. by right.
Qed.

Section serve.
Context `{Chrono, ChronoFromStr, PolicyWire, PolicyDigest}.
Implicit Types (db : Db) (t : TrustedVerificationKeys) (now : Z) (sql : Sqlite).

(** What an envelope holds does not depend on the keys or the clock it is
    verified with. *)
Lemma verify_bundle_payload envelope_bytes t t' now now' v v' :
  verify_bundle envelope_bytes t now = Ok v → verify_bundle envelope_bytes t' now' = Ok v' →
  vb_payload v = vb_payload v' ∧ vb_payload_digest v = vb_payload_digest v'.
Proof.
  intros (e1 & b1 & s1 & He1 & Hb1 & Hp1 & Hd1 & _)%verify_bundle_certified%cert_payload
    (e2 & b2 & s2 & He2 & Hb2 & Hp2 & Hd2 & _)%verify_bundle_certified%cert_payload.
  rewrite He1 in He2. injection He2 as ->. rewrite Hb1 in Hb2. injection Hb2 as ->.
  rewrite Hp1 in Hp2. injection Hp2 as ->. split; congruence.
Qed.

(** ** Totality and atomicity *)

Lemma persist_activation_total db st envelope_bytes t now candidate ms replaced :
  store_inv db → load_state_from_conn db = Ok st → own_identifier db candidate →
  evaluate_activation candidate st now = Ok (Activate ms replaced) →
  ∃ g db', persist_activation db envelope_bytes candidate ms now = Some (Ok (g, db')).
Proof.
  intros Hinv Hst Hown He.
  destruct (activated_members db st candidate now ms replaced)
    as (new & _ & _ & _ & Hnd & j & Hfind); [done..|].
  unfold persist_activation. rewrite Hfind.
  destruct (insert_members_total (max_generation db + 1) ms (t_members db)) as [rows ->];
    [|done|by eexists _, _].
  intros p. left. destruct (t_members db !! _) as [key|] eqn:Ek; [|done].
  apply (inv_members _ Hinv) in Ek as [Hg _]. apply max_generation_bound in Hg. lia.
Qed.

Lemma submit_total sql db envelope_bytes t now :
  store_inv db →
  (∀ v, verify_bundle envelope_bytes t now = Ok v → own_identifier db v) →
  ∃ r db', submit_policy_bundle sql db envelope_bytes t now = Some (r, db') ∧
    (sql ≠ StatementFails → ∃ o, r = Ok o) ∧ (bundle_refused r → db' = db).
Proof.
  intros Hinv Hown.
  assert (∃ r db', submit_policy_bundle sql db envelope_bytes t now = Some (r, db') ∧
    (sql ≠ StatementFails → ∃ o, r = Ok o)) as (r & db' & Hs & Hr).
  { destruct (load_state_total db Hinv) as [st Hst].
    unfold submit_policy_bundle, current_active_generation. rewrite Hst.
    destruct (verify_bundle envelope_bytes t now) as [v|] eqn:Ev;
      [|do 2 eexists; (split; [done|]); intros Hne; by eauto].
    destruct (evaluate_activation v st now) as [[ms rep|]|] eqn:He.
    - destruct (persist_activation_total db st envelope_bytes t now v ms rep)
        as (g & db' & ->); [by auto..|].
      destruct sql; do 2 eexists; (split; [done|]); intros Hne; by eauto.
    - destruct sql; do 2 eexists; (split; [done|]); intros Hne; by eauto.
    - destruct sql; do 2 eexists; (split; [done|]); intros Hne; by eauto. }
  exists r, db'. split_and!; [done..|].
  by apply submit_effect in Hs as [].
Qed.

(** Every operation answers and is atomic. In any tables reached from an
    empty store by operations on bundles with identifiers of their own, a
    submission never panics, fails only if a statement of SQLite does, and
    leaves the tables untouched unless it reports an activation or a
    confirmation; the same holds of a revocation list, and a reload always
    succeeds. *)
Theorem operations_total_and_atomic db sql envelope_bytes t now :
  rtc own_step empty_db db →
  (∀ v, verify_bundle envelope_bytes t now = Ok v → own_identifier db v) →
  (∃ r db', submit_policy_bundle sql db envelope_bytes t now = Some (r, db') ∧
    (sql ≠ StatementFails → ∃ o, r = Ok o) ∧ (bundle_refused r → db' = db)) ∧
  (∃ r db', submit_policy_revocation sql db envelope_bytes t now = (r, db') ∧
    (sql = Commits → ∃ o, r = Ok o) ∧ (list_refused r → db' = db)) ∧
  (∀ trusted, ∃ l, load_policy_cache db trusted now = Ok l).
Proof.
  intros Hinv%own_steps_inv Hown. split_and!.
  - by apply submit_total.
  - destruct (submit_policy_revocation sql db envelope_bytes t now) as [r db'] eqn:Es.
    exists r, db'. split_and!; [done| |by apply revocation_submit_effect in Es as []].
    intros ->. revert Es. unfold submit_policy_revocation.
    destruct (load_state_total db Hinv) as [st ->].
    destruct (verify_revocation_list envelope_bytes t now) as [v|]; [|intros [= <- <-]; eauto].
    destruct (evaluate_revocation_ingest v st) as [[]|]; intros [= <- <-]; eauto.
  - intros trusted. unfold load_policy_cache. destruct (load_state_total db Hinv) as [st ->].
    destruct trusted as [t'|]; [|by eexists].
    destruct (try_slot _ _ _ _ (active st)) as [[u|] d]; [by eexists|].
    destruct (try_slot _ _ _ _ (last_known_good st)) as [[u|] d']; by eexists.
Qed.
(** ** Activation takes effect *)

(** A generation other than the new one is read as before. *)
Lemma load_generation_frame db envelope_bytes candidate ms now g db' g0 :
  store_inv db →
  persist_activation db envelope_bytes candidate ms now = Some (Ok (g, db')) →
  is_Some (t_generations db !! g0) → load_generation db' g0 = load_generation db g0.
Proof.
  intros Hinv Hp Hg0. pose proof (max_generation_bound db g0 Hg0) as Hle.
  apply persist_activation_tables in Hp as (i & new & rows & _ & -> & Hrows & ->).
  unfold load_generation; simpl. rewrite lookup_insert_ne by lia.
  destruct (t_generations db !! g0) as [w|]; [|done]. do 2 f_equal.
  assert (raw_members (mkDb _ _ rows _ _ _ _ _) g0 = raw_members db g0) as ->.
  { apply (sorted_by_key_unique fst).
    - apply raw_members_sorted.
    - apply NoDup_Permutation; [apply (NoDup_fmap_1 fst), raw_members_sorted..|].
      intros [p key]. rewrite !elem_of_raw_members; simpl.
      rewrite (insert_members_lookup _ _ _ _ Hrows). split; [|by left].
      intros [?|(m & _ & Hk & _)]; [done|]. simplify_eq. lia.
    - apply raw_members_sorted.
    - apply raw_members_sorted. }
  apply resolve_members_ext. intros p key Hin%elem_of_raw_members.
  destruct (inv_members _ Hinv _ _ _ Hin) as (_ & row & Hrow & _).
  rewrite Hrow. by apply insert_or_ignore_keeps.
Qed.

(** The new generation's rows are the decision's members. *)
Lemma raw_members_new db envelope_bytes candidate ms now g db' :
  store_inv db → StronglySorted (key_le c_policy_id) ms → NoDup (c_policy_id <$> ms) →
  persist_activation db envelope_bytes candidate ms now = Some (Ok (g, db')) →
  raw_members db' g = member_key <$> ms.
Proof.
  intros Hinv Hsort Hnd Hp.
  apply persist_activation_tables in Hp as (i & new & rows & _ & -> & Hrows & ->).
  assert ((member_key <$> ms).*1 = c_policy_id <$> ms) as Hfst
    by by rewrite <-list_fmap_compose.
  apply (sorted_by_key_unique fst).
  - apply raw_members_sorted.
  - apply NoDup_Permutation; [apply (NoDup_fmap_1 fst), raw_members_sorted| |].
    { apply (NoDup_fmap_1 fst). by rewrite Hfst. }
    intros [p key]. rewrite elem_of_raw_members; simpl.
    rewrite (insert_members_lookup _ _ _ _ Hrows), list_elem_of_fmap. unfold member_key. split.
    + intros [Hk|(m & Hm & Hk & ->)]; [|simplify_eq; by exists m].
      apply (inv_members _ Hinv) in Hk as [Hg _]. apply max_generation_bound in Hg. lia.
    + intros (m & Hk & Hm). simplify_eq. right. by exists m.
  - apply raw_members_sorted.
  - clear -Hsort. induction Hsort as [|m ms Hs IH Hall]; simpl; constructor; [done|].
    apply Forall_fmap. eapply Forall_impl; [exact Hall|]. done.
Qed.

Lemma activation_effect db envelope_bytes t now candidate st ms replaced g db' :
  store_inv db → own_identifier db candidate → load_state_from_conn db = Ok st →
  verify_bundle envelope_bytes t now = Ok candidate →
  evaluate_activation candidate st now = Ok (Activate ms replaced) →
  persist_activation db envelope_bytes candidate ms now = Some (Ok (g, db')) →
  ∃ st' gen, load_state_from_conn db' = Ok st' ∧ active st' = Some gen ∧
    load_generation db' g = Ok gen ∧ member_key <$> members gen = member_key <$> ms ∧
    last_known_good st' = active st ∧ ever_configured st' = true ∧
    revocations st' = revocations st.
Proof.
  intros Hinv Hown Hst Hv He Hp.
  destruct (activated_members db st candidate now ms replaced)
    as (new & _ & _ & Hsort & Hnd & _); [done..|].
  assert (store_inv db') as Hinv' by by eapply persist_activation_inv.
  destruct (load_state_total db' Hinv') as [st' Hst'].
  pose proof (load_state_slots _ _ Hst') as (Ha & Hl & Hc).
  pose proof (load_state_slots _ _ Hst) as (Ha0 & _ & _).
  pose proof (raw_members_new _ _ _ _ _ _ _ Hinv Hsort Hnd Hp) as Hraw.
  pose proof (λ g0, load_generation_frame _ _ _ _ _ _ _ g0 Hinv Hp) as Hframe.
  assert (t_slots db' = Some (mkSlotsRow POLICY_CACHE_SCHEMA_VERSION (Some g) None
    (t_slots db ≫= sl_active) true now)) as Hslots.
  { by apply persist_activation_tables in Hp as (? & ? & ? & _ & _ & _ & ->). }
  assert (load_revocations db' = load_revocations db) as Hrev.
  { by apply persist_activation_tables in Hp as (? & ? & ? & _ & _ & _ & ->). }
  rewrite Hslots in Ha, Hl, Hc; simpl in Ha, Hl, Hc.
  destruct (load_generation db' g) as [gen|] eqn:Eg; [|done]. injection Ha as Ha.
  exists st', gen. split_and!; try done.
  - apply load_generation_members in Eg as (_ & -> & _); [|done]. done.
  - destruct (t_slots db ≫= sl_active) as [g0|] eqn:Es; simpl in Hl, Ha0; [|congruence].
    rewrite Hframe in Hl; [congruence|].
    destruct (t_slots db) as [s|] eqn:Es'; [|done]. eapply inv_slots; eauto.
  - by rewrite (load_state_revocations _ _ Hst), (load_state_revocations _ _ Hst').
Qed.

(** A reported activation took effect as decided: the reloaded state's
    active generation is the new one, numbered above every earlier one, with
    exactly the members of the decision in their order; what was active is
    now last-known-good, read as before; and nothing was revoked or
    unrevoked. *)
Theorem activation_takes_effect db sql envelope_bytes t now st g superseded replaced db' :
  rtc own_step empty_db db →
  (∀ v, verify_bundle envelope_bytes t now = Ok v → own_identifier db v) →
  load_state_from_conn db = Ok st →
  submit_policy_bundle sql db envelope_bytes t now =
    Some (Ok (Activated g superseded replaced), db') →
  superseded = generation <$> active st ∧
  (∀ g0, is_Some (t_generations db !! g0) → (g0 < g)%N) ∧
  ∃ v ms st' gen,
    verify_bundle envelope_bytes t now = Ok v ∧
    evaluate_activation v st now = Ok (Activate ms replaced) ∧
    load_state_from_conn db' = Ok st' ∧ active st' = Some gen ∧ generation gen = g ∧
    member_key <$> members gen = member_key <$> ms ∧
    last_known_good st' = active st ∧ ever_configured st' = true ∧
    revocations st' = revocations st.
Proof.
  intros Hinv%own_steps_inv Hown Hst Hs. apply submit_effect in Hs.
  remember (Ok (Activated g superseded replaced)) as r eqn:Er.
  destruct Hs as [r Href|v st0 ms rep g' db' Hv Hst0 He Hp|v st0 p b d Hv Hst0 He];
    simplify_eq/=; [done|].
  assert (st0 = st) as -> by congruence. split; [done|]. split.
  { intros g0 Hg0%max_generation_bound.
    apply persist_activation_tables in Hp as (? & ? & ? & _ & -> & _). lia. }
  destruct (activation_effect db envelope_bytes t now v st ms replaced g db')
    as (st' & gen & ? & ? & Hg & ? & ? & ? & ?); [by auto..|].
  exists v, ms, st', gen. split_and!; try done.
  unfold load_generation in Hg. by destruct (t_generations db' !! g); simplify_eq.
Qed.

(** ** Reloading *)

(** [bs] is what member [m] contributes: the bound revisions of the envelope
    stored under its bundle id and payload digest, which [t] verifies at [now],
    or, when the bundle has expired since, at the instant it expired; and none
    of the digests recorded for the member is revoked. *)
Definition stored_envelope_serves db t now (m : CachedBundleRef) (bs : list BoundRevision)
    (v : VerifiedPolicyBundle) : Prop :=
  ∃ row now',
    t_bundles db !! (c_bundle_id m, c_payload_digest m) = Some row ∧
    verify_bundle (br_envelope row) t now' = Ok v ∧
    (now' = now ∨
     (now' < now)%Z ∧ parse_from_rfc3339 (bp_expires_at (vb_payload v)) = Some now' ∧
     ∃ e, verify_bundle (br_envelope row) t now = Err (BundleExpired e now)) ∧
    into_bound_revisions v = Ok bs ∧
    ¬ revoked db (c_revision_digest m) (c_payload_digest m).

(** The same, of an envelope that is the member's own, so that the digests
    that are not revoked are those of what is served. *)
Definition served_member db t now (m : CachedBundleRef) (bs : list BoundRevision) : Prop :=
  ∃ v, stored_envelope_serves db t now m bs v ∧
    bundle_id (vb_payload v) = c_bundle_id m ∧ candidate_policy v = c_policy_id m ∧
    ¬ revoked db (rev_digest (vb_revision v)) (vb_payload_digest v).

Lemma member_usable_serves db t now m bs :
  member_usable db t (load_revocations db) now m = Ok bs →
  ∃ v, stored_envelope_serves db t now m bs v.
Proof.
  unfold member_usable.
  destruct (hit _ _ _) eqn:Eh; [done|]. apply hit_not_revoked in Eh.
  destruct (t_bundles db !! _) as [row|] eqn:Hrow; [|done].
  unfold bound_or_unverifiable.
  destruct (verify_bundle (br_envelope row) t now) as [v|e] eqn:Ev.
  - destruct (into_bound_revisions v) as [bs'|] eqn:Eb; [|done]. intros [= ->].
    exists v, row, now. split_and!; by auto.
  - destruct e; try done.
    pose proof (verify_bundle_expired _ _ _ _ _ Ev) as
      (-> & te & env & bytes & s & p & Hte & Hlt & Henv & Hbytes & Hp & Hexp & _).
    rewrite Hte.
    destruct (verify_bundle (br_envelope row) t te) as [v|] eqn:Ev'; [|done].
    destruct (into_bound_revisions v) as [bs'|] eqn:Eb; [|done]. intros [= ->].
    exists v, row, te. split_and!; try done.
    right. split_and!; [done| |by eexists].
    apply verify_bundle_certified, cert_payload in Ev'
      as (env' & bytes' & s' & Henv' & Hbytes' & Hp' & _).
    rewrite Henv in Henv'. injection Henv' as <-. rewrite Hbytes in Hbytes'.
    injection Hbytes' as <-. rewrite Hp in Hp'. injection Hp' as <-. by rewrite Hexp.
Qed.

Lemma member_usable_served db g gen t now m bs :
  store_inv db → load_generation db g = Ok gen → m ∈ members gen →
  member_usable db t (load_revocations db) now m = Ok bs → served_member db t now m bs.
Proof.
  intros Hinv Hgen Hm (v & Hserves)%member_usable_serves. exists v. split; [done|].
  apply load_generation_members in Hgen as (_ & _ & Hms); [|done].
  destruct (Hms m Hm) as (row & _ & Hrow & Hpol & Heq).
  destruct Hserves as (row' & now' & Hrow' & Hv & _ & _ & Hnot).
  rewrite Hrow in Hrow'. injection Hrow' as <-.
  destruct (inv_rows _ Hinv _ _ Hrow) as (t0 & now0 & v0 & Hv0 & Hb0 & Hd0 & Hp0 & _ & Hr0 & _).
  simpl in Hb0, Hd0. destruct (verify_bundle_payload _ _ _ _ _ _ _ Hv Hv0) as [Hp Hd].
  unfold candidate_policy, vb_revision in *. rewrite Hp, Hd, Hd0, <-Hr0, <-Hp0.
  split_and!; [done|done|]. rewrite Heq in Hnot. exact Hnot.
Qed.

(** The slot a reload took its answer from. *)
Definition slot_generation (st : PolicyCacheState) (k : CacheSlotKind) : option CacheGeneration :=
  match k with
  | SlotActive => active st
  | SlotPending => pending_generation st
  | SlotLastKnownGood => last_known_good st
  end.

Lemma try_slot_taken db t now o gen u d :
  load_slot db o = Ok (Some gen) →
  try_slot db t (load_revocations db) now (Some gen) = (Some u, d) →
  ∃ g bounds, load_generation db g = Ok gen ∧
    Forall2 (λ m bs, member_usable db t (load_revocations db) now m = Ok bs) (members gen) bounds ∧
    u = concat bounds.
Proof.
  intros (g & _ & Hg)%load_slot_Some. unfold try_slot, try_generation_usable.
  destruct (collect_results _) as [bounds|] eqn:Ec; [|done]. intros [= <- <-].
  exists g, bounds. split_and!; [done| |done]. by apply collect_results_Ok in Ec.
Qed.

Lemma load_taken db t now l :
  load_policy_cache db (Some t) now = Ok l →
  match loaded_slot l with
  | Some k => ∃ gen g bounds, slot_generation (pl_state l) k = Some gen ∧
      load_generation db g = Ok gen ∧
      Forall2 (λ m bs, member_usable db t (load_revocations db) now m = Ok bs)
        (members gen) bounds ∧ usable l = concat bounds
  | None => usable l = []
  end.
Proof.
  unfold load_policy_cache.
  destruct (load_state_from_conn db) as [st|] eqn:Est; [|done].
  rewrite (load_state_revocations _ _ Est).
  apply load_state_slots in Est as (Ha & Hl & _).
  destruct (active st) as [gen|] eqn:Ea.
  - destruct (try_slot _ _ _ _ (Some gen)) as [[u|] d] eqn:Et.
    + intros [= <-]; simpl. exists gen.
      destruct (try_slot_taken _ _ _ _ _ _ _ Ha Et) as (g & bounds & ? & ? & ->). by exists g, bounds.
    + destruct (last_known_good st) as [gen'|] eqn:El; [|by intros [= <-]].
      destruct (try_slot _ _ _ _ (Some gen')) as [[u|] d'] eqn:Et'; [|by intros [= <-]].
      intros [= <-]; simpl. exists gen'.
      destruct (try_slot_taken _ _ _ _ _ _ _ Hl Et') as (g & bounds & ? & ? & ->). by exists g, bounds.
  - simpl. destruct (last_known_good st) as [gen'|] eqn:El; [|by intros [= <-]].
    destruct (try_slot _ _ _ _ (Some gen')) as [[u|] d'] eqn:Et'; [|by intros [= <-]].
    intros [= <-]; simpl. exists gen'.
    destruct (try_slot_taken _ _ _ _ _ _ _ Hl Et') as (g & bounds & ? & ? & ->). by exists g, bounds.
Qed.

(** C31. A reload serves whole generations of re-verified bundles: on any
    tables, what it returns is the concatenation of what every member of the
    slot it names contributes, each member's stored envelope re-verified
    against the trust store now, or, if it has expired since, at its signed
    expiry, with neither of the two digests recorded for the member revoked; if
    no slot is named, nothing is served. If the tables were reached by
    operations in which no bundle reused the identifier of a bundle of another
    policy, each envelope moreover belongs to the member's own policy, and
    neither the revision digest nor the payload digest of what is served is
    revoked. *)
Theorem reload_serves_only_authorized db t now l :
  load_policy_cache db (Some t) now = Ok l →
  match loaded_slot l with
  | Some k => ∃ gen bounds, slot_generation (pl_state l) k = Some gen ∧
      Forall2 (λ m bs, ∃ v, stored_envelope_serves db t now m bs v) (members gen) bounds ∧
      usable l = concat bounds ∧
      (rtc own_step empty_db db → Forall2 (served_member db t now) (members gen) bounds)
  | None => usable l = []
  end.
Proof.
  intros Hl%load_taken. destruct (loaded_slot l) as [k|]; [|done].
  destruct Hl as (gen & g & bounds & Hk & Hg & Hms & ->). exists gen, bounds. split_and!; [done| |done|].
  - eapply Forall2_impl; [exact Hms|]. intros m bs. apply member_usable_serves.
  - intros Hinv%own_steps_inv. eapply Forall2_impl_elem; [exact Hms|].
    intros m bs Hm. by eapply member_usable_served.
Qed.

(** ** From submission to service *)

Lemma member_usable_new db envelope_bytes t now v ms replaced st g db' m :
  store_inv db → own_identifier db v → load_state_from_conn db = Ok st →
  verify_bundle envelope_bytes t now = Ok v →
  t_bundles db !! (bundle_id (vb_payload v), vb_payload_digest v) = None →
  evaluate_activation v st now = Ok (Activate ms replaced) →
  persist_activation db envelope_bytes v ms now = Some (Ok (g, db')) →
  c_bundle_id m = bundle_id (vb_payload v) → c_payload_digest m = vb_payload_digest v →
  c_revision_digest m = rev_digest (vb_revision v) →
  ∃ bs, into_bound_revisions v = Ok bs ∧
    member_usable db' t (load_revocations db') now m = Ok bs.
Proof.
  intros Hinv Hown Hst Hv Hfresh He Hp Hb Hd Hr.
  pose proof (evaluate_activation_certified v st now) as Hdec. rewrite He in Hdec.
  destruct Hdec as (Hunrev & _ & _ & (bs & Hbs) & _).
  destruct (activated_members db st v now ms replaced)
    as (new & Hnew & _ & _ & _ & j & Hfind); [done..|].
  apply persist_activation_tables in Hp as (i & new' & rows & Hf & -> & Hrows & ->).
  rewrite Hfind in Hf. simplify_eq. exists bs. split; [done|].
  unfold member_usable. rewrite Hb, Hd, Hr.
  rewrite (load_state_revocations _ _ Hst) in Hunrev.
  change (load_revocations (mkDb _ _ _ _ _ _ _ _)) with (load_revocations db).
  rewrite Hunrev; simpl.
  rewrite insert_or_ignore_lookup, Hfresh, (mo_bundle_id _ _ _ Hnew),
    (mo_payload_digest _ _ _ Hnew), decide_True by done; simpl.
  rewrite Hv. unfold bound_or_unverifiable. by rewrite Hbs.
Qed.

Lemma member_usable_kept db envelope_bytes t now v ms g db' m row u :
  t_bundles db !! (c_bundle_id m, c_payload_digest m) = Some row →
  persist_activation db envelope_bytes v ms now = Some (Ok (g, db')) →
  member_usable db t (load_revocations db) now m = Ok u →
  member_usable db' t (load_revocations db') now m = Ok u.
Proof.
  intros Hrow Hp. apply persist_activation_tables in Hp as (i & new' & rows & _ & -> & _ & ->).
  unfold member_usable.
  change (load_revocations (mkDb _ _ _ _ _ _ _ _)) with (load_revocations db).
  destruct (hit _ _ _); [done|]. rewrite Hrow. simpl.
  by rewrite (insert_or_ignore_keeps _ _ _ _ _ Hrow).
Qed.

(** Every member of the new generation is usable, the candidate's with the
    candidate's bound revisions. *)
Lemma new_generation_usable db envelope_bytes t now v st ms replaced g db' gen m :
  store_inv db → own_identifier db v → load_state_from_conn db = Ok st →
  verify_bundle envelope_bytes t now = Ok v →
  t_bundles db !! (bundle_id (vb_payload v), vb_payload_digest v) = None →
  (∀ gen0, active st = Some gen0 →
    ∃ u, try_generation_usable db t (load_revocations db) now gen0 = Ok u) →
  evaluate_activation v st now = Ok (Activate ms replaced) →
  persist_activation db envelope_bytes v ms now = Some (Ok (g, db')) →
  load_generation db' g = Ok gen → member_key <$> members gen = member_key <$> ms →
  m ∈ members gen →
  ∃ bs, member_usable db' t (load_revocations db') now m = Ok bs ∧
    (c_policy_id m = candidate_policy v → into_bound_revisions v = Ok bs).
Proof.
  intros Hinv Hown Hst Hv Hfresh Husable He Hp Hg Hkeys Hm.
  assert (store_inv db') as Hinv' by by eapply persist_activation_inv.
  destruct (activated_members db st v now ms replaced)
    as (new & Hnew & Hms & _ & _ & j & Hfind); [done..|].
  apply load_generation_members in Hg as (_ & _ & Hrows); [|done].
  destruct (Hrows m Hm) as (row & _ & Hrow & Hpol & Hmeq).
  assert (member_key m ∈ member_key <$> ms) as (m0 & Hk & Hm0)%list_elem_of_fmap.
  { rewrite <-Hkeys. apply list_elem_of_fmap. by exists m. }
  unfold member_key in Hk. injection Hk as Hk1 Hk2 Hk3.
  pose proof Hp as Htables.
  apply persist_activation_tables in Htables as (i & new' & rows & Hf & _ & _ & Hdb').
  rewrite Hfind in Hf. injection Hf as _ <-. rewrite Hms in Hm0.
  apply elem_of_app in Hm0 as [(Hne & Hm0)%list_elem_of_filter| ->%list_elem_of_singleton].
  - destruct (active_member_row db st m0 Hinv Hst Hm0) as (row0 & Hrow0 & _ & Hm0eq).
    assert (row = row0) as ->.
    { rewrite Hdb' in Hrow; simpl in Hrow. rewrite Hk2, Hk3 in Hrow.
      rewrite (insert_or_ignore_keeps _ _ _ _ _ Hrow0) in Hrow. by injection Hrow. }
    assert (m = m0) as -> by (rewrite Hmeq, Hm0eq, Hk2, Hk3; done).
    unfold active_members in Hm0.
    destruct (active st) as [gen0|] eqn:Ea; simpl in Hm0; [|by apply elem_of_nil in Hm0].
    destruct (Husable gen0) as [u Hu]; [done|]. unfold try_generation_usable in Hu.
    destruct (collect_results _) as [bounds|] eqn:Ec; [|done].
    apply collect_results_Ok in Ec. destruct (Forall2_elem_of_l _ _ _ _ Ec Hm0) as (bs & _ & Hbs).
    exists bs. split; [by eapply member_usable_kept|done].
  - rewrite Hdb' in Hrow; simpl in Hrow. rewrite Hk2, Hk3, insert_or_ignore_lookup in Hrow.
    rewrite (mo_bundle_id _ _ _ Hnew) in Hk2, Hrow.
    rewrite (mo_payload_digest _ _ _ Hnew) in Hk3, Hrow.
    rewrite Hfresh, decide_True in Hrow by done. injection Hrow as <-.
    destruct (member_usable_new db envelope_bytes t now v ms replaced st g db' m)
      as (bs & Hbs & Hmu); try done; [|by exists bs].
    rewrite Hmeq. simpl. apply (mo_revision_digest _ _ _ Hnew).
Qed.

(** A bundle that was just activated is served. If the generation it
    joins was usable and its bytes are new to the store, then after its
    activation a reload with the same trust store answers from the active
    slot, and every bound revision of the bundle is among those it serves. *)
Theorem activated_bundle_is_served db sql envelope_bytes t now v st g superseded replaced db' :
  rtc own_step empty_db db →
  verify_bundle envelope_bytes t now = Ok v → own_identifier db v →
  t_bundles db !! (bundle_id (vb_payload v), vb_payload_digest v) = None →
  load_state_from_conn db = Ok st →
  (∀ gen, active st = Some gen →
    ∃ u, try_generation_usable db t (load_revocations db) now gen = Ok u) →
  submit_policy_bundle sql db envelope_bytes t now =
    Some (Ok (Activated g superseded replaced), db') →
  ∃ l bs, load_policy_cache db' (Some t) now = Ok l ∧ loaded_slot l = Some SlotActive ∧
    into_bound_revisions v = Ok bs ∧ bs ⊆ usable l.
Proof.
  intros Hinv%own_steps_inv Hv Hown Hfresh Hst Husable Hs. apply submit_effect in Hs.
  remember (Ok (Activated g superseded replaced)) as r eqn:Er.
  destruct Hs as [r Href|v0 st0 ms rep g' db' Hv0 Hst0 He Hp|v0 st0 p b d Hv0 Hst0 He];
    simplify_eq/=; [done|].
  assert (st0 = st) as -> by congruence. assert (v0 = v) as -> by congruence.
  destruct (activation_effect db envelope_bytes t now v st ms replaced g db')
    as (st' & gen & Hst' & Ha & Hg & Hkeys & _ & _ & _); [done..|].
  assert (store_inv db') as Hinv' by by eapply persist_activation_inv.
  assert (∀ m, m ∈ members gen → ∃ bs, member_usable db' t (load_revocations db') now m = Ok bs ∧
    (c_policy_id m = candidate_policy v → into_bound_revisions v = Ok bs)) as Hall.
  { intros m Hm. by eapply (new_generation_usable db). }
  destruct (collect_results_total (member_usable db' t (load_revocations db') now) (members gen))
    as [bounds Hb].
  { intros m Hm. destruct (Hall m Hm) as (bs & ? & _). by exists bs. }
  destruct (activated_members db st v now ms replaced)
    as (new & Hnew & Hms & _ & _ & _); [done..|].
  assert (member_key new ∈ member_key <$> members gen) as (m & Hk & Hm)%list_elem_of_fmap.
  { rewrite Hkeys. apply list_elem_of_fmap. exists new. split; [done|].
    rewrite Hms. apply elem_of_app. right. by left. }
  destruct (Hall m Hm) as (bs & Hbs & Hv').
  exists (mkPolicyCacheLoad st' (concat bounds) (Some SlotActive)
    (if decide (0 < unrecognized_entry_count (revocations st'))%N
     then [entry_not_understood_diagnostic] else [])), bs.
  split_and!.
  - unfold load_policy_cache. rewrite Hst', Ha. simpl.
    unfold try_generation_usable. rewrite (load_state_revocations _ _ Hst'), Hb.
    by rewrite app_nil_r.
  - done.
  - apply Hv'. unfold member_key in Hk. injection Hk as <- _ _. apply (mo_policy_id _ _ _ Hnew).
  - simpl. intros b Hb'. apply collect_results_Ok in Hb.
    destruct (Forall2_elem_of_l _ _ _ _ Hb Hm) as (bs' & Hin & Heq).
    assert (bs' = bs) as -> by congruence. apply list_elem_of_In, in_concat. exists bs.
    split; by apply list_elem_of_In.
Qed.
End serve.
