(* ===== verification/PolicyStoreExamples.v ===== *)
(** * The policy store on concrete inputs

    A small instance of the libraries the store relies on, a run of the store
    on it that witnesses the store's theorems, and the run that shows why the
    theorems on reloading ask for bundle identifiers of their own lineage. *)

From stdpp Require Import pretty.
From S2P Require Import Prelude.
From S2P Require Import Types.
From S2P Require Import PolicyContent.
From S2P Require Import PolicyRevision.
From S2P Require Import PolicyBundle.
From S2P Require Import PolicyBundleSpec.
From S2P Require Import PolicyCache.
From S2P Require Import PolicyCacheSpec.
From S2P Require Import PolicyStore.
From S2P Require Import PolicyStoreLemmas.
From S2P Require Import PolicyStoreSpec.
From S2P Require Import PolicyStoreInv.
From S2P Require Import PolicyStoreServe.

Open Scope fornax_scope.

(** ** The libraries, concretely *)

#[local] Instance store_chrono : Chrono := {
  parse_from_rfc3339 s :=
    if decide (s = "t0") then Some 0%Z
    else if decide (s = "t9") then Some 9000000000000%Z else None;
  num_seconds d := Z.quot d nanos_per_second;
}.
#[local] Instance store_chrono_from_str : ChronoFromStr := {
  datetime_from_str := parse_from_rfc3339;
}.
#[local] Instance store_digest : PolicyDigest := {
  digest_of body := pretty (body_policy_id body) +:+ "." +:+ pretty (body_revision body);
}.

Definition string_of_bytes (bytes : list N) : string :=
  String.string_of_list_ascii (Ascii.ascii_of_N <$> bytes).
Definition repeat_x (n : nat) : string := string_of_bytes (replicate n 120%N).
Definition sample_signature : BundleSignature :=
  mkBundleSignature "k1" Ed25519 (repeat_x 64).
Definition empty_content : PolicyContent :=
  mkPolicyContent (mkCollectionScope None) (mkEgressScope None None None)
    (mkSensorScope None None) (mkEnforcementScope None) (mkCacheScope None None).
Definition sample_body (policy revision : N) : PolicyRevisionBody :=
  mkPolicyRevisionBody 1 policy revision None "t0" "sample" empty_content ∅.
(** A bundle of policy [policy], with its sequence number and identifier. *)
Definition sample_payload (policy seq bundle : N) : BundlePayloadWire :=
  let body := sample_body policy seq in
  mkBundlePayload 1 bundle seq "t0" "t0" "t9" (mkBundleProvenance "acme" None None)
    (mkPolicyRevisionWire body (digest_of body))
    [mkPolicyBinding (100 + policy) (ScopeOrg "acme") (mkTargetSelector None None None)
       (mkPolicyRevisionRef policy seq (digest_of body))].

(** The bytes of an envelope are those of its payload. *)
#[local] Instance store_wire : PolicyWire := {
  strict_base64_decode s := Ok (string_bytes s);
  VerifyingKey := unit;
  verifying_key_from_bytes _ := Some tt;
  verify_strict _ _ _ := true;
  sha256_hex bytes := string_of_bytes ((λ b, 48 + b)%N <$> bytes);
  parse_bundle_envelope bytes :=
    Ok (mkSignedPolicyBundle 1 (string_of_bytes bytes) [sample_signature]);
  parse_bundle_payload bytes :=
    match bytes with
    | [policy; seq; bundle] =>
        if decide (seq < 200)%N then Ok (sample_payload policy seq bundle) else Err "range"
    | _ => Err "length"
    end;
  parse_revocation_envelope bytes :=
    Ok (mkSignedRevocationList 1 (string_of_bytes bytes) [sample_signature]);
  parse_revocation_payload bytes :=
    match bytes with
    | [policy; revision; seq] =>
        if decide (seq < 200)%N
        then Ok (mkRevocationPayload 1 "acme" seq "t0"
                   [mkRevocationEntry
                      (TargetRevisionDigest (digest_of (sample_body policy revision)))
                      "t0" "leaked" None None])
        else Err "range"
    | _ => Err "length"
    end;
  parse_trust_store _ := Err "unused";
  report_text _ := "report";
}.

#[local] Instance store_wire_ok : PolicyWireOk.
Proof.
  split; intros bytes p; simpl;
    repeat case_match; try done; intros [= <-]; simpl; unfold u64_max; lia.
Qed.

Definition sample_trust : TrustedVerificationKeys :=
  mkTrustedVerificationKeys 1 [mkTrustedKey "k1" Ed25519 (repeat_x 32) None None None].

(** The tables after a submission or a revocation. *)
Definition submitted (db : Db) (bytes : list N) : Db :=
  match submit_policy_bundle Commits db bytes sample_trust 5 with
  | Some (_, db') => db'
  | None => db
  end.
Definition revoked_by (db : Db) (bytes : list N) : Db :=
  (submit_policy_revocation Commits db bytes sample_trust 6).2.

Definition db1 : Db := submitted empty_db [1; 1; 11]%N.
Definition db2 : Db := submitted db1 [2; 1; 12]%N.

Definition first_bundle : VerifiedPolicyBundle :=
  match verify_bundle [1; 1; 11]%N sample_trust 5 with
  | Ok v => v
  | Err _ => mkVerifiedPolicyBundle
      (mkBundlePayload 0 0 0 "" "" "" (mkBundleProvenance "" None None)
         (mkPublishedPolicyRevision (sample_body 0 0) "") []) "" ""
  end.
Definition second_bundle : VerifiedPolicyBundle :=
  match verify_bundle [2; 1; 12]%N sample_trust 5 with Ok v => v | Err _ => first_bundle end.

Example first_bundle_verifies : verify_bundle [1; 1; 11]%N sample_trust 5 = Ok first_bundle.
Proof. by vm_compute. Qed.
Example second_bundle_verifies : verify_bundle [2; 1; 12]%N sample_trust 5 = Ok second_bundle.
Proof. by vm_compute. Qed.

(** ** Witnesses *)

Example first_submission :
  submit_policy_bundle Commits empty_db [1; 1; 11]%N sample_trust 5
  = Some (Ok (Activated 1 None None), db1).
Proof. by vm_compute. Qed.
Example second_submission :
  submit_policy_bundle Commits db1 [2; 1; 12]%N sample_trust 5
  = Some (Ok (Activated 2 (Some 1%N) None), db2).
Proof. by vm_compute. Qed.

Lemma own_identifier_by_check db bytes v :
  verify_bundle bytes sample_trust 5 = Ok v →
  forallb (λ kv, bool_decide (kv.1.1 = bundle_id (vb_payload v) →
                              br_policy_id kv.2 = candidate_policy v))
    (map_to_list (t_bundles db)) = true →
  ∀ v', verify_bundle bytes sample_trust 5 = Ok v' → own_identifier db v'.
Proof.
  intros Hv Hall v' Hv' digest row Hrow. rewrite Hv in Hv'. injection Hv' as <-.
  rewrite forallb_forall in Hall. specialize (Hall ((bundle_id (vb_payload v), digest), row)).
  apply elem_of_map_to_list, list_elem_of_In in Hrow.
  apply Hall in Hrow. apply bool_decide_eq_true in Hrow. by apply Hrow.
Qed.

Lemma own_empty v : own_identifier empty_db v.
Proof. intros digest row Hrow; simpl in Hrow. by rewrite lookup_empty in Hrow. Qed.

Lemma db1_reached : rtc own_step empty_db db1.
Proof. eapply rtc_once, own_bundle; [intros v _; apply own_empty|exact first_submission]. Qed.

Lemma second_own v : verify_bundle [2; 1; 12]%N sample_trust 5 = Ok v → own_identifier db1 v.
Proof. apply (own_identifier_by_check _ _ _ second_bundle_verifies). by vm_compute. Qed.

Lemma db2_reached : rtc own_step empty_db db2.
Proof.
  eapply rtc_r; [exact db1_reached|]. eapply own_bundle; [exact second_own|exact second_submission].
Qed.

Lemma own_steps_steps db db' : rtc own_step db db' → rtc step db db'.
Proof. induction 1 as [|? ? ? Hs _ IH]; [done|]. eapply rtc_l; [by apply own_step_step|done]. Qed.

Lemma high_water_never_lowered_witness :
  high_water_grows db1 db2 ∧ lineage_bound db2.
Proof.
  destruct (high_water_never_lowered db1 db2) as [Hg Hl].
  - eapply rtc_once, step_bundle. exact second_submission.
  - split; [exact Hg|]. apply Hl, own_steps_steps, db1_reached.
Defined.

(** The second policy's revision, revoked. *)
Definition db3 : Db := revoked_by db2 [2; 1; 1]%N.

Example revocation_submission :
  submit_policy_revocation Commits db2 [2; 1; 1]%N sample_trust 6
  = (Ok (RevApplied "acme" 1 1 None), db3).
Proof. by vm_compute. Qed.

Lemma second_bundle_revoked :
  revoked db3 (rev_digest (vb_revision second_bundle)) (vb_payload_digest second_bundle).
Proof. apply hit_revoked. vm_compute. by eexists. Qed.

Definition db4 : Db := (rollback_policy_to_last_known_good Commits db3 7).2.

Lemma revocation_is_sticky_witness :
  t_revocations db3 ⊆ t_revocations db4 ∧
  ∃ res, submit_policy_bundle Commits db4 [2; 1; 12]%N sample_trust 5 = Some (res, db4).
Proof.
  destruct (revocation_is_sticky db3 db4) as [Hsub Hrej].
  - eapply rtc_once, (step_rollback Commits db3 7 (Ok tt)). vm_compute. reflexivity.
  - split; [exact Hsub|].
    destruct (Hrej Commits _ sample_trust 5%Z second_bundle second_bundle_verifies
                second_bundle_revoked) as (res & Hres & _).
    exists res. exact Hres.
Defined.

Lemma applied_list_revokes_witness :
  ∃ v, verify_revocation_list [2; 1; 1]%N sample_trust 6 = Ok v ∧ rp_sequence (vr_payload v) = 1%N.
Proof.
  destruct (applied_list_revokes Commits db2 [2; 1; 1]%N sample_trust 6 "acme" 1 1 None db3)
    as (v & Hv & _ & Hseq & _); [exact revocation_submission|].
  exists v. split; [exact Hv|]. symmetry. exact Hseq.
Defined.

Lemma operations_total_and_atomic_witness :
  ∃ r db', submit_policy_bundle CommitFails db1 [2; 1; 12]%N sample_trust 5 = Some (r, db') ∧
    (bundle_refused r → db' = db1).
Proof.
  destruct (operations_total_and_atomic db1 CommitFails [2; 1; 12]%N sample_trust 5)
    as [(r & db' & Hs & _ & Href) _]; [exact db1_reached|exact second_own|].
  exists r, db'. split; [exact Hs|exact Href].
Defined.

Definition state1 : PolicyCacheState :=
  match load_state_from_conn db1 with
  | Ok st => st
  | Err _ => mkPolicyCacheState 0 None None None ∅ false (mkRevocationSet ∅ ∅ ∅ 0)
  end.
Example db1_loads : load_state_from_conn db1 = Ok state1.
Proof. by vm_compute. Qed.

Lemma activation_takes_effect_witness :
  ∃ st' gen, load_state_from_conn db2 = Ok st' ∧ active st' = Some gen ∧
    last_known_good st' = active state1.
Proof.
  destruct (activation_takes_effect db1 Commits [2; 1; 12]%N sample_trust 5 state1 2 (Some 1%N)
              None db2) as (_ & _ & v & ms & st' & gen & _ & _ & Hst & Ha & _ & _ & Hl & _);
    [exact db1_reached|exact second_own|exact db1_loads|exact second_submission|].
  exists st', gen. split; [exact Hst|split; [exact Ha|exact Hl]].
Defined.

Definition load2 : PolicyCacheLoad :=
  match load_policy_cache db2 (Some sample_trust) 5 with
  | Ok l => l
  | Err _ => mkPolicyCacheLoad state1 [] None []
  end.
Example db2_reloads : load_policy_cache db2 (Some sample_trust) 5 = Ok load2.
Proof. by vm_compute. Qed.

Lemma reload_serves_only_authorized_witness :
  ∃ gen bounds, slot_generation (pl_state load2) SlotActive = Some gen ∧
    Forall2 (served_member db2 sample_trust 5) (members gen) bounds ∧
    usable load2 = concat bounds.
Proof.
  assert (∃ gen bounds, slot_generation (pl_state load2) SlotActive = Some gen ∧
    Forall2 (λ m bs, ∃ v, stored_envelope_serves db2 sample_trust 5 m bs v) (members gen) bounds ∧
    usable load2 = concat bounds ∧
    (rtc own_step empty_db db2 →
       Forall2 (served_member db2 sample_trust 5) (members gen) bounds))
    as (gen & bounds & Hgen & _ & Hu & Hserved)
    by exact (reload_serves_only_authorized db2 sample_trust 5 load2 db2_reloads).
  exists gen, bounds. split; [exact Hgen|]. split; [exact (Hserved db2_reached)|exact Hu].
Defined.

Lemma activated_bundle_is_served_witness :
  ∃ l bs, load_policy_cache db2 (Some sample_trust) 5 = Ok l ∧ loaded_slot l = Some SlotActive ∧
    into_bound_revisions second_bundle = Ok bs ∧ bs ⊆ usable l.
Proof.
  apply (activated_bundle_is_served db1 Commits [2; 1; 12]%N sample_trust 5 second_bundle state1
           2 (Some 1%N) None db2).
  - exact db1_reached.
  - exact second_bundle_verifies.
  - apply second_own, second_bundle_verifies.
  - vm_compute. reflexivity.
  - exact db1_loads.
  - intros gen Hgen. vm_compute in Hgen. injection Hgen as <-. eexists. vm_compute. reflexivity.
  - exact second_submission.
Defined.

(** ** Bundle identifiers that are not their own *)

(** What a reload answers: the slot, the digests of the revisions served and
    the diagnostics. *)
Definition reload (db : Db) :
    option (option CacheSlotKind * list string * list DiagnosticCode) :=
  match load_policy_cache db (Some sample_trust) 5 with
  | Ok l => Some (loaded_slot l, rev_digest <$> (bound_revision <$> usable l),
                  pd_code <$> pl_diagnostics l)
  | Err _ => None
  end.

(** [persist_activation] finds the candidate's member by its bundle id alone.
    A bundle of policy 2 that reuses the identifier of a stored bundle of
    policy 1 is reported activated, but its envelope is not stored: the
    reload cannot verify the new generation and falls back. *)
Example shared_bundle_id_is_not_stored :
  let db := submitted db1 [2; 1; 11]%N in
  (∃ db', submit_policy_bundle Commits db1 [2; 1; 11]%N sample_trust 5
          = Some (Ok (Activated 2 (Some 1%N) None), db')) ∧
  reload db = Some (Some SlotLastKnownGood, ["1.1"], [PolicyCacheUnverifiable]).
Proof. split; [eexists|]; by vm_compute. Qed.

(** Later activations then store another bundle's envelope under the member
    left without one, and the cache serves revision 3.1 from the active slot
    after it was superseded by 3.2 and then revoked by its digest. *)
Example shared_bundle_id_serves_revoked :
  let db := foldl submitted db1 [[2; 1; 11]; [1; 2; 13]; [3; 1; 11]; [3; 2; 14]]%N in
  let db' := revoked_by db [3; 1; 1]%N in
  reload db' = Some (Some SlotActive, ["1.2"; "3.1"; "3.2"], []) ∧
  is_Some (revision_digests (load_revocations db') !! "3.1").
Proof. split; [by vm_compute|]. vm_compute. by eexists. Qed.
