(* ===== verification/Redact.v ===== *)
(** * Redaction of secrets

    [fornax-types/src/redact.rs]: the detectors, the redaction of a text line
    by line and token by token, and of a JSON value. The property is that the
    result has nothing left that the detectors themselves would report. *)

From S2P Require Import Prelude.
From S2P Require Import Types.
From S2P Require Import Text.

(** ** The detectors *)

(** [char::to_uppercase], for comparison with ASCII text: the lower-case
    ASCII letters and the other code points whose upper case has an ASCII
    letter are mapped as the standard library does; the remaining ones, whose
    upper case has no ASCII character, stay as they are. *)
Definition to_uppercase_char (c : Char) : Chars :=
  if is_ascii_lowercase c then [c - 32]%N
  else
    match c with
    | 0xDF => [83; 83]
    | 0x131 => [73]
    | 0x149 => [0x2BC; 78]
    | 0x17F => [83]
    | 0x1F0 => [74; 0x30C]
    | 0x1E96 => [72; 0x331]
    | 0x1E97 => [84; 0x308]
    | 0x1E98 => [87; 0x30A]
    | 0x1E99 => [89; 0x30A]
    | 0x1E9A => [65; 0x2BE]
    | 0xFB00 => [70; 70]
    | 0xFB01 => [70; 73]
    | 0xFB02 => [70; 76]
    | 0xFB03 => [70; 70; 73]
    | 0xFB04 => [70; 70; 76]
    | 0xFB05 | 0xFB06 => [83; 84]
    | c => [c]
    end%N.
Definition to_uppercase (cs : Chars) : Chars := cs ≫= to_uppercase_char.

Definition looks_like_github_token (s : Chars) : bool :=
  starts_with (chars "ghp_") s || starts_with (chars "gho_") s
  || starts_with (chars "ghu_") s || starts_with (chars "ghs_") s.

Definition alnum_ish (c : Char) : bool :=
  is_ascii_alphanumeric c || existsb (λ x, bool_decide (c = x)) (chars "_-./+=").

Definition looks_like_generic_high_entropy_secret (s : Chars) : bool :=
  if bool_decide (str_len s < 20 ∨ 200 < str_len s) || existsb is_whitespace s then false
  else if negb (forallb alnum_ish s) then false
  else existsb is_ascii_digit s && existsb is_ascii_alphabetic s.

Definition secret_markers : list Chars :=
  chars <$> ["TOKEN="; "API_KEY="; "APIKEY="; "SECRET="; "PASSWORD="; "PRIVATE_KEY="].

Definition looks_like_env_secret_assignment (s : Chars) : bool :=
  let upper := to_uppercase s in
  existsb (λ marker, contains marker upper) secret_markers.

(** ** [redact_text] *)

(** The token detectors: every detector but the one for assignments. *)
Definition token_detected (tok : Chars) : bool :=
  looks_like_github_token tok || looks_like_generic_high_entropy_secret tok.

Definition REDACTED_LINE : Chars := chars "[REDACTED: possible secret assignment]".
Definition REDACTED_TOKEN : Chars := chars "[REDACTED]".

Definition redact_token (tok : Chars) : Chars :=
  if token_detected tok then REDACTED_TOKEN else tok.

Definition redact_line (line : Chars) : Chars :=
  if looks_like_env_secret_assignment line then REDACTED_LINE
  else join [32%N] (redact_token <$> split_whitespace line).

Definition redact_chars (input : Chars) : Chars :=
  join [10%N] (redact_line <$> lines input).
Definition redact_text (input : string) : string := from_chars (redact_chars (chars input)).

(** ** [redact_json] *)

Fixpoint redact_json (value : Value) : Value :=
  match value with
  | JString s => JString (redact_text s)
  | JArray items => JArray (map redact_json items)
  | JObject fields => JObject (map (λ kv, (kv.1, redact_json kv.2)) fields)
  | other => other
  end.

(** ** What is left *)

(** No detector reports anything in the text: no line assigns a secret, and
    no token of it looks like one. *)
Definition clean_line (line : Chars) : Prop :=
  looks_like_env_secret_assignment line = false ∧
  ∀ tok, tok ∈ split_whitespace line → token_detected tok = false.
Definition clean_text (s : string) : Prop := ∀ line, line ∈ lines (chars s) → clean_line line.

(** The string values of a JSON value, and the value with them blanked. *)
Fixpoint string_values (v : Value) : list string :=
  match v with
  | JString s => [s]
  | JArray items => concat (map string_values items)
  | JObject fields => concat (map (λ kv, string_values kv.2) fields)
  | _ => []
  end.
Fixpoint blanked (v : Value) : Value :=
  match v with
  | JString _ => JString ""
  | JArray items => JArray (map blanked items)
  | JObject fields => JObject (map (λ kv, (kv.1, blanked kv.2)) fields)
  | other => other
  end.

(** ** Lemmas *)

(** A pattern without the separator that occurs across it occurs on one
    side. *)
Lemma contains_app_sep (p a b : Chars) (sep : Char) :
  sep ∉ p → contains p (a ++ sep :: b) = true → contains p a = true ∨ contains p b = true.
Proof.
  rewrite !contains_spec. intros Hsep (pre & post & Heq).
  apply app_eq_inv in Heq as [(k & -> & Hb)|(k & -> & Hb)].
  - apply app_eq_inv in Hb as [(l & -> & Hq)|(l & -> & Hq)].
    + destruct l as [|y l]; simplify_eq/=.
      * left. exists pre, []. by rewrite !app_nil_r.
      * destruct Hsep. apply elem_of_app. right. left.
    + left. by exists pre, l.
  - destruct k as [|x k]; simplify_eq/=; [|right; by exists k, post].
    destruct p as [|x p]; simplify_eq/=; [right; by exists [], b|]. destruct Hsep. left.
Qed.

Lemma to_uppercase_app a b : to_uppercase (a ++ b) = to_uppercase a ++ to_uppercase b.
Proof. apply bind_app. Qed.

Lemma contains_uppercase_app p a b c :
  contains p (to_uppercase b) = true → contains p (to_uppercase (a ++ b ++ c)) = true.
Proof.
  rewrite !to_uppercase_app, !contains_spec. intros (pre & post & ->).
  exists (to_uppercase a ++ pre), (post ++ to_uppercase c). by rewrite <-!app_assoc.
Qed.

Lemma assignment_elim s :
  looks_like_env_secret_assignment s = true ↔
  ∃ m, m ∈ secret_markers ∧ contains m (to_uppercase s) = true.
Proof.
  unfold looks_like_env_secret_assignment. rewrite existsb_exists.
  by setoid_rewrite list_elem_of_In.
Qed.

Lemma marker_check (f : Chars → bool) m :
  forallb f secret_markers = true → m ∈ secret_markers → f m = true.
Proof. rewrite forallb_forall. intros Hall Hm. by apply Hall, list_elem_of_In. Qed.
Lemma marker_no_space m : m ∈ secret_markers → 32%N ∉ m.
Proof.
  intros Hm. apply (bool_decide_unpack _).
  by rewrite (marker_check (λ m, bool_decide (32%N ∉ m)) m).
Qed.
Lemma marker_not_in text m :
  forallb (λ m, negb (contains m text)) secret_markers = true →
  m ∈ secret_markers → contains m text = false.
Proof. intros Hall Hm. apply negb_true_iff. by apply (marker_check (λ m, negb (contains m text))). Qed.

(** A marker in a line joined from tokens is in one of the tokens. *)
Lemma marker_in_join m ts :
  m ∈ secret_markers → contains m (to_uppercase (join [32%N] ts)) = true →
  ∃ t, t ∈ ts ∧ contains m (to_uppercase t) = true.
Proof.
  intros Hm. induction ts as [|t ts IH]; intros Hc.
  { by rewrite (marker_not_in (to_uppercase (join [32%N] [])) m) in Hc. }
  destruct ts as [|t2 ts]; [exists t; split; [left|done]|].
  change (join _ _) with (t ++ [32%N] ++ join [32%N] (t2 :: ts)) in Hc.
  rewrite !to_uppercase_app in Hc. change (to_uppercase [32%N]) with [32%N] in Hc.
  apply contains_app_sep in Hc as [Hc|Hc]; [| |by apply marker_no_space].
  - exists t. split; [left|done].
  - destruct (IH Hc) as (t' & Ht' & Hc'). exists t'. split; [by right|done].
Qed.

Lemma redact_token_token t : is_token t → is_token (redact_token t).
Proof.
  unfold redact_token. destruct (token_detected t); [intros _|done].
  split; [done|]. apply (bool_decide_unpack _). vm_compute. done.
Qed.
Lemma redact_token_clean t : token_detected (redact_token t) = false.
Proof. unfold redact_token. by destruct (token_detected t) eqn:E. Qed.

Lemma redacted_tokens line :
  Forall is_token (redact_token <$> split_whitespace line).
Proof.
  apply Forall_fmap, Forall_forall. intros t Ht. apply redact_token_token.
  by apply (split_ws_token [] line).
Qed.

Lemma redact_line_clean line : clean_line (redact_line line).
Proof.
  unfold redact_line. destruct (looks_like_env_secret_assignment line) eqn:Ea.
  { split; [vm_compute; done|]. apply Forall_forall. apply (bool_decide_unpack _).
    vm_compute. done. }
  split.
  - destruct (looks_like_env_secret_assignment (join _ _)) eqn:E; [|done].
    apply assignment_elim in E as (m & Hm & Hc).
    apply marker_in_join in Hc as (t' & (t & -> & Ht)%list_elem_of_fmap & Hc); [|done].
    rewrite <-Ea. symmetry. apply assignment_elim. exists m. split; [done|].
    unfold redact_token in Hc. destruct (token_detected t) eqn:Et.
    { by rewrite (marker_not_in (to_uppercase REDACTED_TOKEN) m) in Hc. }
    apply (split_ws_sublist [] line) in Ht as (pre & post & Heq).
    simpl in Heq. rewrite Heq. by apply contains_uppercase_app.
  - rewrite split_whitespace_join by apply redacted_tokens.
    intros t (t0 & -> & _)%list_elem_of_fmap. apply redact_token_clean.
Qed.

(** A redacted line has no line feed and does not end in a carriage
    return. *)
Lemma join_chars (sep : Chars) ts c : c ∈ join sep ts → c ∈ sep ∨ ∃ t, t ∈ ts ∧ c ∈ t.
Proof.
  induction ts as [|t ts IH]; [by intros ?%elem_of_nil|]. destruct ts as [|t2 ts].
  { intros Hc. right. exists t. split; [left|done]. }
  change (join _ _) with (t ++ sep ++ join sep (t2 :: ts)). rewrite !elem_of_app.
  intros [Hc|[Hc|Hc]]; [right; exists t; by split; [left|]|by left|].
  destruct (IH Hc) as [?|(t' & ? & ?)]; [by left|]. right. exists t'. by split; [right|].
Qed.

Lemma redact_line_chars line c :
  c ∈ redact_line line → c = 32%N ∨ is_whitespace c = false.
Proof.
  unfold redact_line. destruct (looks_like_env_secret_assignment line).
  - intros Hc. destruct (decide (c = 32%N)) as [|Hne]; [by left|right].
    assert (Forall (λ c, c = 32%N ∨ is_whitespace c = false) REDACTED_LINE) as Hall.
    { apply (bool_decide_unpack _). vm_compute. done. }
    rewrite Forall_forall in Hall. by destruct (Hall c Hc).
  - intros [->%list_elem_of_singleton|(t & Ht & Hc)]%join_chars; [by left|right].
    pose proof (redacted_tokens line) as Hall. rewrite Forall_forall in Hall.
    destruct (Hall t Ht) as [_ Hns]. rewrite Forall_forall in Hns. by apply Hns.
Qed.

Lemma redacted_lines_splittable ls :
  Forall (λ l, 10%N ∉ l ∧ last l ≠ Some 13%N) (redact_line <$> ls).
Proof.
  apply Forall_fmap, Forall_forall. intros l _. simpl. split.
  - intros [Hc|Hc]%redact_line_chars; done.
  - intros Hl%last_Some_elem_of. by apply redact_line_chars in Hl as [|].
Qed.

Lemma split_lines_chars cur cs l c : l ∈ split_lines cur cs → c ∈ l → c ∈ cur ∨ c ∈ cs.
Proof.
  revert cur. induction cs as [|c0 cs IH]; intros cur; simpl.
  - destruct cur; [by intros ?%elem_of_nil|]. intros ->%list_elem_of_singleton. by left.
  - case_decide as Heq.
    + rewrite elem_of_cons. intros [->|Hl] Hc.
      * left. unfold strip_cr in Hc. repeat case_match; try done; eapply elem_of_take in Hc as (?&?&?);
          by eapply list_elem_of_lookup_2.
      * destruct (IH [] Hl Hc) as [?%elem_of_nil|?]; [done|]. right. by right.
    + intros Hl Hc. destruct (IH _ Hl Hc) as [[? | ->%list_elem_of_singleton]%elem_of_app|?];
        [by left|right; left|right; by right].
Qed.

Lemma redact_chars_bound cs :
  Forall (λ c, c < char_max)%N cs → Forall (λ c, c < char_max)%N (redact_chars cs).
Proof.
  rewrite !Forall_forall. intros Hcs c Hc. unfold redact_chars in Hc.
  apply join_chars in Hc as [->%list_elem_of_singleton|(l' & Hl' & Hc)]; [done|].
  apply list_elem_of_fmap in Hl' as (l & -> & Hl). unfold redact_line in Hc.
  destruct (looks_like_env_secret_assignment l).
  { assert (Forall (λ c, c < char_max)%N REDACTED_LINE) as Hall.
    { apply (bool_decide_unpack _). vm_compute. done. }
    rewrite Forall_forall in Hall. by apply Hall. }
  apply join_chars in Hc as [->%list_elem_of_singleton|(t' & Ht' & Hc)]; [done|].
  apply list_elem_of_fmap in Ht' as (t & -> & Ht). unfold redact_token in Hc.
  destruct (token_detected t).
  { assert (Forall (λ c, c < char_max)%N REDACTED_TOKEN) as Hall.
    { apply (bool_decide_unpack _). vm_compute. done. }
    rewrite Forall_forall in Hall. by apply Hall. }
  apply (split_ws_sublist [] l) in Ht as (pre & post & Heq). simpl in Heq. subst l.
  apply Hcs. destruct (split_lines_chars [] cs (pre ++ t ++ post) c Hl) as [?%elem_of_nil|?];
    [|done|done]. rewrite !elem_of_app. tauto.
Qed.

Lemma redact_text_clean s : clean_text (redact_text s).
Proof.
  unfold clean_text, redact_text.
  rewrite chars_from_chars by (apply redact_chars_bound, chars_bound).
  intros l Hl. apply lines_join in Hl; [|apply redacted_lines_splittable].
  apply list_elem_of_fmap in Hl as (l0 & -> & _). apply redact_line_clean.
Qed.

(** Induction on JSON values, through the lists of their components. *)
Lemma Value_nested_ind (P : Value → Prop) :
  P JNull → (∀ b, P (JBool b)) → (∀ n, P (JInt n)) → (∀ t, P (JNumber t)) →
  (∀ s, P (JString s)) →
  (∀ items, Forall P items → P (JArray items)) →
  (∀ fields, Forall (λ kv, P kv.2) fields → P (JObject fields)) →
  ∀ v, P v.
Proof.
  intros Hnull Hbool Hint Hnum Hstr Harr Hobj. fix IH 1. intros [| | | | |items|fields];
    [apply Hnull|apply Hbool|apply Hint|apply Hnum|apply Hstr| |].
  - apply Harr. induction items as [|v items IHi]; constructor; [apply IH|apply IHi].
  - apply Hobj. induction fields as [|[k v] fields IHf]; constructor; [apply (IH v)|apply IHf].
Qed.

Lemma redact_json_strings v :
  Forall clean_text (string_values (redact_json v)).
Proof.
  induction v as [| | | |s|items IH|fields IH] using Value_nested_ind; simpl;
    try by constructor.
  - apply Forall_singleton, redact_text_clean.
  - induction IH as [|v items Hv _ IH]; simpl; [constructor|]. by apply Forall_app.
  - induction IH as [|kv fields Hv _ IH]; simpl; [constructor|]. by apply Forall_app.
Qed.

Lemma redact_json_blanked v : blanked (redact_json v) = blanked v.
Proof.
  induction v as [| | | |s|items IH|fields IH] using Value_nested_ind; simpl; try done.
  - f_equal. induction IH as [|v items Hv _ IH]; simpl; [done|]. by rewrite Hv, IH.
  - f_equal. induction IH as [|kv fields Hv _ IH]; simpl; [done|]. by rewrite Hv, IH.
Qed.

(** C34. Redaction leaves nothing its own detectors would report: in every
    string value of the redacted JSON no line assigns a secret and no token
    looks like one, and apart from the string values (keys, numbers, nesting,
    order) the JSON is unchanged. *)
Theorem redaction_is_complete (v : Value) :
  (∀ s, s ∈ string_values (redact_json v) → clean_text s) ∧
  blanked (redact_json v) = blanked v.
Proof.
  split; [|apply redact_json_blanked].
  apply Forall_forall, redact_json_strings.
Qed.

(** The detectors at work: a named assignment, a bare token, and text that is
    left alone but for its whitespace. *)
Example redact_examples :
  redact_text "JIRA_API_TOKEN=abc" = "[REDACTED: possible secret assignment]" ∧
  redact_text "use ghp_short now" = "use [REDACTED] now" ∧
  redact_text "zqT9v2Lk8pXwR4nHc7bEaMdJ1sYu" = "[REDACTED]" ∧
  redact_text "  7 failed,  1 passed" = "7 failed, 1 passed".
Proof. vm_compute. done. Qed.

(** Redaction is not idempotent: every pass drops one trailing empty line. *)
Example redaction_drops_trailing_lines :
  let lf := bytes_string [10%N] in
  redact_text ("a" +:+ lf +:+ lf) = "a" +:+ lf ∧ redact_text ("a" +:+ lf) = "a".
Proof. vm_compute. done. Qed.
