(* ===== verification/AuditEvent.v ===== *)
(** * Audit events

    [fornax-types/src/audit.rs]: the event model, the schema gate of its
    deserialization, the export classes and the references to events. *)

From S2P Require Import Prelude.
From S2P Require Import Types.
From S2P Require Import Text.

Open Scope fornax_scope.

Definition AUDIT_SCHEMA_VERSION : N := 1.
Definition SUPPORTED_AUDIT_SCHEMA_VERSIONS : list N := [1%N].

Inductive AuditActor :=
| ActorDevice (actor_id : string)
| ActorUser (actor_id : string)
| ActorServiceToken (actor_id : string)
| ActorSystem
| ActorUnrecognized.

Inductive AuditTarget :=
| TargetPolicyBundle (target_id : string)
| TargetRevocationEntry (target_id : string)
| TargetRoleAssignment (target_id : string)
| TargetPermission (target_id : string)
| TargetDevice (target_id : string)
| TargetEvidence (target_id : string)
| TargetOrganization (target_id : string)
| TargetComplianceReport (target_id : string)
| TargetGoldLabel (target_id : string)
| TargetEgressPolicy (target_id : string)
| TargetAgentEvent (target_id : string)
| TargetClaim (target_id : string)
| AuditTargetUnrecognized.

Inductive AuditAction :=
| PermissionCheck | BreakGlassActivatedAction | PolicyBundleActivated
| PolicyRevocationIngested | RoleAssignmentChanged | EvidencePurged | RecordPurged
| ComplianceReportGenerated | GoldLabelFrozen | EgressProfileChanged
| EgressConsentGranted | EgressConsentRevoked | EgressAllowlistChanged
| UploadBatchSealed | UploadBatchAcknowledged | UploadBatchPoisoned | UploadGapRecorded
| ActionUnrecognized (tag : string).

Inductive AuditOutcome :=
| Granted | Denied | GrantedViaBreakGlass | BreakGlassActivated | OutcomeRevoked | OutcomeExpired
| OutcomeUnrecognized (tag : string).

Inductive AuditExportClass :=
| Metadata | FindingSummary | SensitiveEvidenceRef | RawContent
| ExportUnrecognized (tag : string).

Definition is_exportable (c : AuditExportClass) : bool :=
  match c with Metadata | FindingSummary => true | _ => false end.

Record AuditEvent := mkAuditEvent {
  ae_schema_version : N;
  ae_event_id : string;
  occurred_at : string;
  actor : AuditActor;
  action : AuditAction;
  target : AuditTarget;
  outcome : AuditOutcome;
  export_class : AuditExportClass;
  correlation_id : option string;
  attributes : Value;
  ae_unknown : list (string * Value);
}.

Definition default_attributes : Value := JObject [].

(** [AuditEvent::new]. *)
Definition new_audit_event (event_id occurred_at : string) (actor : AuditActor)
    (action : AuditAction) (target : AuditTarget) (outcome : AuditOutcome)
    (export_class : AuditExportClass) : AuditEvent :=
  mkAuditEvent AUDIT_SCHEMA_VERSION event_id occurred_at actor action target outcome
    export_class None default_attributes [].

Inductive AuditEventRejection :=
| UnsupportedSchemaVersion (found : N) (supported : list N).

(** [validate_audit_event], which is also the check of
    [TryFrom<AuditEventWire>]: the two records have the same fields. *)
Definition validate_audit_event (event : AuditEvent) : result AuditEventRejection unit :=
  if decide (ae_schema_version event ∉ SUPPORTED_AUDIT_SCHEMA_VERSIONS)
  then Err (UnsupportedSchemaVersion (ae_schema_version event) SUPPORTED_AUDIT_SCHEMA_VERSIONS)
  else Ok tt.
Definition try_from_audit_wire (w : AuditEvent) : result AuditEventRejection AuditEvent :=
  let? u := validate_audit_event w in Ok w.

(** ** References to events *)

Record AuditRef := mkAuditRef { issuer_scope : string; ref_event_id : string }.

Inductive AuditRefParseError :=
| MissingSeparator (input : string)
| EmptyIssuerScope (input : string)
| EmptyEventId (input : string).

Definition colon : Ascii.ascii := Ascii.ascii_of_nat 58.

(** [str::split_once(':')]. *)
Fixpoint split_colon (s : string) : option (string * string) :=
  match s with
  | EmptyString => None
  | String a s' =>
      if decide (a = colon) then Some ("", s')
      else (λ p, (String a p.1, p.2)) <$> split_colon s'
  end.

(** [AuditRef::parse]. *)
Definition audit_ref_parse (input : string) : result AuditRefParseError AuditRef :=
  match split_colon input with
  | None => Err (MissingSeparator input)
  | Some (scope, event_id) =>
      if decide (scope = "") then Err (EmptyIssuerScope input)
      else if decide (event_id = "") then Err (EmptyEventId input)
      else Ok (mkAuditRef scope event_id)
  end.

(** Its [Display]. *)
Definition audit_ref_to_string (r : AuditRef) : string :=
  issuer_scope r +:+ ":" +:+ ref_event_id r.

(** ** Parsing and printing references *)

Definition no_colon (s : string) : Prop := colon ∉ String.list_ascii_of_string s.

Lemma split_colon_app scope rest :
  no_colon scope → split_colon (scope +:+ ":" +:+ rest) = Some (scope, rest).
Proof.
  unfold no_colon. induction scope as [|a scope IH]; simpl; intros Hc; [done|].
  apply not_elem_of_cons in Hc as [Ha Hc]. rewrite decide_False by done.
  simpl in IH. by rewrite IH.
Qed.

Lemma split_colon_inv s scope rest :
  split_colon s = Some (scope, rest) → no_colon scope ∧ s = scope +:+ ":" +:+ rest.
Proof.
  unfold no_colon. revert scope. induction s as [|a s IH]; intros scope; simpl; [done|].
  case_decide as Ha.
  - intros [= <- <-]. subst a. split; [apply not_elem_of_nil|done].
  - destruct (split_colon s) as [[p q]|] eqn:E; [|done]. intros [= <- <-].
    destruct (IH p) as [Hp ->]; [done|]. split; [|done]. simpl.
    by apply not_elem_of_cons.
Qed.

(** Parsing accepts exactly the printed references with a scope that is not
    empty and has no colon and an event id that is not empty. *)
Lemma audit_ref_parse_iff input r :
  audit_ref_parse input = Ok r ↔
  input = audit_ref_to_string r ∧
  issuer_scope r ≠ "" ∧ no_colon (issuer_scope r) ∧ ref_event_id r ≠ "".
Proof.
  unfold audit_ref_parse, audit_ref_to_string. split.
  - destruct (split_colon input) as [[scope ev]|] eqn:E; [|done].
    apply split_colon_inv in E as [Hc ->]. repeat case_decide; [done..|].
    by intros [= <-].
  - intros (-> & Hs & Hc & He). rewrite split_colon_app by done.
    rewrite !decide_False by done. by destruct r.
Qed.
