(* ===== verification/AuditLedger.v ===== *)
(** * The audit ledger

    [fornax-store/src/audit_ledger.rs]: the hash chain over the rows of
    [audit_events], the high-water row beside it, appending and verifying.
    The table is a map from [seq], its primary key, to the rest of the row. A
    [seq] is an [i64], a [Z] with its wrap-around written out. SHA-256, the
    serialization of an event and [chrono]'s formatting are not part of the
    repository and are parameters. *)

From S2P Require Import Prelude.
From S2P Require Import Types.
From S2P Require Import Text.
From S2P Require Import Redact.
From S2P Require Import AuditEvent.

Open Scope fornax_scope.

(** ** Parameters *)

(** [sha2]: the digest of a byte string. *)
Class Sha256 := { sha256 : list N → list N }.
(** Its documented output: 32 bytes. *)
Class Sha256Ok `{Sha256} : Prop := {
  sha256_length m : length (sha256 m) = 32;
  sha256_bytes m : Forall (λ b, b < 256)%N (sha256 m);
}.

(** [serde_json] on events and their export classes. *)
Class AuditWire := {
  event_to_json : AuditEvent → result string string;
  event_from_json : string → result string AuditEvent;
  export_class_tag : AuditExportClass → string;
}.

(** ** Tables *)

Record AuditEventRow := mkAuditEventRow {
  row_event_id : string;
  row_recorded_at : string;
  row_prev_hash : string;
  row_entry_hash : string;
  row_export_class : string;
  row_payload : string;
}.

Record LedgerDb := mkLedgerDb {
  t_audit_events : gmap Z AuditEventRow;
  (** [max_seq] and [last_entry_hash] of the single row *)
  t_ledger_high_water : option (Z * string);
}.
Definition empty_ledger : LedgerDb := mkLedgerDb ∅ None.

(** ** Hashing *)

Definition AUDIT_LEDGER_DOMAIN : list N := string_bytes "fornax-audit-ledger/v1" ++ [10%N].
Definition GENESIS_SEQ : Z := 1.

Definition genesis_prev_hash : string := "sha256:" +:+ bytes_string (replicate 64 48%N).

(** [i64::to_be_bytes], of the two's complement. *)
Fixpoint be_bytes (n : nat) (z : Z) : list N :=
  match n with
  | O => []
  | S n => be_bytes n (z / 256) ++ [Z.to_N (z mod 256)]
  end.
Definition to_be_bytes (seq : Z) : list N := be_bytes 8 (seq mod i64_modulus).

(** [{b:02x}]. *)
Definition hex_digit (d : N) : N := if decide (d < 10)%N then (48 + d)%N else (87 + d)%N.
Definition hex_byte (b : N) : list N := [hex_digit (b / 16); hex_digit (b mod 16)].

Section ledger.
Context `{Sha256, AuditWire, ChronoFmt}.

Definition entry_message (seq : Z) (prev_hash : string) (payload : string) : list N :=
  AUDIT_LEDGER_DOMAIN ++ to_be_bytes seq ++ string_bytes prev_hash ++ string_bytes payload.

Definition compute_entry_hash (seq : Z) (prev_hash payload : string) : string :=
  "sha256:" +:+ bytes_string (sha256 (entry_message seq prev_hash payload) ≫= hex_byte).

(** ** Appending *)

Record AppendedAuditEvent := mkAppendedAuditEvent { app_seq : Z; app_entry_hash : string }.

Definition append_audit_event_locked (db : LedgerDb) (event : AuditEvent) (now : Z) :
    result StoreError (AppendedAuditEvent * LedgerDb) :=
  let '(seq, prev_hash) :=
    match t_ledger_high_water db with
    | Some (max_seq, last_hash) => (wrapping_i64 (max_seq + 1), last_hash)
    | None => (GENESIS_SEQ, genesis_prev_hash)
    end in
  match event_to_json event with
  | Err e => Err (StoreJson e)
  | Ok payload_json =>
      let entry_hash := compute_entry_hash seq prev_hash payload_json in
      match t_audit_events db !! seq with
      | Some _ => Err StoreDb
      | None =>
          let row :=
            mkAuditEventRow (ae_event_id event) (to_rfc3339 now) prev_hash entry_hash
              (export_class_tag (export_class event)) payload_json in
          let high_water :=
            match t_ledger_high_water db with
            | Some (max_seq, last_hash) =>
                if decide (max_seq < seq)%Z then (seq, entry_hash) else (max_seq, last_hash)
            | None => (seq, entry_hash)
            end in
          Ok (mkAppendedAuditEvent seq entry_hash,
              mkLedgerDb (<[seq := row]> (t_audit_events db)) (Some high_water))
      end
  end.

Definition with_attributes (e : AuditEvent) (v : Value) : AuditEvent :=
  mkAuditEvent (ae_schema_version e) (ae_event_id e) (occurred_at e) (actor e) (action e)
    (target e) (outcome e) (export_class e) (correlation_id e) v (ae_unknown e).

Definition append_audit_event (sql : Sqlite) (db : LedgerDb) (event : AuditEvent) (now : Z) :
    result StoreError AppendedAuditEvent * LedgerDb :=
  let redacted := with_attributes event (redact_json (attributes event)) in
  match sql with
  | StatementFails => (Err StoreDb, db)
  | _ =>
      match append_audit_event_locked db redacted now with
      | Ok (appended, db') =>
          match sql with Commits => (Ok appended, db') | _ => (Err StoreDb, db) end
      | Err e => (Err e, db)
      end
  end.

(** ** Verifying *)

Inductive DivergenceKind := HashMismatch | MissingSeq | TruncatedTail | RelinkedPrevHash.

Inductive ChainVerification :=
| ChainValid
| ChainDiverged (first_bad_seq : Z) (kind : DivergenceKind).

(** The loop over the rows in the order of [seq]: [Err] is an early return,
    [Ok] the last seen [seq] at its end. *)
Fixpoint verify_rows (expected_seq : Z) (expected_prev_hash : string) (last_seen_seq : Z)
    (rows : list (Z * AuditEventRow)) : result (Z * DivergenceKind) Z :=
  match rows with
  | [] => Ok last_seen_seq
  | (seq, row) :: rows =>
      if decide (seq ≠ expected_seq) then Err (expected_seq, MissingSeq)
      else if decide (row_prev_hash row ≠ expected_prev_hash) then Err (seq, RelinkedPrevHash)
      else if decide (compute_entry_hash seq (row_prev_hash row) (row_payload row)
                      ≠ row_entry_hash row)
      then Err (seq, HashMismatch)
      else verify_rows (expected_seq + 1) (row_entry_hash row) seq rows
  end.

Definition verify_audit_chain (db : LedgerDb) : ChainVerification :=
  let high_water := default 0%Z (fst <$> t_ledger_high_water db) in
  match verify_rows GENESIS_SEQ genesis_prev_hash 0 (btree_iter (t_audit_events db)) with
  | Err (first_bad_seq, kind) => ChainDiverged first_bad_seq kind
  | Ok last_seen_seq =>
      if decide (last_seen_seq < high_water)%Z
      then ChainDiverged (last_seen_seq + 1) TruncatedTail
      else ChainValid
  end.

(** ** Listing *)

Record AuditLedgerEntry := mkAuditLedgerEntry {
  le_seq : Z;
  le_recorded_at : string;
  le_prev_hash : string;
  le_entry_hash : string;
  le_export_class : string;
  le_event : AuditEvent;
}.

Definition into_entry (kv : Z * AuditEventRow) : result StoreError AuditLedgerEntry :=
  let '(seq, r) := kv in
  match event_from_json (row_payload r) with
  | Err e => Err (AuditLedgerCorrupt ("audit event_id=" +:+ row_event_id r +:+ ": " +:+ e))
  | Ok event =>
      Ok (mkAuditLedgerEntry seq (row_recorded_at r) (row_prev_hash r) (row_entry_hash r)
            (row_export_class r) event)
  end.

Definition audit_events (db : LedgerDb) : result StoreError (list AuditLedgerEntry) :=
  collect_results (into_entry <$> btree_iter (t_audit_events db)).
End ledger.
