(* ===== verification/AuditLedgerSpec.v ===== *)
(** * What the audit ledger guarantees

    The theorems on [AuditLedger]: which ledgers verification accepts and
    where it locates a divergence, that every ledger built by appending
    verifies, that a deleted row stays detected whatever is appended after
    it, and that two ledgers that verify and agree on one entry hash agree on
    the whole history before it, or a SHA-256 collision is at hand. *)

From S2P Require Import Prelude.
From S2P Require Import Types.
From S2P Require Import Text.
From S2P Require Import Redact.
From S2P Require Import AuditEvent.
From S2P Require Import AuditLedger.

Local Open Scope Z_scope.

Section spec.
Context `{Sha256, AuditWire, ChronoFmt}.
Implicit Types (m : gmap Z AuditEventRow) (db : LedgerDb).

(** ** The chain *)

(** The hash a row must name as its predecessor. *)
Definition prev_of m (k : Z) : option string :=
  if decide (k = GENESIS_SEQ) then Some genesis_prev_hash
  else row_entry_hash <$> m !! (k - 1).

Definition links_back m (k : Z) (r : AuditEventRow) : Prop :=
  Some (row_prev_hash r) = prev_of m k.
Definition hashes_right (k : Z) (r : AuditEventRow) : Prop :=
  compute_entry_hash k (row_prev_hash r) (row_payload r) = row_entry_hash r.
Definition good_row m (k : Z) : Prop :=
  ∃ r, m !! k = Some r ∧ links_back m k r ∧ hashes_right k r.

(** The rows are exactly those of [1..n] and each is linked and hashed. *)
Definition chained m (n : Z) : Prop :=
  0 ≤ n ∧ (∀ k, is_Some (m !! k) ↔ 1 ≤ k ≤ n) ∧ ∀ k, 1 ≤ k ≤ n → good_row m k.

(** What is wrong at the reported position. *)
Definition bad_row m (k : Z) (kind : DivergenceKind) (high_water : Z) : Prop :=
  match kind with
  | MissingSeq =>
      (m !! k = None ∧ ∃ j, k < j ∧ is_Some (m !! j)) ∨
      (k = 1 ∧ ∃ j, j < 1 ∧ is_Some (m !! j))
  | RelinkedPrevHash => ∃ r, m !! k = Some r ∧ ¬ links_back m k r
  | HashMismatch => ∃ r, m !! k = Some r ∧ links_back m k r ∧ ¬ hashes_right k r
  | TruncatedTail => (∀ j, is_Some (m !! j) ↔ 1 ≤ j < k) ∧ k ≤ high_water
  end.

(** ** The verification pass *)

(** The part of the table the loop has still to read, at position [n]. *)
Record pass m (n : Z) (prev : string) (rows : list (Z * AuditEventRow)) : Prop := {
  pass_pos : 1 ≤ n;
  pass_rows : ∀ k r, (k, r) ∈ rows → m !! k = Some r ∧ (n ≤ k ∨ n = 1);
  pass_all : ∀ k r, m !! k = Some r → (k, r) ∈ rows ∨ 1 ≤ k < n;
  pass_sorted : StronglySorted (key_le fst) rows;
  pass_nodup : NoDup rows.*1;
  pass_good : ∀ k, 1 ≤ k < n → good_row m k;
  pass_prev : Some prev = prev_of m n;
}.

Lemma pass_start m : pass m GENESIS_SEQ genesis_prev_hash (btree_iter m).
Proof.
  unfold GENESIS_SEQ. constructor.
  - done.
  - intros k r Hk%elem_of_btree_iter. by split; [|right].
  - intros k r Hk%elem_of_btree_iter. by left.
  - apply btree_iter_sorted.
  - apply btree_iter_NoDup_fst.
  - lia.
  - done.
Qed.

Lemma pass_head_least m n prev k r rows k' r' :
  pass m n prev ((k, r) :: rows) → (k', r') ∈ rows → k < k'.
Proof.
  intros Hp Hin. pose proof (pass_sorted _ _ _ _ Hp) as Hs.
  apply StronglySorted_inv in Hs as [_ Hs]. rewrite Forall_forall in Hs.
  specialize (Hs _ Hin). pose proof (pass_nodup _ _ _ _ Hp) as Hn.
  apply NoDup_cons in Hn as [Hn _]. unfold key_le, ord_le, Z_ord in Hs. simpl in *.
  assert (k ≠ k'); [|lia]. intros ->. apply Hn. apply list_elem_of_fmap. by exists (k', r').
Qed.

Lemma pass_next m n prev r rows :
  pass m n prev ((n, r) :: rows) → row_prev_hash r = prev → hashes_right n r →
  pass m (n + 1) (row_entry_hash r) rows.
Proof.
  intros Hp Hl Hh. pose proof (pass_pos _ _ _ _ Hp).
  destruct (pass_rows _ _ _ _ Hp n r) as [Hr _]; [left|]. constructor.
  - lia.
  - intros k r' Hin. split; [|left].
    + apply (pass_rows _ _ _ _ Hp). by right.
    + pose proof (pass_head_least _ _ _ _ _ _ _ _ Hp Hin). lia.
  - intros k r' Hk. destruct (pass_all _ _ _ _ Hp k r' Hk) as [Hin|?]; [|right; lia].
    apply elem_of_cons in Hin as [[= -> ->]|Hin]; [right; lia|by left].
  - by pose proof (pass_sorted _ _ _ _ Hp) as [? _]%StronglySorted_inv.
  - by pose proof (pass_nodup _ _ _ _ Hp) as [_ ?]%NoDup_cons.
  - intros k Hk. destruct (decide (k = n)) as [->|]; [|apply (pass_good _ _ _ _ Hp); lia].
    exists r. split_and!; [done| |done]. unfold links_back. rewrite Hl.
    apply (pass_prev _ _ _ _ Hp).
  - unfold prev_of, GENESIS_SEQ. rewrite decide_False by lia.
    replace (n + 1 - 1) with n by lia. by rewrite Hr.
Qed.

(** What the loop's result says of the table. *)
Definition pass_result m (res : result (Z * DivergenceKind) Z) : Prop :=
  match res with
  | Ok n => chained m n
  | Err (k, kind) => 1 ≤ k ∧ (∀ j, 1 ≤ j < k → good_row m j) ∧ kind ≠ TruncatedTail ∧
                     bad_row m k kind 0
  end.

Lemma verify_rows_spec m rows : ∀ n prev,
  pass m n prev rows → pass_result m (verify_rows n prev (n - 1) rows).
Proof.
  induction rows as [|[k r] rows IH]; intros n prev Hp; pose proof (pass_pos _ _ _ _ Hp); simpl.
  { split; [lia|]. split; [|intros k Hk; apply (pass_good _ _ _ _ Hp); lia]. intros k. split.
    - intros [r Hr]. destruct (pass_all _ _ _ _ Hp k r Hr) as [?%elem_of_nil|?]; [done|lia].
    - intros Hk. destruct (pass_good _ _ _ _ Hp k) as (r & Hr & _); [lia|by exists r]. }
  destruct (pass_rows _ _ _ _ Hp k r) as [Hr Hkn]; [left|].
  pose proof (pass_good _ _ _ _ Hp) as Hg. pose proof (pass_prev _ _ _ _ Hp) as Hprev.
  case_decide as Hk; [split_and!; [done..|]|].
  { destruct (decide (k < n)) as [Hlt|Hge].
    - right. destruct Hkn; [lia|]. split; [done|]. exists k. split; [lia|by exists r].
    - left. split; [|exists k; split; [lia|by exists r]].
      destruct (m !! n) as [r'|] eqn:E; [|done]. exfalso.
      destruct (pass_all _ _ _ _ Hp n r' E) as [Hin|?]; [|lia].
      apply elem_of_cons in Hin as [[= -> _]|Hin]; [done|].
      pose proof (pass_head_least _ _ _ _ _ _ _ _ Hp Hin). lia. }
  subst k. case_decide as Hl.
  { split_and!; [done..|]. exists r. split; [done|]. unfold links_back. rewrite <-Hprev. congruence. }
  case_decide as Hh.
  { split_and!; [done..|]. exists r. split_and!; [done| |done]. unfold links_back. congruence. }
  specialize (IH (n + 1) (row_entry_hash r)). rewrite Z.add_simpl_r in IH. by eapply IH, pass_next.
Qed.

Definition high_water_seq db : Z := default 0 (fst <$> t_ledger_high_water db).

Lemma verify_exact db :
  match verify_audit_chain db with
  | ChainValid => ∃ n, chained (t_audit_events db) n ∧ high_water_seq db ≤ n
  | ChainDiverged k kind =>
      1 ≤ k ∧ (∀ j, 1 ≤ j < k → good_row (t_audit_events db) j) ∧
      bad_row (t_audit_events db) k kind (high_water_seq db)
  end.
Proof.
  unfold verify_audit_chain. fold (high_water_seq db).
  pose proof (verify_rows_spec _ _ _ _ (pass_start (t_audit_events db))) as Hv.
  change (GENESIS_SEQ - 1) with 0 in Hv. destruct (verify_rows _ _ _ _) as [n|[k kind]]; simpl in Hv.
  - case_decide as Hhw; [|exists n; split; [done|lia]]. destruct Hv as (Hn & Hdom & Hg).
    split_and!; [lia|intros j Hj; apply Hg; lia|]. split; [|lia].
    intros j. rewrite Hdom. lia.
  - destruct Hv as (Hk & Hg & Hne & Hb). split_and!; [done..|]. by destruct kind.
Qed.

Lemma chained_not_bad m n k kind hw :
  chained m n → hw ≤ n → 1 ≤ k → ¬ bad_row m k kind hw.
Proof.
  intros (Hn & Hdom & Hg) Hhw Hk Hb.
  assert (∀ r, m !! k = Some r → links_back m k r ∧ hashes_right k r) as Hrow.
  { intros r Hr. destruct (Hg k) as (r' & Hr' & ?); [by apply Hdom; exists r|]. by simplify_eq. }
  destruct kind; simpl in Hb.
  - destruct Hb as (r & Hr & _ & Hh). by destruct (Hrow r Hr).
  - destruct Hb as [[Hnone (j & Hj & Hs)]|[-> (j & Hj & Hs)]]; apply Hdom in Hs; [|lia].
    assert (is_Some (m !! k)) as [? ?]; [apply Hdom; lia|congruence].
  - destruct Hb as [Hd Hk']. assert (is_Some (m !! k)) as Hs; [apply Hdom; lia|].
    apply Hd in Hs. lia.
  - destruct Hb as (r & Hr & Hl). by destruct (Hrow r Hr).
Qed.

Lemma verify_valid_iff db :
  verify_audit_chain db = ChainValid ↔
  ∃ n, chained (t_audit_events db) n ∧ high_water_seq db ≤ n.
Proof.
  pose proof (verify_exact db) as Hv. destruct (verify_audit_chain db) as [|k kind]; [done|].
  split; [done|]. intros (n & Hc & Hn). destruct Hv as (Hk & _ & Hb).
  by destruct (chained_not_bad _ _ _ _ _ Hc Hn Hk Hb).
Qed.

(** ** Appending *)

Inductive ledger_step db : LedgerDb → Prop :=
| step_append sql e now : ledger_step db (append_audit_event sql db e now).2
| step_append_locked e now a db' :
    append_audit_event_locked db e now = Ok (a, db') → ledger_step db db'.

(** The ledger holds [n] rows, all appended, and the high-water row names the
    last of them. *)
Definition ledger_inv db (n : Z) : Prop :=
  chained (t_audit_events db) n ∧
  match t_ledger_high_water db with
  | None => n = 0
  | Some (max_seq, h) =>
      max_seq = n ∧ 1 ≤ n ∧ row_entry_hash <$> t_audit_events db !! n = Some h
  end.

Lemma chained_size m n : chained m n → Z.of_nat (size m) = n.
Proof.
  intros (Hn & Hdom & _). rewrite <-size_dom.
  assert (dom m = list_to_set (seqZ 1 n)) as ->.
  { apply set_eq. intros k. rewrite elem_of_dom, elem_of_list_to_set, elem_of_seqZ, Hdom. lia. }
  rewrite size_list_to_set by apply NoDup_seqZ. rewrite length_seqZ. lia.
Qed.

Lemma chained_insert m n r :
  chained m n → Some (row_prev_hash r) = prev_of m (n + 1) → hashes_right (n + 1) r →
  chained (<[n + 1 := r]> m) (n + 1).
Proof.
  intros (Hn & Hdom & Hg) Hprev Hh. split; [lia|].
  assert (∀ k, 1 ≤ k ≤ n + 1 → prev_of (<[n + 1 := r]> m) k = prev_of m k) as Hpo.
  { intros k Hk. unfold prev_of. case_decide; [done|]. by rewrite lookup_insert_ne by lia. }
  split.
  - intros k. destruct (decide (k = n + 1)) as [->|Hne].
    + rewrite lookup_insert_eq. split; [lia|by eexists].
    + rewrite lookup_insert_ne, Hdom by done. lia.
  - intros k Hk. destruct (decide (k = n + 1)) as [->|Hne].
    + exists r. rewrite lookup_insert_eq. unfold links_back. rewrite Hpo by lia. done.
    + destruct (Hg k) as (r' & Hr' & Hl & Hh'); [lia|]. exists r'.
      rewrite lookup_insert_ne by done. unfold links_back. by rewrite Hpo by lia.
Qed.

(** What one append does to the two tables. *)
Lemma append_locked_inv db e now a db' :
  append_audit_event_locked db e now = Ok (a, db') →
  ∃ row prev hw,
    row_prev_hash row = prev ∧ hashes_right (app_seq a) row ∧
    row_entry_hash row = app_entry_hash a ∧
    event_to_json e = Ok (row_payload row) ∧
    t_audit_events db !! app_seq a = None ∧
    db' = mkLedgerDb (<[app_seq a := row]> (t_audit_events db)) (Some hw) ∧
    match t_ledger_high_water db with
    | Some (max_seq, h) =>
        app_seq a = wrapping_i64 (max_seq + 1) ∧ prev = h ∧
        hw = if decide (max_seq < app_seq a) then (app_seq a, row_entry_hash row)
             else (max_seq, h)
    | None => app_seq a = GENESIS_SEQ ∧ prev = genesis_prev_hash ∧
              hw = (app_seq a, row_entry_hash row)
    end.
Proof.
  unfold append_audit_event_locked.
  destruct (match t_ledger_high_water db with Some _ => _ | None => _ end)
    as [seq prev] eqn:Ehw.
  destruct (event_to_json e) as [payload|] eqn:Ej; [|done].
  destruct (t_audit_events db !! seq) eqn:Er; [done|]. intros [= <- <-]. simpl.
  exists (mkAuditEventRow (ae_event_id e) (to_rfc3339 now) prev (compute_entry_hash seq prev payload)
            (export_class_tag (export_class e)) payload), prev.
  eexists. split_and!; [done..|].
  destruct (t_ledger_high_water db) as [[max_seq h]|]; simplify_eq; by split_and!.
Qed.

Lemma append_inv db n e now a db' :
  ledger_inv db n → n < i64_max →
  append_audit_event_locked db e now = Ok (a, db') → ledger_inv db' (n + 1).
Proof.
  intros [Hc Hhw] Hn Ha.
  apply append_locked_inv in Ha as (row & prev & hw & Hp & Hh & He & _ & _ & -> & Hm).
  assert (0 ≤ n) as Hn0 by (by destruct Hc).
  assert (app_seq a = n + 1 ∧ Some prev = prev_of (t_audit_events db) (n + 1) ∧
          hw = (app_seq a, row_entry_hash row)) as (Hs & Hprev & ->).
  { unfold prev_of, GENESIS_SEQ in *. destruct (t_ledger_high_water db) as [[max_seq h]|].
    - destruct Hhw as (-> & Hn1 & Hrow), Hm as (Hs & -> & ->).
      rewrite wrapping_i64_small in Hs by (unfold i64_max in *; lia). rewrite Hs.
      rewrite (decide_False (P := n + 1 = 1)), (decide_True (P := n < n + 1)) by lia.
      split_and!; [done| |done]. by rewrite Z.add_simpl_r, Hrow.
    - destruct Hm as (-> & -> & ->). subst n. by split_and!. }
  destruct a as [seq eh]. simpl in *. subst seq. split; simpl.
  - apply chained_insert; [done| |done]. by rewrite Hp.
  - split_and!; [done|lia|]. by rewrite lookup_insert_eq.
Qed.

(** A step is an append that took effect, or changes nothing. *)
Lemma ledger_step_cases db db' :
  ledger_step db db' → db' = db ∨ ∃ e now a, append_audit_event_locked db e now = Ok (a, db').
Proof.
  destruct 1 as [sql e now|]; [|eauto]. unfold append_audit_event.
  destruct sql; simpl; [| |by left];
    destruct (append_audit_event_locked _ _ _) as [[a db']|] eqn:E; simpl; eauto.
Qed.

Lemma ledger_step_size db db' :
  ledger_step db db' →
  (size (t_audit_events db) ≤ size (t_audit_events db'))%nat ∧
  (db' ≠ db → size (t_audit_events db') = S (size (t_audit_events db))).
Proof.
  intros [->|(e & now & a & Ha)]%ledger_step_cases; [done|].
  apply append_locked_inv in Ha as (row & prev & hw & _ & _ & _ & _ & Hnone & -> & _). simpl.
  rewrite map_size_insert_None by done. split; [lia|done].
Qed.

Lemma reachable_inv db :
  rtc ledger_step empty_ledger db → Z.of_nat (size (t_audit_events db)) ≤ i64_max →
  ledger_inv db (Z.of_nat (size (t_audit_events db))).
Proof.
  intros Hr. revert db Hr.
  refine (rtc_ind_r _ empty_ledger _ _); [|intros db db' _ Hs IH]; intros Hsize.
  { change (t_audit_events empty_ledger) with (∅ : gmap Z AuditEventRow) in *.
    rewrite map_size_empty. split; [|done]. split; [done|]. simpl. split; [|lia].
    intros k. rewrite lookup_empty. split; [by intros [? ?]|lia]. }
  destruct (ledger_step_size _ _ Hs) as [Hle Hlt].
  specialize (IH ltac:(lia)). destruct (ledger_step_cases _ _ Hs) as [->|(e & now & a & Ha)]; [done|].
  assert (db' ≠ db) as Hne.
  { intros ->. apply append_locked_inv in Ha as (? & ? & ? & _ & _ & _ & _ & Hnone & Heq & _).
    rewrite Heq in Hnone. simpl in Hnone. by rewrite lookup_insert_eq in Hnone. }
  rewrite (Hlt Hne) in *. replace (Z.of_nat (S _)) with (Z.of_nat (size (t_audit_events db)) + 1) by lia.
  eapply append_inv; [done| |done]. lia.
Qed.
(** ** Deleted rows *)

(** Appending never fills a position the high-water row has passed. *)
Lemma ledger_step_gap db db' k :
  high_water_seq db ≤ i64_max → 1 ≤ k ≤ high_water_seq db → t_audit_events db !! k = None →
  ledger_step db db' →
  high_water_seq db ≤ high_water_seq db' ≤ i64_max ∧ t_audit_events db' !! k = None.
Proof.
  intros Hmax Hk Hnone [->|(e & now & a & Ha)]%ledger_step_cases; [done|].
  apply append_locked_inv in Ha as (row & prev & hw & _ & _ & _ & _ & _ & -> & Hm).
  unfold high_water_seq in *. destruct (t_ledger_high_water db) as [[max_seq h]|];
    simpl in *; [|lia]. destruct Hm as (Hs & _ & ->).
  pose proof (wrapping_i64_bounds (max_seq + 1)) as Hb. rewrite <-Hs in Hb.
  split; [case_decide; simpl; lia|].
  rewrite lookup_insert_ne; [done|]. intros Heq. rewrite Heq in Hs.
  destruct (decide (max_seq < i64_max)).
  - rewrite wrapping_i64_small in Hs by lia. lia.
  - assert (max_seq = i64_max) as -> by lia. vm_compute in Hs. lia.
Qed.

Lemma ledger_steps_gap db db' k :
  rtc ledger_step db db' → high_water_seq db ≤ i64_max →
  1 ≤ k ≤ high_water_seq db → t_audit_events db !! k = None →
  high_water_seq db ≤ high_water_seq db' ∧ t_audit_events db' !! k = None.
Proof.
  induction 1 as [|db db1 db' Hs _ IH]; intros Hmax Hk Hnone; [done|].
  destruct (ledger_step_gap _ _ _ Hmax Hk Hnone Hs) as [Hle Hnone1].
  destruct IH as [Hle' Hnone']; [lia|lia|done|]. split; [lia|done].
Qed.

Lemma gap_diverges db k :
  1 ≤ k ≤ high_water_seq db → t_audit_events db !! k = None →
  ∃ j kind, verify_audit_chain db = ChainDiverged j kind ∧ 1 ≤ j ≤ k.
Proof.
  intros Hk Hnone. pose proof (verify_exact db) as Hv.
  destruct (verify_audit_chain db) as [|j kind].
  - destruct Hv as (n & (_ & Hdom & _) & Hn). assert (is_Some (t_audit_events db !! k)) as [? ?];
      [apply Hdom; lia|congruence].
  - destruct Hv as (Hj & Hg & _). exists j, kind. split; [done|].
    destruct (decide (j ≤ k)); [lia|]. destruct (Hg k) as (r & Hr & _); [lia|congruence].
Qed.

(** ** Theorems *)

(** Every ledger that was built by appending verifies: whatever was
    appended in whatever order, also when appends failed in between, its rows
    are those of the sequence numbers 1 to n without a gap, each linked to
    the one before it and hashed, the high-water row names the last one, and
    verification answers that the chain is valid. The bound is that of the
    64-bit sequence number. *)
Theorem reachable_ledger_verifies db :
  rtc ledger_step empty_ledger db → Z.of_nat (size (t_audit_events db)) ≤ i64_max →
  verify_audit_chain db = ChainValid ∧
  ∃ n, chained (t_audit_events db) n ∧ n = Z.of_nat (size (t_audit_events db)) ∧
       high_water_seq db = n.
Proof.
  intros Hr Hs. pose proof (reachable_inv db Hr Hs) as [Hc Hhw].
  assert (high_water_seq db = Z.of_nat (size (t_audit_events db))) as Hn.
  { unfold high_water_seq. destruct (t_ledger_high_water db) as [[]|]; simpl; lia. }
  split; [apply verify_valid_iff|]; eexists; (split; [done|lia || done]).
Qed.

(** C36. Verification of any table, however it was edited, is exact: it
    answers valid exactly when the rows are an unbroken, linked and hashed
    chain from 1 that reaches the high-water mark; otherwise it names the
    first position that is not right, everything before it being right, and
    the kind it reports is what is wrong there. *)
Theorem verification_is_exact db :
  (verify_audit_chain db = ChainValid ↔
     ∃ n, chained (t_audit_events db) n ∧ high_water_seq db ≤ n) ∧
  (∀ k kind, verify_audit_chain db = ChainDiverged k kind →
     1 ≤ k ∧ (∀ j, 1 ≤ j < k → good_row (t_audit_events db) j) ∧
     bad_row (t_audit_events db) k kind (high_water_seq db)).
Proof.
  split; [apply verify_valid_iff|]. intros k kind Hv.
  pose proof (verify_exact db) as He. by rewrite Hv in He.
Qed.

(** A deletion is never healed: if a row whose number the high-water
    mark has reached is absent, then after any further appends verification
    still diverges, at that row or before it. *)
Theorem deleted_row_stays_detected db k db' :
  high_water_seq db ≤ i64_max → 1 ≤ k ≤ high_water_seq db →
  t_audit_events db !! k = None → rtc ledger_step db db' →
  ∃ j kind, verify_audit_chain db' = ChainDiverged j kind ∧ 1 ≤ j ≤ k.
Proof.
  intros Hmax Hk Hnone Hr. destruct (ledger_steps_gap db db' k) as [Hle Hnone']; [done..|].
  apply gap_diverges; [lia|done].
Qed.
End spec.

(** ** History *)

Section history.
Context `{Sha256, !Sha256Ok, AuditWire, ChronoFmt}.
Implicit Types (m : gmap Z AuditEventRow) (db : LedgerDb).

(** Two byte strings with one digest. *)
Definition collision : Prop := ∃ x y, x ≠ y ∧ sha256 x = sha256 y.

Lemma string_bytes_app x y : string_bytes (x +:+ y) = string_bytes x ++ string_bytes y.
Proof. induction x as [|a x IH]; [done|]. unfold string_bytes in *. simpl. by f_equal. Qed.

Lemma hex_digit_inj a b : (a < 16)%N → (b < 16)%N → hex_digit a = hex_digit b → a = b.
Proof. unfold hex_digit. repeat case_decide; lia. Qed.
Lemma hex_digit_byte a : (a < 16)%N → (hex_digit a < 256)%N.
Proof. unfold hex_digit. case_decide; lia. Qed.

Lemma hex_inj xs ys :
  Forall (λ b, b < 256)%N xs → Forall (λ b, b < 256)%N ys →
  xs ≫= hex_byte = ys ≫= hex_byte → xs = ys.
Proof.
  intros Hx. revert ys. induction Hx as [|x xs Hx _ IH]; intros [|y ys] Hy; try done.
  apply Forall_cons in Hy as [Hy Hys]. rewrite !bind_cons. intros [= Hhi Hlo Heq].
  apply hex_digit_inj in Hhi; [|apply N.Div0.div_lt_upper_bound; lia..].
  apply hex_digit_inj in Hlo; [|apply N.mod_upper_bound; lia..].
  f_equal; [|by apply IH]. rewrite (N.div_mod' x 16), (N.div_mod' y 16). congruence.
Qed.

Lemma hex_bytes xs :
  Forall (λ b, b < 256)%N xs → Forall (λ b, b < 256)%N (xs ≫= hex_byte).
Proof.
  induction 1 as [|x xs Hx _ IH]; [constructor|]. rewrite bind_cons.
  repeat (constructor; [apply hex_digit_byte|]); [| |done].
  - apply N.Div0.div_lt_upper_bound; lia.
  - apply N.mod_upper_bound; lia.
Qed.
Lemma hex_length xs : length (xs ≫= hex_byte) = (2 * length xs)%nat.
Proof. induction xs as [|x xs IH]; [done|]. rewrite bind_cons, length_app, IH. simpl. lia. Qed.

Lemma entry_hash_bytes seq prev payload :
  string_bytes (compute_entry_hash seq prev payload) =
  string_bytes "sha256:" ++ (sha256 (entry_message seq prev payload) ≫= hex_byte).
Proof.
  unfold compute_entry_hash. rewrite string_bytes_app, string_bytes_of_bytes; [done|].
  apply hex_bytes, sha256_bytes.
Qed.

(** The length in bytes of a formatted digest. *)
Definition hash_length : nat := 71.
Lemma entry_hash_length seq prev payload :
  length (string_bytes (compute_entry_hash seq prev payload)) = hash_length.
Proof. rewrite entry_hash_bytes, length_app, hex_length, sha256_length. done. Qed.
Lemma genesis_hash_length : length (string_bytes genesis_prev_hash) = hash_length.
Proof. vm_compute. done. Qed.

(** Equal entry hashes at one position: the same content, or a collision. The
    lengths make the concatenation of the two fields unambiguous. *)
Lemma entry_hash_agree seq p1 p2 x1 x2 :
  length (string_bytes p1) = length (string_bytes p2) →
  compute_entry_hash seq p1 x1 = compute_entry_hash seq p2 x2 →
  (p1 = p2 ∧ x1 = x2) ∨ collision.
Proof.
  intros Hlen Heq. apply (f_equal string_bytes) in Heq. rewrite !entry_hash_bytes in Heq.
  apply app_inv_head, hex_inj in Heq; [|apply sha256_bytes..].
  destruct (decide (entry_message seq p1 x1 = entry_message seq p2 x2)) as [Hm|Hm];
    [left|right; by eexists _, _].
  unfold entry_message in Hm. do 2 apply app_inv_head in Hm.
  apply app_inj_1 in Hm as [Hp Hx]; [|done]. split; by apply (inj string_bytes).
Qed.

Lemma chained_prev_length m n k r :
  chained m n → m !! k = Some r → length (string_bytes (row_prev_hash r)) = hash_length.
Proof.
  intros (_ & Hdom & Hg) Hr. assert (1 ≤ k ≤ n) as Hk by (apply Hdom; by exists r).
  destruct (Hg k Hk) as (r' & Hr' & Hl & _). simplify_eq.
  unfold links_back, prev_of in Hl. case_decide as Hgen.
  { injection Hl as ->. apply genesis_hash_length. }
  unfold GENESIS_SEQ in Hgen. destruct (Hg (k - 1)) as (r0 & Hr0 & _ & Hh); [lia|].
  rewrite Hr0 in Hl. simpl in Hl. injection Hl as ->. unfold hashes_right in Hh.
  rewrite <-Hh. apply entry_hash_length.
Qed.

(** The authenticated content of a row. *)
Definition content (r : AuditEventRow) : string * string * string :=
  (row_prev_hash r, row_entry_hash r, row_payload r).

Lemma chained_lookup m n k r :
  chained m n → m !! k = Some r → 1 ≤ k ≤ n ∧ links_back m k r ∧ hashes_right k r.
Proof.
  intros (_ & Hdom & Hg) Hr. assert (1 ≤ k ≤ n) as Hk by (apply Hdom; by exists r).
  destruct (Hg k Hk) as (r' & Hr' & ?). by simplify_eq.
Qed.

Lemma rows_agree m1 n1 m2 n2 h r1 r2 :
  chained m1 n1 → chained m2 n2 → m1 !! h = Some r1 → m2 !! h = Some r2 →
  row_entry_hash r1 = row_entry_hash r2 → content r1 = content r2 ∨ collision.
Proof.
  intros Hc1 Hc2 Hr1 Hr2 Heq.
  destruct (chained_lookup _ _ _ _ Hc1 Hr1) as (_ & _ & Ha1).
  destruct (chained_lookup _ _ _ _ Hc2 Hr2) as (_ & _ & Ha2).
  unfold hashes_right in Ha1, Ha2.
  destruct (entry_hash_agree h (row_prev_hash r1) (row_prev_hash r2) (row_payload r1)
    (row_payload r2)) as [[Hp Hx]|]; [| |left|by right].
  - by rewrite (chained_prev_length _ _ _ _ Hc1 Hr1), (chained_prev_length _ _ _ _ Hc2 Hr2).
  - by rewrite Ha1, Ha2.
  - unfold content. by rewrite Hp, Hx, Heq.
Qed.

(** One agreement at [h] carries over to every position before it. *)
Lemma chains_agree m1 n1 m2 n2 (d : nat) : ∀ h r1 r2,
  chained m1 n1 → chained m2 n2 →
  m1 !! h = Some r1 → m2 !! h = Some r2 → row_entry_hash r1 = row_entry_hash r2 →
  (∀ k, 1 ≤ k → h - Z.of_nat d ≤ k ≤ h → content <$> m1 !! k = content <$> m2 !! k) ∨ collision.
Proof.
  induction d as [|d IH]; intros h r1 r2 Hc1 Hc2 Hr1 Hr2 Heq;
    (destruct (rows_agree _ _ _ _ _ _ _ Hc1 Hc2 Hr1 Hr2 Heq) as [Hrow|]; [|by right]).
  { left. intros k _ Hk. assert (k = h) as -> by lia. rewrite Hr1, Hr2. simpl. by rewrite Hrow. }
  destruct (chained_lookup _ _ _ _ Hc1 Hr1) as (Hh1 & Hl1 & _).
  destruct (chained_lookup _ _ _ _ Hc2 Hr2) as (Hh2 & Hl2 & _).
  unfold links_back, prev_of, GENESIS_SEQ in Hl1, Hl2. destruct (decide (h = 1)) as [->|Hne].
  { left. intros k Hk1 Hk. assert (k = 1) as -> by lia. rewrite Hr1, Hr2. simpl. by rewrite Hrow. }
  destruct (m1 !! (h - 1)) as [q1|] eqn:Hq1; [|done].
  destruct (m2 !! (h - 1)) as [q2|] eqn:Hq2; [|done]. simpl in Hl1, Hl2.
  assert (row_prev_hash r1 = row_prev_hash r2) as Hp by (by injection Hrow).
  destruct (IH (h - 1) q1 q2) as [Hall|]; [done..|congruence| |by right].
  left. intros k Hk1 Hk. destruct (decide (k = h)) as [->|]; [|apply Hall; lia].
  rewrite Hr1, Hr2. simpl. by rewrite Hrow.
Qed.

Lemma histories_agree db1 db2 h r1 r2 :
  verify_audit_chain db1 = ChainValid → verify_audit_chain db2 = ChainValid →
  t_audit_events db1 !! h = Some r1 → t_audit_events db2 !! h = Some r2 →
  row_entry_hash r1 = row_entry_hash r2 →
  (∀ k, k ≤ h → content <$> t_audit_events db1 !! k = content <$> t_audit_events db2 !! k) ∨
  collision.
Proof.
  rewrite !verify_valid_iff. intros (n1 & Hc1 & _) (n2 & Hc2 & _) Hr1 Hr2 Heq.
  destruct (chains_agree _ _ _ _ (Z.to_nat h) _ _ _ Hc1 Hc2 Hr1 Hr2 Heq) as [Hall|]; [left|by right].
  intros k Hk. destruct (decide (1 ≤ k)); [apply Hall; lia|].
  destruct (t_audit_events db1 !! k) as [q1|] eqn:E1.
  { destruct (chained_lookup _ _ _ _ Hc1 E1). lia. }
  destruct (t_audit_events db2 !! k) as [q2|] eqn:E2; [|done].
  destruct (chained_lookup _ _ _ _ Hc2 E2). lia.
Qed.
End history.
