(* ===== verification/Egress.v ===== *)
(** * The egress decision

    [fornax-types/src/egress.rs]: the profiles and purposes, destinations,
    consents and the allowlist, and the one function that decides whether a
    request may leave the machine. The parser of the [url] crate is not part
    of the repository and is a parameter. *)

From stdpp Require Import pretty.
From S2P Require Import Prelude.
From S2P Require Import Types.
From S2P Require Import Text.
From S2P Require Import PolicyContent.

Open Scope fornax_scope.

(** ** Profiles, purposes and content classes *)

Inductive Profile := Unconfigured | Personal | Corporate.
#[export] Instance Profile_eq_dec : EqDecision Profile.
Proof. solve_decision. Defined.

Definition profile_as_str (p : Profile) : string :=
  match p with
  | Unconfigured => "unconfigured"
  | Personal => "personal"
  | Corporate => "corporate"
  end.
Definition profile_parse (s : string) : option Profile :=
  if decide (s = "unconfigured") then Some Unconfigured
  else if decide (s = "personal") then Some Personal
  else if decide (s = "corporate") then Some Corporate
  else None.

Inductive Purpose :=
| EvidenceBatchUpload | AuditCheckpoint | PolicyFetch | SemanticJudge | UploaderSpoolStream.
#[export] Instance Purpose_eq_dec : EqDecision Purpose.
Proof. solve_decision. Defined.

Definition purpose_as_str (p : Purpose) : string :=
  match p with
  | EvidenceBatchUpload => "evidence_batch_upload"
  | AuditCheckpoint => "audit_checkpoint"
  | PolicyFetch => "policy_fetch"
  | SemanticJudge => "semantic_judge"
  | UploaderSpoolStream => "uploader_spool_stream"
  end.
Definition purpose_parse (s : string) : option Purpose :=
  if decide (s = "evidence_batch_upload") then Some EvidenceBatchUpload
  else if decide (s = "audit_checkpoint") then Some AuditCheckpoint
  else if decide (s = "policy_fetch") then Some PolicyFetch
  else if decide (s = "semantic_judge") then Some SemanticJudge
  else if decide (s = "uploader_spool_stream") then Some UploaderSpoolStream
  else None.

Definition ships_evidence (p : Purpose) : bool :=
  match p with
  | EvidenceBatchUpload | AuditCheckpoint | UploaderSpoolStream => true
  | _ => false
  end.

Definition is_uploadable_class (c : EgressContentClass) : bool :=
  match c with
  | EvidenceMetadata | FindingVerdicts | CapabilityDeclarations => true
  | _ => false
  end.

Definition class_str (c : EgressContentClass) : string :=
  match c with
  | FindingVerdicts => "finding_verdicts"
  | ClaimText => "claim_text"
  | EvidenceMetadata => "evidence_metadata"
  | RedactedEvidencePayload => "redacted_evidence_payload"
  | CapabilityDeclarations => "capability_declarations"
  | EgressUnrecognized s => "unrecognized:" +:+ s
  end.
Definition parse_class (s : string) : option EgressContentClass :=
  if decide (s = "finding_verdicts") then Some FindingVerdicts
  else if decide (s = "claim_text") then Some ClaimText
  else if decide (s = "evidence_metadata") then Some EvidenceMetadata
  else if decide (s = "redacted_evidence_payload") then Some RedactedEvidencePayload
  else if decide (s = "capability_declarations") then Some CapabilityDeclarations
  else None.

Definition is_unrecognized_class (c : EgressContentClass) : bool :=
  match c with EgressUnrecognized _ => true | _ => false end.

(** ** Denials *)

Inductive EgressDenial :=
| InvalidDestination | InsecureDestination | StateUnreadable | DeniedUnconfigured
| CorporateLocalOnly | KillSwitchOff | ContentClassNotUploadable | NoAllowlistEntry
| NoConsent | ConsentExpired | ConsentRevoked | ConsentStale | ConsentDoesNotCoverClasses
| MissingAuthorizationRef | PurposeNotAvailable.

Definition denial_code (d : EgressDenial) : string :=
  match d with
  | InvalidDestination => "invalid_destination"
  | InsecureDestination => "insecure_destination"
  | StateUnreadable => "state_unreadable"
  | DeniedUnconfigured => "unconfigured"
  | CorporateLocalOnly => "corporate_local_only"
  | KillSwitchOff => "kill_switch_off"
  | ContentClassNotUploadable => "content_class_not_uploadable"
  | NoAllowlistEntry => "no_allowlist_entry"
  | NoConsent => "no_consent"
  | ConsentExpired => "consent_expired"
  | ConsentRevoked => "consent_revoked"
  | ConsentStale => "consent_stale"
  | ConsentDoesNotCoverClasses => "consent_does_not_cover_classes"
  | MissingAuthorizationRef => "missing_authorization_ref"
  | PurposeNotAvailable => "purpose_not_available"
  end.

(** ** Destinations *)

(** The parts of a parsed [url::Url]. *)
Record Url := mkUrl {
  url_scheme : string;
  url_username : string;
  url_password : option string;
  url_host_str : option string;
  url_port_or_known_default : option N;
  url_path : string;
  url_query : option string;
  url_fragment : option string;
}.
Class UrlParser := { url_parse : string → option Url }.

Record Destination := mkDestination {
  d_scheme : string;
  d_host : string;
  d_port : N;
  path_prefix : string;
}.

Definition is_loopback_host (host : string) : bool :=
  bool_decide (host ∈ ["127.0.0.1"; "::1"; "[::1]"; "localhost"]).

Definition ascii_lower (a : Ascii.ascii) : Ascii.ascii :=
  let n := Ascii.N_of_ascii a in
  if decide (65 ≤ n ≤ 90)%N then Ascii.ascii_of_N (n + 32) else a.
Definition to_ascii_lowercase (s : string) : string :=
  String.string_of_list_ascii (ascii_lower <$> String.list_ascii_of_string s).

(** [Destination::parse]. *)
Definition destination_parse `{UrlParser} (raw : string) : result EgressDenial Destination :=
  match url_parse raw with
  | None => Err InvalidDestination
  | Some url =>
      if bool_decide (url_username url ≠ "" ∨ is_Some (url_password url))
      then Err InvalidDestination
      else if bool_decide (is_Some (url_query url) ∨ is_Some (url_fragment url))
      then Err InvalidDestination
      else if bool_decide (url_scheme url ≠ "http" ∧ url_scheme url ≠ "https")
      then Err InvalidDestination
      else
        match url_host_str url, url_port_or_known_default url with
        | Some host, port =>
            if decide (host = "") then Err InvalidDestination
            else
              let host := to_ascii_lowercase host in
              match port with
              | None => Err InvalidDestination
              | Some port =>
                  if bool_decide (url_scheme url = "http") && negb (is_loopback_host host)
                  then Err InsecureDestination
                  else
                    Ok (mkDestination (url_scheme url) host port
                          (if decide (url_path url = "") then "/" else url_path url))
              end
        | None, _ => Err InvalidDestination
        end
  end.

(** [Destination::canonical]. *)
Definition canonical (d : Destination) : string :=
  d_scheme d +:+ "://" +:+ d_host d +:+ ":" +:+ pretty (d_port d) +:+ path_prefix d.

(** [str::strip_prefix] and [str::trim_end_matches('/')]. *)
Fixpoint strip_prefix (p s : string) : option string :=
  match p, s with
  | EmptyString, _ => Some s
  | String a p, String b s => if decide (a = b) then strip_prefix p s else None
  | String _ _, EmptyString => None
  end.
Definition slash : Ascii.ascii := Ascii.ascii_of_nat 47.
Fixpoint trim_end_slashes (s : string) : string :=
  match s with
  | EmptyString => ""
  | String a s =>
      let rest := trim_end_slashes s in
      if decide (rest = "" ∧ a = slash) then "" else String a rest
  end.
Definition starts_with_slash (s : string) : bool :=
  match s with String a _ => bool_decide (a = slash) | EmptyString => false end.

Definition covers (d request : Destination) : bool :=
  if bool_decide (d_scheme d ≠ d_scheme request ∨ d_host d ≠ d_host request
                  ∨ d_port d ≠ d_port request)
  then false
  else if decide (path_prefix d = "/") then true
  else
    let prefix := trim_end_slashes (path_prefix d) in
    bool_decide (path_prefix request = prefix) ||
    match strip_prefix prefix (path_prefix request) with
    | Some rest => starts_with_slash rest
    | None => false
    end.

(** ** Consents, the allowlist and the state *)

Record Consent := mkConsent {
  con_id : string;
  con_purpose : Purpose;
  con_destination : string;
  data_classes : gset string;
  granted_at : string;
  con_expires_at : string;
  con_revoked_at : option string;
  profile_generation : Z;
  authorization_ref : option string;
}.

Record AllowlistEntry := mkAllowlistEntry {
  al_id : string;
  al_purpose : Purpose;
  al_destination : string;
  removed : bool;
}.

Record EgressState := mkEgressState {
  es_profile : Profile;
  es_generation : Z;
  consents : list Consent;
  allowlist : list AllowlistEntry;
}.
Definition unconfigured_state : EgressState := mkEgressState Unconfigured 0 [] [].

Record EgressRequest := mkEgressRequest {
  rq_purpose : Purpose;
  rq_url : string;
  rq_classes : gset EgressContentClass;
  legacy_cloud_sync_gate_open : bool;
  rq_now : string;
}.

Record EgressPermit := mkEgressPermit {
  pm_purpose : Purpose;
  pm_destination : string;
  pm_consent_id : option string;
}.

(** ** The decision *)

Section decision.
Context `{Chrono, UrlParser}.

Definition authorizes (p : EgressPermit) (purpose : Purpose) (url : string) : bool :=
  bool_decide (pm_purpose p = purpose) &&
  match destination_parse url with
  | Ok d => bool_decide (canonical d = pm_destination p)
  | Err _ => false
  end.

(** Whether a stored destination covers the request. *)
Definition stored_covers (destination : string) (request : Destination) : bool :=
  match destination_parse destination with
  | Ok d => covers d request
  | Err _ => false
  end.

Definition find_allowlist (st : EgressState) (purpose : Purpose) (request : Destination) :
    option AllowlistEntry :=
  snd <$> list_find (λ e, negb (removed e) && bool_decide (al_purpose e = purpose)
                          && stored_covers (al_destination e) request = true) (allowlist st).

(** [a < b], false when either does not parse. *)
Definition is_before (a b : string) : bool :=
  match parse_from_rfc3339 a, parse_from_rfc3339 b with
  | Some a, Some b => bool_decide (a < b)%Z
  | _, _ => false
  end.

Definition covers_classes (c : Consent) (classes : gset EgressContentClass) : bool :=
  bool_decide (set_Forall (λ class, class_str class ∈ data_classes c) classes).

(** The loop over the consents for the purpose and destination, [best] being
    the denial so far. *)
Fixpoint consent_loop (st : EgressState) (req : EgressRequest) (best : EgressDenial)
    (cs : list Consent) : result EgressDenial Consent :=
  match cs with
  | [] => Err best
  | c :: cs =>
      if bool_decide (is_Some (con_revoked_at c)) then consent_loop st req ConsentRevoked cs
      else if decide (profile_generation c ≠ es_generation st)
      then consent_loop st req ConsentStale cs
      else if negb (is_before (rq_now req) (con_expires_at c))
      then consent_loop st req ConsentExpired cs
      else if negb (covers_classes c (rq_classes req))
      then consent_loop st req ConsentDoesNotCoverClasses cs
      else Ok c
  end.

Definition find_consent (st : EgressState) (req : EgressRequest) (request : Destination) :
    result EgressDenial Consent :=
  consent_loop st req NoConsent
    (filter (λ c, con_purpose c = rq_purpose req ∧
                  stored_covers (con_destination c) request = true) (consents st)).

Definition permit (purpose : Purpose) (request : Destination) (consent : option Consent) :
    EgressPermit :=
  mkEgressPermit purpose (canonical request) (con_id <$> consent).

Definition no_authorization_ref (r : option string) : bool :=
  match r with None => true | Some r => is_blank r end.

(** [egress::decide]. *)
Definition egress_decide (st : EgressState) (req : EgressRequest) :
    result EgressDenial EgressPermit :=
  let purpose := rq_purpose req in
  let? request := destination_parse (rq_url req) in
  if decide (purpose = UploaderSpoolStream) then Err PurposeNotAvailable
  else if decide (purpose = SemanticJudge ∧ is_loopback_host (d_host request) = true)
  then Ok (permit purpose request None)
  else if bool_decide (set_Exists (λ c, is_unrecognized_class c = true) (rq_classes req))
  then Err ContentClassNotUploadable
  else
    let allowed := find_allowlist st purpose request in
    let fetch :=
      match allowed with
      | None => Err NoAllowlistEntry
      | Some _ => Ok (permit purpose request None)
      end in
    match es_profile st with
    | Corporate =>
        if ships_evidence purpose then Err CorporateLocalOnly
        else if decide (purpose = PolicyFetch) then fetch
        else
          match allowed with
          | None => Err NoAllowlistEntry
          | Some _ =>
              let? consent := find_consent st req request in
              if no_authorization_ref (authorization_ref consent)
              then Err MissingAuthorizationRef
              else Ok (permit purpose request (Some consent))
          end
    | Unconfigured => if decide (purpose = PolicyFetch) then fetch else Err DeniedUnconfigured
    | Personal =>
        if decide (purpose = PolicyFetch) then fetch
        else if ships_evidence purpose && negb (legacy_cloud_sync_gate_open req)
        then Err KillSwitchOff
        else if ships_evidence purpose &&
                bool_decide (¬ set_Forall (λ c, is_uploadable_class c = true) (rq_classes req))
        then Err ContentClassNotUploadable
        else
          match allowed with
          | None => Err NoAllowlistEntry
          | Some _ =>
              let? consent := find_consent st req request in
              Ok (permit purpose request (Some consent))
          end
    end.
End decision.
