(* ===== verification/EgressStore.v ===== *)
(** * The egress store

    [fornax-store/src/egress.rs]: the persisted profile, consents and
    allowlist, the operations that change them, each followed by its audit
    event, and the decision on the persisted state. A table is the list of its
    rows in the order they were inserted. The identifiers and the times the
    operations draw are their arguments; [None] is the panic of an
    out-of-range date.

    [grant_egress_consent] reads the state on one connection and inserts on
    another, without a transaction around the two: the halves are separate
    definitions, and [grant_egress_consent] is their composition. *)

From stdpp Require Import pretty.
From S2P Require Import Prelude.
From S2P Require Import Types.
From S2P Require Import Text.
From S2P Require Import PolicyContent.
From S2P Require Import AuditEvent.
From S2P Require Import AuditLedger.
From S2P Require Import Egress.

Open Scope fornax_scope.

(** [serde_json] on a list of strings. *)
Class StringsJson := {
  strings_to_json : list string → string;
  strings_from_json : string → option (list string);
}.

(** ** Tables *)

Record ProfileRow := mkProfileRow {
  pr_profile : string;
  pr_generation : Z;
  pr_changed_at : string;
  pr_source : string;
}.
Record ConsentRow := mkConsentRow {
  cr_id : string;
  cr_purpose : string;
  cr_destination : string;
  cr_data_classes : string;
  cr_granted_at : string;
  cr_expires_at : string;
  cr_revoked_at : option string;
  cr_revoked_reason : option string;
  cr_generation : Z;
  cr_authorization_ref : option string;
}.
Record AllowRow := mkAllowRow {
  ar_id : string;
  ar_purpose : string;
  ar_destination : string;
  ar_added_at : string;
  ar_removed_at : option string;
}.
Record EgressDb := mkEgressDb {
  t_egress_profile : option ProfileRow;
  t_egress_consents : list ConsentRow;
  t_egress_allowlist : list AllowRow;
  (** [changed_at], [profile], [generation] *)
  t_egress_profile_log : list (string * string * Z);
  t_ledger : LedgerDb;
}.
Definition empty_egress_db : EgressDb := mkEgressDb None [] [] [] empty_ledger.

Definition with_ledger (db : EgressDb) (l : LedgerDb) : EgressDb :=
  mkEgressDb (t_egress_profile db) (t_egress_consents db) (t_egress_allowlist db)
    (t_egress_profile_log db) l.

Definition DEFAULT_CONSENT_DAYS : Z := 365.

(** ** Reading the state *)

Definition read_profile (row : option ProfileRow) : result StoreError (Profile * Z) :=
  match row with
  | None => Ok (Unconfigured, 0%Z)
  | Some r =>
      match profile_parse (pr_profile r) with
      | Some p => Ok (p, pr_generation r)
      | None => Err (InvalidEgress "unknown profile")
      end
  end.

Section store.
Context `{Chrono, ChronoFmt, UrlParser, StringsJson, Sha256, AuditWire}.

Definition consent_of_row (r : ConsentRow) : result StoreError Consent :=
  match strings_from_json (cr_data_classes r) with
  | None => Err (InvalidEgress "malformed consent data_classes")
  | Some classes =>
      match purpose_parse (cr_purpose r) with
      | None => Err (InvalidEgress "unknown purpose")
      | Some purpose =>
          Ok (mkConsent (cr_id r) purpose (cr_destination r) (list_to_set classes)
                (cr_granted_at r) (cr_expires_at r) (cr_revoked_at r) (cr_generation r)
                (cr_authorization_ref r))
      end
  end.

Definition allow_of_row (r : AllowRow) : result StoreError AllowlistEntry :=
  match purpose_parse (ar_purpose r) with
  | None => Err (InvalidEgress "unknown purpose")
  | Some purpose =>
      Ok (mkAllowlistEntry (ar_id r) purpose (ar_destination r)
            (bool_decide (is_Some (ar_removed_at r))))
  end.

(** The source reads the three tables one after the other, without a
    transaction; they are read here from one state. *)
Definition egress_state (db : EgressDb) : result StoreError EgressState :=
  let? pg := read_profile (t_egress_profile db) in
  let? cs := collect_results (consent_of_row <$> t_egress_consents db) in
  let? al := collect_results (allow_of_row <$> t_egress_allowlist db) in
  Ok (mkEgressState pg.1 pg.2 cs al).

Definition decide_egress (db : EgressDb) (purpose : Purpose) (url : string)
    (classes : gset EgressContentClass) (gate_open : bool) (now : Z) :
    result EgressDenial EgressPermit :=
  match egress_state db with
  | Err _ => Err StateUnreadable
  | Ok st => egress_decide st (mkEgressRequest purpose url classes gate_open (to_rfc3339 now))
  end.

(** ** The audit event of a change *)

Definition audit_egress (sql : Sqlite) (db : EgressDb) (action : AuditAction)
    (target_id source event_id : string) (now : Z) : result StoreError unit * EgressDb :=
  let event :=
    new_audit_event event_id (to_rfc3339 now) (ActorUser source) action
      (TargetEgressPolicy target_id) Granted Metadata in
  let '(res, l) := append_audit_event sql (t_ledger db) event now in
  (let? a := res in Ok tt, with_ledger db l).

(** ** Changing the profile *)

Definition revoke_row (now reason : string) (r : ConsentRow) : ConsentRow :=
  mkConsentRow (cr_id r) (cr_purpose r) (cr_destination r) (cr_data_classes r)
    (cr_granted_at r) (cr_expires_at r) (Some now) (Some reason) (cr_generation r)
    (cr_authorization_ref r).

(** [UPDATE ... WHERE revoked_at IS NULL], for the rows of a condition. *)
Definition revoke_where (P : ConsentRow → bool) (now reason : string) (rows : list ConsentRow) :
    list ConsentRow :=
  (λ r, if P r && bool_decide (cr_revoked_at r = None) then revoke_row now reason r else r)
    <$> rows.

(** The number of live consents an update revokes. *)
Definition rows_affected (P : ConsentRow → bool) (rows : list ConsentRow) : nat :=
  length (filter (λ r, P r && bool_decide (cr_revoked_at r = None) = true) rows).

(** The transaction. *)
Definition profile_change (db : EgressDb) (profile : Profile) (source : string)
    (confirm_leave_corporate : bool) (now : Z) : result StoreError EgressDb :=
  let? pg := read_profile (t_egress_profile db) in
  if bool_decide (pg.1 = Corporate ∧ profile ≠ Corporate) && negb confirm_leave_corporate
  then Err (InvalidEgress "leaving the corporate profile needs --confirm-leave-corporate")
  else
    let generation := wrapping_i64 (pg.2 + 1) in
    let at_ := to_rfc3339 now in
    Ok (mkEgressDb
          (Some (mkProfileRow (profile_as_str profile) generation at_ source))
          (if decide (profile = Corporate)
           then revoke_where (λ _, true) at_ "entered corporate profile" (t_egress_consents db)
           else t_egress_consents db)
          (t_egress_allowlist db)
          (t_egress_profile_log db ++ [(at_, profile_as_str profile, generation)])
          (t_ledger db)).

(** The three outcomes are those of the transaction and of the two audit
    events. *)
Definition set_egress_profile (sql sql1 sql2 : Sqlite) (db : EgressDb) (profile : Profile)
    (source : string) (confirm_leave_corporate : bool) (event_id1 event_id2 : string)
    (now : Z) : result StoreError unit * EgressDb :=
  match sql, profile_change db profile source confirm_leave_corporate now with
  | StatementFails, _ | CommitFails, Ok _ => (Err StoreDb, db)
  | _, Err e => (Err e, db)
  | Commits, Ok db1 =>
      let revoked :=
        if decide (profile = Corporate) then rows_affected (λ _, true) (t_egress_consents db)
        else 0 in
      let '(res1, db2) :=
        audit_egress sql1 db1 EgressProfileChanged ("profile:" +:+ profile_as_str profile +:+ ":gen"
             +:+ pretty (default 0%Z (pr_generation <$> t_egress_profile db1)))
          source event_id1 now in
      match res1 with
      | Err e => (Err e, db2)
      | Ok _ =>
          if decide (0 < revoked)
          then audit_egress sql2 db2 EgressConsentRevoked ("all:" +:+ pretty revoked) source event_id2 now
          else (Ok tt, db2)
      end
  end.

(** ** Granting a consent *)

(** [classes.iter()], of a set without unrecognized classes: in the order the
    variants are declared. *)
Definition class_iter (classes : gset EgressContentClass) : list EgressContentClass :=
  filter (λ c, c ∈ classes)
    [FindingVerdicts; ClaimText; EvidenceMetadata; RedactedEvidencePayload;
     CapabilityDeclarations].

(** The state is read and checked, and the row prepared. *)
Definition grant_check (db : EgressDb) (purpose : Purpose) (destination : string)
    (classes : gset EgressContentClass) (expires_in_days : Z) (auth_ref : option string)
    (id : string) (now : Z) :
    option (result StoreError ConsentRow) :=
  match egress_state db with
  | Err e => Some (Err e)
  | Ok st =>
      match destination_parse destination with
      | Err d => Some (Err (InvalidEgress (denial_code d)))
      | Ok dest =>
          if decide (purpose = UploaderSpoolStream)
          then Some (Err (InvalidEgress "the uploader stream purpose is not available in v0.0.9"))
          else if decide (purpose = PolicyFetch)
          then Some (Err (InvalidEgress "policy fetch needs an allowlist entry, not a consent"))
          else if decide (es_profile st = Unconfigured)
          then Some (Err (InvalidEgress "choose a profile first (fornax egress profile set)"))
          else if decide (es_profile st = Corporate ∧ purpose ≠ SemanticJudge)
          then Some (Err (InvalidEgress "the corporate profile is local-only: only a semantic-judge authorization can be recorded"))
          else if bool_decide (es_profile st = Corporate) && no_authorization_ref auth_ref
          then Some (Err (InvalidEgress "a corporate semantic-judge authorization needs --authorization-ref"))
          else if decide (classes = ∅)
          then Some (Err (InvalidEgress "at least one data class is required"))
          else if bool_decide ((purpose = EvidenceBatchUpload ∨ purpose = AuditCheckpoint) ∧
                               ¬ set_Forall (λ c, is_uploadable_class c = true) classes)
          then Some (Err (InvalidEgress "only metadata classes (evidence_metadata, finding_verdicts, capability_declarations) may be uploaded"))
          else if bool_decide (set_Exists (λ c, is_unrecognized_class c = true) classes)
          then Some (Err (InvalidEgress "unknown data class"))
          else if decide (expires_in_days ≤ 0)%Z
          then Some (Err (InvalidEgress "consent must expire in the future"))
          else
            let! expires := add_days now expires_in_days in
            Some (Ok (mkConsentRow id (purpose_as_str purpose) (canonical dest)
                        (strings_to_json (class_str <$> class_iter classes)) (to_rfc3339 now)
                        (to_rfc3339 expires) None None (es_generation st) auth_ref))
      end
  end.

(** The insert, and its audit event. *)
Definition grant_insert (sql sql1 : Sqlite) (db : EgressDb) (row : ConsentRow)
    (source event_id : string) (now : Z) : result StoreError string * EgressDb :=
  match sql with
  | Commits =>
      if decide (cr_id row ∈ (cr_id <$> t_egress_consents db)) then (Err StoreDb, db)
      else
        let db1 :=
          mkEgressDb (t_egress_profile db) (t_egress_consents db ++ [row])
            (t_egress_allowlist db) (t_egress_profile_log db) (t_ledger db) in
        let '(res, db2) :=
          audit_egress sql1 db1 EgressConsentGranted ("consent:" +:+ cr_id row) source
            event_id now in
        (let? u := res in Ok (cr_id row), db2)
  | _ => (Err StoreDb, db)
  end.

(** Both halves, with nothing in between. *)
Definition grant_egress_consent (sql sql1 : Sqlite) (db : EgressDb) (purpose : Purpose)
    (destination : string) (classes : gset EgressContentClass) (expires_in_days : Z)
    (auth_ref : option string) (source id event_id : string) (now : Z) :
    option (result StoreError string * EgressDb) :=
  let! checked := grant_check db purpose destination classes expires_in_days auth_ref id now in
  match checked with
  | Err e => Some (Err e, db)
  | Ok row => Some (grant_insert sql sql1 db row source event_id now)
  end.

(** ** Revoking a consent *)

Definition revoke_egress_consent (sql sql1 : Sqlite) (db : EgressDb) (id reason source : string)
    (event_id : string) (now : Z) : result StoreError bool * EgressDb :=
  match sql with
  | Commits =>
      let P := λ r, bool_decide (cr_id r = id) in
      let db1 :=
        mkEgressDb (t_egress_profile db)
          (revoke_where P (to_rfc3339 now) reason (t_egress_consents db))
          (t_egress_allowlist db) (t_egress_profile_log db) (t_ledger db) in
      if decide (0 < rows_affected P (t_egress_consents db))
      then
        let '(res, db2) :=
          audit_egress sql1 db1 EgressConsentRevoked ("consent:" +:+ id) source event_id now in
        (let? u := res in Ok true, db2)
      else (Ok false, db1)
  | _ => (Err StoreDb, db)
  end.

(** ** The allowlist *)

Definition add_egress_allowlist (sql sql1 : Sqlite) (db : EgressDb) (purpose : Purpose)
    (destination source id event_id : string) (now : Z) : result StoreError string * EgressDb :=
  if decide (purpose = UploaderSpoolStream)
  then (Err (InvalidEgress "the uploader stream purpose is not available in v0.0.9"), db)
  else
    match destination_parse destination, sql with
    | Err d, _ => (Err (InvalidEgress (denial_code d)), db)
    | Ok dest, Commits =>
        if decide (id ∈ (ar_id <$> t_egress_allowlist db)) then (Err StoreDb, db)
        else
          let db1 :=
            mkEgressDb (t_egress_profile db) (t_egress_consents db)
              (t_egress_allowlist db ++
                 [mkAllowRow id (purpose_as_str purpose) (canonical dest) (to_rfc3339 now) None])
              (t_egress_profile_log db) (t_ledger db) in
          let '(res, db2) :=
            audit_egress sql1 db1 EgressAllowlistChanged ("add:" +:+ id) source event_id now in
          (let? u := res in Ok id, db2)
    | Ok _, _ => (Err StoreDb, db)
    end.

Definition remove_egress_allowlist (sql sql1 : Sqlite) (db : EgressDb) (id source : string)
    (event_id : string) (now : Z) : result StoreError bool * EgressDb :=
  match sql with
  | Commits =>
      let live r := bool_decide (ar_id r = id ∧ ar_removed_at r = None) in
      let db1 :=
        mkEgressDb (t_egress_profile db) (t_egress_consents db)
          ((λ r, if live r
                 then mkAllowRow (ar_id r) (ar_purpose r) (ar_destination r) (ar_added_at r)
                        (Some (to_rfc3339 now))
                 else r) <$> t_egress_allowlist db)
          (t_egress_profile_log db) (t_ledger db) in
      if existsb live (t_egress_allowlist db)
      then
        let '(res, db2) :=
          audit_egress sql1 db1 EgressAllowlistChanged ("remove:" +:+ id) source event_id now in
        (let? u := res in Ok true, db2)
      else (Ok false, db1)
  | _ => (Err StoreDb, db)
  end.

(** The destinations [write_egress_projection] lists as authorized. *)
Definition projection_authorized (st : EgressState) : list string :=
  if decide (es_profile st = Personal)
  then con_destination <$> filter (λ c, con_purpose c = UploaderSpoolStream ∧
         con_revoked_at c = None ∧ profile_generation c = es_generation st) (consents st)
  else [].
End store.
