(* ===== verification/EgressSpec.v ===== *)
(** * What an egress permit certifies

    The theorems on [Egress] and [EgressStore]: exactly when evidence may
    leave the machine, what a permit implies for every purpose, and that a
    consent is only ever used under the profile it was granted under, however
    grants, revocations and profile changes interleave. *)

From S2P Require Import Prelude.
From S2P Require Import Types.
From S2P Require Import Text.
From S2P Require Import PolicyContent.
From S2P Require Import AuditEvent.
From S2P Require Import AuditLedger.
From S2P Require Import Egress.
From S2P Require Import EgressStore.

Open Scope fornax_scope.

Section decision_spec.
Context `{Chrono, UrlParser}.
Implicit Types (st : EgressState) (req : EgressRequest) (d : Destination) (c : Consent).

(** A consent that authorizes the request. *)
Definition usable_consent st req c : Prop :=
  con_revoked_at c = None ∧ profile_generation c = es_generation st ∧
  is_before (rq_now req) (con_expires_at c) = true ∧
  set_Forall (λ class, class_str class ∈ data_classes c) (rq_classes req).
Definition live_consent st req d c : Prop :=
  c ∈ consents st ∧ con_purpose c = rq_purpose req ∧
  stored_covers (con_destination c) d = true ∧ usable_consent st req c.

Definition allowlisted st (purpose : Purpose) d : Prop :=
  ∃ e, e ∈ allowlist st ∧ removed e = false ∧ al_purpose e = purpose ∧
       stored_covers (al_destination e) d = true.

Definition all_recognized (classes : gset EgressContentClass) : Prop :=
  set_Forall (λ x, is_unrecognized_class x = false) classes.
Definition all_uploadable (classes : gset EgressContentClass) : Prop :=
  set_Forall (λ x, is_uploadable_class x = true) classes.

Lemma find_allowlist_iff st purpose d :
  is_Some (find_allowlist st purpose d) ↔ allowlisted st purpose d.
Proof.
  unfold find_allowlist, allowlisted. rewrite fmap_is_Some. split.
  - intros [[i e] (Hi & He & _)%list_find_Some]. exists e.
    apply andb_true_iff in He as [[Hr Hp]%andb_true_iff Hd].
    apply bool_decide_eq_true in Hp. apply negb_true_iff in Hr.
    split_and!; try done. by eapply list_elem_of_lookup_2.
  - intros (e & He & Hr & Hp & Hd). eapply list_find_elem_of; [done|].
    simpl. rewrite Hr, Hd, bool_decide_eq_true_2 by done. done.
Qed.

(** What a permit implies. *)
Definition permit_certified st req (p : EgressPermit) : Prop :=
  ∃ d, destination_parse (rq_url req) = Ok d ∧
    authorizes p (rq_purpose req) (rq_url req) = true ∧
    rq_purpose req ≠ UploaderSpoolStream ∧
    ((rq_purpose req = SemanticJudge ∧ is_loopback_host (d_host d) = true ∧
      pm_consent_id p = None) ∨
     (all_recognized (rq_classes req) ∧ allowlisted st (rq_purpose req) d ∧
      ((rq_purpose req = PolicyFetch ∧ pm_consent_id p = None) ∨
       ∃ c, live_consent st req d c ∧ pm_consent_id p = Some (con_id c) ∧
         (ships_evidence (rq_purpose req) = true →
            es_profile st = Personal ∧ legacy_cloud_sync_gate_open req = true ∧
            all_uploadable (rq_classes req)) ∧
         (es_profile st = Corporate →
            rq_purpose req = SemanticJudge ∧ no_authorization_ref (authorization_ref c) = false) ∧
         es_profile st ≠ Unconfigured))).

Lemma recognized_not_exists classes :
  ¬ set_Exists (λ x, is_unrecognized_class x = true) classes → all_recognized classes.
Proof.
  intros Hn x Hx. destruct (is_unrecognized_class x) eqn:E; [|done].
  destruct Hn. by exists x.
Qed.

Lemma permit_authorizes purpose url d co :
  destination_parse url = Ok d → authorizes (permit purpose d co) purpose url = true.
Proof. unfold authorizes. intros ->. simpl. by rewrite !bool_decide_eq_true_2. Qed.

(** The first of the stored consents that authorizes the request. *)
Definition authorizing st req d c : Prop :=
  con_purpose c = rq_purpose req ∧ stored_covers (con_destination c) d = true ∧
  usable_consent st req c.
Definition first_such {A} (P : A → Prop) (l : list A) (x : A) : Prop :=
  P x ∧ ∃ before after, l = before ++ x :: after ∧ ∀ y, y ∈ before → ¬ P y.

Lemma first_such_here {A} (P : A → Prop) l x y : P x → first_such P (x :: l) y ↔ x = y.
Proof.
  intros Hx. split.
  - intros [_ ([|z before] & after & Heq & Hno)]; simplify_eq/=; [done|].
    by destruct (Hno z ltac:(left)).
  - intros ->. split; [done|]. exists [], l. split; [done|]. by intros ? ?%elem_of_nil.
Qed.
Lemma first_such_later {A} (P : A → Prop) l x y :
  ¬ P x → first_such P (x :: l) y ↔ first_such P l y.
Proof.
  intros Hx. split; intros [Hy (before & after & Heq & Hno)]; (split; [done|]).
  - destruct before as [|z before]; simplify_eq/=; [done|]. exists before, after. split; [done|].
    intros u Hu. apply Hno. by right.
  - exists (x :: before), after. split; [by rewrite Heq|].
    intros u [->|Hu]%elem_of_cons; [done|by apply Hno].
Qed.

Lemma consent_loop_cons st req best c cs :
  usable_consent st req c ∧ consent_loop st req best (c :: cs) = Ok c ∨
  ¬ usable_consent st req c ∧
  ∃ best', consent_loop st req best (c :: cs) = consent_loop st req best' cs.
Proof.
  unfold usable_consent. simpl. case_bool_decide as Hr.
  { right. split; [|eauto]. intros (Hn & _). rewrite Hn in Hr. by destruct Hr. }
  case_decide as Hg; [right; split; [naive_solver|eauto]|].
  destruct (is_before _ _) eqn:Hb; simpl; [|right; split; [naive_solver|eauto]].
  unfold covers_classes. case_bool_decide as Hc; simpl; [|right; split; [naive_solver|eauto]].
  left. split_and!; try done. by apply eq_None_not_Some.
Qed.

Lemma find_consent_first st req d c :
  find_consent st req d = Ok c ↔ first_such (authorizing st req d) (consents st) c.
Proof.
  unfold find_consent. generalize NoConsent. generalize (consents st). intros cs.
  induction cs as [|c0 cs IH]; intros best.
  { split; [done|]. by intros [_ ([] & after & Heq & _)]. }
  rewrite filter_cons. case_decide as HP.
  - destruct (consent_loop_cons st req best c0
       (filter (λ c, con_purpose c = rq_purpose req ∧ stored_covers (con_destination c) d = true) cs))
       as [[Hu ->]|[Hu [best' ->]]].
    + rewrite first_such_here by (split; [apply HP|split; [apply HP|done]]).
      split; [by intros [= ->]|by intros ->].
    + rewrite first_such_later by (unfold authorizing; naive_solver). apply IH.
  - rewrite first_such_later by (unfold authorizing; naive_solver). apply IH.
Qed.

(** When a request is permitted, and on which consent: a judge on loopback on
    none; anything else only for recognized classes and an allowlisted
    destination, a policy fetch on no consent, and the rest on the first consent
    that authorizes it, under the personal profile with the kill switch open and
    every class uploadable if it ships evidence, under the corporate one only
    what ships none, with an authorization reference. *)
Definition may_egress st req d (co : option Consent) : Prop :=
  let judge_on_loopback :=
    rq_purpose req = SemanticJudge ∧ is_loopback_host (d_host d) = true in
  rq_purpose req ≠ UploaderSpoolStream ∧
  (judge_on_loopback ∧ co = None ∨
   ¬ judge_on_loopback ∧ all_recognized (rq_classes req) ∧ allowlisted st (rq_purpose req) d ∧
   (rq_purpose req = PolicyFetch ∧ co = None ∨
    rq_purpose req ≠ PolicyFetch ∧
    ∃ c, co = Some c ∧ first_such (authorizing st req d) (consents st) c ∧
      (es_profile st = Personal ∧
       (ships_evidence (rq_purpose req) = true →
          legacy_cloud_sync_gate_open req = true ∧ all_uploadable (rq_classes req)) ∨
       es_profile st = Corporate ∧ ships_evidence (rq_purpose req) = false ∧
       no_authorization_ref (authorization_ref c) = false))).

Lemma decide_sound st req p :
  egress_decide st req = Ok p →
  ∃ d co, destination_parse (rq_url req) = Ok d ∧ p = permit (rq_purpose req) d co ∧
    may_egress st req d co.
Proof.
  unfold egress_decide. destruct (destination_parse (rq_url req)) as [d|]; [|done].
  simpl. case_decide as Hup; [done|]. case_decide as Hloop.
  { intros [= <-]. exists d, None. split_and!; [done..|]. split; [done|]. by left. }
  case_bool_decide as Hun; [done|]. apply recognized_not_exists in Hun.
  assert (∀ co, allowlisted st (rq_purpose req) d →
    (rq_purpose req = PolicyFetch ∧ co = None ∨
     rq_purpose req ≠ PolicyFetch ∧
     ∃ c, co = Some c ∧ find_consent st req d = Ok c ∧
       (es_profile st = Personal ∧
        (ships_evidence (rq_purpose req) = true →
           legacy_cloud_sync_gate_open req = true ∧ all_uploadable (rq_classes req)) ∨
        es_profile st = Corporate ∧ ships_evidence (rq_purpose req) = false ∧
        no_authorization_ref (authorization_ref c) = false)) →
    p = permit (rq_purpose req) d co →
    ∃ d' co, Ok (E := EgressDenial) d = Ok d' ∧ p = permit (rq_purpose req) d' co ∧
      may_egress st req d' co) as Hret.
  { intros co Hal Hco ->. exists d, co. split_and!; [done..|]. split; [done|]. right.
    split_and!; [done..|]. destruct Hco as [?|(? & c & ? & Hc%find_consent_first & ?)]; [by left|]. right. eauto. }
  destruct (find_allowlist st (rq_purpose req) d) as [e|] eqn:Eal.
  2:{ clear Hret. intros Hok. exfalso. repeat case_match; simplify_eq/=. }
  assert (allowlisted st (rq_purpose req) d) as Hal by (apply find_allowlist_iff; eauto).
  destruct (es_profile st) eqn:Epr.
  - case_decide; [|done]. intros [= <-]. apply (Hret None); [done|by left|done].
  - case_decide as Hpf; [intros [= <-]; apply (Hret None); [done|by left|done]|].
    destruct (ships_evidence _ && negb _) eqn:Egate; [done|].
    destruct (ships_evidence _ && bool_decide _) eqn:Ecl; [done|].
    destruct (find_consent st req d) as [c|] eqn:Ec; [|done]. intros [= <-].
    apply (Hret (Some c)); [done| |done]. right. split; [done|]. exists c. split_and!; [done..|].
    left. split; [done|]. intros Hs. rewrite Hs in Egate, Ecl. simpl in Egate, Ecl.
    apply negb_false_iff in Egate. apply bool_decide_eq_false in Ecl.
    split; [done|]. by apply dec_stable.
  - destruct (ships_evidence _) eqn:Eship; [done|].
    case_decide as Hpf; [intros [= <-]; apply (Hret None); [done|by left|done]|].
    destruct (find_consent st req d) as [c|] eqn:Ec; [|done]. simpl.
    destruct (no_authorization_ref _) eqn:Eref; [done|]. intros [= <-].
    apply (Hret (Some c)); [done| |done]. right. split; [done|]. exists c. split_and!; [done..|].
    by right.
Qed.

Lemma decide_complete st req d co :
  destination_parse (rq_url req) = Ok d → may_egress st req d co →
  egress_decide st req = Ok (permit (rq_purpose req) d co).
Proof.
  intros Hd [Hup Hcase]. unfold egress_decide. rewrite Hd. simpl. rewrite decide_False by done.
  destruct Hcase as [[Hloop ->]|(Hloop & Hrec & Hal & Hcase)]; [by rewrite decide_True|].
  rewrite decide_False by done. rewrite bool_decide_eq_false_2.
  2: { intros (x & Hx & Hxu). specialize (Hrec x Hx). simpl in *. congruence. }
  apply find_allowlist_iff in Hal as [e ->].
  destruct Hcase as [[Hpf ->]|(Hpf & c & -> & Hc%find_consent_first & Hpr)].
  { rewrite Hpf. by destruct (es_profile st). }
  destruct Hpr as [[-> Hs]|(-> & -> & Hr)]; rewrite decide_False by done; rewrite Hc; simpl;
    [|by rewrite Hr].
  destruct (ships_evidence (rq_purpose req)); [|done]. destruct Hs as [-> Hu]; [done|].
  simpl. rewrite bool_decide_eq_false_2; [done|]. intros Hn. by apply Hn.
Qed.

Lemma decide_exact st req p :
  egress_decide st req = Ok p ↔
  ∃ d co, destination_parse (rq_url req) = Ok d ∧ p = permit (rq_purpose req) d co ∧
    may_egress st req d co.
Proof.
  split; [apply decide_sound|]. intros (d & co & Hd & -> & Hm). by apply decide_complete.
Qed.

Lemma first_live st req d c :
  first_such (authorizing st req d) (consents st) c → live_consent st req d c.
Proof.
  intros [(Hp & Hd & Hu) (before & after & Heq & _)]. split_and!; try done.
  rewrite Heq. set_solver.
Qed.

Lemma decide_certified st req p :
  egress_decide st req = Ok p → permit_certified st req p.
Proof.
  intros (d & co & Hd & -> & Hup & Hcase)%decide_sound. exists d.
  split_and!; [done|by apply permit_authorizes|done|].
  destruct Hcase as [[[Hj Hl] ->]|(_ & Hrec & Hal & Hco)]; [by left|]. right.
  split_and!; [done..|]. destruct Hco as [[? ->]|(Hpf & c & -> & Hc%first_live & Hpr)]; [by left|].
  right. exists c. split_and!; [done|done|..].
  - intros Hs. destruct Hpr as [[? Hpr]|(_ & ? & _)]; [|congruence]. by destruct (Hpr Hs).
  - intros Hcorp. destruct Hpr as [[? _]|(_ & Hs & ?)]; [congruence|]. split; [|done].
    by destruct (rq_purpose req).
  - destruct Hpr as [[-> _]|[-> _]]; done.
Qed.

(** Evidence leaves the machine only under these conditions. *)
Definition may_ship st req d : Prop :=
  es_profile st = Personal ∧ legacy_cloud_sync_gate_open req = true ∧
  all_uploadable (rq_classes req) ∧ allowlisted st (rq_purpose req) d ∧
  ∃ c, live_consent st req d c.

End decision_spec.

(** ** The store under interleaving *)

Section store_spec.
Context `{Chrono, ChronoFmt, UrlParser, StringsJson, Sha256, AuditWire}.

(** The database, and the consents whose grant has been checked and not yet
    inserted. *)
Record EgressSys := mkEgressSys { sys_db : EgressDb; in_flight : list ConsentRow }.
Definition initial_sys : EgressSys := mkEgressSys empty_egress_db [].

Inductive egress_step : EgressSys → EgressSys → Prop :=
| step_profile db ps sql sql1 sql2 profile source confirm e1 e2 now :
    egress_step (mkEgressSys db ps)
      (mkEgressSys (set_egress_profile sql sql1 sql2 db profile source confirm e1 e2 now).2 ps)
| step_grant_check db ps purpose destination classes days auth_ref i now row :
    grant_check db purpose destination classes days auth_ref i now = Some (Ok row) →
    egress_step (mkEgressSys db ps) (mkEgressSys db (row :: ps))
| step_grant_insert db ps1 ps2 row sql sql1 source e now :
    egress_step (mkEgressSys db (ps1 ++ row :: ps2))
      (mkEgressSys (grant_insert sql sql1 db row source e now).2 (ps1 ++ ps2))
| step_revoke db ps sql sql1 i reason source e now :
    egress_step (mkEgressSys db ps)
      (mkEgressSys (revoke_egress_consent sql sql1 db i reason source e now).2 ps)
| step_allow db ps sql sql1 purpose destination source i e now :
    egress_step (mkEgressSys db ps)
      (mkEgressSys (add_egress_allowlist sql sql1 db purpose destination source i e now).2 ps)
| step_disallow db ps sql sql1 i source e now :
    egress_step (mkEgressSys db ps)
      (mkEgressSys (remove_egress_allowlist sql sql1 db i source e now).2 ps)
| step_ledger db ps l :
    egress_step (mkEgressSys db ps) (mkEgressSys (with_ledger db l) ps).

Definition generation_of (db : EgressDb) : Z :=
  default 0%Z (pr_generation <$> t_egress_profile db).

(** The part of the database the consents' validity depends on. *)
Definition core (db : EgressDb) : option ProfileRow * list ConsentRow * list (string * string * Z) :=
  (t_egress_profile db, t_egress_consents db, t_egress_profile_log db).

Lemma audit_egress_core sql db action target_id source e now res db' :
  audit_egress sql db action target_id source e now = (res, db') → core db' = core db.
Proof.
  unfold audit_egress. destruct (append_audit_event _ _ _ _) as [r l]. by intros [= _ <-].
Qed.

(** What each operation does to that part. *)
Lemma set_profile_core sql sql1 sql2 db profile source confirm e1 e2 now :
  let db' := (set_egress_profile sql sql1 sql2 db profile source confirm e1 e2 now).2 in
  core db' = core db ∨
  ∃ db1, profile_change db profile source confirm now = Ok db1 ∧ core db' = core db1.
Proof.
  simpl. unfold set_egress_profile.
  destruct sql, (profile_change _ _ _ _ _) as [db1|] eqn:Ep; try by left.
  right. exists db1. split; [done|].
  destruct (audit_egress sql1 _ _ _ _ _ _) as [res1 db2] eqn:Ea.
  apply audit_egress_core in Ea. destruct res1; [|done]. case_decide; [|done].
  destruct (audit_egress sql2 _ _ _ _ _ _) as [res2 db3] eqn:Ea2.
  apply audit_egress_core in Ea2. simpl. congruence.
Qed.

Lemma grant_insert_core sql sql1 db row source e now :
  let db' := (grant_insert sql sql1 db row source e now).2 in
  core db' = core db ∨
  core db' = (t_egress_profile db, t_egress_consents db ++ [row], t_egress_profile_log db).
Proof.
  simpl. unfold grant_insert. destruct sql; try by left. case_decide; [by left|]. right.
  destruct (audit_egress sql1 _ _ _ _ _ _) as [res1 db2] eqn:Ea. by apply audit_egress_core in Ea.
Qed.

Lemma revoke_core sql sql1 db i reason source e now :
  let db' := (revoke_egress_consent sql sql1 db i reason source e now).2 in
  core db' = core db ∨
  ∃ P at_, core db' = (t_egress_profile db, revoke_where P at_ reason (t_egress_consents db),
                       t_egress_profile_log db).
Proof.
  simpl. unfold revoke_egress_consent. destruct sql; try by left. right.
  eexists _, _. case_decide; [|done].
  destruct (audit_egress sql1 _ _ _ _ _ _) as [res1 db2] eqn:Ea. by apply audit_egress_core in Ea.
Qed.

Lemma allow_core sql sql1 db purpose destination source i e now :
  core (add_egress_allowlist sql sql1 db purpose destination source i e now).2 = core db.
Proof.
  unfold add_egress_allowlist. case_decide; [done|].
  destruct (destination_parse destination), sql; try done. case_decide; [done|].
  destruct (audit_egress sql1 _ _ _ _ _ _) as [res1 db2] eqn:Ea. by apply audit_egress_core in Ea.
Qed.
Lemma disallow_core sql sql1 db i source e now :
  core (remove_egress_allowlist sql sql1 db i source e now).2 = core db.
Proof.
  unfold remove_egress_allowlist. destruct sql; try done.
  case_match; [|done].
  destruct (audit_egress sql1 _ _ _ _ _ _) as [res1 db2] eqn:Ea. by apply audit_egress_core in Ea.
Qed.

(** ** The invariant *)

(** What the grant checked under the profile it read. *)
Definition granted_under (profile : Profile) (row : ConsentRow) : Prop :=
  ∃ purpose classes,
    cr_purpose row = purpose_as_str purpose ∧
    cr_data_classes row = strings_to_json (class_str <$> class_iter classes) ∧
    purpose ≠ UploaderSpoolStream ∧ purpose ≠ PolicyFetch ∧ profile ≠ Unconfigured ∧
    (profile = Corporate →
       purpose = SemanticJudge ∧ no_authorization_ref (cr_authorization_ref row) = false) ∧
    (ships_evidence purpose = true → all_uploadable classes).

Record egress_inv (s : EgressSys) (profile : Profile) : Prop := {
  inv_profile : read_profile (t_egress_profile (sys_db s)) = Ok (profile, generation_of (sys_db s));
  inv_log : generation_of (sys_db s) = Z.of_nat (length (t_egress_profile_log (sys_db s)));
  inv_rows : ∀ row, row ∈ t_egress_consents (sys_db s) ++ in_flight s →
    (cr_generation row ≤ generation_of (sys_db s))%Z ∧
    (cr_generation row = generation_of (sys_db s) → granted_under profile row);
}.

Lemma purpose_roundtrip purpose : purpose_parse (purpose_as_str purpose) = Some purpose.
Proof. by destruct purpose. Qed.
Lemma profile_roundtrip profile : profile_parse (profile_as_str profile) = Some profile.
Proof. by destruct profile. Qed.

Lemma grant_check_ok db purpose destination classes days auth_ref i now row :
  grant_check db purpose destination classes days auth_ref i now = Some (Ok row) →
  ∃ profile, read_profile (t_egress_profile db) = Ok (profile, cr_generation row) ∧
             granted_under profile row.
Proof.
  unfold grant_check, egress_state.
  destruct (read_profile _) as [[profile g]|] eqn:Ep; [|done].
  destruct (collect_results (consent_of_row <$> _)); [|done].
  destruct (collect_results (allow_of_row <$> _)); [|done].
  destruct (destination_parse destination) as [dest|]; [|done]. simpl.
  case_decide as Hup; [done|]. case_decide as Hpf; [done|]. case_decide as Hun; [done|].
  case_decide as Hco; [done|].
  destruct (bool_decide (profile = Corporate) && _) eqn:Href; [done|].
  destruct (decide (classes = ∅)); [done|]. destruct (bool_decide (_ ∧ _)) eqn:Hcl; [done|].
  apply bool_decide_eq_false in Hcl. destruct (bool_decide (set_Exists _ _)); [done|].
  destruct (decide (days ≤ 0)%Z); [done|]. destruct (add_days _ _); [|done]. intros [= <-]. simpl.
  exists profile. split; [done|]. exists purpose, classes. simpl. split_and!; [done..| |].
  - intros ->. rewrite bool_decide_eq_true_2 in Href by done. split; [|done].
    destruct (decide (purpose = SemanticJudge)); [done|]. by destruct Hco.
  - intros Hs x Hx. destruct (is_uploadable_class x) eqn:E; [done|]. exfalso. apply Hcl.
    split; [destruct purpose; try done; eauto|]. intros Hall. specialize (Hall x Hx).
    simpl in Hall. congruence.
Qed.

(** The invariant only looks at the core. *)
Lemma inv_core db db' ps profile :
  core db' = core db → egress_inv (mkEgressSys db ps) profile →
  egress_inv (mkEgressSys db' ps) profile.
Proof.
  intros [= Hp Hc Hl] [H1' H2' H3']. unfold generation_of in *. simpl in *.
  by constructor; unfold generation_of; simpl; rewrite ?Hp, ?Hc, ?Hl.
Qed.

Lemma granted_under_revoke profile now reason row :
  granted_under profile (revoke_row now reason row) ↔ granted_under profile row.
Proof. done. Qed.

(** Rows replaced by their revoked versions. *)
Lemma inv_revoke db db' ps profile P at_ reason :
  core db' = (t_egress_profile db, revoke_where P at_ reason (t_egress_consents db),
              t_egress_profile_log db) →
  egress_inv (mkEgressSys db ps) profile → egress_inv (mkEgressSys db' ps) profile.
Proof.
  intros [= Hp Hc Hl] [H1' H2' H3']. unfold generation_of in *. simpl in *.
  constructor; unfold generation_of; simpl; rewrite ?Hp, ?Hl, ?Hc; [done..|].
  intros row [Hr|Hr]%elem_of_app; [|apply H3', elem_of_app; by right].
  unfold revoke_where in Hr. apply list_elem_of_fmap in Hr as (row0 & -> & Hr).
  destruct (H3' row0) as [Hle Hg]; [apply elem_of_app; by left|]. by case_match.
Qed.

(** Raising the generation above every row's. *)
Lemma profile_change_ok db profile source confirm now db1 :
  profile_change db profile source confirm now = Ok db1 →
  ∃ p0, read_profile (t_egress_profile db) = Ok (p0, generation_of db) ∧
    t_egress_profile db1 =
      Some (mkProfileRow (profile_as_str profile) (wrapping_i64 (generation_of db + 1))
              (to_rfc3339 now) source) ∧
    length (t_egress_profile_log db1) = S (length (t_egress_profile_log db)) ∧
    ∀ row, row ∈ t_egress_consents db1 →
      ∃ row0, row0 ∈ t_egress_consents db ∧ cr_generation row0 = cr_generation row.
Proof.
  unfold profile_change, read_profile, generation_of.
  destruct (t_egress_profile db) as [r|]; simpl.
  - destruct (profile_parse (pr_profile r)) as [p0|]; [|done]. simpl.
    destruct (bool_decide _ && _); [done|]. intros [= <-]. exists p0. simpl.
    rewrite length_app. split_and!; [done..|simpl; lia|]. intros row Hr.
    case_decide; [|eauto]. apply list_elem_of_fmap in Hr as (row0 & -> & Hr).
    exists row0. split; [done|]. by case_match.
  - intros [= <-]. exists Unconfigured. simpl.
    rewrite length_app. split_and!; [done..|simpl; lia|]. intros row Hr.
    case_decide; [|eauto]. apply list_elem_of_fmap in Hr as (row0 & -> & Hr).
    exists row0. split; [done|]. by case_match.
Qed.

Definition log_length (s : EgressSys) : nat := length (t_egress_profile_log (sys_db s)).

(** A profile that was read for some generation is that of the invariant. *)
Lemma egress_step_inv s s' profile :
  egress_step s s' → egress_inv s profile → (Z.of_nat (log_length s') ≤ i64_max)%Z →
  ∃ profile', egress_inv s' profile'.
Proof.
  intros Hs Hinv Hlen. destruct Hs as [db ps sql sql1 sql2 prof source confirm e1 e2 now
    |db ps purpose destination classes days auth_ref i now row Hg
    |db ps1 ps2 row sql sql1 source e now|db ps sql sql1 i reason source e now
    |db ps sql sql1 purpose destination source i e now|db ps sql sql1 i source e now|db ps l].
  - destruct (set_profile_core sql sql1 sql2 db prof source confirm e1 e2 now)
      as [Hc|(db1 & Hp & Hc)]; [exists profile; by eapply inv_core|].
    exists prof. eapply inv_core; [done|]. clear -Hp Hc Hinv Hlen.
    apply profile_change_ok in Hp as (p0 & Hr & Hrow & Hlog & Hcons).
    pose proof (inv_log _ _ Hinv) as Hg. simpl in Hg.
    assert (log_length (mkEgressSys db1 ps) = S (length (t_egress_profile_log db))) as Hll by done.
    unfold log_length in Hlen. injection Hc as _ _ Hl. simpl in Hlen. rewrite Hl, Hlog in Hlen.
    rewrite wrapping_i64_small in Hrow by lia.
    assert (generation_of db1 = (generation_of db + 1)%Z) as Hg1.
    { unfold generation_of at 1. by rewrite Hrow. }
    constructor; simpl.
    + rewrite Hg1, Hrow. simpl. by rewrite profile_roundtrip.
    + rewrite Hg1, Hlog, Hg. lia.
    + intros row Hrow'. rewrite Hg1.
      assert (cr_generation row ≤ generation_of db)%Z; [|split; lia].
      apply elem_of_app in Hrow' as [(row0 & Hr0 & <-)%Hcons|Hps];
        apply (inv_rows _ _ Hinv); simpl; apply elem_of_app; auto.
  - exists profile. apply grant_check_ok in Hg as (p0 & Hp & Hgu).
    destruct Hinv as [H1' H2' H3']. simpl in *. rewrite Hp in H1'. injection H1' as -> Hgen.
    constructor; simpl; [by rewrite Hp, Hgen|done|].
    intros row' [Hr|Hr]%elem_of_app; [apply H3', elem_of_app; by left|].
    apply elem_of_cons in Hr as [->|Hr]; [split; [lia|done]|apply H3', elem_of_app; by right].
  - exists profile. destruct (grant_insert_core sql sql1 db row source e now) as [Hc|Hc].
    + eapply inv_core; [done|]. destruct Hinv as [H1' H2' H3']. constructor; [done..|].
      simpl in *. intros row' Hr. apply H3'. revert Hr. rewrite !elem_of_app, elem_of_cons. tauto.
    + injection Hc as Hp Hcons Hl. destruct Hinv as [H1' H2' H3']. unfold generation_of in *.
      simpl in *. constructor; unfold generation_of; simpl; rewrite ?Hp, ?Hl, ?Hcons; [done..|].
      intros row' Hr. apply H3'. revert Hr.
      rewrite !elem_of_app, !elem_of_cons, elem_of_nil. tauto.
  - exists profile. destruct (revoke_core sql sql1 db i reason source e now) as [Hc|(P & at_ & Hc)];
      [by eapply inv_core|by eapply inv_revoke].
  - exists profile. eapply inv_core; [apply allow_core|done].
  - exists profile. eapply inv_core; [apply disallow_core|done].
  - exists profile. by apply (inv_core db).
Qed.

Lemma egress_step_log s s' :
  egress_step s s' →
  log_length s ≤ log_length s' ∧
  (t_egress_profile_log (sys_db s') ≠ t_egress_profile_log (sys_db s) →
   log_length s < log_length s').
Proof.
  assert (∀ db db' ps ps', core db' = core db →
    log_length (mkEgressSys db ps) ≤ log_length (mkEgressSys db' ps') ∧
    (t_egress_profile_log db' ≠ t_egress_profile_log db →
     log_length (mkEgressSys db ps) < log_length (mkEgressSys db' ps'))) as Hsame.
  { unfold log_length, core. intros db db' ps ps' [= _ _ Hl]. simpl. rewrite Hl. split; [lia|done]. }
  destruct 1 as [db ps sql sql1 sql2 prof source confirm e1 e2 now
    |db ps purpose destination classes days auth_ref i now row Hg
    |db ps1 ps2 row sql sql1 source e now|db ps sql sql1 i reason source e now
    |db ps sql sql1 purpose destination source i e now|db ps sql sql1 i source e now|db ps l].
  - destruct (set_profile_core sql sql1 sql2 db prof source confirm e1 e2 now)
      as [Hc|(db1 & Hp & Hc)]; [by apply Hsame|].
    apply profile_change_ok in Hp as (p0 & _ & _ & Hlog & _). injection Hc as _ _ Hl.
    unfold log_length. simpl. rewrite Hl, Hlog. lia.
  - by apply Hsame.
  - destruct (grant_insert_core sql sql1 db row source e now) as [Hc|Hc]; [by apply Hsame|].
    injection Hc as _ _ Hl. unfold log_length. simpl. rewrite Hl. split; [lia|done].
  - destruct (revoke_core sql sql1 db i reason source e now) as [Hc|(P & at_ & Hc)];
      [by apply Hsame|]. injection Hc as _ _ Hl. unfold log_length. simpl. rewrite Hl.
    split; [lia|done].
  - apply Hsame, allow_core.
  - apply Hsame, disallow_core.
  - by apply Hsame.
Qed.

Lemma initial_inv : egress_inv initial_sys Unconfigured.
Proof. constructor; [done..|]. intros row ?%elem_of_nil. done. Qed.

Lemma egress_steps_log s s' : rtc egress_step s s' → log_length s ≤ log_length s'.
Proof.
  induction 1 as [|s s1 s' Hs _ IH]; [done|]. apply egress_step_log in Hs as [Hs _]. lia.
Qed.
Lemma egress_steps_log_changed s s' :
  rtc egress_step s s' →
  t_egress_profile_log (sys_db s') ≠ t_egress_profile_log (sys_db s) →
  log_length s < log_length s'.
Proof.
  induction 1 as [|s s1 s' Hs Hr IH]; [done|]. intros Hne.
  pose proof (egress_steps_log _ _ Hr). apply egress_step_log in Hs as [Hle Hlt].
  destruct (decide (t_egress_profile_log (sys_db s1) = t_egress_profile_log (sys_db s))) as [Heq|];
    [rewrite <-Heq in Hne; specialize (IH Hne); lia|]. specialize (Hlt ltac:(done)). lia.
Qed.

Lemma egress_steps_inv s s' profile :
  rtc egress_step s s' → egress_inv s profile → (Z.of_nat (log_length s') ≤ i64_max)%Z →
  ∃ profile', egress_inv s' profile'.
Proof.
  intros Hr. revert profile. induction Hr as [|s s1 s' Hs Hr IH]; intros profile Hinv Hlen; [eauto|].
  pose proof (egress_steps_log _ _ Hr).
  destruct (egress_step_inv _ _ _ Hs Hinv) as [p1 Hinv1]; [lia|]. by apply (IH p1).
Qed.

(** A permit that names a consent names one of the current generation. *)
Lemma decide_egress_consent db purpose url classes gate now p i :
  decide_egress db purpose url classes gate now = Ok p → pm_consent_id p = Some i →
  ∃ row profile, row ∈ t_egress_consents db ∧ cr_id row = i ∧ cr_revoked_at row = None ∧
    read_profile (t_egress_profile db) = Ok (profile, cr_generation row) ∧
    cr_purpose row = purpose_as_str purpose.
Proof.
  unfold decide_egress, egress_state.
  destruct (read_profile _) as [[profile g]|] eqn:Ep; [|done].
  destruct (collect_results (consent_of_row <$> _)) as [cs|] eqn:Ec; [|done].
  destruct (collect_results (allow_of_row <$> _)) as [al|]; [|done]. simpl.
  intros Hd%decide_certified Hid. destruct Hd as (d & _ & _ & _ & [(_ & _ & Hn)|(_ & _ & Hd)]);
    [congruence|]. destruct Hd as [[_ Hn]|(c & (Hc & Hp & _ & Hr & Hg & _) & Hi & _)];
    [congruence|]. simpl in *. apply collect_results_Ok in Ec.
  destruct (Forall2_elem_of_r _ _ _ _ Ec Hc) as (row & Hrow & Heq). unfold consent_of_row in Heq.
  destruct (strings_from_json _); [|done]. destruct (purpose_parse _) as [p0|] eqn:Epp; [|done].
  simplify_eq/=. exists row, profile. split_and!; try done.
  unfold purpose_parse in Epp. by repeat case_decide; simplify_eq.
Qed.

(** ** Theorems *)

(** C39. The egress decision denies by default and is exact: a request is
    permitted exactly when its URL parses, its purpose is not the spool stream,
    and it is for a semantic judge on loopback, or its content classes are all
    recognized, its destination is allowlisted for its purpose and one of the
    following holds. It is a policy fetch, which needs no consent. Or the first
    of the stored consents for its purpose and destination that is not revoked,
    not expired, of the current profile generation and covering the classes
    stands behind it, and either the profile is personal and, if the purpose
    ships evidence, the kill switch is open and every class uploadable; or the
    profile is corporate, the purpose ships no evidence and the consent carries
    an authorization reference. The permit names that consent, and is for exactly
    the purpose and destination asked for. *)
Theorem egress_decision_exact (st : EgressState) (req : EgressRequest) (p : EgressPermit) :
  (egress_decide st req = Ok p ↔
   ∃ d co, destination_parse (rq_url req) = Ok d ∧ p = permit (rq_purpose req) d co ∧
     may_egress st req d co) ∧
  (egress_decide st req = Ok p → authorizes p (rq_purpose req) (rq_url req) = true).
Proof. split; [apply decide_exact|]. by intros (d & _ & ? & _)%decide_certified. Qed.

(** C40. Consents die with the profile they were granted under, in every
    interleaving of grants, revocations, allowlist and profile changes, also
    when a grant has been checked but not yet inserted: a permit of the store
    that rests on a consent rests on a live one whose grant was checked under
    the profile now in force, and if the profile was changed since an earlier
    state, then on none that existed or was in flight in that state. *)
Theorem consents_die_with_their_profile (s s2 : EgressSys) purpose url classes gate now p i :
  rtc egress_step initial_sys s → rtc egress_step s s2 →
  (Z.of_nat (log_length s2) ≤ i64_max)%Z →
  decide_egress (sys_db s2) purpose url classes gate now = Ok p → pm_consent_id p = Some i →
  ∃ row profile, row ∈ t_egress_consents (sys_db s2) ∧ cr_id row = i ∧
    cr_revoked_at row = None ∧ cr_purpose row = purpose_as_str purpose ∧
    read_profile (t_egress_profile (sys_db s2)) = Ok (profile, cr_generation row) ∧
    granted_under profile row ∧
    (t_egress_profile_log (sys_db s2) ≠ t_egress_profile_log (sys_db s) →
     ∀ old, old ∈ t_egress_consents (sys_db s) ++ in_flight s →
       (cr_generation old < cr_generation row)%Z).
Proof.
  intros Hr1 Hr2 Hlen Hd Hi. pose proof (egress_steps_log _ _ Hr2) as Hle.
  destruct (egress_steps_inv _ _ _ Hr1 initial_inv) as [p1 Hinv1]; [lia|].
  destruct (egress_steps_inv _ _ _ Hr2 Hinv1) as [p2 Hinv2]; [done|].
  destruct (decide_egress_consent _ _ _ _ _ _ _ _ Hd Hi) as (row & prof & Hrow & Hid & Hrev & Hp & Hpu).
  pose proof (inv_profile _ _ Hinv2) as Hp2. rewrite Hp in Hp2. injection Hp2 as -> Hgen.
  exists row, p2. split_and!; try done.
  - apply (inv_rows _ _ Hinv2 row); [apply elem_of_app; by left|done].
  - intros Hne old Hold. pose proof (egress_steps_log_changed _ _ Hr2 Hne).
    destruct (inv_rows _ _ Hinv1 old Hold) as [Hog _].
    pose proof (inv_log _ _ Hinv1). pose proof (inv_log _ _ Hinv2). unfold log_length in *. lia.
Qed.
End store_spec.
