(* ===== verification/AuditCheckpoint.v ===== *)
(** * Audit checkpoints

    [fornax-types/src/audit_checkpoint.rs] (the signed checkpoint and its
    verification), [fornax-store/src/audit_checkpoint.rs] (the receipts and
    their comparison with the ledger) and the submission cycle of
    [fornax-daemon/src/audit_checkpoint_submit.rs]. The [serde_json] parsers
    and [String::from_utf8] are parameters, and so is the remote witness: the
    cycle takes the body of its answer. *)

From S2P Require Import Prelude.
From S2P Require Import Types.
From S2P Require Import Text.
From S2P Require Import PolicyContent.
From S2P Require Import PolicyRevision.
From S2P Require Import PolicyBundle.
From S2P Require Import AuditEvent.
From S2P Require Import AuditLedger.
From S2P Require Import Egress.
From S2P Require Import EgressStore.

Open Scope fornax_scope.

(** ** Wire types *)

Definition AUDIT_CHECKPOINT_SCHEMA_VERSION : N := 1.
Definition SUPPORTED_CHECKPOINT_SCHEMA_VERSIONS : list N := [1%N].
Definition AUDIT_CHECKPOINT_SIGNING_DOMAIN : list N :=
  string_bytes "fornax-audit-checkpoint/v1" ++ [10%N].

Record LedgerHead := mkLedgerHead { ledger_seq : Z; entry_hash : string }.

Record DeviceReportedChainStatus := mkDeviceReportedChainStatus {
  status : string;
  first_bad_ledger_seq : option Z;
  divergence_kind : option string;
}.

Record AuditCheckpointRequest := mkAuditCheckpointRequest {
  acr_schema_version : N;
  acr_checkpoint_seq : N;
  acr_observed_at : string;
  acr_head : LedgerHead;
  acr_chain_status : DeviceReportedChainStatus;
}.

Record PrevCheckpoint := mkPrevCheckpoint { prev_checkpoint_seq : N; prev_head : LedgerHead }.

Record SignedAuditCheckpoint := mkSignedAuditCheckpoint {
  sac_schema_version : N;
  sac_payload_b64 : string;
  sac_signatures : list BundleSignature;
}.

Record AuditCheckpointPayload := mkAuditCheckpointPayload {
  acp_schema_version : N;
  acp_issuer : string;
  acp_device_id : string;
  acp_checkpoint_seq : N;
  acp_issued_at : string;
  acp_observed_at : string;
  acp_head : LedgerHead;
  acp_chain_status : DeviceReportedChainStatus;
  prev_checkpoint : option PrevCheckpoint;
}.

Record VerifiedAuditCheckpoint := mkVerifiedAuditCheckpoint {
  vac_payload : AuditCheckpointPayload;
  vac_verified_by : KeyId;
}.

Inductive CheckpointRejection :=
| CkMalformedEnvelope (detail : string)
| CkUnsupportedSchemaVersion (found : N) (supported : list N)
| CkSchemaVersionMismatch (envelope payload : N)
| CkMalformedPayloadEncoding (detail : string)
| CkPayloadTooLarge (found max : N)
| CkNoSignatures
| CkTooManySignatures (found max : nat)
| CkUnknownKeyId (offered : list KeyId)
| CkUnsupportedAlgorithm (k : KeyId) (a : SignatureAlgorithm)
| CkMalformedSignature (k : KeyId)
| CkKeyNotYetValid (k : KeyId) (not_before : string) (now : Z)
| CkKeyRetired (k : KeyId) (not_after : string) (now : Z)
| CkSignatureInvalid (ks : list KeyId)
| CkMalformedTimestamp (field value : string)
| CkMalformedPayload (detail : string)
| MissingRequiredKey (key : string)
| CkEmptyIssuer
| EmptyDeviceId
| MalformedEntryHash (value : string)
| LedgerSeqBelowOne (found : Z)
| CheckpointSeqBelowOne (found : N)
| PrevCheckpointPresenceInconsistent (checkpoint_seq : N)
| UnrecognizedChainStatus (found : string)
| ChainStatusInconsistent.

Definition checkpoint_rejection_of (e : EnvelopeVerificationError) : CheckpointRejection :=
  match e with
  | EMalformedPayloadEncoding d => CkMalformedPayloadEncoding d
  | EPayloadTooLarge f m => CkPayloadTooLarge f m
  | ENoSignatures => CkNoSignatures
  | ETooManySignatures f m => CkTooManySignatures f m
  | EUnknownKeyId o => CkUnknownKeyId o
  | EUnsupportedAlgorithm k a => CkUnsupportedAlgorithm k a
  | EMalformedSignature k => CkMalformedSignature k
  | EKeyNotYetValid k nb now => CkKeyNotYetValid k nb now
  | EKeyRetired k na now => CkKeyRetired k na now
  | ESignatureInvalid ks => CkSignatureInvalid ks
  | EMalformedKeyTimestamp f v => CkMalformedTimestamp f v
  end.

(** [serde_json::from_slice] at each type. *)
Class CheckpointWire := {
  parse_checkpoint_envelope : list N → result string SignedAuditCheckpoint;
  parse_value : list N → result string Value;
  parse_checkpoint_payload : list N → result string AuditCheckpointPayload;
}.

(** ** Verification *)

Definition is_lower_hex (b : N) : bool :=
  bool_decide (48 ≤ b ≤ 57)%N || bool_decide (97 ≤ b ≤ 102)%N.

(** [^sha256:\[0-9a-f\]{64}$]. *)
Definition entry_hash_is_well_formed (value : string) : bool :=
  match strip_prefix "sha256:" value with
  | None => false
  | Some hex => bool_decide (String.length hex = 64) && forallb is_lower_hex (string_bytes hex)
  end.

Definition object_get (fields : list (string * Value)) (key : string) : option Value :=
  (λ x, x.2.2) <$> list_find (λ kv, kv.1 = key) fields.

(** The first of [keys] the object does not have. *)
Definition missing_key (keys : list string) (fields : list (string * Value)) : option string :=
  snd <$> list_find (λ k, object_get fields k = None) keys.

Definition PAYLOAD_KEYS : list string :=
  ["checkpoint_schema_version"; "issuer"; "device_id"; "checkpoint_seq"; "issued_at";
   "observed_at"; "head"; "device_reported_chain_status"; "prev_checkpoint"].
Definition STATUS_KEYS : list string := ["status"; "first_bad_ledger_seq"; "divergence_kind"].

(** Step 6, the presence of the keys. *)
Definition check_keys (v : Value) : result CheckpointRejection unit :=
  match v with
  | JObject top =>
      match missing_key PAYLOAD_KEYS top with
      | Some key => Err (MissingRequiredKey key)
      | None =>
          match object_get top "device_reported_chain_status" with
          | Some (JObject st) =>
              match missing_key STATUS_KEYS st with
              | Some key => Err (MissingRequiredKey key)
              | None => Ok tt
              end
          | _ => Err (CkMalformedPayload "device_reported_chain_status is not a JSON object")
          end
      end
  | _ => Err (CkMalformedPayload "payload is not a JSON object")
  end.

Section checkpoint.
Context `{Chrono, PolicyWire, CheckpointWire}.

Definition check_timestamp (field value : string) : result CheckpointRejection unit :=
  match parse_from_rfc3339 value with
  | Some _ => Ok tt
  | None => Err (CkMalformedTimestamp field value)
  end.

Definition check_chain_status (s : DeviceReportedChainStatus) : result CheckpointRejection unit :=
  if decide (status s = "valid") then
    if bool_decide (is_Some (first_bad_ledger_seq s) ∨ is_Some (divergence_kind s))
    then Err ChainStatusInconsistent else Ok tt
  else if decide (status s = "diverged") then
    if bool_decide (first_bad_ledger_seq s = None ∨ divergence_kind s = None)
    then Err ChainStatusInconsistent else Ok tt
  else Err (UnrecognizedChainStatus (status s)).

(** Steps 7-9. *)
Definition check_checkpoint_payload (envelope_version : N) (p : AuditCheckpointPayload) :
    result CheckpointRejection unit :=
  if decide (acp_schema_version p ≠ envelope_version)
  then Err (CkSchemaVersionMismatch envelope_version (acp_schema_version p))
  else
    let? u := check_timestamp "issued_at" (acp_issued_at p) in
    let? u := check_timestamp "observed_at" (acp_observed_at p) in
    if is_blank (acp_issuer p) then Err CkEmptyIssuer
    else if is_blank (acp_device_id p) then Err EmptyDeviceId
    else if negb (entry_hash_is_well_formed (entry_hash (acp_head p)))
    then Err (MalformedEntryHash (entry_hash (acp_head p)))
    else if decide (ledger_seq (acp_head p) < 1)%Z
    then Err (LedgerSeqBelowOne (ledger_seq (acp_head p)))
    else if decide (acp_checkpoint_seq p < 1)%N
    then Err (CheckpointSeqBelowOne (acp_checkpoint_seq p))
    else if bool_decide (bool_decide (prev_checkpoint p = None) ≠
                         bool_decide (acp_checkpoint_seq p = 1%N))
    then Err (PrevCheckpointPresenceInconsistent (acp_checkpoint_seq p))
    else check_chain_status (acp_chain_status p).

Definition verify_audit_checkpoint (envelope_bytes : list N) (trusted : TrustedVerificationKeys)
    (now : Z) : result CheckpointRejection VerifiedAuditCheckpoint :=
  match parse_checkpoint_envelope envelope_bytes with
  | Err detail => Err (CkMalformedEnvelope detail)
  | Ok envelope =>
      if decide (sac_schema_version envelope ∉ SUPPORTED_CHECKPOINT_SCHEMA_VERSIONS)
      then Err (CkUnsupportedSchemaVersion (sac_schema_version envelope)
                  SUPPORTED_CHECKPOINT_SCHEMA_VERSIONS)
      else
        match verify_signed_envelope (sac_payload_b64 envelope) (sac_signatures envelope)
                AUDIT_CHECKPOINT_SIGNING_DOMAIN MAX_PAYLOAD_BYTES trusted now with
        | Err e => Err (checkpoint_rejection_of e)
        | Ok ve =>
            match parse_value (payload_bytes ve) with
            | Err detail => Err (CkMalformedPayload detail)
            | Ok v =>
                let? u := check_keys v in
                match parse_checkpoint_payload (payload_bytes ve) with
                | Err detail => Err (CkMalformedPayload detail)
                | Ok payload =>
                    let? u := check_checkpoint_payload (sac_schema_version envelope) payload in
                    Ok (mkVerifiedAuditCheckpoint payload (ve_verified_by ve))
                end
            end
        end
  end.
End checkpoint.

(** ** Receipts *)

(** [audit_checkpoints], keyed by [checkpoint_seq] as an [i64]. *)
Record AuditCheckpointRow := mkAuditCheckpointRow {
  ck_head_ledger_seq : Z;
  ck_head_entry_hash : string;
  ck_issued_at : string;
  ck_device_id : string;
  ck_envelope : string;
}.

Record AuditCheckpointReceipt := mkAuditCheckpointReceipt {
  rc_checkpoint_seq : N;
  rc_row : AuditCheckpointRow;
}.

Definition receipt_of (kv : Z * AuditCheckpointRow) : AuditCheckpointReceipt :=
  mkAuditCheckpointReceipt (as_u64 kv.1) kv.2.

Abbreviation ReceiptTable := (gmap Z AuditCheckpointRow).

Definition store_audit_checkpoint_receipt (t : ReceiptTable) (v : VerifiedAuditCheckpoint)
    (envelope_json : string) : ReceiptTable :=
  let p := vac_payload v in
  <[as_i64 (acp_checkpoint_seq p) :=
      mkAuditCheckpointRow (ledger_seq (acp_head p)) (entry_hash (acp_head p))
        (acp_issued_at p) (acp_device_id p) envelope_json]> t.

Definition audit_checkpoint_receipts (t : ReceiptTable) : list AuditCheckpointReceipt :=
  receipt_of <$> btree_iter t.
Definition first_audit_checkpoint_receipt (t : ReceiptTable) : option AuditCheckpointReceipt :=
  head (audit_checkpoint_receipts t).
Definition latest_audit_checkpoint_receipt (t : ReceiptTable) : option AuditCheckpointReceipt :=
  last (audit_checkpoint_receipts t).

Inductive CheckpointConsistencyVerdict :=
| Consistent
| AnchorMissing
| AnchorRewritten (attested found : string)
| DivergedAfterAnchor (first_bad : Z) (kind : DivergenceKind)
| AttestedPrefixCorrupted (first_bad : Z) (kind : DivergenceKind).

Definition evaluate_checkpoint_consistency (chain : ChainVerification) (head_ledger_seq : Z)
    (head_entry_hash : string) (row_entry_hash_at_head : option string) :
    CheckpointConsistencyVerdict :=
  match chain with
  | ChainDiverged first_bad_seq kind =>
      if decide (first_bad_seq ≤ head_ledger_seq)%Z
      then AttestedPrefixCorrupted first_bad_seq kind
      else DivergedAfterAnchor first_bad_seq kind
  | ChainValid =>
      match row_entry_hash_at_head with
      | None => AnchorMissing
      | Some found =>
          if decide (found ≠ head_entry_hash) then AnchorRewritten head_entry_hash found
          else Consistent
      end
  end.

Section receipts.
Context `{Sha256}.

(** The verdict on one receipt, and [evaluate_all_checkpoint_receipts]. *)
Definition evaluate_receipt (l : LedgerDb) (r : AuditCheckpointReceipt) :
    CheckpointConsistencyVerdict :=
  evaluate_checkpoint_consistency (verify_audit_chain l) (ck_head_ledger_seq (rc_row r))
    (ck_head_entry_hash (rc_row r))
    (row_entry_hash <$> t_audit_events l !! ck_head_ledger_seq (rc_row r)).
Definition evaluate_all_checkpoint_receipts (l : LedgerDb) (t : ReceiptTable) :
    list (AuditCheckpointReceipt * CheckpointConsistencyVerdict) :=
  (λ r, (r, evaluate_receipt l r)) <$> audit_checkpoint_receipts t.
End receipts.

(** ** The submission cycle *)

Definition divergence_kind_wire_str (kind : DivergenceKind) : string :=
  match kind with
  | HashMismatch => "hash_mismatch"
  | MissingSeq => "missing_ledger_seq"
  | TruncatedTail => "truncated_tail"
  | RelinkedPrevHash => "relinked_prev_hash"
  end.

Definition reported_status (chain : ChainVerification) : DeviceReportedChainStatus :=
  match chain with
  | ChainValid => mkDeviceReportedChainStatus "valid" None None
  | ChainDiverged first_bad kind =>
      mkDeviceReportedChainStatus "diverged" (Some first_bad)
        (Some (divergence_kind_wire_str kind))
  end.

Definition MAX_RESPONSE_BYTES : N := 64 * 1024.

(** What the cycle did: it sent nothing, or sent the request to the URL. *)
Inductive CycleEffect :=
| NothingSent
| Sent (request : AuditCheckpointRequest).

Section cycle.
Context `{Chrono, ChronoFmt, UrlParser, StringsJson, Sha256, AuditWire, PolicyWire, CheckpointWire}.
(** [String::from_utf8], and the format of [observed_at]. *)
Context (from_utf8 : list N → option string) (rfc3339_z : Z → string).

(** After the answer's body was read: verify it, compare it with what was
    sent and with the device's first receipt, and store it. [None] in
    [trusted] is a daemon without a trust store. *)
Definition accept_response (body : list N) (trusted : option TrustedVerificationKeys)
    (receipts : ReceiptTable) (tail : AuditLedgerEntry) (now : Z) : ReceiptTable :=
  match trusted with
  | None => receipts
  | Some trusted =>
      match verify_audit_checkpoint body trusted now with
      | Err _ => receipts
      | Ok verified =>
          let head := acp_head (vac_payload verified) in
          if decide (ledger_seq head ≠ le_seq tail ∨ entry_hash head ≠ le_entry_hash tail)
          then receipts
          else
            let mismatch :=
              match first_audit_checkpoint_receipt receipts with
              | Some anchor =>
                  bool_decide (ck_device_id (rc_row anchor) ≠ acp_device_id (vac_payload verified))
              | None => false
              end in
            if mismatch then receipts
            else
              match from_utf8 body with
              | None => receipts
              | Some envelope_json =>
                  store_audit_checkpoint_receipt receipts verified envelope_json
              end
      end
  end.

(** The three readings of the clock in a cycle: for the egress decision, for
    the request, and for the verification of the answer. *)
Record CycleClock := mkCycleClock { at_decision : Z; at_request : Z; at_answer : Z }.

(** [submit_one_cycle_with_gate]. [send] is the HTTP exchange: the body of a
    2xx answer, or [None]. *)
Definition submit_one_cycle_with_gate (db : EgressDb) (receipts : ReceiptTable) (url : string)
    (gate_open : bool) (trusted : option TrustedVerificationKeys)
    (send : AuditCheckpointRequest → option (list N)) (clock : CycleClock) :
    CycleEffect * ReceiptTable :=
  match decide_egress db AuditCheckpoint url {[EvidenceMetadata]} gate_open
          (at_decision clock) with
  | Err _ => (NothingSent, receipts)
  | Ok permit =>
      if negb (authorizes permit AuditCheckpoint url) then (NothingSent, receipts)
      else
        match audit_events (t_ledger db) with
        | Err _ => (NothingSent, receipts)
        | Ok events =>
            match last events with
            | None => (NothingSent, receipts)
            | Some tail =>
                let next_checkpoint_seq :=
                  match latest_audit_checkpoint_receipt receipts with
                  | Some latest => ((rc_checkpoint_seq latest + 1) mod (u64_max + 1))%N
                  | None => 1%N
                  end in
                let request :=
                  mkAuditCheckpointRequest AUDIT_CHECKPOINT_SCHEMA_VERSION next_checkpoint_seq
                    (rfc3339_z (at_request clock)) (mkLedgerHead (le_seq tail) (le_entry_hash tail))
                    (reported_status (verify_audit_chain (t_ledger db))) in
                match send request with
                | None => (Sent request, receipts)
                | Some body =>
                    if decide (MAX_RESPONSE_BYTES < N.of_nat (length body))%N
                    then (Sent request, receipts)
                    else (Sent request, accept_response body trusted receipts tail (at_answer clock))
                end
            end
        end
  end.
End cycle.
