(* ===== verification/AuditCheckpointSpec.v ===== *)
(** * What a checkpoint receipt certifies

    The theorems on [AuditCheckpoint]: what the submission cycle sends and
    under which permit, what a stored receipt went through, and that a
    receipt which is consistent with a later ledger fixes that ledger's
    history up to the attested head. *)

From S2P Require Import Prelude.
From S2P Require Import Types.
From S2P Require Import Text.
From S2P Require Import PolicyContent.
From S2P Require Import PolicyRevision.
From S2P Require Import PolicyBundle.
From S2P Require Import PolicyBundleSpec.
From S2P Require Import AuditEvent.
From S2P Require Import AuditLedger.
From S2P Require Import AuditLedgerSpec.
From S2P Require Import Egress.
From S2P Require Import EgressStore.
From S2P Require Import EgressSpec.
From S2P Require Import AuditCheckpoint.

Open Scope fornax_scope.

Section authentic.
Context `{Chrono, PolicyWire, CheckpointWire}.
Implicit Types (t : TrustedVerificationKeys) (now : Z).

Definition well_formed_status (s : DeviceReportedChainStatus) : Prop :=
  (status s = "valid" ∧ first_bad_ledger_seq s = None ∧ divergence_kind s = None) ∨
  (status s = "diverged" ∧ is_Some (first_bad_ledger_seq s) ∧ is_Some (divergence_kind s)).

Lemma check_chain_status_ok s : check_chain_status s = Ok tt ↔ well_formed_status s.
Proof.
  unfold check_chain_status, well_formed_status.
  destruct s as [st fb dk]; simpl. split.
  - repeat case_decide; repeat case_bool_decide; try done; intros _; [left|right];
      destruct fb, dk; split_and!; eauto; exfalso; naive_solver.
  - by intros [(-> & -> & ->)|(-> & [z ->] & [k ->])].
Qed.

(** What an accepted checkpoint's payload satisfies. *)
Definition well_formed_checkpoint (p : AuditCheckpointPayload) : Prop :=
  is_Some (parse_from_rfc3339 (acp_issued_at p)) ∧
  is_Some (parse_from_rfc3339 (acp_observed_at p)) ∧
  is_blank (acp_issuer p) = false ∧ is_blank (acp_device_id p) = false ∧
  entry_hash_is_well_formed (entry_hash (acp_head p)) = true ∧
  (1 ≤ ledger_seq (acp_head p))%Z ∧ (1 ≤ acp_checkpoint_seq p)%N ∧
  (prev_checkpoint p = None ↔ acp_checkpoint_seq p = 1%N) ∧
  well_formed_status (acp_chain_status p).

Lemma check_timestamp_ok field value :
  check_timestamp field value = Ok tt ↔ is_Some (parse_from_rfc3339 value).
Proof.
  unfold check_timestamp. by destruct (parse_from_rfc3339 value).
Qed.

Lemma check_checkpoint_payload_ok version p :
  check_checkpoint_payload version p = Ok tt →
  acp_schema_version p = version ∧ well_formed_checkpoint p.
Proof.
  unfold check_checkpoint_payload, well_formed_checkpoint. case_decide as Hv; [done|].
  destruct (check_timestamp "issued_at" _) as [[]|] eqn:E1; [|done].
  destruct (check_timestamp "observed_at" _) as [[]|] eqn:E2; [|done].
  apply check_timestamp_ok in E1, E2.
  destruct (is_blank (acp_issuer p)); [done|]. destruct (is_blank (acp_device_id p)); [done|].
  destruct (entry_hash_is_well_formed _); [|done]. simpl. case_decide; [done|].
  case_decide; [done|]. case_bool_decide as Hpc; [done|]. intros Hs%check_chain_status_ok.
  split_and!; try done; [lia|lia|..].
  split; intros Heq.
  - rewrite bool_decide_eq_true_2 in Hpc by done. symmetry in Hpc. by apply bool_decide_eq_true in Hpc.
  - rewrite (bool_decide_eq_true_2 (acp_checkpoint_seq p = 1%N)) in Hpc by done.
    by apply bool_decide_eq_true in Hpc.
Qed.

(** The bytes are an envelope of a trusted key's signature over exactly this
    payload, under the checkpoint domain and no other artifact's. *)
Definition certified_checkpoint (body : list N) t now (v : VerifiedAuditCheckpoint) : Prop :=
  well_formed_checkpoint (vac_payload v) ∧
  ∃ env bytes s,
    parse_checkpoint_envelope body = Ok env ∧
    sac_schema_version env ∈ SUPPORTED_CHECKPOINT_SCHEMA_VERSIONS ∧
    strict_base64_decode (sac_payload_b64 env) = Ok bytes ∧
    parse_checkpoint_payload bytes = Ok (vac_payload v) ∧
    s ∈ sac_signatures env ∧ vac_verified_by v = sig_key_id s ∧
    good_signature t now (AUDIT_CHECKPOINT_SIGNING_DOMAIN ++ bytes) s ∧
    ∀ q, AUDIT_CHECKPOINT_SIGNING_DOMAIN ++ bytes ≠ BUNDLE_SIGNING_DOMAIN ++ q ∧
         AUDIT_CHECKPOINT_SIGNING_DOMAIN ++ bytes ≠ REVOCATION_SIGNING_DOMAIN ++ q.

Lemma verify_audit_checkpoint_certified body t now v :
  verify_audit_checkpoint body t now = Ok v → certified_checkpoint body t now v.
Proof.
  unfold verify_audit_checkpoint.
  destruct (parse_checkpoint_envelope body) as [env|] eqn:Ee; [|done].
  case_decide as Hs; [done|].
  destruct (verify_signed_envelope _ _ _ _ _ _) as [ve|] eqn:Ev; [|done].
  destruct (parse_value (payload_bytes ve)) as [val|]; [|done].
  destruct (check_keys val) as [[]|]; [|done].
  destruct (parse_checkpoint_payload (payload_bytes ve)) as [p|] eqn:Ep; [|done].
  destruct (check_checkpoint_payload _ p) as [[]|] eqn:Ec; [|done]. intros [= <-].
  apply verify_signed_envelope_ok in Ev as (_ & Hd & _ & pre & s & post & Hsig & Hk & Hg & _).
  apply check_checkpoint_payload_ok in Ec as [_ Hw].
  split; [done|]. exists env, (payload_bytes ve), s. split_and!; try done.
  rewrite Hsig. apply elem_of_app. right. by constructor.
Qed.
End authentic.

Section cycle_spec.
Context `{Chrono, ChronoFmt, UrlParser, StringsJson, Sha256, AuditWire, PolicyWire, CheckpointWire}.
Context (from_utf8 : list N → option string) (rfc3339_z : Z → string).
Implicit Types (db : EgressDb) (t : ReceiptTable).

(** [tail] is the last row of the ledger. *)
Definition ledger_tail (l : LedgerDb) (tail : AuditLedgerEntry) : Prop :=
  ∃ row, t_audit_events l !! le_seq tail = Some row ∧
    row_entry_hash row = le_entry_hash tail ∧
    ∀ k, is_Some (t_audit_events l !! k) → (k ≤ le_seq tail)%Z.

Lemma audit_events_tail (l : LedgerDb) es tail :
  audit_events l = Ok es → last es = Some tail → ledger_tail l tail.
Proof.
  unfold audit_events. rewrite collect_results_Ok. intros Hf Hl.
  destruct (last (btree_iter (t_audit_events l))) as [[k row]|] eqn:El.
  2: { apply last_None in El. rewrite El in Hf. inversion Hf; subst. done. }
  assert (into_entry (k, row) = Ok tail) as Hin.
  { rewrite last_lookup in El. rewrite last_lookup in Hl. rewrite <-(Forall2_length _ _ _ Hf) in Hl.
    destruct (Forall2_lookup_l _ _ _ _ _ Hf El) as (e & He & Hie). congruence. }
  unfold into_entry in Hin. destruct (event_from_json _); [|done]. injection Hin as <-. simpl.
  exists row. split_and!; simpl; [by apply elem_of_btree_iter, last_Some_elem_of|done|].
  intros k' [row' Hk']. apply elem_of_btree_iter in Hk'.
  apply last_Some in El as [pre Hpre]. pose proof (btree_iter_sorted (t_audit_events l)) as Hs.
  rewrite Hpre in Hs, Hk'. apply elem_of_app in Hk' as [Hk'|Hk'].
  - apply (StronglySorted_app_1_elem_of _ pre [(k, row)] (k', row') (k, row) Hs Hk'). left.
  - apply list_elem_of_singleton in Hk'. simplify_eq. lia.
Qed.

(** What the cycle did, from the permit to the stored receipt. *)
Definition cycle_sound db t url gate (trusted : option TrustedVerificationKeys)
    (send : AuditCheckpointRequest → option (list N)) (clock : CycleClock)
    (eff : CycleEffect) t' : Prop :=
  match eff with
  | NothingSent => t' = t
  | Sent request =>
      (∃ p, decide_egress db AuditCheckpoint url {[EvidenceMetadata]} gate (at_decision clock)
              = Ok p) ∧
      ∃ tail, ledger_tail (t_ledger db) tail ∧
        acr_head request = mkLedgerHead (le_seq tail) (le_entry_hash tail) ∧
        (t' = t ∨
         ∃ keys v body envelope_json,
           trusted = Some keys ∧ send request = Some body ∧
           certified_checkpoint body keys (at_answer clock) v ∧
           acp_head (vac_payload v) = acr_head request ∧
           (∀ anchor, first_audit_checkpoint_receipt t = Some anchor →
              ck_device_id (rc_row anchor) = acp_device_id (vac_payload v)) ∧
           t' = store_audit_checkpoint_receipt t v envelope_json)
  end.

Lemma accept_response_cases body trusted t tail now :
  accept_response from_utf8 body trusted t tail now = t ∨
  ∃ keys v envelope_json,
    trusted = Some keys ∧ certified_checkpoint body keys now v ∧
    acp_head (vac_payload v) = mkLedgerHead (le_seq tail) (le_entry_hash tail) ∧
    (∀ anchor, first_audit_checkpoint_receipt t = Some anchor →
       ck_device_id (rc_row anchor) = acp_device_id (vac_payload v)) ∧
    accept_response from_utf8 body trusted t tail now =
      store_audit_checkpoint_receipt t v envelope_json.
Proof.
  unfold accept_response. destruct trusted as [keys|]; [|by left].
  destruct (verify_audit_checkpoint body keys now) as [v|] eqn:Ev; [|by left].
  case_decide as Hh; [by left|]. destruct (match _ with Some _ => _ | None => _ end) eqn:Em; [by left|].
  destruct (from_utf8 body) as [json|]; [|by left]. right. exists keys, v, json.
  split_and!; [done|by apply verify_audit_checkpoint_certified| | |done].
  - destruct (acp_head (vac_payload v)) as [sq eh]; simpl in *.
    destruct (decide (sq = le_seq tail)) as [->|]; [|destruct Hh; by left].
    destruct (decide (eh = le_entry_hash tail)) as [->|]; [done|destruct Hh; by right].
  - intros anchor Ha. rewrite Ha in Em. apply bool_decide_eq_false in Em. by apply dec_stable.
Qed.

Lemma cycle_is_sound db t url gate trusted send clock :
  let r := submit_one_cycle_with_gate from_utf8 rfc3339_z db t url gate trusted send clock in
  cycle_sound db t url gate trusted send clock r.1 r.2.
Proof.
  unfold submit_one_cycle_with_gate.
  destruct (decide_egress _ _ _ _ _ _) as [p|] eqn:Ed; [|done].
  destruct (negb _); [done|].
  destruct (audit_events (t_ledger db)) as [es|] eqn:Ee; [|done].
  destruct (last es) as [tail|] eqn:El; [|done].
  pose proof (audit_events_tail _ _ _ Ee El) as Ht. simpl.
  match goal with |- context [send ?r] => set (request := r) end.
  assert (acr_head request = mkLedgerHead (le_seq tail) (le_entry_hash tail)) as Hhead by done.
  destruct (send request) as [body|] eqn:Es; [case_decide|]; simpl;
    (split; [by exists p|]; exists tail; split_and!; [done|done|]); [by left| |by left].
  destruct (accept_response_cases body trusted t tail (at_answer clock))
    as [->|(keys & v & json & Hk & Hc & Hh & Ha & ->)]; [by left|right].
  exists keys, v, body, json. by split_and!.
Qed.

(** ** The receipts of one device *)

Definition one_device t : Prop :=
  ∀ k1 r1 k2 r2, t !! k1 = Some r1 → t !! k2 = Some r2 → ck_device_id r1 = ck_device_id r2.

Lemma first_receipt_Some t k r :
  t !! k = Some r → ∃ k0 r0, first_audit_checkpoint_receipt t = Some (receipt_of (k0, r0)) ∧
    t !! k0 = Some r0.
Proof.
  intros Hk%elem_of_btree_iter. unfold first_audit_checkpoint_receipt, audit_checkpoint_receipts.
  destruct (btree_iter t) as [|[k0 r0] rest] eqn:E; [by apply elem_of_nil in Hk|].
  exists k0, r0. split; [done|]. apply elem_of_btree_iter. rewrite E. left.
Qed.

Lemma store_receipt_one_device t v json :
  one_device t →
  (∀ anchor, first_audit_checkpoint_receipt t = Some anchor →
     ck_device_id (rc_row anchor) = acp_device_id (vac_payload v)) →
  one_device (store_audit_checkpoint_receipt t v json).
Proof.
  intros Ht Ha. assert (∀ k r, store_audit_checkpoint_receipt t v json !! k = Some r →
    ck_device_id r = acp_device_id (vac_payload v)) as Hall.
  { intros k r Hk. unfold store_audit_checkpoint_receipt in Hk.
    apply lookup_insert_Some in Hk as [[_ <-]|[_ Hk]]; [done|].
    destruct (first_receipt_Some _ _ _ Hk) as (k0 & r0 & Hf & Hk0).
    rewrite <-(Ha _ Hf). simpl. by eapply Ht. }
  intros k1 r1 k2 r2 Hk1 Hk2. by rewrite (Hall _ _ Hk1), (Hall _ _ Hk2).
Qed.

Inductive receipts_step t : ReceiptTable → Prop :=
| cycle_step db url gate trusted send clock :
    receipts_step t
      (submit_one_cycle_with_gate from_utf8 rfc3339_z db t url gate trusted send clock).2.

Lemma cycle_one_device db t url gate trusted send clock :
  one_device t →
  one_device (submit_one_cycle_with_gate from_utf8 rfc3339_z db t url gate trusted send clock).2.
Proof.
  intros Ht. pose proof (cycle_is_sound db t url gate trusted send clock) as Hs. simpl in Hs.
  destruct (submit_one_cycle_with_gate _ _ _ _ _ _ _ _ _) as [[|request] t']; simpl in *.
  - by rewrite Hs.
  - destruct Hs as (_ & tail & _ & _ & [->|(keys & v & body & json & _ & _ & _ & _ & Ha & ->)]);
      [done|]. by apply store_receipt_one_device.
Qed.

(** C13. The checkpoint cycle never leaks and never stores what was not
    attested: it sends nothing unless the egress decision permits a
    checkpoint to that URL; what it sends names the last row of the ledger;
    and it changes the receipts, if at all, by adding one whose bytes carry a
    trusted key's signature under the checkpoint domain, whose attested head
    is the head it sent and whose device is that of the receipts it already
    holds. Over any number of cycles all receipts are of one device. *)
Theorem checkpoint_cycles_sound t db url gate trusted send clock :
  rtc receipts_step ∅ t →
  let r := submit_one_cycle_with_gate from_utf8 rfc3339_z db t url gate trusted send clock in
  cycle_sound db t url gate trusted send clock r.1 r.2 ∧ one_device r.2.
Proof.
  intros Hr. split; [apply cycle_is_sound|]. apply cycle_one_device.
  assert (one_device ∅) as H0'; [intros k1 r1 k2 r2 Hk; by rewrite lookup_empty in Hk|].
  revert H0'. induction Hr as [|t1 t2 t3 Hs _ IH]; [done|]. intros H0'. apply IH.
  destruct Hs. by apply cycle_one_device.
Qed.

Context `{!Sha256Ok}.

(** C38. A consistent receipt fixes history. Take a receipt that a cycle newly
    stored while the ledger verified as valid (a ledger that does not verify gets
    receipts too); if a later ledger, however it was edited in between, is found
    consistent with that receipt, then the two ledgers agree on the previous
    hash, the entry hash and the payload at every position up to the attested
    head, or two byte strings with the same SHA-256 digest exist. The other
    columns (event id, recording time, export class) are not hashed, and not
    fixed. *)
Theorem consistent_receipt_fixes_history t db url gate trusted send clock k row (later : LedgerDb) :
  verify_audit_chain (t_ledger db) = ChainValid →
  (submit_one_cycle_with_gate from_utf8 rfc3339_z db t url gate trusted send clock).2 !! k
    = Some row → t !! k ≠ Some row →
  evaluate_receipt later (receipt_of (k, row)) = Consistent →
  (∀ j, (j ≤ ck_head_ledger_seq row)%Z →
     content <$> t_audit_events (t_ledger db) !! j = content <$> t_audit_events later !! j) ∨
  collision.
Proof.
  intros Hv Hk Hnew He. pose proof (cycle_is_sound db t url gate trusted send clock) as Hs.
  simpl in Hs. destruct (submit_one_cycle_with_gate _ _ _ _ _ _ _ _ _) as [[|request] t']; simpl in *.
  { congruence. }
  destruct Hs as (_ & tail & (r1 & Hr1 & Hh1 & _) & Hreq & [->|Hs]); [done|].
  destruct Hs as (keys & v & body & json & _ & _ & _ & Hhead & _ & ->).
  unfold store_audit_checkpoint_receipt in Hk.
  apply lookup_insert_Some in Hk as [[_ <-]|[_ Hk]]; [|done]. simpl in *.
  rewrite Hhead, Hreq. unfold evaluate_receipt in He. simpl in He. rewrite Hhead, Hreq in He.
  simpl in *. unfold evaluate_checkpoint_consistency in He.
  destruct (verify_audit_chain later) eqn:Hl; [|by case_decide].
  destruct (t_audit_events later !! le_seq tail) as [r2|] eqn:Hr2; simpl in He; [|done].
  case_decide as Heq; [done|].
  eapply histories_agree; [done..|]. congruence.
Qed.
End cycle_spec.
