(* ===== verification/AuditExamples.v ===== *)
(** * The audit ledger, egress and checkpoints on concrete inputs

    A small instance of the libraries these components rely on, and a run on
    it that witnesses their theorems: a device chooses the personal profile,
    allows and consents to checkpoints, passes through the corporate profile,
    consents again and submits a checkpoint. *)

From S2P Require Import Prelude.
From S2P Require Import Types.
From S2P Require Import Text.
From S2P Require Import PolicyContent.
From S2P Require Import PolicyRevision.
From S2P Require Import PolicyBundle.
From S2P Require Import PolicyBundleSpec.
From S2P Require Import AuditEvent.
From S2P Require Import AuditLedger.
From S2P Require Import AuditLedgerSpec.
From S2P Require Import Egress.
From S2P Require Import EgressStore.
From S2P Require Import EgressSpec.
From S2P Require Import AuditCheckpoint.
From S2P Require Import AuditCheckpointSpec.

Open Scope fornax_scope.

(** ** The libraries, concretely *)

(** A digest of 32 bytes: a checksum of the message, repeated. *)
#[local] Instance sample_sha : Sha256 := {
  sha256 m := replicate 32 (foldl (λ acc b, (31 * acc + b + 7) mod 251) 1 m)%N;
}.
#[local] Instance sample_sha_ok : Sha256Ok.
Proof.
  split; intros m; [apply length_replicate|]. apply Forall_replicate.
  destruct m as [|b m] using rev_ind; [done|]. rewrite foldl_snoc.
  eapply N.lt_trans; [apply N.mod_upper_bound|]; done.
Qed.

#[local] Instance sample_audit_wire : AuditWire := {
  event_to_json e := Ok (ae_event_id e);
  event_from_json s :=
    Ok (new_audit_event s "now" ActorSystem PermissionCheck AuditTargetUnrecognized Granted
          Metadata);
  export_class_tag _ := "metadata";
}.
#[local] Instance sample_fmt : ChronoFmt := {
  to_rfc3339 t := if decide (t ≤ 100)%Z then "now" else "later";
  add_days t d := Some (t + 1000 * d)%Z;
}.
#[local] Instance sample_chrono : Chrono := {
  parse_from_rfc3339 s :=
    if decide (s = "now") then Some 0%Z else if decide (s = "later") then Some 9%Z else None;
  num_seconds d := Z.quot d nanos_per_second;
}.
Definition sample_url : string := "https://a.test:443/v1".
#[local] Instance sample_url_parser : UrlParser := {
  url_parse s :=
    if decide (s = sample_url)
    then Some (mkUrl "https" "" None (Some "a.test") (Some 443%N) "/v1" None None) else None;
}.
#[local] Instance sample_strings : StringsJson := {
  strings_to_json l := String.concat "," l;
  strings_from_json s := Some [s];
}.

(** ** A run of the egress store *)

Definition profile_step (p : Profile) (s : EgressSys) : EgressSys :=
  mkEgressSys (set_egress_profile Commits Commits Commits (sys_db s) p "cli" true "p1" "p2" 5).2
    (in_flight s).
Definition allow_step (s : EgressSys) : EgressSys :=
  mkEgressSys
    (add_egress_allowlist Commits Commits (sys_db s) AuditCheckpoint sample_url "cli" "a" "e" 5).2
    (in_flight s).
Definition check_step (i : string) (s : EgressSys) : EgressSys :=
  match grant_check (sys_db s) AuditCheckpoint sample_url {[EvidenceMetadata]} 30 None i 5 with
  | Some (Ok row) => mkEgressSys (sys_db s) (row :: in_flight s)
  | _ => s
  end.
Definition insert_step (s : EgressSys) : EgressSys :=
  match in_flight s with
  | [] => s
  | row :: ps => mkEgressSys (grant_insert Commits Commits (sys_db s) row "cli" "g" 5).2 ps
  end.

Lemma check_step_ok i s : egress_step s (check_step i s) ∨ check_step i s = s.
Proof.
  unfold check_step. destruct (grant_check _ _ _ _ _ _ _ _) as [[row|]|] eqn:E; [|by right..].
  left. destruct s. by econstructor.
Qed.
Lemma insert_step_ok s : egress_step s (insert_step s) ∨ insert_step s = s.
Proof.
  destruct s as [db [|row ps]]; [by right|left].
  apply (step_grant_insert db [] ps row Commits Commits "cli" "g" 5).
Qed.
Lemma maybe_step s s' : egress_step s s' ∨ s' = s → rtc egress_step s s'.
Proof. intros [?| ->]; [by apply rtc_once|done]. Qed.
Lemma profile_step_ok p s : egress_step s (profile_step p s).
Proof. destruct s. apply step_profile. Qed.
Lemma allow_step_ok s : egress_step s (allow_step s).
Proof. destruct s. apply step_allow. Qed.

(** The first consent is granted, and a second one is checked but not
    inserted; then the profile changes twice and a third is granted. *)
Definition before : EgressSys :=
  check_step "c2" (insert_step (check_step "c1" (allow_step (profile_step Personal initial_sys)))).
Definition after : EgressSys :=
  insert_step (check_step "c3" (insert_step (profile_step Personal (profile_step Corporate before)))).

Lemma before_reachable : rtc egress_step initial_sys before.
Proof.
  unfold before. eapply rtc_l; [apply profile_step_ok|].
  eapply rtc_l; [apply allow_step_ok|].
  etrans; [apply maybe_step, (check_step_ok "c1")|].
  etrans; [apply maybe_step, insert_step_ok|].
  apply maybe_step, check_step_ok.
Qed.
Lemma after_reachable : rtc egress_step before after.
Proof.
  unfold after. eapply rtc_l; [apply (profile_step_ok Corporate)|].
  eapply rtc_l; [apply (profile_step_ok Personal)|].
  etrans; [apply maybe_step, insert_step_ok|].
  etrans; [apply maybe_step, (check_step_ok "c3")|].
  apply maybe_step, insert_step_ok.
Qed.

Definition sample_permit : EgressPermit :=
  mkEgressPermit AuditCheckpoint sample_url (Some "c3").

(** The consent in flight during the profile changes is inserted and stays
    unused; the permit rests on the third one. *)
Example after_consents :
  (λ r, (cr_id r, cr_generation r)) <$> t_egress_consents (sys_db after) =
    [("c1", 1%Z); ("c2", 1%Z); ("c3", 3%Z)] ∧
  decide_egress (sys_db after) AuditCheckpoint sample_url {[EvidenceMetadata]} true 5 =
    Ok sample_permit.
Proof. vm_compute. done. Qed.

Lemma consents_die_with_their_profile_witness :
  ∃ row profile, row ∈ t_egress_consents (sys_db after) ∧ cr_id row = "c3" ∧
    read_profile (t_egress_profile (sys_db after)) = Ok (profile, cr_generation row) ∧
    granted_under profile row.
Proof.
  destruct (consents_die_with_their_profile before after AuditCheckpoint sample_url
    {[EvidenceMetadata]} true 5 sample_permit "c3") as (row & profile & Hr & Hi & _ & _ & Hp & Hg & _).
  - apply before_reachable.
  - apply after_reachable.
  - vm_compute. done.
  - vm_compute. reflexivity.
  - reflexivity.
  - exists row, profile. exact (conj Hr (conj Hi (conj Hp Hg))).
Defined.

(** ** The ledger *)

Definition sample_event (i : string) : AuditEvent :=
  new_audit_event i "now" ActorSystem PermissionCheck AuditTargetUnrecognized Granted Metadata.
Definition appended (l : LedgerDb) (i : string) : LedgerDb :=
  (append_audit_event Commits l (sample_event i) 5).2.
Definition three_events : LedgerDb := appended (appended (appended empty_ledger "x") "y") "z".

Lemma appended_step l i : ledger_step l (appended l i).
Proof. apply step_append. Qed.

Lemma reachable_ledger_verifies_witness :
  verify_audit_chain three_events = ChainValid ∧ high_water_seq three_events = 3%Z.
Proof.
  destruct (reachable_ledger_verifies three_events) as [Hv (n & _ & -> & Hh)].
  - unfold three_events. eapply rtc_l; [apply (appended_step empty_ledger "x")|].
    eapply rtc_l; [apply (appended_step _ "y")|]. apply rtc_once, appended_step.
  - vm_compute. done.
  - exact (conj Hv Hh).
Defined.

(** The last row is deleted, and two more are appended. *)
Definition truncated : LedgerDb :=
  mkLedgerDb (delete 3%Z (t_audit_events three_events)) (t_ledger_high_water three_events).
Definition truncated_later : LedgerDb := appended (appended truncated "v") "w".

Lemma deleted_row_stays_detected_witness :
  ∃ j kind, verify_audit_chain truncated_later = ChainDiverged j kind ∧ (1 ≤ j ≤ 3)%Z.
Proof.
  apply (deleted_row_stays_detected truncated 3 truncated_later).
  - vm_compute. done.
  - vm_compute. done.
  - reflexivity.
  - unfold truncated_later. eapply rtc_l; [apply (appended_step _ "v")|].
    apply rtc_once, appended_step.
Defined.

(** The kinds of divergence, each by one edit of the table. *)
Definition edited (k : Z) (f : AuditEventRow → AuditEventRow) : LedgerDb :=
  mkLedgerDb (alter f k (t_audit_events three_events)) (t_ledger_high_water three_events).
Example divergences :
  verify_audit_chain truncated = ChainDiverged 3 TruncatedTail ∧
  verify_audit_chain truncated_later = ChainDiverged 3 MissingSeq ∧
  verify_audit_chain (edited 2 (λ r, mkAuditEventRow (row_event_id r) (row_recorded_at r)
    (row_prev_hash r) (row_entry_hash r) (row_export_class r) "edited"))
    = ChainDiverged 2 HashMismatch ∧
  verify_audit_chain (edited 2 (λ r, mkAuditEventRow (row_event_id r) (row_recorded_at r)
    genesis_prev_hash (row_entry_hash r) (row_export_class r) (row_payload r)))
    = ChainDiverged 2 RelinkedPrevHash.
Proof. vm_compute. done. Qed.

(** The columns beside the payload are not hashed: editing when a row was
    recorded, or its event id and export class, leaves the chain valid. *)
Example unhashed_columns :
  verify_audit_chain (edited 2 (λ r, mkAuditEventRow "other" "later"
    (row_prev_hash r) (row_entry_hash r) "raw_content" (row_payload r))) = ChainValid.
Proof. vm_compute. done. Qed.

(** ** A checkpoint *)

Definition sample_db : EgressDb := sys_db after.
Definition sample_head : LedgerHead :=
  match last (btree_iter (t_audit_events (t_ledger sample_db))) with
  | Some (k, r) => mkLedgerHead k (row_entry_hash r)
  | None => mkLedgerHead 0 ""
  end.
Definition repeat_x (n : nat) : string := bytes_string (replicate n 120%N).
Definition sample_key : TrustedVerificationKeys :=
  mkTrustedVerificationKeys 1 [mkTrustedKey "k1" Ed25519 (repeat_x 32) None None None].

#[local] Instance sample_policy_wire : PolicyWire := {
  strict_base64_decode s := Ok (string_bytes s);
  VerifyingKey := unit;
  verifying_key_from_bytes _ := Some tt;
  verify_strict _ _ _ := true;
  sha256_hex bytes := bytes_string bytes;
  parse_bundle_envelope _ := Err "unused";
  parse_bundle_payload _ := Err "unused";
  parse_revocation_envelope _ := Err "unused";
  parse_revocation_payload _ := Err "unused";
  parse_trust_store _ := Err "unused";
  report_text _ := "report";
}.
#[local] Instance sample_checkpoint_wire : CheckpointWire := {
  parse_checkpoint_envelope bytes :=
    Ok (mkSignedAuditCheckpoint 1 (bytes_string bytes)
          [mkBundleSignature "k1" Ed25519 (repeat_x 64)]);
  parse_value _ :=
    Ok (JObject (((λ k, (k, JNull)) <$> filter (λ k, k ≠ "device_reported_chain_status") PAYLOAD_KEYS)
          ++ [("device_reported_chain_status", JObject ((λ k, (k, JNull)) <$> STATUS_KEYS))]));
  parse_checkpoint_payload _ :=
    Ok (mkAuditCheckpointPayload 1 "cloud" "device" 1 "now" "now" sample_head
          (mkDeviceReportedChainStatus "valid" None None) None);
}.

Definition sample_utf8 (bytes : list N) : option string := Some (bytes_string bytes).
Definition sample_z (t : Z) : string := to_rfc3339 t.
Definition sample_send (_ : AuditCheckpointRequest) : option (list N) := Some [1%N; 2%N].
Definition sample_cycle : CycleEffect * ReceiptTable :=
  submit_one_cycle_with_gate sample_utf8 sample_z sample_db ∅ sample_url true (Some sample_key)
    sample_send (mkCycleClock 5 5 6).

(** The cycle sends the head and stores one receipt. *)
Example sample_cycle_stores :
  (λ kv, (kv.1, ck_device_id kv.2)) <$> btree_iter sample_cycle.2 = [(1%Z, "device")].
Proof. vm_compute. done. Qed.

Lemma checkpoint_cycles_sound_witness :
  cycle_sound sample_db ∅ sample_url true (Some sample_key) sample_send
    (mkCycleClock 5 5 6) sample_cycle.1 sample_cycle.2 ∧ one_device sample_cycle.2.
Proof.
  apply (checkpoint_cycles_sound sample_utf8 sample_z ∅ sample_db sample_url true
           (Some sample_key) sample_send (mkCycleClock 5 5 6)).
  apply rtc_refl.
Defined.

Definition sample_row : AuditCheckpointRow :=
  default (mkAuditCheckpointRow 0 "" "" "" "") (sample_cycle.2 !! 1%Z).
Definition later_ledger : LedgerDb := appended (t_ledger sample_db) "later".

Lemma consistent_receipt_fixes_history_witness :
  (∀ j, (j ≤ ck_head_ledger_seq sample_row)%Z →
     content <$> t_audit_events (t_ledger sample_db) !! j =
     content <$> t_audit_events later_ledger !! j) ∨ collision.
Proof.
  apply (consistent_receipt_fixes_history sample_utf8 sample_z ∅ sample_db sample_url true
           (Some sample_key) sample_send (mkCycleClock 5 5 6) 1 sample_row later_ledger).
  - vm_compute. reflexivity.
  - vm_compute. reflexivity.
  - rewrite lookup_empty. discriminate.
  - vm_compute. reflexivity.
Defined.

(** The answer's own sequence number is not compared with the one that was
    asked for: the second cycle asks for checkpoint 2, is answered with
    checkpoint 1 for the same head, and replaces the first receipt. *)
Example checkpoint_seq_not_echoed :
  let second :=
    submit_one_cycle_with_gate sample_utf8 sample_z sample_db sample_cycle.2 sample_url true
      (Some sample_key) sample_send (mkCycleClock 7 7 8) in
  match second.1 with Sent r => acr_checkpoint_seq r = 2%N | NothingSent => False end ∧
  (btree_iter second.2).*1 = [1%Z].
Proof. vm_compute. done. Qed.

(** Of several consents that do not authorize a request, the last one read
    gives the reason, whatever the others' reasons are. *)
Example last_denial_wins :
  let consent revoked expires :=
    mkConsent "c" AuditCheckpoint sample_url {["evidence_metadata"]} "now" expires revoked 1 None in
  let state cs :=
    mkEgressState Personal 1 cs [mkAllowlistEntry "a" AuditCheckpoint sample_url false] in
  let req := mkEgressRequest AuditCheckpoint sample_url {[EvidenceMetadata]} true "now" in
  let revoked := consent (Some "now") "later" in
  let expired := consent None "now" in
  egress_decide (state [revoked; expired]) req = Err ConsentExpired ∧
  egress_decide (state [expired; revoked]) req = Err ConsentRevoked.
Proof. vm_compute. done. Qed.
