(* ===== verification/ExecutionIdentity.v ===== *)
(** * Execution identity

    [fornax-types/src/execution_identity.rs]: the identity envelope of an
    observation, its wire form, the keys data is cached under, when two
    envelopes correlate, and the provider-native identity of a hook payload.
    [chrono]'s parser of a date and time without zone is a parameter; the
    text of a refusal is the value it is composed from. *)

From S2P Require Import Prelude.
From S2P Require Import Types.
From S2P Require Import Text.
From S2P Require Import AuditLedger.

Local Open Scope fornax_scope.

Class NaiveParser := { naive_datetime_ok : string → bool }.

Definition ENVELOPE_VERSION : Z := 1.

Inductive IdentityError :=
| NotAnObject
| UnsupportedEnvelopeVersion (found : option Value)
| UnrecognisedLineage (found : string)
| LineageNotAString
| ObservedAtRequired
| ObservedAtNotUtc
| ObservedAtNoFraction
| ObservedAtBadFraction
| ObservedAtUnparsable
| HostIdRequired
| InvalidToolProvider (found : option Value)
| MustBeString (key : string)
| ChildNeedsParent
| ParentWithoutChild
| NothingToRedact (dimension : string).

Inductive Scope := ScHost | ScSession | ScAgent | ScTurnTask | ScProjectWorktree | ScUnknown.
#[export] Instance Scope_eq_dec : EqDecision Scope.
Proof. solve_decision. Defined.

Definition scope_str (s : Scope) : string :=
  match s with
  | ScHost => "host"
  | ScSession => "session"
  | ScAgent => "agent"
  | ScTurnTask => "turn_task"
  | ScProjectWorktree => "project_worktree"
  | ScUnknown => "unknown"
  end.

Inductive LineageStatus := LRoot | LChild | LUnknown.
#[export] Instance LineageStatus_eq_dec : EqDecision LineageStatus.
Proof. solve_decision. Defined.
Definition lineage_str (l : LineageStatus) : string :=
  match l with LRoot => "root" | LChild => "child" | LUnknown => "unknown" end.
Definition lineage_parse (s : string) : option LineageStatus :=
  if decide (s = "root") then Some LRoot
  else if decide (s = "child") then Some LChild
  else if decide (s = "unknown") then Some LUnknown
  else None.

(** ** Bytes of a provider name *)

Definition is_ascii_lowercase (b : N) : bool := bool_decide (97 ≤ b ≤ 122)%N.
Definition is_ascii_digit (b : N) : bool := bool_decide (48 ≤ b ≤ 57)%N.

Definition is_valid_tool_provider (value : string) : bool :=
  match string_bytes value with
  | [] => false
  | b :: rest =>
      bool_decide (length (b :: rest) ≤ 32) && is_ascii_lowercase b &&
      forallb (λ b, is_ascii_lowercase b || is_ascii_digit b
                    || bool_decide (b = 95%N) || bool_decide (b = 45%N)) rest
  end.

Record ExecutionIdentity := mkExecutionIdentity {
  ei_observed_at : string;
  host_id : string;
  tool_provider : string;
  tool_instance_id : option string;
  provider_session_id : option string;
  ei_agent_id : option string;
  turn_id : option string;
  lineage_status : LineageStatus;
  parent_agent_id : option string;
  session_lineage_id : option string;
  ei_event_id : option string;
  repo_id : option string;
  worktree_id : option string;
}.

Definition OPTIONAL_FIELDS : list string :=
  ["tool_instance_id"; "provider_session_id"; "agent_id"; "turn_id"; "parent_agent_id";
   "session_lineage_id"; "event_id"; "repo_id"; "worktree_id"].

(** ** Timestamps *)

(** [str::strip_suffix('Z')] and [str::split_once('.')]. *)
Fixpoint strip_z (s : string) : option string :=
  match s with
  | EmptyString => None
  | String a EmptyString => if decide (a = Ascii.ascii_of_nat 90) then Some "" else None
  | String a s => String a <$> strip_z s
  end.
Definition dot : Ascii.ascii := Ascii.ascii_of_nat 46.
Fixpoint split_dot (s : string) : option (string * string) :=
  match s with
  | EmptyString => None
  | String a s =>
      if decide (a = dot) then Some ("", s)
      else (λ p, (String a p.1, p.2)) <$> split_dot s
  end.

Section envelope.
Context `{NaiveParser}.

(** [{frac:0<6}] cut to its first three digits. *)
Definition millis (frac : string) : string := String.substring 0 3 (frac +:+ "000000").

Definition canonical_observed_at (raw : string) : result IdentityError string :=
  match strip_z raw with
  | None => Err ObservedAtNotUtc
  | Some body =>
      match split_dot body with
      | None => Err ObservedAtNoFraction
      | Some (whole, frac) =>
          if bool_decide (frac = "" ∨ 6 < String.length frac)
             || negb (forallb is_ascii_digit (string_bytes frac))
          then Err ObservedAtBadFraction
          else if negb (naive_datetime_ok whole) then Err ObservedAtUnparsable
          else Ok (whole +:+ "." +:+ millis frac +:+ "Z")
      end
  end.

(** ** The wire form *)

(** [Map::get]. *)
Definition json_get (fields : list (string * Value)) (key : string) : option Value :=
  snd <$> head (filter (λ kv, kv.1 = key) fields).

Definition optional_string (object : list (string * Value)) (key : string) :
    result IdentityError (option string) :=
  match json_get object key with
  | None | Some JNull => Ok None
  | Some (JString s) => Ok (Some s)
  | Some _ => Err (MustBeString key)
  end.

Definition check_lineage (i : ExecutionIdentity) : result IdentityError ExecutionIdentity :=
  match lineage_status i, parent_agent_id i with
  | LChild, None => Err ChildNeedsParent
  | LChild, Some p => if decide (p = "") then Err ChildNeedsParent else Ok i
  | _, Some _ => Err ParentWithoutChild
  | _, None => Ok i
  end.

(** [ExecutionIdentity::from_wire]. *)
Definition from_wire (document : Value) : result IdentityError ExecutionIdentity :=
  match document with
  | JObject object =>
      let? version :=
        match json_get object "envelope_version" with
        | Some (JInt v) =>
            if decide (v = ENVELOPE_VERSION) then Ok tt
            else Err (UnsupportedEnvelopeVersion (Some (JInt v)))
        | other => Err (UnsupportedEnvelopeVersion other)
        end in
      let? lineage :=
        match json_get object "lineage_status" with
        | None | Some JNull => Ok LUnknown
        | Some (JString s) =>
            match lineage_parse s with Some l => Ok l | None => Err (UnrecognisedLineage s) end
        | Some _ => Err LineageNotAString
        end in
      let? observed_at :=
        match json_get object "observed_at" with
        | Some (JString s) => canonical_observed_at s
        | _ => Err ObservedAtRequired
        end in
      let? host :=
        match json_get object "host_id" with
        | Some (JString s) => if decide (s = "") then Err HostIdRequired else Ok s
        | _ => Err HostIdRequired
        end in
      let? provider :=
        match json_get object "tool_provider" with
        | Some (JString s) =>
            if is_valid_tool_provider s then Ok s else Err (InvalidToolProvider (Some (JString s)))
        | other => Err (InvalidToolProvider other)
        end in
      let? f1 := optional_string object "tool_instance_id" in
      let? f2 := optional_string object "provider_session_id" in
      let? f3 := optional_string object "agent_id" in
      let? f4 := optional_string object "turn_id" in
      let? f5 := optional_string object "parent_agent_id" in
      let? f6 := optional_string object "session_lineage_id" in
      let? f7 := optional_string object "event_id" in
      let? f8 := optional_string object "repo_id" in
      let? f9 := optional_string object "worktree_id" in
      check_lineage (mkExecutionIdentity observed_at host provider f1 f2 f3 f4 lineage f5 f6 f7 f8 f9)
  | _ => Err NotAnObject
  end.
End envelope.

(** [ExecutionIdentity::optional]. *)
Definition optional (i : ExecutionIdentity) (name : string) : option string :=
  if decide (name = "tool_instance_id") then tool_instance_id i
  else if decide (name = "provider_session_id") then provider_session_id i
  else if decide (name = "agent_id") then ei_agent_id i
  else if decide (name = "turn_id") then turn_id i
  else if decide (name = "parent_agent_id") then parent_agent_id i
  else if decide (name = "session_lineage_id") then session_lineage_id i
  else if decide (name = "event_id") then ei_event_id i
  else if decide (name = "repo_id") then repo_id i
  else if decide (name = "worktree_id") then worktree_id i
  else None.

(** [ExecutionIdentity::to_wire]; a map lists its keys in order. *)
Definition to_wire (i : ExecutionIdentity) : Value :=
  JObject (sort_by_key fst
    ([("envelope_version", JInt ENVELOPE_VERSION);
      ("observed_at", JString (ei_observed_at i));
      ("host_id", JString (host_id i));
      ("tool_provider", JString (tool_provider i));
      ("lineage_status", JString (lineage_str (lineage_status i)))] ++
     omap (λ name, (λ v, (name, JString v)) <$> optional i name) OPTIONAL_FIELDS)).

(** ** Keys *)

Definition present (v : option string) : option string :=
  s ← v; if decide (s = "") then None else Some s.

Definition cache_key (i : ExecutionIdentity) (scope : Scope) : option (list string) :=
  let session := present (provider_session_id i) in
  let agent := present (ei_agent_id i) in
  let turn := present (turn_id i) in
  let base extra := [host_id i; tool_provider i] ++ extra in
  match scope with
  | ScHost => Some [host_id i]
  | ScSession => (λ s, base [s]) <$> session
  | ScAgent =>
      match session, agent with Some s, Some a => Some (base [s; a]) | _, _ => None end
  | ScTurnTask =>
      match session, agent, turn with
      | Some s, Some a, Some t => Some (base [s; a; t])
      | _, _, _ => None
      end
  | ScProjectWorktree =>
      (λ id, [id]) <$>
        match present (worktree_id i) with Some w => Some w | None => present (repo_id i) end
  | ScUnknown => None
  end.

Definition narrowest_attributable_scope (i : ExecutionIdentity) : Scope :=
  match list_find (λ s, is_Some (cache_key i s)) [ScTurnTask; ScAgent; ScSession] with
  | Some (_, s) => s
  | None => ScUnknown
  end.

(** [display_id]: the first 8 hexadecimal digits of the digest. *)
Definition display_id `{Sha256} (i : ExecutionIdentity) (dimension : string) :
    result IdentityError string :=
  let raw :=
    if decide (dimension = "host_id") then Some (host_id i)
    else if decide (dimension = "tool_provider") then Some (tool_provider i)
    else optional i dimension in
  match present raw with
  | None => Err (NothingToRedact dimension)
  | Some raw =>
      let digest := sha256 (string_bytes (dimension +:+ ":" +:+ raw)) in
      Ok (dimension +:+ ":" +:+ bytes_string (take 8 (digest ≫= hex_byte)))
  end.

(** ** Correlation *)

Definition correlation_fields (i : ExecutionIdentity) : list (option string) :=
  [Some (host_id i); Some (tool_provider i); optional i "tool_instance_id";
   optional i "provider_session_id"; optional i "agent_id"; optional i "turn_id";
   optional i "parent_agent_id"; optional i "session_lineage_id"].

Fixpoint correlate_loop (any_concrete_match : bool)
    (fields : list (option string * option string)) : bool :=
  match fields with
  | [] => any_concrete_match
  | (Some a, Some b) :: fields =>
      if decide (a ≠ b) then false else correlate_loop true fields
  | _ :: fields => correlate_loop any_concrete_match fields
  end.

Definition correlates_with (i j : ExecutionIdentity) : bool :=
  correlate_loop false (zip (correlation_fields i) (correlation_fields j)).

(** ** Native identity *)

Record NativeIdentity := mkNativeIdentity {
  ni_session : option string;
  ni_agent : option string;
  ni_turn : option string;
}.

Definition native (payload : Value) (key : string) : option string :=
  match payload with
  | JObject fields =>
      match json_get fields key with
      | Some (JString s) => if is_blank s then None else Some s
      | _ => None
      end
  | _ => None
  end.

Definition native_identity (provider : string) (payload : Value) : NativeIdentity :=
  if decide (provider = "claude_code") then
    mkNativeIdentity (native payload "session_id") (native payload "agent_id") None
  else if decide (provider = "codex") then
    mkNativeIdentity (native payload "session_id") (native payload "agent_id")
      (native payload "turn_id")
  else mkNativeIdentity None None None.

Definition native_agent_type (provider : string) (payload : Value) : option string :=
  if decide (provider = "claude_code" ∨ provider = "codex") then native payload "agent_type"
  else None.

Definition with_native (i : ExecutionIdentity) (n : NativeIdentity) : ExecutionIdentity :=
  mkExecutionIdentity (ei_observed_at i) (host_id i) (tool_provider i) (tool_instance_id i)
    (ni_session n) (ni_agent n) (ni_turn n) (lineage_status i) (parent_agent_id i)
    (session_lineage_id i) (ei_event_id i) (repo_id i) (worktree_id i).

(** [NativeIdentity::into_envelope]. *)
Definition into_envelope `{NaiveParser} (n : NativeIdentity) (provider host observed_at : string) :
    result IdentityError ExecutionIdentity :=
  let document := JObject (sort_by_key fst
    [("envelope_version", JInt ENVELOPE_VERSION); ("observed_at", JString observed_at);
     ("host_id", JString host); ("tool_provider", JString provider);
     ("lineage_status", JString "unknown")]) in
  let? identity := from_wire document in
  Ok (with_native identity n).

(** ** Lookup in a written map *)

Lemma json_get_sorted (fields : list (string * Value)) k :
  json_get (sort_by_key fst fields) k = json_get fields k.
Proof. unfold json_get. by rewrite sort_by_key_stable. Qed.

Lemma json_get_cons k' v fields k :
  json_get ((k', v) :: fields) k = if decide (k' = k) then Some v else json_get fields k.
Proof. unfold json_get. rewrite filter_cons. simpl. by case_decide. Qed.

Lemma json_get_app f1 f2 k :
  json_get (f1 ++ f2) k = match json_get f1 k with Some v => Some v | None => json_get f2 k end.
Proof.
  unfold json_get. rewrite filter_app. by destruct (filter _ f1).
Qed.

(** The optional fields that are written, looked up by name. *)
Lemma json_get_optional i names k :
  json_get (omap (λ name, (λ v, (name, JString v)) <$> optional i name) names) k =
  if decide (k ∈ names) then JString <$> optional i k else None.
Proof.
  induction names as [|name names IH]; [done|]. csimpl.
  destruct (optional i name) as [v|] eqn:Ho; csimpl.
  - rewrite json_get_cons, IH. destruct (decide (name = k)) as [->|Hne].
    + rewrite decide_True by (by left). by rewrite Ho.
    + destruct (decide (k ∈ names)).
      * rewrite decide_True; [done|by right].
      * rewrite decide_False; [done|]. rewrite elem_of_cons. naive_solver.
  - rewrite IH. destruct (decide (name = k)) as [->|Hne].
    + rewrite Ho. by repeat case_decide.
    + destruct (decide (k ∈ names)).
      * rewrite decide_True; [done|by right].
      * rewrite decide_False; [done|]. rewrite elem_of_cons. naive_solver.
Qed.

(** ** Canonical timestamps *)

Lemma str_app_assoc (x y z : string) : (x +:+ y) +:+ z = x +:+ (y +:+ z).
Proof.
  induction x as [|a x IH]; [done|].
  change (String a ((x +:+ y) +:+ z) = String a (x +:+ (y +:+ z))). by rewrite IH.
Qed.

Lemma strip_z_app s : strip_z (s +:+ "Z") = Some s.
Proof.
  induction s as [|a s IH]; [done|].
  change (String a s +:+ "Z") with (String a (s +:+ "Z")). simpl.
  destruct (s +:+ "Z") eqn:E; [by destruct s|]. by rewrite IH.
Qed.

Lemma split_dot_spec s whole frac :
  split_dot s = Some (whole, frac) →
  ∀ rest, split_dot (whole +:+ "." +:+ rest) = Some (whole, rest).
Proof.
  revert whole. induction s as [|a s IH]; intros whole; simpl; [done|]. case_decide as Ha.
  - by intros [= <- <-] rest.
  - destruct (split_dot s) as [[w f]|] eqn:Hs; simpl; [|done]. intros [= <- <-] rest.
    change (String a w +:+ "." +:+ rest) with (String a (w +:+ "." +:+ rest)). simpl.
    rewrite decide_False by done. by rewrite (IH w eq_refl).
Qed.

Lemma millis_canonical frac :
  frac ≠ "" → String.length frac ≤ 6 → forallb is_ascii_digit (string_bytes frac) = true →
  millis frac ≠ "" ∧ String.length (millis frac) ≤ 6 ∧
  forallb is_ascii_digit (string_bytes (millis frac)) = true ∧ millis (millis frac) = millis frac.
Proof.
  intros Hne Hlen Hd. unfold millis.
  destruct frac as [|a [|b [|c frac]]]; [done|..]; simpl in *;
    repeat (apply andb_true_iff in Hd as [? Hd]); unfold string_bytes; simpl;
    repeat split; try done; try lia; repeat (apply andb_true_iff; split; try done).
  all: destruct frac; simpl in *; try lia; done.
Qed.

Section roundtrip.
Context `{NaiveParser}.

Lemma canonical_idempotent raw t :
  canonical_observed_at raw = Ok t → canonical_observed_at t = Ok t.
Proof.
  unfold canonical_observed_at. destruct (strip_z raw) as [body|]; [|done].
  destruct (split_dot body) as [[whole frac]|] eqn:Hs; [|done].
  destruct (bool_decide _ || _) eqn:Hf; [done|]. destruct (naive_datetime_ok whole) eqn:Hn; [|done].
  simpl. intros [= <-].
  apply orb_false_iff in Hf as [Hl%bool_decide_eq_false Hd%negb_false_iff].
  destruct (millis_canonical frac) as (Hm1 & Hm2 & Hm3 & Hm4); [naive_solver|lia|done|].
  replace (whole +:+ "." +:+ millis frac +:+ "Z") with ((whole +:+ "." +:+ millis frac) +:+ "Z")
    by (by rewrite !str_app_assoc).
  rewrite strip_z_app, (split_dot_spec _ _ _ Hs), Hm3, Hn, Hm4.
  rewrite bool_decide_eq_false_2 by (intros [?|?]; [done|lia]). simpl.
  by rewrite !str_app_assoc.
Qed.

(** What the parser establishes. *)
Record well_formed (i : ExecutionIdentity) : Prop := {
  wf_observed : canonical_observed_at (ei_observed_at i) = Ok (ei_observed_at i);
  wf_host : host_id i ≠ "";
  wf_provider : is_valid_tool_provider (tool_provider i) = true;
  wf_lineage : check_lineage i = Ok i;
}.

Lemma check_lineage_same i j : check_lineage i = Ok j → j = i.
Proof. unfold check_lineage. repeat case_match; by intros [= <-]. Qed.

(** One [?] of a parser that succeeded. *)
Ltac ok_step H :=
  lazymatch type of H with
  | match ?c with Ok _ => _ | Err _ => _ end = _ =>
      let E := fresh "E" in destruct c eqn:E; [|done]
  end.

Lemma from_wire_well_formed d i : from_wire d = Ok i → well_formed i.
Proof.
  unfold from_wire. destruct d as [| | | | | |fields]; try done.
  intros Hw. do 14 ok_step Hw.
  pose proof (check_lineage_same _ _ Hw) as ->. constructor; simpl.
  - destruct (json_get fields "observed_at") as [[]|]; try done.
    by eapply canonical_idempotent.
  - destruct (json_get fields "host_id") as [[]|]; try done.
    case_decide; [done|]. congruence.
  - destruct (json_get fields "tool_provider") as [[]|]; try done.
    destruct (is_valid_tool_provider _) eqn:Hv; [|done]. congruence.
  - done.
Qed.

(** A written identity is read as it was. *)
Lemma to_wire_optional i k :
  k ∈ OPTIONAL_FIELDS →
  match to_wire i with
  | JObject fields => optional_string fields k = Ok (optional i k)
  | _ => False
  end.
Proof.
  intros Hk. unfold to_wire, optional_string. rewrite json_get_sorted.
  rewrite json_get_app, json_get_optional, decide_True by done.
  assert (json_get [("envelope_version", JInt ENVELOPE_VERSION);
      ("observed_at", JString (ei_observed_at i)); ("host_id", JString (host_id i));
      ("tool_provider", JString (tool_provider i));
      ("lineage_status", JString (lineage_str (lineage_status i)))] k = None) as ->.
  { rewrite !json_get_cons. unfold OPTIONAL_FIELDS in Hk.
    repeat (apply elem_of_cons in Hk as [->|Hk]; [done|]). by apply elem_of_nil in Hk. }
  by destruct (optional i k).
Qed.

Lemma to_wire_fixed i k v :
  (k, v) ∈ [("envelope_version", JInt ENVELOPE_VERSION);
            ("observed_at", JString (ei_observed_at i)); ("host_id", JString (host_id i));
            ("tool_provider", JString (tool_provider i));
            ("lineage_status", JString (lineage_str (lineage_status i)))] →
  match to_wire i with JObject fields => json_get fields k = Some v | _ => False end.
Proof.
  intros Hk. unfold to_wire. rewrite json_get_sorted, json_get_app.
  repeat (apply elem_of_cons in Hk as [[= -> ->]|Hk]; [done|]). by apply elem_of_nil in Hk.
Qed.

Lemma lineage_parse_str l : lineage_parse (lineage_str l) = Some l.
Proof. by destruct l. Qed.

(** An execution identity is read back from its wire form as it is,
    whenever it came out of a document at all: its timestamp is canonical, its
    host and provider are valid and its lineage is consistent, and writing and
    reading it changes nothing. *)
Theorem identity_wire_roundtrip d i :
  from_wire d = Ok i → well_formed i ∧ from_wire (to_wire i) = Ok i.
Proof.
  intros Hd. pose proof (from_wire_well_formed d i Hd) as Hwf. split; [done|].
  pose proof (to_wire_optional i) as Hopt. pose proof (to_wire_fixed i) as Hfix.
  unfold to_wire in *. set (fields := sort_by_key _ _) in *. unfold from_wire.
  rewrite (Hfix "envelope_version" (JInt ENVELOPE_VERSION)) by (by repeat constructor).
  rewrite (Hfix "lineage_status" (JString (lineage_str (lineage_status i)))) by (by repeat constructor).
  rewrite (Hfix "observed_at" (JString (ei_observed_at i))) by (by repeat constructor).
  rewrite (Hfix "host_id" (JString (host_id i))) by (by repeat constructor).
  rewrite (Hfix "tool_provider" (JString (tool_provider i))) by (by repeat constructor).
  rewrite decide_True by done. rewrite lineage_parse_str, (wf_observed i Hwf).
  rewrite decide_False by (by apply Hwf). rewrite (wf_provider i Hwf).
  rewrite !Hopt by (by repeat constructor).
  destruct i; apply (wf_lineage _ Hwf).
Qed.
End roundtrip.

(** ** Keys and correlation *)

Lemma present_some v s : present v = Some s ↔ v = Some s ∧ s ≠ "".
Proof. unfold present. destruct v as [s'|]; simpl; [case_decide|]; naive_solver. Qed.

(** A key names exactly its scope: it has the width of the scope, it extends
    the key of the next wider one, and nobody is keyed by host for want of a
    session. *)
Lemma cache_key_never_widens i :
  (∀ k, cache_key i ScTurnTask = Some k → ∃ t, t ≠ "" ∧ turn_id i = Some t ∧
     ∃ k', cache_key i ScAgent = Some k' ∧ k = k' ++ [t]) ∧
  (∀ k, cache_key i ScAgent = Some k → ∃ a, a ≠ "" ∧ ei_agent_id i = Some a ∧
     ∃ k', cache_key i ScSession = Some k' ∧ k = k' ++ [a]) ∧
  (∀ k, cache_key i ScSession = Some k → ∃ s, s ≠ "" ∧ provider_session_id i = Some s ∧
     k = [host_id i; tool_provider i; s]) ∧
  narrowest_attributable_scope i ≠ ScHost ∧
  (narrowest_attributable_scope i ≠ ScUnknown → is_Some (cache_key i ScSession)).
Proof.
  unfold narrowest_attributable_scope, cache_key.
  destruct (present (provider_session_id i)) as [s|] eqn:Hs;
    destruct (present (ei_agent_id i)) as [a|] eqn:Ha;
    destruct (present (turn_id i)) as [t|] eqn:Ht;
    try apply present_some in Hs; try apply present_some in Ha; try apply present_some in Ht;
    simpl; repeat (rewrite decide_True by eauto || rewrite decide_False by (by intros [? [=]]));
    simpl; split_and!; try done; try (intros k [= <-]); destruct_and?; eauto 10.
Qed.

Lemma correlate_loop_iff b fs :
  correlate_loop b fs = true ↔
  (∀ x y, (Some x, Some y) ∈ fs → x = y) ∧ (b = true ∨ ∃ x y, (Some x, Some y) ∈ fs).
Proof.
  revert b. induction fs as [|[[x|] [y|]] fs IH]; intros b; simpl.
  { setoid_rewrite elem_of_nil. naive_solver. }
  2-4: rewrite IH; setoid_rewrite elem_of_cons; naive_solver.
  case_decide as Hxy.
  - split; [done|]. intros [Hall _]. exfalso. apply Hxy, Hall. left.
  - rewrite IH. setoid_rewrite elem_of_cons. naive_solver.
Qed.

(** Correlation is symmetric, and asks that no two concrete fields differ. *)
Lemma correlates_with_iff i j :
  correlates_with i j = true ↔
  ∀ n x y, correlation_fields i !! n = Some (Some x) → correlation_fields j !! n = Some (Some y) →
    x = y.
Proof.
  unfold correlates_with. rewrite correlate_loop_iff. split.
  - intros [Hall _] n x y Hx Hy. apply Hall, list_elem_of_lookup. exists n.
    apply lookup_zip_with_Some. eauto.
  - intros Hall. split.
    + intros x y (n & Hn)%list_elem_of_lookup.
      apply lookup_zip_with_Some in Hn as (? & ? & [= <- <-] & ? & ?). eauto.
    + right. exists (host_id i), (host_id j). left.
Qed.

Lemma correlates_with_sym i j : correlates_with i j = correlates_with j i.
Proof. apply eq_true_iff_eq. rewrite !correlates_with_iff.
  split; intros Hall n x y Hx Hy; symmetry; eauto. Qed.

(** ** Witness *)

#[local] Instance sample_naive : NaiveParser := {
  naive_datetime_ok s := bool_decide (s = "2026-01-01T00:00:00");
}.
Definition sample_document : Value :=
  JObject [("envelope_version", JInt 1); ("host_id", JString "h"); ("lineage_status", JNull);
           ("observed_at", JString "2026-01-01T00:00:00.5Z");
           ("provider_session_id", JString "s"); ("tool_provider", JString "codex");
           ("other", JBool true)].
Definition sample_identity : ExecutionIdentity :=
  mkExecutionIdentity "2026-01-01T00:00:00.500Z" "h" "codex" None (Some "s") None None LUnknown
    None None None None None.
Lemma identity_wire_roundtrip_witness :
  from_wire (to_wire sample_identity) = Ok sample_identity.
Proof.
  apply (identity_wire_roundtrip sample_document sample_identity).
  vm_compute. reflexivity.
Defined.
