(* ===== verification/EventStore.v ===== *)
(** * The event store

    [fornax-store/src/lib.rs]: the tables of observations, claims, evidence
    and findings, and the operations that write them, each with its lineage
    tag in one transaction. A table keyed by its primary key is a map; the
    lineage tags are the list of their rows in the order they were inserted.
    SQLite checks the foreign keys ([sqlx] turns them on): a statement that
    would leave a dangling reference fails. [serde_json] on the columns is a
    parameter, and the identifiers and times an operation draws are its
    arguments. *)

From S2P Require Import Prelude.
From S2P Require Import Types.
From S2P Require Import Text.
From S2P Require Import Graph.
From S2P Require Import Projection.
From S2P Require Import PolicyContent.
From S2P Require Import AuditEvent.
From S2P Require Import AuditLedger.
From S2P Require Import ExecutionIdentity.

Local Open Scope fornax_scope.

(** ** Events *)

Inductive EventKind :=
| SessionStart | SessionEnd | UserPromptSubmit | PreToolUse | PostToolUse
| SubagentStart | SubagentStop | Notification.
#[export] Instance EventKind_eq_dec : EqDecision EventKind.
Proof. solve_decision. Defined.

Record AgentEvent := mkAgentEvent {
  ae_id : Uuid;
  ae_session_id : string;
  ae_provider : Provider;
  ae_kind : EventKind;
  ae_observed_at : string;
  ae_tool_name : option string;
  ae_tool_input : option Value;
  ae_tool_response : option Value;
  ae_raw : Value;
}.

(** ** Column tags *)

Definition provider_tag (p : Provider) : string :=
  match p with
  | ClaudeCode => "claude_code" | Codex => "codex" | OpenCode => "open_code"
  | ProviderUnknown => "unknown"
  end.
Definition event_kind_tag (k : EventKind) : string :=
  match k with
  | SessionStart => "session_start" | SessionEnd => "session_end"
  | UserPromptSubmit => "user_prompt_submit" | PreToolUse => "pre_tool_use"
  | PostToolUse => "post_tool_use" | SubagentStart => "subagent_start"
  | SubagentStop => "subagent_stop" | Notification => "notification"
  end.
Definition evidence_kind_tag (k : EvidenceKind) : string :=
  match k with
  | ToolResult => "tool_result" | ExitCode => "exit_code" | FileDiff => "file_diff"
  | ProcessObservation => "process_observation" | TranscriptExcerpt => "transcript_excerpt"
  end.
Definition verdict_tag (v : Verdict) : string :=
  match v with
  | Verified => "verified" | Unverified => "unverified" | Contradicted => "contradicted"
  | Review => "review" | Unavailable => "unavailable"
  end.
Definition relation_tag (r : EvidenceRelation) : string :=
  match r with Supports => "supports" | Contradicts => "contradicts" | Neutral => "neutral" end.
Definition availability_tag (a : SignalAvailability) : string :=
  match a with
  | Available => "available" | Unsupported => "unsupported" | SigUnavailable => "unavailable"
  | Redacted => "redacted" | CollectionFailed => "collection_failed" | Unknown => "unknown"
  | Disabled => "disabled" | AvailabilityUnrecognized tag => tag
  end.

(** [from_tag]. *)
Definition provider_of_tag (s : string) : option Provider :=
  list_find (λ p, provider_tag p = s) [ClaudeCode; Codex; OpenCode; ProviderUnknown] ≫=
    (λ x, Some x.2).
Definition event_kind_of_tag (s : string) : option EventKind :=
  list_find (λ k, event_kind_tag k = s)
    [SessionStart; SessionEnd; UserPromptSubmit; PreToolUse; PostToolUse; SubagentStart;
     SubagentStop; Notification] ≫= (λ x, Some x.2).

(** ** Rows *)

Record EventRow := mkEventRow {
  erow_session_id : string;
  erow_provider : string;
  erow_kind : string;
  erow_observed_at : string;
  erow_tool_name : option string;
  erow_tool_input : option string;
  erow_tool_response : option string;
  erow_raw : string;
}.
Record EventAttribution := mkEventAttribution {
  at_agent_id : option string;
  at_agent_type : option string;
  at_turn_id : option string;
  at_lineage_status : string;
}.
Record ClaimRow := mkClaimRow {
  crow_session_id : string;
  crow_source_event_id : string;
  crow_text : string;
  crow_subject : string;
  crow_claimed_at : string;
}.
Record EvidenceRow := mkEvidenceRow {
  vrow_session_id : string;
  vrow_source_event_id : string;
  vrow_kind : string;
  vrow_observed_at : string;
  vrow_payload : string;
  vrow_provenance : string;
  vrow_source : option string;
  vrow_extension : option string;
  vrow_evidence_purged : bool;
  vrow_ingress_origin : option string;
}.
Record FindingsRow := mkFindingsRow {
  frow_claim_id : string;
  frow_verdict : string;
  frow_evidence_ids : string;
  frow_verifier_name : string;
  frow_rationale : string;
  frow_computed_at : string;
}.
Record EvidenceLinkRow := mkEvidenceLinkRow {
  lrow_session_id : string;
  lrow_claim_id : string;
  lrow_evidence_id : string;
  lrow_relation : string;
  lrow_linked_at : string;
}.
Record MissingEvidenceRow := mkMissingEvidenceRow {
  mrow_session_id : string;
  mrow_claim_id : string;
  mrow_signal_class : string;
  mrow_availability : string;
  mrow_detail : option string;
  mrow_noted_at : string;
}.
Record LineageTagRow := mkLineageTagRow {
  lt_record_table : string;
  lt_record_id : string;
  lt_schema_version : Z;
  lt_retention_class : string;
  lt_tenant_ref : string;
  lt_source_record_ids : string;
  lt_recorded_at : string;
  lt_deletion_requested_at : option string;
}.
#[export] Instance LineageTagRow_eq_dec : EqDecision LineageTagRow.
Proof. solve_decision. Defined.

Record EventDb := mkEventDb {
  t_agent_events : gmap string EventRow;
  t_event_attribution : gmap string EventAttribution;
  t_claims : gmap string ClaimRow;
  t_evidence : gmap string EvidenceRow;
  t_findings : gmap string FindingsRow;
  t_links : gmap string EvidenceLinkRow;
  t_missing : gmap string MissingEvidenceRow;
  (** the tables without foreign keys that retention knows, by table and
      primary key; the row is its document *)
  t_documents : gmap (string * string) string;
  t_lineage : list LineageTagRow;
  t_audit : LedgerDb;
}.
Definition empty_event_db : EventDb := mkEventDb ∅ ∅ ∅ ∅ ∅ ∅ ∅ ∅ [] empty_ledger.

Definition with_events (f : gmap string EventRow → gmap string EventRow) (db : EventDb) : EventDb :=
  mkEventDb (f (t_agent_events db)) (t_event_attribution db) (t_claims db) (t_evidence db)
    (t_findings db) (t_links db) (t_missing db) (t_documents db) (t_lineage db) (t_audit db).
Definition with_attribution (f : gmap string EventAttribution → gmap string EventAttribution)
    (db : EventDb) : EventDb :=
  mkEventDb (t_agent_events db) (f (t_event_attribution db)) (t_claims db) (t_evidence db)
    (t_findings db) (t_links db) (t_missing db) (t_documents db) (t_lineage db) (t_audit db).
Definition with_claims (f : gmap string ClaimRow → gmap string ClaimRow) (db : EventDb) : EventDb :=
  mkEventDb (t_agent_events db) (t_event_attribution db) (f (t_claims db)) (t_evidence db)
    (t_findings db) (t_links db) (t_missing db) (t_documents db) (t_lineage db) (t_audit db).
Definition with_evidence (f : gmap string EvidenceRow → gmap string EvidenceRow) (db : EventDb) :
    EventDb :=
  mkEventDb (t_agent_events db) (t_event_attribution db) (t_claims db) (f (t_evidence db))
    (t_findings db) (t_links db) (t_missing db) (t_documents db) (t_lineage db) (t_audit db).
Definition with_findings (f : gmap string FindingsRow → gmap string FindingsRow) (db : EventDb) :
    EventDb :=
  mkEventDb (t_agent_events db) (t_event_attribution db) (t_claims db) (t_evidence db)
    (f (t_findings db)) (t_links db) (t_missing db) (t_documents db) (t_lineage db) (t_audit db).
Definition with_links (f : gmap string EvidenceLinkRow → gmap string EvidenceLinkRow)
    (db : EventDb) : EventDb :=
  mkEventDb (t_agent_events db) (t_event_attribution db) (t_claims db) (t_evidence db)
    (t_findings db) (f (t_links db)) (t_missing db) (t_documents db) (t_lineage db) (t_audit db).
Definition with_missing (f : gmap string MissingEvidenceRow → gmap string MissingEvidenceRow)
    (db : EventDb) : EventDb :=
  mkEventDb (t_agent_events db) (t_event_attribution db) (t_claims db) (t_evidence db)
    (t_findings db) (t_links db) (f (t_missing db)) (t_documents db) (t_lineage db) (t_audit db).
Definition with_documents (f : gmap (string * string) string → gmap (string * string) string)
    (db : EventDb) : EventDb :=
  mkEventDb (t_agent_events db) (t_event_attribution db) (t_claims db) (t_evidence db)
    (t_findings db) (t_links db) (t_missing db) (f (t_documents db)) (t_lineage db) (t_audit db).
Definition with_lineage (f : list LineageTagRow → list LineageTagRow) (db : EventDb) : EventDb :=
  mkEventDb (t_agent_events db) (t_event_attribution db) (t_claims db) (t_evidence db)
    (t_findings db) (t_links db) (t_missing db) (t_documents db) (f (t_lineage db)) (t_audit db).
Definition with_audit (l : LedgerDb) (db : EventDb) : EventDb :=
  mkEventDb (t_agent_events db) (t_event_attribution db) (t_claims db) (t_evidence db)
    (t_findings db) (t_links db) (t_missing db) (t_documents db) (t_lineage db) l.

(** ** Lineage tags *)

Definition RELIABILITY_CONTEXT_SCHEMA_VERSION : Z := 1.

Inductive RetentionClass :=
| RawLocal | SanitizedReplayFixture | SanitizedCandidate | AggregatedFeature | DerivedFinding
| RetentionUnrecognized (tag : string).
#[export] Instance RetentionClass_eq_dec : EqDecision RetentionClass.
Proof. solve_decision. Defined.

Definition retention_class_tag (c : RetentionClass) : string :=
  match c with
  | RawLocal => "raw_local"
  | SanitizedReplayFixture => "sanitized_replay_fixture"
  | SanitizedCandidate => "sanitized_candidate"
  | AggregatedFeature => "aggregated_feature"
  | DerivedFinding => "derived_finding"
  | RetentionUnrecognized tag => tag
  end.
(** Its [Deserialize]: any other string is the catch-all. *)
Definition retention_class_of_tag (s : string) : RetentionClass :=
  match list_find (λ c, retention_class_tag c = s)
          [RawLocal; SanitizedReplayFixture; SanitizedCandidate; AggregatedFeature; DerivedFinding]
  with
  | Some (_, c) => c
  | None => RetentionUnrecognized s
  end.

Definition retention_class_for_table (record_table : string) : RetentionClass :=
  if decide (record_table ∈ ["agent_events"; "claims"; "evidence"; "acquisition_log";
                             "ingest_quarantine"; "evidence_consumption"])
  then RawLocal
  else if decide (record_table = "findings") then DerivedFinding
  else if decide (record_table ∈ ["corpus_candidates"; "adjudication_queue"; "adjudication_views";
                                  "adjudication_reviews"; "review_feedback"])
  then SanitizedCandidate
  else RetentionUnrecognized record_table.

Record DatasetLineageTag := mkDatasetLineageTag {
  dl_schema_version : N;
  dl_retention_class : RetentionClass;
  dl_tenant_ref : string;
  dl_source_record_ids : list Uuid;
  dl_recorded_at : string;
  dl_deletion_requested_at : option string;
}.

(** [DatasetLineageTag::new], at the time [recorded_at]. *)
Definition new_lineage_tag (class : RetentionClass) (tenant recorded_at : string) :
    DatasetLineageTag :=
  mkDatasetLineageTag (Z.to_N RELIABILITY_CONTEXT_SCHEMA_VERSION) class tenant [] recorded_at None.

(** [serde_json] and [uuid] on the columns. *)
Class EventJson := {
  value_to_string : Value → string;
  value_from_str : string → option Value;
  source_to_json : EvidenceSource → string;
  source_from_json : string → option EvidenceSource;
  extension_to_json : ExtensionEnvelope → string;
  extension_from_json : string → option ExtensionEnvelope;
  uuids_to_json : list Uuid → string;
  uuids_from_json : string → option (list Uuid);
  uuid_parse_str : string → option Uuid;
}.

Section store.
Context `{EventJson, UuidOps}.

Definition lineage_tag_row (record_table record_id : string) (tag : DatasetLineageTag) :
    LineageTagRow :=
  mkLineageTagRow record_table record_id (Z.of_N (dl_schema_version tag))
    (retention_class_tag (dl_retention_class tag)) (dl_tenant_ref tag)
    (uuids_to_json (dl_source_record_ids tag)) (dl_recorded_at tag)
    (dl_deletion_requested_at tag).

Definition insert_lineage_tag_row (record_table record_id : string) (tag : DatasetLineageTag)
    (db : EventDb) : EventDb :=
  with_lineage (λ rows, rows ++ [lineage_tag_row record_table record_id tag]) db.

(** The tag of a row of one of the four record tables. *)
Definition tag_record (record_table record_id session recorded_at : string) (db : EventDb) :
    EventDb :=
  insert_lineage_tag_row record_table record_id
    (new_lineage_tag (retention_class_for_table record_table) session recorded_at) db.

(** ** Comparing columns *)

Definition json_str_eq (stored : string) (incoming : Value) : bool :=
  match value_from_str stored with
  | Some parsed => bool_decide (parsed = incoming)
  | None => false
  end.
Definition json_opt_eq (stored : option string) (incoming : option Value) : bool :=
  match stored, incoming with
  | None, None => true
  | Some s, Some v => json_str_eq s v
  | _, _ => false
  end.

(** ** Transactions *)

(** A transaction around [body]: what it does is kept only if it commits. *)
Definition in_tx {A} (sql : Sqlite) (db : EventDb) (body : result StoreError (A * EventDb)) :
    result StoreError A * EventDb :=
  match sql with
  | StatementFails => (Err StoreDb, db)
  | _ =>
      match body with
      | Err e => (Err e, db)
      | Ok (a, db') => match sql with Commits => (Ok a, db') | _ => (Err StoreDb, db) end
      end
  end.

Inductive InsertOutcome := Inserted | Duplicate.

(** ** Events *)

Definition event_row (e : AgentEvent) : EventRow :=
  mkEventRow (ae_session_id e) (provider_tag (ae_provider e)) (event_kind_tag (ae_kind e))
    (ae_observed_at e) (ae_tool_name e) (value_to_string <$> ae_tool_input e)
    (value_to_string <$> ae_tool_response e) (value_to_string (ae_raw e)).

Definition same_event (r : EventRow) (e : AgentEvent) : bool :=
  bool_decide (erow_session_id r = ae_session_id e) &&
  bool_decide (erow_provider r = provider_tag (ae_provider e)) &&
  bool_decide (erow_kind r = event_kind_tag (ae_kind e)) &&
  bool_decide (erow_tool_name r = ae_tool_name e) &&
  json_opt_eq (erow_tool_input r) (ae_tool_input e) &&
  json_opt_eq (erow_tool_response r) (ae_tool_response e) &&
  json_str_eq (erow_raw r) (ae_raw e).

(** [INSERT OR IGNORE] of an attribution. *)
Definition ignore_attribution (event_id : string) (a : EventAttribution) (db : EventDb) : EventDb :=
  match t_event_attribution db !! event_id with
  | Some _ => db
  | None => with_attribution <[event_id := a]> db
  end.

Definition insert_event_attribution (e : AgentEvent) (provider : string) (db : EventDb) :
    EventDb :=
  let native := native_identity provider (ae_raw e) in
  let agent_type := native_agent_type provider (ae_raw e) in
  if bool_decide (ni_agent native = None ∧ ni_turn native = None ∧ agent_type = None) then db
  else ignore_attribution (uuid_to_string (ae_id e))
         (mkEventAttribution (ni_agent native) agent_type (ni_turn native) "unknown") db.

Definition insert_event_body (e : AgentEvent) (recorded_at : string) (db : EventDb) :
    result StoreError (InsertOutcome * EventDb) :=
  let id := uuid_to_string (ae_id e) in
  match t_agent_events db !! id with
  | Some r => if same_event r e then Ok (Duplicate, db) else Err (IdCollision "agent_events" id)
  | None =>
      let db := with_events <[id := event_row e]> db in
      let db := insert_event_attribution e (provider_tag (ae_provider e)) db in
      Ok (Inserted, tag_record "agent_events" id (ae_session_id e) recorded_at db)
  end.

Definition insert_event (sql : Sqlite) (e : AgentEvent) (recorded_at : string) (db : EventDb) :
    result StoreError InsertOutcome * EventDb :=
  if is_blank (ae_session_id e) then (Err (MissingSessionIdentity "agent_events"), db)
  else in_tx sql db (insert_event_body e recorded_at db).

(** [str::trim], and [clean]: an absent or blank value is absent. *)
Fixpoint trim_start (cs : list N) : list N :=
  match cs with
  | [] => []
  | c :: cs' => if is_whitespace c then trim_start cs' else cs
  end.
Definition trim (s : string) : string :=
  from_chars (reverse (trim_start (reverse (trim_start (chars s))))).
Definition clean (v : option string) : option string :=
  s ← v; if decide (trim s = "") then None else Some (trim s).

(** [HostEventIdentity] has the fields of an execution identity. The second
    statement runs outside the transaction of the first. *)
Definition insert_bound_host_event (sql sql' : Sqlite) (e : AgentEvent)
    (identity : ExecutionIdentity) (recorded_at : string) (db : EventDb) :
    result StoreError InsertOutcome * EventDb :=
  if decide (provider_session_id identity ≠ Some (ae_session_id e))
  then (Err (HostIdentityMismatch "provider_session_id"), db)
  else if decide (tool_provider identity ≠ provider_tag (ae_provider e))
  then (Err (HostIdentityMismatch "tool_provider"), db)
  else
    let '(r, db) := insert_event sql e recorded_at db in
    match r with
    | Err err => (Err err, db)
    | Ok outcome =>
        let agent_id := clean (ei_agent_id identity) in
        let turn := clean (turn_id identity) in
        if bool_decide (agent_id = None ∧ turn = None) then (Ok outcome, db)
        else
          match sql' with
          | Commits =>
              (Ok outcome,
               ignore_attribution (uuid_to_string (ae_id e))
                 (mkEventAttribution agent_id None turn (lineage_str (lineage_status identity))) db)
          | _ => (Err StoreDb, db)
          end
    end.

(** [map(serde_json::from_str).transpose()]. *)
Definition from_str_opt {A} (from_str : string → option A) (s : option string) :
    option (option A) :=
  match s with None => Some None | Some s => Some <$> from_str s end.

(** [TryFrom<EventRow>]. *)
Definition event_of_row (id : string) (r : EventRow) : result StoreError AgentEvent :=
  match provider_of_tag (erow_provider r), event_kind_of_tag (erow_kind r),
        from_str_opt value_from_str (erow_tool_input r),
        from_str_opt value_from_str (erow_tool_response r),
        value_from_str (erow_raw r) with
  | Some p, Some k, Some input, Some response, Some raw =>
      Ok (mkAgentEvent (default 0%N (uuid_parse_str id)) (erow_session_id r) p k
            (erow_observed_at r) (erow_tool_name r) input response raw)
  | _, _, _, _, _ => Err (StoreJson "agent_events row")
  end.

(** ** Claims *)

Definition claim_row (c : Claim) : ClaimRow :=
  mkClaimRow (claim_session_id c) (uuid_to_string (claim_source_event_id c)) (claim_text c)
    (claim_subject c) (claimed_at c).

(** The source event passes the adapter's check. *)
Definition check_source (c : Claim) (check : option (AgentEvent → bool)) (db : EventDb) :
    result StoreError unit :=
  match check with
  | None => Ok tt
  | Some check =>
      let source_id := uuid_to_string (claim_source_event_id c) in
      let? source :=
        match t_agent_events db !! source_id with
        | None => Ok None
        | Some r => let? e := event_of_row source_id r in Ok (Some e)
        end in
      match source with
      | Some e =>
          if check e then Ok tt else Err (ClaimSourceMismatch (uuid_to_string (claim_id c)))
      | None => Err (ClaimSourceMismatch (uuid_to_string (claim_id c)))
      end
  end.

(** [None] is the row of another claim under the same id, which is reported
    after the transaction. *)
Definition insert_claim_body (c : Claim) (check : option (AgentEvent → bool))
    (recorded_at : string) (db : EventDb) : result StoreError (option bool * EventDb) :=
  let id := uuid_to_string (claim_id c) in
  let? checked := check_source c check db in
  match t_claims db !! id with
  | Some r =>
      if bool_decide ((crow_session_id r, crow_source_event_id r, crow_text r, crow_subject r) =
                      (claim_session_id c, uuid_to_string (claim_source_event_id c), claim_text c,
                       claim_subject c))
      then Ok (Some false, db) else Ok (None, db)
  | None =>
      match t_agent_events db !! uuid_to_string (claim_source_event_id c) with
      | None => Err StoreDb
      | Some _ =>
          Ok (Some true, tag_record "claims" id (claim_session_id c) recorded_at
                           (with_claims <[id := claim_row c]> db))
      end
  end.

Definition insert_claim_inner (sql : Sqlite) (c : Claim) (check : option (AgentEvent → bool))
    (recorded_at : string) (db : EventDb) : result StoreError bool * EventDb :=
  if is_blank (claim_session_id c) then (Err (MissingSessionIdentity "claims"), db)
  else
    let '(r, db) := in_tx sql db (insert_claim_body c check recorded_at db) in
    (match r with
     | Ok (Some inserted) => Ok inserted
     | Ok None => Err (ClaimIdCollision (uuid_to_string (claim_id c)))
     | Err e => Err e
     end, db).
Definition insert_claim_idempotent_checked (sql : Sqlite) (c : Claim) (check : AgentEvent → bool)
    (recorded_at : string) (db : EventDb) : result StoreError bool * EventDb :=
  insert_claim_inner sql c (Some check) recorded_at db.
Definition insert_claim_idempotent (sql : Sqlite) (c : Claim) (recorded_at : string)
    (db : EventDb) : result StoreError bool * EventDb :=
  insert_claim_inner sql c None recorded_at db.
Definition insert_claim (sql : Sqlite) (c : Claim) (recorded_at : string) (db : EventDb) :
    result StoreError unit * EventDb :=
  let '(r, db) := insert_claim_idempotent sql c recorded_at db in (let? b := r in Ok tt, db).

(** ** Evidence *)

Inductive EvidenceOrigin := UdsIngest | DaemonAcquisition | PrivilegedExecutor | UnknownOrigin.
#[export] Instance EvidenceOrigin_eq_dec : EqDecision EvidenceOrigin.
Proof. solve_decision. Defined.
Definition as_column_str (o : EvidenceOrigin) : option string :=
  match o with
  | UdsIngest => Some "uds_ingest"
  | DaemonAcquisition => Some "daemon_acquisition"
  | PrivilegedExecutor => Some "privileged_executor"
  | UnknownOrigin => None
  end.

Definition evidence_row (ev : Evidence) (ingress_origin : option string) : EvidenceRow :=
  mkEvidenceRow (ev_session_id ev) (uuid_to_string (ev_source_event_id ev))
    (evidence_kind_tag (ev_kind ev)) (ev_observed_at ev) (value_to_string (ev_payload ev))
    (ev_provenance ev) (source_to_json <$> ev_source ev) (extension_to_json <$> ev_extension ev)
    (evidence_purged ev) ingress_origin.

Definition same_evidence (r : EvidenceRow) (ev : Evidence) : bool :=
  bool_decide (vrow_session_id r = ev_session_id ev) &&
  bool_decide (vrow_kind r = evidence_kind_tag (ev_kind ev)) &&
  bool_decide (vrow_source_event_id r = uuid_to_string (ev_source_event_id ev)) &&
  json_str_eq (vrow_payload r) (ev_payload ev).

Definition insert_evidence_body (ev : Evidence) (ingress_origin : option string)
    (recorded_at : string) (db : EventDb) : result StoreError (InsertOutcome * EventDb) :=
  let id := uuid_to_string (ev_id ev) in
  match t_evidence db !! id with
  | Some r => if same_evidence r ev then Ok (Duplicate, db) else Err (IdCollision "evidence" id)
  | None =>
      match t_agent_events db !! uuid_to_string (ev_source_event_id ev) with
      | None => Err StoreDb
      | Some _ =>
          Ok (Inserted, tag_record "evidence" id (ev_session_id ev) recorded_at
                          (with_evidence <[id := evidence_row ev ingress_origin]> db))
      end
  end.

Definition insert_evidence_with_origin_opt (sql : Sqlite) (ev : Evidence)
    (ingress_origin : option string) (recorded_at : string) (db : EventDb) :
    result StoreError InsertOutcome * EventDb :=
  if is_blank (ev_session_id ev) then (Err (MissingSessionIdentity "evidence"), db)
  else in_tx sql db (insert_evidence_body ev ingress_origin recorded_at db).
Definition insert_evidence (sql : Sqlite) (ev : Evidence) (recorded_at : string) (db : EventDb) :
    result StoreError InsertOutcome * EventDb :=
  insert_evidence_with_origin_opt sql ev None recorded_at db.
Definition insert_evidence_with_origin (sql : Sqlite) (ev : Evidence) (o : EvidenceOrigin)
    (recorded_at : string) (db : EventDb) : result StoreError InsertOutcome * EventDb :=
  insert_evidence_with_origin_opt sql ev (as_column_str o) recorded_at db.

(** ** Findings and the evidence graph *)

Definition finding_row (f : Finding) : FindingsRow :=
  mkFindingsRow (uuid_to_string (finding_claim_id f)) (verdict_tag (finding_verdict f))
    (uuids_to_json (finding_evidence_ids f)) (verifier_name f) (finding_rationale f)
    (finding_computed_at f).

Definition insert_finding_body (f : Finding) (recorded_at : string) (db : EventDb) :
    result StoreError (unit * EventDb) :=
  let id := uuid_to_string (finding_id f) in
  let claim := t_claims db !! uuid_to_string (finding_claim_id f) in
  match t_findings db !! id, claim with
  | None, Some _ =>
      let tenant :=
        match claim with
        | Some c => crow_session_id c
        | None => "orphaned-finding-claim-" +:+ uuid_to_string (finding_claim_id f)
        end in
      Ok (tt, tag_record "findings" id tenant recorded_at
                (with_findings <[id := finding_row f]> db))
  | _, _ => Err StoreDb
  end.
Definition insert_finding (sql : Sqlite) (f : Finding) (recorded_at : string) (db : EventDb) :
    result StoreError unit * EventDb :=
  in_tx sql db (insert_finding_body f recorded_at db).

Definition insert_evidence_link (sql : Sqlite) (l : EvidenceLink) (db : EventDb) :
    result StoreError unit * EventDb :=
  let id := uuid_to_string (link_id l) in
  in_tx sql db
    match t_links db !! id, t_claims db !! uuid_to_string (link_claim_id l),
          t_evidence db !! uuid_to_string (link_evidence_id l) with
    | None, Some _, Some _ =>
        Ok (tt, with_links <[id := mkEvidenceLinkRow (link_session_id l)
                  (uuid_to_string (link_claim_id l)) (uuid_to_string (link_evidence_id l))
                  (relation_tag (link_relation l)) (linked_at l)]> db)
    | _, _, _ => Err StoreDb
    end.

Definition insert_missing_evidence (sql : Sqlite) (m : MissingEvidence) (db : EventDb) :
    result StoreError unit * EventDb :=
  let id := uuid_to_string (missing_id m) in
  in_tx sql db
    match t_missing db !! id, t_claims db !! uuid_to_string (missing_claim_id m) with
    | None, Some _ =>
        Ok (tt, with_missing <[id := mkMissingEvidenceRow (missing_session_id m)
                  (uuid_to_string (missing_claim_id m)) (signal_class_tag (signal_class m))
                  (availability_tag (availability m)) (missing_detail m) (noted_at m)]> db)
    | _, _ => Err StoreDb
    end.
End store.
