(* ===== verification/EventRead.v ===== *)
(** * Reading the event store

    [fornax-store/src/lib.rs]: the reads of events, claims, evidence, the
    evidence graph and the findings joined with their claims. SQLite answers
    a query in some order of the rows that the [ORDER BY] leaves open: the
    order of a table scan is a parameter, and a sort is stable on top of it. *)

From S2P Require Import Prelude.
From S2P Require Import Types.
From S2P Require Import Text.
From S2P Require Import Graph.
From S2P Require Import Projection.
From S2P Require Import PolicyContent.
From S2P Require Import AuditEvent.
From S2P Require Import AuditLedger.
From S2P Require Import EventStore.

Local Open Scope fornax_scope.

(** The rows of a table, in the order the database visits them. *)
Class TableScan := { scan : ∀ {A : Type}, gmap string A → list (string * A) }.
Class TableScanOk `{TableScan} : Prop :=
  scan_rows : ∀ A (m : gmap string A), scan m ≡ₚ map_to_list m.

(** ** Rows back to values *)

Definition evidence_kind_of_tag (s : string) : option EvidenceKind :=
  list_find (λ k, evidence_kind_tag k = s)
    [ToolResult; ExitCode; FileDiff; ProcessObservation; TranscriptExcerpt] ≫= (λ x, Some x.2).
Definition relation_of_tag (s : string) : option EvidenceRelation :=
  list_find (λ r, relation_tag r = s) [Supports; Contradicts; Neutral] ≫= (λ x, Some x.2).
Definition signal_class_of_tag (s : string) : SignalClass :=
  match list_find (λ c, signal_class_tag c = s)
          [ToolInvocation; ToolTrace; ToolResultPayload; ProcessResult; SessionLifecycle;
           SubagentLifecycle; FinalResponse; ReasoningSummary; RawReasoning; TokenLogprobs;
           InternalModelSignals] with
  | Some (_, c) => c
  | None => ClassUnrecognized s
  end.
Definition availability_of_tag (s : string) : SignalAvailability :=
  match list_find (λ a, availability_tag a = s)
          [Available; Unsupported; SigUnavailable; Redacted; CollectionFailed; Unknown; Disabled]
  with
  | Some (_, a) => a
  | None => AvailabilityUnrecognized s
  end.

Section reads.
Context `{EventJson, TableScan}.

(** [Uuid::parse_str(..).unwrap_or_default()]. *)
Definition uuid_column (s : string) : Uuid := default 0%N (uuid_parse_str s).

Definition claim_of_row (id : string) (r : ClaimRow) : Claim :=
  mkClaim (uuid_column id) (crow_session_id r) (uuid_column (crow_source_event_id r))
    (crow_text r) (crow_subject r) (crow_claimed_at r).

Definition evidence_of_row (id : string) (r : EvidenceRow) : result StoreError Evidence :=
  match evidence_kind_of_tag (vrow_kind r), value_from_str (vrow_payload r),
        from_str_opt source_from_json (vrow_source r),
        from_str_opt extension_from_json (vrow_extension r) with
  | Some kind, Some payload, Some source, Some extension =>
      Ok (mkEvidence (uuid_column id) (vrow_session_id r) (uuid_column (vrow_source_event_id r))
            kind (vrow_observed_at r) payload (vrow_provenance r) source extension
            (vrow_evidence_purged r))
  | _, _, _, _ => Err (StoreJson "evidence row")
  end.

Definition link_of_row (id : string) (r : EvidenceLinkRow) : result StoreError EvidenceLink :=
  match relation_of_tag (lrow_relation r) with
  | Some relation =>
      Ok (mkEvidenceLink (uuid_column id) (lrow_session_id r) (uuid_column (lrow_claim_id r))
            (uuid_column (lrow_evidence_id r)) relation (lrow_linked_at r))
  | None => Err (StoreJson "claim_evidence_links row")
  end.

Definition missing_of_row (id : string) (r : MissingEvidenceRow) : MissingEvidence :=
  mkMissingEvidence (uuid_column id) (mrow_session_id r) (uuid_column (mrow_claim_id r))
    (signal_class_of_tag (mrow_signal_class r)) (availability_of_tag (mrow_availability r))
    (mrow_detail r) (mrow_noted_at r).

(** ** Queries *)

(** [SELECT .. WHERE P ORDER BY key ASC]. *)
Definition select_asc {A} (P : A → bool) (key : A → string) (table : gmap string A) :
    list (string * A) :=
  sort_by_key (λ x, key x.2) (filter (λ x, P x.2 = true) (scan table)).
(** [ORDER BY key DESC]. *)
Definition select_desc {A} (P : A → bool) (key : A → string) (table : gmap string A) :
    list (string * A) :=
  reverse (select_asc P key table).

Definition events_for_session (db : EventDb) (session : string) :
    result StoreError (list AgentEvent) :=
  collect_results ((λ x, event_of_row x.1 x.2) <$>
    select_asc (λ r, bool_decide (erow_session_id r = session)) erow_observed_at
      (t_agent_events db)).

Definition claims_for_session (db : EventDb) (session : string) : list Claim :=
  (λ x, claim_of_row x.1 x.2) <$>
    select_asc (λ r, bool_decide (crow_session_id r = session)) crow_claimed_at (t_claims db).

(** [EvidenceReadOutcome]: what could be read, and the id and the error of
    each row that could not. *)
Record EvidenceReadOutcome := mkEvidenceReadOutcome {
  ro_evidence : list Evidence;
  ro_failed : list (string * StoreError);
}.
Fixpoint read_evidence_rows (rows : list (string * EvidenceRow)) : EvidenceReadOutcome :=
  match rows with
  | [] => mkEvidenceReadOutcome [] []
  | (id, r) :: rows =>
      let rest := read_evidence_rows rows in
      match evidence_of_row id r with
      | Ok ev => mkEvidenceReadOutcome (ev :: ro_evidence rest) (ro_failed rest)
      | Err e => mkEvidenceReadOutcome (ro_evidence rest) ((id, e) :: ro_failed rest)
      end
  end.
Definition evidence_for_session (db : EventDb) (session : string) : EvidenceReadOutcome :=
  read_evidence_rows
    (select_asc (λ r, bool_decide (vrow_session_id r = session)) vrow_observed_at
       (t_evidence db)).

Definition evidence_graph_for_claim (db : EventDb) (claim_id session : string) :
    result StoreError EvidenceGraph :=
  let? links :=
    collect_results ((λ x, link_of_row x.1 x.2) <$>
      select_asc (λ r, bool_decide (lrow_claim_id r = claim_id ∧ lrow_session_id r = session))
        lrow_linked_at (t_links db)) in
  Ok (mkEvidenceGraph links
        ((λ x, missing_of_row x.1 x.2) <$>
           select_asc (λ r, bool_decide (mrow_claim_id r = claim_id ∧ mrow_session_id r = session))
             mrow_noted_at (t_missing db))).

Definition attribution_for_event (db : EventDb) (event_id : string) : option EventAttribution :=
  t_event_attribution db !! event_id.

(** ** Findings joined with their claims *)

Record FindingRow := mkFindingRow {
  fr_id : string;
  fr_row : FindingsRow;
  fr_claim_text : string;
  fr_session_id : string;
  fr_agent_id : option string;
  fr_agent_type : option string;
  fr_turn_id : option string;
}.

(** [JOIN claims .. LEFT JOIN event_attribution]: a finding without its claim
    has no row. *)
Definition join_finding (db : EventDb) (x : string * FindingsRow) : option FindingRow :=
  c ← t_claims db !! frow_claim_id x.2;
  let ea := t_event_attribution db !! crow_source_event_id c in
  Some (mkFindingRow x.1 x.2 (crow_text c) (crow_session_id c) (ea ≫= at_agent_id)
          (ea ≫= at_agent_type) (ea ≫= at_turn_id)).

(** [LIMIT n]: a negative bound is no bound. *)
Definition sql_limit {A} (n : Z) (l : list A) : list A :=
  if decide (n < 0)%Z then l else take (Z.to_nat n) l.

Definition joined_findings (db : EventDb) : list FindingRow :=
  omap (join_finding db) (select_desc (λ _, true) frow_computed_at (t_findings db)).
Definition recent_findings (db : EventDb) (limit : Z) : list FindingRow :=
  sql_limit limit (joined_findings db).
Definition finding_by_id (db : EventDb) (id : string) : option FindingRow :=
  r ← t_findings db !! id; join_finding db (id, r).
Definition findings_for_session (db : EventDb) (session : string) : list FindingRow :=
  filter (λ f, fr_session_id f = session) (joined_findings db).
Definition latest_finding_for_session (db : EventDb) (session : string) : option FindingRow :=
  head (sql_limit 1 (findings_for_session db session)).

Definition observed_counts (db : EventDb) : Z * Z * Z :=
  (Z.of_nat (size (t_agent_events db)),
   Z.of_nat (size (list_to_set ((λ x, erow_session_id x.2) <$> map_to_list (t_agent_events db))
                    : gset string)),
   Z.of_nat (size (t_claims db))).
End reads.

(** ** Legacy sessions *)

Definition ATTRIBUTION_NATIVE : string := "native".
Definition ATTRIBUTION_LEGACY_UNATTRIBUTED : string := "legacy_unattributed".
Definition session_attribution (session : string) : string :=
  if decide (session = "unknown" ∨ 47%N ∈ string_bytes session ∨ 92%N ∈ string_bytes session)
  then ATTRIBUTION_LEGACY_UNATTRIBUTED else ATTRIBUTION_NATIVE.
