(* ===== verification/Retention.v ===== *)
(** * Retention and deletion

    [fornax-store/src/retention.rs]: the retention classes and their
    durations, erasing a tenant's records, purging expired evidence, and the
    bounded sweep over the lineage tags; and the cycle of
    [fornax-daemon/src/retention_sweep.rs] that drives it. The identifiers of
    audit events and the clock are arguments. *)

From S2P Require Import Prelude.
From S2P Require Import Types.
From S2P Require Import Text.
From S2P Require Import Redact.
From S2P Require Import AuditEvent.
From S2P Require Import AuditLedger.
From S2P Require Import Projection.
From S2P Require Import EventStore.
From S2P Require Import EventRead.

Local Open Scope fornax_scope.

(** ** Durations, in seconds *)

Definition RAW_LOCAL_RETENTION : Z := 30 * 24 * 3600.
Definition SANITIZED_REPLAY_FIXTURE_RETENTION : Z := 180 * 24 * 3600.
Definition AGGREGATED_FEATURE_RETENTION : Z := 365 * 24 * 3600.
Definition DERIVED_FINDING_RETENTION : Z := 365 * 24 * 3600.
Definition SANITIZED_CANDIDATE_RETENTION : Z := 180 * 24 * 3600.

Definition KNOWN_RECORD_TABLES : list string :=
  ["agent_events"; "claims"; "evidence"; "findings"; "corpus_candidates"; "adjudication_queue";
   "adjudication_views"; "adjudication_reviews"; "acquisition_log"; "review_feedback";
   "ingest_quarantine"; "evidence_consumption"].

Definition retention_duration_for (class : RetentionClass) : Z :=
  match class with
  | RawLocal => RAW_LOCAL_RETENTION
  | SanitizedReplayFixture => SANITIZED_REPLAY_FIXTURE_RETENTION
  | SanitizedCandidate => SANITIZED_CANDIDATE_RETENTION
  | AggregatedFeature => AGGREGATED_FEATURE_RETENTION
  | DerivedFinding => DERIVED_FINDING_RETENTION
  | RetentionUnrecognized _ => RAW_LOCAL_RETENTION
  end.

(** The answers of the two privacy gates are arguments. *)
Definition longitudinal_persistence_allowed
    (corpus_mining_allowed longitudinal_reliability_collection_allowed : bool)
    (class : RetentionClass) : bool :=
  match class with
  | RawLocal | SanitizedReplayFixture => true
  | SanitizedCandidate => corpus_mining_allowed
  | AggregatedFeature | DerivedFinding | RetentionUnrecognized _ =>
      longitudinal_reliability_collection_allowed
  end.

Definition dquote : string := String (Ascii.ascii_of_nat 34) "".
(** [{"raw_content_expired":true}]. *)
Definition RAW_PURGED_MARKER : string :=
  "{" +:+ dquote +:+ "raw_content_expired" +:+ dquote +:+ ":true}".
Definition CLAIM_TEXT_PURGED_MARKER : string := "[claim text expired]".

Definition evidence_expired_payload_marker : Value :=
  JObject
    [("detail", JString "raw evidence payload purged per local retention policy; the finding/verdict this evidence once supported is unaffected");
     ("evidence_expired", JBool true)].

(** ** Deleting one row

    A [DELETE] by primary key. The row of an event is referenced by claims
    and evidence, that of a claim by findings, links and notes of missing
    evidence, that of evidence by links; an event's attribution goes with it.
    Deleting a row that does not exist deletes nothing. *)
Inductive SqlDelete :=
| RowDeleted (db : EventDb)
| ForeignKeyViolation
| UnknownTable.

Definition event_referenced (id : string) (db : EventDb) : Prop :=
  map_Exists (λ _ c, crow_source_event_id c = id) (t_claims db) ∨
  map_Exists (λ _ v, vrow_source_event_id v = id) (t_evidence db).
Definition claim_referenced (id : string) (db : EventDb) : Prop :=
  map_Exists (λ _ f, frow_claim_id f = id) (t_findings db) ∨
  map_Exists (λ _ l, lrow_claim_id l = id) (t_links db) ∨
  map_Exists (λ _ m, mrow_claim_id m = id) (t_missing db).
Definition evidence_referenced (id : string) (db : EventDb) : Prop :=
  map_Exists (λ _ l, lrow_evidence_id l = id) (t_links db).
#[export] Instance event_referenced_dec id db : Decision (event_referenced id db).
Proof. unfold event_referenced; apply _. Defined.
#[export] Instance claim_referenced_dec id db : Decision (claim_referenced id db).
Proof. unfold claim_referenced; apply _. Defined.
#[export] Instance evidence_referenced_dec id db : Decision (evidence_referenced id db).
Proof. unfold evidence_referenced; apply _. Defined.

Definition delete_event (id : string) (db : EventDb) : SqlDelete :=
  match t_agent_events db !! id with
  | None => RowDeleted db
  | Some _ =>
      if decide (event_referenced id db) then ForeignKeyViolation
      else RowDeleted (with_attribution (delete id) (with_events (delete id) db))
  end.
Definition delete_claim (id : string) (db : EventDb) : SqlDelete :=
  match t_claims db !! id with
  | None => RowDeleted db
  | Some _ =>
      if decide (claim_referenced id db) then ForeignKeyViolation
      else RowDeleted (with_claims (delete id) db)
  end.
Definition delete_evidence (id : string) (db : EventDb) : SqlDelete :=
  match t_evidence db !! id with
  | None => RowDeleted db
  | Some _ =>
      if decide (evidence_referenced id db) then ForeignKeyViolation
      else RowDeleted (with_evidence (delete id) db)
  end.
Definition delete_from (record_table id : string) (db : EventDb) : SqlDelete :=
  if decide (record_table = "agent_events") then delete_event id db
  else if decide (record_table = "claims") then delete_claim id db
  else if decide (record_table = "evidence") then delete_evidence id db
  else if decide (record_table = "findings") then RowDeleted (with_findings (delete id) db)
  else if decide (record_table ∈ KNOWN_RECORD_TABLES)
  then RowDeleted (with_documents (delete (record_table, id)) db)
  else UnknownTable.

(** ** Tags *)

Record LineageTagRecord := mkLineageTagRecord {
  lr_record_table : string;
  lr_record_id : string;
  lr_tag : DatasetLineageTag;
}.

Section retention.
Context `{EventJson, UuidOps}.

(** [TryFrom<LineageTagRow>]: any retention class is read, the list of source
    records may not be. *)
Definition lineage_record_of_row (r : LineageTagRow) : result StoreError LineageTagRecord :=
  match uuids_from_json (lt_source_record_ids r) with
  | None => Err (StoreJson "source_record_ids")
  | Some ids =>
      Ok (mkLineageTagRecord (lt_record_table r) (lt_record_id r)
            (mkDatasetLineageTag (Z.to_N (lt_schema_version r mod 2 ^ 32)%Z)
               (retention_class_of_tag (lt_retention_class r)) (lt_tenant_ref r) ids
               (lt_recorded_at r) (lt_deletion_requested_at r)))
  end.

Definition record_lineage_tag (sql : Sqlite) (record_table record_id : string)
    (tag : DatasetLineageTag) (db : EventDb) : result StoreError unit * EventDb :=
  in_tx sql db (Ok (tt, insert_lineage_tag_row record_table record_id tag db)).

Definition tenant_rows (tenant : string) (db : EventDb) : list LineageTagRow :=
  filter (λ r, lt_tenant_ref r = tenant) (t_lineage db).
Definition lineage_tags_for_tenant (tenant : string) (db : EventDb) :
    result StoreError (list LineageTagRecord) :=
  collect_results (lineage_record_of_row <$> tenant_rows tenant db).

(** [COUNT(star), MIN(recorded_at)]. *)
Definition retention_class_observation (class : RetentionClass) (db : EventDb) :
    nat * option string :=
  let rows := filter (λ r, lt_retention_class r = retention_class_tag class) (t_lineage db) in
  (length rows, head (sort_by_key id (lt_recorded_at <$> rows))).

(** ** Erasing a tenant *)

Record DeletionReport := mkDeletionReport {
  deleted_records : list (string * string);
  unknown_table_records : list (string * string);
}.
Definition total_processed (r : DeletionReport) : nat :=
  length (deleted_records r) + length (unknown_table_records r).

Fixpoint delete_tagged (tags : list LineageTagRecord) (report : DeletionReport) (db : EventDb) :
    result StoreError (DeletionReport * EventDb) :=
  match tags with
  | [] => Ok (report, db)
  | t :: tags =>
      let key := (lr_record_table t, lr_record_id t) in
      match delete_from (lr_record_table t) (lr_record_id t) db with
      | RowDeleted db =>
          delete_tagged tags
            (mkDeletionReport (deleted_records report ++ [key]) (unknown_table_records report)) db
      | UnknownTable =>
          delete_tagged tags
            (mkDeletionReport (deleted_records report) (unknown_table_records report ++ [key])) db
      | ForeignKeyViolation => Err StoreDb
      end
  end.

Definition delete_records_for_tenant (sql : Sqlite) (tenant : string) (db : EventDb) :
    result StoreError DeletionReport * EventDb :=
  in_tx sql db
    (let? tags := lineage_tags_for_tenant tenant db in
     let? res := delete_tagged tags (mkDeletionReport [] []) db in
     Ok (res.1, with_lineage (filter (λ r, lt_tenant_ref r ≠ tenant)) res.2)).

(** ** Purging *)

Definition purge_evidence_row (r : EvidenceRow) : EvidenceRow :=
  mkEvidenceRow (vrow_session_id r) (vrow_source_event_id r) (vrow_kind r) (vrow_observed_at r)
    (value_to_string evidence_expired_payload_marker) (vrow_provenance r) (vrow_source r)
    (vrow_extension r) true (vrow_ingress_origin r).
Definition purge_event_row (r : EventRow) : EventRow :=
  mkEventRow (erow_session_id r) (erow_provider r) (erow_kind r) (erow_observed_at r)
    (erow_tool_name r) None None RAW_PURGED_MARKER.
Definition purge_claim_row (r : ClaimRow) : ClaimRow :=
  mkClaimRow (crow_session_id r) (crow_source_event_id r) CLAIM_TEXT_PURGED_MARKER
    (crow_subject r) (crow_claimed_at r).

(** Whether a row was there, and the table after the [UPDATE]. *)
Definition purge_evidence_payload_row (id : string) (db : EventDb) : bool * EventDb :=
  (bool_decide (is_Some (t_evidence db !! id)), with_evidence (alter purge_evidence_row id) db).

Definition is_evidence_purged (id : string) (db : EventDb) : option bool :=
  vrow_evidence_purged <$> t_evidence db !! id.

Context `{Chrono, ChronoFmt, Sha256, AuditWire}.

Definition evidence_purged_audit_event (uuid evidence_id : string) (now : Z) : AuditEvent :=
  new_audit_event uuid (to_rfc3339 now) ActorSystem EvidencePurged (TargetEvidence evidence_id)
    OutcomeExpired Metadata.

Inductive RecordAuditTable := AgentEvents | Claims.
Inductive RecordDisposition := Deleted | PurgedInPlace.

Definition record_purged_audit_event (uuid : string) (table : RecordAuditTable) (id : string)
    (disposition : RecordDisposition) (now : Z) : AuditEvent :=
  with_attributes
    (new_audit_event uuid (to_rfc3339 now) ActorSystem RecordPurged
       (match table with AgentEvents => TargetAgentEvent id | Claims => TargetClaim id end)
       OutcomeExpired Metadata)
    (JObject [("disposition",
               JString (match disposition with
                        | Deleted => "deleted" | PurgedInPlace => "purged_in_place" end))]).

(** The audit event is appended after the [UPDATE], in a transaction of its
    own. *)
Definition purge_evidence_payload (sql sql' : Sqlite) (evidence_id : string) (now : Z)
    (uuid : string) (db : EventDb) : result StoreError bool * EventDb :=
  let '(r, db) := in_tx sql db (Ok (purge_evidence_payload_row evidence_id db)) in
  match r with
  | Ok true =>
      let '(a, ledger) :=
        append_audit_event sql' (t_audit db)
          (evidence_purged_audit_event uuid evidence_id now) now in
      ((let? u := a in Ok true), with_audit ledger db)
  | r => (r, db)
  end.

(** ** The sweep *)

Definition is_expired (recorded_at : string) (class : RetentionClass) (now : Z) : bool :=
  match parse_from_rfc3339 recorded_at with
  | None => false
  | Some t => bool_decide (retention_duration_for class * nanos_per_second ≤ now - t)%Z
  end.

Definition SweepKey : Type := string * (string * string).
Definition sweep_key (r : LineageTagRow) : SweepKey :=
  (lt_recorded_at r, (lt_record_table r, lt_record_id r)).

Definition unit_separator : Ascii.ascii := Ascii.ascii_of_nat 1.
Definition sweep_cursor_token (k : SweepKey) : string :=
  k.1 +:+ String unit_separator (k.2.1 +:+ String unit_separator k.2.2).

(** [str::split_once] on the separator; [splitn(3, ..)] splits twice. *)
Fixpoint split_separator (s : string) : option (string * string) :=
  match s with
  | EmptyString => None
  | String a s' =>
      if decide (a = unit_separator) then Some ("", s')
      else (λ p, (String a p.1, p.2)) <$> split_separator s'
  end.
Definition parse_sweep_cursor (cursor : option string) : SweepKey :=
  match cursor ≫= split_separator with
  | Some (a, rest) =>
      match split_separator rest with
      | Some (b, c) => (a, (b, c))
      | None => ("", ("", ""))
      end
  | None => ("", ("", ""))
  end.

(** The keyset page after the cursor. *)
Definition sweep_page (cursor : SweepKey) (batch_size : Z) (rows : list LineageTagRow) :
    list LineageTagRow :=
  sql_limit batch_size (sort_by_key sweep_key (filter (λ r, ¬ ord_le (sweep_key r) cursor) rows)).

Record SweepReport := mkSweepReport {
  examined : nat;
  purged_evidence : nat;
  sw_deleted_records : nat;
  purged_in_place : nat;
  unknown_table_skipped : nat;
  more_remaining : bool;
  next_cursor : option string;
}.

(** What the loop over the page carries. *)
Record SweepState := mkSweepState {
  ss_db : EventDb;
  ss_deleted : nat;
  ss_in_place : nat;
  ss_unknown : nat;
  ss_evidence_ids : list string;
  ss_records : list (RecordAuditTable * string * RecordDisposition);
}.
Definition purged_record (st : SweepState) (t : RecordAuditTable) (id : string)
    (d : RecordDisposition) (db : EventDb) : SweepState :=
  mkSweepState db
    (match d with Deleted => S (ss_deleted st) | PurgedInPlace => ss_deleted st end)
    (match d with Deleted => ss_in_place st | PurgedInPlace => S (ss_in_place st) end)
    (ss_unknown st) (ss_evidence_ids st) (ss_records st ++ [(t, id, d)]).

Definition sweep_record (record_table id : string) (st : SweepState) :
    result StoreError SweepState :=
  let db := ss_db st in
  if decide (record_table = "evidence") then
    Ok (mkSweepState (purge_evidence_payload_row id db).2 (ss_deleted st) (ss_in_place st)
          (ss_unknown st) (ss_evidence_ids st ++ [id]) (ss_records st))
  else if decide (record_table = "agent_events") then
    match delete_from "agent_events" id db with
    | RowDeleted db' => Ok (purged_record st AgentEvents id Deleted db')
    | ForeignKeyViolation =>
        Ok (purged_record st AgentEvents id PurgedInPlace
              (with_events (alter purge_event_row id) db))
    | UnknownTable => Err StoreDb
    end
  else if decide (record_table = "claims") then
    match delete_from "claims" id db with
    | RowDeleted db' => Ok (purged_record st Claims id Deleted db')
    | ForeignKeyViolation =>
        Ok (purged_record st Claims id PurgedInPlace (with_claims (alter purge_claim_row id) db))
    | UnknownTable => Err StoreDb
    end
  else
    match delete_from record_table id db with
    | RowDeleted db' =>
        Ok (mkSweepState db' (S (ss_deleted st)) (ss_in_place st) (ss_unknown st)
              (ss_evidence_ids st) (ss_records st))
    | ForeignKeyViolation => Err StoreDb
    | UnknownTable =>
        Ok (mkSweepState db (ss_deleted st) (ss_in_place st) (S (ss_unknown st))
              (ss_evidence_ids st) (ss_records st))
    end.

(** [DELETE FROM dataset_lineage_tags WHERE record_table = .. AND record_id = ..]. *)
Definition untag (record_table id : string) (db : EventDb) : EventDb :=
  with_lineage
    (filter (λ r, ¬ (lt_record_table r = record_table ∧ lt_record_id r = id))) db.
Definition with_ss_db (f : EventDb → EventDb) (st : SweepState) : SweepState :=
  mkSweepState (f (ss_db st)) (ss_deleted st) (ss_in_place st) (ss_unknown st)
    (ss_evidence_ids st) (ss_records st).

Fixpoint sweep_rows (now : Z) (rows : list LineageTagRow) (st : SweepState) :
    result StoreError SweepState :=
  match rows with
  | [] => Ok st
  | r :: rows =>
      let? record := lineage_record_of_row r in
      let table := lr_record_table record in
      let id := lr_record_id record in
      if is_expired (lt_recorded_at r) (dl_retention_class (lr_tag record)) now then
        let? st := sweep_record table id st in
        sweep_rows now rows (with_ss_db (untag table id) st)
      else sweep_rows now rows st
  end.

(** The audit events of a sweep, with the [i]-th drawn identifier [fresh i]. *)
Definition sweep_audit_events (fresh : nat → string) (now : Z) (st : SweepState) :
    list AuditEvent :=
  imap (λ i mk, mk (fresh i))
    (((λ id uuid, evidence_purged_audit_event uuid id now) <$> ss_evidence_ids st) ++
     ((λ x uuid, record_purged_audit_event uuid x.1.1 x.1.2 x.2 now) <$> ss_records st)).

Fixpoint append_audit_events (events : list AuditEvent) (now : Z) (ledger : LedgerDb) :
    result StoreError LedgerDb :=
  match events with
  | [] => Ok ledger
  | e :: events =>
      let redacted := with_attributes e (redact_json (attributes e)) in
      let? res := append_audit_event_locked ledger redacted now in
      append_audit_events events now res.2
  end.

(** [batch_size as usize]. *)
Definition as_usize (n : Z) : Z := n mod 2 ^ 64.

Definition sweep_body (fresh : nat → string) (now : Z) (cursor : option string)
    (batch_size : Z) (db : EventDb) : result StoreError (SweepReport * EventDb) :=
  let rows := sweep_page (parse_sweep_cursor cursor) batch_size (t_lineage db) in
  let? st := sweep_rows now rows (mkSweepState db 0 0 0 [] []) in
  let? ledger := append_audit_events (sweep_audit_events fresh now st) now (t_audit db) in
  let more := bool_decide (Z.of_nat (length rows) = as_usize batch_size) in
  Ok (mkSweepReport (length rows) (length (ss_evidence_ids st)) (ss_deleted st) (ss_in_place st)
        (ss_unknown st) more
        (if more then (λ r, sweep_cursor_token (sweep_key r)) <$> last rows else None),
      with_audit ledger (ss_db st)).

Definition sweep_expired_records (sql : Sqlite) (fresh : nat → string) (now : Z)
    (cursor : option string) (batch_size : Z) (db : EventDb) :
    result StoreError SweepReport * EventDb :=
  in_tx sql db (sweep_body fresh now cursor batch_size db).

(** ** The daemon's cycle *)

Definition DEFAULT_INTERVAL_SECONDS : Z := 3600.
Definition MIN_INTERVAL_SECONDS : Z := 60.
Definition DEFAULT_BATCH_SIZE : Z := 500.
Definition MAX_BATCHES_PER_CYCLE : nat := 50.
Definition DEFAULT_MAX_STORE_SIZE_BYTES : Z := 500 * 1024 * 1024.

Record SweepConfig := mkSweepConfig {
  sc_interval : Z;
  sc_batch_size : Z;
  sc_max_store_size_bytes : Z;
}.
(** The environment variables that are set and parse. *)
Definition resolve_config (interval batch_size max_store_size : option Z) : SweepConfig :=
  mkSweepConfig (Z.max (default DEFAULT_INTERVAL_SECONDS interval) MIN_INTERVAL_SECONDS)
    (match batch_size with
     | Some n => if decide (0 < n)%Z then n else DEFAULT_BATCH_SIZE
     | None => DEFAULT_BATCH_SIZE
     end)
    (default DEFAULT_MAX_STORE_SIZE_BYTES max_store_size).

(** The answers of the clock, SQLite and the uuid generator to the batches
    from the [i]-th on. *)
Record BatchWorld := mkBatchWorld {
  bw_sql : nat → Sqlite;
  bw_now : nat → Z;
  bw_fresh : nat → nat → string;
}.

Fixpoint sweep_batches (w : BatchWorld) (batch_size : Z) (i : nat) (fuel : nat)
    (cursor : option string) (db : EventDb) : option string * EventDb :=
  match fuel with
  | O => (cursor, db)
  | S fuel =>
      let '(r, db) :=
        sweep_expired_records (bw_sql w i) (bw_fresh w i) (bw_now w i) cursor batch_size db in
      match r with
      | Err _ => (cursor, db)
      | Ok report =>
          if more_remaining report
          then sweep_batches w batch_size (S i) fuel (next_cursor report) db
          else (next_cursor report, db)
      end
  end.

(** [run_one_cycle]: [staged] is whether the upload outbox could be staged
    (which writes none of these tables), [consent_live] whether an upload
    consent is live. *)
Definition run_one_cycle (w : BatchWorld) (staged consent_live : bool) (cursor : option string)
    (config : SweepConfig) (db : EventDb) : option string * EventDb :=
  if negb staged && consent_live then (cursor, db)
  else sweep_batches w (sc_batch_size config) 0 MAX_BATCHES_PER_CYCLE cursor db.
End retention.
