(* ===== verification/RetentionInv.v ===== *)
(** * Invariants of the event store

    Referential integrity, and the governance of content by retention: every
    row of the four record tables has a lineage tag, through which a sweep
    finds it, or its content is already purged. Every operation of the store
    preserves them, and changes the audit ledger only by appending. *)

From S2P Require Import Prelude.
From S2P Require Import Types.
From S2P Require Import Text.
From S2P Require Import Redact.
From S2P Require Import Graph.
From S2P Require Import Projection.
From S2P Require Import AuditEvent.
From S2P Require Import AuditLedger.
From S2P Require Import AuditLedgerSpec.
From S2P Require Import ExecutionIdentity.
From S2P Require Import EventStore.
From S2P Require Import EventRead.
From S2P Require Import Retention.

Local Open Scope fornax_scope.

(** [serde_json]'s round trip of a list of uuids. *)
Class EventJsonOk `{EventJson} : Prop :=
  uuids_json_roundtrip : ∀ l, uuids_from_json (uuids_to_json l) = Some l.

Definition tagged (db : EventDb) (table id : string) : Prop :=
  ∃ r, r ∈ t_lineage db ∧ lt_record_table r = table ∧ lt_record_id r = id.

Section inv.
Context `{EventJson, !EventJsonOk, UuidOps}.
Context `{Chrono, ChronoFmt, Sha256, AuditWire}.
Implicit Types (db : EventDb).

Record store_ok db : Prop := mkStoreOk {
  (** referential integrity *)
  ok_attribution id a :
    t_event_attribution db !! id = Some a → is_Some (t_agent_events db !! id);
  ok_claim id c :
    t_claims db !! id = Some c → is_Some (t_agent_events db !! crow_source_event_id c);
  ok_evidence id v :
    t_evidence db !! id = Some v → is_Some (t_agent_events db !! vrow_source_event_id v);
  ok_finding id f : t_findings db !! id = Some f → is_Some (t_claims db !! frow_claim_id f);
  ok_link id l :
    t_links db !! id = Some l →
    is_Some (t_claims db !! lrow_claim_id l) ∧ is_Some (t_evidence db !! lrow_evidence_id l);
  ok_missing id m : t_missing db !! id = Some m → is_Some (t_claims db !! mrow_claim_id m);
  (** governance: a row is tagged or purged already *)
  ok_event_governed id r :
    t_agent_events db !! id = Some r → tagged db "agent_events" id ∨ purge_event_row r = r;
  ok_claim_governed id r :
    t_claims db !! id = Some r → tagged db "claims" id ∨ purge_claim_row r = r;
  ok_evidence_governed id r :
    t_evidence db !! id = Some r → tagged db "evidence" id ∨ purge_evidence_row r = r;
  ok_finding_governed id r : t_findings db !! id = Some r → tagged db "findings" id;
  (** every tag can be read back *)
  ok_readable r : r ∈ t_lineage db → is_Some (uuids_from_json (lt_source_record_ids r));
}.

Lemma empty_store_ok : store_ok empty_event_db.
Proof. split; simpl; intros *; rewrite ?lookup_empty; try done. by intros ?%elem_of_nil. Qed.

(** ** Transactions *)

Lemma in_tx_preserves {A} (P : EventDb → Prop) sql db (body : result StoreError (A * EventDb)) :
  P db → (∀ a db', body = Ok (a, db') → P db') → P (in_tx sql db body).2.
Proof.
  intros Hdb Hbody. unfold in_tx. destruct sql; [| |done]; destruct body as [[a db']|]; simpl; eauto.
Qed.

Lemma in_tx_ok {A} sql db (body : result StoreError (A * EventDb)) a db' :
  in_tx sql db body = (Ok a, db') → body = Ok (a, db').
Proof. unfold in_tx. destruct sql, body as [[]|]; naive_solver. Qed.
Lemma in_tx_err {A} sql db (body : result StoreError (A * EventDb)) e db' :
  in_tx sql db body = (Err e, db') → db' = db.
Proof. unfold in_tx. destruct sql, body as [[]|]; naive_solver. Qed.

(** ** Tagging *)

Lemma tagged_mono db db' table id :
  (∀ r, r ∈ t_lineage db → r ∈ t_lineage db') → tagged db table id → tagged db' table id.
Proof. intros Hsub (r & Hr & ?). exists r. eauto. Qed.

Lemma tagged_insert db table id tag t i :
  tagged (insert_lineage_tag_row table id tag db) t i ↔
  tagged db t i ∨ (t = table ∧ i = id).
Proof.
  unfold tagged, insert_lineage_tag_row; simpl. split.
  - intros (r & Hr & <- & <-). apply elem_of_app in Hr as [Hr|Hr%list_elem_of_singleton].
    + left. eauto.
    + right. by subst r.
  - intros [(r & Hr & ? & ?)|[-> ->]].
    + exists r. rewrite elem_of_app. eauto.
    + eexists. rewrite elem_of_app, list_elem_of_singleton. eauto.
Qed.

Lemma insert_tag_ok table id tag db :
  store_ok db → store_ok (insert_lineage_tag_row table id tag db).
Proof.
  intros [? ? ? ? ? ? He Hc Hv Hf Hr]. split; try done.
  1-4: intros i r Hi; rewrite tagged_insert;
       first [destruct (He i r Hi)|destruct (Hc i r Hi)|destruct (Hv i r Hi)|specialize (Hf i r Hi)];
       by eauto.
  intros r. unfold insert_lineage_tag_row; simpl. rewrite elem_of_app, list_elem_of_singleton.
  intros [Hin| ->]; [eauto|]. simpl. rewrite uuids_json_roundtrip. eauto.
Qed.

(** ** Rows added by the store *)

Lemma insert_is_Some {A} (m : gmap string A) k v i : is_Some (m !! i) → is_Some (<[k:=v]> m !! i).
Proof. rewrite lookup_insert_is_Some'. eauto. Qed.
Hint Resolve insert_is_Some : core.

(** Case analysis on a lookup in a table that gained a row. *)
Ltac lookup_new H :=
  apply lookup_insert_Some in H as [[<- <-]|[_ H]].

Lemma event_row_ok id r db :
  store_ok db → tagged db "agent_events" id → store_ok (with_events <[id := r]> db).
Proof.
  intros [Ha Hc Hv ? ? ? He ? ? ? ?] Ht. split; simpl; try done; eauto.
  intros i r' Hi. lookup_new Hi; [by left|eauto].
Qed.
Lemma attribution_row_ok id a db :
  store_ok db → is_Some (t_agent_events db !! id) → store_ok (with_attribution <[id := a]> db).
Proof.
  intros [Ha ? ? ? ? ? ? ? ? ? ?] Hid. split; simpl; try done.
  intros i a' Hi. lookup_new Hi; eauto.
Qed.
Lemma claim_row_ok id c db :
  store_ok db → tagged db "claims" id → is_Some (t_agent_events db !! crow_source_event_id c) →
  store_ok (with_claims <[id := c]> db).
Proof.
  intros [? Hc ? Hf Hl Hm ? Hg ? ? ?] Ht Hs. split; simpl; try done; eauto.
  - intros i c' Hi. lookup_new Hi; eauto.
  - intros i l Hi. destruct (Hl i l Hi). eauto.
  - intros i r Hi. lookup_new Hi; eauto.
Qed.
Lemma evidence_row_ok id v db :
  store_ok db → tagged db "evidence" id → is_Some (t_agent_events db !! vrow_source_event_id v) →
  store_ok (with_evidence <[id := v]> db).
Proof.
  intros [? ? Hv ? Hl ? ? ? Hg ? ?] Ht Hs. split; simpl; try done; eauto.
  - intros i c' Hi. lookup_new Hi; eauto.
  - intros i l Hi. destruct (Hl i l Hi). eauto.
  - intros i r Hi. lookup_new Hi; eauto.
Qed.
Lemma finding_row_ok id f db :
  store_ok db → tagged db "findings" id → is_Some (t_claims db !! frow_claim_id f) →
  store_ok (with_findings <[id := f]> db).
Proof.
  intros [? ? ? Hf ? ? ? ? ? Hg ?] Ht Hs. split; simpl; try done.
  - intros i f' Hi. lookup_new Hi; eauto.
  - intros i r Hi. lookup_new Hi; eauto.
Qed.
Lemma link_row_ok id l db :
  store_ok db → is_Some (t_claims db !! lrow_claim_id l) →
  is_Some (t_evidence db !! lrow_evidence_id l) → store_ok (with_links <[id := l]> db).
Proof.
  intros [? ? ? ? Hl ? ? ? ? ? ?] ? ?. split; simpl; try done.
  intros i l' Hi. lookup_new Hi; eauto.
Qed.
Lemma missing_row_ok id m db :
  store_ok db → is_Some (t_claims db !! mrow_claim_id m) →
  store_ok (with_missing <[id := m]> db).
Proof.
  intros [? ? ? ? ? Hm ? ? ? ? ?] ?. split; simpl; try done.
  intros i m' Hi. lookup_new Hi; eauto.
Qed.
Lemma with_audit_ok l db : store_ok db → store_ok (with_audit l db).
Proof. by intros []. Qed.
Lemma with_documents_ok f db : store_ok db → store_ok (with_documents f db).
Proof. by intros []. Qed.

Lemma tag_record_tagged table id session at_ db : tagged (tag_record table id session at_ db) table id.
Proof. apply tagged_insert. by right. Qed.
Lemma tag_record_ok table id session at_ db :
  store_ok db → store_ok (tag_record table id session at_ db).
Proof. apply insert_tag_ok. Qed.
Hint Resolve tag_record_ok tag_record_tagged : core.

(** ** Inserts *)

Lemma ignore_attribution_ok id a db :
  store_ok db → is_Some (t_agent_events db !! id) → store_ok (ignore_attribution id a db).
Proof.
  intros Hok Hid. unfold ignore_attribution.
  destruct (t_event_attribution db !! id); [done|by apply attribution_row_ok].
Qed.

(** The event row and its tag may be written in either order. *)
Lemma event_insert_ok e recorded_at db :
  store_ok db →
  store_ok (tag_record "agent_events" (uuid_to_string (ae_id e)) (ae_session_id e) recorded_at
    (insert_event_attribution e (provider_tag (ae_provider e))
      (with_events <[uuid_to_string (ae_id e) := event_row e]> db))).
Proof.
  intros Hok. set (id := uuid_to_string (ae_id e)).
  assert (store_ok (with_events <[id := event_row e]>
    (tag_record "agent_events" id (ae_session_id e) recorded_at db))) as Hev.
  { apply event_row_ok; auto. }
  unfold insert_event_attribution. case_bool_decide; [exact Hev|].
  unfold ignore_attribution. simpl. fold id.
  destruct (t_event_attribution db !! id); [exact Hev|].
  refine (attribution_row_ok id _ _ Hev _). simpl. rewrite lookup_insert_eq. eauto.
Qed.

Lemma insert_event_body_ok e recorded_at db a db' :
  store_ok db → insert_event_body e recorded_at db = Ok (a, db') → store_ok db'.
Proof.
  intros Hok. unfold insert_event_body.
  destruct (t_agent_events db !! _) as [r|]; [destruct (same_event r e); naive_solver|].
  intros [= <- <-]. by apply event_insert_ok.
Qed.
Lemma insert_event_ok sql e recorded_at db :
  store_ok db → store_ok (insert_event sql e recorded_at db).2.
Proof.
  intros Hok. unfold insert_event. destruct (is_blank _); [done|].
  apply in_tx_preserves; [done|]. intros *. by apply insert_event_body_ok.
Qed.

(** An event the store accepted is there. *)
Lemma insert_event_present sql e recorded_at db o db' :
  insert_event sql e recorded_at db = (Ok o, db') →
  is_Some (t_agent_events db' !! uuid_to_string (ae_id e)).
Proof.
  unfold insert_event. destruct (is_blank _); [done|]. intros Hi%in_tx_ok. revert Hi.
  unfold insert_event_body. destruct (t_agent_events db !! _) as [r|] eqn:E.
  - destruct (same_event r e); [|done]. intros [= <- <-]. rewrite E. eauto.
  - intros [= <- <-]. unfold insert_event_attribution, ignore_attribution. simpl.
    case_bool_decide; [|destruct (t_event_attribution db !! _)]; simpl;
      rewrite lookup_insert_eq; eauto.
Qed.

Lemma insert_bound_host_event_ok sql sql' e identity recorded_at db :
  store_ok db → store_ok (insert_bound_host_event sql sql' e identity recorded_at db).2.
Proof.
  intros Hok. unfold insert_bound_host_event. case_decide; [done|]. case_decide; [done|].
  pose proof (insert_event_ok sql e recorded_at db Hok) as Hok'.
  destruct (insert_event sql e recorded_at db) as [[o|err] db'] eqn:E; [|done]. simpl in Hok'.
  case_bool_decide; [done|]. destruct sql'; [|done..]. simpl.
  apply ignore_attribution_ok; [done|]. by eapply insert_event_present.
Qed.

Lemma insert_claim_inner_ok sql c check recorded_at db :
  store_ok db → store_ok (insert_claim_inner sql c check recorded_at db).2.
Proof.
  intros Hok. unfold insert_claim_inner. destruct (is_blank _); [done|].
  pose proof (in_tx_preserves store_ok sql db (insert_claim_body c check recorded_at db)) as Htx.
  destruct (in_tx _ _ _) as [r db1]. simpl in *. apply Htx; [done|]. clear Htx.
  unfold insert_claim_body. intros a db'. destruct (check_source c check db) as [u|]; simpl; [|done].
  destruct (t_claims db !! _) as [r'|]; [by case_decide; intros [= <- <-]|].
  destruct (t_agent_events db !! _) as [r'|] eqn:E; [|done]. intros [= <- <-].
  refine (claim_row_ok _ (claim_row c) (tag_record _ _ _ _ db) _ _ _); [auto..|]. simpl.
  rewrite E. eauto.
Qed.

Lemma insert_evidence_ok sql ev origin recorded_at db :
  store_ok db → store_ok (insert_evidence_with_origin_opt sql ev origin recorded_at db).2.
Proof.
  intros Hok. unfold insert_evidence_with_origin_opt. destruct (is_blank _); [done|].
  apply in_tx_preserves; [done|]. intros a db'. unfold insert_evidence_body.
  destruct (t_evidence db !! _) as [r|]; [destruct (same_evidence r ev); naive_solver|].
  destruct (t_agent_events db !! _) as [r|] eqn:E; [|done]. intros [= <- <-].
  refine (evidence_row_ok _ (evidence_row ev origin) (tag_record _ _ _ _ db) _ _ _); [auto..|].
  simpl. rewrite E. eauto.
Qed.

Lemma insert_finding_ok sql f recorded_at db :
  store_ok db → store_ok (insert_finding sql f recorded_at db).2.
Proof.
  intros Hok. unfold insert_finding. apply in_tx_preserves; [done|]. intros a db'.
  unfold insert_finding_body.
  destruct (t_findings db !! _) as [r|]; [done|].
  destruct (t_claims db !! _) as [c|] eqn:E; [|done]. intros [= <- <-].
  refine (finding_row_ok _ (finding_row f) (tag_record _ _ _ _ db) _ _ _); [auto..|].
  simpl. rewrite E. eauto.
Qed.
Lemma insert_link_ok sql l db : store_ok db → store_ok (insert_evidence_link sql l db).2.
Proof.
  intros Hok. unfold insert_evidence_link. apply in_tx_preserves; [done|]. intros a db'.
  destruct (t_links db !! _); [done|]. destruct (t_claims db !! _) eqn:E; [|done].
  destruct (t_evidence db !! _) eqn:E'; [|done]. intros [= <- <-].
  apply link_row_ok; simpl; rewrite ?E, ?E'; eauto.
Qed.
Lemma insert_missing_ok sql m db : store_ok db → store_ok (insert_missing_evidence sql m db).2.
Proof.
  intros Hok. unfold insert_missing_evidence. apply in_tx_preserves; [done|]. intros a db'.
  destruct (t_missing db !! _); [done|]. destruct (t_claims db !! _) eqn:E; [|done].
  intros [= <- <-]. apply missing_row_ok; simpl; rewrite ?E; eauto.
Qed.

(** ** Rows deleted and purged *)

Lemma not_referenced {A} (P : A → Prop) (m : gmap string A) i x :
  ¬ map_Exists (λ _ x, P x) m → m !! i = Some x → ¬ P x.
Proof. intros Hn Hi HP. apply Hn. exists i, x. eauto. Qed.

Lemma delete_is_Some {A} (m : gmap string A) k i : k ≠ i → is_Some (m !! i) → is_Some (delete k m !! i).
Proof. intros. by rewrite lookup_delete_ne. Qed.

Lemma delete_event_ok id db db' : store_ok db → delete_event id db = RowDeleted db' → store_ok db'.
Proof.
  intros Hok. unfold delete_event. destruct (t_agent_events db !! id) as [row|]; [|by intros [= <-]].
  case_decide as Hr; [done|]. intros [= <-]. apply Decidable.not_or in Hr as [Hrc Hrv].
  destruct Hok as [Ha Hc Hv ? ? ? He ? ? ? ?]. split; simpl; try done.
  - intros i a [? ?]%lookup_delete_Some. apply delete_is_Some; eauto.
  - intros i c Hi. apply delete_is_Some; [|eauto]. intros ->. by eapply not_referenced in Hrc.
  - intros i v Hi. apply delete_is_Some; [|eauto]. intros ->. by eapply not_referenced in Hrv.
  - intros i r [? ?]%lookup_delete_Some. eauto.
Qed.
Lemma delete_claim_ok id db db' : store_ok db → delete_claim id db = RowDeleted db' → store_ok db'.
Proof.
  intros Hok. unfold delete_claim. destruct (t_claims db !! id) as [row|]; [|by intros [= <-]].
  case_decide as Hr; [done|]. intros [= <-].
  apply Decidable.not_or in Hr as [Hrf [Hrl Hrm]%Decidable.not_or].
  destruct Hok as [? Hc ? Hf Hl Hm ? Hg ? ? ?]. split; simpl; try done.
  - intros i c [? ?]%lookup_delete_Some. eauto.
  - intros i f Hi. apply delete_is_Some; [|eauto]. intros ->. by eapply not_referenced in Hrf.
  - intros i l Hi. destruct (Hl i l Hi). split; [|done]. apply delete_is_Some; [|done].
    intros ->. by eapply not_referenced in Hrl.
  - intros i m Hi. apply delete_is_Some; [|eauto]. intros ->. by eapply not_referenced in Hrm.
  - intros i r [? ?]%lookup_delete_Some. eauto.
Qed.
Lemma delete_evidence_ok id db db' :
  store_ok db → delete_evidence id db = RowDeleted db' → store_ok db'.
Proof.
  intros Hok. unfold delete_evidence. destruct (t_evidence db !! id) as [row|]; [|by intros [= <-]].
  case_decide as Hr; [done|]. intros [= <-].
  destruct Hok as [? ? Hv ? Hl ? ? ? Hg ? ?]. split; simpl; try done.
  - intros i c [? ?]%lookup_delete_Some. eauto.
  - intros i l Hi. destruct (Hl i l Hi). split; [done|]. apply delete_is_Some; [|done].
    intros ->. by eapply (not_referenced (λ l, lrow_evidence_id l = _)) in Hr.
  - intros i r [? ?]%lookup_delete_Some. eauto.
Qed.
Lemma delete_from_ok table id db db' :
  store_ok db → delete_from table id db = RowDeleted db' → store_ok db'.
Proof.
  intros Hok. unfold delete_from. case_decide; [by apply delete_event_ok|].
  case_decide; [by apply delete_claim_ok|]. case_decide; [by apply delete_evidence_ok|].
  case_decide; [|case_decide; [|done]]; intros [= <-]; [|by apply with_documents_ok].
  destruct Hok as [? ? ? Hf ? ? ? ? ? Hg ?].
  split; simpl; try done; intros i r [? ?]%lookup_delete_Some; eauto.
Qed.

Lemma alter_is_Some {A} (f : A → A) (m : gmap string A) k i :
  is_Some (m !! i) → is_Some (alter f k m !! i).
Proof. rewrite lookup_alter_is_Some. done. Qed.
Hint Resolve alter_is_Some : core.

(** The rows of a table in which one was altered: others, and the altered one. *)
Ltac lookup_altered H r :=
  apply lookup_alter_Some in H as [(<- & r & H & ->)|[_ H]].

Lemma purge_event_ok id db : store_ok db → store_ok (with_events (alter purge_event_row id) db).
Proof.
  intros [? Hc Hv ? ? ? Hg ? ? ? ?]. split; simpl; try done; eauto.
  intros i r Hi. lookup_altered Hi r'; [by right|eauto].
Qed.
Lemma purge_claim_ok id db : store_ok db → store_ok (with_claims (alter purge_claim_row id) db).
Proof.
  intros [? Hc ? Hf Hl Hm ? Hg ? ? ?]. split; simpl; try done; eauto.
  - intros i c Hi. lookup_altered Hi c'; simpl; eauto.
  - intros i l Hi. destruct (Hl i l Hi). eauto.
  - intros i r Hi. lookup_altered Hi r'; [by right|eauto].
Qed.
Lemma purge_evidence_ok id db : store_ok db → store_ok (purge_evidence_payload_row id db).2.
Proof.
  intros [? ? Hv ? Hl ? ? ? Hg ? ?]. split; simpl; try done; eauto.
  - intros i c Hi. lookup_altered Hi c'; simpl; eauto.
  - intros i l Hi. destruct (Hl i l Hi). eauto.
  - intros i r Hi. lookup_altered Hi r'; [by right|eauto].
Qed.

(** ** Removing tags *)

(** What the record of a tag that is removed must be: gone, or purged. *)
Definition handled (table id : string) db : Prop :=
  (table = "agent_events" → ∀ r, t_agent_events db !! id = Some r → purge_event_row r = r) ∧
  (table = "claims" → ∀ r, t_claims db !! id = Some r → purge_claim_row r = r) ∧
  (table = "evidence" → ∀ r, t_evidence db !! id = Some r → purge_evidence_row r = r) ∧
  (table = "findings" → t_findings db !! id = None).

Lemma filter_lineage_ok (P : LineageTagRow → Prop) `{!∀ r, Decision (P r)} db :
  store_ok db →
  (∀ r, r ∈ t_lineage db → ¬ P r → handled (lt_record_table r) (lt_record_id r) db) →
  store_ok (with_lineage (filter P) db).
Proof.
  intros [? ? ? ? ? ? Hge Hgc Hgv Hgf Hr] Hh.
  assert (∀ table id, tagged db table id →
    tagged (with_lineage (filter P) db) table id ∨ handled table id db) as Hcase.
  { intros table id (r & Hin & <- & <-). destruct (decide (P r)).
    - left. exists r. simpl. by rewrite list_elem_of_filter.
    - right. eauto. }
  split; simpl; try done.
  - intros id r Hi. destruct (Hge id r Hi) as [[?|(Hd & _)]%Hcase|?]; eauto.
  - intros id r Hi. destruct (Hgc id r Hi) as [[?|(_ & Hd & _)]%Hcase|?]; eauto.
  - intros id r Hi. destruct (Hgv id r Hi) as [[?|(_ & _ & Hd & _)]%Hcase|?]; eauto.
  - intros id r Hi. destruct (Hcase _ _ (Hgf id r Hi)) as [?|(_ & _ & _ & Hd)]; [done|].
    by rewrite (Hd eq_refl) in Hi.
  - intros r [_ Hin]%list_elem_of_filter. eauto.
Qed.

Lemma untag_ok table id db : store_ok db → handled table id db → store_ok (untag table id db).
Proof.
  intros Hok Hh. apply filter_lineage_ok; [done|]. intros r _ Hr.
  destruct (decide (lt_record_table r = table ∧ lt_record_id r = id)) as [[-> ->]|]; [done|].
  by destruct Hr.
Qed.

(** ** Deletion only removes rows *)

Record shrinks (db' db : EventDb) : Prop := mkShrinks {
  sh_events : t_agent_events db' ⊆ t_agent_events db;
  sh_claims : t_claims db' ⊆ t_claims db;
  sh_evidence : t_evidence db' ⊆ t_evidence db;
  sh_findings : t_findings db' ⊆ t_findings db;
  sh_lineage : t_lineage db' = t_lineage db;
  sh_audit : t_audit db' = t_audit db;
}.
#[local] Instance shrinks_preorder : PreOrder shrinks.
Proof.
  split; [by split|]. intros db1 db2 db3 [] []. split; [by etrans..|congruence|congruence].
Qed.
Lemma delete_from_shrinks table id db db' : delete_from table id db = RowDeleted db' → shrinks db' db.
Proof.
  unfold delete_from, delete_event, delete_claim, delete_evidence.
  repeat (case_decide || case_match); intros [= <-]; split; simpl; try done;
    apply delete_subseteq.
Qed.
Lemma handled_shrinks table id db db' : shrinks db' db → handled table id db → handled table id db'.
Proof.
  intros [He Hc Hv Hf _ _] (Hhe & Hhc & Hhv & Hhf). split_and!.
  - intros Ht r Hi. eapply Hhe; [done|]. by eapply lookup_weaken.
  - intros Ht r Hi. eapply Hhc; [done|]. by eapply lookup_weaken.
  - intros Ht r Hi. eapply Hhv; [done|]. by eapply lookup_weaken.
  - intros Ht. by eapply lookup_weaken_None; [apply Hhf|].
Qed.

(** A deleted row is gone; and of a table that is not known there is none. *)
Lemma delete_from_handled table id db db' :
  delete_from table id db = RowDeleted db' → handled table id db'.
Proof.
  unfold delete_from, handled.
  destruct (decide (table = "agent_events")) as [->|].
  { unfold delete_event. destruct (t_agent_events db !! id) eqn:E; [case_decide; [done|]|];
      intros [= <-]; split_and!; try done; intros _ r; simpl; by rewrite ?lookup_delete_eq, ?E. }
  destruct (decide (table = "claims")) as [->|].
  { unfold delete_claim. destruct (t_claims db !! id) eqn:E; [case_decide; [done|]|];
      intros [= <-]; split_and!; try done; intros _ r; simpl; by rewrite ?lookup_delete_eq, ?E. }
  destruct (decide (table = "evidence")) as [->|].
  { unfold delete_evidence. destruct (t_evidence db !! id) eqn:E; [case_decide; [done|]|];
      intros [= <-]; split_and!; try done; intros _ r; simpl; by rewrite ?lookup_delete_eq, ?E. }
  case_decide; [subst; intros [= <-]|by intros _; split_and!].
  split_and!; try done. intros _. simpl. apply lookup_delete_eq.
Qed.
Lemma unknown_table_handled table id db db' :
  delete_from table id db = UnknownTable → handled table id db'.
Proof.
  unfold delete_from, delete_event, delete_claim, delete_evidence, handled.
  repeat (case_decide || case_match); try done; by split_and!.
Qed.

(** ** Erasure *)

Lemma delete_tagged_inv tags report db report' db' :
  store_ok db → delete_tagged tags report db = Ok (report', db') →
  store_ok db' ∧ shrinks db' db ∧
  ∀ t, t ∈ tags → handled (lr_record_table t) (lr_record_id t) db'.
Proof.
  revert report db. induction tags as [|t tags IH]; intros report db Hok; simpl.
  { intros [= <- <-]. split_and!; [done|done|]. by intros t ?%elem_of_nil. }
  destruct (delete_from _ _ db) as [db1| |] eqn:E; [|done|]; intros Hd.
  - apply IH in Hd as (Hok' & Hsh & Hh); [|by eapply delete_from_ok].
    split_and!; [done|etrans; [done|by eapply delete_from_shrinks]|].
    intros t' [->|?]%elem_of_cons; [|eauto].
    eapply handled_shrinks; [done|by eapply delete_from_handled].
  - apply IH in Hd as (Hok' & Hsh & Hh); [|done]. split_and!; [done..|].
    intros t' [->|?]%elem_of_cons; [|eauto]. by eapply unknown_table_handled.
Qed.

Lemma tenant_tags_handled tenant db tags db' :
  lineage_tags_for_tenant tenant db = Ok tags →
  (∀ t, t ∈ tags → handled (lr_record_table t) (lr_record_id t) db') →
  ∀ r, r ∈ t_lineage db → lt_tenant_ref r = tenant →
  handled (lt_record_table r) (lt_record_id r) db'.
Proof.
  unfold lineage_tags_for_tenant. rewrite collect_results_Ok. intros Hf Hh r Hr Ht.
  destruct (Forall2_elem_of_l _ _ _ r Hf) as (t & Hin & Hrt).
  { by apply list_elem_of_filter. }
  revert Hrt. unfold lineage_record_of_row.
  destruct (uuids_from_json _); [|done]. intros [= <-]. by apply (Hh _ Hin).
Qed.

Lemma erase_ok sql tenant db : store_ok db → store_ok (delete_records_for_tenant sql tenant db).2.
Proof.
  intros Hok. unfold delete_records_for_tenant. apply in_tx_preserves; [done|]. intros a db'.
  destruct (lineage_tags_for_tenant tenant db) as [tags|] eqn:Et; simpl; [|done].
  destruct (delete_tagged tags _ db) as [[report db1]|] eqn:Ed; simpl; [|done]. intros [= <- <-].
  apply delete_tagged_inv in Ed as (Hok1 & Hsh & Hh); [|done].
  apply filter_lineage_ok; [done|]. intros r Hr Ht. rewrite (sh_lineage _ _ Hsh) in Hr.
  eapply tenant_tags_handled; [done..|]. by apply dec_stable in Ht.
Qed.

(** ** The sweep *)

Lemma sweep_record_ok table id st st' :
  store_ok (ss_db st) → sweep_record table id st = Ok st' →
  store_ok (ss_db st') ∧ handled table id (ss_db st').
Proof.
  intros Hok. unfold sweep_record. destruct (decide (table = "evidence")) as [->|].
  { intros [= <-]. simpl. split; [by apply (purge_evidence_ok id (ss_db st))|]. unfold handled; simpl.
    split_and!; try done. intros _ r Hr. apply lookup_alter_Some in Hr as [(_ & r' & _ & ->)|[? _]];
    done. }
  destruct (decide (table = "agent_events")) as [->|].
  { destruct (delete_from _ _ _) as [db1| |] eqn:E; [| |done]; intros [= <-]; simpl.
    - split; [by eapply delete_from_ok|by eapply delete_from_handled].
    - split; [by apply purge_event_ok|]. unfold handled; simpl. split_and!; try done.
      intros _ r Hr. apply lookup_alter_Some in Hr as [(_ & r' & _ & ->)|[? _]]; done. }
  destruct (decide (table = "claims")) as [->|].
  { destruct (delete_from _ _ _) as [db1| |] eqn:E; [| |done]; intros [= <-]; simpl.
    - split; [by eapply delete_from_ok|by eapply delete_from_handled].
    - split; [by apply purge_claim_ok|]. unfold handled; simpl. split_and!; try done.
      intros _ r Hr. apply lookup_alter_Some in Hr as [(_ & r' & _ & ->)|[? _]]; done. }
  destruct (delete_from _ _ _) as [db1| |] eqn:E; [|done|]; intros [= <-]; simpl.
  - split; [by eapply delete_from_ok|by eapply delete_from_handled].
  - split; [done|by eapply unknown_table_handled].
Qed.

(** One row of the page, as the fields of its tag decide. *)
Definition row_expired (now : Z) (r : LineageTagRow) : bool :=
  is_expired (lt_recorded_at r) (retention_class_of_tag (lt_retention_class r)) now.
Lemma sweep_rows_cons now r rows st :
  sweep_rows now (r :: rows) st =
  match uuids_from_json (lt_source_record_ids r) with
  | None => Err (StoreJson "source_record_ids")
  | Some _ =>
      if row_expired now r then
        let? st := sweep_record (lt_record_table r) (lt_record_id r) st in
        sweep_rows now rows (with_ss_db (untag (lt_record_table r) (lt_record_id r)) st)
      else sweep_rows now rows st
  end.
Proof. simpl. unfold lineage_record_of_row. by destruct (uuids_from_json _). Qed.

Lemma sweep_rows_ok now rows st st' :
  store_ok (ss_db st) → sweep_rows now rows st = Ok st' → store_ok (ss_db st').
Proof.
  revert st. induction rows as [|r rows IH]; intros st Hok; [by intros [= <-]|].
  rewrite sweep_rows_cons. destruct (uuids_from_json _); [|done].
  destruct (row_expired now r); [|by apply IH].
  destruct (sweep_record _ _ st) as [st1|] eqn:E; simpl; [|done]. apply IH. simpl.
  apply sweep_record_ok in E as [??]; [|done]. by apply untag_ok.
Qed.

Lemma sweep_ok sql fresh now cursor batch_size db :
  store_ok db → store_ok (sweep_expired_records sql fresh now cursor batch_size db).2.
Proof.
  intros Hok. unfold sweep_expired_records. apply in_tx_preserves; [done|]. intros a db'.
  unfold sweep_body. destruct (sweep_rows _ _ _) as [st|] eqn:Es; simpl; [|done].
  destruct (append_audit_events _ _ _) as [ledger|]; simpl; [|done]. intros [= <- <-].
  apply with_audit_ok. by apply sweep_rows_ok in Es.
Qed.

Lemma purge_ok sql sql' id now uuid db :
  store_ok db → store_ok (purge_evidence_payload sql sql' id now uuid db).2.
Proof.
  intros Hok. unfold purge_evidence_payload.
  pose proof (in_tx_preserves store_ok sql db (Ok (purge_evidence_payload_row id db)) Hok) as Htx.
  destruct (in_tx _ _ _) as [[[]|] db1]; simpl in *;
    [|apply Htx; intros ? ? [= <- <-]; by apply (purge_evidence_ok id db)..].
  destruct (append_audit_event _ _ _ _). simpl. apply with_audit_ok, Htx.
  intros ? ? [= <- <-]. by apply (purge_evidence_ok id db).
Qed.

(** ** Operations *)

Inductive StoreOp :=
| OpInsertEvent (sql : Sqlite) (e : AgentEvent) (recorded_at : string)
| OpInsertBound (sql sql' : Sqlite) (e : AgentEvent) (identity : ExecutionIdentity)
    (recorded_at : string)
| OpInsertClaim (sql : Sqlite) (c : Claim) (check : option (AgentEvent → bool))
    (recorded_at : string)
| OpInsertEvidence (sql : Sqlite) (ev : Evidence) (origin : option string) (recorded_at : string)
| OpInsertFinding (sql : Sqlite) (f : Finding) (recorded_at : string)
| OpInsertLink (sql : Sqlite) (l : EvidenceLink)
| OpInsertMissing (sql : Sqlite) (m : MissingEvidence)
| OpRecordTag (sql : Sqlite) (table id : string) (tag : DatasetLineageTag)
| OpPurge (sql sql' : Sqlite) (id : string) (now : Z) (uuid : string)
| OpErase (sql : Sqlite) (tenant : string)
| OpSweep (sql : Sqlite) (fresh : nat → string) (now : Z) (cursor : option string)
    (batch_size : Z).

Definition run_op (op : StoreOp) db : EventDb :=
  match op with
  | OpInsertEvent sql e at_ => (insert_event sql e at_ db).2
  | OpInsertBound sql sql' e identity at_ => (insert_bound_host_event sql sql' e identity at_ db).2
  | OpInsertClaim sql c check at_ => (insert_claim_inner sql c check at_ db).2
  | OpInsertEvidence sql ev origin at_ =>
      (insert_evidence_with_origin_opt sql ev origin at_ db).2
  | OpInsertFinding sql f at_ => (insert_finding sql f at_ db).2
  | OpInsertLink sql l => (insert_evidence_link sql l db).2
  | OpInsertMissing sql m => (insert_missing_evidence sql m db).2
  | OpRecordTag sql table id tag => (record_lineage_tag sql table id tag db).2
  | OpPurge sql sql' id now uuid => (purge_evidence_payload sql sql' id now uuid db).2
  | OpErase sql tenant => (delete_records_for_tenant sql tenant db).2
  | OpSweep sql fresh now cursor batch_size =>
      (sweep_expired_records sql fresh now cursor batch_size db).2
  end.

Lemma run_op_ok op db : store_ok db → store_ok (run_op op db).
Proof.
  intros Hok. destruct op; simpl;
    auto using insert_event_ok, insert_bound_host_event_ok, insert_claim_inner_ok,
      insert_evidence_ok, insert_finding_ok, insert_link_ok, insert_missing_ok, purge_ok,
      erase_ok, sweep_ok.
  unfold record_lineage_tag. apply in_tx_preserves; [done|]. intros a db' [= <- <-].
  by apply insert_tag_ok.
Qed.

(** ** The ledger *)

Lemma append_audit_events_steps events now ledger ledger' :
  append_audit_events events now ledger = Ok ledger' → rtc ledger_step ledger ledger'.
Proof.
  revert ledger. induction events as [|e events IH]; intros ledger; simpl; [by intros [= <-]|].
  destruct (append_audit_event_locked _ _ _) as [[a l]|] eqn:E; simpl; [|done].
  intros ?%IH. eapply rtc_l; [by eapply step_append_locked|done].
Qed.

(** An operation that is one transaction and does not touch the ledger. *)
Lemma in_tx_audit {A} sql db (body : result StoreError (A * EventDb)) :
  (∀ a db', body = Ok (a, db') → t_audit db' = t_audit db) →
  t_audit (in_tx sql db body).2 = t_audit db.
Proof. intros. by apply (in_tx_preserves (λ d, t_audit d = t_audit db)). Qed.

Lemma insert_event_audit sql e recorded_at db :
  t_audit (insert_event sql e recorded_at db).2 = t_audit db.
Proof.
  unfold insert_event. destruct (is_blank _); [done|]. apply in_tx_audit. intros a db'.
  unfold insert_event_body, insert_event_attribution, ignore_attribution.
  repeat case_match; naive_solver.
Qed.
Lemma insert_bound_audit sql sql' e identity recorded_at db :
  t_audit (insert_bound_host_event sql sql' e identity recorded_at db).2 = t_audit db.
Proof.
  unfold insert_bound_host_event. repeat (case_decide; [done|]).
  pose proof (insert_event_audit sql e recorded_at db) as Ha.
  destruct (insert_event _ _ _ _) as [[o|err] db1]; [|done]. simpl in Ha.
  case_bool_decide; [done|]. unfold ignore_attribution. by repeat case_match.
Qed.
Lemma insert_claim_audit sql c check recorded_at db :
  t_audit (insert_claim_inner sql c check recorded_at db).2 = t_audit db.
Proof.
  unfold insert_claim_inner. destruct (is_blank _); [done|].
  pose proof (in_tx_audit sql db (insert_claim_body c check recorded_at db)) as Htx.
  destruct (in_tx _ _ _) as [r db1]. simpl in *. apply Htx. intros a db'. unfold insert_claim_body.
  destruct (check_source c check db); simpl; [|done].
  repeat (case_decide || case_match); naive_solver.
Qed.

Lemma sweep_rows_audit now rows st st' :
  sweep_rows now rows st = Ok st' → t_audit (ss_db st') = t_audit (ss_db st).
Proof.
  revert st. induction rows as [|r rows IH]; intros st; [by intros [= <-]|].
  rewrite sweep_rows_cons. destruct (uuids_from_json _); [|done].
  destruct (row_expired now r); [|by apply IH].
  destruct (sweep_record _ _ st) as [st1|] eqn:E; simpl; [|done]. intros ->%IH. simpl.
  revert E. unfold sweep_record.
  repeat (case_decide; [try (by intros [= <-])|]);
    destruct (delete_from _ _ _) as [db1| |] eqn:Ed; try done; intros [= <-]; simpl; try done;
    by apply delete_from_shrinks, sh_audit in Ed.
Qed.

Lemma run_op_ledger op db : rtc ledger_step (t_audit db) (t_audit (run_op op db)).
Proof.
  assert (∀ l, l = t_audit db → rtc ledger_step (t_audit db) l) as Hsame by by intros ? ->.
  destruct op; simpl;
    auto using insert_event_audit, insert_bound_audit, insert_claim_audit.
  - apply Hsame. unfold insert_evidence_with_origin_opt. destruct (is_blank _); [done|].
    apply in_tx_audit. unfold insert_evidence_body. repeat case_match; naive_solver.
  - apply Hsame, in_tx_audit. unfold insert_finding_body. repeat case_match; naive_solver.
  - apply Hsame, in_tx_audit. repeat case_match; naive_solver.
  - apply Hsame, in_tx_audit. repeat case_match; naive_solver.
  - apply Hsame, in_tx_audit. naive_solver.
  - unfold purge_evidence_payload.
    pose proof (in_tx_audit sql db (Ok (purge_evidence_payload_row id db))) as Htx.
    destruct (in_tx _ _ _) as [[[]|] db1]; simpl in *;
      [|apply Hsame, Htx; naive_solver..].
    rewrite <-Htx by naive_solver.
    pose proof (step_append (t_audit db1) sql' (evidence_purged_audit_event uuid id now) now) as Hs.
    destruct (append_audit_event _ _ _ _). by apply rtc_once.
  - apply Hsame, in_tx_audit. intros a db'.
    destruct (lineage_tags_for_tenant tenant db) as [tags|]; simpl; [|done].
    destruct (delete_tagged _ _ _) as [[report db1]|] eqn:Ed; simpl; [|done]. intros [= <- <-].
    simpl. revert Ed. generalize (mkDeletionReport [] []) as rep, db. clear.
    induction tags as [|t tags IH]; intros rep db; simpl; [by intros [= <- <-]|].
    destruct (delete_from _ _ db) eqn:E; [|done|by apply IH]. intros ->%IH.
    by apply delete_from_shrinks, sh_audit in E.
  - unfold sweep_expired_records.
    apply (in_tx_preserves (λ d, rtc ledger_step (t_audit db) (t_audit d))); [done|].
    intros a db'. unfold sweep_body. destruct (sweep_rows _ _ _) as [st|]; simpl; [|done].
    destruct (append_audit_events _ _ _) as [ledger|] eqn:Ea; simpl; [|done].
    intros [= <- <-]. simpl. by eapply append_audit_events_steps.
Qed.

(** ** Findings are never lost from the reads *)

Context `{TableScan, !TableScanOk}.

Lemma filter_true {A} (l : list A) : filter (λ _, True) l = l.
Proof. induction l as [|x l IH]; [done|]. by rewrite filter_cons_True, IH. Qed.
Lemma select_asc_rows {A} (P : A → bool) key (m : gmap string A) :
  select_asc P key m ≡ₚ filter (λ x, P x.2 = true) (map_to_list m).
Proof. unfold select_asc. by rewrite sort_by_key_Permutation, scan_rows. Qed.

Lemma joined_findings_complete db :
  store_ok db →
  (λ f, (fr_id f, fr_row f)) <$> joined_findings db ≡ₚ map_to_list (t_findings db).
Proof.
  intros Hok. unfold joined_findings.
  assert (select_desc (λ _, true) frow_computed_at (t_findings db) ≡ₚ
          map_to_list (t_findings db)) as Hp.
  { unfold select_desc. rewrite reverse_Permutation, select_asc_rows.
    by rewrite (list_filter_iff _ (λ _, True)), filter_true by done. }
  rewrite <-Hp. assert (∀ x, x ∈ select_desc (λ _, true) frow_computed_at (t_findings db) →
    is_Some (t_claims db !! frow_claim_id x.2)) as Hc.
  { intros [id f]. rewrite Hp, elem_of_map_to_list. apply (ok_finding _ Hok). }
  clear Hp. induction (select_desc _ _ _) as [|[id f] l IH]; [done|]. csimpl.
  destruct (Hc (id, f)) as [c Hcl]; [by left|]. simpl in Hcl. unfold join_finding at 1. simpl.
  rewrite Hcl. simpl. f_equiv. apply IH. intros x Hx. apply Hc. by right.
Qed.

Definition run_ops (ops : list StoreOp) db : EventDb := foldl (λ d op, run_op op d) db ops.
Lemma run_ops_ok ops db : store_ok db → store_ok (run_ops ops db).
Proof. revert db. induction ops as [|op ops IH]; intros db Hok; [done|]. by apply IH, run_op_ok. Qed.
Lemma run_ops_ledger ops db : rtc ledger_step (t_audit db) (t_audit (run_ops ops db)).
Proof.
  revert db. induction ops as [|op ops IH]; intros db; [done|].
  etrans; [apply run_op_ledger|apply IH].
Qed.

(** C23. The store stays well formed: over any sequence of inserts, tags,
    purges, erasures and sweeps, whatever the database answers, every foreign
    key resolves, every row of the four record tables has a lineage tag or
    its content is already purged, every tag can be read back, every finding
    is found by the joined reads, exactly once, and the audit ledger only
    grew by appends. *)
Theorem store_always_well_formed ops db :
  store_ok db →
  let db' := run_ops ops db in
  store_ok db' ∧ rtc ledger_step (t_audit db) (t_audit db') ∧
  (λ f, (fr_id f, fr_row f)) <$> joined_findings db' ≡ₚ map_to_list (t_findings db').
Proof.
  intros Hok db'. pose proof (run_ops_ok ops db Hok) as Hok'.
  split_and!; [done|apply run_ops_ledger|]. by apply joined_findings_complete.
Qed.
End inv.
