(* ===== verification/RetentionSpec.v ===== *)
(** * What sweeps and erasures do

    The effect of a sweep on every table, described by the set of records
    whose tags expired; that the batches of a cycle reach every expired
    record; and what erasing a tenant removes. *)

From S2P Require Import Prelude.
From S2P Require Import Types.
From S2P Require Import Text.
From S2P Require Import Redact.
From S2P Require Import Graph.
From S2P Require Import Projection.
From S2P Require Import AuditEvent.
From S2P Require Import AuditLedger.
From S2P Require Import AuditLedgerSpec.
From S2P Require Import ExecutionIdentity.
From S2P Require Import EventStore.
From S2P Require Import EventRead.
From S2P Require Import Retention.
From S2P Require Import RetentionInv.

Local Open Scope fornax_scope.

(** The record a tag names. *)
Definition record_key (r : LineageTagRow) : string * string := (lt_record_table r, lt_record_id r).
(** The tables without foreign keys. *)
Definition document_tables : list string := drop 4 KNOWN_RECORD_TABLES.

Section spec.
Context `{EventJson, UuidOps}.
Context `{Chrono, ChronoFmt, Sha256, AuditWire}.
Implicit Types (db : EventDb) (E : list (string * string)).

Definition expired_keys (now : Z) (rows : list LineageTagRow) : list (string * string) :=
  record_key <$> filter (λ r, row_expired now r = true) rows.

(** ** The effect of a sweep *)

(** A row before and after: unchanged, or, when it is hit, gone or purged. *)
Definition swept {A} (purge : A → A) (hit : Prop) (x x' : option A) : Prop :=
  (¬ hit → x' = x) ∧ (hit → x' = None ∨ x' = purge <$> x).

Record sweep_effect E db db' : Prop := mkSweepEffect {
  se_event id :
    swept purge_event_row (("agent_events", id) ∈ E) (t_agent_events db !! id)
      (t_agent_events db' !! id);
  se_attribution id :
    t_event_attribution db' !! id = t_event_attribution db !! id ∨
    ("agent_events", id) ∈ E ∧ t_event_attribution db' !! id = None;
  se_claim id :
    swept purge_claim_row (("claims", id) ∈ E) (t_claims db !! id) (t_claims db' !! id);
  se_evidence id :
    t_evidence db' !! id =
      if decide (("evidence", id) ∈ E) then purge_evidence_row <$> t_evidence db !! id
      else t_evidence db !! id;
  se_finding id :
    t_findings db' !! id =
      if decide (("findings", id) ∈ E) then None else t_findings db !! id;
  se_document k :
    t_documents db' !! k =
      if decide (k ∈ E ∧ k.1 ∈ document_tables) then None else t_documents db !! k;
  se_links : t_links db' = t_links db;
  se_missing : t_missing db' = t_missing db;
  se_lineage : t_lineage db' = filter (λ r, record_key r ∉ E) (t_lineage db);
}.

Lemma swept_trans {A} (purge : A → A) (P Q : Prop) `{!Decision P, !Decision Q} x y z :
  (∀ a, purge (purge a) = purge a) →
  swept purge P x y → swept purge Q y z → swept purge (P ∨ Q) x z.
Proof.
  intros Hid [Hp Hp'] [Hq Hq']. split.
  - intros Hn. rewrite Hq, Hp; tauto.
  - intros Hpq. destruct (decide Q) as [HQ|HQ].
    + destruct (Hq' HQ) as [->| ->]; [by left|]. destruct (decide P) as [HP|HP].
      * destruct (Hp' HP) as [->| ->]; [by left|right]. destruct x; simpl; by rewrite ?Hid.
      * right. by rewrite (Hp HP).
    + rewrite (Hq HQ). destruct Hpq; [auto|done].
Qed.
#[local] Instance swept_proper {A} (purge : A → A) :
  Proper (iff ==> eq ==> eq ==> iff) (swept purge).
Proof. intros P Q Hpq x ? <- y ? <-. unfold swept. tauto. Qed.

Lemma sweep_effect_refl db : sweep_effect [] db db.
Proof.
  split; intros *; try done; try (by left).
  - split; [done|]. by intros ?%elem_of_nil.
  - split; [done|]. by intros ?%elem_of_nil.
  - rewrite (list_filter_iff _ (λ _, True)), filter_true; [done|]. intros r.
    split; [done|]. intros _. apply not_elem_of_nil.
Qed.

Lemma sweep_effect_trans E1 E2 db1 db2 db3 :
  sweep_effect E1 db1 db2 → sweep_effect E2 db2 db3 → sweep_effect (E1 ++ E2) db1 db3.
Proof.
  intros [Ae Aa Ac Av Af Ad Al Am At] [Be Ba Bc Bv Bf Bd Bl Bm Bt]. split.
  - intros id. rewrite elem_of_app.
    by apply (swept_trans _ _ _ _ (t_agent_events db2 !! id)).
  - intros id. rewrite elem_of_app. destruct (Ba id) as [->|[? ->]]; [|tauto].
    destruct (Aa id) as [->|[? ->]]; tauto.
  - intros id. rewrite elem_of_app.
    by apply (swept_trans _ _ _ _ (t_claims db2 !! id)).
  - intros id. rewrite Bv, Av. pose proof (elem_of_app E1 E2 ("evidence", id)) as Happ.
    repeat case_decide; try done; try tauto. by destruct (t_evidence db1 !! id).
  - intros id. rewrite Bf, Af. pose proof (elem_of_app E1 E2 ("findings", id)) as Happ.
    repeat case_decide; first [done|tauto].
  - intros k. rewrite Bd, Ad. pose proof (elem_of_app E1 E2 k) as Happ.
    repeat case_decide; first [done|tauto].
  - congruence.
  - congruence.
  - rewrite Bt, At, list_filter_filter. apply list_filter_iff. intros r. rewrite elem_of_app. tauto.
Qed.

(** ** One record *)

Lemma untag_lineage table id db :
  t_lineage (untag table id db) = filter (λ r, record_key r ∉ [(table, id)]) (t_lineage db).
Proof.
  apply list_filter_iff. intros r. rewrite list_elem_of_singleton. unfold record_key.
  by rewrite pair_equal_spec.
Qed.
Lemma document_tables_other :
  Forall (λ t, t ∉ document_tables) ["agent_events"; "claims"; "evidence"; "findings"].
Proof. apply (bool_decide_unpack _). by vm_compute. Qed.
Lemma not_document t i (k : string * string) :
  t ∈ ["agent_events"; "claims"; "evidence"; "findings"] →
  ¬ (k ∈ [(t, i)] ∧ k.1 ∈ document_tables).
Proof.
  intros Ht [->%list_elem_of_singleton Hd].
  by apply (proj1 (Forall_forall _ _) document_tables_other t).
Qed.

Lemma swept_other {A} (purge : A → A) (t t' i i' : string) (x : option A) :
  t ≠ t' → swept purge ((t, i) ∈ [(t', i')]) x x.
Proof. intros Ht. split; [done|]. by intros [= ? ?]%list_elem_of_singleton. Qed.
Lemma decide_other {A} (t t' i i' : string) (x y : A) :
  t ≠ t' → (if decide ((t, i) ∈ [(t', i')]) then x else y) = y.
Proof. intros Ht. rewrite decide_False; [done|]. by intros [= ? ?]%list_elem_of_singleton. Qed.

Ltac other_tables :=
  intros; simpl;
  first [ by apply swept_other
        | by rewrite decide_other
        | by rewrite decide_False by (apply not_document; by repeat constructor)
        | by left
        | by apply untag_lineage
        | done ].

(** A hit row that was deleted, and one that was purged. *)
Lemma swept_delete {A} (purge : A → A) (t i : string) (m : gmap string A) i' :
  swept purge ((t, i') ∈ [(t, i)]) (m !! i') (delete i m !! i').
Proof.
  rewrite list_elem_of_singleton. split.
  - intros Hne. rewrite lookup_delete_ne; [done|]. naive_solver.
  - intros [= ->]. left. apply lookup_delete_eq.
Qed.
Lemma swept_alter {A} (purge : A → A) (t i : string) (m : gmap string A) i' :
  swept purge ((t, i') ∈ [(t, i)]) (m !! i') (alter purge i m !! i').
Proof.
  rewrite list_elem_of_singleton. split.
  - intros Hne. rewrite lookup_alter_ne; [done|]. naive_solver.
  - intros [= ->]. right. apply lookup_alter_eq.
Qed.
Lemma swept_absent {A} (purge : A → A) (t i : string) (m : gmap string A) i' :
  m !! i = None → swept purge ((t, i') ∈ [(t, i)]) (m !! i') (m !! i').
Proof.
  intros Hn. rewrite list_elem_of_singleton. split; [done|]. intros [= ->]. by left.
Qed.

Lemma event_effect id st st' :
  sweep_record "agent_events" id st = Ok st' →
  sweep_effect [("agent_events", id)] (ss_db st) (untag "agent_events" id (ss_db st')).
Proof.
  unfold sweep_record, delete_from. simpl. unfold delete_event.
  destruct (t_agent_events (ss_db st) !! id) eqn:Ei; [case_decide|]; intros [= <-];
    split; try other_tables.
  - intros i. apply swept_alter.
  - intros i. apply swept_delete.
  - intros i. simpl. destruct (decide (i = id)) as [->|].
    + right. split; [by left|apply lookup_delete_eq].
    + left. by rewrite lookup_delete_ne.
  - intros i. by apply swept_absent.
Qed.
Lemma claim_effect id st st' :
  sweep_record "claims" id st = Ok st' →
  sweep_effect [("claims", id)] (ss_db st) (untag "claims" id (ss_db st')).
Proof.
  unfold sweep_record, delete_from. simpl. unfold delete_claim.
  destruct (t_claims (ss_db st) !! id) eqn:Ei; [case_decide|]; intros [= <-];
    split; try other_tables.
  - intros i. apply swept_alter.
  - intros i. apply swept_delete.
  - intros i. by apply swept_absent.
Qed.
Lemma evidence_effect id st st' :
  sweep_record "evidence" id st = Ok st' →
  sweep_effect [("evidence", id)] (ss_db st) (untag "evidence" id (ss_db st')).
Proof.
  intros [= <-]. split; try other_tables.
  intros i. simpl. case_decide as Hi; rewrite list_elem_of_singleton in Hi.
  - injection Hi as ->. apply lookup_alter_eq.
  - rewrite lookup_alter_ne; [done|]. naive_solver.
Qed.
Lemma finding_effect id st st' :
  sweep_record "findings" id st = Ok st' →
  sweep_effect [("findings", id)] (ss_db st) (untag "findings" id (ss_db st')).
Proof.
  intros [= <-]. split; try other_tables.
  intros i. simpl. case_decide as Hi; rewrite list_elem_of_singleton in Hi.
  - injection Hi as ->. apply lookup_delete_eq.
  - rewrite lookup_delete_ne; [done|]. naive_solver.
Qed.

Lemma known_document table :
  table ∉ ["agent_events"; "claims"; "evidence"; "findings"] →
  table ∈ KNOWN_RECORD_TABLES ↔ table ∈ document_tables.
Proof.
  intros Ht. rewrite <-(take_drop 4 KNOWN_RECORD_TABLES), elem_of_app. fold document_tables.
  simpl. split; [|by right]. intros [?|?]; [by destruct Ht|done].
Qed.
Lemma document_effect table id st st' :
  table ∉ ["agent_events"; "claims"; "evidence"; "findings"] →
  sweep_record table id st = Ok st' →
  sweep_effect [(table, id)] (ss_db st) (untag table id (ss_db st')).
Proof.
  intros Ht.
  assert (table ≠ "agent_events" ∧ table ≠ "claims" ∧ table ≠ "evidence" ∧ table ≠ "findings")
    as (Hte & Htc & Htv & Htf).
  { split_and!; intros ->; apply Ht; by repeat constructor. }
  unfold sweep_record, delete_from. rewrite !decide_False by done.
  case_decide as Hk; rewrite (known_document _ Ht) in Hk; intros [= <-];
    split; try other_tables; intros k; simpl.
  - case_decide as Hd.
    + destruct Hd as [->%list_elem_of_singleton _]. apply lookup_delete_eq.
    + rewrite lookup_delete_ne; [done|]. intros <-. apply Hd. split; [by left|done].
  - rewrite decide_False; [done|]. by intros [->%list_elem_of_singleton ?].
Qed.

Lemma sweep_record_effect table id st st' :
  sweep_record table id st = Ok st' →
  sweep_effect [(table, id)] (ss_db st) (untag table id (ss_db st')).
Proof.
  destruct (decide (table ∈ ["agent_events"; "claims"; "evidence"; "findings"])) as [Ht|Ht];
    [|by apply document_effect].
  apply elem_of_cons in Ht as [->|Ht]; [apply event_effect|].
  apply elem_of_cons in Ht as [->|Ht]; [apply claim_effect|].
  apply elem_of_cons in Ht as [->|Ht]; [apply evidence_effect|].
  apply list_elem_of_singleton in Ht as ->. apply finding_effect.
Qed.

(** A sweep never fails on a record. *)
Lemma sweep_record_total table id st : ∃ st', sweep_record table id st = Ok st'.
Proof.
  unfold sweep_record, delete_from, delete_event, delete_claim, delete_evidence.
  repeat (case_decide || case_match); simplify_eq; eauto.
Qed.

(** ** What is audited *)

Definition evidence_target (k : string * string) : option AuditTarget :=
  if decide (k.1 = "evidence") then Some (TargetEvidence k.2) else None.
Definition record_target (k : string * string) : option AuditTarget :=
  if decide (k.1 = "agent_events") then Some (TargetAgentEvent k.2)
  else if decide (k.1 = "claims") then Some (TargetClaim k.2) else None.
(** One event per expired evidence, event and claim. *)
Definition audit_targets E : list AuditTarget :=
  omap evidence_target E ++ omap record_target E.

Definition table_target (t : RecordAuditTable) (id : string) : AuditTarget :=
  match t with AgentEvents => TargetAgentEvent id | Claims => TargetClaim id end.

(** The targets of what the loop has noted so far. *)
Definition noted_evidence (st : SweepState) : list AuditTarget := TargetEvidence <$> ss_evidence_ids st.
Definition noted_records (st : SweepState) : list AuditTarget :=
  (λ x, table_target x.1.1 x.1.2) <$> ss_records st.

Lemma sweep_record_noted table id st st' :
  sweep_record table id st = Ok st' →
  noted_evidence st' = noted_evidence st ++ omap evidence_target [(table, id)] ∧
  noted_records st' = noted_records st ++ omap record_target [(table, id)].
Proof.
  unfold sweep_record, noted_evidence, noted_records, evidence_target, record_target.
  destruct (decide (table = "evidence")) as [->|Hv].
  { intros [= <-]. csimpl. by rewrite fmap_app, app_nil_r. }
  destruct (decide (table = "agent_events")) as [->|He].
  { destruct (delete_from _ _ _); [| |done]; intros [= <-]; csimpl;
      by rewrite fmap_app, app_nil_r. }
  destruct (decide (table = "claims")) as [->|Hc].
  { destruct (delete_from _ _ _); [| |done]; intros [= <-]; csimpl;
      by rewrite fmap_app, app_nil_r. }
  destruct (delete_from _ _ _); [|done|]; intros [= <-]; csimpl;
    rewrite !decide_False by done; by rewrite !app_nil_r.
Qed.

(** ** The loop *)

Lemma sweep_rows_effect now rows st st' :
  sweep_rows now rows st = Ok st' →
  sweep_effect (expired_keys now rows) (ss_db st) (ss_db st') ∧
  noted_evidence st' = noted_evidence st ++ omap evidence_target (expired_keys now rows) ∧
  noted_records st' = noted_records st ++ omap record_target (expired_keys now rows).
Proof.
  revert st. induction rows as [|r rows IH]; intros st.
  { intros [= <-]. split; [apply sweep_effect_refl|]. by rewrite !app_nil_r. }
  rewrite sweep_rows_cons. destruct (uuids_from_json _); [|done].
  unfold expired_keys. rewrite filter_cons. destruct (row_expired now r); [|by apply IH].
  destruct (sweep_record _ _ st) as [st1|] eqn:E; simpl; [|done].
  intros (Heff & Hev & Hrec)%IH. pose proof (sweep_record_noted _ _ _ _ E) as [Hev1 Hrec1].
  apply sweep_record_effect in E. split_and!.
  - by apply (sweep_effect_trans [_] _ _ _ _ E Heff).
  - etrans; [exact Hev|]. unfold noted_evidence in *. simpl. rewrite Hev1, <-app_assoc. f_equal.
    by rewrite <-omap_app.
  - etrans; [exact Hrec|]. unfold noted_records in *. simpl. rewrite Hrec1, <-app_assoc. f_equal.
    by rewrite <-omap_app.
Qed.

Lemma sweep_rows_total now rows st :
  (∀ r, r ∈ rows → is_Some (uuids_from_json (lt_source_record_ids r))) →
  ∃ st', sweep_rows now rows st = Ok st'.
Proof.
  revert st. induction rows as [|r rows IH]; intros st Hr; [eauto|]. rewrite sweep_rows_cons.
  destruct (Hr r) as [ids ->]; [by left|].
  assert (∀ r, r ∈ rows → is_Some (uuids_from_json (lt_source_record_ids r))) as Hrows.
  { intros r' ?. apply Hr. by right. }
  destruct (row_expired now r); [|by apply IH].
  destruct (sweep_record_total (lt_record_table r) (lt_record_id r) st) as [st1 ->]. by apply IH.
Qed.

(** ** Counting *)

Definition swept_count (st : SweepState) : nat :=
  length (ss_evidence_ids st) + ss_deleted st + ss_in_place st + ss_unknown st.
Lemma sweep_record_count table id st st' :
  sweep_record table id st = Ok st' → swept_count st' = S (swept_count st).
Proof.
  unfold sweep_record, swept_count.
  repeat case_decide; [|destruct (delete_from _ _ _)..]; try done; intros [= <-]; simpl;
    rewrite ?length_app; simpl; lia.
Qed.
Lemma sweep_rows_count now rows st st' :
  sweep_rows now rows st = Ok st' →
  swept_count st' = swept_count st + length (expired_keys now rows).
Proof.
  revert st. induction rows as [|r rows IH]; intros st; [intros [= <-]; by rewrite Nat.add_0_r|].
  rewrite sweep_rows_cons. destruct (uuids_from_json _); [|done].
  unfold expired_keys. rewrite filter_cons. destruct (row_expired now r); [|by apply IH].
  destruct (sweep_record _ _ st) as [st1|] eqn:E; simpl; [|done]. intros ->%IH.
  apply sweep_record_count in E. unfold swept_count, expired_keys in *. csimpl.
  rewrite length_fmap in *. lia.
Qed.

(** ** The audit events *)

Definition purge_event_shape (e : AuditEvent) : Prop :=
  actor e = ActorSystem ∧ outcome e = OutcomeExpired ∧ export_class e = Metadata ∧
  (action e = EvidencePurged ∨ action e = RecordPurged).

Lemma imap_forall {A B} (P : B → Prop) (f : nat → A → B) (l : list A) :
  (∀ i x, x ∈ l → P (f i x)) → Forall P (imap f l).
Proof.
  intros Hf. apply Forall_forall. intros y [i Hi]%list_elem_of_lookup.
  rewrite list_lookup_imap in Hi. destruct (l !! i) eqn:E; [|done]. simplify_eq/=.
  apply Hf. by eapply list_elem_of_lookup_2.
Qed.
Lemma sweep_audit_events_shape fresh now st :
  Forall purge_event_shape (sweep_audit_events fresh now st) ∧
  target <$> sweep_audit_events fresh now st = noted_evidence st ++ noted_records st.
Proof.
  unfold sweep_audit_events. split.
  - apply imap_forall. intros i mk. rewrite elem_of_app, !list_elem_of_fmap.
    intros [(id & -> & _)|([[t id] d] & -> & _)]; unfold purge_event_shape; simpl; eauto.
  - rewrite fmap_imap, imap_app, !imap_fmap. unfold noted_evidence, noted_records. f_equal.
    + etrans; [|apply imap_const]. by apply imap_ext.
    + etrans; [|apply imap_const]. apply imap_ext. by intros i [[[] id] d] _.
Qed.

(** ** A page of tags *)

Lemma elem_of_sql_limit {A} n (l : list A) x : x ∈ sql_limit n l → x ∈ l.
Proof.
  unfold sql_limit. case_decide; [done|]. rewrite elem_of_take.
  intros (i & Hi & _). by eapply list_elem_of_lookup_2.
Qed.

Lemma sweep_page_elem cursor n rows r :
  r ∈ sweep_page cursor n rows → r ∈ rows ∧ ¬ ord_le (sweep_key r) cursor.
Proof.
  intros Hr%elem_of_sql_limit. rewrite elem_of_sort_by_key, list_elem_of_filter in Hr. tauto.
Qed.
Lemma sweep_page_bounded cursor n rows :
  (0 ≤ n)%Z → (Z.of_nat (length (sweep_page cursor n rows)) ≤ n)%Z.
Proof.
  intros Hn. unfold sweep_page, sql_limit. rewrite decide_False by lia. rewrite length_take. lia.
Qed.

(** ** One sweep *)

Lemma with_audit_effect E db db' l : sweep_effect E db db' → sweep_effect E db (with_audit l db').
Proof. by intros []. Qed.

(** What one batch reports. *)
Record sweep_reports (page : list LineageTagRow) E (n : Z) (report : SweepReport) : Prop :=
  mkSweepReports {
    sr_examined : examined report = length page;
    sr_total :
      purged_evidence report + sw_deleted_records report + purged_in_place report +
        unknown_table_skipped report = length E;
    sr_more : more_remaining report = bool_decide (Z.of_nat (length page) = as_usize n);
    sr_cursor :
      next_cursor report =
        if more_remaining report then (λ r, sweep_cursor_token (sweep_key r)) <$> last page
        else None;
  }.

(** The audit rows of the records in [E], appended to the ledger. *)
Definition audited E (now : Z) (ledger ledger' : LedgerDb) : Prop :=
  ∃ events, append_audit_events events now ledger = Ok ledger' ∧
            target <$> events = audit_targets E ∧ Forall purge_event_shape events.

Lemma sweep_body_inv fresh now cursor n db report db' :
  sweep_body fresh now cursor n db = Ok (report, db') →
  let page := sweep_page (parse_sweep_cursor cursor) n (t_lineage db) in
  let E := expired_keys now page in
  sweep_effect E db db' ∧ audited E now (t_audit db) (t_audit db') ∧
  sweep_reports page E n report.
Proof.
  unfold sweep_body. destruct (sweep_rows _ _ _) as [st|] eqn:Es; simpl; [|done].
  destruct (append_audit_events _ _ _) as [ledger|] eqn:Ea; simpl; [|done]. intros [= <- <-].
  pose proof (sweep_rows_count _ _ _ _ Es) as Hcount.
  apply sweep_rows_effect in Es as (Heff & Hev & Hrec). simpl in Heff.
  destruct (sweep_audit_events_shape fresh now st) as [Hshape Htargets]. split_and!.
  - by apply with_audit_effect.
  - exists (sweep_audit_events fresh now st). split_and!; [done| |done].
    by rewrite Htargets, Hev, Hrec.
  - split; simpl; [done| |done|done]. unfold swept_count in Hcount. simpl in Hcount. lia.
Qed.

(** When a tag has expired. *)
Lemma row_expired_spec now r :
  row_expired now r = true ↔
  ∃ t, parse_from_rfc3339 (lt_recorded_at r) = Some t ∧
       (t + retention_duration_for (retention_class_of_tag (lt_retention_class r)) *
            nanos_per_second ≤ now)%Z.
Proof.
  unfold row_expired, is_expired. destruct (parse_from_rfc3339 _) as [t|].
  - rewrite bool_decide_eq_true. split; [intros ?; exists t; split; [done|lia]|].
    intros (t' & [= ->] & ?). lia.
  - split; [done|]. by intros (t & ? & _).
Qed.
Lemma row_expired_mono now now' r :
  (now ≤ now')%Z → row_expired now r = true → row_expired now' r = true.
Proof. rewrite !row_expired_spec. intros Hn (t & Ht & ?). exists t. split; [done|lia]. Qed.

(** A sweep touches only expired records: a batch that fails changes
    nothing; one that succeeds examines at most [batch_size] tags after the
    cursor, removes exactly the tags of the records whose retention has run
    out, deletes those records or purges their content in place, keeping the
    columns that identify them, and leaves every other row of every table,
    the links and the notes as they were. The ledger gains one audit event
    for each expired evidence, event and claim record, in the same
    transaction, and the counts of the report add up. *)
Theorem sweep_touches_only_expired sql fresh now cursor batch_size db res db' :
  sweep_expired_records sql fresh now cursor batch_size db = (res, db') →
  match res with
  | Err _ => db' = db
  | Ok report =>
      let page := sweep_page (parse_sweep_cursor cursor) batch_size (t_lineage db) in
      let E := expired_keys now page in
      (∀ k, k ∈ E → ∃ r t, r ∈ t_lineage db ∧ record_key r = k ∧
         ¬ ord_le (sweep_key r) (parse_sweep_cursor cursor) ∧
         parse_from_rfc3339 (lt_recorded_at r) = Some t ∧
         (t + retention_duration_for (retention_class_of_tag (lt_retention_class r)) *
              nanos_per_second ≤ now)%Z) ∧
      sweep_effect E db db' ∧ audited E now (t_audit db) (t_audit db') ∧
      sweep_reports page E batch_size report ∧
      ((0 ≤ batch_size)%Z → (Z.of_nat (examined report) ≤ batch_size)%Z)
  end.
Proof.
  intros Hs. destruct res as [report|e]; [|by eapply in_tx_err].
  apply in_tx_ok, sweep_body_inv in Hs as (Heff & Haud & Hrep). intros page E.
  split_and!; [|done..|].
  - intros k (r & -> & [Hx Hr]%list_elem_of_filter)%list_elem_of_fmap.
    apply row_expired_spec in Hx as (t & Ht & Hle). apply sweep_page_elem in Hr as [Hr Hc].
    exists r, t. done.
  - rewrite (sr_examined _ _ _ _ Hrep). apply sweep_page_bounded.
Qed.

(** ** The cursor *)

Definition no_separator (s : string) : Prop := unit_separator ∉ String.list_ascii_of_string s.

Lemma split_separator_app a rest :
  no_separator a → split_separator (a +:+ String unit_separator rest) = Some (a, rest).
Proof.
  unfold no_separator. induction a as [|c a IH]; simpl; intros Hc.
  - done.
  - apply not_elem_of_cons in Hc as [Ha Hc]. rewrite decide_False by done. simpl in IH.
    by rewrite IH.
Qed.
Lemma sweep_cursor_roundtrip k :
  no_separator k.1 → no_separator k.2.1 → parse_sweep_cursor (Some (sweep_cursor_token k)) = k.
Proof.
  intros Ha Hb. unfold parse_sweep_cursor, sweep_cursor_token. simpl.
  rewrite split_separator_app by done. rewrite split_separator_app by done. by destruct k as [? []].
Qed.

(** ** What a page covers *)

Definition after (cursor : SweepKey) (rows : list LineageTagRow) : list LineageTagRow :=
  filter (λ r, ¬ ord_le (sweep_key r) cursor) rows.

Lemma sweep_page_split cursor n rows :
  (0 ≤ n)%Z →
  ∃ rest, sort_by_key sweep_key (after cursor rows) = sweep_page cursor n rows ++ rest ∧
          ((Z.of_nat (length (sweep_page cursor n rows)) < n)%Z → rest = []).
Proof.
  intros Hn. unfold sweep_page, sql_limit. rewrite decide_False by lia. fold (after cursor rows).
  exists (drop (Z.to_nat n) (sort_by_key sweep_key (after cursor rows))).
  split; [symmetry; apply take_drop|]. rewrite length_take. intros Hlt. apply drop_ge. lia.
Qed.

Lemma elem_of_after cursor rows r :
  r ∈ after cursor rows ↔ r ∈ rows ∧ ¬ ord_le (sweep_key r) cursor.
Proof. unfold after. rewrite list_elem_of_filter. tauto. Qed.

(** A tag up to the page's last key is on the page, or has that very key. *)
Lemma sweep_page_covers cursor n rows l r :
  (0 ≤ n)%Z → last (sweep_page cursor n rows) = Some l → r ∈ rows →
  ord_le (sweep_key r) (sweep_key l) → ¬ ord_le (sweep_key r) cursor →
  r ∈ sweep_page cursor n rows ∨ sweep_key r = sweep_key l.
Proof.
  intros Hn Hl Hr Hle Hc. destruct (sweep_page_split cursor n rows Hn) as (rest & Hsplit & _).
  assert (r ∈ sweep_page cursor n rows ++ rest) as [?|Hrest]%elem_of_app; [|by left|].
  { rewrite <-Hsplit, elem_of_sort_by_key. by apply elem_of_after. }
  right. pose proof (sort_by_key_sorted sweep_key (after cursor rows)) as Hs. rewrite Hsplit in Hs.
  apply (anti_symm ord_le); [done|].
  apply (StronglySorted_app_1_elem_of (key_le sweep_key) _ _ _ _ Hs); [|done]. by apply last_Some_elem_of.
Qed.
Lemma sweep_page_whole cursor n rows r :
  (Z.of_nat (length (sweep_page cursor n rows)) < n)%Z → r ∈ rows →
  ¬ ord_le (sweep_key r) cursor → r ∈ sweep_page cursor n rows.
Proof.
  intros Hlt Hr Hc. destruct (sweep_page_split cursor n rows) as (rest & Hsplit & Hrest); [lia|].
  rewrite (Hrest Hlt), app_nil_r in Hsplit. rewrite <-Hsplit, elem_of_sort_by_key.
  by apply elem_of_after.
Qed.

Lemma filter_none {A} (P : A → Prop) `{!∀ x, Decision (P x)} (l : list A) :
  (∀ x, x ∈ l → ¬ P x) → filter P l = [].
Proof.
  induction l as [|x l IH]; intros Hn; [done|]. rewrite filter_cons_False.
  - apply IH. intros y ?. apply Hn. by right.
  - apply Hn. by left.
Qed.
(** The tags after the page's last key are fewer by those of the page. *)
Lemma sweep_page_progress cursor n rows l :
  (0 ≤ n)%Z → last (sweep_page cursor n rows) = Some l →
  length (after (sweep_key l) rows) + length (sweep_page cursor n rows) ≤
  length (after cursor rows).
Proof.
  intros Hn Hl. destruct (sweep_page_split cursor n rows Hn) as (rest & Hsplit & _).
  pose proof (sort_by_key_sorted sweep_key (after cursor rows)) as Hs. rewrite Hsplit in Hs.
  assert (∀ r, r ∈ sweep_page cursor n rows → ord_le (sweep_key r) (sweep_key l)) as Hpage.
  { apply last_Some in Hl as [page' Hl]. rewrite Hl in *. intros r.
    rewrite elem_of_app, list_elem_of_singleton. intros [Hr| ->]; [|reflexivity].
    apply StronglySorted_app_1_l in Hs.
    apply (StronglySorted_app_1_elem_of (key_le sweep_key) _ _ _ _ Hs); [done|by left]. }
  assert (ord_le cursor (sweep_key l)) as Hcl.
  { apply last_Some_elem_of, sweep_page_elem in Hl as [_ Hl].
    by destruct (total ord_le cursor (sweep_key l)). }
  pose proof (Permutation_length (sort_by_key_Permutation sweep_key (after cursor rows))) as Hlen.
  rewrite Hsplit, length_app in Hlen.
  assert (length (after (sweep_key l) rows) ≤ length rest); [|lia].
  assert (after (sweep_key l) rows = after (sweep_key l) (after cursor rows)) as ->.
  { unfold after. rewrite list_filter_filter. apply list_filter_iff. intros r. split; [|tauto].
    intros Hr. split; [done|]. intros Hrc. apply Hr. by transitivity cursor. }
  unfold after at 1.
  rewrite <-(sort_by_key_Permutation sweep_key (after cursor rows)), Hsplit, filter_app.
  assert (filter (λ r, ¬ ord_le (sweep_key r) (sweep_key l)) (sweep_page cursor n rows) = []) as ->.
  { apply filter_none. intros r Hr Hn'. by apply Hn', Hpage. }
  simpl. apply length_filter.
Qed.

(** ** Appends succeed while the ledger has numbers left *)

Hypothesis event_serializes : ∀ e, ∃ payload, event_to_json e = Ok payload.

Lemma append_total ledger n e now :
  ledger_inv ledger n → (n < i64_max)%Z →
  ∃ a ledger', append_audit_event_locked ledger e now = Ok (a, ledger') ∧
               ledger_inv ledger' (n + 1).
Proof.
  intros Hinv Hn. pose proof Hinv as [(Hpos & Hdom & _) Hhw].
  assert (t_audit_events ledger !! (n + 1)%Z = None) as Hfree.
  { apply eq_None_not_Some. rewrite Hdom. lia. }
  assert (∃ r, append_audit_event_locked ledger e now = Ok r) as [[a ledger'] Ha].
  { unfold append_audit_event_locked. destruct (event_serializes e) as [payload ->].
    destruct (t_ledger_high_water ledger) as [[max_seq h]|].
    - destruct Hhw as (-> & _ & _). rewrite wrapping_i64_small by (unfold i64_max in *; lia).
      rewrite Hfree. eauto.
    - subst n. change (0 + 1)%Z with GENESIS_SEQ in Hfree. rewrite Hfree. eauto. }
  exists a, ledger'. split; [done|]. by eapply append_inv.
Qed.
Lemma append_events_total events now ledger n :
  ledger_inv ledger n → (n + Z.of_nat (length events) ≤ i64_max)%Z →
  ∃ ledger', append_audit_events events now ledger = Ok ledger' ∧
             ledger_inv ledger' (n + Z.of_nat (length events)).
Proof.
  revert ledger n. induction events as [|e events IH]; intros ledger n Hinv Hn; simpl in *.
  { exists ledger. by rewrite Z.add_0_r. }
  destruct (append_total ledger n (with_attributes e (redact_json (attributes e))) now)
    as (a & l & -> & Hl); [done|lia|]. simpl.
  destruct (IH l (n + 1)%Z) as (l' & Hl' & Hinv'); [done|lia|].
  exists l'. split; [done|]. by replace (n + Z.of_nat (S (length events)))%Z
    with (n + 1 + Z.of_nat (length events))%Z by lia.
Qed.

(** ** A batch succeeds *)

Lemma audit_targets_length E : length (audit_targets E) ≤ length E.
Proof.
  unfold audit_targets. rewrite length_app. induction E as [|[t id] E IH]; [done|].
  csimpl. unfold evidence_target, record_target in *. simpl in *.
  repeat case_decide; simplify_eq; simpl; lia.
Qed.
Lemma expired_keys_length now rows : length (expired_keys now rows) ≤ length rows.
Proof. unfold expired_keys. rewrite length_fmap. apply length_filter. Qed.

Lemma sweep_body_total fresh now cursor n db m :
  let page := sweep_page (parse_sweep_cursor cursor) n (t_lineage db) in
  (∀ r, r ∈ t_lineage db → is_Some (uuids_from_json (lt_source_record_ids r))) →
  ledger_inv (t_audit db) m → (m + Z.of_nat (length page) ≤ i64_max)%Z →
  ∃ report db' m', sweep_body fresh now cursor n db = Ok (report, db') ∧
    ledger_inv (t_audit db') m' ∧ (m' ≤ m + Z.of_nat (length page))%Z.
Proof.
  intros page Hr Hinv Hm. unfold sweep_body. fold page.
  destruct (sweep_rows_total now page (mkSweepState db 0 0 0 [] [])) as [st Hst].
  { intros r [? _]%sweep_page_elem. by apply Hr. }
  rewrite Hst. simpl. apply sweep_rows_effect in Hst as (_ & Hev & Hrec).
  destruct (sweep_audit_events_shape fresh now st) as [_ Ht].
  assert (length (sweep_audit_events fresh now st) ≤ length page) as Hlen.
  { rewrite <-(length_fmap target), Ht, Hev, Hrec. simpl.
    etrans; [apply audit_targets_length|apply expired_keys_length]. }
  destruct (append_events_total (sweep_audit_events fresh now st) now (t_audit db) m)
    as (ledger & -> & Hl); [done|lia|]. simpl.
  eexists _, _, _. split; [done|]. split; [exact Hl|lia].
Qed.

(** ** The batches of a cycle *)

(** The cursor tells tags apart: no separator in a time or a table name, no
    empty time, and tags of one key have one class. *)
Definition clean_tags (rows : list LineageTagRow) : Prop :=
  (∀ r, r ∈ rows → no_separator (lt_recorded_at r) ∧ no_separator (lt_record_table r) ∧
     lt_recorded_at r ≠ "") ∧
  ∀ r r', r ∈ rows → r' ∈ rows → sweep_key r = sweep_key r' →
    lt_retention_class r = lt_retention_class r'.

Lemma clean_tags_filter (P : LineageTagRow → Prop) `{!∀ r, Decision (P r)} rows :
  clean_tags rows → clean_tags (filter P rows).
Proof.
  intros [Hs Hc]. split.
  - intros r [_ ?]%list_elem_of_filter. by apply Hs.
  - intros r r' [_ ?]%list_elem_of_filter [_ ?]%list_elem_of_filter. by apply Hc.
Qed.

(** No tag up to the cursor has expired. *)
Definition clear_to (now : Z) (cursor : SweepKey) db : Prop :=
  ∀ r, r ∈ t_lineage db → ord_le (sweep_key r) cursor → row_expired now r = false.

Lemma row_expired_key now r r' :
  sweep_key r = sweep_key r' → lt_retention_class r = lt_retention_class r' →
  row_expired now r = row_expired now r'.
Proof. unfold sweep_key, row_expired. intros [= -> _ _] ->. done. Qed.

Lemma expired_on_page now page r :
  r ∈ page → row_expired now r = true → record_key r ∈ expired_keys now page.
Proof. intros. apply list_elem_of_fmap. exists r. by rewrite list_elem_of_filter. Qed.

(** A full batch clears the tags up to its last key, a short one all of them. *)
Lemma batch_clears now now' c n db db' :
  let page := sweep_page c n (t_lineage db) in
  (0 < n)%Z → (now ≤ now')%Z → clean_tags (t_lineage db) → clear_to now c db →
  sweep_effect (expired_keys now' page) db db' →
  (∀ l, last page = Some l → clear_to now (sweep_key l) db') ∧
  ((Z.of_nat (length page) < n)%Z → ∀ r, r ∈ t_lineage db' → row_expired now r = false).
Proof.
  intros page Hn Hnow [_ Hclass] Hclear Heff.
  assert (∀ r, r ∈ t_lineage db' → r ∈ t_lineage db ∧ record_key r ∉ expired_keys now' page)
    as Hkeep.
  { intros r. rewrite (se_lineage _ _ _ Heff), list_elem_of_filter. tauto. }
  assert (∀ r, r ∈ t_lineage db' → r ∈ page → row_expired now r = false) as Hpage.
  { intros r [_ Hk]%Hkeep Hr. apply not_true_is_false. intros Hx. apply Hk.
    apply expired_on_page; [done|]. by eapply row_expired_mono. }
  split.
  - intros l Hl r Hr' Hle. destruct (Hkeep r Hr') as [Hr Hk].
    destruct (decide (ord_le (sweep_key r) c)) as [?|Hc]; [by apply Hclear|].
    destruct (sweep_page_covers c n (t_lineage db) l r) as [?|Heq]; [lia|done..|by apply Hpage|].
    apply not_true_is_false. intros Hx. apply Hk.
    apply last_Some_elem_of in Hl as Hlp. pose proof (sweep_page_elem _ _ _ _ Hlp) as [Hll _].
    rewrite (row_expired_key _ r l) in Hx by (try apply Hclass; done).
    replace (record_key r) with (record_key l)
      by (unfold sweep_key, record_key in *; congruence).
    apply expired_on_page; [done|]. by eapply row_expired_mono.
  - intros Hshort r Hr'. destruct (Hkeep r Hr') as [Hr _].
    destruct (decide (ord_le (sweep_key r) c)) as [?|Hc]; [by apply Hclear|].
    apply Hpage; [done|]. by apply sweep_page_whole.
Qed.

(** What a batch needs, besides a database that commits. *)
Record can_sweep (now n : Z) (c : SweepKey) db (m : Z) : Prop := mkCanSweep {
  cs_clean : clean_tags (t_lineage db);
  cs_readable r : r ∈ t_lineage db → is_Some (uuids_from_json (lt_source_record_ids r));
  cs_clear : clear_to now c db;
  cs_ledger : ledger_inv (t_audit db) m;
  cs_room : (m + Z.of_nat (length (after c (t_lineage db))) ≤ i64_max)%Z;
}.

(** Every record of [E] had a tag that expired by some batch. *)
Definition expired_by (w : BatchWorld) E db : Prop :=
  ∀ k, k ∈ E → ∃ r j, r ∈ t_lineage db ∧ record_key r = k ∧ row_expired (bw_now w j) r = true.

Lemma page_within_after c n rows : length (sweep_page c n rows) ≤ length (after c rows).
Proof.
  unfold sweep_page, sql_limit. case_decide; rewrite ?length_take;
    rewrite (Permutation_length (sort_by_key_Permutation sweep_key _)); unfold after; lia.
Qed.
Lemma after_filter_length (P : LineageTagRow → Prop) `{!∀ r, Decision (P r)} c rows :
  length (after c (filter P rows)) ≤ length (after c rows).
Proof.
  unfold after. rewrite list_filter_filter. induction rows as [|r rows IH]; [done|].
  rewrite !filter_cons. repeat case_decide; simpl; try lia. tauto.
Qed.

(** One batch that is full: the next one can run from its last key. *)
Lemma full_batch now now' n c db report db' m m' l :
  let page := sweep_page c n (t_lineage db) in
  (0 < n)%Z → (now ≤ now')%Z → can_sweep now n c db m → last page = Some l →
  sweep_effect (expired_keys now' page) db db' → sweep_reports page (expired_keys now' page) n report →
  ledger_inv (t_audit db') m' → (m' ≤ m + Z.of_nat (length page))%Z →
  parse_sweep_cursor (Some (sweep_cursor_token (sweep_key l))) = sweep_key l ∧
  can_sweep now n (sweep_key l) db' m' ∧
  length (after (sweep_key l) (t_lineage db')) + length page ≤ length (after c (t_lineage db)).
Proof.
  intros page Hn Hnow [Hclean Hread Hclear Hled Hroom] Hl Heff Hrep Hled' Hm'.
  pose proof (last_Some_elem_of _ _ Hl) as Hlp. pose proof (sweep_page_elem _ _ _ _ Hlp) as [Hll _].
  assert (length (after (sweep_key l) (t_lineage db')) + length page ≤
          length (after c (t_lineage db))) as Hprog.
  { pose proof (sweep_page_progress c n (t_lineage db) l) as Hp. fold page in Hp.
    rewrite (se_lineage _ _ _ Heff).
    pose proof (after_filter_length (λ r, record_key r ∉ expired_keys now' page) (sweep_key l)
                  (t_lineage db)).
    specialize (Hp ltac:(lia) Hl). lia. }
  split; [|split; [|done]].
  - apply sweep_cursor_roundtrip; simpl; by apply Hclean.
  - split; [| | |done|lia].
    + rewrite (se_lineage _ _ _ Heff). by apply clean_tags_filter.
    + intros r. rewrite (se_lineage _ _ _ Heff), list_elem_of_filter. intros [_ ?]. by apply Hread.
    + by eapply batch_clears.
Qed.

Lemma sweep_batches_complete w n now fuel : ∀ i cursor db m,
  (∀ j, bw_sql w j = Commits) → (∀ j, now ≤ bw_now w j)%Z → (0 < n ≤ i64_max)%Z →
  can_sweep now n (parse_sweep_cursor cursor) db m →
  (Z.of_nat (length (after (parse_sweep_cursor cursor) (t_lineage db))) < Z.of_nat fuel * n)%Z →
  ∃ db' E, sweep_batches w n i fuel cursor db = (None, db') ∧ sweep_effect E db db' ∧
    expired_by w E db ∧ ∀ r, r ∈ t_lineage db' → row_expired now r = false.
Proof.
  induction fuel as [|fuel IH]; intros i cursor db m Hsql Hnow Hn Hcan Hfuel; [lia|].
  set (c := parse_sweep_cursor cursor) in *. set (page := sweep_page c n (t_lineage db)).
  pose proof (page_within_after c n (t_lineage db)) as Hpl. fold page in Hpl.
  destruct (sweep_body_total (bw_fresh w i) (bw_now w i) cursor n db m) as
    (report & db1 & m1 & Hbody & Hled & Hm1).
  { apply Hcan. } { apply Hcan. } { fold c page. pose proof (cs_room _ _ _ _ _ Hcan). lia. }
  fold c page in Hm1. simpl. unfold sweep_expired_records. rewrite Hsql, Hbody. simpl.
  apply sweep_body_inv in Hbody as (Heff & _ & Hrep). fold c page in Heff, Hrep.
  assert (expired_by w (expired_keys (bw_now w i) page) db) as Hby.
  { intros k (r & -> & [Hx Hr]%list_elem_of_filter)%list_elem_of_fmap.
    apply sweep_page_elem in Hr as [Hr _]. eauto. }
  assert (as_usize n = n) as Hus by (unfold as_usize, i64_max in *; apply Z.mod_small; lia).
  pose proof (sweep_page_bounded c n (t_lineage db) ltac:(lia)) as Hle. fold page in Hle.
  rewrite (sr_cursor _ _ _ _ Hrep), (sr_more _ _ _ _ Hrep), Hus. case_bool_decide as Hfull.
  - destruct (last page) as [l|] eqn:Hl.
    2:{ apply last_None in Hl. rewrite Hl in Hfull. simpl in Hfull. lia. }
    destruct (full_batch now (bw_now w i) n c db report db1 m m1 l) as (Hpc & Hcan1 & Hprog);
      [lia|apply Hnow|done..|]. cbn [fmap option_fmap option_map].
    destruct (IH (S i) (Some (sweep_cursor_token (sweep_key l))) db1 m1)
      as (db' & E & Hrun & HE & Hby' & Hdone); [done..| | |].
    { by rewrite Hpc. } { rewrite Hpc. fold page in Hprog. lia. }
    exists db', (expired_keys (bw_now w i) page ++ E). split_and!; [done| | |done].
    + by eapply sweep_effect_trans.
    + intros k [?|Hk]%elem_of_app; [by apply Hby|]. destruct (Hby' k Hk) as (r & j & Hr & Hk').
      rewrite (se_lineage _ _ _ Heff), list_elem_of_filter in Hr. exists r, j. tauto.
  - exists db1, (expired_keys (bw_now w i) page). split_and!; [done..|].
    destruct (batch_clears now (bw_now w i) c n db db1) as [_ Hshort];
      [lia|apply Hnow|apply Hcan..|done|]. apply Hshort. fold page. lia.
Qed.

(** ** A cycle *)

Context `{!EventJsonOk}.

Lemma untagged_handled db table id : store_ok db → ¬ tagged db table id → handled table id db.
Proof.
  intros Hok Ht. split_and!; intros ->.
  - intros r Hr. by destruct (ok_event_governed _ Hok _ _ Hr).
  - intros r Hr. by destruct (ok_claim_governed _ Hok _ _ Hr).
  - intros r Hr. by destruct (ok_evidence_governed _ Hok _ _ Hr).
  - apply eq_None_not_Some. intros [f Hf]. by apply Ht, (ok_finding_governed _ Hok _ f).
Qed.
Lemma sweep_batches_ok w n i fuel cursor db :
  store_ok db → store_ok (sweep_batches w n i fuel cursor db).2.
Proof.
  revert i cursor db. induction fuel as [|fuel IH]; intros i cursor db Hok; simpl; [done|].
  pose proof (sweep_ok (bw_sql w i) (bw_fresh w i) (bw_now w i) cursor n db Hok) as Hok'.
  destruct (sweep_expired_records _ _ _ _ _ _) as [[report|] db1]; simpl in *; [|done].
  destruct (more_remaining report); [by apply IH|done].
Qed.

Lemma start_clear now rows r :
  clean_tags rows → r ∈ rows → ord_le (sweep_key r) (parse_sweep_cursor None) →
  row_expired now r = false.
Proof.
  intros [Hc _] Hr Hle. destruct (Hc r Hr) as (_ & _ & []).
  assert (ord_le (lt_recorded_at r) "") as Hs.
  { destruct Hle as [[? _]|[Heq _]]; [done|]. simpl in Heq. by rewrite Heq. }
  apply (anti_symm ord_le); [done|]. done.
Qed.
Lemma resolve_config_batch interval batch_size max_size :
  (∀ n, batch_size = Some n → n ≤ i64_max)%Z →
  (0 < sc_batch_size (resolve_config interval batch_size max_size) ≤ i64_max)%Z.
Proof.
  intros Hb. simpl. destruct batch_size as [n|]; [case_decide|]; [|done|done].
  split; [done|]. by apply Hb.
Qed.

(** C18. Expired records do not outlive a cycle: when the database commits
    and the tags fit in the batches of one cycle, the daemon's cycle from the
    start of the table ends its pass, no tag left in the store had expired
    when it began, and of every record that had, the row is gone or its
    content is purged. What it removed had expired, and nothing else changed.
    The hypotheses are that the cursor can tell the tags apart and that the
    audit ledger has numbers left. *)
Theorem expired_records_do_not_outlive_a_cycle w staged consent_live interval batch_size max_size
    db m :
  let config := resolve_config interval batch_size max_size in
  let now := bw_now w 0 in
  store_ok db → clean_tags (t_lineage db) → ledger_inv (t_audit db) m →
  (m + Z.of_nat (length (t_lineage db)) ≤ i64_max)%Z →
  (∀ j, bw_sql w j = Commits) → (∀ j, now ≤ bw_now w j)%Z →
  (∀ n, batch_size = Some n → n ≤ i64_max)%Z →
  (Z.of_nat (length (t_lineage db)) < Z.of_nat MAX_BATCHES_PER_CYCLE * sc_batch_size config)%Z →
  staged || negb consent_live = true →
  ∃ db' E, run_one_cycle w staged consent_live None config db = (None, db') ∧ store_ok db' ∧
    sweep_effect E db db' ∧ expired_by w E db ∧
    (∀ r, r ∈ t_lineage db' → row_expired now r = false) ∧
    (∀ r, r ∈ t_lineage db → row_expired now r = true →
       record_key r ∈ E ∧ handled (lt_record_table r) (lt_record_id r) db').
Proof.
  intros config now Hok Hclean Hled Hroom Hsql Hnow Hb Hfit Hgo.
  assert (length (after (parse_sweep_cursor None) (t_lineage db)) ≤ length (t_lineage db)) as Hal
    by apply length_filter.
  destruct (sweep_batches_complete w (sc_batch_size config) now MAX_BATCHES_PER_CYCLE 0 None db m)
    as (db' & E & Hrun & Heff & Hby & Hdone); [done..| | |lia|].
  { by apply resolve_config_batch. }
  { split; [done|apply Hok| |done|lia]. intros r Hr. by apply (start_clear _ (t_lineage db)). }
  exists db', E. pose proof (sweep_batches_ok w (sc_batch_size config) 0 MAX_BATCHES_PER_CYCLE None
    db Hok) as Hok'. rewrite Hrun in Hok'. simpl in Hok'.
  split_and!; [|done..|].
  - unfold run_one_cycle. destruct staged, consent_live; done.
  - intros r Hr Hx. assert (record_key r ∈ E) as Hk.
    { apply dec_stable. intros Hn. assert (r ∈ t_lineage db') as Hr'.
      { rewrite (se_lineage _ _ _ Heff), list_elem_of_filter. done. }
      rewrite (Hdone r Hr') in Hx. done. }
    split; [done|]. apply untagged_handled; [done|]. intros (r' & Hr' & Ht & Hi).
    rewrite (se_lineage _ _ _ Heff), list_elem_of_filter in Hr'. apply Hr'.
    unfold record_key in *. by rewrite Ht, Hi.
Qed.

(** ** Erasing a tenant *)

(** The row of a record is not in its table. *)
Definition gone (k : string * string) db : Prop :=
  (k.1 = "agent_events" → t_agent_events db !! k.2 = None) ∧
  (k.1 = "claims" → t_claims db !! k.2 = None) ∧
  (k.1 = "evidence" → t_evidence db !! k.2 = None) ∧
  (k.1 = "findings" → t_findings db !! k.2 = None) ∧
  (k.1 ∈ document_tables → t_documents db !! k = None).

(** The tables after deleting the records of [E], which may be listed twice:
    those records are gone, and every other row is as before. *)
Record erased E db db' : Prop := mkErased {
  er_gone k : k ∈ E → gone k db';
  er_event id : ("agent_events", id) ∉ E →
    t_agent_events db' !! id = t_agent_events db !! id ∧
    t_event_attribution db' !! id = t_event_attribution db !! id;
  er_claim id : ("claims", id) ∉ E → t_claims db' !! id = t_claims db !! id;
  er_evidence id : ("evidence", id) ∉ E → t_evidence db' !! id = t_evidence db !! id;
  er_finding id : ("findings", id) ∉ E → t_findings db' !! id = t_findings db !! id;
  er_document k : k ∉ E → t_documents db' !! k = t_documents db !! k;
  er_links : t_links db' = t_links db;
  er_missing : t_missing db' = t_missing db;
  er_audit : t_audit db' = t_audit db;
  er_lineage : t_lineage db' = t_lineage db;
}.

Lemma erased_refl db : erased [] db db.
Proof. split; try done. by intros k ?%elem_of_nil. Qed.

(** Rows are only removed, so a record that is gone stays gone. *)
Lemma erased_gone E db db' k : erased E db db' → gone k db → gone k db'.
Proof.
  intros Her (He & Hc & Hv & Hf & Hd). destruct (decide (k ∈ E)) as [?|Hk];
    [by apply (er_gone _ _ _ Her)|].
  destruct k as [t id]; simpl in *. split_and!; simpl; intros Ht.
  - subst t. rewrite (proj1 (er_event _ _ _ Her id Hk)). by apply He.
  - subst t. rewrite (er_claim _ _ _ Her id Hk). by apply Hc.
  - subst t. rewrite (er_evidence _ _ _ Her id Hk). by apply Hv.
  - subst t. rewrite (er_finding _ _ _ Her id Hk). by apply Hf.
  - rewrite (er_document _ _ _ Her _ Hk). by apply Hd.
Qed.
Lemma erased_trans E1 E2 db1 db2 db3 :
  erased E1 db1 db2 → erased E2 db2 db3 → erased (E1 ++ E2) db1 db3.
Proof.
  intros H12 H23. split.
  - intros k [Hk|Hk]%elem_of_app; [|by apply H23]. by eapply erased_gone, H12.
  - intros id [Hn1 Hn2]%not_elem_of_app. destruct (er_event _ _ _ H12 id Hn1) as [<- <-].
    by apply H23.
  - intros id [Hn1 Hn2]%not_elem_of_app. rewrite <-(er_claim _ _ _ H12 id Hn1). by apply H23.
  - intros id [Hn1 Hn2]%not_elem_of_app. rewrite <-(er_evidence _ _ _ H12 id Hn1). by apply H23.
  - intros id [Hn1 Hn2]%not_elem_of_app. rewrite <-(er_finding _ _ _ H12 id Hn1). by apply H23.
  - intros k [Hn1 Hn2]%not_elem_of_app. rewrite <-(er_document _ _ _ H12 k Hn1). by apply H23.
  - etrans; [apply H23|apply H12].
  - etrans; [apply H23|apply H12].
  - etrans; [apply H23|apply H12].
  - etrans; [apply H23|apply H12].
Qed.

Lemma delete_ne {A} (m : gmap string A) (t i i' : string) :
  (t, i') ∉ [(t, i)] → delete i m !! i' = m !! i'.
Proof. intros Hn. apply lookup_delete_ne. intros ->. apply Hn. by left. Qed.

(** The only record is the one deleted, and a table name fits one table. *)
Ltac erase_one :=
  split; simpl; try done;
    [ intros k ->%list_elem_of_singleton; unfold gone; simpl; split_and!; intros Hk; try done;
      try (apply lookup_delete_eq);
      try (exfalso; refine (proj1 (Forall_forall _ _) document_tables_other _ _ Hk);
           by repeat constructor)
    | .. ];
    try (by intros; split; apply (delete_ne _ "agent_events"));
    try (intros; by eapply delete_ne).

Lemma delete_from_erased table id db db' :
  delete_from table id db = RowDeleted db' → erased [(table, id)] db db'.
Proof.
  unfold delete_from. destruct (decide (table = "agent_events")) as [->|Hte].
  { unfold delete_event. destruct (t_agent_events db !! id) eqn:Ei; [case_decide; [done|]|];
      intros [= <-]; by erase_one. }
  destruct (decide (table = "claims")) as [->|Htc].
  { unfold delete_claim. destruct (t_claims db !! id) eqn:Ei; [case_decide; [done|]|];
      intros [= <-]; by erase_one. }
  destruct (decide (table = "evidence")) as [->|Htv].
  { unfold delete_evidence. destruct (t_evidence db !! id) eqn:Ei; [case_decide; [done|]|];
      intros [= <-]; by erase_one. }
  destruct (decide (table = "findings")) as [->|Htf].
  { intros [= <-]. by erase_one. }
  case_decide; [|done]. intros [= <-]. split; simpl; try done.
  - intros k ->%list_elem_of_singleton. unfold gone; simpl. split_and!; intros; try done.
    apply lookup_delete_eq.
  - intros k Hk. apply lookup_delete_ne. intros <-. apply Hk. by left.
Qed.
Lemma unknown_table_erased table id db :
  delete_from table id db = UnknownTable → erased [(table, id)] db db.
Proof.
  intros Hd. split; try done. intros k ->%list_elem_of_singleton. revert Hd. unfold delete_from.
  destruct (decide (table = "agent_events")) as [->|]; [unfold delete_event; by repeat case_match|].
  destruct (decide (table = "claims")) as [->|]; [unfold delete_claim; by repeat case_match|].
  destruct (decide (table = "evidence")) as [->|]; [unfold delete_evidence; by repeat case_match|].
  destruct (decide (table = "findings")) as [->|]; [done|]. case_decide as Hk; [done|]. intros _.
  unfold gone; simpl. split_and!; intros; try done. destruct Hk.
  unfold document_tables in *. rewrite <-(take_drop 4 KNOWN_RECORD_TABLES), elem_of_app. by right.
Qed.

Definition tag_key (t : LineageTagRecord) : string * string := (lr_record_table t, lr_record_id t).

Lemma delete_tagged_erased tags report db report' db' :
  delete_tagged tags report db = Ok (report', db') →
  erased (tag_key <$> tags) db db' ∧
  deleted_records report' ++ unknown_table_records report' ≡ₚ
    (deleted_records report ++ unknown_table_records report) ++ (tag_key <$> tags) ∧
  (∀ k, k ∈ unknown_table_records report' →
     k ∈ unknown_table_records report ∨ k.1 ∉ KNOWN_RECORD_TABLES).
Proof.
  revert report db. induction tags as [|t tags IH]; intros report db; simpl.
  { intros [= <- <-]. split_and!; [apply erased_refl|by rewrite app_nil_r|by left]. }
  destruct (delete_from _ _ db) as [db1| |] eqn:E; [|done|]; intros (Her & Hrep & Hunk)%IH.
  - apply delete_from_erased in E. split_and!; [by apply (erased_trans [_] _ _ _ _ E)| |done].
    rewrite Hrep. simpl. solve_Permutation.
  - pose proof (unknown_table_erased _ _ _ E) as E'.
    split_and!; [by apply (erased_trans [_] _ _ _ _ E')| |].
    + rewrite Hrep. simpl. solve_Permutation.
    + intros k [Hk|?]%Hunk; [|by right]. simpl in Hk. apply elem_of_app in Hk as [?|Hk]; [by left|].
      apply list_elem_of_singleton in Hk as ->. right. simpl. revert E. unfold delete_from.
      unfold delete_event, delete_claim, delete_evidence. by repeat (case_decide || case_match).
Qed.

Lemma tenant_tags_keys tenant db tags :
  lineage_tags_for_tenant tenant db = Ok tags →
  tag_key <$> tags = record_key <$> tenant_rows tenant db.
Proof.
  unfold lineage_tags_for_tenant. rewrite collect_results_Ok.
  induction 1 as [|r t rows tags Hrt _ IH]; [done|]. csimpl. f_equal; [|done].
  revert Hrt. unfold lineage_record_of_row. destruct (uuids_from_json _); [|done].
  by intros [= <-].
Qed.

Lemma erase_inv sql tenant db report db' :
  delete_records_for_tenant sql tenant db = (Ok report, db') →
  let E := record_key <$> tenant_rows tenant db in
  ∃ db1, erased E db db1 ∧
    db' = with_lineage (filter (λ r, lt_tenant_ref r ≠ tenant)) db1 ∧
    deleted_records report ++ unknown_table_records report ≡ₚ E ∧
    Forall (λ k, k.1 ∉ KNOWN_RECORD_TABLES) (unknown_table_records report).
Proof.
  intros Hd%in_tx_ok. destruct (lineage_tags_for_tenant tenant db) as [tags|] eqn:Et; [|done].
  simpl in Hd. destruct (delete_tagged tags _ db) as [[rep db1]|] eqn:Ed; [|done].
  simpl in Hd. simplify_eq. apply delete_tagged_erased in Ed as (Her & Hrep & Hunk).
  rewrite (tenant_tags_keys _ _ _ Et) in *. exists db1. split_and!; [done..|].
  apply Forall_forall. intros k [?%elem_of_nil|?]%Hunk; done.
Qed.

(** C10. Erasing a tenant is complete or does nothing: when it fails the store
    is as before; when it succeeds, every record that had a tag of the tenant
    is gone from its table, and so are the tenant's tags, while the other
    rows, the links, the notes and the ledger are untouched, and the report
    lists each tag once, by whether its table is known. It can succeed only
    if no link and no note of missing evidence refers to one of the tenant's
    claims: those rows are never deleted and the foreign key holds. *)
Theorem erasure_is_complete_or_nothing sql tenant db res db' :
  store_ok db → delete_records_for_tenant sql tenant db = (res, db') →
  match res with
  | Err _ => db' = db
  | Ok report =>
      let E := record_key <$> tenant_rows tenant db in
      (∀ k, k ∈ E → gone k db') ∧
      (∃ db1, erased E db db1 ∧ db' = with_lineage (filter (λ r, lt_tenant_ref r ≠ tenant)) db1) ∧
      deleted_records report ++ unknown_table_records report ≡ₚ E ∧
      Forall (λ k, k.1 ∉ KNOWN_RECORD_TABLES) (unknown_table_records report) ∧
      (∀ id l, t_links db !! id = Some l → ("claims", lrow_claim_id l) ∉ E) ∧
      (∀ id n, t_missing db !! id = Some n → ("claims", mrow_claim_id n) ∉ E)
  end.
Proof.
  intros Hok Hd. destruct res as [report|e]; [|by eapply in_tx_err].
  pose proof (erase_ok sql tenant db Hok) as Hok'. rewrite Hd in Hok'. simpl in Hok'.
  apply erase_inv in Hd as (db1 & Her & -> & Hrep & Hunk). intros E. split_and!; [|by eauto|done..| |].
  - intros k Hk. apply (er_gone _ _ _ Her k Hk).
  - intros id l Hl Hk. destruct (er_gone _ _ _ Her _ Hk) as (_ & Hg & _).
    destruct (ok_link _ Hok' id l) as [[c Hc] _].
    + simpl. by rewrite (er_links _ _ _ Her).
    + simpl in Hc, Hg. by rewrite Hg in Hc.
  - intros id n Hn Hk. destruct (er_gone _ _ _ Her _ Hk) as (_ & Hg & _).
    destruct (ok_missing _ Hok' id n) as [c Hc].
    + simpl. by rewrite (er_missing _ _ _ Her).
    + simpl in Hc, Hg. by rewrite Hg in Hc.
Qed.
End spec.
