(* ===== verification/RetentionExamples.v ===== *)
(** * Retention on a concrete store

    A small instance of the libraries the event store relies on and a session
    recorded on it: an event, a claim about it, its evidence, their link and a
    finding, and later a second event. The runs witness the theorems about
    the store, and one of them that erasing such a session fails. *)

From S2P Require Import Prelude.
From S2P Require Import Types.
From S2P Require Import Text.
From S2P Require Import Graph.
From S2P Require Import Projection.
From S2P Require Import AuditEvent.
From S2P Require Import AuditLedger.
From S2P Require Import AuditLedgerSpec.
From S2P Require Import ExecutionIdentity.
From S2P Require Import EventStore.
From S2P Require Import EventRead.
From S2P Require Import Retention.
From S2P Require Import RetentionInv.
From S2P Require Import RetentionSpec.

Local Open Scope fornax_scope.

(** ** The libraries, concretely *)

(** A list of uuids as a string of bits. *)
Fixpoint bits_of (p : positive) : string :=
  match p with
  | xH => ""
  | xO p => String (Ascii.ascii_of_nat 48) (bits_of p)
  | xI p => String (Ascii.ascii_of_nat 49) (bits_of p)
  end.
Fixpoint of_bits (s : string) : positive :=
  match s with
  | EmptyString => xH
  | String a s => if Ascii.eqb a (Ascii.ascii_of_nat 48) then xO (of_bits s) else xI (of_bits s)
  end.
Lemma of_bits_of p : of_bits (bits_of p) = p.
Proof.
  induction p as [p IH|p IH|]; [..|done].
  - change (of_bits (bits_of (xI p))) with (xI (of_bits (bits_of p))). by rewrite IH.
  - change (of_bits (bits_of (xO p))) with (xO (of_bits (bits_of p))). by rewrite IH.
Qed.

#[local] Instance sample_json : EventJson := {
  value_to_string v := match v with JNull => "null" | JBool true => "true" | _ => "value" end;
  value_from_str s :=
    if decide (s = "null") then Some JNull
    else if decide (s = "true") then Some (JBool true) else None;
  source_to_json _ := "source";
  source_from_json _ := None;
  extension_to_json _ := "extension";
  extension_from_json _ := None;
  uuids_to_json l := bits_of (countable.encode l);
  uuids_from_json s := countable.decode (of_bits s);
  uuid_parse_str s :=
    match s with String a EmptyString => Some (Ascii.N_of_ascii a) | _ => None end;
}.
#[local] Instance sample_json_ok : EventJsonOk.
Proof. intros l. simpl. rewrite of_bits_of. apply countable.decode_encode. Qed.
#[local] Instance sample_uuid : UuidOps := {
  uuid_to_string n := String (Ascii.ascii_of_N n) "";
  new_v5 n _ := n;
}.
Definition day : Z := 24 * 3600 * nanos_per_second.
#[local] Instance sample_chrono : Chrono := {
  parse_from_rfc3339 s :=
    if decide (s = "day 0") then Some 0%Z
    else if decide (s = "day 20") then Some (20 * day)%Z else None;
  num_seconds d := Z.quot d nanos_per_second;
}.
#[local] Instance sample_fmt : ChronoFmt := {
  to_rfc3339 _ := "day 31";
  add_days t d := Some (t + d * day)%Z;
}.
#[local] Instance sample_sha : Sha256 := { sha256 m := replicate 32 0%N }.
#[local] Instance sample_audit_wire : AuditWire := {
  event_to_json e := Ok (ae_event_id e);
  event_from_json s := Err s;
  export_class_tag _ := "metadata";
}.
#[local] Instance sample_scan : TableScan := { scan A m := map_to_list m }.
#[local] Instance sample_scan_ok : TableScanOk.
Proof. by intros A m. Qed.

(** ** A recorded session *)

Definition sample_event (id : N) : AgentEvent :=
  mkAgentEvent id "s" ClaudeCode PostToolUse "day 0" (Some "Bash") None None (JBool true).
Definition sample_claim : Claim := mkClaim 66 "s" 65 "tests pass" "tests" "day 0".
Definition sample_evidence : Evidence :=
  mkEvidence 67 "s" 65 ExitCode "day 0" (JBool true) "hook" None None false.
Definition sample_link : EvidenceLink := mkEvidenceLink 68 "s" 66 67 Supports "day 0".
Definition sample_finding : Finding := mkFinding 69 66 Verified [67%N] "exit" "exit 0" "day 0".

Definition sample_ops : list StoreOp :=
  [OpInsertEvent Commits (sample_event 65) "day 0";
   OpInsertClaim Commits sample_claim None "day 0";
   OpInsertEvidence Commits sample_evidence None "day 0";
   OpInsertLink Commits sample_link;
   OpInsertFinding Commits sample_finding "day 0";
   OpInsertEvent Commits (sample_event 70) "day 20"].
Definition sample_db : EventDb := run_ops sample_ops empty_event_db.

Lemma sample_db_ok : store_ok sample_db.
Proof. apply run_ops_ok, empty_store_ok. Qed.

Example sample_db_rows :
  size (t_agent_events sample_db) = 2 ∧ size (t_claims sample_db) = 1 ∧
  size (t_evidence sample_db) = 1 ∧ size (t_links sample_db) = 1 ∧
  size (t_findings sample_db) = 1 ∧ length (t_lineage sample_db) = 5.
Proof. vm_compute. done. Qed.

Lemma store_always_well_formed_witness :
  store_ok empty_event_db ∧
  store_ok (run_ops sample_ops empty_event_db) ∧
  rtc ledger_step empty_ledger (t_audit (run_ops sample_ops empty_event_db)) ∧
  (λ f, (fr_id f, fr_row f)) <$> joined_findings (run_ops sample_ops empty_event_db) ≡ₚ
    map_to_list (t_findings (run_ops sample_ops empty_event_db)).
Proof.
  split; [apply empty_store_ok|].
  apply (store_always_well_formed sample_ops empty_event_db empty_store_ok).
Defined.

(** ** A sweep on day 31 *)

Definition sample_fresh (_ : nat) : string := "uuid".
Definition sample_sweep : result StoreError SweepReport * EventDb :=
  sweep_expired_records Commits sample_fresh (31 * day) None 10 sample_db.

(** The event and the claim are still referenced and purged in place, the
    evidence is purged, the finding and the second event are kept, and three
    audit events are appended. *)
Example sample_sweep_runs :
  sample_sweep.1 = Ok (mkSweepReport 5 1 0 2 0 false None) ∧
  length (t_lineage sample_sweep.2) = 2 ∧
  size (t_findings sample_sweep.2) = 1 ∧ size (t_agent_events sample_sweep.2) = 2 ∧
  is_evidence_purged "C" sample_sweep.2 = Some true ∧
  crow_text <$> t_claims sample_sweep.2 !! "B" = Some CLAIM_TEXT_PURGED_MARKER ∧
  erow_raw <$> t_agent_events sample_sweep.2 !! "A" = Some RAW_PURGED_MARKER ∧
  erow_raw <$> t_agent_events sample_sweep.2 !! "F" = Some "true" ∧
  size (t_audit_events (t_audit sample_sweep.2)) = 3.
Proof. vm_compute. done. Qed.

Definition sample_page : list LineageTagRow :=
  sweep_page (parse_sweep_cursor None) 10 (t_lineage sample_db).

Lemma sweep_touches_only_expired_witness :
  sample_sweep = (Ok (mkSweepReport 5 1 0 2 0 false None), sample_sweep.2) ∧
  sweep_effect (expired_keys (31 * day) sample_page) sample_db sample_sweep.2.
Proof.
  assert (sample_sweep = (Ok (mkSweepReport 5 1 0 2 0 false None), sample_sweep.2)) as Hs.
  { rewrite (surjective_pairing sample_sweep) at 1. f_equal; vm_compute; done. }
  split; [exact Hs|].
  apply (sweep_touches_only_expired Commits sample_fresh (31 * day) None 10 sample_db
           (Ok (mkSweepReport 5 1 0 2 0 false None)) sample_sweep.2 Hs).
Defined.

(** ** Erasure *)

(** Erasing the session fails: its event is deleted first and is referenced. *)
Example session_erasure_fails :
  (delete_records_for_tenant Commits "s" sample_db).1 = Err StoreDb.
Proof. vm_compute. done. Qed.

(** A session with events only can be erased. *)
Definition plain_db : EventDb :=
  run_ops [OpInsertEvent Commits (sample_event 65) "day 0";
           OpInsertEvent Commits (sample_event 70) "day 20"] empty_event_db.
Definition plain_report : DeletionReport :=
  mkDeletionReport [("agent_events", "A"); ("agent_events", "F")] [].
Definition plain_erasure : result StoreError DeletionReport * EventDb :=
  delete_records_for_tenant Commits "s" plain_db.

Lemma erasure_is_complete_or_nothing_witness :
  store_ok plain_db ∧ plain_erasure = (Ok plain_report, plain_erasure.2) ∧
  gone ("agent_events", "A") plain_erasure.2.
Proof.
  assert (store_ok plain_db) as Hok by apply run_ops_ok, empty_store_ok.
  assert (plain_erasure = (Ok plain_report, plain_erasure.2)) as He.
  { rewrite (surjective_pairing plain_erasure) at 1. f_equal; vm_compute; done. }
  split; [exact Hok|]. split; [exact He|].
  apply (erasure_is_complete_or_nothing Commits "s" plain_db (Ok plain_report) plain_erasure.2
           Hok He).
  vm_compute. constructor.
Defined.

(** ** A cycle *)

Definition sample_world : BatchWorld :=
  mkBatchWorld (λ _, Commits) (λ _, (31 * day)%Z) (λ _, sample_fresh).

Definition clean_tags_b (rows : list LineageTagRow) : Prop :=
  Forall (λ r, no_separator (lt_recorded_at r) ∧ no_separator (lt_record_table r) ∧
               lt_recorded_at r ≠ "") rows ∧
  Forall (λ r, Forall (λ r', sweep_key r ≠ sweep_key r' ∨
                             lt_retention_class r = lt_retention_class r') rows) rows.
Lemma clean_tags_of_b rows : clean_tags_b rows → clean_tags rows.
Proof.
  intros [Hs Hc]. rewrite Forall_forall in Hs, Hc. split; [done|]. intros r r' Hr Hr' Heq.
  specialize (Hc r Hr). rewrite Forall_forall in Hc. by destruct (Hc r' Hr').
Qed.
#[local] Instance clean_tags_b_dec rows : Decision (clean_tags_b rows).
Proof. unfold clean_tags_b, no_separator. apply _. Defined.

Lemma sample_serializes (e : AuditEvent) : ∃ payload, event_to_json e = Ok payload.
Proof. by exists (ae_event_id e). Qed.
Lemma sample_ledger : ledger_inv (t_audit sample_db) 0.
Proof.
  change (t_audit sample_db) with empty_ledger.
  apply (reachable_inv empty_ledger); [done|by vm_compute].
Qed.

Lemma expired_records_do_not_outlive_a_cycle_witness :
  store_ok sample_db ∧ clean_tags (t_lineage sample_db) ∧
  ∃ db' E, run_one_cycle sample_world true false None (resolve_config None (Some 2%Z) None) sample_db
             = (None, db') ∧ sweep_effect E sample_db db'.
Proof.
  assert (clean_tags (t_lineage sample_db)) as Hclean.
  { apply clean_tags_of_b. apply (bool_decide_unpack _). vm_compute. exact I. }
  split; [exact sample_db_ok|]. split; [exact Hclean|].
  destruct (expired_records_do_not_outlive_a_cycle sample_serializes
              sample_world true false None (Some 2%Z) None sample_db 0)
    as (db' & E & Hrun & _ & Heff & _).
  - exact sample_db_ok.
  - exact Hclean.
  - exact sample_ledger.
  - vm_compute. done.
  - done.
  - done.
  - by intros n [= <-].
  - vm_compute. done.
  - done.
  - exists db', E. split; [exact Hrun|exact Heff].
Defined.

(** The event and the evidence recorded before the sweep, sent again: the
    purged rows no longer match them. *)
Example replay_after_purge_collides :
  (insert_event Commits (sample_event 65) "day 20" sample_db).1 = Ok Duplicate ∧
  (insert_event Commits (sample_event 65) "day 20" sample_sweep.2).1 =
    Err (IdCollision "agent_events" "A") ∧
  (insert_evidence Commits sample_evidence "day 20" sample_db).1 = Ok Duplicate ∧
  (insert_evidence Commits sample_evidence "day 20" sample_sweep.2).1 =
    Err (IdCollision "evidence" "C").
Proof. vm_compute. done. Qed.

(** A finding whose claim does not exist is refused by the foreign key. *)
Example finding_without_claim_is_refused :
  insert_finding Commits sample_finding "day 0" empty_event_db = (Err StoreDb, empty_event_db).
Proof. vm_compute. done. Qed.

(** A candidate whose retention has run out is deleted by the sweep. *)
Definition candidate_db : EventDb :=
  with_documents <[("corpus_candidates", "k") := "case"]>
    (tag_record "corpus_candidates" "k" "s" "day 0" empty_event_db).
Example sweep_deletes_candidates :
  t_documents (sweep_expired_records Commits sample_fresh (181 * day) None 10 candidate_db).2
    !! ("corpus_candidates", "k") = None.
Proof. vm_compute. done. Qed.
