(* ===== verification/Admission.v ===== *)
(** * Admission of evidence

    [fornax-types/src/provenance_guard.rs]: which collectors may assert which
    trust class, the admission of a session's evidence by its origin, and the
    replay of evidence across claims. The reasons of a quarantine are the
    constructors of [QuarantineReason]; their wording is not modelled. *)

From S2P Require Import Prelude.
From S2P Require Import Types.
From S2P Require Import AuditLedger.
From S2P Require Import EventStore.

Local Open Scope fornax_scope.

(** ** Collectors *)

(** [CollectorAuthority]: a sensor's registered trust classes. *)
Definition CollectorAuthority : Type := gmap string (list TrustClass).

Definition authorize_sensor (name : string) (class : TrustClass) (a : CollectorAuthority) :
    CollectorAuthority :=
  let classes := default [] (a !! name) in
  <[name := if decide (class ∈ classes) then classes else class :: classes]> a.

Definition known_sensors : CollectorAuthority :=
  foldl (λ a x, authorize_sensor x.1 x.2 a) ∅
    [("claude_bash_exit_code_sensor_v1", AgentAdjacent);
     ("claude_edit_write_diff_sensor_v1", AgentAdjacent);
     ("claude_file_write_confirmed_sensor_v1", HostObserved);
     ("claude_git_outcome_sensor_v1", AgentAdjacent);
     ("claude_git_working_tree_sensor_v1", HostObserved);
     ("codex_exec_command_end_sensor_v1", AgentAdjacent);
     ("codex_custom_tool_call_output_sensor_v1", AgentAdjacent);
     ("codex_item_completed_command_execution_sensor_v1", AgentAdjacent);
     ("opencode_tool_exit_code_sensor_v1", AgentAdjacent);
     ("opencode_command_duration_sensor_v1", AgentAdjacent);
     ("github_ci_status_sensor_v1", IndependentExternal)].

Definition is_authorized (a : CollectorAuthority) (name : string) (class : TrustClass) : bool :=
  match a !! name with Some classes => bool_decide (class ∈ classes) | None => false end.
Definition is_registered (a : CollectorAuthority) (name : string) : bool :=
  bool_decide (is_Some (a !! name)).

Inductive QuarantineReason :=
| TrustClassNotAuthorized (name : string) (class : TrustClass)
| CollectorNotRegistered (name : string) (class : TrustClass)
| NoKnownOrigin
| NoEvidenceSource
| ProviderMismatch (claimed real : Provider)
| AmbiguousOwner.

Inductive ProvenanceVerdict := Trusted | ProvenanceQuarantined (reason : QuarantineReason).

Definition authorize_evidence_source (a : CollectorAuthority) (source : EvidenceSource) :
    ProvenanceVerdict :=
  if is_authorized a (sensor_name source) (trust_class source) then Trusted
  else if is_registered a (sensor_name source)
  then ProvenanceQuarantined (TrustClassNotAuthorized (sensor_name source) (trust_class source))
  else ProvenanceQuarantined (CollectorNotRegistered (sensor_name source) (trust_class source)).

(** ** One row *)

Inductive SessionOwner := OwnerUnknown | OwnerSingle (p : Provider) | OwnerAmbiguous.

Inductive AdmissionVerdict := Admitted_ | Quarantined (reason : QuarantineReason).

Definition admission_decision (evidence : Evidence) (origin : EvidenceOrigin)
    (authority : CollectorAuthority) (owner : SessionOwner) : AdmissionVerdict :=
  match origin with
  | UnknownOrigin => Quarantined NoKnownOrigin
  | DaemonAcquisition | PrivilegedExecutor => Admitted_
  | UdsIngest =>
      match ev_source evidence with
      | None => Quarantined NoEvidenceSource
      | Some source =>
          match authorize_evidence_source authority source with
          | ProvenanceQuarantined reason => Quarantined reason
          | Trusted =>
              match src_provider source, owner with
              | _, OwnerUnknown => Admitted_
              | Some claimed, OwnerSingle real =>
                  if decide (claimed = real) then Admitted_
                  else Quarantined (ProviderMismatch claimed real)
              | None, OwnerSingle _ => Admitted_
              | _, OwnerAmbiguous => Quarantined AmbiguousOwner
              end
          end
      end
  end.

(** ** Binding to a session *)

Record SessionBindingViolation := mkSessionBindingViolation {
  bv_evidence_id : Uuid;
  bv_evidence_session_id : string;
  bv_claim_session_id : string;
}.
Fixpoint bind_evidence_to_session (claim : Claim) (evidence : list Evidence) :
    list Evidence * list SessionBindingViolation :=
  match evidence with
  | [] => ([], [])
  | ev :: evidence =>
      let '(bound, violations) := bind_evidence_to_session claim evidence in
      if decide (ev_session_id ev = claim_session_id claim) then (ev :: bound, violations)
      else (bound,
            mkSessionBindingViolation (ev_id ev) (ev_session_id ev) (claim_session_id claim)
              :: violations)
  end.

(** ** Replay *)

Inductive ReplayVerdict :=
| FreshlyRecorded
| AlreadyConsumedBySameClaim
| ReplayedAcrossClaims (originally_consumed_by : Uuid)
| ReusedByRelatedClaim (originally_consumed_by : Uuid).
#[export] Instance ReplayVerdict_eq_dec : EqDecision ReplayVerdict.
Proof. solve_decision. Defined.

Definition ClaimAnchor : Type := string * Uuid.
Definition anchor_of (c : Claim) : ClaimAnchor := (claim_session_id c, claim_source_event_id c).

Definition classify_consumption_by_anchor (existing : option (Uuid * ClaimAnchor))
    (claim_id : Uuid) (anchor : ClaimAnchor) : ReplayVerdict :=
  match existing with
  | None => FreshlyRecorded
  | Some (owner, owner_anchor) =>
      if decide (owner = claim_id) then AlreadyConsumedBySameClaim
      else if decide (owner_anchor = anchor) then ReusedByRelatedClaim owner
      else ReplayedAcrossClaims owner
  end.

(** [EvidenceConsumptionLedger]: the claim that consumed each record. *)
Definition EvidenceConsumptionLedger : Type := gmap Uuid Uuid.
Definition record_and_check (l : EvidenceConsumptionLedger) (evidence_id claim_id : Uuid) :
    ReplayVerdict * EvidenceConsumptionLedger :=
  match l !! evidence_id with
  | Some existing =>
      if decide (existing = claim_id) then (AlreadyConsumedBySameClaim, l)
      else (ReplayedAcrossClaims existing, l)
  | None => (FreshlyRecorded, <[evidence_id := claim_id]> l)
  end.

(** ** The rows of a session *)

Inductive AdmissionRejection :=
| RejProvenance (reason : QuarantineReason)
| RejCrossSession (evidence_session_id : string)
| RejReplayedAcrossClaims (originally_consumed_by : Uuid).

Record EvidenceRejection := mkEvidenceRejection {
  rejected_id : Uuid;
  rejection_reason : AdmissionRejection;
}.
Record AdmissionOutcome := mkAdmissionOutcome {
  ao_admitted : list Evidence;
  ao_rejected : list EvidenceRejection;
}.
Record ClaimReplayScope := mkClaimReplayScope {
  scope_claim : Claim;
  consumed_by : gmap Uuid (Uuid * ClaimAnchor);
}.

(** Why the row is rejected, in the order of the loop; [None] admits it. *)
Definition row_rejection (session : string) (owner : SessionOwner)
    (authority : CollectorAuthority) (replay : option ClaimReplayScope)
    (x : Evidence * EvidenceOrigin) : option AdmissionRejection :=
  let '(ev, origin) := x in
  if decide (ev_session_id ev ≠ session) then Some (RejCrossSession (ev_session_id ev))
  else
    match admission_decision ev origin authority owner with
    | Quarantined reason => Some (RejProvenance reason)
    | Admitted_ =>
        scope ← replay;
        o ← consumed_by scope !! ev_id ev;
        match classify_consumption_by_anchor (Some o) (claim_id (scope_claim scope))
                (anchor_of (scope_claim scope)) with
        | ReplayedAcrossClaims originally => Some (RejReplayedAcrossClaims originally)
        | _ => None
        end
    end.

Fixpoint admit_loop (reject : Evidence * EvidenceOrigin → option AdmissionRejection)
    (rows : list (Evidence * EvidenceOrigin)) : AdmissionOutcome :=
  match rows with
  | [] => mkAdmissionOutcome [] []
  | x :: rows =>
      let rest := admit_loop reject rows in
      match reject x with
      | Some r =>
          mkAdmissionOutcome (ao_admitted rest)
            (mkEvidenceRejection (ev_id x.1) r :: ao_rejected rest)
      | None => mkAdmissionOutcome (x.1 :: ao_admitted rest) (ao_rejected rest)
      end
  end.

(** The scope is of another session: every row is rejected. *)
Definition scope_mismatch (session : string) (replay : option ClaimReplayScope) : bool :=
  match replay with
  | Some scope => bool_decide (claim_session_id (scope_claim scope) ≠ session)
  | None => false
  end.

Definition admit_evidence_rows (rows : list (Evidence * EvidenceOrigin)) (session : string)
    (owner : SessionOwner) (authority : CollectorAuthority) (replay : option ClaimReplayScope) :
    AdmissionOutcome :=
  if scope_mismatch session replay
  then admit_loop (λ x, Some (RejCrossSession (ev_session_id x.1))) rows
  else admit_loop (row_rejection session owner authority replay) rows.

(** ** Which rows are admitted *)

Lemma admit_loop_spec reject rows :
  ao_admitted (admit_loop reject rows) = fst <$> filter (λ x, reject x = None) rows ∧
  ao_rejected (admit_loop reject rows) =
    omap (λ x, mkEvidenceRejection (ev_id x.1) <$> reject x) rows.
Proof.
  induction rows as [|x rows [IHa IHr]]; [done|]. simpl. rewrite filter_cons.
  destruct (reject x) as [r|] eqn:E; csimpl; rewrite ?E; simpl; by rewrite IHa, IHr.
Qed.

(** What the admission of one row asks, as a condition on the stored origin,
    the registered collectors, the session's owner and the consumption so
    far. *)
Definition collector_vouches (authority : CollectorAuthority) (owner : SessionOwner)
    (source : EvidenceSource) : Prop :=
  is_authorized authority (sensor_name source) (trust_class source) = true ∧
  match owner with
  | OwnerUnknown => True
  | OwnerSingle p => src_provider source = None ∨ src_provider source = Some p
  | OwnerAmbiguous => False
  end.
Definition origin_vouches (authority : CollectorAuthority) (owner : SessionOwner)
    (origin : EvidenceOrigin) (ev : Evidence) : Prop :=
  match origin with
  | UnknownOrigin => False
  | DaemonAcquisition | PrivilegedExecutor => True
  | UdsIngest => ∃ source, ev_source ev = Some source ∧ collector_vouches authority owner source
  end.
Definition not_replayed (replay : option ClaimReplayScope) (ev : Evidence) : Prop :=
  match replay with
  | None => True
  | Some scope =>
      ∀ owner anchor, consumed_by scope !! ev_id ev = Some (owner, anchor) →
        owner = claim_id (scope_claim scope) ∨ anchor = anchor_of (scope_claim scope)
  end.

Lemma admission_decision_iff ev origin authority owner :
  admission_decision ev origin authority owner = Admitted_ ↔
  origin_vouches authority owner origin ev.
Proof.
  unfold admission_decision, origin_vouches, collector_vouches, authorize_evidence_source.
  destruct origin; try done.
  destruct (ev_source ev) as [source|]; [|by split; [|intros (? & ? & _)]].
  transitivity (is_authorized authority (sensor_name source) (trust_class source) = true ∧
    match owner with
    | OwnerUnknown => True
    | OwnerSingle p => src_provider source = None ∨ src_provider source = Some p
    | OwnerAmbiguous => False
    end).
  2:{ split; [by exists source|]. by intros (? & [= <-] & ?). }
  destruct (is_authorized _ _ _); 
    [|destruct (is_registered _ _); (split; [done|by intros [? _]])].
  destruct owner as [|p|], (src_provider source) as [q|]; try case_decide as Hq; split; try done;
    try (by intros [_ ?]).
  - intros _. split; [done|]. right. by rewrite Hq.
  - intros [_ [?|[= ?]]]; [done|]. by destruct Hq.
  - intros _. split; [done|]. by left.
Qed.
Lemma replay_rejection_iff replay ev :
  (scope ← replay;
   o ← consumed_by scope !! ev_id ev;
   match classify_consumption_by_anchor (Some o) (claim_id (scope_claim scope))
           (anchor_of (scope_claim scope)) with
   | ReplayedAcrossClaims originally => Some (RejReplayedAcrossClaims originally)
   | _ => None
   end) = None ↔ not_replayed replay ev.
Proof.
  destruct replay as [scope|]; [|done]. simpl.
  destruct (consumed_by scope !! ev_id ev) as [[owner anchor]|] eqn:E; simpl; [|naive_solver].
  repeat case_decide; naive_solver.
Qed.

Lemma row_admitted_iff session owner authority replay ev origin :
  row_rejection session owner authority replay (ev, origin) = None ↔
  ev_session_id ev = session ∧ origin_vouches authority owner origin ev ∧ not_replayed replay ev.
Proof.
  unfold row_rejection. case_decide as Hs; [by split; [|intros [? _]]|].
  rewrite <-admission_decision_iff, <-replay_rejection_iff.
  destruct (admission_decision _ _ _ _); [tauto|]. by split; [|intros (_ & ? & _)].
Qed.
