(* ===== verification/Consumption.v ===== *)
(** * Consumption of evidence and the live verdict path

    [fornax-store/src/evidence_consumption.rs]: the origin of stored evidence,
    the owner of a session and the table of which claim consumed which
    record; [fornax-store/src/admitted_evidence.rs]: the admitted evidence of
    a session or a claim; and of [fornax-daemon/src/main.rs] the function that
    runs the verifiers on it and persists their findings. The verifiers are
    behind a trait and are arguments, as is the list of announced
    capabilities. *)

From S2P Require Import Prelude.
From S2P Require Import Types.
From S2P Require Import Text.
From S2P Require Import Projection.
From S2P Require Import AuditLedger.
From S2P Require Import EventStore.
From S2P Require Import EventRead.
From S2P Require Import Admission.

Local Open Scope fornax_scope.

(** ** The table *)

(** The text of a reason is kept as the rejection it words. *)
Record ConsumptionRow := mkConsumptionRow {
  cn_id : string;
  cn_evidence_id : string;
  cn_claim_id : string;
  cn_session_id : string;
  cn_anchor_event_id : string;
  cn_verifier_name : option string;
  cn_outcome : string;
  cn_reason : option AdmissionRejection;
  cn_recorded_at : string;
}.

(** The rows are in the order they were inserted. *)
Record AdmissionDb := mkAdmissionDb {
  ad_store : EventDb;
  ad_consumption : list ConsumptionRow;
}.

Definition origin_from_column (raw : option string) : EvidenceOrigin :=
  match raw with
  | Some s =>
      if decide (s = "uds_ingest") then UdsIngest
      else if decide (s = "daemon_acquisition") then DaemonAcquisition
      else if decide (s = "privileged_executor") then PrivilegedExecutor
      else UnknownOrigin
  | None => UnknownOrigin
  end.

(** A transaction on these tables. *)
Definition in_atx {A} (sql : Sqlite) (db : AdmissionDb) (body : result StoreError (A * AdmissionDb)) :
    result StoreError A * AdmissionDb :=
  match sql with
  | StatementFails => (Err StoreDb, db)
  | _ =>
      match body with
      | Err e => (Err e, db)
      | Ok (a, db') => match sql with Commits => (Ok a, db') | _ => (Err StoreDb, db) end
      end
  end.

(** ** Owners *)

Definition provider_debug (p : Provider) : string :=
  match p with
  | ClaudeCode => "ClaudeCode" | Codex => "Codex" | OpenCode => "OpenCode"
  | ProviderUnknown => "Unknown"
  end.
(** [session_owner], on the answer of [capabilities_for_session]. *)
Definition session_owner (caps : list RuntimeCapabilities) : SessionOwner :=
  match dedup (sort_by_key provider_debug (rc_provider <$> caps)) with
  | [] => OwnerUnknown
  | [p] => OwnerSingle p
  | _ => OwnerAmbiguous
  end.

Section consumption.
Context `{EventJson, UuidOps, TableScan}.

Definition evidence_origin (evidence_id : Uuid) (db : AdmissionDb) : EvidenceOrigin :=
  origin_from_column
    (t_evidence (ad_store db) !! uuid_to_string evidence_id ≫= vrow_ingress_origin).

(** ** Recording *)

Definition uuid_or_corrupt (s : string) : result StoreError Uuid :=
  match uuid_parse_str s with
  | Some u => Ok u
  | None => Err (EvidenceConsumptionCorrupt s)
  end.
Definition owner_of_row (r : ConsumptionRow) : result StoreError (Uuid * ClaimAnchor) :=
  let? owner := uuid_or_corrupt (cn_claim_id r) in
  let? event := uuid_or_corrupt (cn_anchor_event_id r) in
  Ok (owner, (cn_session_id r, event)).

(** The earliest row that consumed the evidence. *)
Definition consumed_row (evidence_id : string) (db : AdmissionDb) : option ConsumptionRow :=
  head (sort_by_key cn_recorded_at
    (filter (λ r, cn_evidence_id r = evidence_id ∧ cn_outcome r = "consumed")
       (ad_consumption db))).

(** [INSERT .. ON CONFLICT (evidence_id, claim_id) DO NOTHING]: whether a row
    was inserted. Its identifier is a new [Uuid::new_v4] and taken as unused. *)
Definition insert_consumption (row : ConsumptionRow) (db : AdmissionDb) : bool * AdmissionDb :=
  if decide (Exists (λ r, cn_evidence_id r = cn_evidence_id row ∧
                          cn_claim_id r = cn_claim_id row) (ad_consumption db))
  then (false, db)
  else (true, mkAdmissionDb (ad_store db) (ad_consumption db ++ [row])).
Definition tag_consumption (id session recorded_at : string) (db : AdmissionDb) : AdmissionDb :=
  mkAdmissionDb (tag_record "evidence_consumption" id session recorded_at (ad_store db))
    (ad_consumption db).

Definition consumption_row (id : string) (evidence_id claim_id : Uuid) (anchor : ClaimAnchor)
    (verifier_name : option string) (outcome : string) (reason : option AdmissionRejection)
    (recorded_at : string) : ConsumptionRow :=
  mkConsumptionRow id (uuid_to_string evidence_id) (uuid_to_string claim_id) anchor.1
    (uuid_to_string anchor.2) verifier_name outcome reason recorded_at.

(** The tag is written whether or not the row was; the clock is read for the
    row and for the tag, here once. *)
Definition record_consumption_body (evidence_id claim_id : Uuid) (anchor : ClaimAnchor)
    (verifier_name : option string) (id recorded_at : string) (db : AdmissionDb) :
    result StoreError (ReplayVerdict * AdmissionDb) :=
  let? existing :=
    match consumed_row (uuid_to_string evidence_id) db with
    | None => Ok None
    | Some r => let? o := owner_of_row r in Ok (Some o)
    end in
  match classify_consumption_by_anchor existing claim_id anchor with
  | FreshlyRecorded =>
      let row :=
        consumption_row id evidence_id claim_id anchor verifier_name "consumed" None recorded_at in
      Ok (FreshlyRecorded, tag_consumption id anchor.1 recorded_at (insert_consumption row db).2)
  | verdict => Ok (verdict, db)
  end.
Definition record_consumption (sql : Sqlite) (evidence_id claim_id : Uuid) (anchor : ClaimAnchor)
    (verifier_name : option string) (id recorded_at : string) (db : AdmissionDb) :
    result StoreError ReplayVerdict * AdmissionDb :=
  in_atx sql db
    (record_consumption_body evidence_id claim_id anchor verifier_name id recorded_at db).

Definition record_admission_quarantine (sql : Sqlite) (evidence_id claim_id : Uuid)
    (anchor : ClaimAnchor) (reason : AdmissionRejection) (id recorded_at : string)
    (db : AdmissionDb) : result StoreError unit * AdmissionDb :=
  in_atx sql db
    (let '(inserted, db) :=
       insert_consumption
         (consumption_row id evidence_id claim_id anchor None "quarantined" (Some reason)
            recorded_at) db in
     Ok (tt, if inserted : bool then tag_consumption id anchor.1 recorded_at db else db)).

(** [DELETE FROM evidence_consumption WHERE id = ?1], of the sweep and of the
    erasure of a tenant. *)
Definition delete_consumption (id : string) (db : AdmissionDb) : AdmissionDb :=
  mkAdmissionDb (ad_store db) (filter (λ r, cn_id r ≠ id) (ad_consumption db)).

(** ** Admitted evidence *)

Fixpoint rows_with_origin (rows : list (string * EvidenceRow)) :
    list (Evidence * EvidenceOrigin) * list (string * StoreError) :=
  match rows with
  | [] => ([], [])
  | (id, r) :: rows =>
      let '(evidence, failed) := rows_with_origin rows in
      match evidence_of_row id r with
      | Ok ev => ((ev, origin_from_column (vrow_ingress_origin r)) :: evidence, failed)
      | Err e => (evidence, (id, e) :: failed)
      end
  end.
Definition evidence_rows_with_origin (session : string) (db : AdmissionDb) :
    list (Evidence * EvidenceOrigin) * list (string * StoreError) :=
  rows_with_origin
    (select_asc (λ r, bool_decide (vrow_session_id r = session)) vrow_observed_at
       (t_evidence (ad_store db))).

Record AdmittedEvidenceRead := mkAdmittedEvidenceRead {
  ar_admitted : list Evidence;
  ar_rejected : list EvidenceRejection;
  ar_failed : list (string * StoreError);
}.

Definition admitted_evidence_for_session (session : string)
    (caps : result StoreError (list RuntimeCapabilities)) (db : AdmissionDb) :
    result StoreError AdmittedEvidenceRead :=
  let '(rows, failed) := evidence_rows_with_origin session db in
  let? caps := caps in
  let outcome := admit_evidence_rows rows session (session_owner caps) known_sensors None in
  Ok (mkAdmittedEvidenceRead (ao_admitted outcome) (ao_rejected outcome) failed).

(** The first consumed row of each record, of the records of a session. *)
Fixpoint owners_loop (rows : list ConsumptionRow)
    (owners : gmap Uuid (Uuid * ClaimAnchor)) :
    result StoreError (gmap Uuid (Uuid * ClaimAnchor)) :=
  match rows with
  | [] => Ok owners
  | r :: rows =>
      let? evidence_id := uuid_or_corrupt (cn_evidence_id r) in
      match owners !! evidence_id with
      | Some _ => owners_loop rows owners
      | None =>
          let? o := owner_of_row r in
          owners_loop rows (<[evidence_id := o]> owners)
      end
  end.
Definition consumed_owners_for_session (session : string) (db : AdmissionDb) :
    result StoreError (gmap Uuid (Uuid * ClaimAnchor)) :=
  owners_loop
    (sort_by_key cn_recorded_at
       (filter (λ r, cn_outcome r = "consumed" ∧
                     vrow_session_id <$> t_evidence (ad_store db) !! cn_evidence_id r
                       = Some session) (ad_consumption db))) ∅.

Definition admitted_evidence_for_claim (claim : Claim)
    (caps : result StoreError (list RuntimeCapabilities)) (db : AdmissionDb) :
    result StoreError AdmittedEvidenceRead :=
  let session := claim_session_id claim in
  let '(rows, failed) := evidence_rows_with_origin session db in
  let? caps := caps in
  let? owners := consumed_owners_for_session session db in
  let outcome :=
    admit_evidence_rows rows session (session_owner caps) known_sensors
      (Some (mkClaimReplayScope claim owners)) in
  Ok (mkAdmittedEvidenceRead (ao_admitted outcome) (ao_rejected outcome) failed).

Definition admission_quarantine_for_session (session : string) (db : AdmissionDb) :
    result StoreError (list Uuid) :=
  collect_results (uuid_or_corrupt <$>
    remove_dups (cn_evidence_id <$>
      filter (λ r, cn_outcome r = "quarantined" ∧
                   vrow_session_id <$> t_evidence (ad_store db) !! cn_evidence_id r
                     = Some session) (ad_consumption db))).

(** ** The live verdict path *)

(** The [Verifier] trait. *)
Record Verifier := mkVerifier {
  v_name : string;
  applies_to : Claim → bool;
  verify : Claim → list Evidence → RuntimeCapabilities → Finding;
}.

(** The answers of the database, the clock and the uuid generator to the
    statements of one call: the quarantines by position, the consumptions by
    verifier and position, the findings by verifier. *)
Record VerdictWorld := mkVerdictWorld {
  vw_quarantine : nat → Sqlite * string * string;
  vw_consume : nat → nat → Sqlite * string * string;
  vw_finding : nat → Sqlite * string;
}.

(** A failed quarantine is only logged. *)
Fixpoint quarantine_loop (w : VerdictWorld) (claim : Claim) (i : nat)
    (rejected : list EvidenceRejection) (db : AdmissionDb) : AdmissionDb :=
  match rejected with
  | [] => db
  | r :: rejected =>
      let '(sql, id, at_) := vw_quarantine w i in
      quarantine_loop w claim (S i) rejected
        (record_admission_quarantine sql (rejected_id r) (claim_id claim) (anchor_of claim)
           (rejection_reason r) id at_ db).2
  end.

Definition with_verdict (f : Finding) (v : Verdict) : Finding :=
  mkFinding (finding_id f) (finding_claim_id f) v (finding_evidence_ids f) (verifier_name f)
    (finding_rationale f) (finding_computed_at f).
Definition with_rationale (f : Finding) (r : string) : Finding :=
  mkFinding (finding_id f) (finding_claim_id f) (finding_verdict f) (finding_evidence_ids f)
    (verifier_name f) r (finding_computed_at f).

(** A definite verdict on evidence that may be incomplete becomes a review. *)
Definition downgrade_incomplete (evidence_may_be_incomplete : bool) (f : Finding) : Finding :=
  if evidence_may_be_incomplete &&
     bool_decide (finding_verdict f = Verified ∨ finding_verdict f = Contradicted)
  then
    with_verdict
      (with_rationale f (finding_rationale f +:+
         " -- downgraded from a definite verdict: a connection for this session was still mid-handoff when this claim was evaluated, so currently-visible evidence may not yet be complete (HORO-1712)"))
      Review
  else f.

Definition replay_note (evidence_id owner : Uuid) : string :=
  " -- downgraded: evidence " +:+ uuid_to_string evidence_id +:+ " was already consumed by claim "
  +:+ uuid_to_string owner +:+ " from a different turn (FORNX-431 replay guard)".

(** The cited records are consumed; a failed statement is only logged. *)
Fixpoint consume_loop (w : VerdictWorld) (claim : Claim) (name : string) (i j : nat)
    (ids : list Uuid) (replayed : bool) (rationale : string) (db : AdmissionDb) :
    bool * string * AdmissionDb :=
  match ids with
  | [] => (replayed, rationale, db)
  | e :: ids =>
      let '(sql, id, at_) := vw_consume w i j in
      let '(r, db) :=
        record_consumption sql e (claim_id claim) (anchor_of claim) (Some name) id at_ db in
      match r with
      | Ok (ReplayedAcrossClaims owner) =>
          consume_loop w claim name i (S j) ids true (rationale +:+ replay_note e owner) db
      | _ => consume_loop w claim name i (S j) ids replayed rationale db
      end
  end.

Definition guard_replay (w : VerdictWorld) (claim : Claim) (name : string) (i : nat) (f : Finding)
    (db : AdmissionDb) : Finding * AdmissionDb :=
  if decide (finding_verdict f = Verified) then
    let '(replayed, rationale, db) :=
      consume_loop w claim name i 0 (finding_evidence_ids f) false (finding_rationale f) db in
    let f := with_rationale f rationale in
    (if replayed : bool then with_verdict f Review else f, db)
  else (f, db).

Fixpoint verifier_loop (w : VerdictWorld) (claim : Claim) (caps : RuntimeCapabilities)
    (evidence_may_be_incomplete : bool) (admitted : list Evidence) (i : nat)
    (verifiers : list Verifier) (db : AdmissionDb) : result StoreError unit * AdmissionDb :=
  match verifiers with
  | [] => (Ok tt, db)
  | v :: verifiers =>
      let f := downgrade_incomplete evidence_may_be_incomplete (verify v claim admitted caps) in
      let '(f, db) := guard_replay w claim (v_name v) i f db in
      let '(sql, at_) := vw_finding w i in
      let '(r, store) := insert_finding sql f at_ (ad_store db) in
      let db := mkAdmissionDb store (ad_consumption db) in
      match r with
      | Err e => (Err e, db)
      | Ok _ =>
          verifier_loop w claim caps evidence_may_be_incomplete admitted (S i) verifiers db
      end
  end.

Definition run_verifiers_and_persist_findings (w : VerdictWorld) (verifiers : list Verifier)
    (evidence_may_be_incomplete : bool) (claim : Claim) (caps : RuntimeCapabilities)
    (announced : result StoreError (list RuntimeCapabilities)) (db : AdmissionDb) :
    result StoreError unit * AdmissionDb :=
  match admitted_evidence_for_session (claim_session_id claim) announced db with
  | Err e => (Err e, db)
  | Ok read =>
      let db := quarantine_loop w claim 0 (ar_rejected read) db in
      verifier_loop w claim caps evidence_may_be_incomplete (ar_admitted read) 0
        (filter (λ v, applies_to v claim = true) verifiers) db
  end.
End consumption.
