(* ===== verification/AdmissionSpec.v ===== *)
(** * What admission and consumption guarantee

    The admitted evidence of a claim is exactly what its stored origin, the
    registered collectors, the session's owner and the earlier consumption
    vouch for; evidence one turn consumed is refused to another; and a
    verified finding that the live path persists rests on such evidence. *)

From S2P Require Import Prelude.
From S2P Require Import Types.
From S2P Require Import Text.
From S2P Require Import Projection.
From S2P Require Import AuditLedger.
From S2P Require Import EventStore.
From S2P Require Import EventRead.
From S2P Require Import Retention.
From S2P Require Import RetentionInv.
From S2P Require Import Admission.
From S2P Require Import Consumption.

Local Open Scope fornax_scope.

(** [uuid]: what it prints is read back. *)
Class UuidParseOk `{EventJson, UuidOps} : Prop :=
  uuid_parse_to_string : ∀ u, uuid_parse_str (uuid_to_string u) = Some u.

Section admission.
Context `{EventJson, UuidOps, TableScan, !TableScanOk}.
Implicit Types (db : AdmissionDb).

(** ** Reading *)

(** A stored record of a session that reads back as [ev] with its origin. *)
Definition stored_as (session : string) db (ev : Evidence) (origin : EvidenceOrigin) : Prop :=
  ∃ id row, t_evidence (ad_store db) !! id = Some row ∧ vrow_session_id row = session ∧
    evidence_of_row id row = Ok ev ∧ origin_from_column (vrow_ingress_origin row) = origin.

Lemma rows_with_origin_spec rows evidence failed :
  rows_with_origin rows = (evidence, failed) →
  (∀ ev origin, (ev, origin) ∈ evidence ↔
     ∃ id row, (id, row) ∈ rows ∧ evidence_of_row id row = Ok ev ∧
               origin_from_column (vrow_ingress_origin row) = origin) ∧
  length evidence + length failed = length rows.
Proof.
  revert evidence failed. induction rows as [|[id row] rows IH]; intros evidence failed; simpl.
  { intros [= <- <-]. split; [|done]. intros ev origin. split; [by intros ?%elem_of_nil|].
    by intros (? & ? & ?%elem_of_nil & _). }
  destruct (rows_with_origin rows) as [evs fs] eqn:E. destruct (IH evs fs eq_refl) as [Hel Hlen].
  destruct (evidence_of_row id row) as [ev0|e] eqn:Er; intros [= <- <-]; simpl;
    (split; [|lia]); intros ev origin.
  - rewrite elem_of_cons, Hel. split.
    + intros [[= -> ->]|(i & r & Hin & ?)]; [|by exists i, r; split; [right|]].
      exists id, row. by split; [left|].
    + intros (i & r & [[= -> ->]|Hin]%elem_of_cons & Hev & Ho); [left; congruence|right; eauto].
  - rewrite Hel. split.
    + intros (i & r & Hin & ?). exists i, r. by split; [right|].
    + intros (i & r & [[= -> ->]|Hin]%elem_of_cons & Hev & Ho); [congruence|eauto].
Qed.

Lemma evidence_rows_spec session db evidence failed :
  evidence_rows_with_origin session db = (evidence, failed) →
  (∀ ev origin, (ev, origin) ∈ evidence ↔ stored_as session db ev origin).
Proof.
  intros [Hel _]%rows_with_origin_spec. intros ev origin. rewrite Hel. unfold stored_as.
  split; intros (id & row & Hin & Hrest); exists id, row.
  - rewrite select_asc_rows, list_elem_of_filter, elem_of_map_to_list in Hin.
    destruct Hin as [Hs%bool_decide_eq_true ?]. tauto.
  - rewrite select_asc_rows, list_elem_of_filter, elem_of_map_to_list, bool_decide_eq_true. tauto.
Qed.

Lemma stored_session session db ev origin : stored_as session db ev origin → ev_session_id ev = session.
Proof.
  intros (id & row & _ & <- & Hev & _). revert Hev. unfold evidence_of_row.
  destruct (evidence_kind_of_tag _); [|done]. destruct (value_from_str _); [|done].
  destruct (from_str_opt source_from_json _); [|done].
  destruct (from_str_opt extension_from_json _); [|done]. by intros [= <-].
Qed.

(** The reasons to reject and the rows admitted, of one outcome. *)
Lemma admit_outcome rows session owner replay :
  scope_mismatch session replay = false →
  let outcome := admit_evidence_rows rows session owner known_sensors replay in
  (∀ ev, ev ∈ ao_admitted outcome ↔
     ∃ origin, (ev, origin) ∈ rows ∧ ev_session_id ev = session ∧
       origin_vouches known_sensors owner origin ev ∧ not_replayed replay ev) ∧
  (∀ r, r ∈ ao_rejected outcome ↔
     ∃ ev origin, (ev, origin) ∈ rows ∧ rejected_id r = ev_id ev ∧
       row_rejection session owner known_sensors replay (ev, origin) = Some (rejection_reason r)).
Proof.
  intros Hm outcome. unfold outcome, admit_evidence_rows. rewrite Hm.
  destruct (admit_loop_spec (row_rejection session owner known_sensors replay) rows) as [-> ->].
  split.
  - intros ev. rewrite list_elem_of_fmap. split.
    + intros ([ev' origin] & -> & [Hn Hin]%list_elem_of_filter).
      apply row_admitted_iff in Hn. exists origin. tauto.
    + intros (origin & Hin & Hn). exists (ev, origin). split; [done|].
      rewrite list_elem_of_filter. split; [|done]. by apply row_admitted_iff.
  - intros [rid reason]. rewrite list_elem_of_omap. split.
    + intros ([ev origin] & Hin & (r & Hr & Heq)%fmap_Some). injection Heq as -> ->.
      exists ev, origin. done.
    + intros (ev & origin & Hin & Hid & Hr). exists (ev, origin). split; [done|].
      apply fmap_Some. exists reason. cbn [rejected_id rejection_reason] in *. by subst.
Qed.

Lemma admission_exact claim caps db read :
  admitted_evidence_for_claim claim caps db = Ok read →
  ∃ announced owners, caps = Ok announced ∧
    consumed_owners_for_session (claim_session_id claim) db = Ok owners ∧
    let scope := Some (mkClaimReplayScope claim owners) in
    let owner := session_owner announced in
    (∀ ev, ev ∈ ar_admitted read ↔
       ∃ origin, stored_as (claim_session_id claim) db ev origin ∧
         origin_vouches known_sensors owner origin ev ∧ not_replayed scope ev) ∧
    (∀ r, r ∈ ar_rejected read ↔
       ∃ ev origin, stored_as (claim_session_id claim) db ev origin ∧ rejected_id r = ev_id ev ∧
         row_rejection (claim_session_id claim) owner known_sensors scope (ev, origin)
           = Some (rejection_reason r)).
Proof.
  unfold admitted_evidence_for_claim.
  destruct (evidence_rows_with_origin _ db) as [rows failed] eqn:Er.
  destruct caps as [announced|]; simpl; [|done].
  destruct (consumed_owners_for_session _ db) as [owners|]; simpl; [|done]. intros [= <-].
  exists announced, owners. split; [done|]. split; [done|].
  set (scope := Some (mkClaimReplayScope claim owners)). set (owner := session_owner announced).
  pose proof (evidence_rows_spec _ _ _ _ Er) as Hrows. simpl.
  destruct (admit_outcome rows (claim_session_id claim) owner scope) as [Ha Hrej].
  { simpl. by rewrite bool_decide_eq_false_2 by auto. }
  split.
  - intros ev. rewrite Ha. setoid_rewrite Hrows. split; [naive_solver|].
    intros (origin & Hst & ?). exists origin. split; [done|]. split; [|done].
    by eapply stored_session.
  - intros r. rewrite Hrej. by setoid_rewrite Hrows.
Qed.

(** The evidence admitted for a claim is exact: of the records stored for
    the claim's session, those that read back are admitted exactly when the
    origin the receiving process stamped on them vouches for them (a sensor's
    record only when the sensor is registered for the trust class it asserts
    and its provider is the session's owner, and a record without a known
    origin never) and no other claim of another turn has consumed them; each
    of the others is rejected with the reason, under its own identifier. *)
Theorem admission_is_exact claim caps db read :
  admitted_evidence_for_claim claim caps db = Ok read →
  ∃ announced owners, caps = Ok announced ∧
    consumed_owners_for_session (claim_session_id claim) db = Ok owners ∧
    let scope := Some (mkClaimReplayScope claim owners) in
    let owner := session_owner announced in
    (∀ ev, ev ∈ ar_admitted read ↔
       ∃ origin, stored_as (claim_session_id claim) db ev origin ∧
         origin_vouches known_sensors owner origin ev ∧ not_replayed scope ev) ∧
    (∀ r, r ∈ ar_rejected read ↔
       ∃ ev origin, stored_as (claim_session_id claim) db ev origin ∧ rejected_id r = ev_id ev ∧
         row_rejection (claim_session_id claim) owner known_sensors scope (ev, origin)
           = Some (rejection_reason r)).
Proof. apply admission_exact. Qed.

(** ** Consumption *)

Context `{!UuidParseOk}.

Definition consumes (e : Uuid) (r : ConsumptionRow) : Prop :=
  cn_evidence_id r = uuid_to_string e ∧ cn_outcome r = "consumed".

(** The rows hold printed identifiers, and a record has one consumer. *)
Record consumption_ok db : Prop := mkConsumptionOk {
  co_printed r : r ∈ ad_consumption db →
    ∃ e c a, cn_evidence_id r = uuid_to_string e ∧ cn_claim_id r = uuid_to_string c ∧
             cn_anchor_event_id r = uuid_to_string a;
  co_single e r r' : r ∈ ad_consumption db → r' ∈ ad_consumption db →
    consumes e r → consumes e r' → r = r';
}.

(** The record was consumed by the claim, on that turn. *)
Definition owned db (e c : Uuid) (anchor : ClaimAnchor) : Prop :=
  ∃ r, r ∈ ad_consumption db ∧ consumes e r ∧ cn_claim_id r = uuid_to_string c ∧
       cn_session_id r = anchor.1 ∧ cn_anchor_event_id r = uuid_to_string anchor.2.

#[local] Instance uuid_to_string_inj : Inj (=) (=) uuid_to_string.
Proof.
  intros x y Heq. apply (inj Some). by rewrite <-!uuid_parse_to_string, Heq.
Qed.

Lemma owner_of_owned r c anchor :
  cn_claim_id r = uuid_to_string c → cn_session_id r = anchor.1 →
  cn_anchor_event_id r = uuid_to_string anchor.2 → owner_of_row r = Ok (c, anchor).
Proof.
  unfold owner_of_row, uuid_or_corrupt. intros -> -> ->. rewrite !uuid_parse_to_string. simpl.
  by destruct anchor.
Qed.

Lemma consumed_row_in db e r :
  consumed_row (uuid_to_string e) db = Some r → r ∈ ad_consumption db ∧ consumes e r.
Proof.
  unfold consumed_row. intros Hh%head_Some_elem_of.
  rewrite elem_of_sort_by_key, list_elem_of_filter in Hh. unfold consumes. tauto.
Qed.
Lemma consumed_row_none db e r :
  consumed_row (uuid_to_string e) db = None → r ∈ ad_consumption db → ¬ consumes e r.
Proof.
  unfold consumed_row. intros Hh Hr Hc. apply head_None in Hh.
  assert (r ∈ sort_by_key cn_recorded_at (filter (λ r, cn_evidence_id r = uuid_to_string e ∧
    cn_outcome r = "consumed") (ad_consumption db))) as Hin.
  { by rewrite elem_of_sort_by_key, list_elem_of_filter. }
  rewrite Hh in Hin. by apply elem_of_nil in Hin.
Qed.
Lemma consumed_row_owned db e c anchor :
  consumption_ok db → owned db e c anchor →
  ∃ r, consumed_row (uuid_to_string e) db = Some r ∧ owner_of_row r = Ok (c, anchor).
Proof.
  intros Hok (r & Hr & Hcon & Hc & Hs & Ha).
  destruct (consumed_row (uuid_to_string e) db) as [r'|] eqn:E.
  - apply consumed_row_in in E as [Hr' Hcon']. rewrite (co_single _ Hok e r' r) by done.
    exists r. split; [done|]. by apply owner_of_owned.
  - by apply (consumed_row_none db e r) in E.
Qed.
(** Whatever consumed the record can be read as an owner. *)
Lemma consumed_row_reads db e r :
  consumption_ok db → consumed_row (uuid_to_string e) db = Some r →
  ∃ c anchor, owner_of_row r = Ok (c, anchor) ∧ owned db e c anchor.
Proof.
  intros Hok [Hr Hcon]%consumed_row_in.
  destruct (co_printed _ Hok r Hr) as (e' & c & a & _ & Hc & Ha).
  exists c, (cn_session_id r, a). split; [by apply owner_of_owned|]. by exists r.
Qed.

(** What [record_consumption] answers, on a table in order. *)
Lemma record_body_owned db e c anchor c' anchor' v id at_ :
  consumption_ok db → owned db e c anchor →
  record_consumption_body e c' anchor' v id at_ db =
    Ok (classify_consumption_by_anchor (Some (c, anchor)) c' anchor', db).
Proof.
  intros Hok Hown. destruct (consumed_row_owned _ _ _ _ Hok Hown) as (r & Hr & Ho).
  unfold record_consumption_body. rewrite Hr, Ho. simpl. by repeat case_decide.
Qed.
Lemma record_body_cases db e c' anchor' v id at_ :
  consumption_ok db →
  (∃ c anchor, owned db e c anchor) ∨
  (∀ r, r ∈ ad_consumption db → ¬ consumes e r) ∧
  record_consumption_body e c' anchor' v id at_ db =
    Ok (FreshlyRecorded, tag_consumption id anchor'.1 at_
      (insert_consumption (consumption_row id e c' anchor' v "consumed" None at_) db).2).
Proof.
  intros Hok. unfold record_consumption_body.
  destruct (consumed_row (uuid_to_string e) db) as [r|] eqn:E.
  - left. destruct (consumed_row_reads _ _ _ Hok E) as (c & a & _ & ?). by exists c, a.
  - right. split; [|done]. intros r. by apply consumed_row_none.
Qed.

(** ** Operations *)

Inductive AdmissionOp :=
| OpConsume (sql : Sqlite) (e c : Uuid) (anchor : ClaimAnchor) (v : option string)
    (id at_ : string)
| OpQuarantine (sql : Sqlite) (e c : Uuid) (anchor : ClaimAnchor) (reason : AdmissionRejection)
    (id at_ : string)
(** the sweep or an erasure reaches a row *)
| OpDelete (id : string)
(** any operation of the event store *)
| OpEvents (f : EventDb → EventDb).

Definition run_admission_op db (op : AdmissionOp) : AdmissionDb :=
  match op with
  | OpConsume sql e c anchor v id at_ => (record_consumption sql e c anchor v id at_ db).2
  | OpQuarantine sql e c anchor reason id at_ =>
      (record_admission_quarantine sql e c anchor reason id at_ db).2
  | OpDelete id => delete_consumption id db
  | OpEvents f => mkAdmissionDb (f (ad_store db)) (ad_consumption db)
  end.

(** A step: rows are only added, and the table stays in order. *)
Record grows db db' : Prop := mkGrows {
  gr_rows r : r ∈ ad_consumption db → r ∈ ad_consumption db';
  gr_ok : consumption_ok db → consumption_ok db';
}.
#[local] Instance grows_preorder : PreOrder grows.
Proof.
  split; [by intros db|]. intros db1 db2 db3 [] []. split; eauto.
Qed.
Lemma owned_grows db db' e c anchor : grows db db' → owned db e c anchor → owned db' e c anchor.
Proof. intros [Hr _] (r & Hin & ?). exists r. eauto. Qed.

Lemma insert_consumption_grows row db e c a :
  cn_evidence_id row = uuid_to_string e → cn_claim_id row = uuid_to_string c →
  cn_anchor_event_id row = uuid_to_string a →
  (cn_outcome row = "consumed" → ∀ r, r ∈ ad_consumption db → ¬ consumes e r) →
  grows db (insert_consumption row db).2.
Proof.
  intros He Hc Ha Hnew. unfold insert_consumption. case_decide as Hx; [reflexivity|]. simpl. split.
  - intros r Hr. simpl. apply elem_of_app. by left.
  - intros [Hp Hs]. split; simpl.
    + intros r [Hr|Hr%list_elem_of_singleton]%elem_of_app; [by apply Hp|]. subst. by exists e, c, a.
    + assert (∀ e' r, r ∈ ad_consumption db → consumes e' r → ¬ consumes e' row) as Hno.
      { intros e' r Hr Hcon [He' Ho]. rewrite He in He'. apply (inj uuid_to_string) in He' as <-.
        by apply (Hnew Ho r). }
      intros e' r r' [Hr|Hr%list_elem_of_singleton]%elem_of_app
        [Hr'|Hr'%list_elem_of_singleton]%elem_of_app Hcr Hcr'; subst.
      * by apply (Hs e').
      * by destruct (Hno e' r).
      * by destruct (Hno e' r').
      * done.
Qed.
Lemma tag_consumption_grows id session at_ db : grows db (tag_consumption id session at_ db).
Proof. split; [done|]. by intros [? ?]. Qed.

Lemma record_body_grows db e c anchor v id at_ res db' :
  consumption_ok db → record_consumption_body e c anchor v id at_ db = Ok (res, db') →
  grows db db'.
Proof.
  intros Hok. destruct (record_body_cases db e c anchor v id at_ Hok) as [(c' & a' & Hown)|[Hno ->]].
  - rewrite (record_body_owned _ _ _ _ _ _ _ _ _ Hok Hown). by intros [= _ <-].
  - intros [= <- <-]. etrans; [|apply tag_consumption_grows].
    by apply (insert_consumption_grows _ _ e c anchor.2).
Qed.
Lemma in_atx_grows {A} sql db (body : result StoreError (A * AdmissionDb)) :
  (∀ a db', body = Ok (a, db') → grows db db') → grows db (in_atx sql db body).2.
Proof.
  intros Hb. unfold in_atx. destruct sql, body as [[a db']|]; simpl; try reflexivity.
  by eapply Hb.
Qed.
Lemma quarantine_grows sql e c anchor reason id at_ db :
  grows db (record_admission_quarantine sql e c anchor reason id at_ db).2.
Proof.
  apply in_atx_grows. intros a db'.
  set (row := consumption_row id e c anchor None "quarantined" (Some reason) at_).
  pose proof (insert_consumption_grows row db e c anchor.2 eq_refl eq_refl eq_refl) as Hg.
  destruct (insert_consumption row db) as [ins db1]. simpl in *. intros [= <- <-].
  etrans; [by apply Hg|]. destruct ins; [apply tag_consumption_grows|reflexivity].
Qed.

(** Operations keep the table in order, and a row that none of them deletes. *)
Definition spares (row : ConsumptionRow) (op : AdmissionOp) : Prop :=
  match op with OpDelete id => cn_id row ≠ id | _ => True end.
Lemma delete_consumption_ok id db : consumption_ok db → consumption_ok (delete_consumption id db).
Proof.
  intros [Hp Hs]. split; simpl.
  - intros r [_ Hr]%list_elem_of_filter. by apply Hp.
  - intros e r r' [_ Hr]%list_elem_of_filter [_ Hr']%list_elem_of_filter. by apply Hs.
Qed.
Lemma run_admission_op_keeps db op :
  consumption_ok db → consumption_ok (run_admission_op db op) ∧
  ∀ row, spares row op → row ∈ ad_consumption db → row ∈ ad_consumption (run_admission_op db op).
Proof.
  intros Hok.
  assert (∀ db', grows db db' → consumption_ok db' ∧
    ∀ row, spares row op → row ∈ ad_consumption db → row ∈ ad_consumption db') as Hgrow.
  { intros db' [Hr Ho]. split; [by apply Ho|]. intros row _. apply Hr. }
  destruct op; cbn [run_admission_op].
  - apply Hgrow, in_atx_grows. intros *. by apply record_body_grows.
  - apply Hgrow, quarantine_grows.
  - split; [by apply delete_consumption_ok|]. intros row Hs Hr.
    by apply list_elem_of_filter.
  - apply Hgrow. split; [done|]. by intros [? ?].
Qed.
Lemma spared id e c anchor v at_ ops :
  OpDelete id ∉ ops → Forall (spares (consumption_row id e c anchor v "consumed" None at_)) ops.
Proof. intros Hno. apply Forall_forall. intros [] Hin; try done. by intros [= ->]. Qed.
Lemma run_admission_ops_keep ops db row :
  consumption_ok db → Forall (spares row) ops → row ∈ ad_consumption db →
  consumption_ok (foldl run_admission_op db ops) ∧
  row ∈ ad_consumption (foldl run_admission_op db ops).
Proof.
  intros Hok Hs. revert db Hok. induction Hs as [|op ops Hop Hops IH]; intros db Hok Hr; simpl;
    [done|].
  destruct (run_admission_op_keeps db op Hok) as [Hok' Hkeep]. apply IH; auto.
Qed.

(** The pair of record and claim has a row that is not a consumption. *)
Definition quarantined_pair db (e c : Uuid) : Prop :=
  ∃ r, r ∈ ad_consumption db ∧ cn_evidence_id r = uuid_to_string e ∧
       cn_claim_id r = uuid_to_string c ∧ cn_outcome r ≠ "consumed".

(** A record freshly recorded for a claim is the claim's, unless the pair had
    a row already. *)
Lemma fresh_is_recorded sql db e c anchor v id at_ db' :
  consumption_ok db →
  record_consumption sql e c anchor v id at_ db = (Ok FreshlyRecorded, db') →
  grows db db' ∧
  (consumption_row id e c anchor v "consumed" None at_ ∈ ad_consumption db' ∨
   quarantined_pair db e c).
Proof.
  intros Hok Hrec.
  assert (record_consumption_body e c anchor v id at_ db = Ok (FreshlyRecorded, db')) as Hb.
  { revert Hrec. unfold record_consumption, in_atx.
    destruct sql, (record_consumption_body _ _ _ _ _ _ db) as [[? ?]|]; naive_solver. }
  split; [by eapply record_body_grows|].
  destruct (record_body_cases db e c anchor v id at_ Hok) as [(c' & a' & Hown)|[Hno Heq]].
  { rewrite (record_body_owned _ _ _ _ _ _ _ _ _ Hok Hown) in Hb. simpl in Hb.
    by repeat case_decide. }
  rewrite Heq in Hb. injection Hb as <-. unfold insert_consumption.
  case_decide as Hx; simpl in Hx |- *.
  - right. apply Exists_exists in Hx as (r & Hr & He & Hc). exists r. split_and!; [done..|].
    intros Ho. by apply (Hno r Hr).
  - left. apply elem_of_app. right. by left.
Qed.
Lemma recorded_is_owned db id e c anchor v at_ :
  consumption_row id e c anchor v "consumed" None at_ ∈ ad_consumption db → owned db e c anchor.
Proof. intros Hr. eexists. split; [exact Hr|]. by split_and!. Qed.

(** ** Owners of a session *)

Lemma owners_loop_lookup rows owners owners' e o :
  (∀ r, r ∈ rows → ∃ u, cn_evidence_id r = uuid_to_string u) →
  (∀ r, r ∈ rows → cn_evidence_id r = uuid_to_string e → owner_of_row r = Ok o) →
  owners_loop rows owners = Ok owners' →
  owners !! e = Some o ∨
    owners !! e = None ∧ (∃ r, r ∈ rows ∧ cn_evidence_id r = uuid_to_string e) →
  owners' !! e = Some o.
Proof.
  revert owners. induction rows as [|r rows IH]; intros owners Hp Ho; simpl.
  { intros [= <-] [?|[_ (r & Hr%elem_of_nil & _)]]; done. }
  destruct (Hp r) as [u Hu]; [by left|].
  assert (∀ r, r ∈ rows → ∃ u, cn_evidence_id r = uuid_to_string u) as Hp'.
  { intros r' ?. apply Hp. by right. }
  assert (∀ r, r ∈ rows → cn_evidence_id r = uuid_to_string e → owner_of_row r = Ok o) as Ho'.
  { intros r' ?. apply Ho. by right. }
  unfold uuid_or_corrupt. rewrite Hu, uuid_parse_to_string. simpl.
  destruct (owners !! u) as [o'|] eqn:Eu.
  - intros Hl Hcase. apply (IH owners Hp' Ho' Hl). destruct Hcase as [?|[Hn (r' & Hr' & He)]];
      [by left|]. right. split; [done|].
    apply elem_of_cons in Hr' as [->|Hr']; [|by exists r'].
    rewrite He in Hu. apply (inj uuid_to_string) in Hu as <-. by rewrite Eu in Hn.
  - destruct (owner_of_row r) as [o'|] eqn:Er; simpl; [|done]. intros Hl Hcase.
    apply (IH _ Hp' Ho' Hl). destruct (decide (u = e)) as [->|Hne].
    + left. rewrite lookup_insert_eq. f_equal.
      assert (Ok o' = Ok (E := StoreError) o) as [= ?]; [|done].
      rewrite <-Er. apply Ho; [by left|done].
    + rewrite lookup_insert_ne by done. destruct Hcase as [?|[Hn (r' & Hr' & He)]]; [by left|].
      right. split; [done|]. apply elem_of_cons in Hr' as [->|Hr']; [|by exists r'].
      rewrite He in Hu. by apply (inj uuid_to_string) in Hu.
Qed.

(** Evidence is stored under printed identifiers. *)
Definition printed_ids (store : EventDb) : Prop :=
  ∀ id row, t_evidence store !! id = Some row → ∃ u, id = uuid_to_string u.

Lemma owned_in_session db session owners e c anchor ev origin :
  consumption_ok db → printed_ids (ad_store db) → owned db e c anchor →
  consumed_owners_for_session session db = Ok owners →
  stored_as session db ev origin → ev_id ev = e → owners !! e = Some (c, anchor).
Proof.
  intros Hok Hpr (r & Hr & [He Hcon] & Hc & Hs & Ha) Hl (id & row & Hrow & Hses & Hev & _) Hid.
  destruct (Hpr id row Hrow) as [u ->].
  assert (u = e) as ->.
  { revert Hev. unfold evidence_of_row. repeat (case_match; try done). intros [= <-].
    simpl in Hid. unfold uuid_column in Hid. by rewrite uuid_parse_to_string in Hid. }
  refine (owners_loop_lookup _ _ _ e (c, anchor) _ _ Hl _).
  - intros r' [_ Hr']%elem_of_sort_by_key%list_elem_of_filter.
    destruct (co_printed _ Hok r' Hr') as (e' & _ & _ & ? & _). by exists e'.
  - intros r' [[Hcon' _] Hr']%elem_of_sort_by_key%list_elem_of_filter He'.
    rewrite (co_single _ Hok e r' r) by done. by apply owner_of_owned.
  - right. split; [apply lookup_empty|]. exists r. split; [|done].
    apply elem_of_sort_by_key, list_elem_of_filter. split; [|done]. split; [done|].
    by rewrite He, Hrow, <-Hses.
Qed.

(** What a consumed record is to the claims that ask for it later. *)
Definition refused_to_others db (e c : Uuid) (anchor : ClaimAnchor) : Prop :=
  (∀ c' anchor' v' id' at', c' ≠ c → anchor' ≠ anchor →
     record_consumption Commits e c' anchor' v' id' at' db = (Ok (ReplayedAcrossClaims c), db)) ∧
  (∀ anchor' v' id' at',
     record_consumption Commits e c anchor' v' id' at' db = (Ok AlreadyConsumedBySameClaim, db)) ∧
  (∀ claim caps read ev, printed_ids (ad_store db) → claim_id claim ≠ c →
     anchor_of claim ≠ anchor → admitted_evidence_for_claim claim caps db = Ok read →
     ev ∈ ar_admitted read → ev_id ev ≠ e).

Lemma owned_is_refused db e c anchor :
  consumption_ok db → owned db e c anchor → refused_to_others db e c anchor.
Proof.
  intros Hok Hown. split_and!.
  - intros c' anchor' v' id' at' Hc Ha. unfold record_consumption.
    rewrite (record_body_owned _ _ _ _ _ _ _ _ _ Hok Hown). simpl.
    by rewrite !decide_False by done.
  - intros anchor' v' id' at'. unfold record_consumption.
    rewrite (record_body_owned _ _ _ _ _ _ _ _ _ Hok Hown). simpl. by rewrite decide_True.
  - intros claim caps read ev Hpr Hc Ha Hread Hev Hid.
    apply admission_exact in Hread as (announced & owners & _ & Howners & Hadm & _).
    apply Hadm in Hev as (origin & Hst & _ & Hnr). simpl in Hnr.
    destruct (Hnr c anchor) as [?|?]; [|congruence..].
    rewrite Hid. by eapply owned_in_session.
Qed.

Lemma run_admission_ops_ok ops db :
  consumption_ok db → consumption_ok (foldl run_admission_op db ops).
Proof.
  revert db. induction ops as [|op ops IH]; intros db Hok; [done|]. simpl.
  by apply IH, run_admission_op_keeps.
Qed.

(** C5. Evidence consumed on one turn is refused to every other. Start from an
    empty consumption table and run any operations; if a record is then freshly
    recorded for a claim, either the pair already had a quarantine row, which
    keeps the consumption from being stored, or, after any further
    consumptions, quarantines, changes of the event tables and deletions of
    other rows, whatever the database answers, a claim with another id on
    another turn is told that the record was replayed, the claim itself that it
    has it already, and the record is not among the evidence admitted for a
    claim with another id on another turn, if the store's rows hold printed
    identifiers. *)
Theorem consumed_evidence_is_refused_to_other_turns sql store earlier e c anchor v id at_ db1 ops :
  let db := foldl run_admission_op (mkAdmissionDb store []) earlier in
  record_consumption sql e c anchor v id at_ db = (Ok FreshlyRecorded, db1) →
  OpDelete id ∉ ops →
  quarantined_pair db e c ∨ refused_to_others (foldl run_admission_op db1 ops) e c anchor.
Proof.
  intros db Hrec Hops.
  assert (consumption_ok db) as Hok.
  { apply run_admission_ops_ok. by split; intros * ?%elem_of_nil. }
  destruct (fresh_is_recorded _ _ _ _ _ _ _ _ _ Hok Hrec) as [Hg1 [Hrow|?]]; [right|by left].
  destruct (run_admission_ops_keep ops db1 _ (gr_ok _ _ Hg1 Hok) ltac:(by apply spared) Hrow)
    as [Hok2 Hown2%recorded_is_owned]. by apply owned_is_refused.
Qed.

(** ** The live verdict path *)

(** The claim may rest on the record: its consumer is the claim or a claim of
    the same turn, or the pair had a row that kept the consumption from being
    recorded. *)
Definition turn_owns db (claim : Claim) (e : Uuid) : Prop :=
  (∃ c anchor, owned db e c anchor ∧ (c = claim_id claim ∨ anchor = anchor_of claim)) ∨
  quarantined_pair db e (claim_id claim).

Lemma turn_owns_grows db db' claim e : grows db db' → turn_owns db claim e → turn_owns db' claim e.
Proof.
  intros Hg [(c & a & Hown & ?)|(r & Hr & ?)]; [left|right].
  - exists c, a. split; [by eapply owned_grows|done].
  - exists r. split; [by apply Hg|done].
Qed.

(** One consumption of a claim: the claim may rest on the record, or it is
    told of the replay. *)
Lemma consumption_answers db e claim v id at_ r db' :
  consumption_ok db →
  record_consumption Commits e (claim_id claim) (anchor_of claim) v id at_ db = (r, db') →
  grows db db' ∧ t_findings (ad_store db') = t_findings (ad_store db) ∧
  ((∃ owner, r = Ok (ReplayedAcrossClaims owner)) ∨
   (∀ owner, r ≠ Ok (ReplayedAcrossClaims owner)) ∧ turn_owns db' claim e).
Proof.
  intros Hok. unfold record_consumption.
  destruct (record_body_cases db e (claim_id claim) (anchor_of claim) v id at_ Hok)
    as [(c & a & Hown)|[Hno Heq]].
  - rewrite (record_body_owned _ _ _ _ _ _ _ _ _ Hok Hown). simpl. intros [= <- <-].
    split; [reflexivity|]. split; [done|]. repeat case_decide; [right; split; [done|]..|eauto];
      left; exists c, a; auto.
  - rewrite Heq. simpl. intros [= <- <-]. split.
    { by eapply record_body_grows. }
    split; [unfold insert_consumption; by case_decide|]. right. split; [done|].
    destruct (fresh_is_recorded Commits db e (claim_id claim) (anchor_of claim) v id at_ _ Hok
      ltac:(unfold record_consumption; rewrite Heq; reflexivity)) as [Hg [Hown%recorded_is_owned|(r & Hr & ?)]].
    + left. exists (claim_id claim), (anchor_of claim). auto.
    + right. exists r. split; [by apply Hg|done].
Qed.

Section live.
Context (w : VerdictWorld) (claim : Claim).
Hypothesis consumptions_commit : ∀ i j, (vw_consume w i j).1.1 = Commits.

Lemma consume_loop_spec name i ids j replayed rationale db replayed' rationale' db' :
  consumption_ok db →
  consume_loop w claim name i j ids replayed rationale db = (replayed', rationale', db') →
  grows db db' ∧ t_findings (ad_store db') = t_findings (ad_store db) ∧
  (replayed' = false → replayed = false ∧ rationale' = rationale ∧
     ∀ e, e ∈ ids → turn_owns db' claim e).
Proof.
  revert j replayed rationale db. induction ids as [|e ids IH]; intros j replayed rationale db Hok;
    simpl.
  { intros [= <- <- <-]. split; [reflexivity|]. split; [done|]. intros ->. split_and!; [done..|].
    by intros e ?%elem_of_nil. }
  pose proof (consumptions_commit i j) as Hsql.
  destruct (vw_consume w i j) as [[sql id] at_]. simpl in Hsql. subst sql.
  destruct (record_consumption _ _ _ _ _ _ _ db) as [r db1] eqn:Er.
  apply consumption_answers in Er as (Hg1 & Hf1 & Hr); [|done].
  assert (consumption_ok db1) as Hok1 by by apply Hg1.
  destruct Hr as [[owner ->]|[Hr Hown]].
  - intros (Hg2 & Hf2 & Hrep)%IH; [|done]. split; [by etrans|]. split; [congruence|].
    intros []%Hrep. done.
  - intros Hl.
    assert (consume_loop w claim name i (S j) ids replayed rationale db1 =
            (replayed', rationale', db')) as Hl'.
    { revert Hl. destruct r as [[]|]; try done. by destruct (Hr originally_consumed_by). }
    apply IH in Hl' as (Hg2 & Hf2 & Hrep); [|done]. split; [by etrans|]. split; [congruence|].
    intros (-> & -> & Hids)%Hrep. split_and!; [done..|]. intros e' [->|?]%elem_of_cons; [|by apply Hids].
    by eapply turn_owns_grows.
Qed.

Lemma guard_replay_spec name i f db f' db' :
  consumption_ok db → guard_replay w claim name i f db = (f', db') →
  grows db db' ∧ t_findings (ad_store db') = t_findings (ad_store db) ∧
  (finding_verdict f' = Verified → finding_verdict f = Verified ∧
     f' = f ∧
     ∀ e, e ∈ finding_evidence_ids f → turn_owns db' claim e).
Proof.
  intros Hok. unfold guard_replay. case_decide as Hv.
  2:{ intros [= <- <-]. split; [reflexivity|]. by split. }
  destruct (consume_loop _ _ _ _ _ _ _ _ db) as [[replayed rationale] db1] eqn:El.
  apply consume_loop_spec in El as (Hg & Hf & Hrep); [|done]. intros [= <- <-].
  split; [done|]. split; [done|]. destruct replayed; [done|]. intros _.
  destruct Hrep as (_ & -> & Hids); [done|]. split_and!; [done|by destruct f|done].
Qed.

Lemma downgrade_verified incomplete f :
  finding_verdict (downgrade_incomplete incomplete f) = Verified →
  incomplete = false ∧ downgrade_incomplete incomplete f = f.
Proof.
  unfold downgrade_incomplete. destruct incomplete; simpl; [|done].
  case_bool_decide as Hd; [done|]. intros Hv. by destruct Hd; left.
Qed.

(** The verified finding of a verifier, on evidence the claim may rest on. *)
Definition verified_by db (caps : RuntimeCapabilities) (incomplete : bool)
    (admitted : list Evidence) (row : FindingsRow) (v : Verifier) : Prop :=
  let f := verify v claim admitted caps in
  incomplete = false ∧ finding_verdict f = Verified ∧ row = finding_row f ∧
  ∀ e, e ∈ finding_evidence_ids f → turn_owns db claim e.

Lemma verified_by_grows db db' caps incomplete admitted row v :
  grows db db' → verified_by db caps incomplete admitted row v →
  verified_by db' caps incomplete admitted row v.
Proof.
  intros Hg (? & ? & ? & Hids). split_and!; try done. intros e He.
  by eapply turn_owns_grows, Hids.
Qed.

Lemma verdict_tag_verified v : verdict_tag v = "verified" → v = Verified.
Proof. by destruct v. Qed.

Lemma insert_finding_rows sql f at_ store r store' id row :
  insert_finding sql f at_ store = (r, store') → t_findings store' !! id = Some row →
  t_findings store !! id = Some row ∨ row = finding_row f.
Proof.
  unfold insert_finding, in_tx.
  destruct (insert_finding_body f at_ store) as [[[] store1]|e] eqn:E.
  2:{ destruct sql; intros [= <- <-]; by left. }
  destruct sql; intros [= <- <-]; [|by left..]. revert E. unfold insert_finding_body.
  destruct (t_findings store !! uuid_to_string (finding_id f)); [done|].
  destruct (t_claims store !! uuid_to_string (finding_claim_id f)); [|done]. intros [= <-]. simpl.
  destruct (decide (uuid_to_string (finding_id f) = id)) as [<-|Hne].
  - rewrite lookup_insert_eq. intros [= <-]. by right.
  - rewrite lookup_insert_ne by done. by left.
Qed.

Lemma verifier_loop_spec caps incomplete admitted verifiers i db r db' :
  consumption_ok db →
  verifier_loop w claim caps incomplete admitted i verifiers db = (r, db') →
  grows db db' ∧
  ∀ id row, t_findings (ad_store db') !! id = Some row → frow_verdict row = "verified" →
    t_findings (ad_store db) !! id = Some row ∨
    Exists (verified_by db' caps incomplete admitted row) verifiers.
Proof.
  revert i db. induction verifiers as [|v verifiers IH]; intros i db Hok; simpl.
  { intros [= <- <-]. split; [reflexivity|]. by left. }
  set (f := downgrade_incomplete incomplete (verify v claim admitted caps)).
  destruct (guard_replay w claim (v_name v) i f db) as [f1 db1] eqn:Eg.
  apply guard_replay_spec in Eg as (Hg1 & Hf1 & Hver); [|done].
  destruct (vw_finding w i) as [sql at_].
  destruct (insert_finding sql f1 at_ (ad_store db1)) as [r2 store] eqn:Ei.
  set (db2 := mkAdmissionDb store (ad_consumption db1)).
  assert (grows db1 db2) as Hg2.
  { split; [done|]. by intros [? ?]. }
  assert (grows db db2) as Hg by by etrans.
  assert (∀ id row, t_findings (ad_store db2) !! id = Some row → frow_verdict row = "verified" →
    t_findings (ad_store db) !! id = Some row ∨ verified_by db2 caps incomplete admitted row v)
    as Hrow.
  { intros id row Hrow Hv. rewrite <-Hf1.
    destruct (insert_finding_rows _ _ _ _ _ _ _ _ Ei Hrow) as [?|Heq]; [by left|]. subst row. right.
    apply verdict_tag_verified in Hv. destruct (Hver Hv) as (Hvf & -> & Hids).
    destruct (downgrade_verified _ _ Hvf) as [Hinc Hd]. unfold f in *. rewrite Hd in *.
    by split_and!. }
  destruct r2 as [[]|e].
  - intros (Hg' & Hrest)%IH; [|by apply Hg]. split; [by etrans|]. intros id row Hid Hv.
    destruct (Hrest id row Hid Hv) as [Hid2|He]; [|right; by right].
    destruct (Hrow id row Hid2 Hv) as [?|Hvb]; [by left|]. right. left.
    by eapply verified_by_grows.
  - intros [= <- <-]. split; [done|]. intros id row Hid Hv.
    destruct (Hrow id row Hid Hv) as [?|?]; [by left|]. right. by left.
Qed.

Lemma quarantine_loop_spec i rejected db :
  grows db (quarantine_loop w claim i rejected db) ∧
  t_findings (ad_store (quarantine_loop w claim i rejected db)) = t_findings (ad_store db).
Proof.
  revert i db. induction rejected as [|r rejected IH]; intros i db; simpl; [done|].
  destruct (vw_quarantine w i) as [[sql id] at_].
  set (db1 := (record_admission_quarantine sql (rejected_id r) (claim_id claim)
    (anchor_of claim) (rejection_reason r) id at_ db).2).
  destruct (IH (S i) db1) as [Hg ->]. split.
  - etrans; [|done]. apply quarantine_grows.
  - unfold db1, record_admission_quarantine, insert_consumption, in_atx.
    by destruct sql; repeat case_decide.
Qed.
End live.

Lemma session_admission_exact session caps db read :
  admitted_evidence_for_session session caps db = Ok read →
  ∃ announced, caps = Ok announced ∧
    ∀ ev, ev ∈ ar_admitted read ↔
      ∃ origin, stored_as session db ev origin ∧
        origin_vouches known_sensors (session_owner announced) origin ev.
Proof.
  unfold admitted_evidence_for_session.
  destruct (evidence_rows_with_origin session db) as [rows failed] eqn:Er.
  destruct caps as [announced|]; simpl; [|done]. intros [= <-]. exists announced. split; [done|].
  pose proof (evidence_rows_spec _ _ _ _ Er) as Hrows. simpl.
  destruct (admit_outcome rows session (session_owner announced) None eq_refl) as [Ha _].
  intros ev. rewrite Ha. setoid_rewrite Hrows. split; [naive_solver|].
  intros (origin & Hst & ?). exists origin. split; [done|]. split; [|done].
  by eapply stored_session.
Qed.

Lemma verified_findings_rest w verifiers incomplete claim caps announced db r db' :
  (∀ i j, (vw_consume w i j).1.1 = Commits) → consumption_ok db →
  run_verifiers_and_persist_findings w verifiers incomplete claim caps announced db = (r, db') →
  consumption_ok db' ∧
  ∀ id row, t_findings (ad_store db') !! id = Some row → frow_verdict row = "verified" →
    t_findings (ad_store db) !! id ≠ Some row →
    ∃ read sessions v, announced = Ok sessions ∧
      v ∈ verifiers ∧ applies_to v claim = true ∧
      verified_by claim db' caps incomplete (ar_admitted read) row v ∧
      ∀ ev, ev ∈ ar_admitted read ↔
        ∃ origin, stored_as (claim_session_id claim) db ev origin ∧
          origin_vouches known_sensors (session_owner sessions) origin ev.
Proof.
  intros Hw Hok. unfold run_verifiers_and_persist_findings.
  destruct (admitted_evidence_for_session _ announced db) as [read|e] eqn:Ea;
    [|by intros [= <- <-]].
  destruct (quarantine_loop_spec w claim 0 (ar_rejected read) db) as [Hg Hq].
  intros [Hg' Hrows]%verifier_loop_spec; [|done|by apply Hg]. split; [by apply Hg', Hg|].
  intros id row Hid Hv Hnew. rewrite Hq in Hrows.
  destruct (Hrows id row Hid Hv) as [?|(v & Hin & Hvb)%Exists_exists]; [done|].
  apply list_elem_of_filter in Hin as [Happ Hin].
  destruct (session_admission_exact _ _ _ _ Ea) as (sessions & Hs & Hadm).
  by exists read, sessions, v.
Qed.

(** C37. A verified verdict rests on admitted evidence of its own turn: when
    the consumption statements commit, every finding that the live path adds
    with the verdict verified is the unchanged finding of one of the
    applicable verifiers on exactly the evidence of the session that its
    origin vouches for, computed while no handoff of the session was in
    flight, and each record it cites was consumed by its claim or by a claim
    of the same turn (or the claim and the record had a quarantine row, which
    keeps the consumption from being recorded); and the consumption table
    stays in order. *)
Theorem verified_findings_rest_on_their_turn w verifiers incomplete claim caps announced db r db' :
  (∀ i j, (vw_consume w i j).1.1 = Commits) → consumption_ok db →
  run_verifiers_and_persist_findings w verifiers incomplete claim caps announced db = (r, db') →
  consumption_ok db' ∧
  ∀ id row, t_findings (ad_store db') !! id = Some row → frow_verdict row = "verified" →
    t_findings (ad_store db) !! id ≠ Some row →
    ∃ read sessions v, announced = Ok sessions ∧
      v ∈ verifiers ∧ applies_to v claim = true ∧
      verified_by claim db' caps incomplete (ar_admitted read) row v ∧
      ∀ ev, ev ∈ ar_admitted read ↔
        ∃ origin, stored_as (claim_session_id claim) db ev origin ∧
          origin_vouches known_sensors (session_owner sessions) origin ev.
Proof. apply verified_findings_rest. Qed.
End admission.
