(* ===== verification/AdmissionExamples.v ===== *)
(** * Admission and consumption on a concrete store

    A session with one command's exit code, two claims of different turns
    about it and a record without an origin. The runs witness the theorems
    about admission and consumption, and one of them shows that a quarantine
    row keeps a later consumption from being recorded. *)

From S2P Require Import Prelude.
From S2P Require Import Types.
From S2P Require Import Text.
From S2P Require Import Projection.
From S2P Require Import AuditLedger.
From S2P Require Import EventStore.
From S2P Require Import EventRead.
From S2P Require Import Retention.
From S2P Require Import RetentionInv.
From S2P Require Import RetentionExamples.
From S2P Require Import Admission.
From S2P Require Import Consumption.
From S2P Require Import AdmissionSpec.

Local Open Scope fornax_scope.

(** ** The libraries, concretely *)

Definition bash_source : EvidenceSource :=
  mkEvidenceSource "claude_bash_exit_code_sensor_v1" AgentAdjacent "day 0" (Some ClaudeCode)
    HookCallback None (mkFreshness HostClock None) (mkTamperBoundary "hook" None) None [].

#[local] Instance admission_json : EventJson := {
  value_to_string v := match v with JNull => "null" | _ => "value" end;
  value_from_str s := if decide (s = "null") then Some JNull else None;
  source_to_json _ := "bash";
  source_from_json s := if decide (s = "bash") then Some bash_source else None;
  extension_to_json _ := "extension";
  extension_from_json _ := None;
  uuids_to_json l := bits_of (countable.encode l);
  uuids_from_json s := countable.decode (of_bits s);
  uuid_parse_str s := Some (Pos.pred_N (of_bits s));
}.
#[local] Instance admission_uuid : UuidOps := {
  uuid_to_string n := bits_of (N.succ_pos n);
  new_v5 n _ := n;
}.
#[local] Instance admission_parse_ok : UuidParseOk.
Proof. intros u. simpl. by rewrite of_bits_of, N.pos_pred_succ. Qed.
#[local] Instance admission_scan : TableScan := { scan A m := map_to_list m }.
#[local] Instance admission_scan_ok : TableScanOk.
Proof. by intros A m. Qed.

(** ** A session *)

Definition exit_evidence : Evidence :=
  mkEvidence 10 "s" 1 ExitCode "day 0" JNull "hook" (Some bash_source) None false.
Definition stray_evidence : Evidence :=
  mkEvidence 11 "s" 1 ExitCode "day 0" JNull "hook" (Some bash_source) None false.
Definition first_claim : Claim := mkClaim 20 "s" 1 "tests pass" "tests" "day 0".
Definition later_claim : Claim := mkClaim 21 "s" 2 "tests pass" "tests" "day 1".
Definition host_event (id : N) : AgentEvent :=
  mkAgentEvent id "s" ClaudeCode PostToolUse "day 0" (Some "Bash") None None JNull.

Definition session_store : EventDb :=
  let db := (insert_event Commits (host_event 1) "day 0" empty_event_db).2 in
  let db := (insert_event Commits (host_event 2) "day 1" db).2 in
  let db := (insert_evidence_with_origin Commits exit_evidence UdsIngest "day 0" db).2 in
  let db := (insert_evidence Commits stray_evidence "day 0" db).2 in
  let db := (insert_claim Commits first_claim "day 0" db).2 in
  (insert_claim Commits later_claim "day 1" db).2.
Definition session_db : AdmissionDb := mkAdmissionDb session_store [].
Definition session_caps : result StoreError (list RuntimeCapabilities) :=
  Ok [mkRuntimeCapabilities 1 ClaudeCode [] ∅].

(** The sensor's record is admitted; the one without an origin is not. *)
Definition first_read : AdmittedEvidenceRead :=
  mkAdmittedEvidenceRead [exit_evidence]
    [mkEvidenceRejection 11 (RejProvenance NoKnownOrigin)] [].
Example first_claim_read :
  admitted_evidence_for_claim first_claim session_caps session_db = Ok first_read.
Proof. vm_compute. done. Qed.

Lemma admission_is_exact_witness :
  exit_evidence ∈ ar_admitted first_read ∧
  ∃ announced owners, session_caps = Ok announced ∧
    consumed_owners_for_session "s" session_db = Ok owners ∧
    ∀ ev, ev ∈ ar_admitted first_read ↔
      ∃ origin, stored_as "s" session_db ev origin ∧
        origin_vouches known_sensors (session_owner announced) origin ev ∧
        not_replayed (Some (mkClaimReplayScope first_claim owners)) ev.
Proof.
  assert (admitted_evidence_for_claim first_claim session_caps session_db = Ok first_read) as Hr.
  { vm_compute. reflexivity. }
  split; [left|].
  destruct (admission_is_exact first_claim session_caps session_db first_read Hr)
    as (announced & owners & Hc & Ho & Hadm & _).
  exists announced, owners. split; [exact Hc|]. split; [exact Ho|exact Hadm].
Defined.

(** ** Consumption *)

Lemma empty_consumption_ok store : consumption_ok (mkAdmissionDb store []).
Proof. by split; intros * ?%elem_of_nil. Qed.

Definition consumed_db : AdmissionDb :=
  (record_consumption Commits 10 20 (anchor_of first_claim) (Some "test_result") "row" "day 1"
     session_db).2.
Definition later_ops : list AdmissionOp :=
  [OpQuarantine Commits 11 20 (anchor_of first_claim) (RejProvenance NoKnownOrigin) "q" "day 1";
   OpDelete "q"].

Lemma consumed_evidence_is_refused_to_other_turns_witness :
  record_consumption Commits 10 21 (anchor_of later_claim) None "x" "day 2"
    (foldl run_admission_op consumed_db later_ops) =
    (Ok (ReplayedAcrossClaims 20), foldl run_admission_op consumed_db later_ops).
Proof.
  destruct (consumed_evidence_is_refused_to_other_turns Commits (ad_store session_db) [] 10 20
              (anchor_of first_claim) (Some "test_result") "row" "day 1" consumed_db later_ops)
    as [(r & Hr & _)|[Hreplayed _]].
  - apply injective_projections; [vm_compute; reflexivity|reflexivity].
  - intros Hin. repeat (apply elem_of_cons in Hin as [Hin|Hin]; [discriminate|]).
    exact (not_elem_of_nil _ Hin).
  - exfalso. exact (not_elem_of_nil _ Hr).
  - apply Hreplayed; discriminate.
Defined.

(** ** The live path *)

Definition exit_verifier : Verifier :=
  mkVerifier "test_result" (λ _, true)
    (λ c evidence _, mkFinding (30 + claim_id c) (claim_id c)
       (if decide (evidence = []) then Unverified else Verified) (ev_id <$> evidence)
       "test_result" "exit 0" "day 1").
Definition calm_world : VerdictWorld :=
  mkVerdictWorld (λ _, (Commits, "q", "day 1")) (λ _ _, (Commits, "row", "day 1"))
    (λ _, (Commits, "day 1")).
Definition run_claim (c : Claim) (db : AdmissionDb) : result StoreError unit * AdmissionDb :=
  run_verifiers_and_persist_findings calm_world [exit_verifier] false c
    (mkRuntimeCapabilities 1 ClaudeCode [] ∅) session_caps db.
Definition finding_of (c : Claim) : string := uuid_to_string (30 + claim_id c).

(** The first claim is verified; the claim of the later turn that cites the
    same record is sent to review. *)
Example replay_is_reviewed :
  let db1 := (run_claim first_claim session_db).2 in
  let db2 := (run_claim later_claim db1).2 in
  frow_verdict <$> t_findings (ad_store db2) !! finding_of first_claim = Some "verified" ∧
  frow_verdict <$> t_findings (ad_store db2) !! finding_of later_claim = Some "review".
Proof. vm_compute. done. Qed.

Definition first_run : result StoreError unit * AdmissionDb := run_claim first_claim session_db.

Lemma verified_findings_rest_on_their_turn_witness :
  consumption_ok session_db ∧ first_run.1 = Ok tt ∧
  ∃ row, t_findings (ad_store first_run.2) !! finding_of first_claim = Some row ∧
    frow_verdict row = "verified" ∧
    ∃ read, verified_by first_claim first_run.2 (mkRuntimeCapabilities 1 ClaudeCode [] ∅) false
              (ar_admitted read) row exit_verifier.
Proof.
  split; [apply empty_consumption_ok|]. split; [vm_compute; reflexivity|].
  destruct (t_findings (ad_store first_run.2) !! finding_of first_claim) as [row|] eqn:Er;
    [|vm_compute in Er; discriminate].
  assert (frow_verdict row = "verified") as Hv.
  { vm_compute in Er. injection Er as <-. reflexivity. }
  exists row. split; [reflexivity|]. split; [exact Hv|].
  destruct (verified_findings_rest_on_their_turn calm_world [exit_verifier] false first_claim
              (mkRuntimeCapabilities 1 ClaudeCode [] ∅) session_caps session_db first_run.1
              first_run.2 (λ _ _, eq_refl) (empty_consumption_ok _) (surjective_pairing _))
    as [_ Hall].
  destruct (Hall _ row Er Hv) as (read & _ & v & _ & Hin & _ & Hvb & _).
  { vm_compute. discriminate. }
  exists read. apply list_elem_of_singleton in Hin. rewrite Hin in Hvb. exact Hvb.
Defined.

(** A claim that once saw a record quarantined consumes it without a row, so
    a claim of another turn is told that the record is fresh. *)
Example quarantine_hides_consumption :
  let db1 :=
    (record_admission_quarantine Commits 10 20 (anchor_of first_claim) (RejProvenance NoKnownOrigin)
       "q" "day 1" session_db).2 in
  let second := record_consumption Commits 10 20 (anchor_of first_claim) None "a" "day 2" db1 in
  let third := record_consumption Commits 10 21 (anchor_of later_claim) None "b" "day 3" second.2 in
  second.1 = Ok FreshlyRecorded ∧ length (ad_consumption second.2) = 1 ∧
  third.1 = Ok FreshlyRecorded.
Proof. vm_compute. done. Qed.

(** A verified finding is persisted although its consumption was not. *)
Example failed_consumption_is_ignored :
  let failing := mkVerdictWorld (λ _, (Commits, "q", "day 1")) (λ _ _, (StatementFails, "", ""))
                   (λ _, (Commits, "day 1")) in
  let db' := (run_verifiers_and_persist_findings failing [exit_verifier] false first_claim
                (mkRuntimeCapabilities 1 ClaudeCode [] ∅) session_caps session_db).2 in
  frow_verdict <$> t_findings (ad_store db') !! finding_of first_claim = Some "verified" ∧
  filter (λ r, cn_outcome r = "consumed") (ad_consumption db') = [].
Proof. vm_compute. done. Qed.
