(* ===== verification/Shell.v ===== *)
(** * Shell command lines

    The first half of [fornax-verify/src/runner_command.rs]: a command, given
    as a script or as an argument vector, is split into simple commands joined
    by [&&], or refused. Scripts and words are sequences of characters
    ([Text]). The loop of [shell_segments] and the loops inside its quotes
    are one recursion with a mode. *)

From S2P Require Import Prelude.
From S2P Require Import Types.
From S2P Require Import Text.

Local Open Scope fornax_scope.

(** ** Characters and literals *)

(** [char::is_control]: the general category Cc. *)
Definition is_control (c : Char) : bool := bool_decide (c ≤ 31 ∨ 127 ≤ c ≤ 159)%N.

Definition SPACE : Char := 32.
Definition TAB : Char := 9.
Definition LF : Char := 10.
Definition CR : Char := 13.
Definition AMP : Char := 38.
Definition GT : Char := 62.
Definition HASH : Char := 35.
Definition BACKSLASH : Char := 92.
Definition SQUOTE : Char := 39.
Definition DQUOTE : Char := 34.
Definition DOLLAR : Char := 36.
Definition BACKTICK : Char := 96.
Definition SLASH : Char := 47.
Definition DASH : Char := 45.
Definition EQUALS : Char := 61.

(** Membership in a set of characters, and in a table of literals. *)
Definition one_of (cs : Chars) (c : Char) : bool := bool_decide (c ∈ cs).
Definition is_one_of (table : list string) (w : Chars) : bool :=
  bool_decide (w ∈ chars <$> table).

(** [str::split_once]. *)
Fixpoint split_once (d : Char) (cs : Chars) : option (Chars * Chars) :=
  match cs with
  | [] => None
  | c :: cs =>
      if decide (c = d) then Some ([], cs)
      else '(a, b) ← split_once d cs; Some (c :: a, b)
  end.
(** [rsplit(d).next()]: what follows the last [d]. *)
Fixpoint after_last (d : Char) (cs : Chars) : Chars :=
  match cs with
  | [] => []
  | c :: cs' => if decide (d ∈ cs) then after_last d cs' else cs
  end.
Definition basename (program : Chars) : Chars := after_last SLASH program.

(** ** Words *)

Record Word := mkWord { w_text : Chars; w_quoted : bool }.
#[export] Instance Word_eq_dec : EqDecision Word.
Proof. solve_decision. Defined.

Record ShellState := mkShellState {
  st_segments : list (list Word);
  st_words : list Word;
  st_cur : Chars;
  st_in_word : bool;
  st_quoted : bool;
}.

Inductive Mode := MPlain | MEscape | MSingle | MDouble | MDoubleEscape.

(** The word read so far ends. *)
Definition end_word (st : ShellState) : ShellState :=
  if st_in_word st
  then mkShellState (st_segments st) (st_words st ++ [mkWord (st_cur st) (st_quoted st)]) [] false
         false
  else st.
Definition end_segment (st : ShellState) : ShellState :=
  mkShellState (st_segments st ++ [st_words st]) [] (st_cur st) (st_in_word st) (st_quoted st).
Definition clear_word (st : ShellState) : ShellState :=
  mkShellState (st_segments st) (st_words st) [] false (st_quoted st).
Definition open_quote (st : ShellState) : ShellState :=
  mkShellState (st_segments st) (st_words st) (st_cur st) true true.
Definition push (cs : Chars) (st : ShellState) : ShellState :=
  mkShellState (st_segments st) (st_words st) (st_cur st ++ cs) (st_in_word st) (st_quoted st).
Definition push_plain (c : Char) (st : ShellState) : ShellState :=
  mkShellState (st_segments st) (st_words st) (st_cur st ++ [c]) true (st_quoted st).

(** After the [>] of a lone [2]: the rest is [&1] and a word boundary. *)
Definition stderr_to_stdout_follows (rest : Chars) : bool :=
  match rest with
  | a :: o :: rest =>
      bool_decide (a = AMP) && bool_decide (o = 49%N) &&
      match rest with [] => true | c :: _ => one_of [SPACE; TAB] c end
  | _ => false
  end.

(** The characters that end the parse outside quotes. *)
Definition METACHARACTERS : Chars := LF :: CR :: chars ";&|<>(){}$`".

Definition at_merge (st : ShellState) (c : Char) (rest : Chars) : bool :=
  bool_decide (c = GT) && st_in_word st && negb (st_quoted st) &&
  bool_decide (st_cur st = chars "2") && stderr_to_stdout_follows rest.

Fixpoint shell_loop (m : Mode) (st : ShellState) (cs : Chars) : option ShellState :=
  match cs with
  | [] => match m with MPlain => Some st | _ => None end
  | c :: rest =>
      match m with
      | MPlain =>
          if one_of [SPACE; TAB] c then shell_loop MPlain (end_word st) rest
          else if at_merge st c rest then
            match rest with
            | _ :: _ :: rest => shell_loop MPlain (clear_word st) rest
            | _ => None
            end
          else if bool_decide (c = AMP ∧ head rest = Some AMP) then
            let st := end_word st in
            match st_words st, rest with
            | _ :: _, _ :: rest => shell_loop MPlain (end_segment st) rest
            | _, _ => None
            end
          else if one_of METACHARACTERS c then None
          else if bool_decide (c = HASH) && negb (st_in_word st) then None
          else if decide (c = BACKSLASH) then shell_loop MEscape st rest
          else if decide (c = SQUOTE) then shell_loop MSingle (open_quote st) rest
          else if decide (c = DQUOTE) then shell_loop MDouble (open_quote st) rest
          else shell_loop MPlain (push_plain c st) rest
      | MEscape =>
          if one_of [LF; CR] c then None
          else shell_loop MPlain (open_quote (push [c] st)) rest
      | MSingle =>
          if decide (c = SQUOTE) then shell_loop MPlain st rest
          else shell_loop MSingle (push [c] st) rest
      | MDouble =>
          if decide (c = DQUOTE) then shell_loop MPlain st rest
          else if one_of [DOLLAR; BACKTICK] c then None
          else if decide (c = BACKSLASH) then shell_loop MDoubleEscape st rest
          else shell_loop MDouble (push [c] st) rest
      | MDoubleEscape =>
          if one_of [DQUOTE; BACKSLASH; DOLLAR; BACKTICK] c
          then shell_loop MDouble (push [c] st) rest
          else shell_loop MDouble (push [BACKSLASH; c] st) rest
      end
  end.

(** A character a shell would keep inside a word but that looks like a
    separator. *)
Definition odd_space (c : Char) : bool :=
  (is_whitespace c || is_control c) && negb (one_of [SPACE; TAB; LF; CR] c).

Definition start_state : ShellState := mkShellState [] [] [] false false.

Definition shell_segments (script : Chars) : option (list (list Word)) :=
  if existsb odd_space script then None
  else
    st ← shell_loop MPlain start_state script;
    let st := end_word st in
    match st_words st with
    | [] => None
    | words => Some (st_segments st ++ [words])
    end.

(** ** Commands *)

Definition is_shell (program : Chars) : bool :=
  is_one_of ["sh"; "bash"; "zsh"; "dash"] (basename program).

Definition is_shell_command_flag (flag : Chars) : bool :=
  starts_with (chars "-") flag && negb (starts_with (chars "--") flag) &&
  one_of flag 99%N && forallb (one_of (chars "cleuxvi")) (drop 1 flag).

Definition as_str (v : Value) : option string :=
  match v with JString s => Some s | _ => None end.

(** All the elements, or none. *)
Fixpoint all_some {A} (l : list (option A)) : option (list A) :=
  match l with
  | [] => Some []
  | x :: l => a ← x; l ← all_some l; Some (a :: l)
  end.

Definition argv_segments (argv : list Chars) : option (list (list Word)) :=
  let direct := Some [(λ t, mkWord t true) <$> argv] in
  match argv with
  | [] => None
  | program :: args =>
      if is_shell program then
        flag ← head args;
        if is_shell_command_flag flag
        then match args with [_; script] => shell_segments script | _ => None end
        else direct
      else direct
  end.

Definition command_segments (command : option Value) : option (list (list Word)) :=
  match command with
  | Some (JString script) => shell_segments (chars script)
  | Some (JArray tokens) =>
      argv ← all_some (as_str <$> tokens);
      argv_segments (chars <$> argv)
  | _ => None
  end.

(** ** Environment assignments *)

Definition is_name (name : Chars) : bool :=
  match name with
  | [] => false
  | c :: cs =>
      (is_ascii_alphabetic c || bool_decide (c = 95%N)) &&
      forallb (λ c, is_ascii_alphanumeric c || bool_decide (c = 95%N)) cs
  end.

Definition assignment_name (w : Word) : option Chars :=
  if w_quoted w then None
  else
    '(name, _) ← split_once EQUALS (w_text w);
    if is_name name then Some name else None.

Definition BENIGN_ASSIGNMENTS : list string :=
  ["CI"; "FORCE_COLOR"; "NO_COLOR"; "RUST_BACKTRACE"; "RUST_LOG"; "CARGO_TERM_COLOR";
   "PYTHONDONTWRITEBYTECODE"; "PYTHONUNBUFFERED"; "NODE_ENV"].

Definition is_benign (w : Word) : bool :=
  match assignment_name w with
  | Some name => is_one_of BENIGN_ASSIGNMENTS name
  | None => false
  end.

(** A segment without its leading benign assignments. *)
Fixpoint core (words : list Word) : list Word :=
  match words with
  | [] => []
  | first :: rest => if is_benign first then core rest else words
  end.

Definition leading_assignments (words : list Word) : list Chars :=
  w_text <$> take (length words - length (core words)) words.

(** [cd dir], with one plain argument. *)
Definition is_plain_cd (words : list Word) : bool :=
  match words with
  | [cd; dir] =>
      bool_decide (w_text cd = chars "cd") && negb (w_quoted cd) &&
      bool_decide (w_text dir ≠ []) && negb (starts_with (chars "-") (w_text dir))
  | _ => false
  end.
