(* ===== verification/ShellSpec.v ===== *)
(** * The scripts that are parsed

    A declarative grammar of the scripts [shell_segments] accepts, simple
    commands of quoted or plain words joined by [&&], and the proof that the
    parser accepts exactly those and returns their words; and that a command
    written with every word in quotes is read back. *)

From S2P Require Import Prelude.
From S2P Require Import Types.
From S2P Require Import Text.
From S2P Require Import Shell.

Local Open Scope fornax_scope.

(** ** The grammar *)

Definition BLANKS : Chars := [SPACE; TAB].
(** The characters that have a meaning outside quotes. *)
Definition SPECIAL : Chars :=
  [SPACE; TAB; LF; CR] ++ chars ";&|<>(){}$`" ++ [BACKSLASH; SQUOTE; DQUOTE].

(** What stands between double quotes, and its text. *)
Inductive dq_body : Chars → Chars → Prop :=
| dq_nil : dq_body [] []
| dq_plain c s t :
    c ∉ [DQUOTE; DOLLAR; BACKTICK; BACKSLASH] → dq_body s t → dq_body (c :: s) (c :: t)
| dq_escape c s t :
    c ∈ [DQUOTE; BACKSLASH; DOLLAR; BACKTICK] → dq_body s t → dq_body (BACKSLASH :: c :: s) (c :: t)
| dq_keep c s t :
    c ∉ [DQUOTE; BACKSLASH; DOLLAR; BACKTICK] → dq_body s t →
    dq_body (BACKSLASH :: c :: s) (BACKSLASH :: c :: t).

(** A piece of a word: its source, its text and whether it is quoted. *)
Inductive piece : Chars → Chars → bool → Prop :=
| piece_plain c : c ∉ SPECIAL → piece [c] [c] false
| piece_escape c : c ∉ [LF; CR] → piece [BACKSLASH; c] [c] true
| piece_single s : SQUOTE ∉ s → piece (SQUOTE :: s ++ [SQUOTE]) s true
| piece_double s t : dq_body s t → piece (DQUOTE :: s ++ [DQUOTE]) t true.
Inductive pieces : Chars → Chars → bool → Prop :=
| pieces_nil : pieces [] [] false
| pieces_cons s t q s' t' q' :
    piece s t q → pieces s' t' q' → pieces (s ++ s') (t ++ t') (q || q').

(** A word does not begin a comment. *)
Definition word_source (s : Chars) (w : Word) : Prop :=
  s ≠ [] ∧ head s ≠ Some HASH ∧ pieces s (w_text w) (w_quoted w).

Definition blank_or_end (s : Chars) : Prop := s = [] ∨ ∃ c s', s = c :: s' ∧ c ∈ BLANKS.
(** A word ends where the script ends, at a blank and at [&&]. *)
Definition boundary (s : Chars) : Prop := blank_or_end s ∨ ∃ s', s = AMP :: AMP :: s'.

(** The rest of a script from a place between words: the words before the
    next [&&], and the simple commands after it. *)
Inductive script_rest : Chars → list Word → list (list Word) → Prop :=
| rest_end : script_rest [] [] []
| rest_blank c s ws segs : c ∈ BLANKS → script_rest s ws segs → script_rest (c :: s) ws segs
| rest_word s w s' ws segs :
    word_source s w → boundary s' → script_rest s' ws segs → script_rest (s ++ s') (w :: ws) segs
| rest_merge s ws segs :
    blank_or_end s → script_rest s ws segs → script_rest (chars "2>&1" ++ s) ws segs
| rest_and s ws segs : script_rest s ws segs → script_rest (AMP :: AMP :: s) [] (ws :: segs).

Definition script (s : Chars) (segs : list (list Word)) : Prop :=
  Forall (λ c, odd_space c = false) s ∧
  ∃ ws rest, script_rest s ws rest ∧ segs = ws :: rest ∧ Forall (λ ws, ws ≠ []) segs.

(** ** Pieces *)

(** The text of a piece is added to the word. *)
Definition add (t : Chars) (q : bool) (st : ShellState) : ShellState :=
  mkShellState (st_segments st) (st_words st) (st_cur st ++ t) true (st_quoted st || q).

Lemma push_nil st : push [] st = st.
Proof. destruct st. unfold push. simpl. by rewrite app_nil_r. Qed.
Lemma push_push a b st : push b (push a st) = push (a ++ b) st.
Proof. unfold push. simpl. by rewrite app_assoc. Qed.
Lemma push_open t st : push t (open_quote st) = add t true st.
Proof. unfold push, open_quote, add. simpl. by rewrite orb_true_r. Qed.
Lemma open_push c st : open_quote (push [c] st) = add [c] true st.
Proof. unfold push, open_quote, add. simpl. by rewrite orb_true_r. Qed.
Lemma push_plain_add c st : push_plain c st = add [c] false st.
Proof. unfold push_plain, add. by rewrite orb_false_r. Qed.

Lemma one_of_false cs c : c ∉ cs → one_of cs c = false.
Proof. apply bool_decide_eq_false_2. Qed.
Lemma one_of_true cs c : c ∈ cs → one_of cs c = true.
Proof. apply bool_decide_eq_true_2. Qed.

Lemma single_quotes st s rest :
  SQUOTE ∉ s → shell_loop MSingle st (s ++ SQUOTE :: rest) = shell_loop MPlain (push s st) rest.
Proof.
  revert st. induction s as [|c s IH]; intros st Hs; simpl.
  { by rewrite push_nil. }
  apply not_elem_of_cons in Hs as [Hc Hs]. rewrite decide_False by done.
  by rewrite IH, push_push.
Qed.
Lemma single_quotes_inv st cs r :
  shell_loop MSingle st cs = Some r →
  ∃ s rest, cs = s ++ SQUOTE :: rest ∧ SQUOTE ∉ s ∧ shell_loop MPlain (push s st) rest = Some r.
Proof.
  revert st. induction cs as [|c cs IH]; intros st; simpl; [done|]. case_decide as Hc.
  - subst c. exists [], cs. rewrite push_nil. split_and!; try done. apply not_elem_of_nil.
  - intros (s & rest & -> & Hs & Hr)%IH. exists (c :: s), rest.
    rewrite push_push in Hr. split_and!; try done. by apply not_elem_of_cons.
Qed.

Lemma double_quotes st s t rest :
  dq_body s t → shell_loop MDouble st (s ++ DQUOTE :: rest) = shell_loop MPlain (push t st) rest.
Proof.
  intros Hb. revert st. induction Hb as [|c s t Hc _ IH|c s t Hc _ IH|c s t Hc _ IH]; intros st.
  - simpl. by rewrite push_nil.
  - cbn [shell_loop app]. rewrite !not_elem_of_cons in Hc. destruct Hc as (? & ? & ? & ? & _).
    rewrite decide_False, one_of_false, decide_False by
      (rewrite ?not_elem_of_cons; auto using not_elem_of_nil).
    by rewrite IH, push_push.
  - cbn [shell_loop app]. rewrite decide_False, one_of_false, decide_True by
      (done || by rewrite !not_elem_of_cons; split_and!; [..|apply not_elem_of_nil]).
    by rewrite one_of_true, IH, push_push by done.
  - cbn [shell_loop app]. rewrite decide_False, one_of_false, decide_True by
      (done || by rewrite !not_elem_of_cons; split_and!; [..|apply not_elem_of_nil]).
    by rewrite one_of_false, IH, push_push by done.
Qed.
Lemma double_quotes_inv cs st r :
  shell_loop MDouble st cs = Some r →
  ∃ s t rest, cs = s ++ DQUOTE :: rest ∧ dq_body s t ∧ shell_loop MPlain (push t st) rest = Some r.
Proof.
  remember (length cs) as n eqn:Hn. revert cs st Hn.
  induction n as [n IH] using lt_wf_ind; intros [|c cs] st ->; cbn [shell_loop]; [done|].
  case_decide as Hc.
  { intros Hr. subst c. exists [], [], cs. rewrite push_nil. split_and!; try done. constructor. }
  destruct (one_of [DOLLAR; BACKTICK] c) eqn:Ed; [done|].
  apply bool_decide_eq_false in Ed. rewrite !not_elem_of_cons in Ed. destruct Ed as (? & ? & _).
  case_decide as Hb.
  - subst c. destruct cs as [|c cs]; cbn [shell_loop]; [done|].
    destruct (one_of _ c) eqn:Ee; intros Hr;
      (apply (IH (length cs)) in Hr as (s & t & rest & -> & Hs & Hr); [|simpl; lia|done]);
      rewrite push_push in Hr.
    + apply bool_decide_eq_true in Ee. exists (BACKSLASH :: c :: s), (c :: t), rest.
      split_and!; try done. by constructor.
    + apply bool_decide_eq_false in Ee. exists (BACKSLASH :: c :: s), (BACKSLASH :: c :: t), rest.
      split_and!; try done. by constructor.
  - intros Hr. apply (IH (length cs)) in Hr as (s & t & rest & -> & Hs & Hr); [|simpl; lia|done].
    rewrite push_push in Hr. exists (c :: s), (c :: t), rest. split_and!; try done.
    constructor; [|done]. rewrite !not_elem_of_cons. split_and!; auto using not_elem_of_nil.
Qed.

(** Where a piece may begin. *)
Definition may_begin (st : ShellState) (s : Chars) : Prop :=
  st_in_word st = true ∨ head s ≠ Some HASH.

Lemma special_eq : SPECIAL = BLANKS ++ METACHARACTERS ++ [BACKSLASH; SQUOTE; DQUOTE].
Proof. done. Qed.
Lemma special_cases c : c ∉ SPECIAL →
  c ∉ BLANKS ∧ c ∉ METACHARACTERS ∧ c ≠ BACKSLASH ∧ c ≠ SQUOTE ∧ c ≠ DQUOTE.
Proof. rewrite special_eq, !not_elem_of_app, !not_elem_of_cons. tauto. Qed.
Lemma not_meta c : c ∉ METACHARACTERS → c ≠ GT ∧ c ≠ AMP.
Proof.
  intros Hc.
  assert (GT ∈ METACHARACTERS ∧ AMP ∈ METACHARACTERS) as [? ?].
  { split; by vm_compute; repeat constructor. }
  split; intros ->; by apply Hc.
Qed.

Lemma piece_loop st s t q rest :
  piece s t q → may_begin st s →
  shell_loop MPlain st (s ++ rest) = shell_loop MPlain (add t q st) rest.
Proof.
  intros Hp Hb.
  assert (∀ c cs, c ∈ [BACKSLASH; SQUOTE; DQUOTE] →
    shell_loop MPlain st (c :: cs) =
      (if decide (c = BACKSLASH) then shell_loop MEscape st cs
       else if decide (c = SQUOTE) then shell_loop MSingle (open_quote st) cs
       else shell_loop MDouble (open_quote st) cs)) as Hq.
  { intros c cs Hc. rewrite !elem_of_cons in Hc.
    destruct Hc as [->|[->|[->|Hc%elem_of_nil]]]; [done..|done]. }
  destruct Hp as [c Hc|c Hc|s Hs|s t Hs].
  - apply special_cases in Hc as (Hbl & Hm & ? & ? & ?). destruct (not_meta c Hm) as [Hgt Hamp].
    cbn [shell_loop app]. rewrite one_of_false by done. unfold at_merge.
    rewrite (bool_decide_eq_false_2 (c = GT)) by done. cbn [andb].
    rewrite (bool_decide_eq_false_2 (c = AMP ∧ _)) by (by intros [? _]).
    rewrite one_of_false by done.
    assert (bool_decide (c = HASH) && negb (st_in_word st) = false) as ->.
    { destruct Hb as [->|Hb]; [apply andb_false_r|].
      rewrite bool_decide_eq_false_2; [done|]. intros ->. by apply Hb. }
    rewrite !decide_False by done. by rewrite push_plain_add.
  - cbn [app]. rewrite Hq by (by left). rewrite decide_True by done. cbn [shell_loop].
    rewrite one_of_false by done. by rewrite open_push.
  - cbn [app]. rewrite Hq by (right; by left). rewrite decide_False, decide_True by done.
    rewrite <-app_assoc. cbn [app]. by rewrite single_quotes, push_open.
  - cbn [app]. rewrite Hq by (right; right; by left). rewrite !decide_False by done.
    rewrite <-app_assoc. cbn [app]. by rewrite (double_quotes _ s t), push_open.
Qed.

Lemma pieces_loop s t q : pieces s t q → ∀ st rest, may_begin st s →
  s ≠ [] → shell_loop MPlain st (s ++ rest) = shell_loop MPlain (add t q st) rest.
Proof.
  induction 1 as [|s t q s' t' q' Hp Hps IH]; intros st rest Hb Hne; [done|].
  rewrite <-app_assoc.
  assert (may_begin st s) as Hb'.
  { destruct Hb as [?|Hb]; [by left|right]. destruct s; [by inversion Hp|done]. }
  rewrite (piece_loop st s t q) by done.
  destruct (decide (s' = [])) as [->|Hne'].
  - assert (t' = [] ∧ q' = false) as [-> ->].
    { inversion Hps as [|s1 t1 q1 s2 t2 q2 Hp1 _ Heq]; [done|]. apply app_nil in Heq as [-> _].
      inversion Hp1. }
    by rewrite app_nil_r, orb_false_r.
  - rewrite IH; [|by left|done]. unfold add. simpl. by rewrite app_assoc, orb_assoc.
Qed.

(** ** The parser accepts the grammar *)

(** The segments when the script ends here. *)
Definition finish (st : ShellState) : list (list Word) :=
  st_segments (end_word st) ++ [st_words (end_word st)].
Definition between (st : ShellState) : Prop :=
  st_in_word st = false ∧ st_cur st = [] ∧ st_quoted st = false.

Lemma end_word_idem st : end_word (end_word st) = end_word st.
Proof. unfold end_word. by destruct (st_in_word st) eqn:E; simpl; rewrite ?E. Qed.
Lemma end_word_between st : between st → end_word st = st.
Proof. intros (Hi & _). unfold end_word. by rewrite Hi. Qed.
Lemma between_end_word st : st_in_word st = true → between (end_word st).
Proof. intros Hi. unfold end_word. by rewrite Hi. Qed.
Lemma finish_end_word st : finish (end_word st) = finish st.
Proof. unfold finish. by rewrite end_word_idem. Qed.
Lemma end_word_add t q st :
  between st →
  end_word (add t q st) = mkShellState (st_segments st) (st_words st ++ [mkWord t q]) [] false false.
Proof. intros (_ & Hc & Hq). unfold end_word, add. simpl. by rewrite Hc, Hq. Qed.

Lemma blank_loop st c s :
  c ∈ BLANKS → shell_loop MPlain st (c :: s) = shell_loop MPlain (end_word st) s.
Proof. intros Hc. cbn [shell_loop]. by rewrite one_of_true. Qed.
Lemma and_loop st s :
  shell_loop MPlain st (AMP :: AMP :: s) =
  match st_words (end_word st) with
  | [] => None
  | _ :: _ => shell_loop MPlain (end_segment (end_word st)) s
  end.
Proof. done. Qed.

(** At a boundary the word may as well have ended. *)
Lemma boundary_loop st s :
  boundary s → finish <$> shell_loop MPlain st s = finish <$> shell_loop MPlain (end_word st) s.
Proof.
  intros [[->|(c & s' & -> & Hc)]|[s' ->]].
  - simpl. by rewrite finish_end_word.
  - by rewrite !blank_loop, end_word_idem.
  - by rewrite !and_loop, end_word_idem.
Qed.

Lemma merge_loop st s :
  between st → blank_or_end s → shell_loop MPlain st (chars "2>&1" ++ s) = shell_loop MPlain st s.
Proof.
  intros (Hi & Hc & Hq) Hs.
  transitivity (shell_loop MPlain (add (chars "2") false st) (GT :: AMP :: 49%N :: s)).
  { apply (piece_loop st [50%N] [50%N] false); [|by right].
    constructor. apply (bool_decide_unpack (50%N ∉ SPECIAL)). by vm_compute. }
  cbn [shell_loop]. rewrite one_of_false by (apply (bool_decide_unpack (GT ∉ BLANKS)); done).
  assert (at_merge (add (chars "2") false st) GT (AMP :: 49%N :: s) = true) as ->.
  { unfold at_merge, add. cbn [st_in_word st_quoted st_cur]. rewrite Hc, Hq.
    destruct Hs as [->|(c & s' & -> & Hbl)]; [by vm_compute|].
    unfold stderr_to_stdout_follows. rewrite (one_of_true [SPACE; TAB]) by done. by vm_compute. }
  f_equal. unfold clear_word, add. cbn. destruct st. simpl in *. by subst.
Qed.

Lemma rest_loop s ws segs : script_rest s ws segs → ∀ st, between st →
  Forall (λ ws, ws ≠ []) ((st_words st ++ ws) :: segs) →
  finish <$> shell_loop MPlain st s = Some (st_segments st ++ (st_words st ++ ws) :: segs).
Proof.
  induction 1 as [|c s ws segs Hc _ IH|s w s' ws segs Hw Hb Hr IH|s ws segs Hs _ IH|s ws segs _ IH];
    intros st Hst Hne.
  - simpl. unfold finish. by rewrite end_word_between, app_nil_r by done.
  - rewrite blank_loop, end_word_between by done. by apply IH.
  - destruct Hw as (Hs & Hh & Hp). rewrite (pieces_loop s (w_text w) (w_quoted w)) by (by right || done).
    rewrite boundary_loop, end_word_add by done. destruct w as [t q]. simpl.
    rewrite IH; [|done|]; simpl; rewrite <-app_assoc; done.
  - rewrite merge_loop by done. by apply IH.
  - rewrite and_loop, end_word_between by done. rewrite app_nil_r in *.
    apply Forall_cons in Hne as [Hw Hne]. destruct (st_words st) as [|w words] eqn:Ew; [done|].
    rewrite IH; [|by destruct Hst as (? & ? & ?)|done]. simpl. by rewrite Ew, <-app_assoc.
Qed.

(** ** The parser accepts nothing else *)

(** Whatever is read outside quotes and is not a blank, [&&] or [2>&1] begins
    a piece. *)
Lemma piece_inv st c cs r :
  shell_loop MPlain st (c :: cs) = Some r → c ∉ BLANKS → at_merge st c cs = false →
  ¬ (c = AMP ∧ head cs = Some AMP) →
  ∃ s t q rest, c :: cs = s ++ rest ∧ s ≠ [] ∧ piece s t q ∧ may_begin st s ∧
    shell_loop MPlain (add t q st) rest = Some r.
Proof.
  intros Hl Hbl Hmerge Hand. cbn [shell_loop] in Hl.
  rewrite one_of_false, Hmerge, bool_decide_eq_false_2 in Hl by done.
  destruct (one_of METACHARACTERS c) eqn:Em; [done|]. apply bool_decide_eq_false in Em.
  destruct (bool_decide (c = HASH) && negb (st_in_word st)) eqn:Eh; [done|].
  assert (∀ s, may_begin st (c :: s)) as Hbegin.
  { intros s. apply andb_false_iff in Eh as [Eh|Eh]; [right|left; by apply negb_false_iff].
    apply bool_decide_eq_false in Eh. simpl. congruence. }
  case_decide as Hb; [|case_decide as Hsq; [|case_decide as Hdq]].
  - subst c. destruct cs as [|c cs]; [done|]. cbn [shell_loop] in Hl.
    destruct (one_of [LF; CR] c) eqn:Ee; [done|]. apply bool_decide_eq_false in Ee.
    rewrite open_push in Hl. exists [BACKSLASH; c], [c], true, cs. split_and!; try done.
    by constructor.
  - subst c. apply single_quotes_inv in Hl as (s & rest & -> & Hs & Hl). rewrite push_open in Hl.
    exists (SQUOTE :: s ++ [SQUOTE]), s, true, rest. split_and!; try done; [|by constructor].
    by rewrite <-app_comm_cons, <-app_assoc.
  - subst c. apply double_quotes_inv in Hl as (s & t & rest & -> & Hs & Hl).
    rewrite push_open in Hl. exists (DQUOTE :: s ++ [DQUOTE]), t, true, rest.
    split_and!; try done; [|by constructor]. by rewrite <-app_comm_cons, <-app_assoc.
  - rewrite push_plain_add in Hl. exists [c], [c], false, cs. split_and!; try done.
    constructor. rewrite special_eq, !not_elem_of_app, !not_elem_of_cons.
    split_and!; auto using not_elem_of_nil.
Qed.

(** A merge is [2] followed by exactly [>&1] and a boundary. *)
Lemma at_merge_inv st c cs :
  at_merge st c cs = true →
  st_cur st = chars "2" ∧ st_quoted st = false ∧ ∃ s, c :: cs = GT :: AMP :: 49%N :: s ∧
  blank_or_end s ∧ shell_loop MPlain st (c :: cs) = shell_loop MPlain (clear_word st) s.
Proof.
  intros Hm. pose proof Hm as Hm'. unfold at_merge in Hm. rewrite !andb_true_iff in Hm.
  destruct Hm as ((((Hc & Hi) & Hq) & Hcur) & Hf).
  apply bool_decide_eq_true in Hc, Hcur. apply negb_true_iff in Hq. subst c.
  destruct cs as [|a [|o s]]; try done. cbn [stderr_to_stdout_follows] in Hf.
  rewrite !andb_true_iff in Hf. destruct Hf as ((Ha & Ho) & Hs).
  apply bool_decide_eq_true in Ha, Ho. subst. split_and!; try done. exists s. split_and!; try done.
  - destruct s as [|c s]; [by left|right]. exists c, s. split; [done|].
    by apply bool_decide_eq_true in Hs.
  - cbn [shell_loop]. rewrite one_of_false by (apply (bool_decide_unpack (GT ∉ BLANKS)); done).
    by rewrite Hm'.
Qed.

(** A word was begun. *)
Definition begun (st : ShellState) : Prop :=
  st_in_word st = true ∧ (st_quoted st = true ∨ st_cur st ≠ []).
Lemma begun_add s t q st : piece s t q → begun (add t q st).
Proof.
  intros Hp. split; [done|]. unfold add. simpl. destruct q; [left; apply orb_true_r|right].
  inversion Hp; subst. by destruct (st_cur st).
Qed.

(** How the run goes on from a place between words. *)
Definition reads_rest (st : ShellState) (cs : Chars) (r : ShellState) : Prop :=
  ∃ ws segs, script_rest cs ws segs ∧ finish r = st_segments st ++ (st_words st ++ ws) :: segs ∧
    Forall (λ ws, ws ≠ []) ((st_words st ++ ws) :: segs).
(** And from within a word: the word ends, or it is the [2] of a merge. *)
Definition reads_word (st : ShellState) (cs : Chars) (r : ShellState) : Prop :=
  (∃ s t q rest, cs = s ++ rest ∧ pieces s t q ∧ boundary rest ∧
     reads_rest (end_word (add t q st)) rest r) ∨
  (st_cur st = chars "2" ∧ st_quoted st = false ∧
   ∃ s, cs = GT :: AMP :: 49%N :: s ∧ blank_or_end s ∧ reads_rest (clear_word st) s r).

(** The state at a blank or at [&&]: between words if the word ends here. *)
Lemma reads_word_now st cs r :
  begun st → boundary cs → reads_rest (end_word st) cs r → reads_word st cs r.
Proof.
  intros [Hi _] Hb Hr. left. exists [], [], false, cs. split_and!; try done; [constructor|].
  assert (add [] false st = st) as ->; [|done].
  destruct st. unfold add. simpl in *. by rewrite app_nil_r, orb_false_r, Hi.
Qed.

Lemma add_add t q t' q' st : add t' q' (add t q st) = add (t ++ t') (q || q') st.
Proof. unfold add. simpl. by rewrite app_assoc, orb_assoc. Qed.
Lemma reads_rest_blank st c cs r : c ∈ BLANKS → reads_rest st cs r → reads_rest st (c :: cs) r.
Proof. intros Hc (ws & segs & Hr & ?). exists ws, segs. split; [by constructor|done]. Qed.
Lemma reads_rest_and st s r :
  st_words st ≠ [] → reads_rest (end_segment st) s r → reads_rest st (AMP :: AMP :: s) r.
Proof.
  intros Hw (ws & segs & Hr & Hf & Hne). simpl in Hf, Hne. exists [], (ws :: segs).
  rewrite app_nil_r. split_and!; [by constructor| |by constructor]. by rewrite Hf, <-app_assoc.
Qed.
Lemma reads_rest_word st s t q rest r :
  between st → s ≠ [] → head s ≠ Some HASH → pieces s t q → boundary rest →
  reads_rest (end_word (add t q st)) rest r → reads_rest st (s ++ rest) r.
Proof.
  intros Hst Hs Hh Hp Hb (ws & segs & Hr & Hf & Hne). rewrite end_word_add in Hf, Hne by done.
  simpl in Hf, Hne. rewrite <-app_assoc in Hf, Hne. exists (mkWord t q :: ws), segs.
  split_and!; [|done|done]. by apply rest_word.
Qed.

(** One more piece before the rest of a word. *)
Lemma reads_word_piece st s t q rest r :
  begun st → piece s t q → reads_word (add t q st) rest r → reads_word st (s ++ rest) r.
Proof.
  intros [Hi Hbeg] Hp [(s' & t' & q' & rest' & -> & Hps & Hb & Hr)|(Hc & Hq & _)].
  - left. exists (s ++ s'), (t ++ t'), (q || q'), rest'. rewrite add_add in Hr.
    split_and!; try done; [by rewrite app_assoc|by constructor].
  - exfalso. simpl in Hc, Hq. apply orb_false_iff in Hq as [Hq ->].
    destruct Hbeg as [?|Hne]; [congruence|]. inversion Hp; subst.
    destruct (st_cur st) as [|a [|]]; simplify_eq/=.
Qed.
Lemma reads_rest_piece st s t q rest r :
  between st → s ≠ [] → may_begin st s → piece s t q → reads_word (add t q st) rest r →
  reads_rest st (s ++ rest) r.
Proof.
  intros Hst Hs Hm Hp [(s' & t' & q' & rest' & -> & Hps & Hb & Hr)|(Hc & Hq & s' & -> & Hb & Hr)].
  - rewrite add_add in Hr. rewrite app_assoc. apply (reads_rest_word _ _ (t ++ t') (q || q')); try done.
    + by destruct s.
    + destruct Hm as [Hm|Hm]; [destruct Hst as [? _]; congruence|]. by destruct s.
    + by constructor.
  - simpl in Hc, Hq. destruct Hst as (Hi & Hcur & _). rewrite Hcur in Hc. simpl in Hc.
    apply orb_false_iff in Hq as [_ ->]. inversion Hp; subst.
    match goal with H : [_] = chars "2" |- _ => injection H as -> end.
    destruct Hr as (ws & segs & Hr & Hf & Hne). exists ws, segs. split_and!; [|done|done].
    by apply (rest_merge s').
Qed.

Lemma loop_reads n : ∀ cs st r, length cs < n → st_words (end_word r) ≠ [] →
  shell_loop MPlain st cs = Some r →
  (between st → reads_rest st cs r) ∧ (begun st → reads_word st cs r).
Proof.
  induction n as [|n IH]; intros cs st r Hlen Hlast Hl; [lia|].
  assert ((between st ∨ begun st → between (end_word st)) ∧
    (boundary cs → (between (end_word st) → reads_rest (end_word st) cs r) →
     (between st → reads_rest st cs r) ∧ (begun st → reads_word st cs r))) as [Hbt Hnow].
  { split.
    - intros [Hb|[Hi _]]; [by rewrite end_word_between|by apply between_end_word].
    - intros Hbo Hr. split; intros Hst.
      + rewrite <-(end_word_between st) by done. apply Hr. by rewrite end_word_between.
      + apply reads_word_now; [done|done|]. apply Hr, between_end_word, Hst. }
  destruct cs as [|c cs].
  { injection Hl as ->. apply Hnow; [by left; left|]. intros _. exists [], []. rewrite app_nil_r.
    split_and!; [constructor|done|by repeat constructor]. }
  simpl in Hlen. destruct (decide (c ∈ BLANKS)) as [Hbl|Hbl].
  { rewrite blank_loop in Hl by done. apply Hnow; [left; right; by exists c, cs|].
    intros Hb. apply reads_rest_blank; [done|]. apply (IH cs (end_word st)); [lia|done..]. }
  destruct (at_merge st c cs) eqn:Em.
  { pose proof Em as Em'. apply at_merge_inv in Em as (Hc & Hq & s & Heq & Hs & Heq').
    rewrite Heq' in Hl. split; intros Hst.
    - exfalso. destruct Hst as (_ & Hcur & _). by rewrite Hcur in Hc.
    - right. split_and!; try done. exists s. split_and!; try done.
      injection Heq as _ ->. apply (IH s (clear_word st)); [simpl in *; lia|done..]. }
  destruct (decide (c = AMP ∧ head cs = Some AMP)) as [[-> Hh]|Hand].
  { destruct cs as [|c cs]; [done|]. injection Hh as ->. rewrite and_loop in Hl.
    destruct (st_words (end_word st)) as [|w ws] eqn:Ew; [done|].
    apply Hnow; [right; by exists cs|]. intros Hb. apply reads_rest_and; [by rewrite Ew|].
    apply (IH cs (end_segment (end_word st))); [simpl in *; lia|done..]. }
  apply piece_inv in Hl as (s & t & q & rest & Heq & Hs & Hp & Hm & Hl); [|done..].
  assert (length rest < n) as Hrest.
  { assert (length (c :: cs) = length (s ++ rest)) as Hle by by rewrite Heq.
    rewrite length_app in Hle. destruct s; [done|]. simpl in *. lia. }
  destruct (IH rest (add t q st) r Hrest Hlast Hl) as [_ Hw].
  specialize (Hw (begun_add _ _ _ _ Hp)). rewrite Heq. split; intros Hst.
  - by apply (reads_rest_piece _ s t q).
  - by apply (reads_word_piece _ s t q).
Qed.

(** ** The parser *)

Lemma shell_segments_iff s segs : shell_segments s = Some segs ↔ script s segs.
Proof.
  unfold shell_segments, script.
  assert (existsb odd_space s = false ↔ Forall (λ c, odd_space c = false) s) as Hodd.
  { rewrite <-not_true_iff_false, existsb_exists, Forall_forall.
    setoid_rewrite <-list_elem_of_In. split.
    - intros Hno c Hc. apply not_true_iff_false. eauto.
    - intros Hall (c & Hc & Ho). rewrite Hall in Ho; done. }
  destruct (existsb odd_space s).
  { split; [done|]. intros [Ho _]. by apply Hodd in Ho. }
  split.
  - intros Hs. split; [by apply Hodd|].
    destruct (shell_loop MPlain start_state s) as [r|] eqn:El; [|done]. simpl in Hs.
    destruct (st_words (end_word r)) as [|w ws] eqn:Ew; [done|].
    destruct (loop_reads (S (length s)) s start_state r) as [Hr _]; [lia|by rewrite Ew|done|].
    destruct Hr as (ws' & segs' & Hr & Hf & Hne); [done|]. exists ws', segs'.
    unfold finish in Hf. rewrite Ew in Hf. simpl in Hf, Hne. injection Hs as <-. by rewrite Hf.
  - intros (_ & ws & rest & Hr & -> & Hne).
    pose proof (rest_loop _ _ _ Hr start_state ltac:(done) Hne) as Hl.
    destruct (shell_loop MPlain start_state s) as [r|]; [|done]. simpl in Hl. injection Hl as Hl.
    simpl. unfold finish in Hl.
    assert (st_words (end_word r) ≠ []) as Hw.
    { rewrite <-Hl in Hne. by apply Forall_app in Hne as [_ [? _]%Forall_cons]. }
    destruct (st_words (end_word r)); [done|]. by rewrite Hl.
Qed.

(** ** Quoting *)

(** A word in single quotes; a quote in it is left, escaped and entered
    again. *)
Definition shell_quote (t : Chars) : Chars :=
  SQUOTE :: (t ≫= (λ c, if decide (c = SQUOTE) then [SQUOTE; BACKSLASH; SQUOTE; SQUOTE] else [c]))
    ++ [SQUOTE].
Definition quote_command (words : list Chars) : Chars := join [SPACE] (shell_quote <$> words).
Definition quote_script (commands : list (list Chars)) : Chars :=
  join [SPACE; AMP; AMP; SPACE] (quote_command <$> commands).
Definition as_quoted (t : Chars) : Word := mkWord t true.
Definition quoted_words (words : list Chars) : list Word := as_quoted <$> words.

Lemma quote_pieces t :
  ∃ q, pieces (shell_quote t) t q ∧ q = true.
Proof.
  exists true. split; [|done].
  (* the text up to the first quote is one piece *)
  assert (∀ pre, SQUOTE ∉ pre → pieces (SQUOTE :: pre ++ (t ≫= (λ c, if decide (c = SQUOTE)
    then [SQUOTE; BACKSLASH; SQUOTE; SQUOTE] else [c])) ++ [SQUOTE]) (pre ++ t) true) as Hgen.
  2:{ apply (Hgen []). apply not_elem_of_nil. }
  induction t as [|c t IH]; intros pre Hpre; cbn [mbind list_bind].
  - rewrite app_nil_l, app_nil_r.
    pose proof (pieces_cons _ _ _ _ _ _ (piece_single pre Hpre) pieces_nil) as Hp.
    by rewrite !app_nil_r in Hp.
  - case_decide as Hc.
    + subst c.
      pose proof (pieces_cons _ _ _ _ _ _ (piece_single pre Hpre)
        (pieces_cons _ _ _ _ _ _ (piece_escape SQUOTE
          ltac:(apply (bool_decide_unpack (SQUOTE ∉ [LF; CR])); done)) (IH [] (not_elem_of_nil _))))
        as Hp.
      simpl in Hp. rewrite <-!app_assoc in Hp. exact Hp.
    + specialize (IH (pre ++ [c])). rewrite <-!app_assoc in IH. apply IH.
      rewrite not_elem_of_app, not_elem_of_cons. auto using not_elem_of_nil.
Qed.
Lemma quote_word_source t : word_source (shell_quote t) (as_quoted t).
Proof.
  split_and!; [done|done|]. destruct (quote_pieces t) as (q & Hp & ->). exact Hp.
Qed.

(** The words of a command, then the rest of the script at a boundary. *)
Lemma quote_command_rest words s segs :
  words ≠ [] → boundary s → script_rest s [] segs →
  script_rest (quote_command words ++ s) (quoted_words words) segs.
Proof.
  intros Hne Hb Hs. unfold quote_command.
  induction words as [|t words IH]; [done|]. destruct words as [|t' words].
  - apply rest_word; [apply quote_word_source|done|done].
  - change (join [SPACE] (shell_quote <$> t :: t' :: words)) with
      (shell_quote t ++ [SPACE] ++ join [SPACE] (shell_quote <$> t' :: words)).
    rewrite <-app_assoc. apply rest_word; [apply quote_word_source|left; right|].
    + eexists _, _. split; [reflexivity|by left].
    + rewrite <-app_assoc. apply rest_blank; [by left|]. by apply IH.
Qed.
Lemma quote_script_rest commands :
  Forall (λ ws, ws ≠ []) commands → commands ≠ [] →
  ∃ ws rest, script_rest (quote_script commands) ws rest ∧
    ws :: rest = quoted_words <$> commands.
Proof.
  unfold quote_script. induction 1 as [|words commands Hw Hws IH]; intros Hne; [done|].
  destruct commands as [|words' commands].
  - exists (quoted_words words), []. split; [|done]. simpl.
    rewrite <-(app_nil_r (quote_command words)). apply quote_command_rest; [done|by left; left|].
    constructor.
  - destruct IH as (ws & rest & Hr & Heq); [done|].
    exists (quoted_words words), (ws :: rest). split; [|by rewrite Heq].
    change (join _ (quote_command <$> words :: words' :: commands)) with
      (quote_command words ++ [SPACE; AMP; AMP; SPACE] ++
       join [SPACE; AMP; AMP; SPACE] (quote_command <$> words' :: commands)).
    apply quote_command_rest; [done|left; right; by eexists _, _; split; [|by left]|].
    apply rest_blank; [by left|]. cbn [app]. apply rest_and. apply rest_blank; [by left|]. exact Hr.
Qed.

Lemma join_Forall (P : Char → Prop) sep parts :
  Forall P sep → Forall (Forall P) parts → Forall P (join sep parts).
Proof.
  intros Hsep. induction 1 as [|p parts Hp Hps IH]; [constructor|].
  destruct parts as [|p' parts]; [done|].
  change (join sep (p :: p' :: parts)) with (p ++ sep ++ join sep (p' :: parts)).
  rewrite !Forall_app. auto.
Qed.
Lemma quote_not_odd t :
  Forall (λ c, odd_space c = false) t → Forall (λ c, odd_space c = false) (shell_quote t).
Proof.
  intros Ht. unfold shell_quote. apply Forall_cons. split; [done|]. apply Forall_app.
  split; [|by repeat constructor]. induction Ht as [|c t Hc _ IH]; [constructor|].
  cbn [mbind list_bind]. apply Forall_app. split; [|done]. case_decide; by repeat constructor.
Qed.

(** C32. The shell parser accepts exactly the scripts of the grammar, lists of
    simple commands joined by [&&] whose words are plain or quoted text
    without expansions, redirections other than [2>&1], comments or other
    metacharacters, and returns their words; and a list of commands whose
    words are written in single quotes is read back as those words. *)
Theorem shell_parser_exact s segs commands :
  (shell_segments s = Some segs ↔ script s segs) ∧
  (commands ≠ [] → Forall (λ words, words ≠ []) commands →
   Forall (Forall (Forall (λ c, odd_space c = false))) commands →
   shell_segments (quote_script commands) = Some (quoted_words <$> commands)).
Proof.
  split; [apply shell_segments_iff|]. intros Hne Hws Hodd. apply shell_segments_iff.
  destruct (quote_script_rest commands Hws Hne) as (ws & rest & Hr & Heq). split.
  - apply join_Forall; [by repeat constructor|]. apply Forall_fmap.
    eapply Forall_impl; [exact Hodd|]. intros words Hw. apply join_Forall; [by repeat constructor|].
    apply Forall_fmap. eapply Forall_impl; [exact Hw|]. apply quote_not_odd.
  - exists ws, rest. split_and!; [done|done|]. apply Forall_fmap.
    eapply Forall_impl; [exact Hws|]. intros [|t words] Hw; [done|]. by unfold quoted_words.
Qed.
