(* ===== verification/Runner.v ===== *)
(** * Test runners and command binding

    The second half of [fornax-verify/src/runner_command.rs]: which simple
    commands run tests, which runner's output can be attributed, how an
    observed command relates to the command a claim names, and which claimed
    commands are test commands. *)

From S2P Require Import Prelude.
From S2P Require Import Types.
From S2P Require Import Text.
From S2P Require Import Shell.

Local Open Scope fornax_scope.

(** The Unicode tables of the standard library: [str::to_lowercase],
    [char::to_lowercase] and [char::is_alphanumeric]. *)
Class UnicodeTables := {
  to_lowercase : Chars → Chars;
  char_to_lowercase : Char → Chars;
  is_alphanumeric : Char → bool;
}.
(** [char::to_ascii_lowercase]. *)
Definition ascii_lower (c : Char) : Char := if is_ascii_uppercase c then (c + 32)%N else c.

(** ** Flags after which a runner runs no test *)

Definition NON_EXECUTING_LONG_FLAGS : list string :=
  ["--collect-only"; "--help"; "--version"; "--no-run"; "--list"; "--listTests";
   "--passWithNoTests"; "--dry-run"; "--fixtures"; "--fixtures-per-test"; "--markers";
   "--setup-plan"; "--setup-only"; "--showConfig"; "--collectonly"; "--setupplan"; "--setuponly";
   "--funcargs"; "--changedFilesWithAncestor"; "--cache-show"; "--override-ini"; "--clearCache";
   "--init"; "--onlyChanged"; "--changedSince"; "--lastCommit"; "--findRelatedTests"; "--changed";
   "--if-present"; "--no-tests"].
Definition NON_EXECUTING_SHORT_FLAGS : list string := ["-h"; "-V"; "-o"].

Section runner.
Context `{UnicodeTables}.

Definition normalize_flag (flag : Chars) : Chars :=
  filter (λ c, one_of [DASH; 95%N] c = false) flag ≫= char_to_lowercase.

Definition is_non_executing_flag (arg : Chars) : bool :=
  let stops := one_of (chars "ohV") in
  if is_one_of NON_EXECUTING_SHORT_FLAGS arg then true
  else
    let short := drop 1 arg in
    if starts_with (chars "-") arg && negb (starts_with (chars "--") arg) &&
       (match short with c :: _ => stops c | [] => false end ||
        bool_decide (1 < length short) && forallb is_ascii_alphabetic short && existsb stops short)
    then true
    else
      let base := match split_once EQUALS arg with Some (flag, _) => flag | None => arg end in
      if negb (starts_with (chars "--") base) then false
      else
        let base := normalize_flag base in
        bool_decide (2 ≤ str_len base) &&
        existsb (λ flag, starts_with base (normalize_flag (chars flag))) NON_EXECUTING_LONG_FLAGS.

(** ** Runners *)

Inductive RunnerKind := RunPytest | RunCargo | RunOther.
#[local] Instance RunnerKind_eq_dec : EqDecision RunnerKind.
Proof. solve_decision. Defined.

(** [strip_prefix]. *)
Fixpoint strip_prefix (p cs : Chars) : option Chars :=
  match p, cs with
  | [], _ => Some cs
  | a :: p, c :: cs => if decide (a = c) then strip_prefix p cs else None
  | _ :: _, [] => None
  end.

Definition is_python (name : Chars) : bool :=
  match strip_prefix (chars "python") name with
  | Some v => forallb (λ c, is_ascii_digit c || bool_decide (c = 46%N)) v
  | None => false
  end.

(** The arguments begin with these literals. *)
Fixpoint args_start (lits : list string) (args : list Chars) : bool :=
  match lits, args with
  | [], _ => true
  | l :: lits, a :: args => bool_decide (a = chars l) && args_start lits args
  | _ :: _, [] => false
  end.

Definition LAUNCHER_VALUELESS_FLAGS : list string :=
  ["--yes"; "-y"; "--no-install"; "--frozen"; "--locked"; "--isolated"; "--no-sync"; "--"].

Definition cargo_tail (tail : list Chars) : list Chars :=
  match tail with
  | t :: rest => if starts_with (chars "+") t then rest else tail
  | [] => tail
  end.

(** The arms of the match in [runner_invocation] that are not launchers. *)
Definition direct_kind (name : Chars) (tail : list Chars) : option RunnerKind :=
  let when (b : bool) k : option RunnerKind := if b then Some k else None in
  if is_one_of ["pytest"; "py.test"] name then Some RunPytest
  else if is_one_of ["vitest"; "jest"] name then
    when (negb (match tail with t :: _ => is_one_of ["list"; "init"; "bench"] t | [] => false end)
          && negb (bool_decide (chars "-v" ∈ tail))) RunOther
  else if is_python name then when (args_start ["-m"; "pytest"] tail) RunPytest
  else if is_one_of ["cargo"] name then
    if args_start ["test"] (cargo_tail tail) then Some RunCargo
    else when (args_start ["nextest"; "run"] (cargo_tail tail)) RunOther
  else if is_one_of ["npm"] name then when (args_start ["test"] tail) RunOther
  else None.

(** [launched] handles the launchers, when they are allowed. *)
Definition runner_invocation_with (launched : option (list Chars → option RunnerKind))
    (args : list Chars) : option RunnerKind :=
  match args with
  | [] => None
  | program :: tail =>
      let name := basename program in
      let direct :=
        kind ← direct_kind name tail;
        if existsb is_non_executing_flag tail then None else Some kind in
      match launched with
      | None => direct
      | Some launched =>
          if is_one_of ["npx"; "pnpx"; "bunx"] name then launched tail
          else if is_one_of ["uv"; "poetry"] name then
            if args_start ["run"] tail then launched (drop 1 tail) else None
          else if is_one_of ["pnpm"] name then
            if args_start ["exec"] tail then launched (drop 1 tail) else None
          else direct
      end
  end.

(** Skips the launcher's value-less flags; any other flag may take a value. *)
Fixpoint launched_runner (args : list Chars) : option RunnerKind :=
  match args with
  | [] => runner_invocation_with None []
  | arg :: rest =>
      if starts_with (chars "-") arg then
        if is_one_of LAUNCHER_VALUELESS_FLAGS arg then launched_runner rest else None
      else runner_invocation_with None args
  end.
Definition runner_invocation (args : list Chars) : option RunnerKind :=
  runner_invocation_with (Some launched_runner) args.

(** Which runner a simple command executes: any assignment that is not benign
    refuses it. *)
Fixpoint classify_segment (words : list Word) : option RunnerKind :=
  match words with
  | [] => runner_invocation []
  | first :: rest =>
      match assignment_name first with
      | Some name => if is_one_of BENIGN_ASSIGNMENTS name then classify_segment rest else None
      | None => runner_invocation (w_text <$> words)
      end
  end.
Definition simple_command_runs_tests (words : list Word) : bool :=
  bool_decide (is_Some (classify_segment words)).

Definition SHELL_STATE_BUILTINS : list string :=
  ["exit"; "logout"; "exec"; "return"; "break"; "continue"; "source"; "."; "eval"; "export"; "hash";
   "rehash"; "alias"; "unalias"; "set"; "setopt"; "unsetopt"; "emulate"; "enable"; "declare";
   "typeset"; "integer"; "readonly"; "local"; "unset"; "function"; "autoload"; "trap"; "shopt";
   "builtin"; "command"; "kill"; "wait"; "disown"; "pushd"; "popd"; "path"; "printf"; "read";
   "mapfile"; "readarray"; "let"; "getopts"; "ulimit"; "umask"].

(** An assignment-only segment, or one led by a builtin. *)
Fixpoint changes_shell_state (words : list Word) : bool :=
  match words with
  | [] => true
  | w :: rest =>
      match assignment_name w with
      | Some _ => changes_shell_state rest
      | None => is_one_of SHELL_STATE_BUILTINS (w_text w)
      end
  end.

Definition is_test_run (command : option Value) (exit_code : option Z) : bool :=
  match command_segments command with
  | None => false
  | Some [only] => simple_command_runs_tests only
  | Some segments =>
      bool_decide (exit_code = Some 0%Z) && negb (existsb changes_shell_state segments) &&
      existsb simple_command_runs_tests segments
  end.

(** One runner step, and every other step a silent [cd]. *)
Fixpoint proven_loop (runner : option RunnerKind) (segments : list (list Word)) :
    option (option RunnerKind) :=
  match segments with
  | [] => Some runner
  | segment :: segments =>
      match classify_segment segment with
      | Some kind =>
          match runner with Some _ => None | None => proven_loop (Some kind) segments end
      | None => if is_plain_cd segment then proven_loop runner segments else None
      end
  end.
Definition proven_runner (command : option Value) : option RunnerKind :=
  segments ← command_segments command;
  runner ← proven_loop None segments;
  kind ← runner;
  if decide (kind = RunOther) then None else Some kind.

(** ** Binding *)

Inductive CommandBinding := BindExact | BindPrefix | BindMentioned | NotBound.
#[local] Instance CommandBinding_eq_dec : EqDecision CommandBinding.
Proof. solve_decision. Defined.
Inductive Fit := FitExact | FitClose | FitNo.

Definition claim_command_parses (literal : Chars) : bool :=
  match shell_segments literal with
  | Some segments =>
      bool_decide (segments ≠ []) && forallb (λ s, bool_decide (core s ≠ [])) segments
  | None => false
  end.

(** [windows(2)] on the sorted names: two equal neighbours. *)
Definition assignments_fit (claim_seg observed_seg : list Word) : bool :=
  let observed := leading_assignments observed_seg in
  let names := fst <$> omap (split_once EQUALS) observed in
  bool_decide (NoDup names) &&
  forallb (λ a, bool_decide (a ∈ observed)) (leading_assignments claim_seg).

Definition word_matches (claimed observed : Word) : bool :=
  if decide (w_text claimed ≠ w_text observed) then false
  else if decide (w_quoted claimed = w_quoted observed) then true
  else
    let unquoted := if w_quoted claimed then observed else claimed in
    negb (existsb (one_of (chars "*?[]~{}")) (w_text unquoted)).

Definition words_match (claimed observed : list Word) : bool :=
  forallb (λ p, word_matches p.1 p.2) (zip claimed observed).

Definition program_fit (claimed observed : Chars) : Fit :=
  if decide (claimed = observed) then FitExact
  else if negb (one_of claimed SLASH) && starts_with (chars "/") observed &&
          bool_decide (basename observed = claimed)
  then FitClose else FitNo.

Definition compare_segments (claimed_seg observed_seg : list Word) : Fit :=
  match core claimed_seg, core observed_seg with
  | c :: claimed, o :: observed =>
      if assignments_fit claimed_seg observed_seg &&
         bool_decide (length claimed = length observed) && words_match claimed observed
      then program_fit (w_text c) (w_text o) else FitNo
  | _, _ => FitNo
  end.

(** The claim may be a strict prefix of the observed arguments. *)
Definition compare_prefix (claimed_seg observed_seg : list Word) : Fit :=
  match core claimed_seg, core observed_seg with
  | c :: claimed, o :: observed =>
      if assignments_fit claimed_seg observed_seg &&
         bool_decide (length claimed ≤ length observed) && words_match claimed observed
      then
        match program_fit (w_text c) (w_text o) with
        | FitNo => FitNo
        | fit => if decide (length claimed < length observed) then FitClose else fit
        end
      else FitNo
  | _, _ => FitNo
  end.

(** [str::trim]. *)
Fixpoint trim_start (cs : Chars) : Chars :=
  match cs with
  | c :: rest => if is_whitespace c then trim_start rest else cs
  | [] => []
  end.
Definition trim_chars (cs : Chars) : Chars := reverse (trim_start (reverse (trim_start cs))).

(** The occurrences of the needle from left to right; [prev] is the character
    before the rest. *)
Fixpoint mention_scan (needle : Chars) (prev : option Char) (cs : Chars) : bool :=
  let is_left_word c := is_alphanumeric c || one_of (chars "_-.") c in
  let is_word c := is_left_word c || bool_decide (c = SLASH) in
  let before_ok := match prev with Some c => negb (is_left_word c) | None => true end in
  let after_ok :=
    match drop (length needle) cs with c :: _ => negb (is_word c) | [] => true end in
  (starts_with needle cs && before_ok && after_ok) ||
  match cs with [] => false | c :: cs => mention_scan needle (Some c) cs end.

Definition mention_or_not (claimed evidence_text_lower : Chars) : CommandBinding :=
  let needle := to_lowercase (trim_chars claimed) in
  if decide (needle = []) then NotBound
  else if mention_scan needle None evidence_text_lower then BindMentioned else NotBound.

(** The verdict of the step-for-step comparison, when the lengths agree. *)
Fixpoint compare_all (claim observed : list (list Word)) : Fit :=
  match claim, observed with
  | c :: claim, o :: observed =>
      match compare_segments c o, compare_all claim observed with
      | FitNo, _ | _, FitNo => FitNo
      | FitExact, FitExact => FitExact
      | _, _ => FitClose
      end
  | _, _ => FitExact
  end.

(** The observed steps that a single claimed command may be a run of. *)
Definition candidate_runs (exit_zero_reliable : bool) (evidence : list (list Word)) :
    list (list Word) :=
  match evidence with
  | [only] => [only]
  | _ =>
      let others := filter (λ s, is_plain_cd s = false) evidence in
      if exit_zero_reliable && bool_decide (1 < length evidence) &&
         bool_decide (length others = 1)
      then others else []
  end.

Definition bind_single (claimed : Chars) (claim_segments evidence_segments : list (list Word))
    (evidence_text_lower : Chars) (exit_zero_reliable : bool) : CommandBinding :=
  match claim_segments, candidate_runs exit_zero_reliable evidence_segments with
  | [claim], [observed] =>
      match compare_prefix claim observed with
      | FitExact => if decide (length evidence_segments = 1) then BindExact else BindPrefix
      | FitClose => BindPrefix
      | FitNo => mention_or_not claimed evidence_text_lower
      end
  | _, _ => mention_or_not claimed evidence_text_lower
  end.

Definition bind_command (claimed : Chars) (evidence : option Value) (evidence_text_lower : Chars)
    (exit_zero_reliable : bool) : CommandBinding :=
  match shell_segments claimed with
  | None => NotBound
  | Some claim_segments =>
      match command_segments evidence with
      | None => mention_or_not claimed evidence_text_lower
      | Some evidence_segments =>
          let single :=
            bind_single claimed claim_segments evidence_segments evidence_text_lower
              exit_zero_reliable in
          if decide (length claim_segments = length evidence_segments) then
            match compare_all claim_segments evidence_segments with
            | FitExact => BindExact
            | FitClose => BindPrefix
            | FitNo => single
            end
          else single
      end
  end.

(** ** Test commands *)

Definition TEST_SUBCOMMAND_PROGRAMS : list string :=
  ["go"; "mvn"; "mvnw"; "gradle"; "gradlew"; "dotnet"; "deno"; "bun"; "swift"; "mix"; "bazel";
   "bazelisk"; "make"; "gmake"; "just"; "rake"; "sbt"; "flutter"; "dart"; "yarn"; "pnpm"; "npm";
   "composer"; "lein"; "stack"; "cabal"; "turbo"; "nx"; "lerna"; "task"; "poe"; "playwright"].
Definition STANDALONE_TEST_PROGRAMS : list string :=
  ["rspec"; "phpunit"; "ctest"; "mocha"; "ava"; "nose2"; "behave"; "karma"; "jasmine"; "pest";
   "pytest"; "py.test"; "jest"; "vitest"; "bats"; "ginkgo"; "gotestsum"].
Definition SUITE_RUNNING_TARGETS : list (string * list string) :=
  [("mvn", ["verify"; "install"; "package"]); ("mvnw", ["verify"; "install"; "package"]);
   ("gradle", ["check"; "build"]); ("gradlew", ["check"; "build"]);
   ("make", ["check"; "verify"; "ci"]); ("gmake", ["check"; "verify"; "ci"]);
   ("just", ["check"; "verify"; "ci"])].
Definition PACKAGE_TOOLS : list string :=
  ["go"; "dart"; "flutter"; "dotnet"; "yarn"; "pnpm"; "npm"; "bun"; "composer"; "deno"; "swift";
   "mix"; "lein"; "stack"; "cabal"].
Definition NON_TEST_VERBS : list string :=
  ["add"; "install"; "i"; "remove"; "rm"; "uninstall"; "get"; "new"; "init"; "help"; "doc"; "build";
   "list"; "outdated"; "update"; "upgrade"; "publish"; "pack"].
Definition PUB_NON_TEST_VERBS : list string :=
  ["add"; "get"; "remove"; "deps"; "upgrade"; "downgrade"; "outdated"; "publish"].
Definition WRAPPER_PROGRAMS : list string :=
  ["time"; "timeout"; "env"; "nice"; "nohup"; "sudo"; "command"; "exec"; "stdbuf"; "ionice";
   "setsid"; "caffeinate"; "arch"; "doas"; "xcrun"; "flock"; "unbuffer"; "taskset"].
Definition NON_TEST_ENVS : list string :=
  ["lint"; "format"; "fmt"; "docs"; "doc"; "type"; "types"; "mypy"; "ruff"; "flake8"; "black";
   "isort"; "style"; "pylint"; "clippy"].

(** The non-empty suffixes, longest first. *)
Fixpoint suffixes {A} (l : list A) : list (list A) :=
  match l with [] => [] | _ :: rest => l :: suffixes rest end.
(** What follows the first element that satisfies the test. *)
Fixpoint after_first {A} (P : A → bool) (l : list A) : option (list A) :=
  match l with
  | [] => None
  | x :: l => if P x then Some l else after_first P l
  end.
Fixpoint skip_while {A} (P : A → bool) (l : list A) : list A :=
  match l with [] => [] | x :: rest => if P x then skip_while P rest else l end.
(** [str::split(',')]. *)
Fixpoint split_on (d : Char) (cur cs : Chars) : list Chars :=
  match cs with
  | [] => [cur]
  | c :: cs => if decide (c = d) then cur :: split_on d [] cs else split_on d (cur ++ [c]) cs
  end.

Definition starts_test (a : Chars) : bool := starts_with (chars "test") a.

Definition manages_packages (tail : list Chars) : bool :=
  match tail with
  | [] => false
  | verb :: rest =>
      if decide (verb = chars "pub")
      then match rest with v :: _ => is_one_of PUB_NON_TEST_VERBS v | [] => false end
      else is_one_of NON_TEST_VERBS verb
  end.

(** The programs with a [test] subcommand, past the package tools and
    [pnpm exec]. *)
Definition subcommand_tests (name : Chars) (tail : list Chars) : bool :=
  existsb (is_one_of ["test"; "tests"]) tail
  || (is_one_of ["yarn"; "pnpm"; "make"; "gmake"; "just"; "rake"; "task"; "poe"] name
      && existsb starts_test tail)
  || (is_one_of ["npm"; "yarn"; "pnpm"; "bun"] name &&
      match after_first (is_one_of ["run"; "run-script"]) tail with
      | Some rest => existsb starts_test rest
      | None => false
      end)
  || (is_one_of ["npm"] name &&
      match tail with
      | a :: _ => is_one_of ["t"; "install-test"; "it"; "cit"; "install-ci-test"] a
      | [] => false
      end)
  || existsb (λ target, bool_decide (chars target.1 = name) && existsb (is_one_of target.2) tail)
       SUITE_RUNNING_TARGETS.

(** [tox] and [nox]: no environment is named, or one that is not plainly
    without tests. *)
Fixpoint named_envs (tail : list Chars) : list Chars :=
  match tail with
  | flag :: ((env :: _) as rest) =>
      if is_one_of ["-e"; "-s"; "--session"] flag then env :: named_envs rest
      else named_envs rest
  | _ => []
  end.
Definition env_tests (tail : list Chars) : bool :=
  bool_decide (named_envs tail = []) ||
  existsb (λ e, negb (forallb (is_one_of NON_TEST_ENVS) (split_on 44 [] e))) (named_envs tail).

Definition launched_args (name : Chars) (tail : list Chars) : option (list Chars) :=
  if is_one_of ["uv"; "poetry"; "pdm"; "hatch"; "rye"] name && args_start ["run"] tail
  then Some (drop 1 tail)
  else if is_one_of ["bundle"] name && args_start ["exec"] tail then Some (drop 1 tail)
  else if is_one_of ["npx"; "pnpx"; "bunx"] name then Some tail
  else if is_one_of ["pnpm"] name && args_start ["exec"] tail then Some (drop 1 tail)
  else None.

(** Leading assignments of any kind. *)
Definition is_assignment (a : Chars) : bool :=
  match split_once EQUALS a with Some (n, _) => is_name n | None => false end.

(** [known_test_args] at the depth [5 - levels]: past four wrappers the
    command counts as a test command. *)
Fixpoint known_test_args (levels : nat) (args : list Chars) : bool :=
  match levels with
  | O => true
  | S levels =>
      let suffix_is_test_command args :=
        bool_decide (is_Some (classify_segment ((λ t, mkWord t false) <$> args))) ||
        known_test_args levels args in
      match skip_while is_assignment args with
      | [] => false
      | program :: tail =>
          let name := basename program in
          if is_shell name then
            match tail with
            | [flag; script] =>
                is_shell_command_flag flag &&
                match shell_segments script with
                | Some segments =>
                    existsb (λ segment, known_test_args levels (w_text <$> segment) ||
                                        bool_decide (is_Some (classify_segment (core segment))))
                      segments
                | None => false
                end
            | _ => false
            end
          else if is_one_of WRAPPER_PROGRAMS name
          then existsb suffix_is_test_command (suffixes tail)
          else if is_one_of TEST_SUBCOMMAND_PROGRAMS name then
            if is_one_of PACKAGE_TOOLS name && manages_packages tail then false
            else
              (is_one_of ["pnpm"] name &&
               match after_first (is_one_of ["exec"]) tail with
               | Some rest => existsb suffix_is_test_command (suffixes rest)
               | None => false
               end) || subcommand_tests name tail
          else if is_one_of STANDALONE_TEST_PROGRAMS name then true
          else if is_one_of ["node"] name then bool_decide (chars "--test" ∈ tail)
          else if is_one_of ["tox"; "nox"] name then env_tests tail
          else if is_python name
          then args_start ["-m"; "unittest"] tail || args_start ["-m"; "nose2"] tail
          else
            match launched_args name tail with
            | Some rest =>
                let rest := skip_while (starts_with (chars "-")) rest in
                if is_one_of ["uv"; "poetry"; "pdm"; "hatch"; "rye"] name &&
                   match rest with a :: _ => starts_test a | [] => false end
                then true
                else known_test_args levels rest
            | None => false
            end
      end
  end.

(** The depth the code starts with is 0, and it gives up past 4. *)
Definition MAX_WRAPPING : nat := 5.

Definition known_test_command (words : list Word) : bool :=
  known_test_args MAX_WRAPPING (w_text <$> words).

Definition names_test_command (literal : Chars) : bool :=
  match shell_segments literal with
  | Some segments =>
      existsb (λ segment, bool_decide (is_Some (classify_segment (core segment))) ||
                          known_test_command (core segment)) segments
  | None => false
  end.
End runner.
