(* ===== verification/RunnerSpec.v ===== *)
(** * What the command classification guarantees

    When an observed command is the claimed one step for step, when a runner's
    output can be attributed to it, and that wrapping a test command leaves it
    one. *)

From S2P Require Import Prelude.
From S2P Require Import Types.
From S2P Require Import Text.
From S2P Require Import Shell.
From S2P Require Import Runner.

Local Open Scope fornax_scope.

Section runner_spec.
Context `{UnicodeTables}.

(** ** Exact binding *)

(** One step is a run of the other: the same program and arguments after the
    benign assignments, of which the claim's are among the observed ones and
    none is assigned twice. *)
Definition same_step (claimed observed : list Word) : Prop :=
  ∃ c cs o os, core claimed = c :: cs ∧ core observed = o :: os ∧ w_text c = w_text o ∧
    Forall2 (λ x y, word_matches x y = true) cs os ∧
    (∀ a, a ∈ leading_assignments claimed → a ∈ leading_assignments observed) ∧
    NoDup (fst <$> omap (split_once EQUALS) (leading_assignments observed)).

Lemma words_match_iff cs os :
  length cs = length os → words_match cs os = true ↔ Forall2 (λ x y, word_matches x y = true) cs os.
Proof.
  revert os. induction cs as [|c cs IH]; intros [|o os] Hlen; simplify_eq/=; [done|].
  unfold words_match in *. simpl. rewrite andb_true_iff, IH by lia. split.
  - intros []. by constructor.
  - by inversion 1.
Qed.

Lemma assignments_fit_iff claimed observed :
  assignments_fit claimed observed = true ↔
  (∀ a, a ∈ leading_assignments claimed → a ∈ leading_assignments observed) ∧
  NoDup (fst <$> omap (split_once EQUALS) (leading_assignments observed)).
Proof.
  unfold assignments_fit. rewrite andb_true_iff, bool_decide_eq_true, forallb_forall.
  setoid_rewrite bool_decide_eq_true. setoid_rewrite <-list_elem_of_In. tauto.
Qed.

Lemma program_fit_exact c o : program_fit c o = FitExact ↔ c = o.
Proof. unfold program_fit. case_decide; [done|]. by case_match. Qed.

Lemma compare_exact_iff claimed observed :
  compare_segments claimed observed = FitExact ↔ same_step claimed observed.
Proof.
  unfold compare_segments, same_step.
  destruct (core claimed) as [|c cs] eqn:Ec.
  { split; [done|]. by intros (? & ? & ? & ? & ? & _). }
  destruct (core observed) as [|o os] eqn:Eo.
  { split; [done|]. by intros (? & ? & ? & ? & _ & ? & _). }
  destruct (assignments_fit claimed observed) eqn:Ea; simpl.
  2:{ split; [done|]. intros (? & ? & ? & ? & _ & _ & _ & _ & Hfit).
      apply assignments_fit_iff in Hfit. congruence. }
  apply assignments_fit_iff in Ea as [Hsub Hnd].
  case_bool_decide as Hlen; simpl.
  2:{ split; [done|]. intros (? & ? & ? & ? & [= <- <-] & [= <- <-] & _ & Hm & _).
      by apply Forall2_length in Hm. }
  pose proof (words_match_iff cs os Hlen) as Hw.
  destruct (words_match cs os); simpl.
  - rewrite program_fit_exact. split.
    + intros ?. exists c, cs, o, os. split_and!; try done. by apply Hw.
    + by intros (? & ? & ? & ? & [= <- <-] & [= <- <-] & ? & _).
  - split; [done|]. intros (? & ? & ? & ? & [= <- <-] & [= <- <-] & _ & Hm & _).
    by apply Hw in Hm.
Qed.

Lemma compare_prefix_exact claimed observed :
  compare_prefix claimed observed = FitExact → compare_segments claimed observed = FitExact.
Proof.
  unfold compare_prefix, compare_segments.
  destruct (core claimed) as [|c cs], (core observed) as [|o os]; try done.
  destruct (assignments_fit _ _); [|done]. simpl.
  case_bool_decide; [|done]. simpl. destruct (words_match cs os) eqn:Ew; [|done].
  destruct (program_fit _ _) eqn:Ep; [| |done]; (case_decide; [done|]); [|done].
  intros _. rewrite bool_decide_true by lia. done.
Qed.

Lemma compare_all_exact claim observed :
  length claim = length observed →
  compare_all claim observed = FitExact ↔ Forall2 same_step claim observed.
Proof.
  revert observed. induction claim as [|c claim IH]; intros [|o observed] Hlen; simplify_eq/=.
  { by split. }
  specialize (IH observed ltac:(lia)). pose proof (compare_exact_iff c o) as Hc.
  split.
  - intros Heq. constructor.
    + apply Hc. by repeat case_match.
    + apply IH. by repeat case_match.
  - intros Hf. inversion Hf; subst.
    by rewrite (proj2 Hc), (proj2 IH) by done.
Qed.

(** The observed command is the claimed one, step for step. *)
Definition same_command (claimed : Chars) (command : option Value) : Prop :=
  ∃ claim observed, shell_segments claimed = Some claim ∧ command_segments command = Some observed ∧
    Forall2 same_step claim observed.

Lemma mention_not_exact claimed text : mention_or_not claimed text ≠ BindExact.
Proof. unfold mention_or_not. case_decide; [done|]. by case_match. Qed.

Lemma bind_exact_iff claimed command text reliable :
  bind_command claimed command text reliable = BindExact ↔ same_command claimed command.
Proof.
  unfold bind_command, same_command. destruct (shell_segments claimed) as [claim|].
  2:{ split; [done|]. by intros (? & ? & ? & _). }
  destruct (command_segments command) as [observed|].
  2:{ split; [by intros ?%mention_not_exact|]. by intros (? & ? & _ & ? & _). }
  transitivity (Forall2 same_step claim observed).
  2:{ split; [by exists claim, observed|]. by intros (? & ? & [= <-] & [= <-] & ?). }
  assert (bind_single claimed claim observed text reliable = BindExact →
    length claim = length observed ∧ compare_all claim observed = FitExact) as Hsingle.
  { unfold bind_single. destruct claim as [|c [|]]; try by intros ?%mention_not_exact.
    destruct (candidate_runs reliable observed) as [|o [|]] eqn:Er;
      try by intros ?%mention_not_exact.
    destruct (compare_prefix c o) eqn:Ep; [| done |by intros ?%mention_not_exact].
    case_decide as Hlen; [|done]. intros _.
    destruct observed as [|o' [|]]; simplify_eq/=.
    by rewrite (compare_prefix_exact _ _ Ep). }
  case_decide as Hlen.
  - rewrite <-compare_all_exact by done. destruct (compare_all claim observed) eqn:Ea; try done.
    split; [|done]. intros [_ ?]%Hsingle. congruence.
  - split; [by intros [? _]%Hsingle|]. intros ?%Forall2_length. done.
Qed.

(** ** Attribution of output *)

Lemma proven_loop_some segments runner kind :
  proven_loop (Some runner) segments = Some kind →
  kind = Some runner ∧
  Forall (λ s, classify_segment s = None ∧ is_plain_cd s = true) segments.
Proof.
  induction segments as [|s segments IH]; simpl; [by intros [= <-]|].
  destruct (classify_segment s) eqn:Ec; [done|]. destruct (is_plain_cd s) eqn:Ed; [|done].
  intros [-> Hall]%IH. split; [done|]. by constructor.
Qed.

(** The output is the runner's: it is the only runner step, and every other
    step is a silent [cd]. *)
Definition only_runner (command : option Value) (kind : RunnerKind) : Prop :=
  ∃ before step after, command_segments command = Some (before ++ step :: after) ∧
    classify_segment step = Some kind ∧
    Forall (λ s, classify_segment s = None ∧ is_plain_cd s = true) (before ++ after).

Lemma proven_runner_only command kind :
  proven_runner command = Some kind → kind ≠ RunOther ∧ only_runner command kind.
Proof.
  unfold proven_runner, only_runner. destruct (command_segments command) as [segments|]; [|done].
  simpl. intros Hp.
  assert (∃ k, proven_loop None segments = Some (Some k) ∧ k = kind ∧ kind ≠ RunOther)
    as (k & Hloop & -> & Hk).
  { destruct (proven_loop None segments) as [[k|]|]; try done. simpl in Hp.
    case_decide; [done|]. naive_solver. }
  split; [done|]. clear Hp.
  assert (∃ before step after, segments = before ++ step :: after ∧
    classify_segment step = Some kind ∧
    Forall (λ s, classify_segment s = None ∧ is_plain_cd s = true) (before ++ after))
    as (before & step & after & -> & ? & ?).
  2:{ by exists before, step, after. }
  induction segments as [|s segments IH]; simpl in Hloop; [done|].
  destruct (classify_segment s) as [k|] eqn:Ec.
  - apply proven_loop_some in Hloop as [[= ->] Hall]. by exists [], s, segments.
  - destruct (is_plain_cd s) eqn:Ed; [|done].
    destruct (IH Hloop) as (before & step & after & -> & ? & ?).
    exists (s :: before), step, after. split_and!; try done. by constructor.
Qed.

(** ** Wrapped test commands *)

(** [known_test_args] looks further when it is given fewer levels: past the
    last one everything counts. *)
Lemma existsb_impl {A} (P Q : A → bool) l :
  (∀ x, P x = true → Q x = true) → existsb P l = true → existsb Q l = true.
Proof. intros HPQ. rewrite !existsb_exists. intros (x & ? & ?). eauto. Qed.

Lemma known_step_down levels args :
  known_test_args (S levels) args = true → known_test_args levels args = true.
Proof.
  revert args. induction levels as [|levels IH]; intros args; [done|].
  assert (∀ l, existsb (λ args, bool_decide (is_Some (classify_segment
       ((λ t, mkWord t false) <$> args))) || known_test_args (S levels) args) l = true →
    existsb (λ args, bool_decide (is_Some (classify_segment
       ((λ t, mkWord t false) <$> args))) || known_test_args levels args) l = true) as Hsuf.
  { intros l. apply existsb_impl. intros x. rewrite !orb_true_iff. intros [?|?]; auto. }
  cbn [known_test_args]. destruct (skip_while is_assignment args) as [|program tail]; [done|].
  set (name := basename program).
  destruct (is_shell name).
  { destruct tail as [|flag [|script [|]]]; try done. rewrite !andb_true_iff.
    intros [-> Hs]. split; [done|]. destruct (shell_segments script); [|done].
    revert Hs. apply existsb_impl. intros segment. rewrite !orb_true_iff. intros [?|?]; auto. }
  destruct (is_one_of WRAPPER_PROGRAMS name); [apply Hsuf|].
  destruct (is_one_of TEST_SUBCOMMAND_PROGRAMS name).
  { destruct (_ && manages_packages tail); [done|]. rewrite !orb_true_iff, !andb_true_iff.
    intros [[? Hp]|?]; [left|by right]. split; [done|]. destruct (after_first _ tail); [|done].
    by apply Hsuf. }
  destruct (is_one_of STANDALONE_TEST_PROGRAMS name); [done|].
  destruct (is_one_of ["node"] name); [done|]. destruct (is_one_of ["tox"; "nox"] name); [done|].
  destruct (is_python name); [done|]. destruct (launched_args name tail) as [rest|]; [|done].
  destruct (_ && _); [done|]. apply IH.
Qed.

(** A wrapper before a command, with any flags and values between. *)
Definition is_wrapper (w : Chars) : Prop :=
  is_one_of WRAPPER_PROGRAMS (basename w) = true ∧ is_assignment w = false.
Inductive wraps : list Chars → list Chars → Prop :=
| wraps_once w flags cmd : is_wrapper w → wraps (w :: flags ++ cmd) cmd
| wraps_more w flags args cmd :
    is_wrapper w → wraps args cmd → wraps (w :: flags ++ args) cmd.

(** A runner this module identifies or a command of the tables. *)
Definition test_command (levels : nat) (cmd : list Chars) : bool :=
  bool_decide (is_Some (classify_segment ((λ t, mkWord t false) <$> cmd))) ||
  known_test_args levels cmd.

Lemma suffixes_app {A} (pre l : list A) : l ≠ [] → l ∈ suffixes (pre ++ l).
Proof.
  intros Hl. induction pre as [|x pre IH]; simpl; [|by right]. destruct l; [done|by left].
Qed.

Lemma is_one_of_disjoint a b w :
  forallb (λ x, negb (is_one_of b (chars x))) a = true → is_one_of a w = true →
  is_one_of b w = false.
Proof.
  unfold is_one_of. rewrite forallb_forall, bool_decide_eq_true, list_elem_of_fmap.
  intros Hd (x & -> & Hx%list_elem_of_In). by apply negb_true_iff, Hd.
Qed.

(** A wrapper program is looked through, whatever stands before the command. *)
Lemma wrapper_looks_through levels w flags args :
  is_wrapper w → args ≠ [] → test_command levels args = true →
  known_test_args (S levels) (w :: flags ++ args) = true.
Proof.
  intros [Hw Ha] Hne Ht. cbn [known_test_args]. cbn [skip_while]. rewrite Ha.
  assert (is_shell (basename w) = false) as ->.
  { unfold is_shell.
    assert (basename (basename w) = basename w) as ->.
    { clear. unfold basename. induction w as [|c w IH]; [done|]. simpl.
      case_decide as Hin; [apply IH|]. simpl. by rewrite decide_False. }
    apply (is_one_of_disjoint WRAPPER_PROGRAMS); [vm_compute; done|done]. }
  rewrite Hw. apply existsb_exists. exists args. split; [|exact Ht].
  apply list_elem_of_In. by apply suffixes_app.
Qed.

Lemma wraps_nonempty args cmd : wraps args cmd → args ≠ [].
Proof. by destruct 1. Qed.
Lemma known_down levels levels' args :
  levels' ≤ levels → known_test_args levels args = true → known_test_args levels' args = true.
Proof.
  induction 1 as [|levels _ IH]; [done|]. intros ?%known_step_down. by apply IH.
Qed.
Lemma test_command_down levels args :
  test_command (S levels) args = true → test_command levels args = true.
Proof. unfold test_command. rewrite !orb_true_iff. intros [?|?%known_step_down]; auto. Qed.

Lemma wraps_known levels args cmd :
  wraps args cmd → cmd ≠ [] → test_command levels cmd = true → known_test_args levels args = true.
Proof.
  intros Hw Hne Ht. destruct levels as [|levels]; [done|].
  induction Hw as [w flags cmd Hwr|w flags args cmd Hwr Hw IH].
  - apply wrapper_looks_through; auto using test_command_down.
  - apply wrapper_looks_through; [done|by eapply wraps_nonempty|].
    unfold test_command. rewrite known_step_down by auto. by rewrite orb_true_r.
Qed.

(** A claimed command one step of which wraps a test command is a test
    command, however many wrappers are around it. *)
Lemma wrapped_step_is_named literal segments segment cmd :
  shell_segments literal = Some segments → segment ∈ segments →
  wraps (w_text <$> core segment) cmd → cmd ≠ [] → test_command MAX_WRAPPING cmd = true →
  names_test_command literal = true.
Proof.
  intros Hs Hin Hw Hne Ht. unfold names_test_command. rewrite Hs.
  apply existsb_exists. exists segment. split; [by apply list_elem_of_In|].
  unfold known_test_command. rewrite (wraps_known _ _ cmd) by done. apply orb_true_r.
Qed.
End runner_spec.
