(* ===== verification/Verifiers.v ===== *)
(** * The deterministic verifiers

    [fornax-verify/src/lib.rs]: the five verifiers a claim's verdict comes
    from, the literals they take from a claim's text and what they read of an
    evidence payload. A finding's identifier and time are arguments; the list
    of collectors that may attest a test run is one too, since the production
    build and the tests have different ones. *)

From stdpp Require Import pretty.
From S2P Require Import Prelude.
From S2P Require Import Types.
From S2P Require Import Text.
From S2P Require Import Projection.
From S2P Require Import AuditLedger.
From S2P Require Import ExecutionIdentity.
From S2P Require Import EventStore.
From S2P Require Import Shell.
From S2P Require Import Runner.
From S2P Require Import Consumption.

Local Open Scope fornax_scope.

(** ** Payloads *)

(** [Value::get] on a key. *)
Definition value_get (v : Value) (key : string) : option Value :=
  match v with JObject fields => json_get fields key | _ => None end.
(** [Value::pointer] on two keys that are not array indices. *)
Definition value_pointer (v : Value) (key1 key2 : string) : option Value :=
  v ← value_get v key1; value_get v key2.

Definition as_i64 (v : Value) : option Z :=
  match v with
  | JInt n => if decide (- 2 ^ 63 ≤ n < 2 ^ 63)%Z then Some n else None
  | _ => None
  end.
Definition as_u64 (v : Value) : option Z :=
  match v with
  | JInt n => if decide (0 ≤ n < 2 ^ 64)%Z then Some n else None
  | _ => None
  end.
Definition as_bool (v : Value) : option bool :=
  match v with JBool b => Some b | _ => None end.

Definition exit_code_of (e : Evidence) : option Z := value_get (ev_payload e) "exit_code" ≫= as_i64.
Definition command_of (e : Evidence) : option Value := value_get (ev_payload e) "command".

(** [str::ends_with]. *)
Definition ends_with (suffix cs : Chars) : bool := starts_with (reverse suffix) (reverse cs).

Definition is_heuristic_evidence (e : Evidence) : bool :=
  bool_decide ((value_get (ev_payload e) "heuristic" ≫= as_bool) = Some true).
Definition is_stderr_heuristic_evidence (e : Evidence) : bool :=
  is_heuristic_evidence e &&
  ends_with (chars "heuristic:stderr_nonempty") (chars (ev_provenance e)).
Definition exit_zero_reliable (e : Evidence) : bool :=
  bool_decide (exit_code_of e = Some 0%Z) && negb (is_heuristic_evidence e).

(** ** Literals of a claim *)

(** The texts between successive pairs of delimiters; [open] is what was read
    since the last opening one. *)
Fixpoint delimited (d : Char) (open : option Chars) (cs : Chars) : list Chars :=
  match cs with
  | [] => []
  | c :: cs =>
      match open with
      | None => delimited d (if decide (c = d) then Some [] else None) cs
      | Some inner =>
          if decide (c = d) then inner :: delimited d None cs
          else delimited d (Some (inner ++ [c])) cs
      end
  end.

(** Only the first pair counts. *)
Definition extract_delimited (text : Chars) (d : Char) : option Chars :=
  match delimited d None text with
  | inner :: _ => if decide (trim_chars inner = []) then None else Some (trim_chars inner)
  | [] => None
  end.
Definition extract_literal (text : Chars) : option Chars :=
  match extract_delimited text BACKTICK with
  | Some l => Some l
  | None => extract_delimited text DQUOTE
  end.

Inductive CommandLiteral := LitNone | LitOne (l : Chars) | LitSeveral.

(** The trimmed, non-empty literals, each once and in order. *)
Definition add_literal (found : list Chars) (inner : Chars) : list Chars :=
  let inner := trim_chars inner in
  if decide (inner ≠ [] ∧ inner ∉ found) then found ++ [inner] else found.
Definition found_literals (text : Chars) (d : Char) : list Chars :=
  foldl add_literal [] (delimited d None text).
Definition command_literal (text : Chars) : CommandLiteral :=
  match found_literals text BACKTICK, found_literals text DQUOTE with
  | [l], _ => LitOne l
  | _ :: _ :: _, _ => LitSeveral
  | [], [l] => LitOne l
  | [], _ :: _ :: _ => LitSeveral
  | [], [] => LitNone
  end.

(** The last element that satisfies the test, with those after it. *)
Fixpoint last_split {A} (P : A → bool) (l : list A) : option (A * list A) :=
  match l with
  | [] => None
  | x :: l =>
      match last_split P l with
      | Some r => Some r
      | None => if P x then Some (x, l) else None
      end
  end.
Definition last_matching {A} (P : A → bool) (l : list A) : option A := fst <$> last_split P l.

Definition dq : string := String (Ascii.ascii_of_N DQUOTE) "".
Definition in_quotes (s : string) : string := dq +:+ s +:+ dq.

Section verifiers.
Context `{UnicodeTables, EventJson}.
Context (test_run_attestors : list string).

Definition command_text (payload : Value) : Chars :=
  match value_get payload "command" with
  | Some (JArray tokens) => to_lowercase (join [SPACE] (chars <$> omap as_str tokens))
  | Some (JString s) => to_lowercase (chars s)
  | Some other => to_lowercase (chars (value_to_string other))
  | None => []
  end.

Definition lower_contains (text : Chars) (p : string) : bool :=
  contains (chars p) (to_lowercase text).
Definition claims_tests_passed (text : Chars) : bool :=
  (lower_contains text "test" || lower_contains text "tests") &&
  (lower_contains text "passed" || lower_contains text "pass" || lower_contains text "succeeded" ||
   lower_contains text "all green") && negb (lower_contains text "failed").
Definition claims_command_executed (text : Chars) : bool :=
  lower_contains text "ran " || lower_contains text "i ran" || lower_contains text "executed" ||
  lower_contains text "running".
Definition claims_command_succeeded (text : Chars) : bool :=
  (lower_contains text "succeeded" || lower_contains text "completed successfully" ||
   lower_contains text "ran successfully" || lower_contains text "worked") &&
  negb (lower_contains text "failed").

(** ** Test runs *)

Definition is_independently_attested (e : Evidence) : bool :=
  match ev_source e with
  | Some s =>
      bool_decide (trust_class s = HostObserved ∨ trust_class s = IndependentExternal) &&
      bool_decide (sensor_name s ∈ test_run_attestors)
  | None => false
  end.

Definition execution_proven (e : Evidence) : bool :=
  match proven_runner (command_of e), value_get (ev_payload e) "test_summary" with
  | Some kind, Some summary =>
      let format := value_get summary "format" ≫= as_str in
      let passed := value_get summary "passed" ≫= as_u64 in
      let failed := value_get summary "failed" ≫= as_u64 in
      match kind with
      | RunPytest => bool_decide (format = Some "pytest")
      | RunCargo => bool_decide (format = Some "cargo")
      | RunOther => false
      end &&
      match passed with Some n => bool_decide (1 ≤ n)%Z | None => false end &&
      bool_decide (failed = Some 0%Z)
  | _, _ => false
  end.

Definition is_test_runner_evidence (e : Evidence) : bool :=
  is_test_run (command_of e) (exit_code_of e) &&
  bool_decide (is_Some (value_get (ev_payload e) "exit_code")).

(** [cmd.split(|c| ..)], without the empty parts. *)
Fixpoint tokens_of (cur cs : Chars) : list Chars :=
  match cs with
  | [] => flush cur
  | c :: cs =>
      if is_alphanumeric c || one_of (chars ".-_/+") c then tokens_of (cur ++ [c]) cs
      else flush cur ++ tokens_of [] cs
  end.
Definition subcommand_after (tokens : list Chars) (program : string) (subs : list string) : bool :=
  match after_first (λ t, bool_decide (basename t = chars program)) tokens with
  | Some rest => existsb (is_one_of subs) rest
  | None => false
  end.
Definition mentions_unidentified_runner (e : Evidence) : bool :=
  if bool_decide (value_get (ev_payload e) "exit_code" = None) || is_test_runner_evidence e
  then false
  else
    let tokens := tokens_of [] (command_text (ev_payload e)) in
    existsb (λ t, existsb (λ r, contains (chars r) t) ["pytest"; "py.test"; "vitest"; "jest"]) tokens
    || subcommand_after tokens "cargo" ["test"; "nextest"]
    || subcommand_after tokens "npm" ["test"].

(** ** Findings *)

Context (fresh : Uuid) (now : string).

Definition found (name : string) (claim : Claim) (verdict : Verdict) (ids : list Uuid)
    (rationale : string) : Finding :=
  mkFinding fresh (claim_id claim) verdict ids name rationale now.
Definition unavailable (name : string) (claim : Claim) (reason : string) : Finding :=
  found name claim Unavailable [] reason.

Definition observable_any (caps : RuntimeCapabilities) (a b : SignalClass) : bool :=
  is_observable caps a || is_observable caps b.

(** ** Test results *)

Definition TEST_RESULT : string := "test_result_verifier_v1".
Definition test_result_applies (claim : Claim) : bool :=
  bool_decide (claim_subject claim = "test_result").

Definition test_result_verify (claim : Claim) (evidence : list Evidence)
    (caps : RuntimeCapabilities) : Finding :=
  let found := found TEST_RESULT claim in
  if negb (observable_any caps ToolTrace FinalResponse)
  then unavailable TEST_RESULT claim
         "runtime does not expose tool-result/transcript evidence needed to check exit codes"
  else
    match last_split is_test_runner_evidence evidence with
    | None =>
        found Unverified [] "no test-runner invocation observed in this session's evidence"
    | Some (ev, newer) =>
        let cites := [ev_id ev] in
        match exit_code_of ev with
        | Some code =>
            if decide (code = 0%Z) then
              if is_heuristic_evidence ev then
                found Review cites
                  ("claim states tests passed; the only signal observed is a heuristic exit_code=0 (no stderr/failure marker seen), which does not prove the test runner actually succeeded -- flagged for review, not verified ("
                   +:+ ev_provenance ev +:+ ")")
              else if existsb mentions_unidentified_runner newer then
                found Unverified cites
                  "an earlier test-runner run exited 0, but a more recent command that mentions a test runner could not be identified as a test run"
              else if negb (execution_proven ev) then
                found Unverified cites
                  "the test runner exited 0, but no passing-test summary from that runner was observed for this command, so it is not shown that any test ran"
              else if negb (is_independently_attested ev) then
                found Review cites
                  ("claim states tests passed and the agent's transcript shows a test runner exiting 0 with a passing summary, but that output is written by the program the agent ran and is not independently attested, so it does not show the tests ran -- flagged for review, not verified ("
                   +:+ ev_provenance ev +:+ ")")
              else
                found Verified cites
                  ("observed test-runner exit_code=0 (" +:+ ev_provenance ev +:+ ")")
            else if is_stderr_heuristic_evidence ev then
              found Review cites
                ("claim states tests passed; stderr was non-empty but Claude Code's tool_response carries no real exit code, so this cannot be confirmed as a failure -- flagged for review, not treated as contradicted (heuristic exit_code="
                 +:+ pretty code +:+ ", " +:+ ev_provenance ev +:+ ")")
            else
              found Contradicted cites
                ("claim states tests passed, but observed test-runner exit_code=" +:+ pretty code
                 +:+ " (" +:+ ev_provenance ev +:+ ")")
        | None =>
            unavailable TEST_RESULT claim
              "test-runner evidence found but no exit_code field present"
        end
    end.

(** ** Commands *)

Definition bind_row (claimed : Chars) (e : Evidence) : CommandBinding :=
  bind_command claimed (command_of e) (command_text (ev_payload e)) (exit_zero_reliable e).

(** The exit-code rows, newest first. *)
Definition exit_rows (evidence : list Evidence) : list Evidence :=
  filter (λ e, ev_kind e = ExitCode) (reverse evidence).

(** The claimed command, or the finding that says why there is none. *)
Definition claimed_command (name : string) (claim : Claim) (none : string) :
    result Finding Chars :=
  let found := found name claim in
  match command_literal (chars (claim_text claim)) with
  | LitOne claimed =>
      if claim_command_parses claimed then Ok claimed
      else Err (found Unverified []
                  ("the claimed command " +:+ in_quotes (from_chars claimed)
                   +:+ " cannot be parsed as a command"))
  | LitSeveral =>
      Err (found Unverified []
             "claim names more than one command; it cannot be bound to a single command's evidence")
  | LitNone => Err (found Unverified [] none)
  end.

Definition unmatched (claimed : Chars) (mentioned : bool) : string :=
  if mentioned
  then "commands that mention " +:+ in_quotes (from_chars claimed)
       +:+ " were observed, but none is a run of that command"
  else "no evidence of a command matching " +:+ in_quotes (from_chars claimed)
       +:+ " observed in this session".

Definition COMMAND_EXECUTED : string := "command_executed_verifier_v1".
Definition command_executed_applies (claim : Claim) : bool :=
  bool_decide (claim_subject claim = "command_executed").

(** The loop over the rows: the first exact one decides. *)
Fixpoint executed_loop (claim : Claim) (claimed : Chars) (prefix_row : option Evidence)
    (mentioned : bool) (rows : list Evidence) : Finding :=
  let found := found COMMAND_EXECUTED claim in
  match rows with
  | [] =>
      match prefix_row with
      | Some ev =>
          found Review [ev_id ev]
            ("a command starting with " +:+ in_quotes (from_chars claimed)
             +:+ " ran, but with extra arguments that could change what it did (for example a dry run) -- flagged for review, not verified ("
             +:+ ev_provenance ev +:+ ")")
      | None => found Unverified [] (unmatched claimed mentioned)
      end
  | ev :: rows =>
      match bind_row claimed ev with
      | BindExact =>
          found Verified [ev_id ev]
            ("observed command matching " +:+ in_quotes (from_chars claimed) +:+ " executed ("
             +:+ ev_provenance ev +:+ ")")
      | BindPrefix =>
          executed_loop claim claimed (match prefix_row with Some r => Some r | None => Some ev end)
            mentioned rows
      | BindMentioned => executed_loop claim claimed prefix_row true rows
      | NotBound => executed_loop claim claimed prefix_row mentioned rows
      end
  end.

Definition command_executed_verify (claim : Claim) (evidence : list Evidence)
    (caps : RuntimeCapabilities) : Finding :=
  if negb (observable_any caps ToolTrace FinalResponse)
  then unavailable COMMAND_EXECUTED claim
         "runtime does not expose tool-trace/transcript evidence needed to check command execution"
  else
    match claimed_command COMMAND_EXECUTED claim
            "claim text does not name a literal command to check against evidence" with
    | Err f => f
    | Ok claimed => executed_loop claim claimed None false (exit_rows evidence)
    end.

Definition COMMAND_SUCCESS : string := "command_success_verifier_v1".
Definition command_success_applies (claim : Claim) : bool :=
  bool_decide (claim_subject claim = "command_succeeded").

(** The row the claim is checked against: the row, whether it only has the
    claimed command as a prefix, and whether a newer row mentions it; with
    whether any row does. *)
Fixpoint select_loop (claimed : Chars) (mention_seen : bool)
    (first_prefix : option (Evidence * bool * bool)) (rows : list Evidence) :
    option (Evidence * bool * bool) * bool :=
  match rows with
  | [] => (first_prefix, mention_seen)
  | e :: rows =>
      match bind_row claimed e with
      | BindExact => (Some (e, false, mention_seen), mention_seen)
      | BindPrefix =>
          select_loop claimed true
            (match first_prefix with Some r => Some r | None => Some (e, true, mention_seen) end)
            rows
      | BindMentioned => select_loop claimed true first_prefix rows
      | NotBound => select_loop claimed mention_seen first_prefix rows
      end
  end.

(** The finding on the selected row. *)
Definition success_finding (claim : Claim) (claimed : Chars) (ev : Evidence)
    (newer_mention : bool) : Finding :=
  let found := found COMMAND_SUCCESS claim in
  let cites := [ev_id ev] in
  match exit_code_of ev with
  | Some code =>
      if decide (code = 0%Z) then
        if is_heuristic_evidence ev then
          found Review cites
            ("claim states the command succeeded; the only signal observed is a heuristic exit_code=0 (no stderr/failure marker seen), which does not prove the command actually succeeded -- flagged for review, not verified ("
             +:+ ev_provenance ev +:+ ")")
        else if is_test_runner_evidence ev && negb (execution_proven ev) then
          found Unverified cites
            "the claimed command is a test run that exited 0, but no passing-test summary from that runner was observed, so it is not shown that any test ran"
        else if is_test_runner_evidence ev && negb (is_independently_attested ev) then
          found Review cites
            ("the claimed command is a test run that exited 0 with a passing summary, but that output is written by the program the agent ran and is not independently attested, so it does not show the tests ran -- flagged for review, not verified ("
             +:+ ev_provenance ev +:+ ")")
        else if newer_mention then
          found Unverified cites
            "an earlier run of the command exited 0, but a more recent command that mentions it could not be identified as a run of it"
        else if names_test_command claimed && negb (is_test_runner_evidence ev) then
          found Unverified cites
            "the claimed command is a test command whose results Fornax cannot read, so an exit status 0 does not show that any test ran"
        else if negb (is_independently_attested ev) then
          found Review cites
            ("observed command exit_code=0, but the exit status comes from the agent's own session and is not independently attested, so it does not show the claimed program ran and succeeded -- flagged for review, not verified ("
             +:+ ev_provenance ev +:+ ")")
        else
          found Verified cites ("observed command exit_code=0 (" +:+ ev_provenance ev +:+ ")")
      else if is_stderr_heuristic_evidence ev then
        found Review cites
          ("claim states the command succeeded; stderr was non-empty but Claude Code's tool_response carries no real exit code, so this cannot be confirmed as a failure -- flagged for review, not treated as contradicted (heuristic exit_code="
           +:+ pretty code +:+ ", " +:+ ev_provenance ev +:+ ")")
      else
        found Contradicted cites
          ("claim states the command succeeded, but observed exit_code=" +:+ pretty code +:+ " ("
           +:+ ev_provenance ev +:+ ")")
  | None =>
      unavailable COMMAND_SUCCESS claim "command evidence found but no exit_code field present"
  end.

Definition command_success_verify (claim : Claim) (evidence : list Evidence)
    (caps : RuntimeCapabilities) : Finding :=
  if negb (observable_any caps ToolTrace FinalResponse)
  then unavailable COMMAND_SUCCESS claim
         "runtime does not expose tool-trace/transcript evidence needed to check command exit status"
  else
    match claimed_command COMMAND_SUCCESS claim
            "claim names no specific command; cannot bind to unrelated command evidence" with
    | Err f => f
    | Ok claimed =>
        match select_loop claimed false None (exit_rows evidence) with
        | (None, mentioned) =>
            found COMMAND_SUCCESS claim Unverified [] (unmatched claimed mentioned)
        | (Some (ev, prefix_only, newer_mention), _) =>
            let f := success_finding claim claimed ev newer_mention in
            if prefix_only && bool_decide (finding_verdict f = Verified) then
              with_verdict
                (with_rationale f (finding_rationale f +:+
                   " -- the observed command has more arguments than the claimed one, so the exit status is not attributed to the claimed command exactly"))
                Review
            else f
        end
    end.

(** ** Files *)

Definition FILE_MODIFIED : string := "file_modified_verifier_v1".
Definition file_modified_applies (claim : Claim) : bool :=
  bool_decide (claim_subject claim = "file_written").

Definition looks_path_shaped (candidate : Chars) : bool :=
  one_of candidate SLASH ||
  (one_of candidate 46%N &&
   let ext := after_last 46 candidate in
   bool_decide (ext ≠ []) && bool_decide (str_len ext ≤ 8) && forallb is_ascii_alphanumeric ext).
Definition extract_path_literal (text : Chars) : option Chars :=
  candidate ← extract_literal text;
  if looks_path_shaped candidate then Some candidate else None.

(** [strip_suffix]. *)
Definition strip_suffix (suffix cs : Chars) : option Chars :=
  reverse <$> strip_prefix (reverse suffix) (reverse cs).
Definition path_matches (evidence_path claimed_path : Chars) : bool :=
  bool_decide (evidence_path = claimed_path) ||
  match strip_suffix claimed_path evidence_path with
  | Some prefix => bool_decide (prefix = []) || ends_with [SLASH] prefix
  | None => false
  end.

Definition diffs_path (claimed_path : Chars) (e : Evidence) : bool :=
  bool_decide (ev_kind e = FileDiff) &&
  match value_get (ev_payload e) "path" ≫= as_str with
  | Some p => path_matches (chars p) claimed_path
  | None => false
  end.

Definition file_modified_verify (claim : Claim) (evidence : list Evidence)
    (caps : RuntimeCapabilities) : Finding :=
  let found := found FILE_MODIFIED claim in
  if negb (observable_any caps ToolTrace ToolResultPayload)
  then unavailable FILE_MODIFIED claim
         "runtime does not expose tool-trace/tool-result evidence needed to check file modifications"
  else
    match extract_path_literal (chars (claim_text claim)) with
    | None =>
        found Unverified []
          "claim text does not name a literal, path-shaped file to check against evidence"
    | Some claimed_path =>
        match last_matching (diffs_path claimed_path) evidence with
        | None =>
            found Unverified []
              ("no file-diff evidence observed for a file matching "
               +:+ in_quotes (from_chars claimed_path) +:+ " in this session")
        | Some ev =>
            match value_get (ev_payload ev) "diff" ≫= as_str with
            | Some (String _ _) =>
                found Review [ev_id ev]
                  ("observed a file-diff matching " +:+ in_quotes (from_chars claimed_path)
                   +:+ ", but this evidence is always heuristic (reconstructed from tool_input, never authoritative) in this implementation -- flagged for review, not confirmed verified ("
                   +:+ ev_provenance ev +:+ ")")
            | _ =>
                found Unverified []
                  ("file-diff evidence for " +:+ in_quotes (from_chars claimed_path)
                   +:+ " was found but its diff is empty")
            end
        end
    end.

(** ** Git *)

Definition GIT_OPERATION : string := "git_operation_verifier_v1".
Definition git_operation_applies (claim : Claim) : bool :=
  bool_decide (claim_subject claim = "git_commit" ∨ claim_subject claim = "git_push").

Definition is_ascii_hexdigit (c : Char) : bool :=
  is_ascii_digit c || bool_decide (65 ≤ c ≤ 70 ∨ 97 ≤ c ≤ 102)%N.
Definition looks_sha_shaped (s : Chars) : bool :=
  bool_decide (7 ≤ str_len s ≤ 40) && forallb is_ascii_hexdigit s.
Definition extract_sha_literal (text : Chars) : option Chars :=
  candidate ← extract_literal text;
  if looks_sha_shaped candidate then Some candidate else None.
Definition sha_matches (claimed actual : Chars) : bool :=
  let c := to_lowercase claimed in
  let a := to_lowercase actual in
  starts_with c a || starts_with a c.

Definition observation (e : Evidence) (key : string) : option string :=
  value_pointer (ev_payload e) "observation" key ≫= as_str.
Definition matches_operation (operation : string) (e : Evidence) : bool :=
  bool_decide (ev_kind e = ProcessObservation) &&
  bool_decide (observation e "observation_kind" = Some "vcs_operation") &&
  bool_decide (observation e "operation" = Some operation).

Definition verify_commit (claim : Claim) (evidence : list Evidence) : Finding :=
  let found := found GIT_OPERATION claim in
  match last_matching (matches_operation "commit") evidence with
  | None => found Unverified [] "no git commit evidence observed in this session"
  | Some ev =>
      let outcome := observation ev "outcome" in
      if decide (outcome = Some "created") then
        let verified :=
          found Verified [ev_id ev] ("observed git commit created (" +:+ ev_provenance ev +:+ ")") in
        match extract_sha_literal (chars (claim_text claim)), observation ev "commit_sha" with
        | Some claimed, Some actual =>
            if sha_matches claimed (chars actual) then verified
            else
              found Contradicted [ev_id ev]
                ("claim names commit sha " +:+ in_quotes (from_chars claimed)
                 +:+ ", but observed commit sha " +:+ in_quotes actual +:+ " ("
                 +:+ ev_provenance ev +:+ ")")
        | _, _ => verified
        end
      else if decide (outcome = Some "nothing_to_commit") then
        found Contradicted [ev_id ev]
          ("claim states a commit was made, but git reported nothing to commit ("
           +:+ ev_provenance ev +:+ ")")
      else found Unverified [] "git commit evidence found but its outcome was not recognized"
  end.

(** [str::eq_ignore_ascii_case]. *)
Definition eq_ignore_ascii_case (a b : Chars) : bool :=
  bool_decide (ascii_lower <$> a = ascii_lower <$> b).

Definition verify_push (claim : Claim) (evidence : list Evidence) : Finding :=
  let found := found GIT_OPERATION claim in
  match last_matching (matches_operation "push") evidence with
  | None => found Unverified [] "no git push evidence observed in this session"
  | Some ev =>
      let outcome := observation ev "outcome" in
      if decide (outcome = Some "ref_updated") then
        let verified :=
          found Verified [ev_id ev]
            ("observed git push ref updated (" +:+ ev_provenance ev +:+ ")") in
        match extract_literal (chars (claim_text claim)), observation ev "branch" with
        | Some claimed, Some actual =>
            if eq_ignore_ascii_case claimed (chars actual) then verified
            else
              found Unverified []
                ("claim names branch " +:+ in_quotes (from_chars claimed)
                 +:+ ", but observed push updated branch " +:+ in_quotes actual
                 +:+ " -- ambiguous (multi-branch session), not confirmed wrong ("
                 +:+ ev_provenance ev +:+ ")")
        | _, _ => verified
        end
      else if decide (outcome = Some "rejected") then
        found Contradicted [ev_id ev]
          ("claim states the push succeeded, but git rejected the push (" +:+ ev_provenance ev
           +:+ ")")
      else if decide (outcome = Some "up_to_date") then
        found Review [ev_id ev]
          ("git reported nothing to push (" +:+ in_quotes "Everything up-to-date"
           +:+ ") for this invocation; the branch may have been pushed earlier in the session -- flagged for review, not confirmed ("
           +:+ ev_provenance ev +:+ ")")
      else found Unverified [] "git push evidence found but its outcome was not recognized"
  end.

Definition git_operation_verify (claim : Claim) (evidence : list Evidence)
    (caps : RuntimeCapabilities) : Finding :=
  if negb (observable_any caps ToolTrace ToolResultPayload)
  then unavailable GIT_OPERATION claim
         "runtime does not expose tool-trace/tool-result evidence needed to check git commit/push outcomes"
  else if decide (claim_subject claim = "git_commit") then verify_commit claim evidence
  else if decide (claim_subject claim = "git_push") then verify_push claim evidence
  else unavailable GIT_OPERATION claim "applies_to guarantees subject is git_commit or git_push".
End verifiers.

(** ** The registry *)

(** The production build's list; the tests have a fixture in it. *)
Definition production_attestors : list string := [].

(** The verifiers of the daemon, in its order; [fresh] gives each finding an
    identifier. *)
Definition daemon_verifiers `{UnicodeTables, EventJson} (attestors : list string)
    (fresh : nat → Uuid) (now : string) : list Verifier :=
  [mkVerifier TEST_RESULT test_result_applies (test_result_verify attestors (fresh 0) now);
   mkVerifier COMMAND_EXECUTED command_executed_applies (command_executed_verify (fresh 1) now);
   mkVerifier COMMAND_SUCCESS command_success_applies
     (command_success_verify attestors (fresh 2) now);
   mkVerifier FILE_MODIFIED file_modified_applies (file_modified_verify (fresh 3) now);
   mkVerifier GIT_OPERATION git_operation_applies (git_operation_verify (fresh 4) now)].
