(* ===== verification/VerifiersSpec.v ===== *)
(** * What a verdict certifies

    For each verifier the verdicts it can give and exactly when; that a
    finding cites only evidence it was given; that no verifier of the
    production build turns the agent's own report of a test run or of an exit
    code into a verified claim; and, through the daemon's verdict path, what
    a persisted verified finding rests on. *)

From S2P Require Import Prelude.
From S2P Require Import Types.
From S2P Require Import Text.
From S2P Require Import Projection.
From S2P Require Import AuditLedger.
From S2P Require Import EventStore.
From S2P Require Import EventRead.
From S2P Require Import Shell.
From S2P Require Import Runner.
From S2P Require Import RunnerSpec.
From S2P Require Import Admission.
From S2P Require Import Consumption.
From S2P Require Import AdmissionSpec.
From S2P Require Import Verifiers.

Local Open Scope fornax_scope.

(** ** The last matching record *)

Lemma last_split_none {A} (P : A → bool) l :
  last_split P l = None ↔ ∀ y, y ∈ l → P y = false.
Proof.
  induction l as [|y l IH]; simpl.
  { split; [|done]. by intros _ y ?%elem_of_nil. }
  destruct (last_split P l) as [r|].
  - split; [done|]. intros Hall. apply IH. intros z Hz. apply Hall. by right.
  - destruct (P y) eqn:Ey.
    + split; [done|]. intros Hall. rewrite Hall in Ey; [done|]. by left.
    + split; [|done]. intros _ z [->|Hz]%elem_of_cons; [done|]. by apply IH.
Qed.
Lemma last_split_spec {A} (P : A → bool) l x after :
  last_split P l = Some (x, after) ↔
  ∃ before, l = before ++ x :: after ∧ P x = true ∧ ∀ y, y ∈ after → P y = false.
Proof.
  revert x after. induction l as [|y l IH]; intros x after; simpl.
  { split; [done|]. by intros ([|] & ? & _). }
  destruct (last_split P l) as [[x' after']|] eqn:E; [|pose proof (proj1 (last_split_none P l) E)].
  - rewrite IH. split.
    + intros (before & -> & ? & ?). by exists (y :: before).
    + intros ([|z before] & Heq & Hx & Hafter); simplify_eq/=; [|by exists before].
      apply last_split_none in Hafter. congruence.
  - destruct (P y) eqn:Ey.
    + split; [intros [= -> ->]; by exists []|].
      intros ([|z before] & Heq & Hx & Hafter); simplify_eq/=; [done|].
      exfalso. rewrite H in Hx; [done|]. apply elem_of_app. right. by left.
    + split; [done|]. intros ([|z before] & Heq & Hx & Hafter); simplify_eq/=; [congruence|].
      exfalso. rewrite H in Hx; [done|]. apply elem_of_app. right. by left.
Qed.
Lemma last_matching_in {A} (P : A → bool) l x :
  last_matching P l = Some x → x ∈ l ∧ P x = true.
Proof.
  unfold last_matching. intros ([y after] & Hs & ->)%fmap_Some.
  apply last_split_spec in Hs as (before & -> & Hx & _). split; [|done].
  apply elem_of_app. right. by left.
Qed.

(** The first element with a property is unique. *)
Lemma first_unique {A} (P : A → Prop) l x r l' x' r' :
  l ++ x :: r = l' ++ x' :: r' → P x → P x' → (∀ y, y ∈ l → ¬ P y) → (∀ y, y ∈ l' → ¬ P y) →
  l = l' ∧ x = x' ∧ r = r'.
Proof.
  revert l'. induction l as [|y l IH]; intros [|y' l'] Heq Hx Hx' Hl Hl'; simplify_eq/=.
  - done.
  - destruct (Hl' y'); [by left|done].
  - destruct (Hl x'); [by left|done].
  - destruct (IH l') as (-> & -> & ->); try done; intros z Hz; [apply Hl|apply Hl']; by right.
Qed.

Section verifiers_spec.
Context `{UnicodeTables, EventJson}.
Context (attestors : list string) (fresh : Uuid) (now : string).
Implicit Types (claim : Claim) (evidence : list Evidence) (caps : RuntimeCapabilities).

(** ** Test results *)

(** The newest identified test run of the session. *)
Definition newest_test_run evidence (ev : Evidence) (newer : list Evidence) : Prop :=
  ∃ older, evidence = older ++ ev :: newer ∧ is_test_runner_evidence ev = true ∧
    ∀ e, e ∈ newer → is_test_runner_evidence e = false.

(** A run that may count as verified: a real exit status 0 and the runner's
    own summary of passing tests, attested by a collector other than the
    agent. *)
Definition passing_run (ev : Evidence) : Prop :=
  exit_code_of ev = Some 0%Z ∧ is_heuristic_evidence ev = false ∧ execution_proven ev = true ∧
  is_independently_attested attestors ev = true.

(** The verdict and the citation of a test-result claim. *)
Definition test_result_spec evidence caps (v : Verdict) (cites : list Uuid) : Prop :=
  if negb (observable_any caps ToolTrace FinalResponse) then v = Unavailable ∧ cites = [] else
  match v with
  | Verified =>
      ∃ ev newer, newest_test_run evidence ev newer ∧ passing_run ev ∧ cites = [ev_id ev] ∧
        ∀ e, e ∈ newer → mentions_unidentified_runner e = false
  | Contradicted =>
      ∃ ev newer code, newest_test_run evidence ev newer ∧ exit_code_of ev = Some code ∧
        code ≠ 0%Z ∧ is_stderr_heuristic_evidence ev = false ∧ cites = [ev_id ev]
  | Review =>
      ∃ ev newer code, newest_test_run evidence ev newer ∧ exit_code_of ev = Some code ∧
        cites = [ev_id ev] ∧
        (code = 0%Z ∧ is_heuristic_evidence ev = true ∨
         code ≠ 0%Z ∧ is_stderr_heuristic_evidence ev = true ∨
         code = 0%Z ∧ is_heuristic_evidence ev = false ∧ execution_proven ev = true ∧
         is_independently_attested attestors ev = false ∧
         ∀ e, e ∈ newer → mentions_unidentified_runner e = false)
  | Unverified =>
      cites = [] ∧ (∀ e, e ∈ evidence → is_test_runner_evidence e = false) ∨
      ∃ ev newer, newest_test_run evidence ev newer ∧ exit_code_of ev = Some 0%Z ∧
        is_heuristic_evidence ev = false ∧ cites = [ev_id ev] ∧
        ((∃ e, e ∈ newer ∧ mentions_unidentified_runner e = true) ∨ execution_proven ev = false)
  | Unavailable =>
      cites = [] ∧ ∃ ev newer, newest_test_run evidence ev newer ∧ exit_code_of ev = None
  end.

Lemma existsb_false_iff {A} (P : A → bool) l :
  existsb P l = false ↔ ∀ x, x ∈ l → P x = false.
Proof.
  rewrite <-not_true_iff_false, existsb_exists. setoid_rewrite <-list_elem_of_In. split.
  - intros Hno x Hx. apply not_true_iff_false. eauto.
  - intros Hall (x & Hx & HP). rewrite Hall in HP; done.
Qed.
Lemma existsb_true_iff {A} (P : A → bool) l :
  existsb P l = true ↔ ∃ x, x ∈ l ∧ P x = true.
Proof. rewrite existsb_exists. by setoid_rewrite <-list_elem_of_In. Qed.

Lemma test_result_sound claim evidence caps :
  let f := test_result_verify attestors fresh now claim evidence caps in
  test_result_spec evidence caps (finding_verdict f) (finding_evidence_ids f).
Proof.
  unfold test_result_verify, test_result_spec.
  destruct (observable_any caps ToolTrace FinalResponse) eqn:Eo; simpl; [|done].
  destruct (last_split _ evidence) as [[ev newer]|] eqn:El.
  2:{ left. split; [done|]. by apply last_split_none. }
  assert (newest_test_run evidence ev newer) as Hn by by apply last_split_spec.
  destruct (exit_code_of ev) as [code|] eqn:Ec.
  2:{ split; [done|]. by exists ev, newer. }
  case_decide as Hz; [subst code|].
  - destruct (is_heuristic_evidence ev) eqn:Eh.
    { exists ev, newer, 0%Z. split_and!; try done. by left. }
    destruct (existsb _ newer) eqn:Em.
    { right. exists ev, newer. split_and!; try done. left. by apply existsb_true_iff in Em. }
    destruct (execution_proven ev) eqn:Ep; simpl.
    2:{ right. exists ev, newer. split_and!; try done. by right. }
    rewrite existsb_false_iff in Em. destruct (is_independently_attested attestors ev) eqn:Ea; simpl.
    + exists ev, newer. by split_and!.
    + exists ev, newer, 0%Z. split_and!; try done. right. right. by split_and!.
  - destruct (is_stderr_heuristic_evidence ev) eqn:Eh.
    + exists ev, newer, code. split_and!; try done. right. by left.
    + exists ev, newer, code. by split_and!.
Qed.

Lemma newest_unique evidence ev newer ev' newer' :
  newest_test_run evidence ev newer → newest_test_run evidence ev' newer' →
  ev = ev' ∧ newer = newer'.
Proof.
  unfold newest_test_run. intros H1%last_split_spec H2%last_split_spec.
  rewrite H1 in H2. by injection H2.
Qed.
Lemma newest_elem evidence ev newer : newest_test_run evidence ev newer → ev ∈ evidence.
Proof. intros (older & -> & _). apply elem_of_app. right. by left. Qed.

Lemma test_result_deterministic evidence caps v cites v' cites' :
  test_result_spec evidence caps v cites → test_result_spec evidence caps v' cites' →
  v = v' ∧ cites = cites'.
Proof.
  unfold test_result_spec. destruct (observable_any _ _ _); simpl; [|naive_solver].
  assert (∀ ev newer, newest_test_run evidence ev newer →
    (∀ e, e ∈ evidence → is_test_runner_evidence e = false) → False) as Hnone.
  { intros ev newer Hn Hall. pose proof (newest_elem _ _ _ Hn) as Hin.
    destruct Hn as (older & _ & Ht & _). rewrite Hall in Ht; done. }
  unfold passing_run. intros H1 H2.
  destruct v, v'; repeat match goal with
    | H : _ ∧ _ |- _ => destruct H
    | H : ∃ _, _ |- _ => destruct H
    | H : _ ∨ _ |- _ => destruct H
    | H1 : newest_test_run _ _ _, H2 : newest_test_run _ _ _ |- _ =>
        destruct (newest_unique _ _ _ _ _ H1 H2) as [? ?]; clear H2; subst
    | Hall : ∀ e, e ∈ _ → mentions_unidentified_runner e = false, He : ?e ∈ _ |- _ =>
        specialize (Hall e He)
    | Hall : ∀ e, e ∈ evidence → is_test_runner_evidence e = false,
      Hn : newest_test_run _ _ _ |- _ => destruct (Hnone _ _ Hn Hall)
    end; try congruence; split; congruence.
Qed.

(** The summary of a run whose output can be attributed to its runner. *)
Definition proven_passing (ev : Evidence) : Prop :=
  ∃ kind summary passed, only_runner (command_of ev) kind ∧ kind ≠ RunOther ∧
    value_get (ev_payload ev) "test_summary" = Some summary ∧
    value_get summary "format" ≫= as_str =
      Some (match kind with RunPytest => "pytest" | _ => "cargo" end) ∧
    value_get summary "passed" ≫= as_u64 = Some passed ∧ (1 ≤ passed)%Z ∧
    value_get summary "failed" ≫= as_u64 = Some 0%Z.
Lemma execution_proven_passing ev : execution_proven ev = true → proven_passing ev.
Proof.
  unfold execution_proven. destruct (proven_runner (command_of ev)) as [kind|] eqn:Er; [|done].
  apply proven_runner_only in Er as [Hk Hr].
  destruct (value_get (ev_payload ev) "test_summary") as [summary|] eqn:Es; [|done].
  rewrite !andb_true_iff, bool_decide_eq_true. intros [[Hf Hp] Hz].
  destruct (value_get summary "passed" ≫= as_u64) as [passed|] eqn:Ep; [|done].
  apply bool_decide_eq_true in Hp. exists kind, summary, passed. split_and!; try done.
  by destruct kind; [apply bool_decide_eq_true in Hf..|].
Qed.
Lemma attested_needs_attestor ev :
  is_independently_attested attestors ev = true →
  ∃ s, ev_source ev = Some s ∧ sensor_name s ∈ attestors ∧
       (trust_class s = HostObserved ∨ trust_class s = IndependentExternal).
Proof.
  unfold is_independently_attested. destruct (ev_source ev) as [s|]; [|done].
  rewrite andb_true_iff, !bool_decide_eq_true. intros [? ?]. by exists s.
Qed.

(** ** Commands *)

(** A row that ran the claimed command. *)
Definition exact_row (claimed : Chars) (e : Evidence) : Prop :=
  ev_kind e = ExitCode ∧ same_command claimed (command_of e).
Lemma bind_row_exact claimed e : bind_row claimed e = BindExact ↔ same_command claimed (command_of e).
Proof. apply bind_exact_iff. Qed.

Lemma executed_loop_spec claim claimed prefix mentioned rows :
  let f := executed_loop fresh now claim claimed prefix mentioned rows in
  (finding_verdict f = Verified ∧
   (∃ newer ev older, rows = newer ++ ev :: older ∧ bind_row claimed ev = BindExact ∧
      (∀ e, e ∈ newer → bind_row claimed e ≠ BindExact) ∧ finding_evidence_ids f = [ev_id ev])) ∨
  (∀ e, e ∈ rows → bind_row claimed e ≠ BindExact) ∧
  (finding_verdict f = Unverified ∧ finding_evidence_ids f = [] ∨
   finding_verdict f = Review ∧ ∃ ev, finding_evidence_ids f = [ev_id ev] ∧
     (prefix = Some ev ∨ ev ∈ rows ∧ bind_row claimed ev = BindPrefix)).
Proof.
  revert prefix mentioned. induction rows as [|e rows IH]; intros prefix mentioned; simpl.
  { right. split; [by intros e ?%elem_of_nil|]. destruct prefix as [ev|]; simpl; [|by left].
    right. split; [done|]. exists ev. auto. }
  assert (bind_row claimed e ≠ BindExact → ∀ p m,
    (p = prefix ∨ bind_row claimed e = BindPrefix ∧
       p = match prefix with Some r => Some r | None => Some e end) →
    let f := executed_loop fresh now claim claimed p m rows in
    (finding_verdict f = Verified ∧
     (∃ newer ev older, e :: rows = newer ++ ev :: older ∧ bind_row claimed ev = BindExact ∧
        (∀ e, e ∈ newer → bind_row claimed e ≠ BindExact) ∧ finding_evidence_ids f = [ev_id ev])) ∨
    (∀ e', e' ∈ e :: rows → bind_row claimed e' ≠ BindExact) ∧
    (finding_verdict f = Unverified ∧ finding_evidence_ids f = [] ∨
     finding_verdict f = Review ∧ ∃ ev, finding_evidence_ids f = [ev_id ev] ∧
       (prefix = Some ev ∨ ev ∈ e :: rows ∧ bind_row claimed ev = BindPrefix))) as Hskip.
  { intros He p m Hp. destruct (IH p m) as [[Hv (newer & ev & older & -> & Hev & Hn & Hids)]|[Hno Hr]].
    - left. split; [done|]. exists (e :: newer), ev, older. split_and!; try done.
      intros e' [->|?]%elem_of_cons; [done|by apply Hn].
    - right. split; [intros e' [->|?]%elem_of_cons; [done|by apply Hno]|].
      destruct Hr as [?|(Hv & ev & Hids & Hev)]; [by left|right]. split; [done|]. exists ev.
      split; [done|]. destruct Hev as [Hpe|[Hin Hb]]; [|right; split; [by right|done]].
      destruct Hp as [->|[Hb ->]]; [by left|]. destruct prefix; [by left|].
      injection Hpe as <-. right. split; [by left|done]. }
  destruct (bind_row claimed e) eqn:Eb; [|apply Hskip; auto..].
  left. split; [done|]. exists [], e, rows. split_and!; try done. by intros e' ?%elem_of_nil.
Qed.

Lemma exit_rows_in evidence e : e ∈ exit_rows evidence ↔ e ∈ evidence ∧ ev_kind e = ExitCode.
Proof. unfold exit_rows. rewrite list_elem_of_filter, elem_of_reverse. tauto. Qed.

(** The command the claim names, when it names one that parses. *)
Definition names_command claim (claimed : Chars) : Prop :=
  command_literal (chars (claim_text claim)) = LitOne claimed ∧
  claim_command_parses claimed = true.

Lemma claimed_command_cases name claim none :
  (∃ claimed, claimed_command fresh now name claim none = Ok claimed ∧ names_command claim claimed) ∨
  (∃ rationale, claimed_command fresh now name claim none =
     Err (found fresh now name claim Unverified [] rationale) ∧
     ∀ claimed, ¬ names_command claim claimed).
Proof.
  unfold claimed_command, names_command.
  destruct (command_literal (chars (claim_text claim))) as [|claimed|];
    [right|destruct (claim_command_parses claimed) eqn:Ep; [left|right]|right].
  - eexists. split; [done|]. by intros ? [? _].
  - exists claimed. done.
  - eexists. split; [done|]. intros ? [[= <-] ?]. congruence.
  - eexists. split; [done|]. by intros ? [? _].
Qed.

(** When a claim that a command was executed is verified. *)
Definition executed_spec claim evidence caps (ev : Evidence) : Prop :=
  observable_any caps ToolTrace FinalResponse = true ∧
  ∃ claimed newer older, names_command claim claimed ∧
    exit_rows evidence = newer ++ ev :: older ∧ same_command claimed (command_of ev) ∧
    ∀ e, e ∈ newer → ¬ same_command claimed (command_of e).

Lemma command_executed_exact claim evidence caps :
  let f := command_executed_verify fresh now claim evidence caps in
  (∀ ev, executed_spec claim evidence caps ev →
     finding_verdict f = Verified ∧ finding_evidence_ids f = [ev_id ev]) ∧
  (finding_verdict f = Verified → ∃ ev, executed_spec claim evidence caps ev ∧ ev ∈ evidence ∧
     finding_evidence_ids f = [ev_id ev]) ∧
  finding_verdict f ≠ Contradicted.
Proof.
  unfold command_executed_verify, executed_spec.
  destruct (observable_any caps ToolTrace FinalResponse) eqn:Eo; simpl.
  2:{ split; [by intros ev [? _]|]. by split. }
  destruct (claimed_command_cases COMMAND_EXECUTED claim
    "claim text does not name a literal command to check against evidence")
    as [(claimed & -> & Hn)|(rationale & -> & Hno)]; simpl.
  2:{ split; [|by split]. intros ev (_ & claimed & ? & ? & Hn & _). by destruct (Hno claimed). }
  destruct (executed_loop_spec claim claimed None false (exit_rows evidence))
    as [[Hv (newer & ev & older & Heq & Hev & Hnew & Hids)]|[Hnone Hr]].
  - setoid_rewrite bind_row_exact in Hnew. rewrite bind_row_exact in Hev. rewrite Hv.
    assert (∃ claimed newer older, names_command claim claimed ∧
      exit_rows evidence = newer ++ ev :: older ∧ same_command claimed (command_of ev) ∧
      ∀ e, e ∈ newer → ¬ same_command claimed (command_of e)) as Hspec.
    { by exists claimed, newer, older. }
    split_and!; [| |done].
    + intros ev' (_ & claimed' & newer' & older' & [Hl' _] & Heq' & Hev' & Hnew').
      split; [done|]. rewrite Hids. destruct Hn as [Hl _]. rewrite Hl in Hl'. injection Hl' as <-.
      rewrite Heq in Heq'.
      by destruct (first_unique (λ e, same_command claimed (command_of e)) _ _ _ _ _ _ Heq')
        as (_ & -> & _).
    + intros _. exists ev. split; [done|]. split; [|done].
      assert (ev ∈ exit_rows evidence) as [? _]%exit_rows_in; [|done].
      rewrite Heq. apply elem_of_app. right. by left.
  - split_and!.
    + intros ev (_ & claimed' & newer' & older' & [Hl' _] & Heq' & Hev' & _).
      destruct Hn as [Hl _]. rewrite Hl in Hl'. injection Hl' as <-.
      apply bind_row_exact in Hev'. destruct (Hnone ev); [|done].
      rewrite Heq'. apply elem_of_app. right. by left.
    + destruct Hr as [[-> _]|[-> _]]; done.
    + destruct Hr as [[-> _]|[-> _]]; done.
Qed.

(** ** Successes *)

Definition unbound (claimed : Chars) (e : Evidence) : bool :=
  match bind_row claimed e with NotBound => true | _ => false end.

Lemma select_exact claimed e newer older seen prefix :
  bind_row claimed e = BindExact → (∀ e', e' ∈ newer → bind_row claimed e' ≠ BindExact) →
  ∃ m, (select_loop claimed seen prefix (newer ++ e :: older)).1 = Some (e, false, m) ∧
       (m = false ↔ seen = false ∧ forallb (unbound claimed) newer = true).
Proof.
  intros He. revert seen prefix. induction newer as [|x newer IH]; intros seen prefix Hno; simpl.
  { rewrite He. exists seen. split; [done|]. tauto. }
  assert (∀ e', e' ∈ newer → bind_row claimed e' ≠ BindExact) as Hno'.
  { intros e' ?. apply Hno. by right. }
  assert (∀ b, unbound claimed x = b → (∀ m, (m = false ↔ (if b then seen else true) = false ∧
      forallb (unbound claimed) newer = true) →
    m = false ↔ seen = false ∧ unbound claimed x && forallb (unbound claimed) newer = true))
    as Hm.
  { intros b <- m ->. rewrite andb_true_iff. destruct (unbound claimed x); naive_solver. }
  unfold unbound in Hm at 1. specialize (Hm _ eq_refl).
  assert (bind_row claimed x ≠ BindExact) as Hx by (apply Hno; by left).
  destruct (bind_row claimed x) eqn:Ex; [done|..];
    match goal with |- context [select_loop claimed ?s ?p _] =>
      destruct (IH s p Hno') as (m & Hsel & Hiff) end; exists m; (split; [done|]); by apply Hm.
Qed.
Lemma select_prefix claimed rows seen prefix e only m :
  (∀ e', e' ∈ rows → bind_row claimed e' ≠ BindExact) →
  (select_loop claimed seen prefix rows).1 = Some (e, only, m) →
  prefix = Some (e, only, m) ∨ e ∈ rows ∧ bind_row claimed e = BindPrefix ∧ only = true.
Proof.
  revert seen prefix. induction rows as [|x rows IH]; intros seen prefix Hno; simpl; [by left|].
  assert (∀ e', e' ∈ rows → bind_row claimed e' ≠ BindExact) as Hno'.
  { intros e' ?. apply Hno. by right. }
  assert (bind_row claimed x ≠ BindExact) as Hx by (apply Hno; by left).
  destruct (bind_row claimed x) eqn:Ex; [done|..]; intros Hs;
    apply IH in Hs as [Hs|(? & ? & ?)]; try done; try (right; split_and!; [by right|done..]);
    try (by left).
  destruct prefix as [p|]; [by left|]. injection Hs as <- <- <-. right. split_and!; [by left|done..].
Qed.
(** There is an exact row, with none newer, or there is none. *)
Lemma exact_or_none claimed (rows : list Evidence) :
  (∃ newer e older, rows = newer ++ e :: older ∧ bind_row claimed e = BindExact ∧
     ∀ e', e' ∈ newer → bind_row claimed e' ≠ BindExact) ∨
  (∀ e, e ∈ rows → bind_row claimed e ≠ BindExact).
Proof.
  induction rows as [|x rows IH]; [right; by intros ? ?%elem_of_nil|].
  destruct (bind_row claimed x) eqn:Ex.
  { left. exists [], x, rows. split_and!; try done. by intros ? ?%elem_of_nil. }
  all: destruct IH as [(newer & e & older & -> & He & Hn)|Hno];
    [left; exists (x :: newer), e, older; split_and!; [done..|];
       intros e' [->|?]%elem_of_cons; [congruence|by apply Hn]
    |right; intros e' [->|?]%elem_of_cons; [congruence|by apply Hno]].
Qed.

(** A row that shows the success of the claimed command. *)
Definition succeeded (claimed : Chars) (ev : Evidence) : Prop :=
  exit_code_of ev = Some 0%Z ∧ is_heuristic_evidence ev = false ∧
  is_independently_attested attestors ev = true ∧
  (is_test_runner_evidence ev = true → execution_proven ev = true) ∧
  (names_test_command claimed = true → is_test_runner_evidence ev = true).

Lemma success_finding_verified claim claimed ev newer :
  let f := success_finding attestors fresh now claim claimed ev newer in
  (finding_verdict f = Verified ↔ succeeded claimed ev ∧ newer = false) ∧
  (finding_verdict f = Contradicted → finding_evidence_ids f = [ev_id ev] ∧
     is_stderr_heuristic_evidence ev = false ∧
     ∃ code, exit_code_of ev = Some code ∧ code ≠ 0%Z) ∧
  (finding_evidence_ids f = [] ∨ finding_evidence_ids f = [ev_id ev]) ∧
  (finding_verdict f = Verified → finding_evidence_ids f = [ev_id ev]).
Proof.
  unfold success_finding, succeeded. destruct (exit_code_of ev) as [code|]; simpl;
    [|naive_solver].
  case_decide as Hz; simpl.
  2:{ destruct (is_stderr_heuristic_evidence ev); simpl; [naive_solver|].
      split_and!; try done; [naive_solver|by intros _; split_and!; eauto|by right]. }
  subst code. destruct (is_heuristic_evidence ev); simpl; [intuition congruence|].
  destruct (is_test_runner_evidence ev) eqn:Et, (execution_proven ev) eqn:Ep; simpl;
    [|intuition congruence|..];
    (destruct (is_independently_attested attestors ev); simpl;
      [|repeat case_match; simpl; intuition congruence]);
    (destruct newer; [simpl; intuition congruence|]);
    (destruct (names_test_command claimed); simpl; intuition congruence).
Qed.

(** When a claim that a command succeeded is verified: the newest run of
    exactly the claimed command succeeded, and no newer row ran it with more
    arguments or mentions it. *)
Definition success_spec claim evidence caps (ev : Evidence) : Prop :=
  observable_any caps ToolTrace FinalResponse = true ∧
  ∃ claimed newer older, names_command claim claimed ∧
    exit_rows evidence = newer ++ ev :: older ∧ same_command claimed (command_of ev) ∧
    (∀ e, e ∈ newer → bind_row claimed e = NotBound) ∧ succeeded claimed ev.

(** The claimed command is the same for every row. *)
Lemma names_command_unique claim claimed claimed' :
  names_command claim claimed → names_command claim claimed' → claimed = claimed'.
Proof. intros [Hl _] [Hl' _]. congruence. Qed.
Lemma no_exact_no_success claim claimed evidence caps ev :
  names_command claim claimed → (∀ e, e ∈ exit_rows evidence → bind_row claimed e ≠ BindExact) →
  ¬ success_spec claim evidence caps ev.
Proof.
  intros Hn Hnone (_ & claimed' & newer & older & Hn' & Heq & Hev & _).
  rewrite <-(names_command_unique _ _ _ Hn Hn') in Hev. apply bind_row_exact in Hev.
  apply (Hnone ev); [|done]. rewrite Heq. apply elem_of_app. right. by left.
Qed.

(** The finding when the newest exact row is [ev]. *)
Lemma success_on_exact claim claimed evidence caps newer ev older m :
  names_command claim claimed → observable_any caps ToolTrace FinalResponse = true →
  exit_rows evidence = newer ++ ev :: older → bind_row claimed ev = BindExact →
  (∀ e, e ∈ newer → bind_row claimed e ≠ BindExact) →
  (m = false ↔ forallb (unbound claimed) newer = true) →
  ∀ ev', (success_spec claim evidence caps ev' ↔ ev' = ev ∧ succeeded claimed ev ∧ m = false).
Proof.
  intros Hn Hobs Heq Hev Hnew Hm ev'.
  assert (m = false ↔ ∀ e, e ∈ newer → bind_row claimed e = NotBound) as ->.
  { rewrite Hm, forallb_forall. setoid_rewrite <-list_elem_of_In. unfold unbound. split.
    - intros Hu e He. specialize (Hu e He). by destruct (bind_row claimed e).
    - intros Hu e He. by rewrite Hu. }
  split.
  - intros (_ & claimed' & newer' & older' & Hn' & Heq' & Hev' & Hnew' & Hs).
    rewrite <-(names_command_unique _ _ _ Hn Hn') in *. apply bind_row_exact in Hev'.
    rewrite Heq in Heq'.
    destruct (first_unique (λ e, bind_row claimed e = BindExact) _ _ _ _ _ _ Heq')
      as (<- & <- & <-); try done. intros y Hy. by rewrite (Hnew' y Hy).
  - intros (-> & Hs & Hu). split; [done|]. apply bind_row_exact in Hev.
    by exists claimed, newer, older.
Qed.

Lemma command_success_exact claim evidence caps :
  let f := command_success_verify attestors fresh now claim evidence caps in
  (∀ ev, success_spec claim evidence caps ev →
     finding_verdict f = Verified ∧ finding_evidence_ids f = [ev_id ev]) ∧
  (finding_verdict f = Verified → ∃ ev, success_spec claim evidence caps ev ∧ ev ∈ evidence ∧
     finding_evidence_ids f = [ev_id ev]) ∧
  (finding_verdict f = Contradicted → ∃ ev code claimed, ev ∈ evidence ∧ ev_kind ev = ExitCode ∧
     names_command claim claimed ∧
     (bind_row claimed ev = BindExact ∨ bind_row claimed ev = BindPrefix) ∧
     exit_code_of ev = Some code ∧ code ≠ 0%Z ∧ is_stderr_heuristic_evidence ev = false ∧
     finding_evidence_ids f = [ev_id ev]).
Proof.
  unfold command_success_verify.
  destruct (observable_any caps ToolTrace FinalResponse) eqn:Eo; simpl.
  2:{ split; [intros ev [? _]; congruence|by split]. }
  destruct (claimed_command_cases COMMAND_SUCCESS claim
    "claim names no specific command; cannot bind to unrelated command evidence")
    as [(claimed & -> & Hn)|(rationale & -> & Hno)]; simpl.
  2:{ split; [|by split]. intros ev (_ & claimed & ? & ? & Hn & _). by destruct (Hno claimed). }
  destruct (exact_or_none claimed (exit_rows evidence))
    as [(newer & ev & older & Heq & Hev & Hnew)|Hnone].
  - destruct (select_exact claimed ev newer older false None Hev Hnew) as (m & Hsel & Hm).
    pose proof (success_on_exact claim claimed evidence caps newer ev older m Hn Eo Heq Hev Hnew
      ltac:(tauto)) as Hspec.
    assert (ev ∈ exit_rows evidence) as [Hin Hkind]%exit_rows_in.
    { rewrite Heq. apply elem_of_app. right. by left. }
    rewrite Heq. destruct (select_loop claimed false None (newer ++ ev :: older)) as [sel seen].
    simpl in Hsel. subst sel. simpl.
    destruct (success_finding_verified claim claimed ev m) as (Hver & Hcon & _ & Hcite).
    split_and!.
    + intros ev' (-> & Hs)%Hspec. apply Hver in Hs. auto.
    + intros Hv. exists ev. split; [|by auto]. apply Hspec. split; [done|]. by apply Hver.
    + intros Hv. destruct (Hcon Hv) as (? & ? & code & ? & ?). exists ev, code, claimed.
      split_and!; try done. by left.
  - pose proof (no_exact_no_success claim claimed evidence caps) as Hnot.
    split; [intros ev Hs; by destruct (Hnot ev Hn Hnone)|].
    destruct (select_loop claimed false None (exit_rows evidence)) as [[[[ev only] m]|] seen] eqn:Es;
      [|done].
    destruct (select_prefix claimed (exit_rows evidence) false None ev only m) as [?|(Hin & Hb & ->)];
      [done|by rewrite Es|done|]. simpl.
    apply exit_rows_in in Hin as [Hin Hkind].
    destruct (success_finding_verified claim claimed ev m) as (_ & Hcon & _).
    case_bool_decide as Hv; simpl; [done|]. split; [done|].
    intros Hc. destruct (Hcon Hc) as (? & ? & code & ? & ?). exists ev, code, claimed.
    split_and!; try done. by right.
Qed.

(** ** Files and git *)

Lemma file_modified_verdicts claim evidence caps :
  let f := file_modified_verify fresh now claim evidence caps in
  finding_verdict f ≠ Verified ∧ finding_verdict f ≠ Contradicted ∧
  (finding_verdict f = Review → ∃ ev path p, ev ∈ evidence ∧ ev_kind ev = FileDiff ∧
     extract_path_literal (chars (claim_text claim)) = Some path ∧
     value_get (ev_payload ev) "path" ≫= as_str = Some p ∧ path_matches (chars p) path = true ∧
     finding_evidence_ids f = [ev_id ev]).
Proof.
  unfold file_modified_verify. destruct (observable_any _ _ _); [|done]. simpl.
  destruct (extract_path_literal _) as [path|]; [|done].
  destruct (last_matching _ evidence) as [ev|] eqn:El; [|done].
  apply last_matching_in in El as [Hin Hd].
  destruct (value_get (ev_payload ev) "diff" ≫= as_str) as [[|]|]; try done.
  split_and!; try done. intros _. revert Hd. unfold diffs_path. rewrite andb_true_iff.
  intros [Hk%bool_decide_eq_true Hp]. destruct (value_get (ev_payload ev) "path" ≫= as_str) as [p|] eqn:Ep;
    [|done]. by exists ev, path, p.
Qed.

(** What a verified commit or push rests on: git's own report, which does not
    name another commit or branch than the claim. *)
Definition commit_reported claim (ev : Evidence) : Prop :=
  matches_operation "commit" ev = true ∧ observation ev "outcome" = Some "created" ∧
  ∀ claimed actual, extract_sha_literal (chars (claim_text claim)) = Some claimed →
    observation ev "commit_sha" = Some actual → sha_matches claimed (chars actual) = true.
Definition push_reported claim (ev : Evidence) : Prop :=
  matches_operation "push" ev = true ∧ observation ev "outcome" = Some "ref_updated" ∧
  ∀ claimed actual, extract_literal (chars (claim_text claim)) = Some claimed →
    observation ev "branch" = Some actual → eq_ignore_ascii_case claimed (chars actual) = true.

Definition git_verified claim evidence (ev : Evidence) : Prop :=
  claim_subject claim = "git_commit" ∧ commit_reported claim ev ∧
    last_matching (matches_operation "commit") evidence = Some ev ∨
  claim_subject claim = "git_push" ∧ push_reported claim ev ∧
    last_matching (matches_operation "push") evidence = Some ev.

Lemma verify_commit_verified claim evidence ev :
  last_matching (matches_operation "commit") evidence = Some ev → commit_reported claim ev ↔
  finding_verdict (verify_commit fresh now claim evidence) = Verified.
Proof.
  intros Hl. pose proof (last_matching_in _ _ _ Hl) as [_ Hm]. unfold verify_commit, commit_reported.
  rewrite Hl. case_decide as Ho; simpl.
  - destruct (extract_sha_literal _) as [claimed|]; [|by split].
    destruct (observation ev "commit_sha") as [actual|]; [|by split].
    destruct (sha_matches claimed (chars actual)) eqn:Es.
    + split; [done|]. intros _. split_and!; try done. by intros ? ? [= <-] [= <-].
    + split; [|done]. intros (_ & _ & Hall). specialize (Hall _ _ eq_refl eq_refl). congruence.
  - case_decide; (split; [by intros (_ & ? & _)|done]).
Qed.
Lemma verify_push_verified claim evidence ev :
  last_matching (matches_operation "push") evidence = Some ev → push_reported claim ev ↔
  finding_verdict (verify_push fresh now claim evidence) = Verified.
Proof.
  intros Hl. pose proof (last_matching_in _ _ _ Hl) as [_ Hm]. unfold verify_push, push_reported.
  rewrite Hl. case_decide as Ho; simpl.
  - destruct (extract_literal _) as [claimed|]; [|by split].
    destruct (observation ev "branch") as [actual|]; [|by split].
    destruct (eq_ignore_ascii_case claimed (chars actual)) eqn:Es.
    + split; [done|]. intros _. split_and!; try done. by intros ? ? [= <-] [= <-].
    + split; [|done]. intros (_ & _ & Hall). specialize (Hall _ _ eq_refl eq_refl). congruence.
  - repeat case_decide; (split; [by intros (_ & ? & _)|done]).
Qed.
Lemma verify_git_cites claim evidence :
  (∀ ev, last_matching (matches_operation "commit") evidence = Some ev →
     finding_verdict (verify_commit fresh now claim evidence) = Verified →
     finding_evidence_ids (verify_commit fresh now claim evidence) = [ev_id ev]) ∧
  (∀ ev, last_matching (matches_operation "push") evidence = Some ev →
     finding_verdict (verify_push fresh now claim evidence) = Verified →
     finding_evidence_ids (verify_push fresh now claim evidence) = [ev_id ev]).
Proof.
  split; intros ev Hl; [unfold verify_commit|unfold verify_push]; rewrite Hl;
    repeat case_decide; repeat case_match; done.
Qed.

Lemma git_operation_exact claim evidence caps :
  let f := git_operation_verify fresh now claim evidence caps in
  finding_verdict f = Verified ↔
  observable_any caps ToolTrace ToolResultPayload = true ∧
  ∃ ev, git_verified claim evidence ev ∧ ev ∈ evidence ∧ finding_evidence_ids f = [ev_id ev].
Proof.
  unfold git_operation_verify, git_verified.
  destruct (observable_any _ _ _); simpl; [|split; [done|by intros [? _]]].
  destruct (verify_git_cites claim evidence) as [Hcc Hcp].
  case_decide as Hs; [|case_decide as Hs'].
  - transitivity (∃ ev, commit_reported claim ev ∧
      last_matching (matches_operation "commit") evidence = Some ev).
    + destruct (last_matching (matches_operation "commit") evidence) as [ev|] eqn:El.
      * rewrite <-(verify_commit_verified _ _ _ El). naive_solver.
      * unfold verify_commit. rewrite El. naive_solver.
    + split.
      * intros (ev & Hc & Hl). split; [done|]. exists ev. split; [by left|].
        split; [by apply last_matching_in in Hl as [? _]|]. apply Hcc; [done|].
        by apply (verify_commit_verified _ _ ev).
      * intros (_ & ev & [(_ & ? & ?)|(? & _)] & _); [by exists ev|congruence].
  - transitivity (∃ ev, push_reported claim ev ∧
      last_matching (matches_operation "push") evidence = Some ev).
    + destruct (last_matching (matches_operation "push") evidence) as [ev|] eqn:El.
      * rewrite <-(verify_push_verified _ _ _ El). naive_solver.
      * unfold verify_push. rewrite El. naive_solver.
    + split.
      * intros (ev & Hc & Hl). split; [done|]. exists ev. split; [by right|].
        split; [by apply last_matching_in in Hl as [? _]|]. apply Hcp; [done|].
        by apply (verify_push_verified _ _ ev).
      * intros (_ & ev & [(? & _)|(_ & ? & ?)] & _); [congruence|by exists ev].
  - split; [done|]. intros (_ & ev & [[? _]|[? _]] & _); done.
Qed.
End verifiers_spec.

(** ** The claims on one verdict *)

Section verdicts.
Context `{UnicodeTables, EventJson}.

(** C29. A verdict on a test-result claim is exactly what the session shows:
    the verdict and the citation are the only ones the specification allows.
    It is verified only by the newest identified test run, with a real exit
    status 0, the runner's own summary of at least one passing and no failing
    test, an attestation by a known collector, and no newer row that mentions
    a runner; contradicted only by that run's real failure. And whatever is
    verified is a command whose only output is its one runner's. *)
Theorem test_result_verdict_exact attestors fresh now claim evidence caps v cites :
  let f := test_result_verify attestors fresh now claim evidence caps in
  (finding_verdict f = v ∧ finding_evidence_ids f = cites ↔
   test_result_spec attestors evidence caps v cites) ∧
  (∀ ev, passing_run attestors ev → proven_passing ev ∧
     ∃ s, ev_source ev = Some s ∧ sensor_name s ∈ attestors).
Proof.
  intros f. pose proof (test_result_sound attestors fresh now claim evidence caps) as Hs.
  split; [split|].
  - by intros [<- <-].
  - intros Hv. by eapply test_result_deterministic.
  - intros ev (_ & _ & Hp & Ha). split; [by apply execution_proven_passing|].
    apply attested_needs_attestor in Ha as (s & ? & ? & _). by exists s.
Qed.

(** A verdict on a command claim rests on a run of exactly that command:
    that it was executed is verified exactly when the newest exit-code row
    that is the claimed command step for step exists, and never contradicted;
    that it succeeded is verified exactly when that row has a real, attested
    exit status 0, is a proven test run when the command is a test command,
    and no newer row ran it with more arguments or mentions it; and it is
    contradicted only by a real failure of a row that ran it. A command that
    runs a test command behind any number of wrappers is a test command: its
    success is verified only by a proven test run. *)
Theorem command_verdicts_exact attestors fresh now claim evidence caps :
  let executed := command_executed_verify fresh now claim evidence caps in
  let success := command_success_verify attestors fresh now claim evidence caps in
  (finding_verdict executed = Verified ↔
     ∃ ev, executed_spec claim evidence caps ev ∧ finding_evidence_ids executed = [ev_id ev]) ∧
  finding_verdict executed ≠ Contradicted ∧
  (finding_verdict success = Verified ↔
     ∃ ev, success_spec attestors claim evidence caps ev ∧
           finding_evidence_ids success = [ev_id ev]) ∧
  (finding_verdict success = Contradicted →
     ∃ ev code claimed, ev ∈ evidence ∧ ev_kind ev = ExitCode ∧ names_command claim claimed ∧
       (bind_row claimed ev = BindExact ∨ bind_row claimed ev = BindPrefix) ∧
       exit_code_of ev = Some code ∧ code ≠ 0%Z ∧ is_stderr_heuristic_evidence ev = false) ∧
  (∀ claimed segments segment cmd,
     names_command claim claimed → shell_segments claimed = Some segments → segment ∈ segments →
     wraps (w_text <$> core segment) cmd → cmd ≠ [] → test_command MAX_WRAPPING cmd = true →
     finding_verdict success = Verified →
     ∃ ev, ev ∈ evidence ∧ finding_evidence_ids success = [ev_id ev] ∧
       is_test_runner_evidence ev = true ∧ proven_passing ev).
Proof.
  intros executed success.
  destruct (command_executed_exact fresh now claim evidence caps) as (He1 & He2 & He3).
  destruct (command_success_exact attestors fresh now claim evidence caps) as (Hs1 & Hs2 & Hs3).
  split_and!; [split|done|split|..].
  - intros (ev & ? & _ & ?)%He2. by exists ev.
  - by intros (ev & [? _]%He1 & _).
  - intros (ev & ? & _ & ?)%Hs2. by exists ev.
  - by intros (ev & [? _]%Hs1 & _).
  - intros (ev & code & claimed & ? & ? & ? & ? & ? & ? & ? & _)%Hs3. by exists ev, code, claimed.
  - intros claimed segments segment cmd Hn Hseg Hin Hw Hne Ht.
    intros (ev & (_ & claimed' & ? & ? & Hn' & _ & _ & _ & Hs) & Hev & Hids)%Hs2.
    rewrite <-(names_command_unique _ _ _ Hn Hn') in Hs. destruct Hs as (_ & _ & _ & Hp & Htest).
    assert (is_test_runner_evidence ev = true) as Hrun.
    { apply Htest. by eapply wrapped_step_is_named. }
    exists ev. split_and!; try done. by apply execution_proven_passing, Hp.
Qed.
End verdicts.

(** ** The daemon *)

Section daemon.
Context `{UnicodeTables, EventJson, UuidOps, TableScan, !TableScanOk, !UuidParseOk}.

(** What the verdict verified certifies of a claim, by its subject. *)
Definition certified (attestors : list string) (claim : Claim) (evidence : list Evidence)
    (caps : RuntimeCapabilities) (ev : Evidence) : Prop :=
  claim_subject claim = "test_result" ∧ passing_run attestors ev ∨
  claim_subject claim = "command_executed" ∧ executed_spec claim evidence caps ev ∨
  claim_subject claim = "command_succeeded" ∧ success_spec attestors claim evidence caps ev ∨
  git_verified claim evidence ev.

Lemma daemon_verdict_certifies attestors fresh now claim evidence caps v :
  v ∈ daemon_verifiers attestors fresh now → applies_to v claim = true →
  finding_verdict (verify v claim evidence caps) = Verified →
  ∃ ev, ev ∈ evidence ∧ certified attestors claim evidence caps ev ∧
        finding_evidence_ids (verify v claim evidence caps) = [ev_id ev].
Proof.
  unfold daemon_verifiers, certified. rewrite !elem_of_cons.
  intros [->|[->|[->|[->|[->|Hin%elem_of_nil]]]]]; [..|done]; simpl;
    intros Happ Hv; try apply bool_decide_eq_true in Happ.
  - pose proof (test_result_sound attestors (fresh 0) now claim evidence caps) as Hs.
    unfold test_result_spec in Hs. rewrite Hv in Hs.
    destruct (observable_any _ _ _); [|by destruct Hs].
    destruct Hs as (ev & newer & Hn & Hp & Hc & _). exists ev.
    split; [by eapply newest_elem|]. tauto.
  - destruct (command_executed_exact (fresh 1) now claim evidence caps) as (_ & He & _).
    destruct (He Hv) as (ev & ? & ? & ?). exists ev. tauto.
  - destruct (command_success_exact attestors (fresh 2) now claim evidence caps) as (_ & He & _).
    destruct (He Hv) as (ev & ? & ? & ?). exists ev. tauto.
  - by destruct (file_modified_verdicts (fresh 3) now claim evidence caps) as [? _].
  - apply git_operation_exact in Hv as (_ & ev & Hg & ? & ?). exists ev. tauto.
Qed.

Lemma production_never_attested ev : is_independently_attested production_attestors ev = false.
Proof.
  apply not_true_iff_false. intros (s & _ & Hs & _)%attested_needs_attestor.
  by apply elem_of_nil in Hs.
Qed.

(** What the production build can certify. *)
Definition production_certified (claim : Claim) (evidence : list Evidence)
    (caps : RuntimeCapabilities) (ev : Evidence) : Prop :=
  claim_subject claim = "command_executed" ∧ executed_spec claim evidence caps ev ∨
  git_verified claim evidence ev.
Lemma production_certifies claim evidence caps ev :
  certified production_attestors claim evidence caps ev →
  production_certified claim evidence caps ev.
Proof.
  pose proof (production_never_attested ev) as Hno.
  intros [[_ (_ & _ & _ & Ha)]|[?|[[_ (_ & c & n & o & _ & _ & _ & _ & _ & _ & Ha & _)]|?]]];
    [congruence|by left|congruence|by right].
Qed.

(** C22. What the daemon persists as verified: with the production registry,
    if every consumption statement of the call commits (a failing one is
    ignored and the verdict stands) and the consumption table is in order, a
    finding that the live path adds with the verdict verified is about an
    executed command, a commit or a push, never about a test result, a command's
    success or a written file; it cites one record of the session, which the
    origin stamped at its ingress vouches for, and that record is a run of
    exactly the claimed command or git's report of the claimed operation; the
    record was consumed by the claim or by a claim of its turn, or the pair of
    claim and record has a quarantine row, which keeps the consumption from
    being recorded. *)
Theorem persisted_verified_findings_certify w fresh now incomplete claim caps announced db r db'
    id row :
  (∀ i j, (vw_consume w i j).1.1 = Commits) → consumption_ok db →
  run_verifiers_and_persist_findings w (daemon_verifiers production_attestors fresh now)
    incomplete claim caps announced db = (r, db') →
  t_findings (ad_store db') !! id = Some row → frow_verdict row = "verified" →
  t_findings (ad_store db) !! id ≠ Some row →
  ∃ evidence sessions ev origin, announced = Ok sessions ∧
    production_certified claim evidence caps ev ∧
    frow_evidence_ids row = uuids_to_json [ev_id ev] ∧
    stored_as (claim_session_id claim) db ev origin ∧
    origin_vouches known_sensors (session_owner sessions) origin ev ∧
    turn_owns db' claim (ev_id ev) ∧ incomplete = false.
Proof.
  intros Hw Hok Hrun Hrow Hv Hnew.
  destruct (verified_findings_rest _ _ _ _ _ _ _ _ _ Hw Hok Hrun) as [_ Hall].
  destruct (Hall id row Hrow Hv Hnew) as (read & sessions & v & Hs & Hin & Happ & Hby & Hadm).
  destruct Hby as (Hinc & Hver & -> & Hown).
  destruct (daemon_verdict_certifies _ _ _ _ _ _ _ Hin Happ Hver) as (ev & Hev & Hcert & Hids).
  apply Hadm in Hev as (origin & Hst & Hvouch).
  exists (ar_admitted read), sessions, ev, origin. split_and!; try done.
  - by apply production_certifies.
  - unfold finding_row. simpl. by rewrite Hids.
  - apply Hown. rewrite Hids. by left.
Qed.
End daemon.
