(* ===== verification/VerifiersExamples.v ===== *)
(** * The verifiers on concrete sessions

    Runs that witness the theorems on the shell parser and on the daemon's
    verdicts: a command claim verified by the row that ran it, test results
    on the fixture collector of the tests, and a test command that the tables
    do not recognise. *)

From S2P Require Import Prelude.
From S2P Require Import Types.
From S2P Require Import Text.
From S2P Require Import Projection.
From S2P Require Import AuditLedger.
From S2P Require Import EventStore.
From S2P Require Import EventRead.
From S2P Require Import RetentionExamples.
From S2P Require Import Admission.
From S2P Require Import Consumption.
From S2P Require Import AdmissionSpec.
From S2P Require Import AdmissionExamples.
From S2P Require Import Shell.
From S2P Require Import ShellSpec.
From S2P Require Import Runner.
From S2P Require Import RunnerSpec.
From S2P Require Import Verifiers.
From S2P Require Import VerifiersSpec.

Local Open Scope fornax_scope.

(** ** Scripts *)

Definition sample_commands : list (list Chars) :=
  [[chars "cd"; chars "my repo"]; [chars "echo"; chars "it's; $HOME"]].

Lemma shell_parser_exact_witness :
  shell_segments (quote_script sample_commands) = Some (quoted_words <$> sample_commands).
Proof.
  apply (proj2 (shell_parser_exact [] [] sample_commands)).
  - discriminate.
  - repeat constructor; discriminate.
  - refine (bool_decide_unpack _ _). vm_compute. exact I.
Defined.

Example shell_scripts :
  shell_segments (chars "cd repo && pytest -q 2>&1") =
    Some [[mkWord (chars "cd") false; mkWord (chars "repo") false];
          [mkWord (chars "pytest") false; mkWord (chars "-q") false]] ∧
  shell_segments (chars "pytest | tail") = None ∧ shell_segments (chars "pytest; true") = None ∧
  shell_segments (chars "echo $(pytest)") = None ∧ shell_segments (chars "pytest &&") = None ∧
  shell_segments (chars "pytest # all") = None ∧ shell_segments (chars "echo 'open") = None.
Proof. vm_compute. done. Qed.

(** ** Commands *)

#[local] Instance ascii_tables : UnicodeTables := {
  to_lowercase cs := ascii_lower <$> cs;
  char_to_lowercase c := [ascii_lower c];
  is_alphanumeric := is_ascii_alphanumeric;
}.

Definition script_value (s : string) : option Value := Some (JString s).
Example test_runs :
  is_test_run (script_value "pytest -q") (Some 1%Z) = true ∧
  is_test_run (script_value "cd repo && cargo test") (Some 0%Z) = true ∧
  is_test_run (script_value "cd repo && cargo test") (Some 1%Z) = false ∧
  is_test_run (script_value "echo pytest") (Some 0%Z) = false ∧
  is_test_run (script_value "pip install pytest") (Some 0%Z) = false ∧
  is_test_run (script_value "pytest --collect-only") (Some 0%Z) = false ∧
  is_test_run (script_value "PATH=/tmp pytest") (Some 0%Z) = false ∧
  is_test_run (script_value "exit 0 && pytest") (Some 0%Z) = false ∧
  proven_runner (script_value "cd repo && pytest") = Some RunPytest ∧
  proven_runner (script_value "echo '3 passed' && pytest") = None.
Proof. vm_compute. done. Qed.

Example bindings :
  let bind claimed command := bind_command (chars claimed) (script_value command)
                                (to_lowercase (chars command)) true in
  bind "npm install" "npm install" = BindExact ∧
  bind "npm install" "CI=1 npm install" = BindExact ∧
  bind "npm install" "npm install --dry-run" = BindPrefix ∧
  bind "npm install" "cd app && npm install" = BindPrefix ∧
  bind "npm install" "/tmp/x/npm install" = BindPrefix ∧
  bind "npm install" "echo npm install" = BindMentioned ∧
  bind "make" "cat Makefile" = NotBound.
Proof. vm_compute. done. Qed.

Example test_commands :
  names_test_command (chars "timeout 60 go test ./...") = true ∧
  names_test_command (chars "sudo -u root env CI=1 cargo test") = true ∧
  names_test_command (chars "bash -c 'make check'") = true ∧
  names_test_command (chars "yarn add test") = false.
Proof. vm_compute. done. Qed.

(** A runner behind an assignment that is not benign is neither an identified
    runner nor in the tables, although it is one behind [env]. *)
Example assigned_runner_is_not_named :
  names_test_command (chars "RUSTFLAGS=-g cargo test") = false ∧
  names_test_command (chars "env RUSTFLAGS=-g cargo test") = true ∧
  names_test_command (chars "cargo test") = true.
Proof. vm_compute. done. Qed.

(** ** Test results *)

Definition test_payload (passed : Z) : Value :=
  JObject [("command", JString "pytest -q"); ("exit_code", JInt 0);
           ("test_summary", JObject [("format", JString "pytest"); ("passed", JInt passed);
                                     ("failed", JInt 0)])].
Definition run_source (sensor : string) (class : TrustClass) : EvidenceSource :=
  mkEvidenceSource sensor class "day 0" None HookCallback None (mkFreshness HostClock None)
    (mkTamperBoundary "hook" None) None [].
Definition run_evidence (id : Uuid) (payload : Value) (source : EvidenceSource) : Evidence :=
  mkEvidence id "s" 1 ExitCode "day 0" payload "hook" (Some source) None false.
Definition attested_run : Evidence :=
  run_evidence 10 (test_payload 3) (run_source "test_fixture_run_attestor" HostObserved).
Definition reported_run : Evidence :=
  run_evidence 10 (test_payload 3) (run_source "claude_bash_exit_code_sensor_v1" AgentAdjacent).
Definition mention_row : Evidence :=
  run_evidence 11 (JObject [("command", JString "pytest | tail"); ("exit_code", JInt 0)])
    (run_source "claude_bash_exit_code_sensor_v1" AgentAdjacent).
Definition trace_caps : RuntimeCapabilities :=
  mkRuntimeCapabilities 1 ClaudeCode [mkCapabilitySignal ToolTrace Available None] ∅.
Definition tests_claim : Claim := mkClaim 20 "s" 1 "tests passed" "test_result" "day 0".

#[local] Instance verifier_json : EventJson := {
  value_to_string v :=
    if decide (v = JObject [("command", JString "npm install"); ("exit_code", JInt 0)])
    then "install" else "null";
  value_from_str s :=
    if decide (s = "install")
    then Some (JObject [("command", JString "npm install"); ("exit_code", JInt 0)])
    else if decide (s = "null") then Some JNull else None;
  source_to_json _ := "bash";
  source_from_json s := if decide (s = "bash") then Some bash_source else None;
  extension_to_json _ := "extension";
  extension_from_json _ := None;
  uuids_to_json l := bits_of (countable.encode l);
  uuids_from_json s := countable.decode (of_bits s);
  uuid_parse_str s := Some (Pos.pred_N (of_bits s));
}.

Example test_verdicts :
  let verdict attestors evidence :=
    finding_verdict (test_result_verify attestors 30 "day 1" tests_claim evidence trace_caps) in
  verdict ["test_fixture_run_attestor"] [attested_run] = Verified ∧
  verdict ["test_fixture_run_attestor"] [attested_run; mention_row] = Unverified ∧
  verdict ["test_fixture_run_attestor"] [reported_run] = Review ∧
  verdict production_attestors [attested_run] = Review ∧
  verdict production_attestors [] = Unverified.
Proof. vm_compute. done. Qed.

(** ** The daemon *)

#[local] Instance verifier_uuid : UuidOps := {
  uuid_to_string n := bits_of (N.succ_pos n);
  new_v5 n _ := n;
}.
#[local] Instance verifier_parse_ok : UuidParseOk.
Proof. intros u. simpl. by rewrite of_bits_of, N.pos_pred_succ. Qed.
#[local] Instance verifier_scan : TableScan := { scan A m := map_to_list m }.
#[local] Instance verifier_scan_ok : TableScanOk.
Proof. by intros A m. Qed.

Definition install_evidence : Evidence :=
  mkEvidence 10 "s" 1 ExitCode "day 0"
    (JObject [("command", JString "npm install"); ("exit_code", JInt 0)]) "hook" (Some bash_source)
    None false.
Definition install_claim : Claim :=
  mkClaim 20 "s" 1 "I ran `npm install`." "command_executed" "day 0".

Definition install_store : EventDb :=
  let db := (insert_event Commits (host_event 1) "day 0" empty_event_db).2 in
  let db := (insert_evidence_with_origin Commits install_evidence UdsIngest "day 0" db).2 in
  (insert_claim Commits install_claim "day 0" db).2.
Definition install_db : AdmissionDb := mkAdmissionDb install_store [].
Definition install_run : result StoreError unit * AdmissionDb :=
  run_verifiers_and_persist_findings calm_world
    (daemon_verifiers production_attestors (λ i, 30 + N.of_nat i)%N "day 1") false install_claim
    trace_caps session_caps install_db.
Definition install_finding : string := uuid_to_string 31.

Lemma persisted_verified_findings_certify_witness :
  consumption_ok install_db ∧ install_run.1 = Ok tt ∧
  ∃ row, t_findings (ad_store install_run.2) !! install_finding = Some row ∧
    frow_verdict row = "verified" ∧
    ∃ evidence ev, production_certified install_claim evidence trace_caps ev ∧
      frow_evidence_ids row = uuids_to_json [ev_id ev].
Proof.
  split; [apply empty_consumption_ok|]. split; [vm_compute; reflexivity|].
  destruct (t_findings (ad_store install_run.2) !! install_finding) as [row|] eqn:Er;
    [|vm_compute in Er; discriminate].
  assert (frow_verdict row = "verified") as Hv.
  { vm_compute in Er. injection Er as <-. reflexivity. }
  assert (t_findings (ad_store install_db) !! install_finding ≠ Some row) as Hnew.
  { vm_compute. discriminate. }
  exists row. split; [reflexivity|]. split; [exact Hv|].
  destruct (persisted_verified_findings_certify calm_world (λ i, 30 + N.of_nat i)%N "day 1" false
              install_claim trace_caps session_caps install_db install_run.1 install_run.2
              install_finding row (λ _ _, eq_refl) (empty_consumption_ok _) (surjective_pairing _)
              Er Hv Hnew) as (evidence & _ & ev & _ & _ & Hc & Hids & _).
  exists evidence, ev. split; [exact Hc|exact Hids].
Defined.

(** With a collector that attests runs, the success of a test command behind
    such an assignment is verified without any sign that a test ran. *)
Definition assigned_run : Evidence :=
  run_evidence 10 (JObject [("command", JString "RUSTFLAGS=-g cargo test"); ("exit_code", JInt 0)])
    (run_source "test_fixture_run_attestor" HostObserved).
Definition assigned_claim (text : string) : Claim :=
  mkClaim 20 "s" 1 text "command_succeeded" "day 0".
Example assigned_runner_needs_no_summary :
  finding_verdict (command_success_verify ["test_fixture_run_attestor"] 30 "day 1"
    (assigned_claim "`RUSTFLAGS=-g cargo test` succeeded") [assigned_run] trace_caps) = Verified ∧
  execution_proven assigned_run = false.
Proof. vm_compute. done. Qed.
