(* ===== verification/Receipt.v ===== *)
(** * Integrity receipts

    [fornax-receipt/src/schema.rs] and [issue.rs]: the receipt of a finding,
    its digest and identifier, and its projection from the claim, the evidence
    graph, the fused finding and the recommendation. The serializers of
    [serde_json] and the sum of a timestamp and a number of seconds are
    parameters. *)

From S2P Require Import Prelude.
From S2P Require Import Types.
From S2P Require Import Text.
From S2P Require Import Graph.
From S2P Require Import Contract.
From S2P Require Import UnionFind.
From S2P Require Import Independence.
From S2P Require Import Fusion.
From S2P Require Import Projection.
From S2P Require Import Calibration.
From S2P Require Import Decision.
From S2P Require Import PolicyContent.
From S2P Require Import Voi.
From S2P Require Import PolicyRevision.
From S2P Require Import PolicyResolve.
From S2P Require Import PolicyBundle.
From S2P Require Import PolicyCache.
From S2P Require Import Redact.
From S2P Require Import AuditEvent.
From S2P Require Import AuditLedger.

Local Open Scope fornax_scope.

Definition RECEIPT_PAYLOAD_SCHEMA_VERSION : N := 1.
Definition RECEIPT_ID_NAMESPACE : Uuid := 0x7a1e4c9b2f8d4a619e035b7c2a91d46e%N.
Definition EXPORTABLE_EVIDENCE_KINDS : list EvidenceKind := [ExitCode; ProcessObservation].
Definition MAX_FINGERPRINTED_PAYLOAD_BYTES : nat := 64 * 1024.

(** [DateTime + Duration::seconds(s)]; [None] is the panic of a result out of
    [chrono]'s range. *)
Class ChronoSeconds := { add_seconds : Z → Z → option Z }.
Class ChronoSecondsOk `{ChronoSeconds} : Prop :=
  add_seconds_sum : ∀ t s t', add_seconds t s = Some t' → t' = (t + s * nanos_per_second)%Z.

(** ** Schema *)

Record ClaimRef := mkClaimRef {
  cr_claim_id : Uuid;
  cr_session_id : string;
  cr_subject : string;
  claim_text_fingerprint : string;
  cr_claimed_at : string;
}.

Record FindingSummary := mkFindingSummary {
  fs_verdict : Verdict;
  fs_uncertainty : UncertaintyBand;
  fs_unresolved_conflict : bool;
  counted_link_count : nat;
  discounted_link_count : nat;
  fired_rules : list FusionRule;
  fs_policy_name : string;
  fs_policy_version : N;
  fs_computed_at : string;
}.

Record RecommendationSummary := mkRecommendationSummary {
  rs_action : RecommendationAction;
  rs_risk_class : RiskClass;
  rs_policy_name : string;
  rs_policy_version : N;
}.

Record EvidenceRef := mkEvidenceRef {
  ref_evidence_id : Uuid;
  ref_kind : EvidenceKind;
  ref_relation : EvidenceRelation;
  ref_observed_at : string;
  ref_trust_class : option TrustClass;
  ref_sensor_name : option string;
  ref_collection_method : option CollectionMethod;
  payload_fingerprint : string;
  ref_evidence_purged : bool;
}.

Record MissingEvidenceRef := mkMissingEvidenceRef {
  mr_signal_class : SignalClass;
  mr_availability : SignalAvailability;
  mr_noted_at : string;
}.

Record ReceiptGap := mkReceiptGap { rg_kind : EvidenceGapKind; rg_detail : GapDetail }.

Inductive WithheldReason :=
| KindNotExportable
| OversizedPayload (bytes : nat)
| AlreadyPurged.

Record WithheldRef := mkWithheldRef {
  wh_evidence_id : Uuid;
  wh_kind : EvidenceKind;
  wh_reason : WithheldReason;
}.

Inductive EmbedPolicy := ReferenceOnly.

Record CoverageSummary := mkCoverageSummary {
  evidence_root : string;
  referenced_evidence : list EvidenceRef;
  missing_evidence : list MissingEvidenceRef;
  cov_gaps : list ReceiptGap;
  source_family_bases : list FamilyBasis;
  withheld : list WithheldRef;
}.

Record ReceiptBody := mkReceiptBody {
  receipt_schema_version : N;
  receipt_id : Uuid;
  rb_issuer : string;
  home_identity : string;
  rb_issued_at : string;
  rb_not_after : option string;
  embed_policy : EmbedPolicy;
  rb_claim : ClaimRef;
  rb_finding : FindingSummary;
  rb_recommendation : RecommendationSummary;
  rb_coverage : CoverageSummary;
  rb_provenance : CalibrationProvenance;
  rb_calibration : CalibrationAssessment;
}.

(** The wire form has the fields of the receipt. *)
Record IntegrityReceipt := mkIntegrityReceipt {
  rcpt_body : ReceiptBody;
  rcpt_digest : string;
}.

(** Receipts can be compared. *)
#[export] Instance RiskClass_eq_dec : EqDecision RiskClass.
Proof. solve_decision. Defined.
#[export] Instance CollectionMethod_eq_dec : EqDecision CollectionMethod.
Proof. solve_decision. Defined.
#[export] Instance IndeterminateReason_eq_dec : EqDecision IndeterminateReason.
Proof. solve_decision. Defined.
#[export] Instance Detail_eq_dec : EqDecision Detail.
Proof. solve_decision. Defined.
#[export] Instance GapDetail_eq_dec : EqDecision GapDetail.
Proof. solve_decision. Defined.
#[export] Instance EvidenceGapKind_eq_dec : EqDecision EvidenceGapKind.
Proof. solve_decision. Defined.
#[export] Instance SampleSupport_eq_dec : EqDecision SampleSupport.
Proof. solve_decision. Defined.
#[export] Instance DriftState_eq_dec : EqDecision DriftState.
Proof. solve_decision. Defined.
#[export] Instance CalibrationState_eq_dec : EqDecision CalibrationState.
Proof. solve_decision. Defined.
#[export] Instance CalibrationAssessment_eq_dec : EqDecision CalibrationAssessment.
Proof. solve_decision. Defined.
#[export] Instance CalibrationProvenance_eq_dec : EqDecision CalibrationProvenance.
Proof. solve_decision. Defined.
#[export] Instance ClaimRef_eq_dec : EqDecision ClaimRef.
Proof. solve_decision. Defined.
#[export] Instance FindingSummary_eq_dec : EqDecision FindingSummary.
Proof. solve_decision. Defined.
#[export] Instance RecommendationSummary_eq_dec : EqDecision RecommendationSummary.
Proof. solve_decision. Defined.
#[export] Instance EvidenceRef_eq_dec : EqDecision EvidenceRef.
Proof. solve_decision. Defined.
#[export] Instance MissingEvidenceRef_eq_dec : EqDecision MissingEvidenceRef.
Proof. solve_decision. Defined.
#[export] Instance ReceiptGap_eq_dec : EqDecision ReceiptGap.
Proof. solve_decision. Defined.
#[export] Instance WithheldReason_eq_dec : EqDecision WithheldReason.
Proof. solve_decision. Defined.
#[export] Instance WithheldRef_eq_dec : EqDecision WithheldRef.
Proof. solve_decision. Defined.
#[export] Instance EmbedPolicy_eq_dec : EqDecision EmbedPolicy.
Proof. solve_decision. Defined.
#[export] Instance FamilyBasis_eq_dec : EqDecision FamilyBasis.
Proof. solve_decision. Defined.
#[export] Instance CoverageSummary_eq_dec : EqDecision CoverageSummary.
Proof. solve_decision. Defined.
#[export] Instance ReceiptBody_eq_dec : EqDecision ReceiptBody.
Proof. solve_decision. Defined.
#[export] Instance IntegrityReceipt_eq_dec : EqDecision IntegrityReceipt.
Proof. solve_decision. Defined.

(** [serde_json::to_vec] of a payload, of a body and of a list of references;
    serializing them does not fail. *)
Class ReceiptJson := {
  value_to_vec : Value → list N;
  body_to_vec : ReceiptBody → list N;
  refs_to_vec : list EvidenceRef → list N;
}.

Section schema.
Context `{Sha256, ReceiptJson, UuidOps}.

Definition short_fingerprint (bytes : list N) : string :=
  bytes_string (take 8 (sha256 bytes) ≫= hex_byte).
Definition full_digest (bytes : list N) : string :=
  "sha256:" +:+ bytes_string (sha256 bytes ≫= hex_byte).
Definition receipt_digest_of (body : ReceiptBody) : string := full_digest (body_to_vec body).
Definition evidence_root_of (refs : list EvidenceRef) : string := full_digest (refs_to_vec refs).

Definition with_receipt_id (b : ReceiptBody) (i : Uuid) : ReceiptBody :=
  mkReceiptBody (receipt_schema_version b) i (rb_issuer b) (home_identity b) (rb_issued_at b)
    (rb_not_after b) (embed_policy b) (rb_claim b) (rb_finding b) (rb_recommendation b)
    (rb_coverage b) (rb_provenance b) (rb_calibration b).

(** [ReceiptBody::derive_id]. *)
Definition derive_id (b : ReceiptBody) : Uuid :=
  new_v5 RECEIPT_ID_NAMESPACE (bytes_string (sha256 (body_to_vec (with_receipt_id b 0%N)))).

Record ReceiptDigestMismatch := mkReceiptDigestMismatch {
  declared_digest : string;
  recomputed : string;
}.

(** [TryFrom<IntegrityReceiptWire>]. *)
Definition receipt_try_from (wire : IntegrityReceipt) :
    result ReceiptDigestMismatch IntegrityReceipt :=
  let recomputed_ := receipt_digest_of (rcpt_body wire) in
  if decide (recomputed_ ≠ rcpt_digest wire)
  then Err (mkReceiptDigestMismatch (rcpt_digest wire) recomputed_)
  else Ok wire.
End schema.

(** The serde tag of a rule, in the quotes of its JSON text. *)
Definition fusion_rule_tag (r : FusionRule) : string :=
  match r with
  | EvidenceUnresolved => "evidence_unresolved"
  | NeutralNotCounted => "neutral_not_counted"
  | DerivedFromCountedParent => "derived_from_counted_parent"
  | DerivedEvidence => "derived_evidence"
  | StaleSupportDemoted => "stale_support_demoted"
  | StaleContradictionRetained => "stale_contradiction_retained"
  | FreshnessIndeterminate => "freshness_indeterminate"
  | CorrelationCollapsed => "correlation_collapsed"
  | CommonSourceCollapsed => "common_source_collapsed"
  | IndependenceUnverified => "independence_unverified"
  | AllSupportDiscounted => "all_support_discounted"
  | VerdictDecided => "verdict_decided"
  | IndependenceBudgetExceeded => "independence_budget_exceeded"
  end.
Definition quote : string := String (Ascii.ascii_of_nat 34) EmptyString.
Definition sorted_deduped_rules (rules : list FusionRule) : list FusionRule :=
  dedup (sort_by_key (λ r, quote +:+ fusion_rule_tag r +:+ quote) rules).

(** The derived [Ord] of [FamilyBasis]: the variant, then its fields. *)
Definition basis_key (b : FamilyBasis) : N * (N * N) :=
  match b with
  | ExplicitCorrelationGroup g => (0, (g, 0))%N
  | DerivationAncestry p c => (1, (p, c))%N
  | SameAgentTurn e => (2, (e, 0))%N
  | UnknownProvenance => (3, (0, 0))%N
  end.
Definition sorted_deduped_bases (bs : list FamilyBasis) : list FamilyBasis :=
  dedup (sort_by_key basis_key bs).

Definition referenced_ids (refs : list EvidenceRef) : gset Uuid :=
  list_to_set (ref_evidence_id <$> refs).

(** ** Issuing *)

Record ReceiptInputs := mkReceiptInputs {
  ri_claim : Claim;
  ri_graph : EvidenceGraph;
  ri_evidence : list Evidence;
  ri_fused : FusedFinding;
  ri_recommendation : Recommendation;
  ri_gaps : list EvidenceGap;
  ri_families : SourceFamilyMap;
  ri_provenance : CalibrationProvenance;
  ri_calibration : CalibrationAssessment;
  ri_issuer : string;
  ri_home_identity : string;
}.

Inductive IssueError :=
| ClaimIdMismatch (claim_id recommendation_claim_id : Uuid)
| FusedClaimIdMismatch (claim_id fused_claim_id : Uuid).

Section issue.
Context `{Sha256, ReceiptJson, UuidOps, ChronoFromStr, ChronoFmt, ChronoSeconds}.

(** [is_exportable]: [Some] is the reason to withhold. *)
Definition withheld_reason (e : Evidence) : option WithheldReason :=
  if evidence_purged e then Some AlreadyPurged
  else if decide (ev_kind e ∉ EXPORTABLE_EVIDENCE_KINDS) then Some KindNotExportable
  else
    let payload_bytes := value_to_vec (ev_payload e) in
    if decide (MAX_FINGERPRINTED_PAYLOAD_BYTES < length payload_bytes)
    then Some (OversizedPayload (length payload_bytes))
    else None.

Definition evidence_ref (l : EvidenceLink) (e : Evidence) : EvidenceRef :=
  mkEvidenceRef (ev_id e) (ev_kind e) (link_relation l) (ev_observed_at e)
    (trust_class <$> ev_source e) (sensor_name <$> ev_source e)
    (collection_method <$> ev_source e)
    (short_fingerprint (value_to_vec (ev_payload e))) (evidence_purged e).

(** One iteration of the loop over the sorted links: what it pushes to
    [referenced_evidence] and to [withheld]. *)
Definition project_link (by_id : gmap Uuid Evidence) (l : EvidenceLink) :
    list EvidenceRef * list WithheldRef :=
  match by_id !! link_evidence_id l with
  | None => ([], [])
  | Some e =>
      match withheld_reason e with
      | None => ([evidence_ref l e], [])
      | Some reason => ([], [mkWithheldRef (ev_id e) (ev_kind e) reason])
      end
  end.

Definition receipt_not_after (issued_at : string) (ttl_seconds : option Z) :
    option (option string) :=
  match ttl_seconds with
  | None => Some None
  | Some ttl =>
      match datetime_from_str issued_at with
      | None => Some None
      | Some issued =>
          let! t := add_seconds issued ttl in
          Some (Some (to_rfc3339 t))
      end
  end.

Definition coverage_of (inputs : ReceiptInputs) : CoverageSummary :=
  let by_id := collect_by ev_id (ri_evidence inputs) in
  let sorted_links := sort_by_key link_evidence_id (links (ri_graph inputs)) in
  let referenced := sort_by_key ref_evidence_id (sorted_links ≫= (fst ∘ project_link by_id)) in
  let withheld_ := sort_by_key wh_evidence_id (sorted_links ≫= (snd ∘ project_link by_id)) in
  let missing_ := sort_by_key mr_noted_at
    ((λ m, mkMissingEvidenceRef (signal_class m) (availability m) (noted_at m))
       <$> missing (ri_graph inputs)) in
  let gaps_ := (λ g, mkReceiptGap (eg_kind g) (eg_detail g)) <$> ri_gaps inputs in
  let bases_ := sorted_deduped_bases
    (families_among (ri_families inputs) (btree_set_iter (referenced_ids referenced)) ≫= bases) in
  mkCoverageSummary (evidence_root_of referenced) referenced missing_ gaps_ bases_ withheld_.

Definition finding_summary (fused : FusedFinding) : FindingSummary :=
  mkFindingSummary (ff_verdict fused) (ff_uncertainty fused) (unresolved_conflict fused)
    (length (counted_link_ids fused)) (length (discounted_link_ids fused))
    (sorted_deduped_rules (re_rule <$> ff_rationale fused))
    (ff_policy_name fused) (ff_policy_version fused) (ff_computed_at fused).

Definition issue_receipt (inputs : ReceiptInputs) (issued_at : string)
    (ttl_seconds : option Z) : option (result IssueError IntegrityReceipt) :=
  let claim := ri_claim inputs in
  let rec := ri_recommendation inputs in
  let fused := ri_fused inputs in
  if decide (rec_claim_id rec ≠ claim_id claim)
  then Some (Err (ClaimIdMismatch (claim_id claim) (rec_claim_id rec)))
  else if decide (ff_claim_id fused ≠ claim_id claim)
  then Some (Err (FusedClaimIdMismatch (claim_id claim) (ff_claim_id fused)))
  else
    let! not_after := receipt_not_after issued_at ttl_seconds in
    let body :=
      mkReceiptBody RECEIPT_PAYLOAD_SCHEMA_VERSION 0%N (ri_issuer inputs)
        (ri_home_identity inputs) issued_at not_after ReferenceOnly
        (mkClaimRef (claim_id claim) (claim_session_id claim) (claim_subject claim)
           (short_fingerprint (string_bytes (redact_text (claim_text claim))))
           (claimed_at claim))
        (finding_summary fused)
        (mkRecommendationSummary (rec_action rec) (rec_risk_class rec) (rec_policy_name rec)
           (rec_policy_version rec))
        (coverage_of inputs) (ri_provenance inputs) (ri_calibration inputs) in
    let body := with_receipt_id body (derive_id body) in
    Some (Ok (mkIntegrityReceipt body (receipt_digest_of body))).
End issue.
