(* ===== verification/ReceiptGate.v ===== *)
(** * Verifying and gating receipts

    [fornax-types/src/receipt.rs] (the signed envelope),
    [fornax-receipt/src/freshness.rs], [verify.rs] (without the resolution of
    the trust store from files) and [gate.rs]. The [serde_json] parsers are
    parameters. A gate reason is its code; the text beside it is for a
    reader. *)

From S2P Require Import Prelude.
From S2P Require Import Types.
From S2P Require Import Text.
From S2P Require Import Graph.
From S2P Require Import Contract.
From S2P Require Import UnionFind.
From S2P Require Import Independence.
From S2P Require Import Fusion.
From S2P Require Import Projection.
From S2P Require Import Calibration.
From S2P Require Import Decision.
From S2P Require Import PolicyContent.
From S2P Require Import Voi.
From S2P Require Import PolicyRevision.
From S2P Require Import PolicyResolve.
From S2P Require Import PolicyBundle.
From S2P Require Import PolicyCache.
From S2P Require Import AuditEvent.
From S2P Require Import AuditLedger.
From S2P Require Import Receipt.

Local Open Scope fornax_scope.

(** ** Freshness *)

Definition DEFAULT_RECEIPT_TTL_SECONDS : Z := 24 * 60 * 60.
Definition RECEIPT_CLOCK_SKEW_TOLERANCE_SECONDS : Z := 300.

Inductive ReceiptFreshness :=
| RFresh (not_after : string)
| RExpired (not_after : string) (now : Z)
| RNoExpiryDeclared
| RIssuedInFuture (issued_at : string) (now : Z)
| RMalformedTimestamp (field value : string).

Section freshness.
Context `{ChronoFromStr, ChronoSeconds}.

(** [None] is the panic of a sum out of range. *)
Definition assess_freshness_of (issued_at_str : string) (not_after_opt : option string)
    (now : Z) : option ReceiptFreshness :=
  match datetime_from_str issued_at_str with
  | None => Some (RMalformedTimestamp "issued_at" issued_at_str)
  | Some issued_at =>
      let! horizon := add_seconds now RECEIPT_CLOCK_SKEW_TOLERANCE_SECONDS in
      if decide (horizon < issued_at)%Z then Some (RIssuedInFuture issued_at_str now)
      else
        match not_after_opt with
        | None => Some RNoExpiryDeclared
        | Some not_after_str =>
            match datetime_from_str not_after_str with
            | None => Some (RMalformedTimestamp "not_after" not_after_str)
            | Some not_after =>
                let! limit := add_seconds not_after RECEIPT_CLOCK_SKEW_TOLERANCE_SECONDS in
                if decide (limit < now)%Z then Some (RExpired not_after_str now)
                else Some (RFresh not_after_str)
            end
        end
  end.

Definition assess_freshness (body : ReceiptBody) (now : Z) : option ReceiptFreshness :=
  assess_freshness_of (rb_issued_at body) (rb_not_after body) now.
End freshness.

(** ** The signed envelope *)

Definition RECEIPT_SCHEMA_VERSION : N := 1.
Definition SUPPORTED_RECEIPT_SCHEMA_VERSIONS : list N := [1%N].
Definition RECEIPT_SIGNING_DOMAIN : list N :=
  string_bytes "fornax-integrity-receipt/v1" ++ [10%N].

Record SignedIntegrityReceipt := mkSignedIntegrityReceipt {
  sir_schema_version : N;
  sir_payload_b64 : string;
  sir_signatures : list BundleSignature;
}.

Record AuthenticatedReceiptEnvelope := mkAuthenticatedReceiptEnvelope {
  are_payload_bytes : list N;
  are_verified_by : KeyId;
}.

Inductive ReceiptEnvelopeRejection :=
| RcMalformedEnvelope (detail : string)
| RcUnsupportedSchemaVersion (found : N) (supported : list N)
| RcMalformedPayloadEncoding (detail : string)
| RcPayloadTooLarge (found max : N)
| RcNoSignatures
| RcTooManySignatures (found max : nat)
| RcUnknownKeyId (offered : list KeyId)
| RcUnsupportedAlgorithm (k : KeyId) (a : SignatureAlgorithm)
| RcMalformedSignature (k : KeyId)
| RcKeyNotYetValid (k : KeyId) (not_before : string) (now : Z)
| RcKeyRetired (k : KeyId) (not_after : string) (now : Z)
| RcSignatureInvalid (ks : list KeyId)
| RcMalformedKeyTimestamp (field value : string).

Definition receipt_rejection_of (e : EnvelopeVerificationError) : ReceiptEnvelopeRejection :=
  match e with
  | EMalformedPayloadEncoding d => RcMalformedPayloadEncoding d
  | EPayloadTooLarge f m => RcPayloadTooLarge f m
  | ENoSignatures => RcNoSignatures
  | ETooManySignatures f m => RcTooManySignatures f m
  | EUnknownKeyId o => RcUnknownKeyId o
  | EUnsupportedAlgorithm k a => RcUnsupportedAlgorithm k a
  | EMalformedSignature k => RcMalformedSignature k
  | EKeyNotYetValid k nb now => RcKeyNotYetValid k nb now
  | EKeyRetired k na now => RcKeyRetired k na now
  | ESignatureInvalid ks => RcSignatureInvalid ks
  | EMalformedKeyTimestamp f v => RcMalformedKeyTimestamp f v
  end.

(** [serde_json]'s parsers at the types [verify.rs] uses, before the digest
    check of a receipt, and the unauthenticated base64 decoder. *)
Class ReceiptWire := {
  receipt_value : list N → result string Value;
  receipt_envelope_slice : list N → result string SignedIntegrityReceipt;
  receipt_envelope_value : Value → result string SignedIntegrityReceipt;
  receipt_wire_slice : list N → result string IntegrityReceipt;
  receipt_wire_value : Value → result string IntegrityReceipt;
  decode_unverified : string → result string (list N);
  digest_mismatch_text : ReceiptDigestMismatch → string;
}.

Inductive SignatureStatus :=
| Unsigned
| Unverifiable
| SigVerified (key_id : KeyId)
| SigRejected (rejection : ReceiptEnvelopeRejection).

Inductive ReceiptRejection :=
| RxMalformedJson (detail : string)
| RxMalformedPayload (detail : string).

Record VerifiedReceipt := mkVerifiedReceipt {
  vr_receipt : IntegrityReceipt;
  vr_signature : SignatureStatus;
  vr_freshness : ReceiptFreshness;
}.

Section verify.
Context `{PolicyWire, Chrono, Sha256, ReceiptJson, ReceiptWire, ChronoFromStr, ChronoSeconds}.

Definition verify_receipt_envelope (envelope_bytes : list N) (trusted : TrustedVerificationKeys)
    (now : Z) : result ReceiptEnvelopeRejection AuthenticatedReceiptEnvelope :=
  match receipt_envelope_slice envelope_bytes with
  | Err detail => Err (RcMalformedEnvelope detail)
  | Ok envelope =>
      if decide (sir_schema_version envelope ∉ SUPPORTED_RECEIPT_SCHEMA_VERSIONS)
      then Err (RcUnsupportedSchemaVersion (sir_schema_version envelope)
                  SUPPORTED_RECEIPT_SCHEMA_VERSIONS)
      else
        match verify_signed_envelope (sir_payload_b64 envelope) (sir_signatures envelope)
                RECEIPT_SIGNING_DOMAIN MAX_PAYLOAD_BYTES trusted now with
        | Err e => Err (receipt_rejection_of e)
        | Ok ve => Ok (mkAuthenticatedReceiptEnvelope (payload_bytes ve) (ve_verified_by ve))
        end
  end.

(** A parsed wire receipt with its digest checked: the [Deserialize] of
    [IntegrityReceipt]. *)
Definition checked_receipt (r : result string IntegrityReceipt) :
    result ReceiptRejection IntegrityReceipt :=
  match r with
  | Err detail => Err (RxMalformedPayload detail)
  | Ok wire =>
      match receipt_try_from wire with
      | Err m => Err (RxMalformedPayload (digest_mismatch_text m))
      | Ok receipt => Ok receipt
      end
  end.

(** The body of an envelope that is not authenticated. *)
Definition unauthenticated_receipt (envelope : result string SignedIntegrityReceipt) :
    result ReceiptRejection IntegrityReceipt :=
  match envelope with
  | Err detail => Err (RxMalformedJson detail)
  | Ok envelope =>
      match decode_unverified (sir_payload_b64 envelope) with
      | Err detail => Err (RxMalformedPayload detail)
      | Ok bytes => checked_receipt (receipt_wire_slice bytes)
      end
  end.

(** [Value::get] of a key. *)
Definition has_key (v : Value) (key : string) : bool :=
  match v with
  | JObject fields => bool_decide (key ∈ fields.*1)
  | _ => false
  end.

Definition receipt_and_signature (bytes : list N) (top : Value)
    (trusted : option TrustedVerificationKeys) (now : Z) :
    result ReceiptRejection (IntegrityReceipt * SignatureStatus) :=
  if has_key top "payload_b64" then
    match trusted with
    | None =>
        let? receipt := unauthenticated_receipt (receipt_envelope_value top) in
        Ok (receipt, Unverifiable)
    | Some trusted =>
        match verify_receipt_envelope bytes trusted now with
        | Ok authenticated =>
            let? receipt := checked_receipt (receipt_wire_slice (are_payload_bytes authenticated)) in
            Ok (receipt, SigVerified (are_verified_by authenticated))
        | Err rejection =>
            let? receipt := unauthenticated_receipt (receipt_envelope_slice bytes) in
            Ok (receipt, SigRejected rejection)
        end
    end
  else
    let? receipt := checked_receipt (receipt_wire_value top) in
    Ok (receipt, Unsigned).

Definition verify_receipt_bytes (bytes : list N) (trusted : option TrustedVerificationKeys)
    (now : Z) : option (result ReceiptRejection VerifiedReceipt) :=
  match receipt_value bytes with
  | Err detail => Some (Err (RxMalformedJson detail))
  | Ok top =>
      match receipt_and_signature bytes top trusted now with
      | Err e => Some (Err e)
      | Ok (receipt, signature) =>
          let! freshness := assess_freshness (rcpt_body receipt) now in
          Some (Ok (mkVerifiedReceipt receipt signature freshness))
      end
  end.
End verify.

(** ** The gate *)

Inductive GateOutcome := Accept | Reject | Hold | Untested.
#[export] Instance GateOutcome_eq_dec : EqDecision GateOutcome.
Proof. solve_decision. Defined.

Definition severity (o : GateOutcome) : nat :=
  match o with Accept => 0 | Untested => 1 | Hold => 2 | Reject => 3 end.

Inductive GateReasonCode :=
| PolicyUncalibrated | SignatureRequiredButAbsent | SignatureUnverifiable | SignatureRejected
| ReceiptExpired | NoExpiryDeclared | IssuedInFuture | GateMalformedTimestamp
| VerdictNotAllowed | RecommendationNotAllowed | CriticalEvidenceGap | CalibrationNotValid
| AllChecksSatisfied.
#[export] Instance GateReasonCode_eq_dec : EqDecision GateReasonCode.
Proof. solve_decision. Defined.

Record GateDecision := mkGateDecision {
  gd_outcome : GateOutcome;
  gd_reasons : list GateReasonCode;
}.

Inductive EvidenceGapKindWire :=
| WNoEvidenceAtAll | WExpectedSignalMissing | WSignalClassUnobservable | WAllVotesDiscounted
| WStaleSupport | WIndependenceUnverified | WSingleSourceCorroboration | WUnresolvedConflict.

Definition gap_matches (w : EvidenceGapKindWire) (k : EvidenceGapKind) : bool :=
  match w, k with
  | WNoEvidenceAtAll, NoEvidenceAtAll
  | WExpectedSignalMissing, ExpectedSignalMissing _
  | WSignalClassUnobservable, SignalClassUnobservable _
  | WAllVotesDiscounted, AllVotesDiscounted
  | WStaleSupport, StaleSupport
  | WIndependenceUnverified, GapIndependenceUnverified
  | WSingleSourceCorroboration, SingleSourceCorroboration
  | WUnresolvedConflict, UnresolvedConflict => true
  | _, _ => false
  end.

Record ReceiptGatePolicy := mkReceiptGatePolicy {
  gp_calibrated : bool;
  gp_policy_name : string;
  gp_policy_version : N;
  require_signature : bool;
  allowed_verdicts : list Verdict;
  allowed_actions : list RecommendationAction;
  forbidden_gap_kinds : list EvidenceGapKindWire;
  require_expiry : bool;
  max_age_seconds : option Z;
  require_calibration_valid : bool;
}.

Definition require_proceed_no_critical_gaps : ReceiptGatePolicy :=
  mkReceiptGatePolicy true "require_proceed_no_critical_gaps" 1 false [Verified] [Proceed]
    [WNoEvidenceAtAll; WUnresolvedConflict; WAllVotesDiscounted] true
    (Some DEFAULT_RECEIPT_TTL_SECONDS) false.

Definition signature_reasons (s : SignatureStatus) (p : ReceiptGatePolicy) :
    list GateReasonCode :=
  match s with
  | Unsigned => if require_signature p then [SignatureRequiredButAbsent] else []
  | Unverifiable => if require_signature p then [SignatureUnverifiable] else []
  | SigRejected _ => [SignatureRejected]
  | SigVerified _ => []
  end.

Definition freshness_reasons (f : ReceiptFreshness) (p : ReceiptGatePolicy) :
    list GateReasonCode :=
  match f with
  | RExpired _ _ => [ReceiptExpired]
  | RNoExpiryDeclared => if require_expiry p then [NoExpiryDeclared] else []
  | RIssuedInFuture _ _ => [IssuedInFuture]
  | RMalformedTimestamp _ _ => [GateMalformedTimestamp]
  | RFresh _ => []
  end.

Definition forbidden_gap (p : ReceiptGatePolicy) (g : ReceiptGap) : bool :=
  existsb (λ w, gap_matches w (rg_kind g)) (forbidden_gap_kinds p).

Section gate.
Context `{Chrono, ChronoFromStr}.

Definition age_reasons (body : ReceiptBody) (p : ReceiptGatePolicy) : list GateReasonCode :=
  match max_age_seconds p, datetime_from_str (rb_issued_at body),
        rb_not_after body ≫= datetime_from_str with
  | Some max_age, Some issued, Some not_after =>
      if decide (max_age < num_seconds (not_after - issued))%Z then [ReceiptExpired] else []
  | _, _, _ => []
  end.

Definition gate_reasons (v : VerifiedReceipt) (p : ReceiptGatePolicy) : list GateReasonCode :=
  let body := rcpt_body (vr_receipt v) in
  signature_reasons (vr_signature v) p ++
  freshness_reasons (vr_freshness v) p ++
  age_reasons body p ++
  (if bool_decide (allowed_verdicts p ≠ [] ∧ fs_verdict (rb_finding body) ∉ allowed_verdicts p)
   then [VerdictNotAllowed] else []) ++
  (if bool_decide (allowed_actions p ≠ [] ∧
                   rs_action (rb_recommendation body) ∉ allowed_actions p)
   then [RecommendationNotAllowed] else []) ++
  ((λ _, CriticalEvidenceGap) <$>
     filter (λ g, forbidden_gap p g) (cov_gaps (rb_coverage body))) ++
  (if require_calibration_valid p &&
      match ca_state (rb_calibration body) with CalValid => false | _ => true end
   then [CalibrationNotValid] else []).

(** [outcome_of]; [None] is its [unreachable!]. *)
Definition outcome_of (code : GateReasonCode) : option GateOutcome :=
  match code with
  | SignatureRequiredButAbsent | SignatureUnverifiable | NoExpiryDeclared => Some Hold
  | AllChecksSatisfied | PolicyUncalibrated => None
  | _ => Some Reject
  end.

(** [evaluate_receipt_gate]. *)
Definition evaluate_receipt_gate (v : VerifiedReceipt) (p : ReceiptGatePolicy) :
    option GateDecision :=
  if negb (gp_calibrated p) || bool_decide (allowed_verdicts p = [] ∧ allowed_actions p = [])
  then Some (mkGateDecision Untested [PolicyUncalibrated])
  else
    match gate_reasons v p with
    | [] => Some (mkGateDecision Accept [AllChecksSatisfied])
    | reasons =>
        let! outcomes := mapM outcome_of reasons in
        Some (mkGateDecision (default Reject (max_by_key_last severity outcomes)) reasons)
    end.
End gate.
