(* ===== verification/Delegation.v ===== *)
(** * Delegation envelopes

    [fornax-receipt/src/delegation.rs]: the envelope a child agent hands to
    its parent, projected from the assessment of the delegated claim class
    and the receipts behind it; reading it back with the digests checked; and
    the gate of the consumer. The [serde_json] functions are parameters, and
    a reason of the gate is its code. *)

From S2P Require Import Prelude.
From S2P Require Import Types.
From S2P Require Import Text.
From S2P Require Import Graph.
From S2P Require Import Contract.
From S2P Require Import UnionFind.
From S2P Require Import Independence.
From S2P Require Import Fusion.
From S2P Require Import Projection.
From S2P Require Import Decision.
From S2P Require Import PolicyContent.
From S2P Require Import Voi.
From S2P Require Import ContractSat.
From S2P Require Import PolicyRevision.
From S2P Require Import PolicyBundle.
From S2P Require Import PolicyCache.
From S2P Require Import Redact.
From S2P Require Import AuditLedger.
From S2P Require Import Receipt.
From S2P Require Import ReceiptGate.

Local Open Scope fornax_scope.

Definition DELEGATION_SCHEMA_VERSION : N := 1.
Definition DELEGATION_ID_NAMESPACE : Uuid := 0x1c9f3d6a8b024e77a15c9d3e7f216b94%N.

Inductive DelegationOutcome := Fulfilled | PartiallyFulfilled | Insufficient | DUnavailable.
#[export] Instance DelegationOutcome_eq_dec : EqDecision DelegationOutcome.
Proof. solve_decision. Defined.

Record DelegationIdentity := mkDelegationIdentity { agent_id : string; task_id : Uuid }.

Record DelegationScope := mkDelegationScope {
  sc_claim_class : ClaimClassId;
  permitted_actions_fingerprint : string;
  expected_outputs_fingerprint : string;
}.

Record LineageEntry := mkLineageEntry {
  parent_envelope_digest : string;
  parent_task_id : Uuid;
  depth : N;
}.

Record DelegationEnvelopeBody := mkDelegationEnvelopeBody {
  envelope_schema_version : N;
  envelope_id : Uuid;
  de_issued_at : string;
  de_not_after : option string;
  de_parent : DelegationIdentity;
  de_child : DelegationIdentity;
  de_scope : DelegationScope;
  de_outcome : DelegationOutcome;
  satisfaction_overall : SatisfactionState;
  unresolved_requirement_ids : list string;
  de_receipts : list IntegrityReceipt;
  aggregate_source_family_bases : list FamilyBasis;
  lineage : list LineageEntry;
}.

#[export] Instance DelegationIdentity_eq_dec : EqDecision DelegationIdentity.
Proof. solve_decision. Defined.
#[export] Instance DelegationScope_eq_dec : EqDecision DelegationScope.
Proof. solve_decision. Defined.
#[export] Instance LineageEntry_eq_dec : EqDecision LineageEntry.
Proof. solve_decision. Defined.
#[export] Instance DelegationEnvelopeBody_eq_dec : EqDecision DelegationEnvelopeBody.
Proof. solve_decision. Defined.

(** The wire form has the fields of the envelope. *)
Record DelegationEnvelope := mkDelegationEnvelope {
  env_body : DelegationEnvelopeBody;
  env_digest : string;
}.

Record DelegationInputs := mkDelegationInputs {
  di_parent : DelegationIdentity;
  di_child : DelegationIdentity;
  di_claim_class : ClaimClassId;
  permitted_actions_text : string;
  expected_outputs_text : string;
  di_assessment : SatisfactionReport;
  di_receipts : list IntegrityReceipt;
  di_lineage : list LineageEntry;
  child_reported_unavailable : bool;
}.

Definition merged_source_family_bases (receipts : list IntegrityReceipt) : list FamilyBasis :=
  sorted_deduped_bases (receipts ≫= (λ r, source_family_bases (rb_coverage (rcpt_body r)))).

(** The filter of [issue_delegation_envelope]. *)
Definition unresolved_required (ra : RequirementAssessment) : bool :=
  match ra_level ra with
  | Required => match ra_state ra with SSatisfied | SNotApplicable => false | _ => true end
  | _ => false
  end.
Definition unresolved_ids (a : ClaimAssessment) : list string :=
  requirement_id <$> filter (λ ra, unresolved_required ra) (per_requirement a).

Definition delegation_outcome (unavailable : bool) (a : ClaimAssessment) : DelegationOutcome :=
  if unavailable then DUnavailable
  else
    match overall a, unresolved_ids a with
    | SUnknown, _ => Insufficient
    | SSatisfied, [] => Fulfilled
    | _, _ => PartiallyFulfilled
    end.

(** [serde_json] on envelopes: the bytes of a body, the parser of the wire
    form before any digest is checked, and the text of a digest error met
    while reading some bytes. *)
Class DelegationJson := {
  delegation_to_vec : DelegationEnvelopeBody → list N;
  delegation_wire_slice : list N → result string DelegationEnvelope;
  delegation_mismatch_text : list N → ReceiptDigestMismatch → string;
}.

Section envelope.
Context `{Sha256, ReceiptJson, DelegationJson, UuidOps, ChronoFromStr, ChronoFmt, ChronoSeconds}.

Definition delegation_digest_of (body : DelegationEnvelopeBody) : string :=
  full_digest (delegation_to_vec body).

Definition with_envelope_id (b : DelegationEnvelopeBody) (i : Uuid) : DelegationEnvelopeBody :=
  mkDelegationEnvelopeBody (envelope_schema_version b) i (de_issued_at b) (de_not_after b)
    (de_parent b) (de_child b) (de_scope b) (de_outcome b) (satisfaction_overall b)
    (unresolved_requirement_ids b) (de_receipts b) (aggregate_source_family_bases b)
    (lineage b).

Definition derive_envelope_id (b : DelegationEnvelopeBody) : Uuid :=
  new_v5 DELEGATION_ID_NAMESPACE
    (bytes_string (sha256 (delegation_to_vec (with_envelope_id b 0%N)))).

(** [None] is the panic of an expiry out of range. *)
Definition issue_delegation_envelope (inputs : DelegationInputs) (issued_at : string)
    (ttl_seconds : option Z) : option DelegationEnvelope :=
  let a := assessment (di_assessment inputs) in
  let receipts := sort_by_key (λ r, receipt_id (rcpt_body r)) (di_receipts inputs) in
  let fingerprint text := short_fingerprint (string_bytes (redact_text text)) in
  let! not_after := receipt_not_after issued_at ttl_seconds in
  let body :=
    mkDelegationEnvelopeBody DELEGATION_SCHEMA_VERSION 0%N issued_at not_after
      (di_parent inputs) (di_child inputs)
      (mkDelegationScope (di_claim_class inputs) (fingerprint (permitted_actions_text inputs))
         (fingerprint (expected_outputs_text inputs)))
      (delegation_outcome (child_reported_unavailable inputs) a) (overall a) (unresolved_ids a)
      receipts (merged_source_family_bases receipts) (di_lineage inputs) in
  let body := with_envelope_id body (derive_envelope_id body) in
  Some (mkDelegationEnvelope body (delegation_digest_of body)).

(** [TryFrom<DelegationEnvelopeWire>]. *)
Definition envelope_try_from (wire : DelegationEnvelope) :
    result ReceiptDigestMismatch DelegationEnvelope :=
  let recomputed_ := delegation_digest_of (env_body wire) in
  if decide (recomputed_ ≠ env_digest wire)
  then Err (mkReceiptDigestMismatch (env_digest wire) recomputed_)
  else Ok wire.

(** The receipts are read, and their digests checked, before the envelope's
    own digest is. *)
Fixpoint check_receipts (receipts : list IntegrityReceipt) : result ReceiptDigestMismatch unit :=
  match receipts with
  | [] => Ok tt
  | r :: receipts =>
      match receipt_try_from r with
      | Err m => Err m
      | Ok _ => check_receipts receipts
      end
  end.

(** [verify_delegation_envelope_bytes]; the error is [Invalid]'s detail. *)
Definition verify_delegation_envelope_bytes (bytes : list N) : result string DelegationEnvelope :=
  match delegation_wire_slice bytes with
  | Err detail => Err detail
  | Ok wire =>
      match check_receipts (de_receipts (env_body wire)) with
      | Err m => Err (delegation_mismatch_text bytes m)
      | Ok _ =>
          match envelope_try_from wire with
          | Err m => Err (delegation_mismatch_text bytes m)
          | Ok envelope => Ok envelope
          end
      end
  end.
End envelope.

(** ** The gate *)

Record ExpectedDelegationContext := mkExpectedDelegationContext {
  ex_parent_agent_id : string;
  ex_parent_task_id : Uuid;
  expected_claim_class : ClaimClassId;
}.

Inductive DelegationGateReasonCode :=
| DgPolicyUncalibrated | DgWrongParent | DgWrongScope | DgReceiptExpired | DgNoExpiryDeclared
| DgIssuedInFuture | DgMalformedTimestamp | DgOutcomeNotAllowed | DgUnresolvedCriticalObligation
| DgAllChecksSatisfied.
#[export] Instance DelegationGateReasonCode_eq_dec : EqDecision DelegationGateReasonCode.
Proof. solve_decision. Defined.

Record DelegationGateDecision := mkDelegationGateDecision {
  dg_outcome : GateOutcome;
  dg_reasons : list DelegationGateReasonCode;
}.

Record DelegationGatePolicy := mkDelegationGatePolicy {
  dp_calibrated : bool;
  dp_policy_name : string;
  dp_policy_version : N;
  allowed_outcomes : list DelegationOutcome;
  dp_require_expiry : bool;
}.

Definition require_fulfilled_only : DelegationGatePolicy :=
  mkDelegationGatePolicy true "require_fulfilled_only" 1 [Fulfilled] true.

Definition delegation_freshness_reasons (f : ReceiptFreshness) (p : DelegationGatePolicy) :
    list DelegationGateReasonCode :=
  match f with
  | RExpired _ _ => [DgReceiptExpired]
  | RNoExpiryDeclared => if dp_require_expiry p then [DgNoExpiryDeclared] else []
  | RIssuedInFuture _ _ => [DgIssuedInFuture]
  | RMalformedTimestamp _ _ => [DgMalformedTimestamp]
  | RFresh _ => []
  end.

Definition delegation_reasons (body : DelegationEnvelopeBody)
    (expected : ExpectedDelegationContext) (p : DelegationGatePolicy) (f : ReceiptFreshness) :
    list DelegationGateReasonCode :=
  (if bool_decide (agent_id (de_parent body) ≠ ex_parent_agent_id expected ∨
                   task_id (de_parent body) ≠ ex_parent_task_id expected)
   then [DgWrongParent] else []) ++
  (if bool_decide (sc_claim_class (de_scope body) ≠ expected_claim_class expected)
   then [DgWrongScope] else []) ++
  delegation_freshness_reasons f p ++
  (if bool_decide (de_outcome body ∉ allowed_outcomes p) then [DgOutcomeNotAllowed] else []) ++
  (if bool_decide (unresolved_requirement_ids body ≠ [] ∧ de_outcome body = Fulfilled)
   then [DgUnresolvedCriticalObligation] else []).

(** The gate's [outcome_of]; [None] is its [unreachable!]. *)
Definition delegation_outcome_of (code : DelegationGateReasonCode) : option GateOutcome :=
  match code with
  | DgNoExpiryDeclared => Some Hold
  | DgAllChecksSatisfied | DgPolicyUncalibrated => None
  | _ => Some Reject
  end.

Section gate.
Context `{ChronoFromStr, ChronoSeconds}.

Definition assess_delegation_freshness (body : DelegationEnvelopeBody) (now : Z) :
    option ReceiptFreshness :=
  assess_freshness_of (de_issued_at body) (de_not_after body) now.

(** [evaluate_delegation_gate]. *)
Definition evaluate_delegation_gate (envelope : DelegationEnvelope)
    (expected : ExpectedDelegationContext) (p : DelegationGatePolicy) (now : Z) :
    option DelegationGateDecision :=
  if negb (dp_calibrated p) || bool_decide (allowed_outcomes p = [])
  then Some (mkDelegationGateDecision Untested [DgPolicyUncalibrated])
  else
    let body := env_body envelope in
    let! f := assess_delegation_freshness body now in
    match delegation_reasons body expected p f with
    | [] => Some (mkDelegationGateDecision Accept [DgAllChecksSatisfied])
    | reasons =>
        let! outcomes := mapM delegation_outcome_of reasons in
        Some (mkDelegationGateDecision
                (default Reject (max_by_key_last severity outcomes)) reasons)
    end.
End gate.
