(* ===== verification/ReceiptSpec.v ===== *)
(** * What a gated receipt is worth

    The receipt gate against its rule book, and what an accepted receipt
    certifies of the bytes it came from; the round trip of an issued receipt;
    and what a consumer who accepts a delegation envelope knows about the
    evidence the child had. *)

From S2P Require Import Prelude.
From S2P Require Import Types.
From S2P Require Import Text.
From S2P Require Import Graph.
From S2P Require Import Contract.
From S2P Require Import UnionFind.
From S2P Require Import Independence.
From S2P Require Import Fusion.
From S2P Require Import Projection.
From S2P Require Import Calibration.
From S2P Require Import Decision.
From S2P Require Import PolicyContent.
From S2P Require Import Voi.
From S2P Require Import ContractSat.
From S2P Require Import ContractSpec.
From S2P Require Import PolicyRevision.
From S2P Require Import PolicyResolve.
From S2P Require Import PolicyBundle.
From S2P Require Import PolicyBundleSpec.
From S2P Require Import PolicyCache.
From S2P Require Import Redact.
From S2P Require Import AuditEvent.
From S2P Require Import AuditLedger.
From S2P Require Import AuditLedgerSpec.
From S2P Require Import Receipt.
From S2P Require Import ReceiptGate.
From S2P Require Import Delegation.

Local Open Scope fornax_scope.

(** ** The worst of several reasons *)

(** A code that a gate can collect counts as a hold or as a rejection. *)
Definition collectable {R} (outcome : R → option GateOutcome) (r : R) : Prop :=
  outcome r = Some Hold ∨ outcome r = Some Reject.

Lemma worst_of (os : list GateOutcome) :
  Forall (λ o, o = Hold ∨ o = Reject) os → os ≠ [] →
  default Reject (max_by_key_last severity os) =
    if decide (Reject ∈ os) then Reject else Hold.
Proof.
  unfold max_by_key_last. intros Hos Hne.
  assert (∀ l acc, Forall (λ o, o = Hold ∨ o = Reject) l → acc = Hold ∨ acc = Reject →
    foldl (λ best x, match best with
       | Some b => if decide (severity b ≤ severity x) then Some x else Some b
       | None => Some x end) (Some acc) l =
    Some (if decide (Reject ∈ acc :: l) then Reject else Hold)) as Hgen.
  { induction l as [|x l IH]; intros acc Hl Hacc; simpl.
    - by destruct Hacc as [-> | ->].
    - apply Forall_cons in Hl as [[-> | ->] Hl]; destruct Hacc as [-> | ->]; simpl;
        rewrite IH by auto; f_equal;
        repeat case_decide; set_solver. }
  destruct os as [|o os]; [done|]. apply Forall_cons in Hos as [Ho Hos].
  simpl. by rewrite Hgen.
Qed.

Lemma gate_outcomes {R} (outcome : R → option GateOutcome) (rs : list R) :
  rs ≠ [] → Forall (collectable outcome) rs →
  ∃ os, mapM outcome rs = Some os ∧
    ((default Reject (max_by_key_last severity os) = Reject ∧
        ∃ r, r ∈ rs ∧ outcome r = Some Reject) ∨
     (default Reject (max_by_key_last severity os) = Hold ∧
        ∀ r, r ∈ rs → outcome r = Some Hold)).
Proof.
  intros Hne Hrs.
  assert (∃ os, Forall2 (λ r o, outcome r = Some o ∧ (o = Hold ∨ o = Reject)) rs os)
    as [os Hos].
  { clear Hne. induction Hrs as [|r rs Hr _ [os IH]]; [by exists []|].
    destruct Hr as [Hr|Hr]; eexists (_ :: os); by eauto. }
  exists os. split.
  { apply mapM_Some. eapply Forall2_impl; [exact Hos|]. by intros ?? []. }
  rewrite worst_of.
  - case_decide as Hin; [left|right]; (split; [done|]).
    + destruct (Forall2_elem_of_r _ _ _ _ Hos Hin) as (r & ? & ? & _). eauto.
    + intros r Hr. destruct (Forall2_elem_of_l _ _ _ _ Hos Hr) as (o & Ho & -> & [-> | ->]);
        by eauto.
  - clear Hne Hrs. induction Hos as [|? ? ? ? []]; by constructor.
  - intros ->. by inv Hos.
Qed.

(** ** The rule book of the receipt gate *)

Section rules.
Context `{Chrono, ChronoFromStr}.
Implicit Types (v : VerifiedReceipt) (p : ReceiptGatePolicy).

(** A policy one can judge by. *)
Definition usable p : Prop :=
  gp_calibrated p = true ∧ (allowed_verdicts p ≠ [] ∨ allowed_actions p ≠ []).

Definition body_of v : ReceiptBody := rcpt_body (vr_receipt v).

(** The declared life of a receipt: from issue to expiry. *)
Definition declared_life (b : ReceiptBody) (issued not_after : Z) : Prop :=
  datetime_from_str (rb_issued_at b) = Some issued ∧
  ∃ s, rb_not_after b = Some s ∧ datetime_from_str s = Some not_after.

(** Why a receipt is refused outright. *)
Inductive refused v p : Prop :=
| refused_signature r : vr_signature v = SigRejected r → refused v p
| refused_expired s n : vr_freshness v = RExpired s n → refused v p
| refused_future s n : vr_freshness v = RIssuedInFuture s n → refused v p
| refused_timestamp f s : vr_freshness v = RMalformedTimestamp f s → refused v p
| refused_lifetime m i n :
    max_age_seconds p = Some m → declared_life (body_of v) i n →
    (m < num_seconds (n - i))%Z → refused v p
| refused_verdict :
    allowed_verdicts p ≠ [] → fs_verdict (rb_finding (body_of v)) ∉ allowed_verdicts p →
    refused v p
| refused_action :
    allowed_actions p ≠ [] → rs_action (rb_recommendation (body_of v)) ∉ allowed_actions p →
    refused v p
| refused_gap g w :
    g ∈ cov_gaps (rb_coverage (body_of v)) → w ∈ forbidden_gap_kinds p →
    gap_matches w (rg_kind g) = true → refused v p
| refused_calibration :
    require_calibration_valid p = true → ca_state (rb_calibration (body_of v)) ≠ CalValid →
    refused v p.

(** Why a receipt does not suffice, though nothing is wrong with it. *)
Inductive insufficient v p : Prop :=
| unsigned_receipt : require_signature p = true → vr_signature v = Unsigned → insufficient v p
| unverifiable_receipt :
    require_signature p = true → vr_signature v = Unverifiable → insufficient v p
| undated_receipt :
    require_expiry p = true → vr_freshness v = RNoExpiryDeclared → insufficient v p.

Lemma elem_of_if {A} (b : bool) (x y : A) : x ∈ (if b then [y] else []) ↔ b = true ∧ x = y.
Proof. destruct b; set_solver. Qed.

Lemma age_reasons_elem b p c :
  c ∈ age_reasons b p ↔ c = ReceiptExpired ∧ ∃ m i n, max_age_seconds p = Some m ∧
    declared_life b i n ∧ (m < num_seconds (n - i))%Z.
Proof.
  unfold age_reasons, declared_life. split.
  - destruct (max_age_seconds p) as [m|]; [|by intros ?%elem_of_nil].
    destruct (datetime_from_str (rb_issued_at b)) as [i|]; [|by intros ?%elem_of_nil].
    destruct (rb_not_after b) as [s|]; simpl; [|by intros ?%elem_of_nil].
    destruct (datetime_from_str s) as [n|] eqn:Hn; [|by intros ?%elem_of_nil].
    case_decide; [|by intros ?%elem_of_nil].
    intros ->%list_elem_of_singleton. eauto 10.
  - intros (-> & m & i & n & -> & (-> & s & -> & Hs) & Hlt). simpl. rewrite Hs.
    rewrite decide_True by done. by left.
Qed.

(** Each code is collected for its own reason. *)
Lemma gate_reasons_elem v p c :
  c ∈ gate_reasons v p →
  (outcome_of c = Some Hold ∧ insufficient v p) ∨ (outcome_of c = Some Reject ∧ refused v p).
Proof.
  unfold gate_reasons. fold (body_of v).
  rewrite !elem_of_app, !elem_of_if, list_elem_of_fmap, !bool_decide_eq_true.
  intros [Hc|[Hc|[Hc|[[[? ?] ->]|[[[? ?] ->]|[(g & -> & Hg)|[Hb ->]]]]]]].
  - unfold signature_reasons in Hc. destruct (vr_signature v) eqn:Hs; try set_solver;
      [destruct (require_signature p) eqn:?; [|set_solver]..|];
      apply list_elem_of_singleton in Hc as ->; eauto using refused, insufficient.
  - unfold freshness_reasons in Hc. destruct (vr_freshness v) eqn:Hs; try set_solver;
      [|destruct (require_expiry p) eqn:?; [|set_solver]|..];
      apply list_elem_of_singleton in Hc as ->; eauto using refused, insufficient.
  - apply age_reasons_elem in Hc as (-> & m & i & n & ? & ? & ?). eauto using refused.
  - eauto using refused.
  - eauto using refused.
  - right. split; [done|]. apply list_elem_of_filter in Hg as [Hf Hg].
    apply Is_true_true, existsb_exists in Hf as (w & Hw%list_elem_of_In & Hm).
    by eapply refused_gap.
  - right. split; [done|]. apply andb_true_iff in Hb as [? Hb].
    apply refused_calibration; [done|]. by destruct (ca_state _).
Qed.

Lemma refused_reason v p : refused v p → ∃ c, c ∈ gate_reasons v p ∧ outcome_of c = Some Reject.
Proof.
  unfold gate_reasons. fold (body_of v).
  intros Hr. destruct Hr as [r Hs|s n Hs|s n Hs|f s Hs|m i n Hm Hl Hlt|Hne Hn|Hne Hn|g w Hg Hw Hm|Hq Hc];
    [exists SignatureRejected|exists ReceiptExpired|exists IssuedInFuture
    |exists GateMalformedTimestamp|exists ReceiptExpired|exists VerdictNotAllowed
    |exists RecommendationNotAllowed|exists CriticalEvidenceGap|exists CalibrationNotValid];
    (split; [|done]); rewrite !elem_of_app, !elem_of_if, !bool_decide_eq_true.
  - left. unfold signature_reasons. rewrite Hs. by left.
  - right; left. unfold freshness_reasons. rewrite Hs. by left.
  - right; left. unfold freshness_reasons. rewrite Hs. by left.
  - right; left. unfold freshness_reasons. rewrite Hs. by left.
  - do 2 right; left. apply age_reasons_elem. eauto 10.
  - do 3 right; left. done.
  - do 4 right; left. done.
  - do 5 right; left. apply list_elem_of_fmap. exists g. split; [done|].
    apply list_elem_of_filter. split; [|done].
    apply Is_true_true, existsb_exists. exists w. by rewrite <- list_elem_of_In.
  - do 6 right. rewrite Hq. split; [|done]. by destruct (ca_state _).
Qed.

Lemma insufficient_reason v p : insufficient v p → ∃ c, c ∈ gate_reasons v p.
Proof.
  unfold gate_reasons. intros [Hq Hs|Hq Hs|Hq Hs];
    [exists SignatureRequiredButAbsent|exists SignatureUnverifiable|exists NoExpiryDeclared];
    rewrite !elem_of_app; unfold signature_reasons, freshness_reasons; rewrite Hq, Hs; set_solver.
Qed.

Lemma receipt_gate_spec v p :
  ∃ d, evaluate_receipt_gate v p = Some d ∧
    (gd_outcome d = Untested ↔ ¬ usable p) ∧
    (gd_outcome d = Reject ↔ usable p ∧ refused v p) ∧
    (gd_outcome d = Hold ↔ usable p ∧ insufficient v p ∧ ¬ refused v p) ∧
    (gd_outcome d = Accept ↔ usable p ∧ ¬ insufficient v p ∧ ¬ refused v p).
Proof.
  unfold evaluate_receipt_gate.
  destruct (negb _ || _) eqn:Hu.
  { assert (¬ usable p) as Hn.
    { intros [Hc Hne]. rewrite Hc in Hu. apply bool_decide_eq_true in Hu as [??]. naive_solver. }
    eexists. split; [done|]. simpl. naive_solver. }
  assert (usable p) as Hus.
  { apply orb_false_iff in Hu as [Hc Hb%bool_decide_eq_false].
    split; [by destruct (gp_calibrated p)|].
    destruct (allowed_verdicts p); [right|by left]. naive_solver. }
  pose proof (refused_reason v p) as Href. pose proof (insufficient_reason v p) as Hins.
  pose proof (gate_reasons_elem v p) as Hel.
  destruct (gate_reasons v p) as [|c rs] eqn:Hrs.
  { eexists. split; [done|]. simpl.
    assert (¬ refused v p) by (intros (c & Hc & _)%Href; by apply elem_of_nil in Hc).
    assert (¬ insufficient v p) by (intros (c & Hc)%Hins; by apply elem_of_nil in Hc).
    naive_solver. }
  destruct (gate_outcomes outcome_of (c :: rs)) as (os & -> & Ho); [done| |].
  { apply Forall_forall. intros c' Hc'. unfold collectable. naive_solver. }
  eexists. split; [done|]. simpl.
  destruct Ho as [[-> (c' & Hc' & Ho)]|[-> Ho]].
  - destruct (Hel c' Hc') as [[? _]|[_ ?]]; [congruence|]. naive_solver.
  - assert (¬ refused v p) by (intros (c' & Hc' & ?)%Href; apply Ho in Hc'; congruence).
    destruct (Hel c ltac:(left)) as [[_ ?]|[_ ?]]; naive_solver.
Qed.

(** The receipt gate always answers (its unreachable branch is not
    reached), and by its rule book: a policy that is uncalibrated or names
    nothing to allow judges nothing, a receipt with a defect is rejected, one
    that merely falls short is held, and only a receipt with neither is
    accepted. *)
Theorem receipt_gate_exact v p :
  ∃ d, evaluate_receipt_gate v p = Some d ∧
    (gd_outcome d = Untested ↔ ¬ usable p) ∧
    (gd_outcome d = Reject ↔ usable p ∧ refused v p) ∧
    (gd_outcome d = Hold ↔ usable p ∧ insufficient v p ∧ ¬ refused v p) ∧
    (gd_outcome d = Accept ↔ usable p ∧ ¬ insufficient v p ∧ ¬ refused v p).
Proof. apply receipt_gate_spec. Qed.
End rules.

(** ** Reading a receipt *)

Section reading.
Context `{PolicyWire, Chrono, Sha256, ReceiptJson, ReceiptWire, ChronoFromStr, ChronoSeconds}.
Context `{!ChronoSecondsOk}.
Implicit Types (v : VerifiedReceipt) (p : ReceiptGatePolicy) (r : IntegrityReceipt).

Definition tolerance : Z := RECEIPT_CLOCK_SKEW_TOLERANCE_SECONDS * nanos_per_second.

(** What each answer on freshness says about the two timestamps. *)
Lemma freshness_certifies issued_at not_after now f :
  assess_freshness_of issued_at not_after now = Some f →
  match f with
  | RFresh s =>
      ∃ i n, datetime_from_str issued_at = Some i ∧ (i ≤ now + tolerance)%Z ∧
        not_after = Some s ∧ datetime_from_str s = Some n ∧ (now ≤ n + tolerance)%Z
  | RNoExpiryDeclared =>
      ∃ i, datetime_from_str issued_at = Some i ∧ (i ≤ now + tolerance)%Z ∧ not_after = None
  | RExpired s t =>
      t = now ∧ ∃ n, not_after = Some s ∧ datetime_from_str s = Some n ∧
        (n + tolerance < now)%Z
  | RIssuedInFuture s t =>
      t = now ∧ s = issued_at ∧ ∃ i, datetime_from_str s = Some i ∧ (now + tolerance < i)%Z
  | RMalformedTimestamp _ s =>
      datetime_from_str s = None ∧ (s = issued_at ∨ not_after = Some s)
  end.
Proof.
  unfold assess_freshness_of, tolerance.
  destruct (datetime_from_str issued_at) as [i|] eqn:Hi; [|intros; simplify_eq; auto].
  destruct (add_seconds now _) as [h|] eqn:Hh; simpl; [|done].
  apply add_seconds_sum in Hh as ->.
  case_decide; [intros; simplify_eq; eauto|].
  destruct not_after as [s|]; [|intros; simplify_eq; exists i; split_and!; [done|lia|done]].
  destruct (datetime_from_str s) as [n|] eqn:Hn; [|intros; simplify_eq; auto].
  destruct (add_seconds n _) as [l|] eqn:Hl; simpl; [|done].
  apply add_seconds_sum in Hl as ->.
  case_decide; intros; simplify_eq; eauto.
  exists i, n. split_and!; [done|lia|done|done|lia].
Qed.

Lemma checked_receipt_ok wire r :
  checked_receipt wire = Ok r ↔ wire = Ok r ∧ rcpt_digest r = receipt_digest_of (rcpt_body r).
Proof.
  unfold checked_receipt, receipt_try_from. destruct wire as [w|]; [|naive_solver].
  case_decide as Hd; split; [done|intros [[= ->] ?]; congruence| |naive_solver].
  intros [= ->]. auto.
Qed.

(** A body signed over the receipt domain by a trusted key in force. *)
Definition signed_by_trusted (bytes : list N) (trusted : option TrustedVerificationKeys)
    (now : Z) r (k : KeyId) : Prop :=
  ∃ t envelope payload s,
    trusted = Some t ∧ receipt_envelope_slice bytes = Ok envelope ∧
    strict_base64_decode (sir_payload_b64 envelope) = Ok payload ∧
    receipt_wire_slice payload = Ok r ∧
    s ∈ sir_signatures envelope ∧ sig_key_id s = k ∧
    good_signature t now (RECEIPT_SIGNING_DOMAIN ++ payload) s.

Lemma receipt_and_signature_ok bytes top trusted now r s :
  receipt_and_signature bytes top trusted now = Ok (r, s) →
  rcpt_digest r = receipt_digest_of (rcpt_body r) ∧
  (∀ k, s = SigVerified k → signed_by_trusted bytes trusted now r k).
Proof.
  unfold receipt_and_signature.
  assert (∀ e r, unauthenticated_receipt e = Ok r →
    rcpt_digest r = receipt_digest_of (rcpt_body r)) as Hun.
  { intros e r'. unfold unauthenticated_receipt. destruct e as [e|]; [|done].
    destruct (decode_unverified _); [|done]. by intros [_ ?]%checked_receipt_ok. }
  destruct (has_key top "payload_b64").
  - destruct trusted as [t|].
    + destruct (verify_receipt_envelope bytes t now) as [a|rej] eqn:Hv.
      * destruct (checked_receipt _) as [r'|] eqn:Hc; [|done]. intros [= -> <-].
        apply checked_receipt_ok in Hc as [Hw Hd]. split; [done|]. intros k [= <-].
        unfold verify_receipt_envelope in Hv.
        destruct (receipt_envelope_slice bytes) as [env|] eqn:He; [|done].
        case_decide; [done|].
        destruct (verify_signed_envelope _ _ _ _ _ _) as [ve|] eqn:Hse; [|done].
        simplify_eq. simpl in *.
        apply verify_signed_envelope_ok in Hse as (_ & Hb & _ & pre & s & post & Hs & -> & Hg & _).
        exists t, env, (payload_bytes ve), s. split_and!; try done.
        rewrite Hs. set_solver.
      * destruct (unauthenticated_receipt _) as [r'|] eqn:Hc; [|done]. intros [= -> <-]. split; [eauto|done].
    + destruct (unauthenticated_receipt _) as [r'|] eqn:Hc; [|done]. intros [= -> <-]. split; [eauto|done].
  - destruct (checked_receipt _) as [r'|] eqn:Hc; [|done]. intros [= -> <-].
    by apply checked_receipt_ok in Hc as [_ ?].
Qed.

Lemma verify_receipt_bytes_ok bytes trusted now v :
  verify_receipt_bytes bytes trusted now = Some (Ok v) →
  rcpt_digest (vr_receipt v) = receipt_digest_of (body_of v) ∧
  (∀ k, vr_signature v = SigVerified k → signed_by_trusted bytes trusted now (vr_receipt v) k) ∧
  assess_freshness (body_of v) now = Some (vr_freshness v).
Proof.
  unfold verify_receipt_bytes, body_of. destruct (receipt_value bytes) as [top|]; [|done].
  destruct (receipt_and_signature bytes top trusted now) as [[r s]|] eqn:Hr; [|done].
  apply receipt_and_signature_ok in Hr as [Hd Hs].
  destruct (assess_freshness _ now) as [f|] eqn:Hf; simpl; [|done].
  intros [= <-]. simpl. eauto.
Qed.

(** C33. What a consumer knows of a receipt it accepts under a policy that
    asks for a signature and an expiry: the body is the one its digest was
    computed over and was signed, under the receipt domain, by a key the
    consumer trusts and that was in force; it was not issued in the future and
    has not expired, up to the clock tolerance, and declares no longer life
    than the policy grants; its verdict and its action are ones the policy
    allows, and it declares no gap the policy forbids. *)
Theorem accepted_receipt_certifies bytes trusted now v p d :
  verify_receipt_bytes bytes trusted now = Some (Ok v) →
  evaluate_receipt_gate v p = Some d → gd_outcome d = Accept →
  require_signature p = true → require_expiry p = true →
  let b := body_of v in
  rcpt_digest (vr_receipt v) = receipt_digest_of b ∧
  (∃ k, signed_by_trusted bytes trusted now (vr_receipt v) k) ∧
  (∃ i n, declared_life b i n ∧ (i ≤ now + tolerance)%Z ∧ (now ≤ n + tolerance)%Z ∧
     ∀ m, max_age_seconds p = Some m → (num_seconds (n - i) ≤ m)%Z) ∧
  (allowed_verdicts p ≠ [] → fs_verdict (rb_finding b) ∈ allowed_verdicts p) ∧
  (allowed_actions p ≠ [] → rs_action (rb_recommendation b) ∈ allowed_actions p) ∧
  (∀ g w, g ∈ cov_gaps (rb_coverage b) → w ∈ forbidden_gap_kinds p →
     gap_matches w (rg_kind g) = false).
Proof.
  intros Hv Hg Ho Hq He b.
  apply verify_receipt_bytes_ok in Hv as (Hd & Hs & Hf).
  destruct (receipt_gate_spec v p) as (d' & Hg' & _ & _ & _ & Ha).
  rewrite Hg in Hg'. simplify_eq. apply Ha in Ho as (_ & Hi & Hr). clear Ha.
  split; [done|]. split_and!.
  - destruct (vr_signature v) as [| |k|rej] eqn:E; [..|eauto|];
      by exfalso; eauto using refused, insufficient.
  - apply freshness_certifies in Hf. destruct (vr_freshness v) as [s| | | |] eqn:E;
      [|by exfalso; eauto using refused, insufficient..].
    destruct Hf as (i & n & Hi' & ? & ? & Hn & ?). exists i, n.
    assert (declared_life b i n) as Hl by (split; eauto). split_and!; try done.
    intros m Hm. destruct (decide (num_seconds (n - i) ≤ m)%Z); [done|].
    exfalso. apply Hr. eapply refused_lifetime; [done|done|lia].
  - intros Hne. destruct (decide (fs_verdict (rb_finding b) ∈ allowed_verdicts p)); [done|].
    exfalso; eauto using refused.
  - intros Hne. destruct (decide (rs_action (rb_recommendation b) ∈ allowed_actions p)); [done|].
    exfalso; eauto using refused.
  - intros g w Hgg Hw. destruct (gap_matches w (rg_kind g)) eqn:?; [|done].
    exfalso; eauto using refused.
Qed.
End reading.

(** ** Digests *)

Section digests.
Context `{Sha256, !Sha256Ok}.

Lemma full_digest_agree x y : full_digest x = full_digest y → x = y ∨ collision.
Proof.
  unfold full_digest. intros Heq%(f_equal string_bytes).
  rewrite !string_bytes_app, !string_bytes_of_bytes in Heq by apply hex_bytes, sha256_bytes.
  apply app_inv_head, hex_inj in Heq; [|apply sha256_bytes..].
  destruct (decide (x = y)); [by left|right; by exists x, y].
Qed.
End digests.

(** ** Delegation *)

(** Two envelopes that serialize to the same bytes. *)
Definition ambiguous `{DelegationJson} : Prop :=
  ∃ b1 b2, b1 ≠ b2 ∧ delegation_to_vec b1 = delegation_to_vec b2.

Section delegation.
Context `{Sha256, !Sha256Ok, ReceiptJson, DelegationJson, UuidOps}.
Context `{Chrono, ChronoFromStr, ChronoFmt, ChronoSeconds, !ChronoSecondsOk, HashOrder}.
Implicit Types (e : DelegationEnvelope) (p : DelegationGatePolicy).

Lemma envelope_try_from_ok w e :
  envelope_try_from w = Ok e ↔ w = e ∧ env_digest e = delegation_digest_of (env_body e).
Proof. unfold envelope_try_from. case_decide; naive_solver. Qed.

Lemma check_receipts_ok rs :
  check_receipts rs = Ok tt ↔
  Forall (λ r, rcpt_digest r = receipt_digest_of (rcpt_body r)) rs.
Proof.
  induction rs as [|r rs IH]; simpl; [by split|]. rewrite Forall_cons, <- IH.
  unfold receipt_try_from. case_decide; naive_solver.
Qed.

(** A body read back under the digest of an issued envelope is the issued
    one. *)
Lemma digest_fixes_envelope bytes e b :
  verify_delegation_envelope_bytes bytes = Ok e →
  env_digest e = delegation_digest_of b → env_body e = b ∨ collision ∨ ambiguous.
Proof.
  unfold verify_delegation_envelope_bytes.
  destruct (delegation_wire_slice bytes) as [w|]; [|done].
  destruct (check_receipts _); [|done].
  destruct (envelope_try_from w) as [e'|] eqn:He; [|done]. intros [= ->].
  apply envelope_try_from_ok in He as [_ ->]. unfold delegation_digest_of.
  intros [Heq|?]%full_digest_agree; [|by right; left].
  destruct (decide (env_body e = b)); [by left|]. right; right. by eexists _, _.
Qed.

(** Accepting an envelope is having no reason against it. *)
Lemma delegation_gate_accepts e expected p now d :
  evaluate_delegation_gate e expected p now = Some d → dg_outcome d = Accept →
  ∃ f, assess_delegation_freshness (env_body e) now = Some f ∧
    delegation_reasons (env_body e) expected p f = [].
Proof.
  unfold evaluate_delegation_gate. destruct (negb _ || _); [by intros [= <-]|].
  destruct (assess_delegation_freshness _ now) as [f|]; [|done].
  intros Hd Ho. exists f. split; [done|].
  destruct (delegation_reasons _ _ _ _) as [|r rs] eqn:Hr; [done|].
  destruct (mapM delegation_outcome_of (r :: rs)) as [os|] eqn:Hm; [|done].
  injection Hd as <-. simpl in Ho.
  destruct (gate_outcomes delegation_outcome_of (r :: rs)) as (os' & Hm' & Hout);
    [done| |rewrite Hm in Hm'; simplify_eq; destruct Hout as [[? _]|[? _]]; congruence].
  apply mapM_Some in Hm. clear -Hm. apply Forall_forall. intros c Hc.
  destruct (Forall2_elem_of_l _ _ _ _ Hm Hc) as (o & _ & Hco). unfold collectable.
  destruct c; simpl in *; auto; done.
Qed.

Lemma delegation_reasons_nil b expected p f :
  delegation_reasons b expected p f = [] →
  de_parent b = mkDelegationIdentity (ex_parent_agent_id expected) (ex_parent_task_id expected) ∧
  sc_claim_class (de_scope b) = expected_claim_class expected ∧
  match f with
  | RFresh _ => True
  | RNoExpiryDeclared => dp_require_expiry p = false
  | _ => False
  end ∧
  de_outcome b ∈ allowed_outcomes p ∧
  (de_outcome b = Fulfilled → unresolved_requirement_ids b = []).
Proof.
  unfold delegation_reasons. intros [Hp [Hs [Hf [Ho Hu]%app_nil]%app_nil]%app_nil]%app_nil.
  repeat case_bool_decide; try done. split_and!.
  - destruct (de_parent b) as [a t]; simpl in *. f_equal; apply dec_stable; tauto.
  - done.
  - unfold delegation_freshness_reasons in Hf.
    destruct f; try done. by destruct (dp_require_expiry p).
  - done.
  - intros Hf'. apply dec_stable. tauto.
Qed.

Lemma delegation_fulfilled unavailable a :
  delegation_outcome unavailable a = Fulfilled →
  unavailable = false ∧ overall a = SSatisfied ∧ unresolved_ids a = [].
Proof.
  unfold delegation_outcome. destruct unavailable; [done|].
  by destruct (overall a), (unresolved_ids a).
Qed.

(** What a consumer knows who accepts, on fulfilment only, an envelope
    that it read from bytes and whose digest is that of the envelope the
    child issued: the task was delegated by the expected parent for the
    expected claim class, the child did not report itself unavailable, the
    envelope is not from the future and, if an expiry is required, has not
    expired, and the contract of the class is met by the evidence the child's
    assessment was made on, in every requirement that binds. Otherwise two
    inputs of SHA-256 collide or two bodies serialize alike. *)
Theorem accepted_delegation_certifies reg claim evidence conds inputs issued_at ttl issued
    bytes received expected p now d :
  assess reg (di_claim_class inputs) claim evidence conds = Some (Ok (di_assessment inputs)) →
  issue_delegation_envelope inputs issued_at ttl = Some issued →
  verify_delegation_envelope_bytes bytes = Ok received →
  env_digest received = env_digest issued →
  evaluate_delegation_gate received expected p now = Some d → dg_outcome d = Accept →
  allowed_outcomes p = [Fulfilled] →
  (di_parent inputs =
     mkDelegationIdentity (ex_parent_agent_id expected) (ex_parent_task_id expected) ∧
   di_claim_class inputs = expected_claim_class expected ∧
   child_reported_unavailable inputs = false ∧
   (∃ i, datetime_from_str issued_at = Some i ∧ (i ≤ now + tolerance)%Z ∧
      (dp_require_expiry p = true →
         ∃ s n, de_not_after (env_body received) = Some s ∧ datetime_from_str s = Some n ∧
           (now ≤ n + tolerance)%Z)) ∧
   ∃ reqs, effective_requirements reg (di_claim_class inputs) = Some (Ok reqs) ∧
     ∀ req, req ∈ reqs → binding conds (er_level req) →
       met claim evidence (per_requirement (assessment (di_assessment inputs))) req) ∨
  collision ∨ ambiguous.
Proof.
  intros Hassess Hissue Hread Hdig Hgate Hacc Hp.
  unfold issue_delegation_envelope in Hissue.
  destruct (receipt_not_after issued_at ttl) as [na|]; simpl in Hissue; [|done].
  injection Hissue as <-. simpl in Hdig.
  destruct (digest_fixes_envelope _ _ _ Hread Hdig) as [Hb|?]; [|by right]. left.
  destruct (delegation_gate_accepts _ _ _ _ _ Hgate Hacc) as (f & Hf & Hr).
  apply delegation_reasons_nil in Hr as (Hpar & Hsc & Hfr & Ho & _).
  apply freshness_certifies in Hf. rewrite Hb in *. simpl in *.
  rewrite Hp in Ho. apply list_elem_of_singleton, delegation_fulfilled in Ho as (Hun & Hov & _).
  split_and!; [done|done|done| |by eapply assess_satisfied_met].
  destruct f; try done.
  - destruct Hf as (i & n & ? & ? & ? & ? & ?). exists i. eauto 10.
  - destruct Hf as (i & ? & ? & ?). exists i. split_and!; [done|done|congruence].
Qed.
End delegation.

(** ** Issuing *)

Section issuing.
Context `{Sha256, ReceiptJson, UuidOps, ChronoFromStr, ChronoFmt, ChronoSeconds}.
Implicit Types (inputs : ReceiptInputs) (l : EvidenceLink) (e : Evidence).

(** The record a link of the graph points to. *)
Definition record_of inputs l : option Evidence :=
  collect_by ev_id (ri_evidence inputs) !! link_evidence_id l.

Lemma record_of_id inputs l e : record_of inputs l = Some e → ev_id e = link_evidence_id l.
Proof. by intros [_ ?]%collect_by_Some. Qed.

Lemma coverage_referenced inputs x :
  x ∈ referenced_evidence (coverage_of inputs) ↔
  ∃ l e, l ∈ links (ri_graph inputs) ∧ record_of inputs l = Some e ∧
    withheld_reason e = None ∧ x = evidence_ref l e.
Proof.
  simpl. rewrite sort_by_key_Permutation, list_elem_of_bind.
  setoid_rewrite sort_by_key_Permutation. unfold project_link, record_of. split.
  - intros (l & Hx & Hl). simpl in Hx.
    destruct (_ !! _) as [e|] eqn:He; [|by apply elem_of_nil in Hx].
    destruct (withheld_reason e) eqn:Hw; [by apply elem_of_nil in Hx|].
    apply list_elem_of_singleton in Hx. eauto 10.
  - intros (l & e & Hl & He & Hw & ->). exists l. simpl. rewrite He, Hw. split; [by left|done].
Qed.

Lemma coverage_withheld inputs w :
  w ∈ withheld (coverage_of inputs) ↔
  ∃ l e reason, l ∈ links (ri_graph inputs) ∧ record_of inputs l = Some e ∧
    withheld_reason e = Some reason ∧ w = mkWithheldRef (ev_id e) (ev_kind e) reason.
Proof.
  simpl. rewrite sort_by_key_Permutation, list_elem_of_bind.
  setoid_rewrite sort_by_key_Permutation. unfold project_link, record_of. split.
  - intros (l & Hx & Hl). simpl in Hx.
    destruct (_ !! _) as [e|] eqn:He; [|by apply elem_of_nil in Hx].
    destruct (withheld_reason e) eqn:Hw; [|by apply elem_of_nil in Hx].
    apply list_elem_of_singleton in Hx. eauto 10.
  - intros (l & e & r & Hl & He & Hw & ->). exists l. simpl. rewrite He, Hw.
    split; [by left|done].
Qed.

(** Each link with a record appears once. *)
Lemma coverage_links inputs :
  (ref_evidence_id <$> referenced_evidence (coverage_of inputs)) ++
  (wh_evidence_id <$> withheld (coverage_of inputs)) ≡ₚ
  link_evidence_id <$> filter (λ l, is_Some (record_of inputs l)) (links (ri_graph inputs)).
Proof.
  simpl. rewrite (sort_by_key_Permutation ref_evidence_id).
  rewrite (sort_by_key_Permutation wh_evidence_id).
  rewrite <- (sort_by_key_Permutation link_evidence_id (links (ri_graph inputs))) at 3.
  induction (sort_by_key link_evidence_id (links (ri_graph inputs))) as [|l ls IH]; [done|].
  rewrite !bind_cons, !fmap_app, filter_cons. simpl. unfold project_link at 1 3.
  pose proof (record_of_id inputs l) as Hid. unfold record_of in *.
  destruct (_ !! _) as [e|] eqn:He; [|rewrite decide_False by (by intros [? [=]]); done].
  rewrite decide_True by eauto. specialize (Hid e eq_refl). csimpl.
  destruct (withheld_reason e); simpl; rewrite Hid, <- IH; [|done].
  by rewrite <- Permutation_middle.
Qed.

(** What is fingerprinted is neither purged, nor of another kind than exit
    codes and process observations, nor oversized. *)
Lemma exportable e :
  withheld_reason e = None ↔
  evidence_purged e = false ∧ (ev_kind e = ExitCode ∨ ev_kind e = ProcessObservation) ∧
  length (value_to_vec (ev_payload e)) ≤ MAX_FINGERPRINTED_PAYLOAD_BYTES.
Proof.
  unfold withheld_reason, EXPORTABLE_EVIDENCE_KINDS. destruct (evidence_purged e); [naive_solver|].
  case_decide as Hk; [split; [done|set_solver]|]. case_decide; split; try done.
  - intros (_ & _ & ?). lia.
  - intros _. split_and!; [done|set_solver|lia].
Qed.

(** An issued receipt accounts for the evidence: every link of the graph
    whose record is at hand appears once, either referenced with its relation
    and a fingerprint or withheld with the reason; only records that are not
    purged, of an exportable kind and within the size bound are
    fingerprinted; the evidence root is the digest of exactly those
    references, and the receipt's digest that of its body. *)
Theorem receipt_accounts_for_evidence inputs issued_at ttl r :
  issue_receipt inputs issued_at ttl = Some (Ok r) →
  let cov := rb_coverage (rcpt_body r) in
  (∀ l e, l ∈ links (ri_graph inputs) → record_of inputs l = Some e →
     match withheld_reason e with
     | None => evidence_ref l e ∈ referenced_evidence cov
     | Some reason => mkWithheldRef (ev_id e) (ev_kind e) reason ∈ withheld cov
     end) ∧
  (ref_evidence_id <$> referenced_evidence cov) ++ (wh_evidence_id <$> withheld cov) ≡ₚ
    link_evidence_id <$> filter (λ l, is_Some (record_of inputs l)) (links (ri_graph inputs)) ∧
  (∀ x, x ∈ referenced_evidence cov → ∃ l e, l ∈ links (ri_graph inputs) ∧
     record_of inputs l = Some e ∧ x = evidence_ref l e ∧ evidence_purged e = false ∧
     (ev_kind e = ExitCode ∨ ev_kind e = ProcessObservation) ∧
     length (value_to_vec (ev_payload e)) ≤ MAX_FINGERPRINTED_PAYLOAD_BYTES) ∧
  evidence_root cov = evidence_root_of (referenced_evidence cov) ∧
  rcpt_digest r = receipt_digest_of (rcpt_body r).
Proof.
  unfold issue_receipt. do 2 (case_decide; [done|]).
  destruct (receipt_not_after issued_at ttl) as [na|]; [|done]. intros [= <-].
  cbn [rcpt_body rb_coverage with_receipt_id rcpt_digest]. split_and!.
  - intros l e Hl He. destruct (withheld_reason e) as [reason|] eqn:Hw.
    + apply coverage_withheld. eauto 10.
    + apply coverage_referenced. eauto 10.
  - apply coverage_links.
  - intros x (l & e & Hl & He & Hw & ->)%coverage_referenced. exists l, e.
    by apply exportable in Hw as (? & ? & ?).
  - done.
  - done.
Qed.

(** Two payloads of records of one kind that show alike: anything at all if
    the record is purged or of a kind that is not exported; above the limit,
    payloads of one length in bytes; otherwise payloads of one fingerprint. *)
Definition payloads_show_alike e1 e2 : Prop :=
  let bytes e := value_to_vec (ev_payload e) in
  evidence_purged e1 = true ∨ ev_kind e1 ∉ EXPORTABLE_EVIDENCE_KINDS ∨
  (MAX_FINGERPRINTED_PAYLOAD_BYTES < length (bytes e1) ∧ length (bytes e1) = length (bytes e2)) ∨
  (length (bytes e1) ≤ MAX_FINGERPRINTED_PAYLOAD_BYTES ∧
   length (bytes e2) ≤ MAX_FINGERPRINTED_PAYLOAD_BYTES ∧
   short_fingerprint (bytes e1) = short_fingerprint (bytes e2)).

(** Two records the receipt cannot tell apart: they differ at most in the
    provenance text, the extension, the event they came with and the payload,
    and their payloads show alike. *)
Definition indistinguishable e1 e2 : Prop :=
  ev_id e1 = ev_id e2 ∧ ev_kind e1 = ev_kind e2 ∧ ev_observed_at e1 = ev_observed_at e2 ∧
  ev_source e1 = ev_source e2 ∧ evidence_purged e1 = evidence_purged e2 ∧
  payloads_show_alike e1 e2.

Lemma indistinguishable_withheld e1 e2 :
  indistinguishable e1 e2 →
  withheld_reason e1 = withheld_reason e2 ∧
  (withheld_reason e1 = None →
     short_fingerprint (value_to_vec (ev_payload e1)) =
     short_fingerprint (value_to_vec (ev_payload e2))).
Proof.
  intros (_ & Hk & _ & _ & Hp & Hshow). unfold withheld_reason. rewrite <- Hk, <- Hp.
  destruct (evidence_purged e1) eqn:Epu; [done|]. case_decide as Hex; [done|].
  destruct Hshow as [?|[?|[[Hb Heq]|(Hb1 & Hb2 & Heq)]]]; [congruence|done| |].
  - by rewrite <- Heq, decide_True.
  - rewrite !decide_False by lia. done.
Qed.

Definition with_content inputs (text : string) (evidence : list Evidence) : ReceiptInputs :=
  let c := ri_claim inputs in
  mkReceiptInputs
    (mkClaim (claim_id c) (claim_session_id c) (claim_source_event_id c) text (claim_subject c)
       (claimed_at c))
    (ri_graph inputs) evidence (ri_fused inputs) (ri_recommendation inputs) (ri_gaps inputs)
    (ri_families inputs) (ri_provenance inputs) (ri_calibration inputs) (ri_issuer inputs)
    (ri_home_identity inputs).

Lemma project_link_indistinguishable es1 es2 l :
  Forall2 indistinguishable es1 es2 →
  project_link (collect_by ev_id es1) l = project_link (collect_by ev_id es2) l.
Proof.
  intros Hes.
  assert (option_Forall2 indistinguishable (collect_by ev_id es1 !! link_evidence_id l)
            (collect_by ev_id es2 !! link_evidence_id l)) as Hlook.
  { revert es2 Hes. induction es1 as [|e1 es1 IH] using rev_ind; intros es2.
    { intros ->%Forall2_nil_inv_l. constructor. }
    intros (es2' & ? & Hes & (e2 & ? & He & ->%Forall2_nil_inv_l & ->)%Forall2_cons_inv_l & ->)
      %Forall2_app_inv_l. specialize (IH _ Hes).
    rewrite !collect_by_snoc. pose proof He as (Hid & _). rewrite Hid. destruct (decide (ev_id e2 = link_evidence_id l)) as [->|].
    - rewrite !lookup_insert_eq. by constructor.
    - by rewrite !lookup_insert_ne. }
  unfold project_link.
  destruct Hlook as [e1 e2 He|]; [|done].
  destruct (indistinguishable_withheld e1 e2 He) as [Hw Hf].
  destruct He as (Hid & Hk & Ho & Hs & Hp & _).
  rewrite <- Hw. destruct (withheld_reason e1) eqn:E; [by rewrite Hid, Hk|].
  unfold evidence_ref. by rewrite Hid, Hk, Ho, Hs, Hp, Hf.
Qed.

(** C8. A receipt reveals of the claim's text only a fingerprint of its
    redacted form, and of a record's payload nothing if the record is purged or
    of a kind that is not exported, the number of bytes if it is oversized, and
    a fingerprint otherwise: exchanging the claim's text and the records for
    others that show alike issues the very same receipt. *)
Theorem receipt_hides_contents inputs text evidence issued_at ttl :
  redact_text text = redact_text (claim_text (ri_claim inputs)) →
  Forall2 indistinguishable (ri_evidence inputs) evidence →
  issue_receipt (with_content inputs text evidence) issued_at ttl =
  issue_receipt inputs issued_at ttl.
Proof.
  intros Ht Hes. unfold issue_receipt. simpl. rewrite Ht.
  assert (coverage_of (with_content inputs text evidence) = coverage_of inputs) as Hc.
  { assert (∀ l, project_link (collect_by ev_id evidence) l =
                project_link (collect_by ev_id (ri_evidence inputs)) l) as Hl
      by (intros l; by rewrite (project_link_indistinguishable _ _ l Hes)).
    unfold coverage_of. simpl.
    set (ls := sort_by_key link_evidence_id _).
    assert (∀ ls : list EvidenceLink,
      ls ≫= (fst ∘ project_link (collect_by ev_id evidence)) =
        ls ≫= (fst ∘ project_link (collect_by ev_id (ri_evidence inputs))) ∧
      ls ≫= (snd ∘ project_link (collect_by ev_id evidence)) =
        ls ≫= (snd ∘ project_link (collect_by ev_id (ri_evidence inputs)))) as Hb.
    { intros xs. split; apply list_bind_ext; try done; intros l; simpl; by rewrite Hl. }
    destruct (Hb ls) as [-> ->]. done. }
  by rewrite Hc.
Qed.
End issuing.
