(* ===== verification/ReceiptExamples.v ===== *)
(** * Receipts and delegation envelopes on concrete inputs

    A small instance of the libraries receipts rely on, the witnesses of the
    theorems about receipts and envelopes, and the places where code and
    documentation part. *)

From S2P Require Import Prelude.
From S2P Require Import Types.
From S2P Require Import Text.
From S2P Require Import Graph.
From S2P Require Import Contract.
From S2P Require Import UnionFind.
From S2P Require Import Independence.
From S2P Require Import Families.
From S2P Require Import Fusion.
From S2P Require Import FusionSpec.
From S2P Require Import Projection.
From S2P Require Import Calibration.
From S2P Require Import Decision.
From S2P Require Import PolicyContent.
From S2P Require Import Voi.
From S2P Require Import ContractSat.
From S2P Require Import ContractSpec.
From S2P Require Import PolicyRevision.
From S2P Require Import PolicyResolve.
From S2P Require Import PolicyBundle.
From S2P Require Import PolicyBundleSpec.
From S2P Require Import PolicyCache.
From S2P Require Import Redact.
From S2P Require Import AuditEvent.
From S2P Require Import AuditLedger.
From S2P Require Import AuditLedgerSpec.
From S2P Require Import Receipt.
From S2P Require Import ReceiptGate.
From S2P Require Import Delegation.
From S2P Require Import ReceiptSpec.

Local Open Scope fornax_scope.

(** ** The libraries, concretely *)

#[local] Existing Instance FusionSpec.sample_chrono.
#[local] Instance rx_sha : Sha256 := {
  sha256 m := replicate 32 (foldl (λ acc b, (31 * acc + b + 7) mod 251) 1 m)%N;
}.
#[local] Instance rx_sha_ok : Sha256Ok.
Proof.
  split; intros m; [apply length_replicate|]. apply Forall_replicate.
  destruct m as [|b m] using rev_ind; [done|]. rewrite foldl_snoc.
  eapply N.lt_trans; [apply N.mod_upper_bound|]; done.
Qed.
#[local] Instance rx_json : ReceiptJson := {
  value_to_vec v := match v with JNull => string_bytes "null" | _ => string_bytes "value" end;
  body_to_vec b := string_bytes (rb_issuer b +:+ rb_issued_at b);
  refs_to_vec refs := [N.of_nat (length refs)];
}.
#[local] Instance rx_uuid : UuidOps := {
  uuid_to_string _ := "id";
  new_v5 _ s := N.of_nat (String.length s);
}.
(** A clock that reads one timestamp more than that of the fusion examples. *)
#[local] Instance rx_from_str : ChronoFromStr := {
  datetime_from_str s :=
    if decide (s = "expiry") then Some (10800 * nanos_per_second)%Z else parse_from_rfc3339 s;
}.
#[local] Instance rx_fmt : ChronoFmt := {
  to_rfc3339 _ := "expiry";
  add_days t d := Some (t + 86400 * d * nanos_per_second)%Z;
}.
#[local] Instance rx_seconds : ChronoSeconds := {
  add_seconds t s := Some (t + s * nanos_per_second)%Z;
}.
#[local] Instance rx_seconds_ok : ChronoSecondsOk.
Proof. by intros t s t' [= <-]. Qed.
#[local] Instance rx_hash_order : HashOrder := { hash_iter _ s := elements s }.

(** ** Issuing *)

Definition rx_now : Z := 7300 * nanos_per_second.
Definition rx_provenance : CalibrationProvenance :=
  mkCalibrationProvenance 1 "p" None 1 [] "baseline" 2 "default" 1 1 [] None None None.

Definition rx_record (i : Uuid) (kind : EvidenceKind) (payload : Value) : Evidence :=
  record i (10 * i) kind payload HostObserved None.
Definition rx_inputs : ReceiptInputs :=
  mkReceiptInputs sample_claim
    (mkEvidenceGraph [sample_link 1 2 Supports; sample_link 2 1 Supports; sample_link 3 5 Supports] [])
    [rx_record 1 ExitCode JNull; rx_record 2 TranscriptExcerpt JNull]
    (fused clean_input) (decide_default (fused clean_input) Balanced) []
    (families_of clean_input) rx_provenance (mkCalibrationAssessment CalValid 1) "issuer" "home".
Definition rx_issued : IntegrityReceipt :=
  match issue_receipt rx_inputs "2026-01-01T02:00:00Z" (Some 3600%Z) with
  | Some (Ok r) => r
  | _ => mkIntegrityReceipt
           (mkReceiptBody 0 0 "" "" "" None ReferenceOnly (mkClaimRef 0 "" "" "" "")
              (finding_summary (fused clean_input)) (mkRecommendationSummary Proceed Balanced "" 0)
              (coverage_of rx_inputs) rx_provenance (mkCalibrationAssessment CalValid 1)) ""
  end.

Lemma receipt_accounts_for_evidence_witness :
  evidence_ref (sample_link 2 1 Supports) (rx_record 1 ExitCode JNull)
    ∈ referenced_evidence (rb_coverage (rcpt_body rx_issued)) ∧
  mkWithheldRef 2 TranscriptExcerpt KindNotExportable
    ∈ withheld (rb_coverage (rcpt_body rx_issued)).
Proof.
  destruct (receipt_accounts_for_evidence rx_inputs "2026-01-01T02:00:00Z" (Some 3600%Z) rx_issued)
    as (Hall & _); [vm_compute; reflexivity|].
  split.
  - apply (Hall (sample_link 2 1 Supports) (rx_record 1 ExitCode JNull));
      [right; left|vm_compute; reflexivity].
  - apply (Hall (sample_link 1 2 Supports) (rx_record 2 TranscriptExcerpt JNull));
      [left|vm_compute; reflexivity].
Defined.

(** Another transcript, under the same redacted claim. *)
Lemma receipt_hides_contents_witness :
  issue_receipt
    (with_content rx_inputs "tests pass"
       [rx_record 1 ExitCode JNull; rx_record 2 TranscriptExcerpt (JString "secret")])
    "2026-01-01T02:00:00Z" (Some 3600%Z) = Some (Ok rx_issued).
Proof.
  rewrite (receipt_hides_contents rx_inputs "tests pass"
    [rx_record 1 ExitCode JNull; rx_record 2 TranscriptExcerpt (JString "secret")]).
  - vm_compute. reflexivity.
  - vm_compute. reflexivity.
  - constructor; [|constructor; [|constructor]]; (do 5 (split; [reflexivity|])).
    + right; right; right.
      split; [|split; [|reflexivity]]; apply Nat.leb_le; vm_compute; reflexivity.
    + right; left. intros Hin. unfold EXPORTABLE_EVIDENCE_KINDS in Hin. simpl in Hin.
      repeat (apply elem_of_cons in Hin as [Hin|Hin]; [discriminate|]).
      exact (not_elem_of_nil _ Hin).
Defined.

(** ** Verifying and gating *)

Definition rx_x (n : nat) : string := bytes_string (replicate n 120%N).
Definition rx_keys : TrustedVerificationKeys :=
  mkTrustedVerificationKeys 1 [mkTrustedKey "k1" Ed25519 (rx_x 32) None None None].
#[local] Instance rx_policy_wire : PolicyWire := {
  strict_base64_decode s := Ok (string_bytes s);
  VerifyingKey := unit;
  verifying_key_from_bytes _ := Some tt;
  verify_strict _ _ _ := true;
  sha256_hex bytes := bytes_string bytes;
  parse_bundle_envelope _ := Err "unused";
  parse_bundle_payload _ := Err "unused";
  parse_revocation_envelope _ := Err "unused";
  parse_revocation_payload _ := Err "unused";
  parse_trust_store _ := Err "unused";
  report_text _ := "report";
}.
Definition rx_envelope : SignedIntegrityReceipt :=
  mkSignedIntegrityReceipt 1 "payload" [mkBundleSignature "k1" Ed25519 (rx_x 64)].
#[local] Instance rx_wire : ReceiptWire := {
  receipt_value _ := Ok (JObject [("payload_b64", JNull)]);
  receipt_envelope_slice _ := Ok rx_envelope;
  receipt_envelope_value _ := Ok rx_envelope;
  receipt_wire_slice _ := Ok rx_issued;
  receipt_wire_value _ := Ok rx_issued;
  decode_unverified s := Ok (string_bytes s);
  digest_mismatch_text _ := "mismatch";
}.
Definition rx_policy : ReceiptGatePolicy :=
  mkReceiptGatePolicy true "strict" 1 true [Verified] [Proceed] [WUnresolvedConflict] true
    (Some DEFAULT_RECEIPT_TTL_SECONDS) false.
Definition rx_verified : VerifiedReceipt :=
  mkVerifiedReceipt rx_issued (SigVerified "k1") (RFresh "expiry").

Lemma accepted_receipt_certifies_witness :
  ∃ i n, declared_life (body_of rx_verified) i n ∧ (i ≤ rx_now + tolerance)%Z ∧
    (rx_now ≤ n + tolerance)%Z.
Proof.
  destruct (accepted_receipt_certifies [1%N] (Some rx_keys) rx_now rx_verified rx_policy
    (mkGateDecision Accept [AllChecksSatisfied]))
    as (_ & _ & (i & n & Hl & Hi & Hn & _) & _);
    [vm_compute; reflexivity..|].
  exists i, n. split; [exact Hl|]. split; [exact Hi|exact Hn].
Defined.

(** A calibration that is not valid, where the policy asks for a valid one, is
    documented as a reason to hold; the gate rejects. *)
Example uncalibrated_receipt_is_rejected :
  let b := rcpt_body rx_issued in
  let r := mkIntegrityReceipt
    (mkReceiptBody (receipt_schema_version b) (receipt_id b) (rb_issuer b) (home_identity b)
       (rb_issued_at b) (rb_not_after b) (embed_policy b) (rb_claim b) (rb_finding b)
       (rb_recommendation b) (rb_coverage b) (rb_provenance b)
       (mkCalibrationAssessment NoActiveCalibration 1)) (rcpt_digest rx_issued) in
  evaluate_receipt_gate (mkVerifiedReceipt r (SigVerified "k1") (RFresh "expiry"))
    (mkReceiptGatePolicy true "strict" 1 true [Verified] [Proceed] [] true None true)
  = Some (mkGateDecision Reject [CalibrationNotValid]).
Proof. vm_compute. reflexivity. Qed.

(** ** Delegation *)

Definition rx_delegation : DelegationInputs :=
  mkDelegationInputs (mkDelegationIdentity "parent" 1) (mkDelegationIdentity "child" 2)
    fixed_class "edit files" "a patch"
    (match assess registry fixed_class sample_claim fixed_evidence [] with
     | Some (Ok report) => report
     | _ => fixed_report
     end) [rx_issued] [] false.
#[local] Instance rx_delegation_json_bytes : DelegationJson := {
  delegation_to_vec b := string_bytes (de_issued_at b);
  delegation_wire_slice _ := Err "unused";
  delegation_mismatch_text _ _ := "mismatch";
}.
Definition rx_delegated : DelegationEnvelope :=
  match issue_delegation_envelope rx_delegation "2026-01-01T02:00:00Z" (Some 3600%Z) with
  | Some e => e
  | None => mkDelegationEnvelope
      (mkDelegationEnvelopeBody 0 0 "" None (mkDelegationIdentity "" 0)
         (mkDelegationIdentity "" 0) (mkDelegationScope fixed_class "" "") DUnavailable SUnknown
         [] [] [] []) ""
  end.
#[local] Instance rx_delegation_json : DelegationJson := {
  delegation_to_vec b := string_bytes (de_issued_at b);
  delegation_wire_slice _ := Ok rx_delegated;
  delegation_mismatch_text _ _ := "mismatch";
}.
Definition rx_expected : ExpectedDelegationContext :=
  mkExpectedDelegationContext "parent" 1 fixed_class.

Lemma accepted_delegation_certifies_witness :
  (∃ reqs, effective_requirements registry fixed_class = Some (Ok reqs) ∧
     ∀ req, req ∈ reqs → binding [] (er_level req) →
       met sample_claim fixed_evidence
         (per_requirement (assessment (di_assessment rx_delegation))) req) ∨
  collision ∨ ambiguous.
Proof.
  destruct (accepted_delegation_certifies registry sample_claim fixed_evidence [] rx_delegation
    "2026-01-01T02:00:00Z" (Some 3600%Z) rx_delegated [] rx_delegated rx_expected
    require_fulfilled_only rx_now
    (mkDelegationGateDecision Accept [DgAllChecksSatisfied]))
    as [(_ & _ & _ & _ & Hmet)|Hbad];
    [vm_compute; reflexivity..|left; exact Hmet|right; exact Hbad].
Defined.

(** An obligation that binds by its condition is not listed: the envelope of a
    child that did not meet it names nothing unresolved. *)
Example conditional_obligation_is_not_listed :
  let push := mkClaimClassId "commit_push_completed" 1 in
  match assess registry push sample_claim [rx_record 1 ProcessObservation JNull]
          ["claim asserts a push to a shared/remote ref"] with
  | Some (Ok report) =>
      delegation_outcome false (assessment report) = PartiallyFulfilled ∧
      unresolved_ids (assessment report) = []
  | _ => False
  end.
Proof. vm_compute. done. Qed.
