(* ===== verification/Capabilities.v ===== *)
(** * Announced capabilities

    [fornax-types/src/capabilities.rs]: the wire form of a capability
    announcement, which still carries the six booleans of an older version,
    and how an announcement is rebuilt from it; of [fornax-store/src/lib.rs]
    the table of announcements, one row per session and provider, its upsert
    and its reading. *)

From S2P Require Import Prelude.
From S2P Require Import Types.
From S2P Require Import Text.
From S2P Require Import EventStore.

Local Open Scope fornax_scope.

Definition CAPABILITY_SCHEMA_VERSION : N := 1.

(** ** The wire form *)

Record RuntimeCapabilitiesWire := mkRuntimeCapabilitiesWire {
  w_schema_version : N;
  w_provider : Provider;
  w_signals : list CapabilitySignal;
  w_notes : gmap string string;
  w_supports_pre_tool_use : bool;
  w_supports_post_tool_use : bool;
  w_supports_tool_response_capture : bool;
  w_supports_session_stop_event : bool;
  w_supports_transcript_tail : bool;
  w_supports_subagent_lifecycle : bool;
}.

Definition legacy_bool_to_availability (supported : bool) : SignalAvailability :=
  if supported then Available else Unknown.

(** The six classes the booleans covered. *)
Definition legacy_signals (w : RuntimeCapabilitiesWire) : list CapabilitySignal :=
  [mkCapabilitySignal ToolInvocation (legacy_bool_to_availability (w_supports_pre_tool_use w)) None;
   mkCapabilitySignal ToolTrace (legacy_bool_to_availability (w_supports_post_tool_use w)) None;
   mkCapabilitySignal ToolResultPayload
     (legacy_bool_to_availability (w_supports_tool_response_capture w)) None;
   mkCapabilitySignal SessionLifecycle
     (legacy_bool_to_availability (w_supports_session_stop_event w)) None;
   mkCapabilitySignal FinalResponse
     (legacy_bool_to_availability (w_supports_transcript_tail w)) None;
   mkCapabilitySignal SubagentLifecycle
     (legacy_bool_to_availability (w_supports_subagent_lifecycle w)) None].

(** [From<RuntimeCapabilitiesWire> for RuntimeCapabilities]. *)
Definition capabilities_from_wire (w : RuntimeCapabilitiesWire) : RuntimeCapabilities :=
  mkRuntimeCapabilities
    (if decide (w_schema_version w = 0%N) then CAPABILITY_SCHEMA_VERSION else w_schema_version w)
    (w_provider w)
    (match w_signals w with [] => legacy_signals w | signals => signals end)
    (w_notes w).

(** [LegacyCapabilitiesWire], the projection to the booleans. *)
Record LegacyCapabilitiesWire := mkLegacyCapabilitiesWire {
  lw_provider : Provider;
  lw_supports_pre_tool_use : bool;
  lw_supports_post_tool_use : bool;
  lw_supports_tool_response_capture : bool;
  lw_supports_session_stop_event : bool;
  lw_supports_transcript_tail : bool;
  lw_supports_subagent_lifecycle : bool;
  lw_notes : gmap string string;
  lw_session_id : option string;
  lw_schema_version : option N;
  lw_signals : list CapabilitySignal;
}.
Definition legacy_from_capabilities (c : RuntimeCapabilities) : LegacyCapabilitiesWire :=
  mkLegacyCapabilitiesWire (rc_provider c) (is_observable c ToolInvocation)
    (is_observable c ToolTrace) (is_observable c ToolResultPayload)
    (is_observable c SessionLifecycle) (is_observable c FinalResponse)
    (is_observable c SubagentLifecycle) (rc_notes c) None (Some (rc_schema_version c))
    (rc_signals c).

(** ** The table *)

Record CapabilitiesRow := mkCapabilitiesRow {
  cap_supports_pre_tool_use : bool;
  cap_supports_post_tool_use : bool;
  cap_supports_tool_response_capture : bool;
  cap_supports_session_stop_event : bool;
  cap_supports_transcript_tail : bool;
  cap_supports_subagent_lifecycle : bool;
  cap_notes : string;
  cap_schema_version : option Z;
  cap_signals : option string;
  cap_observed_at : string;
}.
(** Keyed by the session and the tag of the provider. *)
Definition CapabilitiesTable := gmap (string * string) CapabilitiesRow.

(** [serde_json] on the two JSON columns. *)
Class CapabilityJson := {
  notes_to_json : gmap string string → string;
  notes_from_json : string → option (gmap string string);
  signals_to_json : list CapabilitySignal → string;
  signals_from_json : string → option (list CapabilitySignal);
}.
(** What is written is read back. *)
Class CapabilityJsonOk `{CapabilityJson} : Prop := {
  notes_roundtrip : ∀ n, notes_from_json (notes_to_json n) = Some n;
  signals_roundtrip : ∀ s, signals_from_json (signals_to_json s) = Some s;
}.

Definition u32_max : Z := 4294967295.

Section capabilities.
Context `{CapabilityJson}.

Definition capabilities_row (caps : RuntimeCapabilities) (observed_at : string) : CapabilitiesRow :=
  let legacy := legacy_from_capabilities caps in
  mkCapabilitiesRow (lw_supports_pre_tool_use legacy) (lw_supports_post_tool_use legacy)
    (lw_supports_tool_response_capture legacy) (lw_supports_session_stop_event legacy)
    (lw_supports_transcript_tail legacy) (lw_supports_subagent_lifecycle legacy)
    (notes_to_json (rc_notes caps)) (Some (Z.of_N (rc_schema_version caps)))
    (Some (signals_to_json (rc_signals caps))) observed_at.

Definition upsert_capabilities (sql : Sqlite) (session_id : string) (caps : RuntimeCapabilities)
    (observed_at : string) (t : CapabilitiesTable) : result StoreError unit * CapabilitiesTable :=
  if is_blank session_id then (Err (MissingSessionIdentity "runtime_capabilities"), t)
  else
    match sql with
    | Commits =>
        (Ok tt, <[(session_id, provider_tag (rc_provider caps)) :=
                    capabilities_row caps observed_at]> t)
    | _ => (Err StoreDb, t)
    end.

(** [TryFrom<CapabilitiesRow>]: the columns as a wire form. The version is
    read into a [u32], and is zero when the column is NULL. *)
Definition capabilities_of_row (provider : string) (r : CapabilitiesRow) :
    result StoreError RuntimeCapabilities :=
  match provider_of_tag provider, notes_from_json (cap_notes r),
        (match cap_signals r with None => Some [] | Some s => signals_from_json s end),
        default 0%Z (cap_schema_version r) with
  | Some p, Some notes, Some signals, version =>
      if bool_decide (0 ≤ version ≤ u32_max)%Z then
        Ok (capabilities_from_wire
              (mkRuntimeCapabilitiesWire (Z.to_N version) p signals notes
                 (cap_supports_pre_tool_use r) (cap_supports_post_tool_use r)
                 (cap_supports_tool_response_capture r) (cap_supports_session_stop_event r)
                 (cap_supports_transcript_tail r) (cap_supports_subagent_lifecycle r)))
      else Err (StoreJson "runtime_capabilities row")
  | _, _, _, _ => Err (StoreJson "runtime_capabilities row")
  end.

(** The rows of a session in the order of their providers' tags. *)
Definition session_rows (session_id : string) (t : CapabilitiesTable) :
    list (string * CapabilitiesRow) :=
  sort_by_key fst
    (omap (λ x, if decide (x.1.1 = session_id) then Some (x.1.2, x.2) else None) (map_to_list t)).
Definition capabilities_for_session (session_id : string) (t : CapabilitiesTable) :
    result StoreError (list RuntimeCapabilities) :=
  collect_results ((λ x, capabilities_of_row x.1 x.2) <$> session_rows session_id t).
End capabilities.

(** ** What the daemon assumes before any announcement *)

Definition default_unknown_caps : RuntimeCapabilities :=
  mkRuntimeCapabilities CAPABILITY_SCHEMA_VERSION ProviderUnknown []
    {[ "reason" := "no capabilities announced by adapter yet" ]}.

(** ** Lemmas *)

Section spec.
Context `{CapabilityJsonOk}.

(** Two announcements a verifier cannot tell apart. *)
Definition caps_equiv (c c' : RuntimeCapabilities) : Prop :=
  rc_provider c = rc_provider c' ∧ rc_notes c = rc_notes c' ∧
  ∀ class, state_of c class = state_of c' class.
#[export] Instance caps_equiv_equivalence : Equivalence caps_equiv.
Proof.
  split.
  - by intros c.
  - intros c c' (?&?&?). split_and!; intros; by symmetry.
  - intros c1 c2 c3 (?&?&E1) (?&?&E2). split_and!; [congruence..|].
    intros class. by rewrite E1, E2.
Qed.
#[export] Instance is_observable_proper : Proper (caps_equiv ==> eq ==> eq) is_observable.
Proof. intros c c' (_&_&E) class ? <-. unfold is_observable. by rewrite E. Qed.

Lemma unannounced_is_unknown class : state_of default_unknown_caps class = Unknown.
Proof. done. Qed.

Lemma no_signals_unobservable c class :
  rc_signals c = [] → state_of c class = Unknown ∧ is_observable c class = false.
Proof. unfold is_observable, state_of. by intros ->. Qed.

Lemma all_legacy_unknown w class :
  w_supports_pre_tool_use w = false → w_supports_post_tool_use w = false →
  w_supports_tool_response_capture w = false → w_supports_session_stop_event w = false →
  w_supports_transcript_tail w = false → w_supports_subagent_lifecycle w = false →
  w_signals w = [] → state_of (capabilities_from_wire w) class = Unknown.
Proof.
  unfold capabilities_from_wire, legacy_signals, state_of.
  intros -> -> -> -> -> -> ->. simpl. by repeat case_decide.
Qed.

Lemma provider_roundtrip p : provider_of_tag (provider_tag p) = Some p.
Proof. by destruct p. Qed.

Lemma capabilities_row_roundtrip caps observed_at :
  (Z.of_N (rc_schema_version caps) ≤ u32_max)%Z →
  ∃ caps', capabilities_of_row (provider_tag (rc_provider caps))
             (capabilities_row caps observed_at) = Ok caps' ∧ caps_equiv caps caps'.
Proof.
  intros Hv. unfold capabilities_of_row. rewrite provider_roundtrip. simpl.
  rewrite notes_roundtrip, signals_roundtrip, bool_decide_true by lia.
  eexists. split; [done|]. split_and!; [done..|]. intros class.
  destruct (rc_signals caps) as [|s l] eqn:E.
  - pose proof (λ k, proj2 (no_signals_unobservable caps k E)) as Hn.
    rewrite (all_legacy_unknown _ class); simpl; auto. by apply no_signals_unobservable.
  - unfold capabilities_from_wire, state_of. simpl. by rewrite E.
Qed.
End spec.
