(* ===== verification/Ingest.v ===== *)
(** * The daemon's ingest of messages

    Of [fornax-daemon/src/main.rs]: the state the ingest connections share,
    the marks of connections that were handed off, one handler per message
    with its redaction, and the processing of one line with its quarantine.
    The concurrent connections are in [Turnstile].

    A message is handled under one mutex. The answers of SQLite, the clock
    and the uuid generator to the statements of one line are the argument
    [LineWorld]; [None] is a panic. *)

From S2P Require Import Prelude.
From S2P Require Import Types.
From S2P Require Import Text.
From S2P Require Import Projection.
From S2P Require Import PolicyContent.
From S2P Require Import PolicyRevision.
From S2P Require Import PolicyBundle.
From S2P Require Import PolicyCache.
From S2P Require Import PolicyStore.
From S2P Require Import Redact.
From S2P Require Import ExecutionIdentity.
From S2P Require Import EventStore.
From S2P Require Import EventRead.
From S2P Require Import Admission.
From S2P Require Import Consumption.
From S2P Require Import Verifiers.
From S2P Require Import Capabilities.

Local Open Scope fornax_scope.

(** * Quarantined ingest lines

    [fornax-store/src/quarantine.rs]: the durable record of a line the daemon
    could not process. The table is one of those retention knows only by
    table and primary key ([t_documents]): the row is kept as its document. *)

Inductive QuarantineReason := ParseError | HandleError.
#[export] Instance QuarantineReason_eq_dec : EqDecision QuarantineReason.
Proof. solve_decision. Defined.
Definition quarantine_reason_str (r : QuarantineReason) : string :=
  match r with ParseError => "parse_error" | HandleError => "handle_error" end.

Record QuarantinedLine := mkQuarantinedLine {
  ql_id : string;
  ql_received_at : string;
  ql_reason_kind : string;
  ql_reason : string;
  ql_raw_line : string;
}.
#[export] Instance QuarantinedLine_eq_dec : EqDecision QuarantinedLine.
Proof. solve_decision. Defined.

(** The columns of a row as one document, which SQLite gives back. *)
Class QuarantineRows := {
  row_document : QuarantinedLine → string;
  row_of_document : string → option QuarantinedLine;
}.
Class QuarantineRowsOk `{QuarantineRows} : Prop :=
  row_roundtrip : ∀ r, row_of_document (row_document r) = Some r.

Definition INGEST_QUARANTINE : string := "ingest_quarantine".

Section quarantine.
Context `{EventJson, QuarantineRows}.

(** The [Uuid::new_v4] of the row is an argument; an INSERT under an
    identifier in use fails. *)
Definition record_quarantine_body (raw_line reason : string) (kind : QuarantineReason)
    (id received_at recorded_at : string) (db : EventDb) : result StoreError (string * EventDb) :=
  match t_documents db !! (INGEST_QUARANTINE, id) with
  | Some _ => Err StoreDb
  | None =>
      let row :=
        mkQuarantinedLine id received_at (quarantine_reason_str kind) reason raw_line in
      let db := with_documents <[(INGEST_QUARANTINE, id) := row_document row]> db in
      Ok (id, insert_lineage_tag_row INGEST_QUARANTINE id
                (new_lineage_tag (retention_class_for_table INGEST_QUARANTINE)
                   ("unattributed-quarantine-" +:+ id) recorded_at) db)
  end.
Definition record_quarantine (sql : Sqlite) (raw_line reason : string) (kind : QuarantineReason)
    (id received_at recorded_at : string) (db : EventDb) :
    result StoreError string * EventDb :=
  in_tx sql db (record_quarantine_body raw_line reason kind id received_at recorded_at db).

(** The rows of the table. *)
Definition quarantine_rows (db : EventDb) : gmap string QuarantinedLine :=
  list_to_map
    (omap (λ x, if decide (x.1.1 = INGEST_QUARANTINE)
                then r ← row_of_document x.2; Some (x.1.2, r) else None)
       (map_to_list (t_documents db))).
Definition list_quarantine `{TableScan} (limit : Z) (db : EventDb) : list QuarantinedLine :=
  snd <$> sql_limit limit (select_desc (λ _, true) ql_received_at (quarantine_rows db)).
Definition quarantine_count (db : EventDb) : nat := size (quarantine_rows db).
End quarantine.

(** ** Lemmas *)

Section spec.
Context `{EventJson, QuarantineRowsOk}.

Lemma quarantine_rows_lookup db id r :
  quarantine_rows db !! id = Some r ↔
  t_documents db !! (INGEST_QUARANTINE, id) ≫= row_of_document = Some r.
Proof.
  unfold quarantine_rows. rewrite <-elem_of_list_to_map.
  - rewrite list_elem_of_omap. split.
    + intros ([[t i] d] & Hin & Heq). apply elem_of_map_to_list in Hin. simpl in Heq.
      case_decide; [|done]. destruct (row_of_document d) eqn:Ed; simplify_eq/=.
      by rewrite Hin.
    + intros (d & Hd & Hr)%bind_Some. exists ((INGEST_QUARANTINE, id), d). split.
      * by apply elem_of_map_to_list.
      * simpl. by rewrite Hr.
  - pose proof (NoDup_fst_map_to_list (t_documents db)) as Hnd. revert Hnd.
    generalize (map_to_list (t_documents db)). intros l. induction l as [|[[t i] d] l IH]; simpl.
    { intros _. constructor. }
    intros [Hni Hnd]%NoDup_cons. specialize (IH Hnd).
    case_decide; [|done]. destruct (row_of_document d) as [q|]; [|done]. simpl.
    constructor; [|done]. intros Hin. apply Hni.
    apply list_elem_of_fmap in Hin as ([i' q'] & -> & Hin).
    apply list_elem_of_omap in Hin as ([[t' i''] d'] & Hin & Heq). simpl in *.
    case_decide; [|done]. destruct (row_of_document d'); simplify_eq/=.
    apply list_elem_of_fmap. eexists. split; [|done]. simpl. congruence.
Qed.

Lemma recorded_quarantine raw reason kind id at_ rec_at db :
  t_documents db !! (INGEST_QUARANTINE, id) = None →
  ∃ db', record_quarantine Commits raw reason kind id at_ rec_at db = (Ok id, db') ∧
    quarantine_rows db' =
      <[id := mkQuarantinedLine id at_ (quarantine_reason_str kind) reason raw]>
        (quarantine_rows db).
Proof.
  intros Hn. unfold record_quarantine, record_quarantine_body. rewrite Hn. simpl.
  eexists. split; [done|]. apply map_eq. intros i. apply option_eq. intros r.
  rewrite quarantine_rows_lookup, lookup_insert_Some, quarantine_rows_lookup. simpl.
  destruct (decide (id = i)) as [<-|Hne].
  - rewrite lookup_insert_eq. simpl. rewrite row_roundtrip. intuition congruence.
  - rewrite lookup_insert_ne by congruence. intuition congruence.
Qed.

Lemma record_quarantine_frame sql raw reason kind id at_ rec_at db r db' :
  record_quarantine sql raw reason kind id at_ rec_at db = (r, db') →
  t_agent_events db' = t_agent_events db ∧ t_claims db' = t_claims db ∧
  t_evidence db' = t_evidence db ∧ t_findings db' = t_findings db.
Proof.
  unfold record_quarantine, record_quarantine_body, in_tx.
  destruct sql, (t_documents db !! (INGEST_QUARANTINE, id)); intros; by simplify_eq/=.
Qed.
End spec.

Inductive IngestMessage :=
| MsgEvent (e : AgentEvent)
| MsgClaim (c : Claim)
| MsgEvidence (ev : Evidence)
| MsgPolicyBundle (envelope : string)
| MsgPolicyRevocation (envelope : string)
| MsgCapabilities (caps : RuntimeCapabilities).

(** ** Handed-off connections *)

Record PendingHandoff := mkPendingHandoff {
  ph_sessions : gmap string N;
  ph_unknown : N;
}.
Definition no_handoff : PendingHandoff := mkPendingHandoff ∅ 0.

Inductive HandoffToken := TokenSession (sid : string) | TokenUnknown.
#[export] Instance HandoffToken_eq_dec : EqDecision HandoffToken.
Proof. solve_decision. Defined.

(** [HandoffGuard::register]. *)
Definition register_handoff (session_hint : option string) (p : PendingHandoff) :
    HandoffToken * PendingHandoff :=
  match session_hint with
  | Some sid =>
      (TokenSession sid,
       mkPendingHandoff (<[sid := (default 0 (ph_sessions p !! sid) + 1)%N]> (ph_sessions p))
         (ph_unknown p))
  | None => (TokenUnknown, mkPendingHandoff (ph_sessions p) (ph_unknown p + 1))
  end.

(** [HandoffGuard]'s [drop]. *)
Definition drop_handoff (token : HandoffToken) (p : PendingHandoff) : PendingHandoff :=
  match token with
  | TokenSession sid =>
      match ph_sessions p !! sid with
      | Some n =>
          let n := (n - 1)%N in
          mkPendingHandoff
            (if decide (n = 0%N) then delete sid (ph_sessions p)
             else <[sid := n]> (ph_sessions p)) (ph_unknown p)
      | None => p
      end
  | TokenUnknown => mkPendingHandoff (ph_sessions p) (ph_unknown p - 1)
  end.

Definition evidence_may_be_incomplete_for (p : PendingHandoff) (session_id : string) : bool :=
  bool_decide (0 < ph_unknown p)%N || bool_decide (is_Some (ph_sessions p !! session_id)).

(** ** The policy snapshot *)

Record LastPolicyPoll := mkLastPolicyPoll {
  lp_attempted_at : Z;
  lp_outcome : string;
  lp_detail : string;
  lp_bundles_received : N;
  lp_consecutive_failures : N;
  lp_next_attempt_at : Z;
}.
(** The message is kept as the rejection it words. *)
Record LastPolicyRejection := mkLastPolicyRejection {
  lr_payload_digest : option string;
  lr_code : string;
  lr_message : ActivationRejection;
  lr_remediation : string;
  lr_at : Z;
}.
Record PolicyCacheSnapshot := mkPolicyCacheSnapshot {
  ps_state : PolicyCacheState;
  ps_usable : list BoundRevision;
  ps_loaded_slot : option CacheSlotKind;
  ps_diagnostics : list PolicyDiagnostic;
  ps_last_rejection : option LastPolicyRejection;
  ps_last_poll : option LastPolicyPoll;
}.

Definition activation_rejection_code (r : ActivationRejection) : string :=
  match r with
  | NotVerified _ => "not_verified"
  | SequenceNotAdvanced _ _ _ _ => "sequence_not_advanced"
  | SequenceReused _ _ _ => "sequence_reused"
  | IssuerMismatchForLineage _ _ _ => "issuer_mismatch_for_lineage"
  | BindingsUnusable _ => "bindings_unusable"
  | ActivationPersistence => "persistence"
  | Revoked _ _ _ _ => "revoked"
  end.
Definition remediation_for_rejection (r : ActivationRejection) : string :=
  match r with
  | NotVerified _ =>
      "re-export a bundle signed by a currently-trusted key, in-window and correctly formed"
  | SequenceNotAdvanced _ _ _ _ | SequenceReused _ _ _ =>
      "publish a new bundle with a sequence number strictly greater than the last one seen for this issuer/policy_id"
  | IssuerMismatchForLineage _ _ _ =>
      "publish this policy_id's next revision from the same issuer that first claimed it, or publish under a new policy_id"
  | BindingsUnusable _ =>
      "remove pinned_fields from any binding targeted at TargetLevel::LocalUser"
  | ActivationPersistence => "retry the import; if it persists, check disk space"
  | Revoked _ _ _ _ =>
      "this artifact must never be re-trusted; publish a fresh, unrevoked bundle instead"
  end.

(** ** The shared state *)

(** [AppState], of which the first three fields are the store. *)
Record AppState := mkAppState {
  ap_admission : AdmissionDb;
  ap_capabilities : CapabilitiesTable;
  ap_policy_db : Db;
  ap_caps : gmap string RuntimeCapabilities;
  ap_pending : PendingHandoff;
  ap_trust : option TrustedVerificationKeys;
  ap_policy : PolicyCacheSnapshot;
}.
Definition with_admission (db : AdmissionDb) (s : AppState) : AppState :=
  mkAppState db (ap_capabilities s) (ap_policy_db s) (ap_caps s) (ap_pending s) (ap_trust s)
    (ap_policy s).
Definition with_event_db (db : EventDb) (s : AppState) : AppState :=
  with_admission (mkAdmissionDb db (ad_consumption (ap_admission s))) s.
Definition with_capabilities (t : CapabilitiesTable) (s : AppState) : AppState :=
  mkAppState (ap_admission s) t (ap_policy_db s) (ap_caps s) (ap_pending s) (ap_trust s)
    (ap_policy s).
Definition with_policy_db (db : Db) (s : AppState) : AppState :=
  mkAppState (ap_admission s) (ap_capabilities s) db (ap_caps s) (ap_pending s) (ap_trust s)
    (ap_policy s).
Definition with_caps (c : gmap string RuntimeCapabilities) (s : AppState) : AppState :=
  mkAppState (ap_admission s) (ap_capabilities s) (ap_policy_db s) c (ap_pending s) (ap_trust s)
    (ap_policy s).
Definition with_pending (p : PendingHandoff) (s : AppState) : AppState :=
  mkAppState (ap_admission s) (ap_capabilities s) (ap_policy_db s) (ap_caps s) p (ap_trust s)
    (ap_policy s).
Definition with_policy (p : PolicyCacheSnapshot) (s : AppState) : AppState :=
  mkAppState (ap_admission s) (ap_capabilities s) (ap_policy_db s) (ap_caps s) (ap_pending s)
    (ap_trust s) p.
Definition event_db (s : AppState) : EventDb := ad_store (ap_admission s).

Record LineWorld := mkLineWorld {
  lw_sql : Sqlite;                      (* of the message's own statement *)
  lw_at : string;                       (* when its row is tagged *)
  lw_now : Z;                           (* the clock of the policy handlers *)
  lw_verdict : VerdictWorld;            (* of the verdict path *)
  lw_quarantine : Sqlite;               (* of a quarantine *)
  lw_quarantine_id : string;
  lw_quarantine_at : string;
}.

(** ** Redaction at the boundary *)

Definition redact_event (e : AgentEvent) : AgentEvent :=
  mkAgentEvent (ae_id e) (ae_session_id e) (ae_provider e) (ae_kind e) (ae_observed_at e)
    (ae_tool_name e) (redact_json <$> ae_tool_input e) (redact_json <$> ae_tool_response e)
    (redact_json (ae_raw e)).
(** [redact_json] keeps an object an object; the other case panics in the
    source and is never reached ([redact_unknown_fields]). *)
Definition redact_unknown (fields : list (string * Value)) : list (string * Value) :=
  match redact_json (JObject fields) with JObject map => map | _ => [] end.
Definition redact_extension (x : ExtensionEnvelope) : ExtensionEnvelope :=
  mkExtensionEnvelope (ext_schema_version x) (ext_provider x) (ext_adapter_version x)
    (ext_content_class x) (redact_json (ext_fields x)) (redact_unknown (ext_unknown x)).
Definition redact_evidence (ev : Evidence) : Evidence :=
  mkEvidence (ev_id ev) (ev_session_id ev) (ev_source_event_id ev) (ev_kind ev)
    (ev_observed_at ev) (redact_json (ev_payload ev)) (ev_provenance ev) (ev_source ev)
    (redact_extension <$> ev_extension ev) (evidence_purged ev).
Definition redact_claim (c : Claim) : Claim :=
  mkClaim (claim_id c) (claim_session_id c) (claim_source_event_id c)
    (redact_text (claim_text c)) (claim_subject c) (claimed_at c).

(** ** The Codex adapter's check of a claim's source *)

(** [Value]'s index by a key: [Null] when there is none. *)
Definition value_index (v : Value) (key : string) : Value := default JNull (value_get v key).
Definition value_as_str (v : Value) : option string :=
  match v with JString s => Some s | _ => None end.

Definition claim_matches_completion (source : AgentEvent) (claim : Claim) : bool :=
  let payload := value_index (ae_raw source) "payload" in
  let identified_completion :=
    bool_decide (ae_provider source = Codex) && bool_decide (ae_kind source = SessionEnd) &&
    bool_decide (value_index (ae_raw source) "type" = JString "event_msg") &&
    bool_decide (value_index payload "type" = JString "task_complete") &&
    match value_as_str (value_index payload "turn_id") with
    | Some turn => negb (is_blank turn)
    | None => false
    end in
  if negb identified_completion || bool_decide (claim_subject claim ≠ "test_result") then true
  else
    bool_decide (ae_id source = claim_source_event_id claim) &&
    bool_decide (ae_session_id source = claim_session_id claim) &&
    bool_decide (value_as_str (value_index payload "last_agent_message") = Some (claim_text claim)).

(** ** Messages *)

(** [serde_json::from_str] on a line, with the text of its error, and the
    [Display] of a store error. *)
Class IngestWire := {
  message_from_str : string → result string IngestMessage;
  store_error_text : StoreError → string;
}.

Section ingest.
Context `{Chrono, ChronoFromStr, PolicyWire, PolicyDigest}.
Context `{EventJson, UuidOps, TableScan, CapabilityJson, QuarantineRows, IngestWire}.
(** [fornax_verify::all_verifiers()]. *)
Context (verifiers : list Verifier).

(** The result of a handler: its answer, the state and the session hint. *)
Definition Handled := (result StoreError unit * AppState * option string)%type.

Definition snapshot_of_load (load : PolicyCacheLoad) (rejection : option LastPolicyRejection)
    (p : PolicyCacheSnapshot) : PolicyCacheSnapshot :=
  mkPolicyCacheSnapshot (pl_state load) (usable load) (loaded_slot load) (pl_diagnostics load)
    rejection (ps_last_poll p).

Definition handle_policy_bundle_ingest (w : LineWorld) (envelope_bytes : list N) (s : AppState) :
    option AppState :=
  match ap_trust s with
  | None => Some s
  | Some trusted =>
      let now := lw_now w in
      let! submitted := submit_policy_bundle (lw_sql w) (ap_policy_db s) envelope_bytes trusted now in
      let '(outcome, db) := submitted in
      let s := with_policy_db db s in
      match outcome with
      | Err _ => Some s
      | Ok (Activated _ _ _) | Ok (Confirmed _ _ _) =>
          match load_policy_cache db (Some trusted) now with
          | Ok load => Some (with_policy (snapshot_of_load load None (ap_policy s)) s)
          | Err _ => Some s
          end
      | Ok (ActivationRejected rejection _) =>
          let payload_digest :=
            match verify_bundle envelope_bytes trusted now with
            | Ok v => Some (vb_payload_digest v)
            | Err _ => None
            end in
          let p := ap_policy s in
          Some (with_policy
                  (mkPolicyCacheSnapshot (ps_state p) (ps_usable p) (ps_loaded_slot p)
                     (ps_diagnostics p)
                     (Some (mkLastPolicyRejection payload_digest
                              (activation_rejection_code rejection) rejection
                              (remediation_for_rejection rejection) now))
                     (ps_last_poll p)) s)
      end
  end.

Definition handle_policy_revocation_ingest (w : LineWorld) (envelope_bytes : list N)
    (s : AppState) : AppState :=
  match ap_trust s with
  | None => s
  | Some trusted =>
      let now := lw_now w in
      let '(outcome, db) :=
        submit_policy_revocation (lw_sql w) (ap_policy_db s) envelope_bytes trusted now in
      let s := with_policy_db db s in
      match outcome with
      | Ok (RevApplied _ _ _ _) =>
          match load_policy_cache db (Some trusted) now with
          | Ok load =>
              let p := ap_policy s in
              with_policy (snapshot_of_load load (ps_last_rejection p) p) s
          | Err _ => s
          end
      | _ => s
      end
  end.

(** The announcement is stored under its own provider; the cache of the
    session is only overwritten by the provider that filled it. *)
Definition handle_capabilities (w : LineWorld) (caps : RuntimeCapabilities) (s : AppState)
    (session_hint : option string) : Handled :=
  match (match rc_notes caps !! "session_id" with Some sid => Some sid | None => session_hint end)
  with
  | None => (Ok tt, s, session_hint)
  | Some sid =>
      let '(r, t) := upsert_capabilities (lw_sql w) sid caps (lw_at w) (ap_capabilities s) in
      let s := with_capabilities t s in
      match r with
      | Err e => (Err e, s, Some sid)
      | Ok _ =>
          let allow_cache_write :=
            match ap_caps s !! sid with
            | Some existing => bool_decide (rc_provider existing = rc_provider caps)
            | None => true
            end in
          (Ok tt, if allow_cache_write then with_caps (<[sid := caps]> (ap_caps s)) s else s,
           Some sid)
      end
  end.

Definition handle_event (w : LineWorld) (e : AgentEvent) (s : AppState) : Handled :=
  let e := redact_event e in
  let '(r, db) := insert_event (lw_sql w) e (lw_at w) (event_db s) in
  (let? outcome := r in Ok tt, with_event_db db s, Some (ae_session_id e)).

Definition handle_evidence (w : LineWorld) (ev : Evidence) (s : AppState) : Handled :=
  let ev := redact_evidence ev in
  let '(r, db) := insert_evidence_with_origin (lw_sql w) ev UdsIngest (lw_at w) (event_db s) in
  (let? outcome := r in Ok tt, with_event_db db s, Some (ev_session_id ev)).

Definition handle_claim (w : LineWorld) (c : Claim) (s : AppState) : Handled :=
  let claim := redact_claim c in
  let session := claim_session_id claim in
  let '(r, db) :=
    insert_claim_idempotent_checked (lw_sql w) claim
      (λ source, claim_matches_completion source claim) (lw_at w) (event_db s) in
  let s := with_event_db db s in
  match r with
  | Err e => (Err e, s, Some session)
  | Ok false => (Ok tt, s, Some session)
  | Ok true =>
      let caps := default default_unknown_caps (ap_caps s !! session) in
      let '(r, db) :=
        run_verifiers_and_persist_findings (lw_verdict w) verifiers
          (evidence_may_be_incomplete_for (ap_pending s) session) claim caps
          (capabilities_for_session session (ap_capabilities s)) (ap_admission s) in
      (r, with_admission db s, Some session)
  end.

Definition handle_message (w : LineWorld) (msg : IngestMessage) (s : AppState)
    (session_hint : option string) : option Handled :=
  match msg with
  | MsgCapabilities caps => Some (handle_capabilities w caps s session_hint)
  | MsgEvent e => Some (handle_event w e s)
  | MsgEvidence ev => Some (handle_evidence w ev s)
  | MsgPolicyBundle envelope =>
      let! s := handle_policy_bundle_ingest w (string_bytes envelope) s in
      Some (Ok tt, s, session_hint)
  | MsgPolicyRevocation envelope =>
      Some (Ok tt, handle_policy_revocation_ingest w (string_bytes envelope) s, session_hint)
  | MsgClaim c => Some (handle_claim w c s)
  end.

(** ** Lines *)

(** What is quarantined of a message that failed with [e]. *)
Definition raw_for_quarantine (line : string) (session_hint : option string) (e : StoreError) :
    string :=
  match e with
  | IdCollision table id =>
      "id_collision: table=" +:+ table +:+ " id=" +:+ id +:+ " session="
      +:+ default "unknown" session_hint
  | ClaimSourceMismatch id => "claim_source_mismatch: id=" +:+ id
  | _ => line
  end.
(** A failure to quarantine is only logged. *)
Definition quarantine_line (w : LineWorld) (raw reason : string) (kind : QuarantineReason)
    (s : AppState) : AppState :=
  with_event_db
    (record_quarantine (lw_quarantine w) raw reason kind (lw_quarantine_id w)
       (lw_quarantine_at w) (lw_quarantine_at w) (event_db s)).2 s.

Definition process_line (w : LineWorld) (line : string) (s : AppState)
    (session_hint : option string) : option (AppState * option string) :=
  if is_blank line then Some (s, session_hint)
  else
    match message_from_str line with
    | Err e => Some (quarantine_line w line e ParseError s, session_hint)
    | Ok msg =>
        let! handled := handle_message w msg s session_hint in
        let '(r, s, session_hint) := handled in
        match r with
        | Ok _ => Some (s, session_hint)
        | Err e =>
            Some (quarantine_line w (raw_for_quarantine line session_hint e) (store_error_text e)
                    HandleError s, session_hint)
        end
    end.
End ingest.
