(* ===== verification/IngestSpec.v ===== *)
(** * What one ingested line does

    What the verdict path leaves alone, that a verdict on evidence that may
    be incomplete is never definite, that every stored event, claim and
    evidence record went through the redaction, that a line the daemon could
    not process is on record, and that a session's cached capabilities stay
    those of one provider. *)

From S2P Require Import Prelude.
From S2P Require Import Types.
From S2P Require Import Text.
From S2P Require Import Projection.
From S2P Require Import Redact.
From S2P Require Import PolicyContent.
From S2P Require Import PolicyRevision.
From S2P Require Import PolicyBundle.
From S2P Require Import PolicyCache.
From S2P Require Import PolicyStore.
From S2P Require Import EventStore.
From S2P Require Import EventRead.
From S2P Require Import Admission.
From S2P Require Import Consumption.
From S2P Require Import AdmissionSpec.
From S2P Require Import Capabilities.
From S2P Require Import Ingest.

Local Open Scope fornax_scope.

(** ** What the verdict path touches *)

(** The same events, claims, evidence and documents. *)
Definition same_records (db db' : EventDb) : Prop :=
  t_agent_events db' = t_agent_events db ∧ t_claims db' = t_claims db ∧
  t_evidence db' = t_evidence db ∧ t_documents db' = t_documents db.
#[export] Instance same_records_equivalence : Equivalence same_records.
Proof.
  split.
  - by intros db.
  - intros db db' (?&?&?&?). by split_and!.
  - intros db1 db2 db3 (?&?&?&?) (?&?&?&?). split_and!; congruence.
Qed.
(** The same findings too. *)
Definition same_findings (db db' : EventDb) : Prop :=
  same_records db db' ∧ t_findings db' = t_findings db.
#[export] Instance same_findings_preorder : PreOrder same_findings.
Proof.
  split; [by intros db|].
  intros db1 db2 db3 [? ?] [? ?]. split; [by etrans|congruence].
Qed.

Definition definite (verdict : string) : Prop := verdict = "verified" ∨ verdict = "contradicted".
Lemma definite_tag v : definite (verdict_tag v) ↔ v = Verified ∨ v = Contradicted.
Proof. unfold definite. by destruct v; naive_solver. Qed.

Section frames.
Context `{EventJson, UuidOps, TableScan}.

Lemma in_atx_frame {A} sql db (body : result StoreError (A * AdmissionDb)) :
  (∀ a db', body = Ok (a, db') → same_findings (ad_store db) (ad_store db')) →
  same_findings (ad_store db) (ad_store (in_atx sql db body).2).
Proof.
  intros Hb. unfold in_atx. destruct sql, body as [[a db']|]; simpl; try reflexivity. by eapply Hb.
Qed.
Lemma insert_consumption_frame row db :
  same_findings (ad_store db) (ad_store (insert_consumption row db).2).
Proof. unfold insert_consumption. by case_decide. Qed.
Lemma tag_consumption_frame id session at_ db :
  same_findings (ad_store db) (ad_store (tag_consumption id session at_ db)).
Proof. done. Qed.

Lemma record_consumption_frame sql e c anchor v id at_ db :
  same_findings (ad_store db) (ad_store (record_consumption sql e c anchor v id at_ db).2).
Proof.
  apply in_atx_frame. intros a db'. unfold record_consumption_body.
  destruct (match consumed_row _ db with Some _ => _ | None => _ end) as [existing|]; [|done]. simpl.
  destruct (classify_consumption_by_anchor _ _ _); intros [= <- <-]; try done.
  etrans; [apply insert_consumption_frame|apply tag_consumption_frame].
Qed.
Lemma record_admission_quarantine_frame sql e c anchor reason id at_ db :
  same_findings (ad_store db)
    (ad_store (record_admission_quarantine sql e c anchor reason id at_ db).2).
Proof.
  apply in_atx_frame. intros a db'.
  set (row := consumption_row _ _ _ _ _ _ _ _).
  pose proof (insert_consumption_frame row db) as Hf.
  destruct (insert_consumption row db) as [ins db1]. intros [= <- <-]. by destruct ins.
Qed.

Lemma quarantine_loop_frame w claim rejected i db :
  same_findings (ad_store db) (ad_store (quarantine_loop w claim i rejected db)).
Proof.
  revert i db. induction rejected as [|r rejected IH]; intros i db; simpl; [done|].
  destruct (vw_quarantine w i) as [[sql id] at_]. etrans; [|apply IH].
  apply record_admission_quarantine_frame.
Qed.
Lemma consume_loop_frame w claim name i ids j replayed rationale db replayed' rationale' db' :
  consume_loop w claim name i j ids replayed rationale db = (replayed', rationale', db') →
  same_findings (ad_store db) (ad_store db').
Proof.
  revert j replayed rationale db. induction ids as [|e ids IH]; intros j replayed rationale db; simpl.
  { by intros [= _ _ <-]. }
  destruct (vw_consume w i j) as [[sql id] at_].
  pose proof (record_consumption_frame sql e (claim_id claim) (anchor_of claim) (Some name) id at_ db)
    as Hf.
  destruct (record_consumption _ _ _ _ _ _ _ db) as [r db1]. simpl in Hf.
  destruct r as [[]|]; intros ?%IH; by etrans.
Qed.
Lemma guard_replay_frame w claim name i f db f' db' :
  guard_replay w claim name i f db = (f', db') →
  same_findings (ad_store db) (ad_store db') ∧
  (finding_verdict f' = finding_verdict f ∨ finding_verdict f' = Review).
Proof.
  unfold guard_replay. case_decide; [|intros [= <- <-]; split; [done|by left]].
  destruct (consume_loop _ _ _ _ _ _ _ _ db) as [[replayed rationale] db1] eqn:El.
  apply consume_loop_frame in El. intros [= <- <-]. split; [done|]. destruct replayed; by auto.
Qed.

Lemma downgrade_definite incomplete f :
  finding_verdict (downgrade_incomplete incomplete f) = Verified ∨
  finding_verdict (downgrade_incomplete incomplete f) = Contradicted → incomplete = false.
Proof.
  unfold downgrade_incomplete. destruct incomplete; simpl; [|done].
  case_bool_decide as Hd; [by intros []|by intros ?].
Qed.

Lemma insert_finding_frame sql f at_ db r db' :
  insert_finding sql f at_ db = (r, db') → same_records db db'.
Proof.
  unfold insert_finding, in_tx, insert_finding_body.
  destruct (t_findings db !! uuid_to_string (finding_id f)),
    (t_claims db !! uuid_to_string (finding_claim_id f)), sql; intros; by simplify_eq/=.
Qed.

(** The findings that were added are not definite unless the evidence was
    complete. *)
Definition findings_extend (incomplete : bool) (db db' : EventDb) : Prop :=
  same_records db db' ∧
  ∀ id row, t_findings db' !! id = Some row → definite (frow_verdict row) →
    t_findings db !! id = Some row ∨ incomplete = false.
Lemma findings_extend_trans incomplete db1 db2 db3 :
  findings_extend incomplete db1 db2 → findings_extend incomplete db2 db3 →
  findings_extend incomplete db1 db3.
Proof.
  intros [? Hext1] [? Hext2]. split; [by etrans|]. intros id row Hid Hd.
  destruct (Hext2 id row Hid Hd) as [Hid2|]; [|by right]. by apply Hext1.
Qed.
Lemma same_findings_extend incomplete db db' :
  same_findings db db' → findings_extend incomplete db db'.
Proof. intros [? Hf]. split; [done|]. rewrite Hf. by left. Qed.

Lemma verifier_loop_frame w claim caps incomplete admitted verifiers i db r db' :
  verifier_loop w claim caps incomplete admitted i verifiers db = (r, db') →
  findings_extend incomplete (ad_store db) (ad_store db').
Proof.
  revert i db. induction verifiers as [|v verifiers IH]; intros i db; simpl.
  { intros [= <- <-]. by apply same_findings_extend. }
  destruct (guard_replay _ _ _ _ _ db) as [f1 db1] eqn:Eg.
  apply guard_replay_frame in Eg as [Hs1 Hv]. destruct (vw_finding w i) as [sql at_].
  destruct (insert_finding sql f1 at_ (ad_store db1)) as [r2 store] eqn:Ei.
  assert (findings_extend incomplete (ad_store db) store) as Hext.
  { eapply findings_extend_trans; [by eapply same_findings_extend|].
    split; [by eapply insert_finding_frame|]. intros id row Hid Hd.
    destruct (insert_finding_rows _ _ _ _ _ _ _ _ Ei Hid) as [?| ->]; [by left|]. right.
    simpl in Hd. apply definite_tag in Hd. destruct Hv as [Hv|Hv]; rewrite Hv in Hd; [|naive_solver].
    by eapply downgrade_definite. }
  destruct r2; [|by intros [= <- <-]]. intros ?%IH. by eapply findings_extend_trans.
Qed.

Lemma verdict_path_frame w verifiers incomplete claim caps announced db r db' :
  run_verifiers_and_persist_findings w verifiers incomplete claim caps announced db = (r, db') →
  findings_extend incomplete (ad_store db) (ad_store db').
Proof.
  unfold run_verifiers_and_persist_findings.
  destruct (admitted_evidence_for_session _ announced db) as [read|];
    [|intros [= <- <-]; by apply same_findings_extend].
  intros ?%verifier_loop_frame. eapply findings_extend_trans; [|done].
  apply same_findings_extend, quarantine_loop_frame.
Qed.

(** ** Errors *)

(** The errors on which a line is quarantined as it is. *)
Definition kept_verbatim (e : StoreError) : Prop :=
  match e with IdCollision _ _ | ClaimSourceMismatch _ => False | _ => True end.

Lemma in_tx_cases {A} sql (db : EventDb) (body : result StoreError (A * EventDb)) r db' :
  in_tx sql db body = (r, db') →
  (∃ a, sql = Commits ∧ body = Ok (a, db') ∧ r = Ok a) ∨
  (∃ e, sql ≠ StatementFails ∧ body = Err e ∧ r = Err e ∧ db' = db) ∨
  (r = Err StoreDb ∧ db' = db ∧ (sql = StatementFails ∨ ∃ x, body = Ok x)).
Proof.
  unfold in_tx. destruct sql, body as [[a db1]|e]; intros; simplify_eq; eauto 10.
Qed.

Lemma verifier_loop_error w claim caps incomplete admitted verifiers i db e db' :
  verifier_loop w claim caps incomplete admitted i verifiers db = (Err e, db') → kept_verbatim e.
Proof.
  revert i db. induction verifiers as [|v verifiers IH]; intros i db; simpl; [done|].
  destruct (guard_replay _ _ _ _ _ db) as [f db1]. destruct (vw_finding w i) as [sql at_].
  destruct (insert_finding sql f at_ (ad_store db1)) as [r store] eqn:Ei.
  destruct r as [|e']; [apply IH|]. intros [= -> _]. revert Ei. unfold insert_finding.
  intros [(? & _ & _ & ?)|[(? & _ & Hb & [= ->] & _)|([= ->] & _)]]%in_tx_cases; [done| |done].
  unfold insert_finding_body in Hb. by repeat case_match; simplify_eq.
Qed.

End frames.

(** ** Redacted records *)

(** No detector reports anything in a string of the value. *)
Definition clean_value (v : Value) : Prop := ∀ s, s ∈ string_values v → clean_text s.

Section redacted.
Context `{EventJson, UuidOps}.

(** A column that is the text of a clean value. *)
Definition clean_column (s : string) : Prop := ∃ v, s = value_to_string v ∧ clean_value v.
Definition clean_option (s : option string) : Prop := ∀ x, s = Some x → clean_column x.

Definition clean_event_row (r : EventRow) : Prop :=
  clean_option (erow_tool_input r) ∧ clean_option (erow_tool_response r) ∧
  clean_column (erow_raw r).
Definition clean_evidence_row (r : EvidenceRow) : Prop :=
  clean_column (vrow_payload r) ∧
  ∀ x, vrow_extension r = Some x →
    ∃ e, x = extension_to_json e ∧ clean_value (ext_fields e) ∧ clean_value (JObject (ext_unknown e)).
Record redacted (db : EventDb) : Prop := mkRedacted {
  red_events id r : t_agent_events db !! id = Some r → clean_event_row r;
  red_claims id r : t_claims db !! id = Some r → clean_text (crow_text r);
  red_evidence id r : t_evidence db !! id = Some r → clean_evidence_row r;
}.
#[export] Instance redacted_proper : Proper (same_records ==> iff) redacted.
Proof.
  intros db db' (E1&E2&E3&_). split; intros [??]; split; intros id r;
    rewrite ?E1, ?E2, ?E3 in *; eauto; rewrite <-?E1, <-?E2, <-?E3 in *; eauto.
Qed.

Lemma redact_json_clean v : clean_value (redact_json v).
Proof. intros s. revert s. apply Forall_forall, redact_json_strings. Qed.
Lemma redacted_column v : clean_column (value_to_string (redact_json v)).
Proof. exists (redact_json v). split; [done|apply redact_json_clean]. Qed.
Lemma redacted_option v : clean_option (value_to_string <$> (redact_json <$> v)).
Proof. destruct v; [|done]. intros x [= <-]. apply redacted_column. Qed.
(** The branch of [redact_unknown] that panics in the source is not taken. *)
Lemma redact_unknown_fields fields :
  redact_json (JObject fields) = JObject (redact_unknown fields).
Proof. done. Qed.

Lemma redact_event_row e : clean_event_row (event_row (redact_event e)).
Proof. split_and!; simpl; auto using redacted_option, redacted_column. Qed.
Lemma redact_evidence_row ev o : clean_evidence_row (evidence_row (redact_evidence ev) o).
Proof.
  split; [apply redacted_column|]. simpl. intros x. destruct (ev_extension ev) as [e|]; [|done].
  intros [= <-]. exists (redact_extension e). split_and!; [done|apply redact_json_clean|].
  simpl. rewrite <-redact_unknown_fields. apply redact_json_clean.
Qed.

(** A transaction that keeps a property of the store keeps it. *)
Lemma in_tx_keeps {A} (P : EventDb → Prop) sql db (body : result StoreError (A * EventDb)) r db' :
  P db → (∀ a db1, body = Ok (a, db1) → P db1) → in_tx sql db body = (r, db') → P db'.
Proof.
  intros Hp Hb. unfold in_tx.
  destruct sql, body as [[a db1]|]; intros; simplify_eq/=; eauto.
Qed.

Lemma ignore_attribution_records id a db : same_records db (ignore_attribution id a db).
Proof. unfold ignore_attribution. by destruct (t_event_attribution db !! id). Qed.
Lemma insert_event_attribution_records e p db : same_records db (insert_event_attribution e p db).
Proof.
  unfold insert_event_attribution. case_bool_decide; [done|]. apply ignore_attribution_records.
Qed.

Lemma insert_event_redacted sql e at_ db r db' :
  redacted db → insert_event sql (redact_event e) at_ db = (r, db') →
  redacted db'.
Proof.
  intros Hred. unfold insert_event. destruct (is_blank _); [by intros [= <- <-]|].
  apply (in_tx_keeps redacted); [done|].
  intros a db1. unfold insert_event_body.
  destruct (t_agent_events db !! uuid_to_string (ae_id (redact_event e))) as [row|].
  { destruct (same_event row _); [|done]. by intros [= <- <-]. }
  set (db0 := with_events _ db).
  assert (redacted db0) as Hred0.
  { destruct Hred as [He Hc Hv]. split; [|done..]. intros id r0. unfold db0. simpl.
    intros [[_ <-]|[_ ?]]%lookup_insert_Some; [apply redact_event_row|by eapply He]. }
  intros [= <- <-].
  pose proof (insert_event_attribution_records (redact_event e)
    (provider_tag (ae_provider (redact_event e))) db0) as (E1&E2&E3&E4).
  apply (redacted_proper db0); [|done]. by split_and!.
Qed.

Lemma insert_evidence_redacted sql ev o at_ db r db' :
  redacted db → insert_evidence_with_origin sql (redact_evidence ev) o at_ db = (r, db') →
  redacted db'.
Proof.
  intros Hred. unfold insert_evidence_with_origin, insert_evidence_with_origin_opt.
  destruct (is_blank _); [by intros [= <- <-]|].
  apply (in_tx_keeps redacted); [done|].
  intros a db1. unfold insert_evidence_body.
  destruct (t_evidence db !! uuid_to_string (ev_id (redact_evidence ev))) as [row|].
  { destruct (same_evidence row _); [|done]. by intros [= <- <-]. }
  destruct (t_agent_events db !! uuid_to_string (ev_source_event_id (redact_evidence ev))); [|done].
  intros [= <- <-]. destruct Hred as [He Hc Hv]. split; [done..|].
  intros id r0. simpl. intros [[_ <-]|[_ ?]]%lookup_insert_Some; [apply redact_evidence_row|by eapply Hv].
Qed.

Lemma insert_claim_redacted sql c check at_ db r db' :
  redacted db →
  insert_claim_idempotent_checked sql (redact_claim c) check at_ db = (r, db') →
  redacted db'.
Proof.
  intros Hred. unfold insert_claim_idempotent_checked, insert_claim_inner.
  destruct (is_blank _); [by intros [= <- <-]|].
  destruct (in_tx sql db _) as [r1 db1] eqn:Etx. intros [= _ <-]. revert Etx.
  apply (in_tx_keeps redacted); [done|].
  intros a db2. unfold insert_claim_body. destruct (check_source _ _ db); [|done]. simpl.
  destruct (t_claims db !! uuid_to_string (claim_id c)) as [row|].
  { case_bool_decide; intros; by simplify_eq/=. }
  destruct (t_agent_events db !! uuid_to_string (claim_source_event_id c)); [|done].
  intros [= <- <-]. destruct Hred as [He Hc Hv]. split; [done| |done].
  intros id r0. simpl. intros [[_ <-]|[_ ?]]%lookup_insert_Some; [apply redact_text_clean|by eapply Hc].
Qed.
End redacted.

(** ** Messages *)

(** What no message changes, and the provider of a session's cached
    capabilities, which none replaces. *)
Record line_frame (s s' : AppState) : Prop := mkLineFrame {
  lf_pending : ap_pending s' = ap_pending s;
  lf_trust : ap_trust s' = ap_trust s;
  lf_caps sid c : ap_caps s !! sid = Some c →
    ∃ c', ap_caps s' !! sid = Some c' ∧ rc_provider c' = rc_provider c;
}.
#[export] Instance line_frame_preorder : PreOrder line_frame.
Proof.
  split; [split; by eauto|]. intros s1 s2 s3 [P1 T1 C1] [P2 T2 C2]. split; [congruence..|].
  intros sid c (c' & Hc' & Hp)%C1. apply C2 in Hc' as (c'' & ? & ?). exists c''. split; congruence.
Qed.

Section lines.
Context `{Chrono, ChronoFromStr, PolicyWire, PolicyDigest}.
Context `{EventJson, UuidOps, TableScan, CapabilityJson, QuarantineRows, IngestWire}.
Context (verifiers : list Verifier).

(** What a handled message leaves in the store: redacted records, the
    documents, and no definite finding of a claim whose evidence may be
    incomplete. *)
Definition claim_of (msg : IngestMessage) : option Claim :=
  match msg with MsgClaim c => Some c | _ => None end.
Record handled_store (msg : IngestMessage) (s s' : AppState) : Prop := mkHandledStore {
  hs_redacted : redacted (event_db s) → redacted (event_db s');
  hs_documents : t_documents (event_db s') = t_documents (event_db s);
  hs_definite id row : t_findings (event_db s') !! id = Some row → definite (frow_verdict row) →
    t_findings (event_db s) !! id = Some row ∨
    ∃ c, claim_of msg = Some c ∧
      evidence_may_be_incomplete_for (ap_pending s) (claim_session_id c) = false;
}.
Lemma same_store_handled msg s s' : event_db s' = event_db s → handled_store msg s s'.
Proof. intros E. split; rewrite ?E; auto. Qed.

Lemma handle_capabilities_spec w caps s h r s' h' :
  handle_capabilities w caps s h = (r, s', h') →
  line_frame s s' ∧ handled_store (MsgCapabilities caps) s s'.
Proof.
  unfold handle_capabilities.
  destruct (match rc_notes caps !! "session_id" with Some _ => _ | None => _ end) as [sid|];
    [|intros [= <- <- <-]; split; [reflexivity|by apply same_store_handled]].
  destruct (upsert_capabilities _ _ _ _ _) as [[[]|e] t];
    [|intros [= <- <- <-]; split; [by split; eauto|by apply same_store_handled]].
  intros [= <- <- <-]. simpl.
  destruct (ap_caps s !! sid) as [old|] eqn:Eold.
  - case_bool_decide as Hp; (split; [|by apply same_store_handled]); split; try done; simpl; [|by eauto].
    intros sid' c Hc. destruct (decide (sid = sid')) as [<-|].
    + rewrite lookup_insert_eq. exists caps. split; [done|]. congruence.
    + rewrite lookup_insert_ne by done. by eauto.
  - split; [|by apply same_store_handled]. split; try done. simpl. intros sid' c Hc.
    rewrite lookup_insert_ne by congruence. by eauto.
Qed.

Definition findings_and_documents (db db' : EventDb) : Prop :=
  t_findings db' = t_findings db ∧ t_documents db' = t_documents db.
Lemma insert_event_findings sql e at_ db r db' :
  insert_event sql e at_ db = (r, db') → findings_and_documents db db'.
Proof.
  unfold insert_event. destruct (is_blank _); [by intros [= <- <-]|].
  apply (in_tx_keeps (findings_and_documents db)); [done|].
  intros a db1. unfold insert_event_body.
  destruct (t_agent_events db !! uuid_to_string (ae_id e)) as [row|].
  { destruct (same_event row e); [|done]. by intros [= <- <-]. }
  intros [= <- <-]. simpl. unfold insert_event_attribution, ignore_attribution.
  case_bool_decide; [done|]. by destruct (t_event_attribution _ !! _).
Qed.
Lemma insert_evidence_findings sql ev o at_ db r db' :
  insert_evidence_with_origin sql ev o at_ db = (r, db') → findings_and_documents db db'.
Proof.
  unfold insert_evidence_with_origin, insert_evidence_with_origin_opt.
  destruct (is_blank _); [by intros [= <- <-]|].
  apply (in_tx_keeps (findings_and_documents db)); [done|].
  intros a db1. unfold insert_evidence_body.
  destruct (t_evidence db !! uuid_to_string (ev_id ev)) as [row|].
  { destruct (same_evidence row ev); [|done]. by intros [= <- <-]. }
  destruct (t_agent_events db !! uuid_to_string (ev_source_event_id ev)); [|done].
  by intros [= <- <-].
Qed.

Lemma handle_event_spec w e s r s' h' :
  handle_event w e s = (r, s', h') → line_frame s s' ∧ handled_store (MsgEvent e) s s'.
Proof.
  unfold handle_event. destruct (insert_event _ _ _ _) as [r0 db] eqn:Ei. intros [= _ <- _].
  split; [by split; eauto|]. split; simpl.
  - intros Hred. by eapply insert_event_redacted.
  - by apply insert_event_findings in Ei as [_ Hd].
  - apply insert_event_findings in Ei as [Hf _]. intros id row Hid _. left. by rewrite <-Hf.
Qed.
Lemma handle_evidence_spec w ev s r s' h' :
  handle_evidence w ev s = (r, s', h') → line_frame s s' ∧ handled_store (MsgEvidence ev) s s'.
Proof.
  unfold handle_evidence. destruct (insert_evidence_with_origin _ _ _ _ _) as [r0 db] eqn:Ei.
  intros [= _ <- _]. split; [by split; eauto|]. split; simpl.
  - intros Hred. by eapply insert_evidence_redacted.
  - by apply insert_evidence_findings in Ei as [_ Hd].
  - apply insert_evidence_findings in Ei as [Hf _]. intros id row Hid _. left. by rewrite <-Hf.
Qed.

Lemma insert_claim_findings sql c check at_ db r db' :
  insert_claim_idempotent_checked sql c check at_ db = (r, db') → findings_and_documents db db'.
Proof.
  unfold insert_claim_idempotent_checked, insert_claim_inner.
  destruct (is_blank _); [by intros [= <- <-]|].
  destruct (in_tx sql db _) as [r1 db1] eqn:Etx. intros [= _ <-]. revert Etx.
  apply (in_tx_keeps (findings_and_documents db)); [done|].
  intros a db2. unfold insert_claim_body. destruct (check_source _ _ db); [|done]. simpl.
  destruct (t_claims db !! uuid_to_string (claim_id c)) as [row|].
  { case_bool_decide; intros; by simplify_eq/=. }
  destruct (t_agent_events db !! uuid_to_string (claim_source_event_id c)); [|done].
  by intros [= <- <-].
Qed.
Lemma handle_claim_spec w c s r s' h' :
  handle_claim verifiers w c s = (r, s', h') →
  line_frame s s' ∧ handled_store (MsgClaim c) s s'.
Proof.
  unfold handle_claim. destruct (insert_claim_idempotent_checked _ _ _ _ _) as [r0 db] eqn:Ei.
  pose proof (insert_claim_findings _ _ _ _ _ _ _ Ei) as [Hf Hdoc].
  assert (∀ r : result StoreError unit, line_frame s (with_event_db db s) ∧
    handled_store (MsgClaim c) s (with_event_db db s)) as Hins.
  { intros _. split; [by split; eauto|]. split; simpl.
    - intros Hred. by eapply insert_claim_redacted.
    - done.
    - intros id row Hid _. left. by rewrite <-Hf. }
  destruct r0 as [[]|e]; [|intros [= <- <- <-]; exact (Hins (Ok tt))..].
  destruct (run_verifiers_and_persist_findings _ _ _ _ _ _ _) as [r1 db1] eqn:Ev.
  apply verdict_path_frame in Ev as [Hrec Hnew]. intros [= _ <- _].
  split; [by split; eauto|]. simpl in *. split; simpl.
  - intros Hred. rewrite <-Hrec. by eapply insert_claim_redacted.
  - destruct Hrec as (_&_&_&Hd). unfold event_db. simpl. by rewrite Hd.
  - intros id row Hid Hd. destruct (Hnew id row Hid Hd) as [Hold|Hinc].
    + left. by rewrite <-Hf.
    + right. by exists c.
Qed.

Lemma policy_bundle_frame w bytes s s' :
  handle_policy_bundle_ingest w bytes s = Some s' → line_frame s s' ∧ event_db s' = event_db s.
Proof.
  unfold handle_policy_bundle_ingest. destruct (ap_trust s) as [trusted|] eqn:Et;
    [|intros [= <-]; by split].
  intros ([r db] & _ & Hs)%bind_Some. revert Hs.
  destruct r as [[]|]; repeat case_match; intros [= <-]; (split; [split; by eauto|done]).
Qed.
Lemma policy_revocation_frame w bytes s :
  line_frame s (handle_policy_revocation_ingest w bytes s) ∧
  event_db (handle_policy_revocation_ingest w bytes s) = event_db s.
Proof.
  unfold handle_policy_revocation_ingest.
  repeat case_match; (split; [split; by eauto|done]).
Qed.

Lemma handle_message_spec w msg s h r s' h' :
  handle_message verifiers w msg s h = Some (r, s', h') →
  line_frame s s' ∧ handled_store msg s s'.
Proof.
  destruct msg as [e|c|ev|envelope|envelope|caps]; simpl; intros Hm.
  - simplify_eq. by eapply handle_event_spec.
  - simplify_eq. by eapply handle_claim_spec.
  - simplify_eq. by eapply handle_evidence_spec.
  - apply bind_Some in Hm as (s1 & Hm & [= <- <- <-]).
    apply policy_bundle_frame in Hm as [? E]. split; [done|]. by apply same_store_handled.
  - destruct (policy_revocation_frame w (string_bytes envelope) s) as [? E].
    simplify_eq. split; [done|]. by apply same_store_handled.
  - simplify_eq. by eapply handle_capabilities_spec.
Qed.

(** ** Lines *)

Lemma quarantine_line_frame w raw reason kind s :
  line_frame s (quarantine_line w raw reason kind s) ∧
  (redacted (event_db s) → redacted (event_db (quarantine_line w raw reason kind s))) ∧
  t_findings (event_db (quarantine_line w raw reason kind s)) = t_findings (event_db s).
Proof.
  unfold quarantine_line. destruct (record_quarantine _ _ _ _ _ _ _ _) as [r db] eqn:Er.
  apply record_quarantine_frame in Er as (E1 & E2 & E3 & E4). simpl.
  split_and!; [by split; eauto| |done]. intros [He Hc Hv].
  split; intros id row; unfold event_db; simpl; rewrite ?E1, ?E2, ?E3; eauto.
Qed.

Lemma process_line_spec w line s h s' h' :
  process_line verifiers w line s h = Some (s', h') →
  line_frame s s' ∧ (redacted (event_db s) → redacted (event_db s')) ∧
  ∀ id row, t_findings (event_db s') !! id = Some row → definite (frow_verdict row) →
    t_findings (event_db s) !! id = Some row ∨
    ∃ c, message_from_str line = Ok (MsgClaim c) ∧
      evidence_may_be_incomplete_for (ap_pending s) (claim_session_id c) = false.
Proof.
  unfold process_line. destruct (is_blank line).
  { intros [= <- <-]. split_and!; [reflexivity|done|by left]. }
  destruct (message_from_str line) as [msg|e].
  2:{ intros [= <- <-]. destruct (quarantine_line_frame w line e ParseError s) as (? & ? & ->).
      split_and!; [done..|by left]. }
  intros ([[r s1] h1] & Hm & Hq)%bind_Some. apply handle_message_spec in Hm as [Hfr [Hred _ Hdef]].
  assert (∀ id row, t_findings (event_db s1) !! id = Some row → definite (frow_verdict row) →
    t_findings (event_db s) !! id = Some row ∨
    ∃ c, (Ok msg : result string IngestMessage) = Ok (MsgClaim c) ∧
      evidence_may_be_incomplete_for (ap_pending s) (claim_session_id c) = false) as Hdef1.
  { intros id row Hid Hd. destruct (Hdef id row Hid Hd) as [?|(c & Hc & ?)]; [by left|].
    right. exists c. destruct msg; by simplify_eq/=. }
  destruct r as [[]|e]; simplify_eq; [done|].
  destruct (quarantine_line_frame w (raw_for_quarantine line h' e) (store_error_text e)
    HandleError s1) as (? & ? & ->).
  split_and!; [by etrans|auto|done].
Qed.

(** ** What becomes of a line *)

(** The message's record is in its table: as it was sent, redacted, or as the
    stored record it repeats. *)
Definition on_file (w : LineWorld) (msg : IngestMessage) (h : option string) (s s' : AppState) :
    Prop :=
  match msg with
  | MsgEvent e =>
      ∃ row, t_agent_events (event_db s') !! uuid_to_string (ae_id e) = Some row ∧
        (row = event_row (redact_event e) ∨
         t_agent_events (event_db s) !! uuid_to_string (ae_id e) = Some row ∧
         same_event row (redact_event e) = true)
  | MsgEvidence ev =>
      ∃ row, t_evidence (event_db s') !! uuid_to_string (ev_id ev) = Some row ∧
        (row = evidence_row (redact_evidence ev) (as_column_str UdsIngest) ∨
         t_evidence (event_db s) !! uuid_to_string (ev_id ev) = Some row ∧
         same_evidence row (redact_evidence ev) = true)
  | MsgClaim c =>
      ∃ row, t_claims (event_db s') !! uuid_to_string (claim_id c) = Some row ∧
        crow_session_id row = claim_session_id c ∧
        crow_source_event_id row = uuid_to_string (claim_source_event_id c) ∧
        crow_text row = redact_text (claim_text c) ∧ crow_subject row = claim_subject c
  | MsgCapabilities caps =>
      ∀ sid, rc_notes caps !! "session_id" = Some sid ∨
             rc_notes caps !! "session_id" = None ∧ h = Some sid →
        ap_capabilities s' !! (sid, provider_tag (rc_provider caps)) =
          Some (capabilities_row caps (lw_at w))
  | MsgPolicyBundle _ | MsgPolicyRevocation _ => True
  end.

(** A message that clashes with what is stored: its id names another record,
    or its claim is not borne out by its source event; with the error it meets
    and what is kept of it, which names the record and nothing of its
    contents. *)
Inductive clash (db : EventDb) : IngestMessage → StoreError → string → Prop :=
| ClashEvent e row :
    let id := uuid_to_string (ae_id e) in
    t_agent_events db !! id = Some row → same_event row (redact_event e) = false →
    clash db (MsgEvent e) (IdCollision "agent_events" id)
      ("id_collision: table=agent_events id=" +:+ id +:+ " session=" +:+ ae_session_id e)
| ClashEvidence ev row :
    let id := uuid_to_string (ev_id ev) in
    t_evidence db !! id = Some row → same_evidence row (redact_evidence ev) = false →
    clash db (MsgEvidence ev) (IdCollision "evidence" id)
      ("id_collision: table=evidence id=" +:+ id +:+ " session=" +:+ ev_session_id ev)
| ClashClaim c :
    let source := uuid_to_string (claim_source_event_id c) in
    (t_agent_events db !! source = None ∨
     ∃ row e, t_agent_events db !! source = Some row ∧ event_of_row source row = Ok e ∧
              claim_matches_completion e (redact_claim c) = false) →
    clash db (MsgClaim c) (ClaimSourceMismatch (uuid_to_string (claim_id c)))
      ("claim_source_mismatch: id=" +:+ uuid_to_string (claim_id c)).

(** The record is refused before it is compared: it names no session, or the
    database fails. *)
Definition refused_first (w : LineWorld) (msg : IngestMessage) : Prop :=
  lw_sql w = StatementFails ∨
  match msg with
  | MsgEvent e => is_blank (ae_session_id e) = true
  | MsgEvidence ev => is_blank (ev_session_id ev) = true
  | MsgClaim c => is_blank (claim_session_id c) = true
  | _ => False
  end.

(** The line is the one new row of the quarantine, and no event or evidence is
    added. *)
Definition set_aside (w : LineWorld) (kind reason raw : string) (s s' : AppState) : Prop :=
  quarantine_rows (event_db s') =
    <[lw_quarantine_id w :=
        mkQuarantinedLine (lw_quarantine_id w) (lw_quarantine_at w) kind reason raw]>
      (quarantine_rows (event_db s)) ∧
  t_agent_events (event_db s') = t_agent_events (event_db s) ∧
  t_evidence (event_db s') = t_evidence (event_db s).

Inductive line_fate (w : LineWorld) (line : string) (h : option string) (s s' : AppState) : Prop :=
| FateBlank : is_blank line = true → s' = s → line_fate w line h s s'
| FateMalformed e :
    message_from_str line = Err e → set_aside w "parse_error" e line s s' → line_fate w line h s s'
| FateStored msg :
    message_from_str line = Ok msg → on_file w msg h s s' →
    quarantine_rows (event_db s') = quarantine_rows (event_db s) → line_fate w line h s s'
| FateClash msg e raw :
    message_from_str line = Ok msg → clash (event_db s) msg e raw →
    set_aside w "handle_error" (store_error_text e) raw s s' → line_fate w line h s s'
| FateFailed msg e :
    message_from_str line = Ok msg →
    (∀ e' raw, clash (event_db s) msg e' raw → refused_first w msg) →
    set_aside w "handle_error" (store_error_text e) line s s' → line_fate w line h s s'.

(** What a handler's answer tells of its message. *)
Definition answered (w : LineWorld) (msg : IngestMessage) (h : option string) (s s1 : AppState)
    (r : result StoreError unit) (h1 : option string) : Prop :=
  match r with
  | Ok _ => on_file w msg h s s1
  | Err e =>
      t_agent_events (event_db s1) = t_agent_events (event_db s) ∧
      t_evidence (event_db s1) = t_evidence (event_db s) ∧
      ((∃ raw, clash (event_db s) msg e raw ∧ ∀ line, raw_for_quarantine line h1 e = raw) ∨
       kept_verbatim e ∧ ∀ e' raw, clash (event_db s) msg e' raw → refused_first w msg)
  end.

Lemma handle_event_answers w e s r s1 h h1 :
  handle_event w e s = (r, s1, h1) → answered w (MsgEvent e) h s s1 r h1.
Proof.
  unfold handle_event, insert_event. simpl. destruct (is_blank (ae_session_id e)) eqn:Eb.
  { intros [= <- <- <-]. split_and!; [done..|]. right. split; [done|]. by right. }
  destruct (in_tx _ _ _) as [r0 db] eqn:Etx.
  apply in_tx_cases in Etx as [(a & Hsql & Hb & ->)|[(e' & Hsql & Hb & -> & ->)|(-> & -> & Hc)]];
    intros [= <- <- <-]; unfold answered, on_file, event_db; simpl.
  - unfold insert_event_body in Hb. simpl in Hb.
    destruct (t_agent_events _ !! _) as [row|] eqn:Erow.
    + destruct (same_event row _) eqn:Es; [|done]. injection Hb as _ <-. exists row. auto.
    + injection Hb as _ <-. exists (event_row (redact_event e)). split; [|by left].
      pose proof (insert_event_attribution_records (redact_event e) (provider_tag (ae_provider e))
        (with_events <[uuid_to_string (ae_id e) := event_row (redact_event e)]> (event_db s)))
        as (E1 & _). unfold tag_record, insert_lineage_tag_row. simpl. rewrite E1. simpl.
      by rewrite lookup_insert_eq.
  - split_and!; [done..|]. left. unfold insert_event_body in Hb. simpl in Hb.
    destruct (t_agent_events _ !! _) as [row|] eqn:Erow; [|done].
    destruct (same_event row _) eqn:Es; [done|]. injection Hb as <-.
    eexists. split; [by eapply ClashEvent|]. done.
  - split_and!; [done..|]. right. split; [done|]. intros e' raw Hclash.
    destruct Hc as [?|[x Hx]]; [by left|]. exfalso. inversion Hclash as [? row ? Hrow Hne| |]; subst.
    unfold insert_event_body in Hx. simpl in Hx. unfold event_db in *. subst id.
    by rewrite Hrow, Hne in Hx.
Qed.

Lemma handle_evidence_answers w ev s r s1 h h1 :
  handle_evidence w ev s = (r, s1, h1) → answered w (MsgEvidence ev) h s s1 r h1.
Proof.
  unfold handle_evidence, insert_evidence_with_origin, insert_evidence_with_origin_opt. simpl.
  destruct (is_blank (ev_session_id ev)) eqn:Eb.
  { intros [= <- <- <-]. split_and!; [done..|]. right. split; [done|]. by right. }
  destruct (in_tx _ _ _) as [r0 db] eqn:Etx.
  apply in_tx_cases in Etx as [(a & Hsql & Hb & ->)|[(e' & Hsql & Hb & -> & ->)|(-> & -> & Hc)]];
    intros [= <- <- <-]; unfold answered, on_file, event_db; simpl.
  - unfold insert_evidence_body in Hb. simpl in Hb.
    destruct (t_evidence _ !! _) as [row|] eqn:Erow.
    + destruct (same_evidence row _) eqn:Es; [|done]. injection Hb as _ <-. exists row. auto.
    + destruct (t_agent_events _ !! _); [|done]. injection Hb as _ <-.
      eexists. split; [|by left]. simpl. by rewrite lookup_insert_eq.
  - split_and!; [done..|]. unfold insert_evidence_body in Hb. simpl in Hb.
    destruct (t_evidence _ !! _) as [row|] eqn:Erow.
    + destruct (same_evidence row _) eqn:Es; [done|]. injection Hb as <-. left.
      eexists. split; [by eapply ClashEvidence|]. done.
    + destruct (t_agent_events _ !! _); [done|]. injection Hb as <-. right. split; [done|].
      intros e' raw Hclash. exfalso. inversion Hclash as [|? row ? Hrow Hne|]; subst.
      unfold event_db in *. subst id. congruence.
  - split_and!; [done..|]. right. split; [done|]. intros e' raw Hclash.
    destruct Hc as [?|[x Hx]]; [by left|]. exfalso. inversion Hclash as [|? row ? Hrow Hne|]; subst.
    unfold insert_evidence_body in Hx. simpl in Hx. unfold event_db in *. subst id.
    by rewrite Hrow, Hne in Hx.
Qed.

(** The check of a claim's source, read off the tables. *)
Lemma check_source_clash c check db e :
  check_source c (Some check) db = Err e →
  (e = ClaimSourceMismatch (uuid_to_string (claim_id c)) ∧
   (t_agent_events db !! uuid_to_string (claim_source_event_id c) = None ∨
    ∃ row ev, t_agent_events db !! uuid_to_string (claim_source_event_id c) = Some row ∧
      event_of_row (uuid_to_string (claim_source_event_id c)) row = Ok ev ∧ check ev = false)) ∨
  (kept_verbatim e ∧ ∃ row, t_agent_events db !! uuid_to_string (claim_source_event_id c) = Some row ∧
     event_of_row (uuid_to_string (claim_source_event_id c)) row = Err e).
Proof.
  unfold check_source. destruct (t_agent_events db !! _) as [row|]; simpl.
  2:{ intros [= <-]. left. by auto. }
  destruct (event_of_row _ row) as [ev|e'] eqn:Er; simpl.
  - destruct (check ev) eqn:Ec; [done|]. intros [= <-]. left. split; [done|]. right. eauto.
  - intros [= <-]. right. split; [|eauto]. unfold event_of_row in Er.
    by repeat case_match; simplify_eq.
Qed.
Lemma check_source_passed c check db e raw :
  check_source (redact_claim c) (Some check) db = Ok tt →
  (∀ ev, check ev = claim_matches_completion ev (redact_claim c)) →
  ¬ clash db (MsgClaim c) e raw.
Proof.
  intros Hck Hcheck Hclash. inversion Hclash as [| |? ? Hsrc]; subst. revert Hck.
  unfold check_source. simpl. subst source.
  destruct Hsrc as [->|(row & ev & -> & Hrow & Hm)]; simpl; [done|].
  rewrite Hrow. simpl. by rewrite Hcheck, Hm.
Qed.

Lemma verdict_path_error w incomplete claim caps sid t db e db' :
  run_verifiers_and_persist_findings w verifiers incomplete claim caps
    (capabilities_for_session sid t) db = (Err e, db') → kept_verbatim e.
Proof.
  unfold run_verifiers_and_persist_findings, admitted_evidence_for_session.
  destruct (evidence_rows_with_origin _ db) as [rows failed].
  destruct (capabilities_for_session sid t) as [announced|e'] eqn:Ec; simpl.
  - apply verifier_loop_error.
  - intros [= <- _]. revert Ec. unfold capabilities_for_session.
    induction (session_rows sid t) as [|x rows' IH]; simpl; [done|].
    destruct (capabilities_of_row x.1 x.2) as [c|e1] eqn:Er; simpl.
    + destruct (collect_results _); [done|]. exact IH.
    + intros [= <-]. unfold capabilities_of_row in Er. by repeat case_match; simplify_eq.
Qed.

Lemma handle_claim_answers w c s r s1 h h1 :
  handle_claim verifiers w c s = (r, s1, h1) → answered w (MsgClaim c) h s s1 r h1.
Proof.
  unfold handle_claim, insert_claim_idempotent_checked, insert_claim_inner. simpl.
  destruct (is_blank (claim_session_id c)) eqn:Eb.
  { intros [= <- <- <-]. split_and!; [done..|]. right. split; [done|]. by right. }
  set (check := λ source, claim_matches_completion source (redact_claim c)).
  destruct (in_tx _ _ _) as [r0 db] eqn:Etx.
  assert (∀ e e' raw, check_source (redact_claim c) (Some check) (event_db s) = Ok e →
    ¬ clash (event_db s) (MsgClaim c) e' raw) as Hpassed.
  { intros [] e' raw Hck. by eapply check_source_passed. }
  apply in_tx_cases in Etx as [(a & Hsql & Hb & ->)|[(e & Hsql & Hb & -> & ->)|(-> & -> & Hc)]].
  - unfold insert_claim_body in Hb.
    destruct (check_source _ _ _) as [u|] eqn:Eck; [|done]. simpl in Hb. specialize (Hpassed u).
    destruct (t_claims (event_db s) !! uuid_to_string (claim_id c)) as [row|] eqn:Erow.
    + case_bool_decide as Heq; injection Hb as <- <-; intros [= <- <- <-].
      * unfold answered, on_file, event_db; simpl. exists row. split; [done|].
        by injection Heq as -> -> -> ->.
      * split_and!; [done..|]. right. split; [done|]. intros e' raw Hcl. by destruct (Hpassed e' raw).
    + destruct (t_agent_events (event_db s) !! _); [|done]. injection Hb as <- <-.
      destruct (run_verifiers_and_persist_findings _ _ _ _ _ _ _) as [r1 db1] eqn:Ev.
      intros [= <- <- <-]. pose proof (verdict_path_frame _ _ _ _ _ _ _ _ _ Ev) as [(E1 & E2 & E3 & _) _].
      unfold answered, on_file, event_db. simpl in *. destruct r1 as [|ve].
      * eexists. rewrite E2, lookup_insert_eq. done.
      * rewrite E1, E3. split_and!; [done..|]. right. split; [by eapply verdict_path_error|].
        intros e' raw Hcl. by destruct (Hpassed e' raw).
  - intros [= <- <- <-]. unfold answered, event_db; simpl. split_and!; [done..|].
    unfold insert_claim_body in Hb.
    destruct (check_source _ _ _) as [u|e1] eqn:Eck; simpl in Hb.
    + right. specialize (Hpassed u).
      split; [|intros e' raw Hcl; by destruct (Hpassed e' raw)].
      by repeat case_match; simplify_eq.
    + injection Hb as ->. apply check_source_clash in Eck as [[-> Hsrc]|[Hkv (row & Hrow & Her)]].
      * left. eexists. split; [exact (ClashClaim _ c Hsrc)|]. done.
      * right. split; [done|]. intros e' raw Hcl. exfalso. inversion Hcl as [| |? ? Hsrc]; subst.
        subst source. unfold event_db in *. simpl in Hrow, Her. destruct Hsrc as [Hn|(row' & ev & Hr & Hev & _)]; congruence.
  - intros [= <- <- <-]. unfold answered, event_db; simpl. split_and!; [done..|]. right.
    split; [done|]. intros e' raw Hcl. destruct Hc as [?|[x Hx]]; [by left|]. exfalso.
    unfold insert_claim_body in Hx. destruct (check_source _ _ _) as [u|] eqn:Eck; [|done].
    by destruct (Hpassed u e' raw).
Qed.

Lemma handle_message_answers w msg s h r s1 h1 :
  handle_message verifiers w msg s h = Some (r, s1, h1) → answered w msg h s s1 r h1.
Proof.
  destruct msg as [e|c|ev|envelope|envelope|caps]; simpl; intros Hm.
  - simplify_eq. by apply handle_event_answers.
  - simplify_eq. by apply handle_claim_answers.
  - simplify_eq. by apply handle_evidence_answers.
  - by apply bind_Some in Hm as (s2 & Hm & [= <- <- <-]).
  - by simplify_eq.
  - injection Hm as Hm. revert Hm. unfold handle_capabilities.
    destruct (rc_notes caps !! "session_id") as [sid|] eqn:En; [|destruct h as [sid|]];
      [| |intros [= <- <- <-] sid; rewrite En; naive_solver].
    all: unfold upsert_capabilities; destruct (is_blank sid);
      [intros [= <- <- <-]; split_and!; [done..|right; split; [done|]; intros ?? Hcl; inversion Hcl]|].
    all: destruct (lw_sql w); simpl;
      [|intros [= <- <- <-]; split_and!; [done..|right; split; [done|]; intros ?? Hcl; inversion Hcl]..].
    all: intros [= <- <- <-] sid'; rewrite En; intros [[= ->]|[? [= ->]]]; try done; simpl.
    all: repeat case_match; simpl; apply lookup_insert_eq.
Qed.

Lemma quarantined_line `{!QuarantineRowsOk} w raw reason kind s :
  lw_quarantine w = Commits →
  t_documents (event_db s) !! (INGEST_QUARANTINE, lw_quarantine_id w) = None →
  quarantine_rows (event_db (quarantine_line w raw reason kind s)) =
    <[lw_quarantine_id w :=
        mkQuarantinedLine (lw_quarantine_id w) (lw_quarantine_at w) (quarantine_reason_str kind)
          reason raw]> (quarantine_rows (event_db s)).
Proof.
  intros Hw Hn. unfold quarantine_line. rewrite Hw.
  destruct (recorded_quarantine raw reason kind (lw_quarantine_id w) (lw_quarantine_at w)
    (lw_quarantine_at w) (event_db s) Hn) as (db' & -> & Hdb'). exact Hdb'.
Qed.

Lemma line_accounted `{!QuarantineRowsOk} w line s h s' h' :
  lw_quarantine w = Commits →
  t_documents (event_db s) !! (INGEST_QUARANTINE, lw_quarantine_id w) = None →
  process_line verifiers w line s h = Some (s', h') → line_fate w line h s s'.
Proof.
  intros Hw Hn. unfold process_line. destruct (is_blank line) eqn:Eb.
  { intros [= <- <-]. by apply FateBlank. }
  assert (∀ raw reason kind s1, t_documents (event_db s1) = t_documents (event_db s) →
    t_agent_events (event_db s1) = t_agent_events (event_db s) →
    t_evidence (event_db s1) = t_evidence (event_db s) →
    set_aside w (quarantine_reason_str kind) reason raw s (quarantine_line w raw reason kind s1))
    as Haside.
  { intros raw reason kind s1 Ed Ee Ev. split.
    - rewrite (quarantined_line w raw reason kind s1) by (rewrite ?Ed; done). f_equal.
      unfold quarantine_rows. by rewrite Ed.
    - unfold quarantine_line. destruct (record_quarantine _ _ _ _ _ _ _ _) as [r db] eqn:Er.
      apply record_quarantine_frame in Er as (E1 & _ & E3 & _). unfold event_db in *. simpl.
      split; congruence. }
  destruct (message_from_str line) as [msg|e] eqn:Em.
  2:{ intros [= <- <-]. eapply FateMalformed; [done|]. by apply (Haside _ _ ParseError). }
  intros ([[r s1] h1] & Hm & Hq)%bind_Some. pose proof Hm as [_ Hs]%handle_message_spec.
  pose proof (hs_documents _ _ _ Hs) as Hd. apply handle_message_answers in Hm.
  destruct r as [[]|e]; simplify_eq; simpl in Hm.
  { eapply FateStored; [done..|]. unfold quarantine_rows. by rewrite Hd. }
  destruct Hm as (Ee & Ev & [(raw & Hcl & Hraw)|[Hkv Hno]]).
  - eapply FateClash; [done..|]. rewrite <- (Hraw line). by apply (Haside _ _ HandleError).
  - eapply (FateFailed _ _ _ _ _ msg e); [done..|].
    assert (raw_for_quarantine line h' e = line) as -> by by destruct e.
    by apply (Haside _ _ HandleError).
Qed.

(** C9. No line is lost, and nothing that clashes with a stored record is
    copied. When the quarantine can be written, a line that is not blank ends
    in one of these ways. It does not parse, and is the one new row of the
    quarantine, verbatim. Its record is in its table, redacted, or repeats a
    stored record, and the quarantine is as before (a capability announcement
    without a session, and policy artifacts, have no such table here). Its id
    names another event or evidence record, or its claim's source event is not
    stored or does not bear the claim out, and the one new row of the quarantine
    names the record and holds nothing of its contents. Or it is the one new row
    of the quarantine verbatim, which for a record that clashes happens only if
    it names no session or the database fails first. In the last three ways no
    event or evidence is stored. *)
Theorem every_line_is_accounted_for `{!QuarantineRowsOk} w line s h s' h' :
  lw_quarantine w = Commits →
  t_documents (event_db s) !! (INGEST_QUARANTINE, lw_quarantine_id w) = None →
  process_line verifiers w line s h = Some (s', h') → line_fate w line h s s'.
Proof. apply line_accounted. Qed.

(** A well-formed evidence message whose source event was never stored fails
    on the foreign key, and its line goes to the quarantine verbatim: the
    identifier collision is not the only error that a complete message can
    meet. *)
Lemma unlinked_evidence_is_quarantined_verbatim `{!QuarantineRowsOk} w line s h ev :
  lw_quarantine w = Commits →
  t_documents (event_db s) !! (INGEST_QUARANTINE, lw_quarantine_id w) = None →
  is_blank line = false → message_from_str line = Ok (MsgEvidence ev) →
  is_blank (ev_session_id ev) = false →
  t_evidence (event_db s) !! uuid_to_string (ev_id ev) = None →
  t_agent_events (event_db s) !! uuid_to_string (ev_source_event_id ev) = None →
  ∃ s' h', process_line verifiers w line s h = Some (s', h') ∧
    quarantine_rows (event_db s') !! lw_quarantine_id w =
      Some (mkQuarantinedLine (lw_quarantine_id w) (lw_quarantine_at w) "handle_error"
              (store_error_text StoreDb) line).
Proof.
  intros Hw Hn Hb Hm Hsid Hev Hsrc. unfold process_line. rewrite Hb, Hm. simpl.
  unfold handle_evidence, insert_evidence_with_origin, insert_evidence_with_origin_opt,
    insert_evidence_body. simpl. rewrite Hsid, Hev, Hsrc.
  assert (∀ A, in_tx (A := A) (lw_sql w) (event_db s) (Err StoreDb) = (Err StoreDb, event_db s))
    as -> by (by destruct (lw_sql w)).
  simpl. eexists _, _. split; [done|].
  rewrite (quarantined_line w _ _ HandleError); [by rewrite lookup_insert_eq|done..].
Qed.
End lines.
