(* ===== verification/Turnstile.v ===== *)
(** * Concurrent ingest connections

    Of [fornax-daemon/src/main.rs]: the accept loop with its permits, the
    ticket turnstile, the in-order drain of a connection, its hand-off and
    its end, as a step function on the state all of them share. A step is one
    atomic action of one task: the tasks interleave as the sequence of steps
    does. A line is processed in one step, because a message is handled under
    a mutex and reads the marks of the handed-off connections once. *)

From S2P Require Import Prelude.
From S2P Require Import Types.
From S2P Require Import PolicyContent.
From S2P Require Import PolicyRevision.
From S2P Require Import PolicyBundle.
From S2P Require Import PolicyCache.
From S2P Require Import Projection.
From S2P Require Import EventStore.
From S2P Require Import EventRead.
From S2P Require Import Consumption.
From S2P Require Import Capabilities.
From S2P Require Import Ingest.

Local Open Scope fornax_scope.

(** Durations, in milliseconds. *)
Definition DRAIN_IDLE : Z := 250.
Definition DRAIN_READ_BUDGET : Z := 1000.
Definition MAX_INFLIGHT_CONNECTIONS : nat := 256.

(** [AtomicU64::fetch_add], which wraps. *)
Definition fetch_add_u64 (n : N) : N := ((n + 1) mod 2 ^ 64)%N.

(** ** Connections *)

(** Where the task of a connection is: waiting for its turn; draining until a
    deadline; done draining but still holding the turn, with or without a
    hand-off registered; continuing after a hand-off; or past everything but
    the release of its permit. *)
Inductive Connection :=
| Waiting
| Draining (deadline : Z) (session_hint : option string)
| Ended
| Registered (token : HandoffToken) (session_hint : option string)
| Continuing (token : HandoffToken) (session_hint : option string)
| Released.

(** The accept loop: acquiring a permit, in [accept] with one, or gone after
    [accept] failed. *)
Inductive AcceptLoop := WantsPermit | HasPermit | Stopped.

Record Daemon := mkDaemon {
  dm_app : AppState;
  dm_clock : Z;
  dm_accept : AcceptLoop;
  dm_permits : nat;
  dm_next_ticket : N;
  dm_next_turn : N;
  dm_connections : gmap N Connection;
}.

(** What [next_line] answers: the end of the stream, a line with the answers
    to its statements, an error, or nothing before the timeout. *)
Inductive Read :=
| ReadEof
| ReadLine (line : string) (w : LineWorld)
| ReadError
| ReadElapsed.

Inductive Step :=
| StAcquire
| StAccept
| StAcceptFails
| StTick (elapsed : N)
| StTurn (ticket : N)
| StDrain (ticket : N) (r : Read)
| StReleaseTurn (ticket : N)
| StContinue (ticket : N) (r : Read)
| StPanic (ticket : N)
| StFinish (ticket : N).

Definition with_connection (t : N) (c : Connection) (d : Daemon) : Daemon :=
  mkDaemon (dm_app d) (dm_clock d) (dm_accept d) (dm_permits d) (dm_next_ticket d)
    (dm_next_turn d) (<[t := c]> (dm_connections d)).
Definition with_app (s : AppState) (d : Daemon) : Daemon :=
  mkDaemon s (dm_clock d) (dm_accept d) (dm_permits d) (dm_next_ticket d) (dm_next_turn d)
    (dm_connections d).
Definition with_clock (now : Z) (d : Daemon) : Daemon :=
  mkDaemon (dm_app d) now (dm_accept d) (dm_permits d) (dm_next_ticket d) (dm_next_turn d)
    (dm_connections d).
Definition with_accept (a : AcceptLoop) (permits : nat) (d : Daemon) : Daemon :=
  mkDaemon (dm_app d) (dm_clock d) a permits (dm_next_ticket d) (dm_next_turn d)
    (dm_connections d).

Definition drop_guard (token : HandoffToken) (d : Daemon) : Daemon :=
  with_app (with_pending (drop_handoff token (ap_pending (dm_app d))) (dm_app d)) d.

Section turnstile.
Context `{Chrono, ChronoFromStr, PolicyWire, PolicyDigest}.
Context `{EventJson, UuidOps, TableScan, CapabilityJson, QuarantineRows, IngestWire}.
Context (verifiers : list Verifier).

(** [run_uds_server]. *)
Definition acquire (d : Daemon) : option Daemon :=
  match dm_accept d, dm_permits d with
  | WantsPermit, S permits => Some (with_accept HasPermit permits d)
  | _, _ => None
  end.
Definition accept (d : Daemon) : option Daemon :=
  match dm_accept d with
  | HasPermit =>
      Some (mkDaemon (dm_app d) (dm_clock d) WantsPermit (dm_permits d)
              (fetch_add_u64 (dm_next_ticket d)) (dm_next_turn d)
              (<[dm_next_ticket d := Waiting]> (dm_connections d)))
  | _ => None
  end.
Definition accept_fails (d : Daemon) : option Daemon :=
  match dm_accept d with
  | HasPermit => Some (with_accept Stopped (S (dm_permits d)) d)
  | _ => None
  end.

(** [wait_for_turn] returns, and the drain's deadline is set. *)
Definition take_turn (t : N) (d : Daemon) : option Daemon :=
  match dm_connections d !! t with
  | Some Waiting =>
      if decide (dm_next_turn d = t)
      then Some (with_connection t (Draining (dm_clock d + DRAIN_READ_BUDGET) None) d)
      else None
  | _ => None
  end.

(** One iteration of the loop of [drain_in_order]. Past the deadline the
    connection is handed off, and the hand-off is registered while the turn
    is still held. A panic ends the drain as an error does. *)
Definition drain_step (t : N) (r : Read) (d : Daemon) : option Daemon :=
  match dm_connections d !! t with
  | Some (Draining deadline hint) =>
      let remaining := Z.max 0 (deadline - dm_clock d) in
      if decide (remaining = 0%Z) then
        let '(token, pending) := register_handoff hint (ap_pending (dm_app d)) in
        Some (with_connection t (Registered token hint)
                (with_app (with_pending pending (dm_app d)) d))
      else
        let wait := Z.min DRAIN_IDLE remaining in
        match r with
        | ReadEof | ReadError => Some (with_connection t Ended d)
        | ReadLine line w =>
            match process_line verifiers w line (dm_app d) hint with
            | Some (s, hint) => Some (with_connection t (Draining deadline hint) (with_app s d))
            | None => Some (with_connection t Ended d)
            end
        | ReadElapsed => Some (with_clock (dm_clock d + wait) d)
        end
  | _ => None
  end.

(** [TurnGuard]'s [drop]. *)
Definition release_turn (t : N) (d : Daemon) : option Daemon :=
  let released c :=
    Some (mkDaemon (dm_app d) (dm_clock d) (dm_accept d) (dm_permits d) (dm_next_ticket d)
            (fetch_add_u64 (dm_next_turn d)) (<[t := c]> (dm_connections d))) in
  match dm_connections d !! t with
  | Some Ended => released Released
  | Some (Registered token hint) => released (Continuing token hint)
  | _ => None
  end.

(** One iteration of the loop of [continue_connection]; its guard is dropped
    however it ends. *)
Definition continue_step (t : N) (r : Read) (d : Daemon) : option Daemon :=
  match dm_connections d !! t with
  | Some (Continuing token hint) =>
      match r with
      | ReadEof | ReadError => Some (with_connection t Released (drop_guard token d))
      | ReadLine line w =>
          match process_line verifiers w line (dm_app d) hint with
          | Some (s, hint) => Some (with_connection t (Continuing token hint) (with_app s d))
          | None => Some (with_connection t Released (drop_guard token d))
          end
      | ReadElapsed => None
      end
  | _ => None
  end.

(** A panic of the task of a connection unwinds through its guards. *)
Definition panic_step (t : N) (d : Daemon) : option Daemon :=
  match dm_connections d !! t with
  | Some (Draining _ _) => Some (with_connection t Ended d)
  | Some (Continuing token _) => Some (with_connection t Released (drop_guard token d))
  | _ => None
  end.

(** The task is over and its permit is released. *)
Definition finish (t : N) (d : Daemon) : option Daemon :=
  match dm_connections d !! t with
  | Some Released =>
      Some (mkDaemon (dm_app d) (dm_clock d) (dm_accept d) (S (dm_permits d)) (dm_next_ticket d)
              (dm_next_turn d) (delete t (dm_connections d)))
  | _ => None
  end.

Definition step (e : Step) (d : Daemon) : option Daemon :=
  match e with
  | StAcquire => acquire d
  | StAccept => accept d
  | StAcceptFails => accept_fails d
  | StTick elapsed => Some (with_clock (dm_clock d + Z.of_N elapsed) d)
  | StTurn t => take_turn t d
  | StDrain t r => drain_step t r d
  | StReleaseTurn t => release_turn t d
  | StContinue t r => continue_step t r d
  | StPanic t => panic_step t d
  | StFinish t => finish t d
  end.
Fixpoint run (es : list Step) (d : Daemon) : option Daemon :=
  match es with
  | [] => Some d
  | e :: es => d' ← step e d; run es d'
  end.

(** The daemon at its start, on what its store holds. *)
Definition start (s : AppState) (now : Z) : Daemon :=
  mkDaemon (with_pending no_handoff s) now WantsPermit MAX_INFLIGHT_CONNECTIONS 0 0 ∅.
End turnstile.
