(* ===== verification/TurnstileSpec.v ===== *)
(** * The order and the limits of concurrent ingest

    The invariant of the step function of [Turnstile], by induction over the
    interleavings: who holds the turn, that no turn is lost, that the marks
    count exactly the handed-off connections, and that the permits bound the
    open connections; that lines drained in a turn are processed in the order
    their connections were accepted; that a waiting connection can always be
    brought to its turn; and what a definite verdict has seen. *)

From S2P Require Import Prelude.
From S2P Require Import Types.
From S2P Require Import Redact.
From S2P Require Import Projection.
From S2P Require Import PolicyContent.
From S2P Require Import PolicyRevision.
From S2P Require Import PolicyBundle.
From S2P Require Import PolicyCache.
From S2P Require Import EventStore.
From S2P Require Import EventRead.
From S2P Require Import Consumption.
From S2P Require Import Capabilities.
From S2P Require Import Ingest.
From S2P Require Import IngestSpec.
From S2P Require Import Turnstile.

Local Open Scope fornax_scope.

(** ** Counting handed-off connections *)

Definition token_of (c : Connection) : option HandoffToken :=
  match c with Registered token _ | Continuing token _ => Some token | _ => None end.
(** The connections that hold a guard for [token]. *)
Definition guards (token : HandoffToken) (m : gmap N Connection) : nat :=
  size (filter (λ x, token_of x.2 = Some token) m).
Definition weight (token : HandoffToken) (c : option Connection) : nat :=
  match c with
  | Some c => if decide (token_of c = Some token) then 1 else 0
  | None => 0
  end.

Lemma guards_delete token t m : guards token m = guards token (delete t m) + weight token (m !! t).
Proof.
  unfold guards. rewrite map_filter_delete.
  destruct (m !! t) as [c|] eqn:E; simpl.
  - case_decide as Hd.
    + assert (filter (λ x, token_of x.2 = Some token) m !! t = Some c) as Hf
        by (apply map_lookup_filter_Some; auto).
      rewrite map_size_delete_Some by eauto.
      assert (size (filter (λ x, token_of x.2 = Some token) m) ≠ 0); [|lia].
      intros Hz%map_size_empty_inv. by rewrite Hz, lookup_empty in Hf.
    + rewrite delete_id; [lia|]. apply map_lookup_filter_None. right. intros x Hx. by simplify_eq.
  - rewrite delete_id; [lia|]. apply map_lookup_filter_None. by left.
Qed.
Lemma guards_insert token t c m :
  guards token (<[t := c]> m) + weight token (m !! t) = guards token m + weight token (Some c).
Proof.
  rewrite (guards_delete token t m), (guards_delete token t (<[t := c]> m)).
  rewrite delete_insert_eq, lookup_insert_eq. lia.
Qed.

(** ** The marks *)

Definition nonzero (n : nat) : option N := if decide (n = 0) then None else Some (N.of_nat n).
Record pending_exact (p : PendingHandoff) (m : gmap N Connection) : Prop := mkPendingExact {
  pe_sessions sid : ph_sessions p !! sid = nonzero (guards (TokenSession sid) m);
  pe_unknown : ph_unknown p = N.of_nat (guards TokenUnknown m);
}.

Lemma pending_exact_same p m t c :
  pending_exact p m → (∀ token, weight token (m !! t) = weight token (Some c)) →
  pending_exact p (<[t := c]> m).
Proof.
  intros [Hs Hu] Hw. assert (∀ token, guards token (<[t := c]> m) = guards token m) as Hg.
  { intros token. pose proof (guards_insert token t c m). rewrite Hw in *. lia. }
  split; [intros sid|]; by rewrite Hg.
Qed.

Lemma weight_token token token' c :
  token_of c = Some token' → weight token (Some c) = if decide (token = token') then 1 else 0.
Proof. simpl. intros ->. repeat case_decide; congruence. Qed.
Lemma weight_none token c : token_of c = None → weight token (Some c) = 0.
Proof. simpl. by intros ->. Qed.
Lemma nonzero_default n : default 0%N (nonzero n) = N.of_nat n.
Proof. unfold nonzero. case_decide; [by subst|done]. Qed.
Lemma nonzero_S n : nonzero (S n) = Some (N.of_nat (S n)).
Proof. done. Qed.

Lemma register_exact hint p token p' m t c c' :
  pending_exact p m → m !! t = Some c → token_of c = None → token_of c' = Some token →
  register_handoff hint p = (token, p') → pending_exact p' (<[t := c']> m).
Proof.
  intros [Hs Hu] Ht Hc Hc' Hr.
  assert (∀ tok, guards tok (<[t := c']> m) = guards tok m + if decide (tok = token) then 1 else 0)
    as Hg.
  { intros tok. pose proof (guards_insert tok t c' m) as Hi.
    rewrite Ht, (weight_none _ _ Hc), (weight_token _ _ _ Hc') in Hi. lia. }
  destruct hint as [sid|]; simplify_eq/=; split; simpl.
  - intros sid'. rewrite Hg. case_decide as Hd; simplify_eq.
    + rewrite lookup_insert_eq, Hs, nonzero_default, Nat.add_1_r, nonzero_S. f_equal. lia.
    + rewrite lookup_insert_ne by congruence. by rewrite Hs, Nat.add_0_r.
  - by rewrite Hg, decide_False, Nat.add_0_r.
  - intros sid'. by rewrite Hg, decide_False, Nat.add_0_r.
  - rewrite Hg, decide_True by done. lia.
Qed.

Lemma drop_exact p token m t c c' :
  pending_exact p m → m !! t = Some c → token_of c = Some token → token_of c' = None →
  pending_exact (drop_handoff token p) (<[t := c']> m).
Proof.
  intros [Hs Hu] Ht Hc Hc'.
  assert (∀ tok, guards tok m = guards tok (<[t := c']> m) + if decide (tok = token) then 1 else 0)
    as Hg.
  { intros tok. pose proof (guards_insert tok t c' m) as Hi.
    rewrite Ht, (weight_none _ _ Hc'), (weight_token _ _ _ Hc) in Hi. lia. }
  destruct token as [sid|]; simpl.
  - pose proof (Hg (TokenSession sid)) as Hsid. rewrite decide_True in Hsid by done.
    rewrite Hs, Hsid, Nat.add_1_r, nonzero_S.
    set (n := guards (TokenSession sid) (<[t := c']> m)) in *.
    replace (N.of_nat (S n) - 1)%N with (N.of_nat n) by lia. split; simpl.
    + intros sid'. destruct (decide (sid' = sid)) as [->|Hne].
      * fold n. unfold nonzero. case_decide as Hz; case_decide; try lia.
        -- by rewrite lookup_delete_eq.
        -- by rewrite lookup_insert_eq.
      * specialize (Hs sid'). rewrite Hg, decide_False, Nat.add_0_r in Hs by congruence.
        case_decide; [by rewrite lookup_delete_ne|by rewrite lookup_insert_ne].
    + by rewrite Hu, Hg, decide_False, Nat.add_0_r.
  - split; simpl.
    + intros sid'. by rewrite Hs, Hg, decide_False, Nat.add_0_r.
    + rewrite Hu, Hg, decide_True by done. lia.
Qed.

Lemma pending_exact_delete p m t c :
  pending_exact p m → m !! t = Some c → token_of c = None → pending_exact p (delete t m).
Proof.
  intros [Hs Hu] Ht Hc. assert (∀ tok, guards tok (delete t m) = guards tok m) as Hg.
  { intros tok. rewrite (guards_delete tok t m), Ht, (weight_none _ _ Hc). lia. }
  split; [intros sid|]; by rewrite Hg.
Qed.

(** A mark is set exactly while some connection holds its guard. *)
Lemma guards_positive token m : 0 < guards token m ↔ ∃ t c, m !! t = Some c ∧ token_of c = Some token.
Proof.
  unfold guards. split.
  - intros Hp. destruct (map_choose (filter (λ x, token_of x.2 = Some token) m)) as (t & c & Hc).
    { intros Hz. rewrite Hz, map_size_empty in Hp. lia. }
    apply map_lookup_filter_Some in Hc as [? ?]. by exists t, c.
  - intros (t & c & Ht & Hc).
    assert (filter (λ x, token_of x.2 = Some token) m !! t = Some c) as Hf
      by (apply map_lookup_filter_Some; auto).
    destruct (decide (size (filter (λ x, token_of x.2 = Some token) m) = 0)) as [Hz|]; [|lia].
    apply map_size_empty_inv in Hz. by rewrite Hz, lookup_empty in Hf.
Qed.
Lemma incomplete_iff p m sid :
  pending_exact p m →
  evidence_may_be_incomplete_for p sid = true ↔
  ∃ t c, m !! t = Some c ∧ (token_of c = Some (TokenSession sid) ∨ token_of c = Some TokenUnknown).
Proof.
  intros [Hs Hu]. unfold evidence_may_be_incomplete_for.
  rewrite orb_true_iff, !bool_decide_eq_true, Hs, Hu.
  assert (is_Some (nonzero (guards (TokenSession sid) m)) ↔ 0 < guards (TokenSession sid) m) as ->.
  { unfold nonzero. case_decide as Hz.
    - rewrite Hz. split; [by intros []|lia].
    - split; [lia|by eexists]. }
  assert ((0 < N.of_nat (guards TokenUnknown m))%N ↔ 0 < guards TokenUnknown m) as -> by lia.
  rewrite !guards_positive. naive_solver.
Qed.

(** ** The invariant *)

(** The turn is behind the connection; the connection holds it. *)
Definition past (c : Connection) : bool :=
  match c with Continuing _ _ | Released => true | _ => false end.
Definition holds (c : Connection) : bool :=
  match c with Draining _ _ | Ended | Registered _ _ => true | _ => false end.
Definition loop_permit (a : AcceptLoop) : nat := match a with HasPermit => 1 | _ => 0 end.

(** After at most [k] steps. *)
Record inv (k : nat) (d : Daemon) : Prop := mkInv {
  inv_turn : (dm_next_turn d ≤ dm_next_ticket d)%N;
  inv_bound : (dm_next_ticket d ≤ N.of_nat k)%N;
  inv_known t c : dm_connections d !! t = Some c → (t < dm_next_ticket d)%N;
  inv_queued t : (dm_next_turn d ≤ t < dm_next_ticket d)%N →
    ∃ c, dm_connections d !! t = Some c ∧ past c = false;
  inv_past t c : dm_connections d !! t = Some c → (t < dm_next_turn d)%N → past c = true;
  inv_holder t c : dm_connections d !! t = Some c → holds c = true → t = dm_next_turn d;
  inv_permits : dm_permits d + size (dm_connections d) + loop_permit (dm_accept d) =
                MAX_INFLIGHT_CONNECTIONS;
  inv_pending : pending_exact (ap_pending (dm_app d)) (dm_connections d);
  inv_deadline t deadline hint : dm_connections d !! t = Some (Draining deadline hint) →
    (deadline ≤ dm_clock d + DRAIN_READ_BUDGET)%Z;
}.

Lemma fetch_add_small n k : (n ≤ N.of_nat k)%N → (N.of_nat (S k) < 2 ^ 64)%N →
  fetch_add_u64 n = (n + 1)%N.
Proof. intros ? ?. unfold fetch_add_u64. apply N.mod_small. lia. Qed.

Lemma inv_weaken k k' d : k ≤ k' → inv k d → inv k' d.
Proof. intros ? []. split; try done. lia. Qed.

(** A connection moves on without giving up or taking back the turn. *)
Lemma inv_move k d d' t c c' :
  inv k d → dm_connections d !! t = Some c →
  dm_connections d' = <[t := c']> (dm_connections d) →
  dm_next_turn d' = dm_next_turn d → dm_next_ticket d' = dm_next_ticket d →
  dm_permits d' = dm_permits d → dm_accept d' = dm_accept d →
  past c' = past c → (holds c' = true → t = dm_next_turn d) →
  (dm_clock d ≤ dm_clock d')%Z →
  (∀ deadline hint, c' = Draining deadline hint → deadline ≤ dm_clock d' + DRAIN_READ_BUDGET)%Z →
  pending_exact (ap_pending (dm_app d')) (<[t := c']> (dm_connections d)) →
  inv k d'.
Proof.
  intros [It Ib Ik Iq Ip Ih Im Ie Id] Ht Hm En Ek Ep Ea Hp Hh Hcl Hdl Hpe.
  split; rewrite ?En, ?Ek, ?Ep, ?Ea, ?Hm; try done.
  - intros t' x [[<- <-]|[_ ?]]%lookup_insert_Some; eauto.
  - intros t' Hr. destruct (Iq t' Hr) as (x & Hx & Hpx). destruct (decide (t = t')) as [<-|Hne].
    + rewrite lookup_insert_eq. exists c'. split; [done|]. simplify_eq. congruence.
    + rewrite lookup_insert_ne by done. eauto.
  - intros t' x [[<- <-]|[_ ?]]%lookup_insert_Some Hlt; [rewrite Hp|]; eauto.
  - intros t' x [[<- <-]|[_ ?]]%lookup_insert_Some Hhx; eauto.
  - rewrite map_size_insert_Some by eauto. done.
  - intros t' dl h [[<- Hx]|[_ Hx]]%lookup_insert_Some; [by eapply Hdl|].
    apply Id in Hx. lia.
Qed.

(** The holder of the turn gives it up. *)
Lemma inv_release k d t c c' :
  inv k d → (N.of_nat (S k) < 2 ^ 64)%N → dm_connections d !! t = Some c → holds c = true →
  token_of c' = token_of c → past c' = true → holds c' = false →
  inv (S k) (mkDaemon (dm_app d) (dm_clock d) (dm_accept d) (dm_permits d) (dm_next_ticket d)
               (fetch_add_u64 (dm_next_turn d)) (<[t := c']> (dm_connections d))).
Proof.
  intros [It Ib Ik Iq Ip Ih Im Ie Id] Hk Ht Hc Htok Hp Hh.
  assert (t = dm_next_turn d) as -> by eauto.
  pose proof (Ik _ _ Ht) as Hlt.
  assert (fetch_add_u64 (dm_next_turn d) = dm_next_turn d + 1)%N as Hf
    by (apply (fetch_add_small _ k); lia).
  split; simpl; rewrite ?Hf; try lia.
  - intros t' x [[<- <-]|[_ ?]]%lookup_insert_Some; eauto.
  - intros t' Hr. rewrite lookup_insert_ne by lia. apply Iq. lia.
  - intros t' x [[<- <-]|[Hne ?]]%lookup_insert_Some Hlt'; [done|]. apply (Ip t'); [done|lia].
  - intros t' x [[<- <-]|[Hne Hx]]%lookup_insert_Some Hhx; [congruence|]. by destruct (Ih t' x).
  - rewrite map_size_insert_Some by eauto. done.
  - apply pending_exact_same; [done|]. intros token. rewrite Ht. simpl. by rewrite Htok.
  - intros t' dl h [[<- ->]|[_ ?]]%lookup_insert_Some; [done|eauto].
Qed.

Section steps.
Context `{Chrono, ChronoFromStr, PolicyWire, PolicyDigest}.
Context `{EventJson, UuidOps, TableScan, CapabilityJson, QuarantineRows, IngestWire}.
Context (verifiers : list Verifier).

Lemma accept_inv k d d' :
  inv k d → (N.of_nat (S k) < 2 ^ 64)%N → accept d = Some d' → inv (S k) d'.
Proof.
  intros [It Ib Ik Iq Ip Ih Im Ie Id] Hk. unfold accept.
  destruct (dm_accept d) eqn:Ea; [done| |done]. intros [= <-].
  assert (dm_connections d !! dm_next_ticket d = None) as Hn.
  { destruct (dm_connections d !! _) eqn:E; [|done]. apply Ik in E. lia. }
  split; simpl; rewrite ?(fetch_add_small _ k) by done; try lia.
  - intros t c [[<- <-]|[_ Hx%Ik]]%lookup_insert_Some; lia.
  - intros t Hr. destruct (decide (dm_next_ticket d = t)) as [<-|Hne].
    + rewrite lookup_insert_eq. by exists Waiting.
    + rewrite lookup_insert_ne by done. apply Iq. lia.
  - intros t c [[<- <-]|[_ ?]]%lookup_insert_Some Hlt; [lia|eauto].
  - intros t c [[<- <-]|[_ ?]]%lookup_insert_Some Hh; [done|eauto].
  - rewrite map_size_insert_None by done. simpl in Im. lia.
  - apply pending_exact_same; [done|]. by rewrite Hn.
  - intros t dl h [[_ ?]|[_ ?]]%lookup_insert_Some; [done|eauto].
Qed.

Lemma finish_inv k d d' t : inv k d → finish t d = Some d' → inv k d'.
Proof.
  intros [It Ib Ik Iq Ip Ih Im Ie Id]. unfold finish.
  destruct (dm_connections d !! t) as [[]|] eqn:Et; try done. intros [= <-].
  split; simpl; try done.
  - intros t' c [_ ?]%lookup_delete_Some. eauto.
  - intros t' Hr. destruct (Iq t' Hr) as (c & Hc & Hp).
    rewrite lookup_delete_ne by (intros ->; by simplify_eq). eauto.
  - intros t' c [_ ?]%lookup_delete_Some. eauto.
  - intros t' c [_ ?]%lookup_delete_Some. eauto.
  - rewrite map_size_delete_Some by eauto.
    assert (size (dm_connections d) ≠ 0); [|lia].
    intros Hz%map_size_empty_inv. by rewrite Hz, lookup_empty in Et.
  - by eapply pending_exact_delete.
  - intros t' dl h [_ ?]%lookup_delete_Some. eauto.
Qed.

(** A line changes no mark. *)
Lemma line_keeps_pending w line s h s' h' :
  process_line verifiers w line s h = Some (s', h') → ap_pending s' = ap_pending s.
Proof. intros (Hf & _)%process_line_spec. by apply lf_pending. Qed.

Lemma drain_inv k d d' t r : inv k d → drain_step verifiers t r d = Some d' → inv k d'.
Proof.
  intros Hinv. unfold drain_step.
  destruct (dm_connections d !! t) as [[|deadline hint| | | |]|] eqn:Et; try done.
  pose proof (inv_holder _ _ Hinv _ _ Et eq_refl) as Hturn.
  pose proof (inv_pending _ _ Hinv) as Hpe.
  case_decide.
  - destruct (register_handoff hint _) as [token pending] eqn:Er. intros [= <-].
    eapply (inv_move _ d _ t _ (Registered token hint)); try done. simpl.
    by eapply register_exact.
  - assert (inv k (with_connection t Ended d)) as Hended.
    { eapply (inv_move _ d _ t _ Ended); try done. apply pending_exact_same; [done|].
      by rewrite Et. }
    destruct r as [|line w| |]; [by intros [= <-]| |by intros [= <-]|].
    + destruct (process_line _ _ _ _ _) as [[s h]|] eqn:El; intros [= <-]; [|done].
      eapply (inv_move _ d _ t _ (Draining deadline h)); try done; simpl.
      { intros ? ? [= <- <-]. by eapply inv_deadline. }
      rewrite (line_keeps_pending _ _ _ _ _ _ El). apply pending_exact_same; [done|]. by rewrite Et.
    + intros [= <-]. destruct Hinv as [???????? Id]. split; try done. simpl.
      intros t' dl h Hx%Id. unfold DRAIN_IDLE. lia.
Qed.

Lemma end_continuing k d t token hint :
  inv k d → dm_connections d !! t = Some (Continuing token hint) →
  inv k (with_connection t Released (drop_guard token d)).
Proof.
  intros Hinv Et. pose proof (inv_pending _ _ Hinv) as Hpe.
  eapply (inv_move _ d _ t _ Released); try done. simpl. by eapply drop_exact.
Qed.
Lemma continue_inv k d d' t r : inv k d → continue_step verifiers t r d = Some d' → inv k d'.
Proof.
  intros Hinv. unfold continue_step.
  destruct (dm_connections d !! t) as [[| | | |token hint|]|] eqn:Et; try done.
  destruct r as [|line w| |]; intros Hs; simplify_eq; try by eapply end_continuing.
  destruct (process_line _ _ _ _ _) as [[s h]|] eqn:El; simplify_eq;
    [|by eapply end_continuing].
  eapply (inv_move _ d _ t _ (Continuing token h)); try done. simpl.
  rewrite (line_keeps_pending _ _ _ _ _ _ El).
  apply pending_exact_same; [apply (inv_pending _ _ Hinv)|]. by rewrite Et.
Qed.

Lemma step_inv k e d d' :
  inv k d → (N.of_nat (S k) < 2 ^ 64)%N → step verifiers e d = Some d' → inv (S k) d'.
Proof.
  intros Hinv Hk. assert (inv k d' → inv (S k) d') as Hw by (apply inv_weaken; lia).
  destruct e as [| | |elapsed|t|t r|t|t r|t|t]; simpl.
  - unfold acquire. destruct (dm_accept d) eqn:Ea, (dm_permits d) as [|n] eqn:Ep; try done.
    intros [= <-]. apply Hw. destruct Hinv as [?????? Im ? ?]. split; try done. simpl.
    rewrite Ea, Ep in Im. simpl in Im. lia.
  - by apply accept_inv.
  - unfold accept_fails. destruct (dm_accept d) eqn:Ea; try done.
    intros [= <-]. apply Hw. destruct Hinv as [?????? Im ? ?]. split; try done. simpl.
    rewrite Ea in Im. simpl in Im. lia.
  - intros [= <-]. apply Hw. destruct Hinv as [???????? Id]. split; try done. simpl.
    intros t' dl h Hx%Id. lia.
  - unfold take_turn. destruct (dm_connections d !! t) as [[]|] eqn:Et; try done.
    case_decide as Hturn; [|done]. intros [= <-]. apply Hw.
    eapply (inv_move _ d _ t _ (Draining _ None)); try done; simpl.
    { intros ? ? [= <- <-]. done. }
    apply pending_exact_same; [apply (inv_pending _ _ Hinv)|]. by rewrite Et.
  - intros Hs. by eapply Hw, drain_inv.
  - unfold release_turn. destruct (dm_connections d !! t) as [[| | |token hint| |]|] eqn:Et;
      intros [= <-]; by eapply inv_release.
  - intros Hs. by eapply Hw, continue_inv.
  - unfold panic_step. destruct (dm_connections d !! t) as [[| | | |token hint|]|] eqn:Et;
      intros [= <-]; apply Hw; [|by eapply end_continuing].
    pose proof (inv_holder _ _ Hinv _ _ Et eq_refl) as Hturn.
    eapply (inv_move _ d _ t _ Ended); try done. simpl.
    apply pending_exact_same; [apply (inv_pending _ _ Hinv)|]. by rewrite Et.
  - intros Hs. by eapply Hw, finish_inv.
Qed.

Lemma start_inv s now : inv 0 (start s now).
Proof.
  split; simpl; [done|done|by intros t c|intros t; lia|by intros t c|by intros t c|done| |by intros t c].
  split; [intros sid|]; by vm_compute.
Qed.

Lemma run_inv es k d d' :
  inv k d → (N.of_nat (k + length es) < 2 ^ 64)%N → run verifiers es d = Some d' →
  inv (k + length es) d'.
Proof.
  revert k d. induction es as [|e es IH]; intros k d Hinv Hk; cbn [run length] in *.
  { intros [= <-]. by rewrite Nat.add_0_r. }
  intros (d1 & He & Hes)%bind_Some. rewrite <-Nat.add_succ_comm. eapply IH; [|lia|done].
  eapply step_inv; [done|lia|done].
Qed.
Lemma daemon_reachable_inv es s now d :
  (N.of_nat (length es) < 2 ^ 64)%N → run verifiers es (start s now) = Some d →
  inv (length es) d.
Proof. intros Hk Hr. by eapply (run_inv es 0); [apply start_inv|..]. Qed.

(** ** Order *)

(** The tickets of the lines read in a turn. *)
Definition drained (es : list Step) : list N :=
  omap (λ e, match e with StDrain t (ReadLine _ _) => Some t | _ => None end) es.

Lemma turn_monotone k e d d' :
  inv k d → (N.of_nat (S k) < 2 ^ 64)%N → step verifiers e d = Some d' →
  (dm_next_turn d ≤ dm_next_turn d')%N ∧
  ∀ t r, e = StDrain t r → t = dm_next_turn d.
Proof.
  intros Hinv Hk He. split.
  - revert He. destruct e; simpl; unfold acquire, accept, accept_fails, take_turn, drain_step,
      continue_step, panic_step, finish; repeat case_match; intros; simplify_eq/=; try done.
    unfold release_turn in *. assert (fetch_add_u64 (dm_next_turn d) = dm_next_turn d + 1)%N as Hf.
    { apply (fetch_add_small _ k); [|done]. destruct Hinv. lia. }
    repeat case_match; simplify_eq/=; lia.
  - intros t r ->. simpl in He. unfold drain_step in He.
    destruct (dm_connections d !! t) as [[]|] eqn:Et; try done.
    by eapply inv_holder.
Qed.

Lemma drained_sorted es k d d' :
  inv k d → (N.of_nat (k + length es) < 2 ^ 64)%N → run verifiers es d = Some d' →
  StronglySorted N.le (drained es) ∧ Forall (N.le (dm_next_turn d)) (drained es).
Proof.
  revert k d. induction es as [|e es IH]; intros k d Hinv Hk; cbn [run length] in *.
  { by repeat constructor. }
  intros (d1 & He & Hes)%bind_Some.
  assert (inv (S k) d1) as Hinv1 by (eapply step_inv; [done|lia|done]).
  destruct (turn_monotone k e d d1) as [Hle Ht]; [done|lia|done|].
  destruct (IH (S k) d1) as [Hs Hf]; [done|lia|done|].
  assert (Forall (N.le (dm_next_turn d)) (drained es)) as Hf'.
  { eapply Forall_impl; [exact Hf|]. simpl. lia. }
  unfold drained. simpl. fold (drained es).
  destruct e as [| | | | |t r| | | |]; try done. destruct r; try done.
  rewrite (Ht _ _ eq_refl). split; constructor; try done.
Qed.

(** ** Progress *)

Lemma run_app es1 es2 d : run verifiers (es1 ++ es2) d = run verifiers es1 d ≫= run verifiers es2.
Proof.
  revert d. induction es1 as [|e es1 IH]; intros d; [done|]. simpl.
  destruct (step verifiers e d); [|done]. simpl. apply IH.
Qed.

(** A silent connection: its reads only time out. *)
Definition silent (t : N) (e : Step) : Prop :=
  match e with
  | StTurn u | StReleaseTurn u | StDrain u ReadElapsed => (u ≤ t)%N
  | _ => False
  end.

(** Past the deadline the next iteration hands the connection off, whatever
    it reads. *)
Lemma deadline_forces_handoff t r d deadline hint :
  dm_connections d !! t = Some (Draining deadline hint) → (deadline ≤ dm_clock d)%Z →
  ∃ token d', drain_step verifiers t r d = Some d' ∧
    dm_connections d' = <[t := Registered token hint]> (dm_connections d) ∧
    dm_clock d' = dm_clock d ∧ dm_next_turn d' = dm_next_turn d ∧
    dm_next_ticket d' = dm_next_ticket d.
Proof.
  intros Ht Hdl. unfold drain_step. rewrite Ht, decide_True by lia.
  destruct (register_handoff hint _) as [token pending]. by exists token; eexists.
Qed.

Lemma timeouts_reach_deadline n t d deadline hint :
  dm_connections d !! t = Some (Draining deadline hint) →
  (deadline - dm_clock d ≤ DRAIN_IDLE * Z.of_nat n)%Z →
  ∃ m d', m ≤ n ∧ run verifiers (replicate m (StDrain t ReadElapsed)) d = Some d' ∧
    d' = with_clock (Z.max (dm_clock d) deadline) d.
Proof.
  revert d. induction n as [|n IH]; intros d Ht Hr.
  { exists 0, d. split_and!; [lia|done|]. rewrite Z.max_l by lia. by destruct d. }
  destruct (decide (deadline ≤ dm_clock d)%Z) as [Hle|Hgt].
  { exists 0, d. split_and!; [lia|done|]. rewrite Z.max_l by lia. by destruct d. }
  set (wait := Z.min DRAIN_IDLE (Z.max 0 (deadline - dm_clock d))).
  set (d1 := with_clock (dm_clock d + wait) d).
  destruct (IH d1) as (m & d' & Hm & Hrun & Hd'); [done|unfold d1, wait, DRAIN_IDLE in *; simpl; lia|].
  exists (S m), d'. split_and!; [lia| |].
  - simpl. unfold drain_step at 1. rewrite Ht, decide_False by lia. simpl. done.
  - rewrite Hd'. unfold d1, with_clock. simpl. f_equal. unfold wait, DRAIN_IDLE. lia.
Qed.

(** Whoever holds the turn gives it up within the budget without its client's
    help, and nothing else changes place. *)
Record turn_passed (d d' : Daemon) : Prop := mkTurnPassed {
  tp_turn : dm_next_turn d' = fetch_add_u64 (dm_next_turn d);
  tp_ticket : dm_next_ticket d' = dm_next_ticket d;
  tp_others u : u ≠ dm_next_turn d → dm_connections d' !! u = dm_connections d !! u;
  tp_clock : (dm_clock d ≤ dm_clock d' ≤ dm_clock d + DRAIN_READ_BUDGET)%Z;
}.
Lemma release_passes t d c :
  dm_connections d !! t = Some c → t = dm_next_turn d →
  (c = Ended ∨ ∃ token hint, c = Registered token hint) →
  ∃ d', step verifiers (StReleaseTurn t) d = Some d' ∧ turn_passed d d'.
Proof.
  intros Ht Hturn Hc. simpl. unfold release_turn. rewrite Ht.
  destruct Hc as [->|(token & hint & ->)];
    (eexists; split; [done|]); split; simpl; try done;
    try (intros u Hu; rewrite lookup_insert_ne by congruence; done); unfold DRAIN_READ_BUDGET; lia.
Qed.
Lemma holder_passes k t d c :
  inv k d → dm_connections d !! t = Some c → holds c = true →
  ∃ es d', length es ≤ 6 ∧ Forall (silent t) es ∧ run verifiers es d = Some d' ∧ turn_passed d d'.
Proof.
  intros Hinv Ht Hc. pose proof (inv_holder _ _ Hinv _ _ Ht Hc) as Hturn.
  assert ((c = Ended ∨ ∃ token hint, c = Registered token hint) ∨
    ∃ deadline hint, c = Draining deadline hint) as [Hrel|(deadline & hint & ->)]
    by (destruct c; naive_solver).
  { destruct (release_passes t d c) as (d' & Hs & Hp); [done..|].
    exists [StReleaseTurn t], d'. split_and!; simpl; [lia| |by simpl in Hs; rewrite Hs|done].
    apply Forall_singleton. simpl. lia. }
  pose proof (inv_deadline _ _ Hinv _ _ _ Ht) as Hdl.
  destruct (timeouts_reach_deadline 4 t d deadline hint) as (m & d1 & Hm & Hrun & Hd1);
    [done|unfold DRAIN_READ_BUDGET, DRAIN_IDLE in *; lia|].
  destruct (deadline_forces_handoff t ReadElapsed d1 deadline hint)
    as (token & d2 & Hs2 & Hc2 & Hcl2 & Htn2 & Htk2); [by subst|subst; simpl; lia|].
  destruct (release_passes t d2 (Registered token hint)) as (d3 & Hs3 & [P1 P2 P3 P4]);
    [by rewrite Hc2, lookup_insert_eq|subst; simpl in *; congruence|by eauto|].
  exists (replicate m (StDrain t ReadElapsed) ++ [StDrain t ReadElapsed; StReleaseTurn t]), d3.
  split_and!.
  - rewrite length_app, length_replicate. simpl. lia.
  - apply Forall_app. split; [apply Forall_replicate; simpl; lia|].
    repeat (apply Forall_cons; split); simpl; [lia|lia|done].
  - rewrite run_app, Hrun. cbn [mbind option_bind run step]. rewrite Hs2. cbn [mbind option_bind].
    simpl in Hs3. by rewrite Hs3.
  - subst d1. simpl in *. split.
    + congruence.
    + congruence.
    + intros u Hu. rewrite P3 by congruence. rewrite Hc2. by rewrite lookup_insert_ne by congruence.
    + rewrite Hcl2 in P4. unfold DRAIN_READ_BUDGET in *.
      clear -P4 Hdl Hs3 Hc2 Hcl2. revert Hs3. unfold release_turn. rewrite Hc2, lookup_insert_eq.
      intros [= <-]. simpl in *. rewrite Hcl2. lia.
Qed.

Lemma take_turn_drains d t :
  dm_connections d !! t = Some Waiting → dm_next_turn d = t →
  step verifiers (StTurn t) d =
    Some (with_connection t (Draining (dm_clock d + DRAIN_READ_BUDGET) None) d).
Proof. intros Ht <-. simpl. unfold take_turn. by rewrite Ht, decide_True. Qed.

(** The turn moves on from whatever connection it is at. *)
Lemma turn_moves_on k d :
  inv k d → (N.of_nat (k + 7) < 2 ^ 64)%N → (dm_next_turn d < dm_next_ticket d)%N →
  ∃ es d', length es ≤ 7 ∧ Forall (silent (dm_next_turn d)) es ∧
    run verifiers es d = Some d' ∧ turn_passed d d'.
Proof.
  intros Hinv Hk Hlt. set (u := dm_next_turn d).
  destruct (inv_queued _ _ Hinv u) as (c & Hc & Hp); [lia|].
  destruct (holds c) eqn:Hh.
  { destruct (holder_passes k u d c) as (es & d' & ? & ? & ? & ?); [done..|].
    exists es, d'. split_and!; [lia|done..]. }
  assert (c = Waiting) as -> by by destruct c.
  pose proof (take_turn_drains d u Hc eq_refl) as Hs.
  set (d1 := with_connection u _ d) in Hs.
  assert (inv (S k) d1) as Hinv1 by (eapply step_inv; [done|lia|done]).
  destruct (holder_passes (S k) u d1 (Draining (dm_clock d + DRAIN_READ_BUDGET) None))
    as (es & d' & Hl & Hsil & Hrun & [P1 P2 P3 P4]); [done| |done|].
  { by unfold d1; simpl; rewrite lookup_insert_eq. }
  exists (StTurn u :: es), d'. split_and!.
  - simpl. lia.
  - apply Forall_cons. split; [simpl; lia|done].
  - cbn [run]. by rewrite Hs.
  - split; [done|done| |done]. intros v Hv. rewrite P3 by done. simpl.
    by rewrite lookup_insert_ne by done.
Qed.

Lemma waiting_reaches_turn n k d t :
  inv k d → N.to_nat (t - dm_next_turn d) = n → (N.of_nat (k + 7 * n + 1) < 2 ^ 64)%N →
  dm_connections d !! t = Some Waiting →
  ∃ es d', length es ≤ 7 * n + 1 ∧ Forall (silent t) es ∧ run verifiers es d = Some d' ∧
    dm_connections d' !! t = Some (Draining (dm_clock d' + DRAIN_READ_BUDGET) None) ∧
    (dm_clock d' ≤ dm_clock d + DRAIN_READ_BUDGET * Z.of_nat n)%Z.
Proof.
  revert k d. induction n as [|n IH]; intros k d Hinv Hn Hk Ht.
  all: pose proof (inv_known _ _ Hinv _ _ Ht) as Hkn.
  all: assert (dm_next_turn d ≤ t)%N as Hge
         by (destruct (decide (t < dm_next_turn d)%N) as [Hlt|]; [|lia];
             by apply (inv_past _ _ Hinv _ _ Ht) in Hlt).
  - assert (dm_next_turn d = t) as Hturn by lia.
    eexists [StTurn t], _. split_and!; [done| | | |].
    + apply Forall_singleton. simpl. lia.
    + cbn [run]. by rewrite (take_turn_drains d t Ht Hturn).
    + simpl. by rewrite lookup_insert_eq.
    + simpl. lia.
  - destruct (turn_moves_on k d) as (es & d1 & Hl & Hsil & Hrun & [P1 P2 P3 P4]); [done|lia|lia|].
    rewrite (fetch_add_small _ k) in P1 by (destruct Hinv; lia).
    assert (inv (k + 7) d1) as Hinv1.
    { eapply (inv_weaken (k + length es)); [lia|]. eapply run_inv; [done|lia|done]. }
    destruct (IH (k + 7) d1) as (es' & d' & Hl' & Hsil' & Hrun' & Ht' & Hcl'); [done|lia|lia| |].
    { rewrite P3; [done|lia]. }
    exists (es ++ es'), d'. split_and!.
    + rewrite length_app. lia.
    + apply Forall_app. split; [|done]. eapply Forall_impl; [exact Hsil|].
      intros [| | | | |? []| | | |]; simpl; lia.
    + by rewrite run_app, Hrun.
    + done.
    + unfold DRAIN_READ_BUDGET in *. lia.
Qed.

(** ** What the store and the caches keep *)

Lemma app_frame e d d' :
  step verifiers e d = Some d' →
  event_db (dm_app d') = event_db (dm_app d) ∧ ap_caps (dm_app d') = ap_caps (dm_app d) ∨
  ∃ t line w h h', (e = StDrain t (ReadLine line w) ∨ e = StContinue t (ReadLine line w)) ∧
    process_line verifiers w line (dm_app d) h = Some (dm_app d', h').
Proof.
  intros He. destruct e as [| | |elapsed|t|t r|t|t r|t|t]; simpl in He;
    unfold acquire, accept, accept_fails, take_turn, drain_step, release_turn, continue_step,
      panic_step, finish in He; repeat case_match; simplify_eq/=; eauto;
    right; by eauto 10.
Qed.

Lemma step_redacted e d d' :
  step verifiers e d = Some d' → redacted (event_db (dm_app d)) → redacted (event_db (dm_app d')).
Proof.
  intros [[-> _]|(t & line & w & h & h' & _ & Hl)]%app_frame; [done|].
  by apply process_line_spec in Hl as (_ & ? & _).
Qed.
Lemma step_caps e d d' sid c :
  step verifiers e d = Some d' → ap_caps (dm_app d) !! sid = Some c →
  ∃ c', ap_caps (dm_app d') !! sid = Some c' ∧ rc_provider c' = rc_provider c.
Proof.
  intros [[_ ->]|(t & line & w & h & h' & _ & Hl)]%app_frame Hc; [by eauto|].
  apply process_line_spec in Hl as (Hf & _). by eapply lf_caps.
Qed.
Lemma run_keeps es d d' :
  run verifiers es d = Some d' →
  (redacted (event_db (dm_app d)) → redacted (event_db (dm_app d'))) ∧
  ∀ sid c, ap_caps (dm_app d) !! sid = Some c →
    ∃ c', ap_caps (dm_app d') !! sid = Some c' ∧ rc_provider c' = rc_provider c.
Proof.
  revert d. induction es as [|e es IH]; intros d; cbn [run].
  { intros [= <-]. split; [done|by eauto]. }
  intros (d1 & He & [Hr Hc]%IH)%bind_Some. split.
  - intros. by eapply Hr, step_redacted.
  - intros sid c (c1 & Hc1 & Hp1)%(step_caps _ _ _ _ _ He).
    apply Hc in Hc1 as (c2 & ? & ?). exists c2. split; congruence.
Qed.

(** ** Definite verdicts *)

(** A connection whose evidence a claim of [session] need not wait for. *)
Definition settled_for (session : string) (c : Connection) : Prop :=
  c = Released ∨ ∃ sid hint, c = Continuing (TokenSession sid) hint ∧ sid ≠ session.

Lemma definite_step k e d d' id row :
  inv k d → step verifiers e d = Some d' →
  t_findings (event_db (dm_app d')) !! id = Some row → definite (frow_verdict row) →
  t_findings (event_db (dm_app d)) !! id ≠ Some row →
  ∃ t line w c, (e = StDrain t (ReadLine line w) ∨ e = StContinue t (ReadLine line w)) ∧
    message_from_str line = Ok (MsgClaim c) ∧
    (∀ u x, dm_connections d !! u = Some x → (u < t)%N → settled_for (claim_session_id c) x) ∧
    (∀ u x, dm_connections d !! u = Some x → token_of x ≠ Some TokenUnknown ∧
       token_of x ≠ Some (TokenSession (claim_session_id c))).
Proof.
  intros Hinv He Hid Hd Hnew.
  destruct (app_frame _ _ _ He) as [[Heq _]|(t & line & w & h & h' & Hev & Hl)]; [by rewrite Heq in Hid|].
  apply process_line_spec in Hl as (_ & _ & Hdef).
  destruct (Hdef id row Hid Hd) as [?|(c & Hm & Hinc)]; [done|].
  assert (∀ u x, dm_connections d !! u = Some x → token_of x ≠ Some TokenUnknown ∧
    token_of x ≠ Some (TokenSession (claim_session_id c))) as Htok.
  { intros u x Hx. apply not_true_iff_false in Hinc.
    rewrite (incomplete_iff _ _ _ (inv_pending _ _ Hinv)) in Hinc. naive_solver. }
  exists t, line, w, c. split_and!; [done..| |done]. intros u x Hx Hlt.
  assert (past x = true) as Hp.
  { apply (inv_past _ _ Hinv _ _ Hx). destruct Hev as [-> | ->]; simpl in He.
    - unfold drain_step in He. destruct (dm_connections d !! t) as [[]|] eqn:Et; try done.
      by rewrite <-(inv_holder _ _ Hinv _ _ Et eq_refl).
    - unfold continue_step in He. destruct (dm_connections d !! t) as [y|] eqn:Et; [|done].
      assert (past y = true) by by destruct y.
      destruct (decide (u < dm_next_turn d)%N) as [|Hge]; [done|].
      destruct (inv_queued _ _ Hinv t) as (z & Hz & Hpz); [|by simplify_eq; congruence].
      split; [lia|by eapply inv_known]. }
  destruct (Htok u x Hx) as [Hu Hs]. destruct x as [| | | |[sid|] hint|]; try done; [right|by left].
  exists sid, hint. split; [done|]. intros ->. done.
Qed.

(** ** Properties *)

(** C6. A definite verdict has seen all earlier evidence: in every
    interleaving of the daemon's ingest tasks, a step that stores a verified
    or contradicted finding is the processing of a claim's line, and at that
    moment every connection accepted before the claim's own has ended, or was
    handed off while it was ingesting for a known other session; and no open
    connection at all is handed off for the claim's session or for a session
    that is not known yet. *)
Theorem definite_verdicts_wait_for_evidence es s now d e d' id row :
  (N.of_nat (length es) < 2 ^ 64)%N → run verifiers es (start s now) = Some d →
  step verifiers e d = Some d' →
  t_findings (event_db (dm_app d')) !! id = Some row → definite (frow_verdict row) →
  t_findings (event_db (dm_app d)) !! id ≠ Some row →
  ∃ t line w c, (e = StDrain t (ReadLine line w) ∨ e = StContinue t (ReadLine line w)) ∧
    message_from_str line = Ok (MsgClaim c) ∧
    (∀ u x, dm_connections d !! u = Some x → (u < t)%N → settled_for (claim_session_id c) x) ∧
    (∀ u x, dm_connections d !! u = Some x → token_of x ≠ Some TokenUnknown ∧
       token_of x ≠ Some (TokenSession (claim_session_id c))).
Proof. intros Hk Hr. eapply definite_step, daemon_reachable_inv; done. Qed.

(** The turnstile's invariant: in every interleaving, a connection that
    drains or is about to give up its turn is the one whose ticket is being
    served, so there is at most one; the tickets from the served one up to
    the next to be given out are exactly the connections that have not given
    up their turn, so no turn is lost, whether a task ended, failed or
    panicked; at most 256 connections are open; a claim of a session is
    evaluated as possibly incomplete exactly while an open connection is
    handed off for that session or for an unknown one; and the lines read in
    a turn are processed in the order their connections were accepted. *)
Theorem turnstile_invariant es s now d :
  (N.of_nat (length es) < 2 ^ 64)%N → run verifiers es (start s now) = Some d →
  (∀ t c, dm_connections d !! t = Some c → holds c = true → t = dm_next_turn d) ∧
  (∀ t, (dm_next_turn d ≤ t < dm_next_ticket d)%N ↔
     ∃ c, dm_connections d !! t = Some c ∧ past c = false) ∧
  size (dm_connections d) ≤ MAX_INFLIGHT_CONNECTIONS ∧
  (∀ sid, evidence_may_be_incomplete_for (ap_pending (dm_app d)) sid = true ↔
     ∃ t c, dm_connections d !! t = Some c ∧
       (token_of c = Some (TokenSession sid) ∨ token_of c = Some TokenUnknown)) ∧
  StronglySorted N.le (drained es).
Proof.
  intros Hk Hr. pose proof (daemon_reachable_inv _ _ _ _ Hk Hr) as Hinv. split_and!.
  - apply Hinv.
  - intros t. split; [apply Hinv|]. intros (c & Hc & Hp). split; [|by eapply inv_known].
    destruct (decide (t < dm_next_turn d)%N) as [Hlt|]; [|lia].
    apply (inv_past _ _ Hinv _ _ Hc) in Hlt. congruence.
  - pose proof (inv_permits _ _ Hinv). lia.
  - intros sid. by apply incomplete_iff, Hinv.
  - by eapply drained_sorted; [apply start_inv|..].
Qed.

(** C12. No connection starves another: in any reachable state, a waiting
    connection with [n] others before it can be brought to its turn by at
    most [7 * n + 1] steps, within [n] seconds of drain time, even if every
    client before it stays silent: the steps needed are taken turns, read
    timeouts and released turns alone. *)
Theorem every_turn_comes es s now d t n :
  run verifiers es (start s now) = Some d → dm_connections d !! t = Some Waiting →
  N.to_nat (t - dm_next_turn d) = n → (N.of_nat (length es + 7 * n + 1) < 2 ^ 64)%N →
  ∃ es' d', length es' ≤ 7 * n + 1 ∧ Forall (silent t) es' ∧ run verifiers es' d = Some d' ∧
    dm_connections d' !! t = Some (Draining (dm_clock d' + DRAIN_READ_BUDGET) None) ∧
    (dm_clock d' ≤ dm_clock d + DRAIN_READ_BUDGET * Z.of_nat n)%Z.
Proof.
  intros Hr Ht Hn Hk. apply (waiting_reaches_turn n (length es)); [|done..].
  eapply daemon_reachable_inv; [lia|done].
Qed.

(** C17. The columns that hold contents stay redacted: on a store where they
    are, every interleaving of ingest leaves them so. No secret detector reports
    anything in a string value of the tool input, tool response or raw payload
    of a stored event, of the payload or extension of stored evidence, or in the
    text of a stored claim; keys, tool names, subjects and provenance texts are
    stored as sent. And once a session's capabilities are cached, whatever is
    ingested afterwards, the cached ones stay those of the provider that
    announced them first. *)
Theorem ingest_keeps_redaction earlier es s now d d' :
  run verifiers earlier (start s now) = Some d → run verifiers es d = Some d' →
  (redacted (event_db s) → redacted (event_db (dm_app d'))) ∧
  ∀ sid c, ap_caps (dm_app d) !! sid = Some c →
    ∃ c', ap_caps (dm_app d') !! sid = Some c' ∧ rc_provider c' = rc_provider c.
Proof. intros [Hr1 _]%run_keeps [Hr2 Hc]%run_keeps. auto. Qed.
End steps.
