(* ===== verification/IngestExamples.v ===== *)
(** * Ingest on concrete connections

    Two hooks of a session, one that sends the exit code of a test run and
    one that claims the tests passed; the same with the first one left open
    past its budget; a panic; and lines that cannot be processed. The runs
    witness the theorems on ingest. *)

From S2P Require Import Prelude.
From S2P Require Import Types.
From S2P Require Import Text.
From S2P Require Import Projection.
From S2P Require Import PolicyContent.
From S2P Require Import PolicyRevision.
From S2P Require Import PolicyBundle.
From S2P Require Import PolicyCache.
From S2P Require Import PolicyStore.
From S2P Require Import PolicyStoreExamples.
From S2P Require Import EventStore.
From S2P Require Import EventRead.
From S2P Require Import RetentionExamples.
From S2P Require Import Admission.
From S2P Require Import Consumption.
From S2P Require Import AdmissionExamples.
From S2P Require Import Capabilities.
From S2P Require Import Ingest.
From S2P Require Import IngestSpec.
From S2P Require Import Turnstile.
From S2P Require Import TurnstileSpec.

Local Open Scope fornax_scope.

#[local] Existing Instances store_chrono store_chrono_from_str store_digest store_wire
  admission_json admission_uuid admission_scan.

(** ** The libraries, concretely *)

#[local] Instance caps_json : CapabilityJson := {
  notes_to_json n := bits_of (countable.encode (map_to_list n));
  notes_from_json s := list_to_map <$> countable.decode (A := list (string * string)) (of_bits s);
  signals_to_json _ := "[]";
  signals_from_json s := if decide (s = "[]") then Some [] else None;
}.
#[local] Instance quarantine_documents : QuarantineRows := {
  row_document r :=
    bits_of (countable.encode
      (ql_id r, ql_received_at r, ql_reason_kind r, ql_reason r, ql_raw_line r));
  row_of_document s :=
    (λ x : string * string * string * string * string,
       let '(id, received_at, kind, reason, raw) := x in
       mkQuarantinedLine id received_at kind reason raw) <$> countable.decode (of_bits s);
}.
#[local] Instance quarantine_documents_ok : QuarantineRowsOk.
Proof. intros []. simpl. by rewrite of_bits_of, countable.decode_encode. Qed.

Definition announcement : RuntimeCapabilities :=
  mkRuntimeCapabilities 1 ClaudeCode [] {[ "session_id" := "s" ]}.
Definition unlinked_evidence : Evidence :=
  mkEvidence 12 "s" 99 ExitCode "day 0" JNull "hook" (Some bash_source) None false.
Definition other_event : AgentEvent :=
  mkAgentEvent 3 "other" OpenCode SessionStart "day 0" None None None JNull.
(** Another event under the id of the first one. *)
Definition altered_event : AgentEvent :=
  mkAgentEvent 1 "s" ClaudeCode SessionStart "day 0" None None None (JString "tool output").
#[local] Instance ingest_wire : IngestWire := {
  message_from_str line :=
    if decide (line = "event") then Ok (MsgEvent (host_event 1))
    else if decide (line = "evidence") then Ok (MsgEvidence exit_evidence)
    else if decide (line = "unlinked evidence") then Ok (MsgEvidence unlinked_evidence)
    else if decide (line = "capabilities") then Ok (MsgCapabilities announcement)
    else if decide (line = "claim") then Ok (MsgClaim first_claim)
    else if decide (line = "other event") then Ok (MsgEvent other_event)
    else if decide (line = "altered event") then Ok (MsgEvent altered_event)
    else if decide (line = "bundle") then Ok (MsgPolicyBundle "a bundle")
    else Err "expected value";
  store_error_text e := match e with StoreDb => "database error" | _ => "refused" end;
}.

Definition line_world (n : string) : LineWorld :=
  mkLineWorld Commits "day 1" 5 calm_world Commits n "day 1".
Definition empty_snapshot : PolicyCacheSnapshot :=
  mkPolicyCacheSnapshot (mkPolicyCacheState 1 None None None ∅ false (mkRevocationSet ∅ ∅ ∅ 0)) []
    None [] None None.
Definition fresh_app : AppState :=
  mkAppState (mkAdmissionDb empty_event_db []) ∅ empty_db ∅ no_handoff None empty_snapshot.

Definition daemon_run (es : list Step) : option Daemon :=
  run [exit_verifier] es (start fresh_app 0).
Definition daemon_after (es : list Step) : Daemon := default (start fresh_app 0) (daemon_run es).
Definition reads (t : N) (lines : list string) : list Step :=
  (λ line, StDrain t (ReadLine line (line_world line))) <$> lines.

(** ** A claim after the evidence *)

Definition accepted_two : list Step := [StAcquire; StAccept; StAcquire; StAccept; StTurn 0].
Definition settled_steps : list Step :=
  accepted_two ++ reads 0 ["event"; "capabilities"; "evidence"] ++
  [StDrain 0 ReadEof; StReleaseTurn 0; StFinish 0; StTurn 1].
Definition claim_step : Step := StDrain 1 (ReadLine "claim" (line_world "claim")).

Definition verdicts_after (es : list Step) : list string :=
  frow_verdict <$> (map_to_list (t_findings (event_db (dm_app (daemon_after es))))).*2.

Example settled_verdict : verdicts_after (settled_steps ++ [claim_step]) = ["verified"].
Proof. vm_compute. done. Qed.

(** The same with the first connection left open: its reads time out until
    it is handed off, and the claim is only up for review. *)
Definition handed_off_steps : list Step :=
  accepted_two ++ reads 0 ["event"; "capabilities"; "evidence"] ++
  replicate 5 (StDrain 0 ReadElapsed) ++ [StReleaseTurn 0; StTurn 1].
Example handed_off_verdict :
  dm_connections (daemon_after handed_off_steps) !! 0%N =
    Some (Continuing (TokenSession "s") (Some "s")) ∧
  verdicts_after (handed_off_steps ++ [claim_step]) = ["review"] ∧
  verdicts_after (handed_off_steps ++ [StContinue 0 ReadEof; claim_step]) = ["verified"].
Proof. vm_compute. done. Qed.

(** A hand-off is marked with the session of the last line before it, and
    stays so: a bridge that goes on to ingest for another session is not
    waited for by the claims of that one. *)
Definition bridge_steps : list Step :=
  accepted_two ++ reads 0 ["other event"] ++ replicate 5 (StDrain 0 ReadElapsed) ++
  [StReleaseTurn 0; StTurn 1] ++
  ((λ line, StContinue 0 (ReadLine line (line_world line))) <$> ["event"; "capabilities"; "evidence"]).
Example later_session_is_not_marked :
  dm_connections (daemon_after bridge_steps) !! 0%N =
    Some (Continuing (TokenSession "other") (Some "s")) ∧
  verdicts_after (bridge_steps ++ [claim_step]) = ["verified"].
Proof. vm_compute. done. Qed.

(** A panic does not lose the turn. *)
Example panic_releases_turn :
  dm_connections (daemon_after (accepted_two ++ [StPanic 0; StReleaseTurn 0; StTurn 1])) !! 1%N =
    Some (Draining 1000 None).
Proof. vm_compute. done. Qed.

(** Lines that cannot be processed. *)
Example quarantined_lines :
  let d := daemon_after (accepted_two ++ reads 0 ["nonsense"; "unlinked evidence"; " "]) in
  ql_raw_line <$> quarantine_rows (event_db (dm_app d)) !! "nonsense" = Some "nonsense" ∧
  ql_raw_line <$> quarantine_rows (event_db (dm_app d)) !! "unlinked evidence" =
    Some "unlinked evidence" ∧
  quarantine_count (event_db (dm_app d)) = 2.
Proof. vm_compute. done. Qed.

(** ** Witnesses *)

Definition verified_row : FindingsRow :=
  mkFindingsRow (uuid_to_string 20) "verified" (uuids_to_json [10%N]) "test_result" "exit 0"
    "day 1".

Lemma definite_verdicts_wait_for_evidence_witness :
  ∃ t line w c, (claim_step = StDrain t (ReadLine line w) ∨ claim_step = StContinue t (ReadLine line w)) ∧
    message_from_str line = Ok (MsgClaim c) ∧
    (∀ u x, dm_connections (daemon_after settled_steps) !! u = Some x → (u < t)%N →
       settled_for (claim_session_id c) x) ∧
    (∀ u x, dm_connections (daemon_after settled_steps) !! u = Some x →
       token_of x ≠ Some TokenUnknown ∧ token_of x ≠ Some (TokenSession (claim_session_id c))).
Proof.
  apply (definite_verdicts_wait_for_evidence [exit_verifier] settled_steps fresh_app 0
           (daemon_after settled_steps) claim_step (daemon_after (settled_steps ++ [claim_step]))
           (uuid_to_string 50) verified_row).
  - vm_compute. reflexivity.
  - vm_compute. reflexivity.
  - vm_compute. reflexivity.
  - vm_compute. reflexivity.
  - left. reflexivity.
  - vm_compute. discriminate.
Defined.

Lemma turnstile_invariant_witness :
  evidence_may_be_incomplete_for (ap_pending (dm_app (daemon_after handed_off_steps))) "s" = true ∧
  (∀ sid, evidence_may_be_incomplete_for (ap_pending (dm_app (daemon_after handed_off_steps))) sid = true ↔
     ∃ t c, dm_connections (daemon_after handed_off_steps) !! t = Some c ∧
       (token_of c = Some (TokenSession sid) ∨ token_of c = Some TokenUnknown)).
Proof.
  split; [vm_compute; reflexivity|].
  apply (turnstile_invariant [exit_verifier] handed_off_steps fresh_app 0
           (daemon_after handed_off_steps)); vm_compute; reflexivity.
Defined.

Lemma every_turn_comes_witness :
  dm_connections (daemon_after accepted_two) !! 1%N = Some Waiting ∧
  ∃ es' d', length es' ≤ 8 ∧ Forall (silent 1) es' ∧
    run [exit_verifier] es' (daemon_after accepted_two) = Some d' ∧
    dm_connections d' !! 1%N = Some (Draining (dm_clock d' + DRAIN_READ_BUDGET) None) ∧
    (dm_clock d' ≤ dm_clock (daemon_after accepted_two) + DRAIN_READ_BUDGET * Z.of_nat 1)%Z.
Proof.
  split; [vm_compute; reflexivity|].
  apply (every_turn_comes [exit_verifier] accepted_two fresh_app 0 (daemon_after accepted_two) 1 1);
    vm_compute; reflexivity.
Defined.

Lemma ingest_keeps_redaction_witness :
  redacted (event_db (dm_app (daemon_after (settled_steps ++ [claim_step])))) ∧
  ∃ c, ap_caps (dm_app (daemon_after (settled_steps ++ [claim_step]))) !! "s" = Some c ∧
       rc_provider c = ClaudeCode.
Proof.
  destruct (ingest_keeps_redaction [exit_verifier] settled_steps [claim_step] fresh_app 0
    (daemon_after settled_steps) (daemon_after (settled_steps ++ [claim_step]))) as [Hr Hc].
  - vm_compute. reflexivity.
  - vm_compute. reflexivity.
  - split.
    + apply Hr. split; intros id r Hr'; vm_compute in Hr'; discriminate.
    + apply (Hc "s" announcement). vm_compute. reflexivity.
Defined.

Definition app_after (lines : list string) : AppState :=
  foldl (λ s line, match process_line [exit_verifier] (line_world line) line s None with
                   | Some (s', _) => s' | None => s end) fresh_app lines.

(** An event that clashes with a stored one: what is kept of it names it. *)
Lemma every_line_is_accounted_for_witness :
  line_fate (line_world "altered event") "altered event" None (app_after ["event"])
    (app_after ["event"; "altered event"]) ∧
  ql_raw_line <$> quarantine_rows (event_db (app_after ["event"; "altered event"]))
                    !! "altered event" =
    Some ("id_collision: table=agent_events id=" +:+ uuid_to_string 1 +:+ " session=s").
Proof.
  split; [|vm_compute; reflexivity].
  apply (every_line_is_accounted_for [exit_verifier] (line_world "altered event") "altered event"
           (app_after ["event"]) None (app_after ["event"; "altered event"]) (Some "s")).
  - reflexivity.
  - vm_compute. reflexivity.
  - vm_compute. reflexivity.
Defined.
