(* ===== verification/TestOutput.v ===== *)
(** * Test-run summaries

    [fornax-types/src/test_output.rs]: the reading of a test runner's final
    summary from a command's output, pytest's last line or cargo's result
    lines, and its attachment to the payload of exit-code evidence, from which
    the verifiers read it ([Verifiers.execution_proven]). Counts are [u64]:
    a sum that does not fit gives no summary. *)

From S2P Require Import Prelude.
From S2P Require Import Types.
From S2P Require Import Text.
From S2P Require Import Projection.
From S2P Require Import AuditLedger.
From S2P Require Import ExecutionIdentity.
From S2P Require Import EventStore.
From S2P Require Import Shell.
From S2P Require Import Runner.
From S2P Require Import Consumption.
From S2P Require Import Verifiers.

Local Open Scope fornax_scope.

Inductive SummaryFormat := FormatPytest | FormatCargo.
Definition format_as_str (f : SummaryFormat) : string :=
  match f with FormatPytest => "pytest" | FormatCargo => "cargo" end.
Record TestSummary := mkTestSummary {
  ts_format : SummaryFormat;
  ts_passed : Z;
  ts_failed : Z;
}.

(** The fields of the JSON object in the order of its keys. *)
Definition summary_to_json (s : TestSummary) : Value :=
  JObject [("failed", JInt (ts_failed s)); ("format", JString (format_as_str (ts_format s)));
           ("passed", JInt (ts_passed s))].

(** ** Strings *)

(** [str::split] on a string that is not empty. *)
Fixpoint split_str_go (sep : Chars) (skip : nat) (cur cs : Chars) : list Chars :=
  match cs with
  | [] => [cur]
  | c :: rest =>
      match skip with
      | S skip => split_str_go sep skip cur rest
      | 0 =>
          if starts_with sep cs then cur :: split_str_go sep (length sep - 1) [] rest
          else split_str_go sep 0 (cur ++ [c]) rest
      end
  end.
Definition split_str (sep cs : Chars) : list Chars := split_str_go sep 0 [] cs.
(** [str::split] on a set of characters. *)
Fixpoint split_any (seps : Chars) (cur cs : Chars) : list Chars :=
  match cs with
  | [] => [cur]
  | c :: rest =>
      if bool_decide (c ∈ seps) then cur :: split_any seps [] rest
      else split_any seps (cur ++ [c]) rest
  end.
(** [str::split_once] and [str::rsplit_once]. *)
Fixpoint split_once (sep cs : Chars) : option (Chars * Chars) :=
  if starts_with sep cs then Some ([], drop (length sep) cs)
  else
    match cs with
    | [] => None
    | c :: rest => (λ x, (c :: x.1, x.2)) <$> split_once sep rest
    end.
Fixpoint rsplit_once (sep cs : Chars) : option (Chars * Chars) :=
  match cs with
  | [] => None
  | c :: rest =>
      match rsplit_once sep rest with
      | Some (a, b) => Some (c :: a, b)
      | None => if starts_with sep cs then Some ([], drop (length sep) cs) else None
      end
  end.
(** [str::trim_matches]. *)
Fixpoint trim_start_by (P : Char → bool) (cs : Chars) : Chars :=
  match cs with
  | c :: rest => if P c then trim_start_by P rest else cs
  | [] => []
  end.
Definition trim_matches (P : Char → bool) (cs : Chars) : Chars :=
  reverse (trim_start_by P (reverse (trim_start_by P cs))).

Definition u64_bound : Z := 2 ^ 64.
Definition checked_add (a b : Z) : option Z :=
  if decide (a + b < u64_bound)%Z then Some (a + b)%Z else None.

Definition digit_value (c : Char) : Z := Z.of_N c - 48.
Definition digits_value (cs : Chars) : Z := foldl (λ acc c, acc * 10 + digit_value c)%Z 0%Z cs.
Definition count (text : Chars) : option Z :=
  if bool_decide (text = []) || negb (forallb is_ascii_digit text) then None
  else if decide (digits_value text < u64_bound)%Z then Some (digits_value text) else None.

(** [ESC \[ params final]: the state of the loop is where in a sequence it is. *)
Inductive AnsiState := AnsiText | AnsiEscape | AnsiParams.
Fixpoint strip_ansi_go (st : AnsiState) (cs : Chars) : Chars :=
  match cs with
  | [] => []
  | c :: rest =>
      let text :=
        if decide (c = 27%N) then strip_ansi_go AnsiEscape rest
        else c :: strip_ansi_go AnsiText rest in
      match st with
      | AnsiText => text
      | AnsiEscape => if decide (c = 91%N) then strip_ansi_go AnsiParams rest else text
      | AnsiParams =>
          strip_ansi_go (if bool_decide (64 ≤ c ≤ 126)%N then AnsiText else AnsiParams) rest
      end
  end.
Definition strip_ansi (cs : Chars) : Chars := strip_ansi_go AnsiText cs.

(** ** pytest *)

Definition PYTEST_FAILURES : list string := ["failed"; "error"; "errors"].
Definition PYTEST_OTHERS : list string :=
  ["skipped"; "deselected"; "xfailed"; "xpassed"; "warning"; "warnings"; "rerun"].
Fixpoint pytest_counts (parts : list Chars) (passed failed : Z) : option (Z * Z) :=
  match parts with
  | [] => Some (passed, failed)
  | part :: parts =>
      '(n, word) ← split_once [SPACE] part;
      n ← count n;
      if bool_decide (word = chars "passed") then
        passed ← checked_add passed n; pytest_counts parts passed failed
      else if existsb (λ w, bool_decide (word = chars w)) PYTEST_FAILURES then
        failed ← checked_add failed n; pytest_counts parts passed failed
      else if existsb (λ w, bool_decide (word = chars w)) PYTEST_OTHERS then
        pytest_counts parts passed failed
      else None
  end.
(** There is always a first part, so [any] holds. *)
Definition pytest_summary (line : Chars) : option TestSummary :=
  let body := trim_matches (λ c, bool_decide (c = 61%N) || is_whitespace c) line in
  '(counts, timing) ← rsplit_once (chars " in ") body;
  timing ← head (split_str (chars " (") timing);
  secs ← strip_suffix (chars "s") timing;
  if bool_decide (secs = []) || negb (forallb (λ c, is_ascii_digit c || bool_decide (c = 46%N)) secs)
  then None
  else
    '(passed, failed) ← pytest_counts (split_str (chars ", ") counts) 0 0;
    Some (mkTestSummary FormatPytest passed failed).

(** ** cargo test *)

Definition is_running_header (line : Chars) : bool :=
  match strip_prefix (chars "running ") line with
  | Some r =>
      match (match strip_suffix (chars " tests") r with
             | Some n => Some n
             | None => strip_suffix (chars " test") r
             end) with
      | Some n => bool_decide (is_Some (count n))
      | None => false
      end
  | None => false
  end.
Fixpoint cargo_parts (parts : list Chars) (passed failed : Z) : option (Z * Z) :=
  match parts with
  | [] => Some (passed, failed)
  | part :: parts =>
      part ← head (split_any [59%N] [] part);
      match split_once [SPACE] (trim_chars part) with
      | None => cargo_parts parts passed failed
      | Some (n, word) =>
          match count n with
          | None => cargo_parts parts passed failed
          | Some n =>
              if bool_decide (word = chars "passed") then
                passed ← checked_add passed n; cargo_parts parts passed failed
              else if bool_decide (word = chars "failed") then
                failed ← checked_add failed n; cargo_parts parts passed failed
              else cargo_parts parts passed failed
          end
      end
  end.
Fixpoint cargo_lines (lines : list Chars) (passed failed : Z) (results : nat) :
    option (Z * Z * nat) :=
  match lines with
  | [] => Some (passed, failed, results)
  | line :: lines =>
      match strip_prefix (chars "test result: ") line with
      | None => cargo_lines lines passed failed results
      | Some rest =>
          rest ← strip_prefix (chars "ok. ") rest;
          '(passed, failed) ← cargo_parts (split_str (chars "; ") rest) passed failed;
          cargo_lines lines passed failed (S results)
      end
  end.
Definition cargo_summary (lines : list Chars) : option TestSummary :=
  let running := length (filter (λ l, is_running_header l = true) lines) in
  '(passed, failed, results) ← cargo_lines lines 0 0 0;
  if bool_decide (0 < results) && bool_decide (results = running)
  then Some (mkTestSummary FormatCargo passed failed) else None.

(** ** The summary of an output *)

Definition output_lines (output : Chars) : list Chars :=
  filter (λ l, l ≠ []) (trim_chars <$> split_any [10%N; 13%N] [] (strip_ansi output)).
Definition summarize (output : Chars) : option TestSummary :=
  let lines := output_lines output in
  match last lines ≫= pytest_summary, cargo_summary lines with
  | Some p, None => Some p
  | None, Some c => Some c
  | _, _ => None
  end.
Definition summary_json (output : Chars) : option Value := summary_to_json <$> summarize output.

(** [Map::insert], on fields in the order of their keys. *)
Fixpoint object_insert (key : string) (v : Value) (fields : list (string * Value)) :
    list (string * Value) :=
  match fields with
  | [] => [(key, v)]
  | (k, x) :: fields' =>
      if decide (k = key) then (key, v) :: fields'
      else if decide (ord_le key k) then (key, v) :: fields
      else (k, x) :: object_insert key v fields'
  end.
Definition attach_summary (payload : Value) (output : option Chars) : Value :=
  match output ≫= summary_json, payload with
  | Some summary, JObject fields => JObject (object_insert "test_summary" summary fields)
  | _, _ => payload
  end.
