(* ===== verification/TestOutputSpec.v ===== *)
(** * What a test summary certifies

    The counts of a summary fit their width; a summary printed as pytest or
    as cargo test prints it is read back with its counts; and attaching a
    summary to a payload decides exactly the verifiers' condition that a test
    run is proven, and changes nothing else of the payload. *)

From S2P Require Import Prelude.
From S2P Require Import Types.
From S2P Require Import Text.
From S2P Require Import Projection.
From S2P Require Import AuditLedger.
From S2P Require Import ExecutionIdentity.
From S2P Require Import EventStore.
From S2P Require Import Consumption.
From S2P Require Import Shell.
From S2P Require Import Runner.
From S2P Require Import Verifiers.
From S2P Require Import VerifiersExamples.
From S2P Require Import TestOutput.

Local Open Scope fornax_scope.

(** ** Bounds *)

Definition fits (n : Z) : Prop := (0 ≤ n < u64_bound)%Z.

Lemma digits_value_app a b : digits_value (a ++ b) = foldl (λ acc c, acc * 10 + digit_value c)%Z (digits_value a) b.
Proof. apply foldl_app. Qed.
Lemma digits_value_nonneg cs : forallb is_ascii_digit cs = true → (0 ≤ digits_value cs)%Z.
Proof.
  induction cs as [|c cs IH] using rev_ind; [done|].
  rewrite forallb_app, andb_true_iff. simpl. rewrite andb_true_r. intros [Hcs Hc].
  rewrite digits_value_app. simpl. unfold is_ascii_digit in Hc. apply bool_decide_eq_true in Hc.
  unfold digit_value. specialize (IH Hcs). lia.
Qed.
Lemma count_fits text n : count text = Some n → fits n.
Proof.
  unfold count. destruct (_ || _) eqn:E; [done|]. apply orb_false_iff in E as [_ Hd].
  apply negb_false_iff, digits_value_nonneg in Hd. case_decide; [|done]. intros [= <-]. by split.
Qed.
Lemma checked_add_fits a b c : fits a → fits b → checked_add a b = Some c → fits c ∧ c = (a + b)%Z.
Proof. unfold checked_add, fits. case_decide; intros; by simplify_eq; lia. Qed.

Lemma pytest_counts_fit parts p f p' f' :
  fits p → fits f → pytest_counts parts p f = Some (p', f') → fits p' ∧ fits f'.
Proof.
  revert p f. induction parts as [|part parts IH]; intros p f Hp Hf; cbn [pytest_counts].
  { by intros [= <- <-]. }
  intros ([n word] & _ & (n' & Hn%count_fits & Hrest)%bind_Some)%bind_Some. revert Hrest.
  case_bool_decide; [|destruct (existsb _ PYTEST_FAILURES);
    [|destruct (existsb _ PYTEST_OTHERS); [|done]]].
  - intros (q & Hq & Hrest)%bind_Some. apply checked_add_fits in Hq as [? _]; [|done..]. eapply IH; [| |exact Hrest]; done.
  - intros (q & Hq & Hrest)%bind_Some. apply checked_add_fits in Hq as [? _]; [|done..]. eapply IH; [| |exact Hrest]; done.
  - by apply IH.
Qed.
Lemma cargo_parts_fit parts p f p' f' :
  fits p → fits f → cargo_parts parts p f = Some (p', f') → fits p' ∧ fits f'.
Proof.
  revert p f. induction parts as [|part parts IH]; intros p f Hp Hf; cbn [cargo_parts].
  { by intros [= <- <-]. }
  intros (part' & _ & Hrest)%bind_Some. revert Hrest.
  destruct (split_once _ _) as [[n word]|]; [|by apply IH].
  destruct (count n) as [n'|] eqn:En; [apply count_fits in En|by apply IH].
  repeat case_bool_decide; [| |by apply IH].
  - intros (q & Hq & Hrest)%bind_Some. apply checked_add_fits in Hq as [? _]; [|done..]. eapply IH; [| |exact Hrest]; done.
  - intros (q & Hq & Hrest)%bind_Some. apply checked_add_fits in Hq as [? _]; [|done..]. eapply IH; [| |exact Hrest]; done.
Qed.
Lemma cargo_lines_fit lines p f r p' f' r' :
  fits p → fits f → cargo_lines lines p f r = Some (p', f', r') → fits p' ∧ fits f'.
Proof.
  revert p f r. induction lines as [|line lines IH]; intros p f r Hp Hf; cbn [cargo_lines].
  { by intros [= <- <-]. }
  destruct (strip_prefix _ line); [|by apply IH].
  intros (rest & _ & ([q g] & Hq & Hrest)%bind_Some)%bind_Some.
  apply cargo_parts_fit in Hq as [??]; [|done..]. eapply IH; [| |exact Hrest]; done.
Qed.
Lemma fits_zero : fits 0.
Proof. by split. Qed.
Lemma summarize_fits output s : summarize output = Some s → fits (ts_passed s) ∧ fits (ts_failed s).
Proof.
  unfold summarize.
  destruct (last (output_lines output) ≫= pytest_summary) as [p|] eqn:Ep,
    (cargo_summary (output_lines output)) as [c|] eqn:Ec; try done; intros [= <-].
  - apply bind_Some in Ep as (line & _ & Hl). unfold pytest_summary in Hl.
    apply bind_Some in Hl as ([counts timing] & _ & (t & _ & (secs & _ & Hl)%bind_Some)%bind_Some).
    destruct (_ || _); [done|].
    apply bind_Some in Hl as ([q g] & Hq & [= <-]). by eapply pytest_counts_fit, Hq; apply fits_zero.
  - unfold cargo_summary in Ec. apply bind_Some in Ec as ([[q g] r] & Hq & Hc).
    destruct (_ && _); [|done]. simplify_eq. by eapply cargo_lines_fit, Hq; apply fits_zero.
Qed.

(** ** Numerals *)

Fixpoint digits (fuel : nat) (n : N) : Chars :=
  match fuel with
  | 0 => []
  | S fuel =>
      if decide (n < 10)%N then [(48 + n)%N]
      else digits fuel (n / 10) ++ [(48 + n mod 10)%N]
  end.
(** [u64]'s [Display]. *)
Definition show_u64 (n : N) : Chars := digits 20 n.

Lemma digits_spec fuel n :
  (n < 10 ^ N.of_nat fuel)%N → fuel ≠ 0 →
  forallb is_ascii_digit (digits fuel n) = true ∧ digits_value (digits fuel n) = Z.of_N n ∧
  digits fuel n ≠ [].
Proof.
  revert n. induction fuel as [|fuel IH]; intros n Hn Hf; [done|]. cbn [digits].
  case_decide as Hlt.
  { split_and!; [|unfold digits_value, digit_value; simpl; lia|done].
    cbn [forallb]. rewrite andb_true_r. unfold is_ascii_digit. apply bool_decide_eq_true. lia. }
  assert (n mod 10 < 10)%N as Hm by (apply N.mod_lt; lia).
  pose proof (N.div_mod n 10 ltac:(lia)) as Hdm.
  destruct (decide (fuel = 0)) as [->|Hf0].
  { exfalso. apply Hlt. exact Hn. }
  destruct (IH (n / 10)%N) as (Hd & Hv & Hne); [|done|].
  { apply N.Div0.div_lt_upper_bound. by rewrite Nat2N.inj_succ, N.pow_succ_r' in Hn. }
  split_and!.
  - rewrite forallb_app, Hd. cbn [forallb andb]. rewrite andb_true_r. unfold is_ascii_digit.
    apply bool_decide_eq_true.
    revert Hm. generalize (n mod 10)%N. clear. intros m Hm. lia.
  - rewrite digits_value_app, Hv. cbn [foldl]. unfold digit_value.
    revert Hdm. generalize (n mod 10)%N, (n / 10)%N. clear. intros m q ->. lia.
  - by destruct (digits fuel (n / 10)).
Qed.

Definition u64 (n : N) : Prop := (n < 2 ^ 64)%N.
Lemma show_u64_spec n :
  u64 n → forallb is_ascii_digit (show_u64 n) = true ∧ show_u64 n ≠ [] ∧
  count (show_u64 n) = Some (Z.of_N n).
Proof.
  unfold u64. intros Hn. destruct (digits_spec 20 n) as (Hd & Hv & Hne); [simpl; lia|done|].
  split_and!; [done..|]. unfold count, show_u64. rewrite bool_decide_false by done.
  rewrite Hd, Hv. simpl. rewrite decide_True; [done|]. unfold u64_bound. lia.
Qed.

(** ** Strings *)

Lemma strip_ansi_plain cs : 27%N ∉ cs → strip_ansi cs = cs.
Proof.
  unfold strip_ansi. induction cs as [|c cs IH]; [done|].
  intros [Hc Hcs]%not_elem_of_cons. simpl. rewrite decide_False by congruence. by rewrite IH.
Qed.
Lemma split_any_app seps a cur b :
  Forall (λ c, c ∉ seps) a → split_any seps cur (a ++ b) = split_any seps (cur ++ a) b.
Proof.
  revert cur. induction a as [|c a IH]; intros cur; simpl; [by rewrite app_nil_r|].
  intros [Hc Ha]%Forall_cons. rewrite bool_decide_false by done. rewrite IH by done.
  by rewrite <-(assoc_L (++)).
Qed.
Lemma split_any_none seps cur a :
  Forall (λ c, c ∉ seps) a → split_any seps cur a = [cur ++ a].
Proof. intros Ha. rewrite <-(app_nil_r a) at 1. by rewrite split_any_app. Qed.
Lemma split_str_app s sep a cur b :
  s ∉ a → split_str_go (s :: sep) 0 cur (a ++ b) = split_str_go (s :: sep) 0 (cur ++ a) b.
Proof.
  revert cur. induction a as [|c a IH]; intros cur; [by rewrite app_nil_r|].
  intros [Hc Ha]%not_elem_of_cons. cbn [app split_str_go starts_with].
  rewrite bool_decide_false by done. cbn [andb]. rewrite IH by done.
  by rewrite <-(assoc_L (++)).
Qed.
Lemma split_str_none s sep cur a : s ∉ a → split_str_go (s :: sep) 0 cur a = [cur ++ a].
Proof. intros Ha. rewrite <-(app_nil_r a) at 1. by rewrite split_str_app. Qed.
Lemma split_once_app c a b : c ∉ a → split_once [c] (a ++ c :: b) = Some (a, b).
Proof.
  induction a as [|x a IH]; intros Ha; cbn [app split_once starts_with].
  - by rewrite bool_decide_true.
  - apply not_elem_of_cons in Ha as [Hx Ha]. rewrite bool_decide_false by done. cbn [andb].
    by rewrite IH.
Qed.
Lemma rsplit_once_app sep a c x y :
  rsplit_once sep c = Some (x, y) → rsplit_once sep (a ++ c) = Some (a ++ x, y).
Proof. intros Hc. induction a as [|z a IH]; [done|]. cbn [app rsplit_once]. by rewrite IH. Qed.
Lemma strip_prefix_app p cs : strip_prefix p (p ++ cs) = Some cs.
Proof. induction p as [|c p IH]; [done|]. simpl. by rewrite decide_True. Qed.
Lemma strip_suffix_app suffix cs : strip_suffix suffix (cs ++ suffix) = Some cs.
Proof.
  unfold strip_suffix. rewrite reverse_app, strip_prefix_app. simpl. by rewrite reverse_involutive.
Qed.

Lemma trim_start_by_app P pre c x :
  Forall (λ c, P c = true) pre → P c = false → trim_start_by P (pre ++ c :: x) = c :: x.
Proof.
  intros Hp Hc. induction Hp as [|a pre Ha _ IH]; simpl; [by rewrite Hc|by rewrite Ha].
Qed.
(** Trimming takes exactly the ends. *)
Lemma trim_matches_body P pre c mid e post :
  Forall (λ c, P c = true) pre → Forall (λ c, P c = true) post → P c = false → P e = false →
  trim_matches P (pre ++ (c :: mid ++ [e]) ++ post) = c :: mid ++ [e].
Proof.
  intros Hpre Hpost Hc He. unfold trim_matches.
  change ((c :: mid ++ [e]) ++ post) with (c :: (mid ++ [e]) ++ post).
  rewrite trim_start_by_app by done.
  replace (reverse (c :: (mid ++ [e]) ++ post)) with (reverse post ++ e :: reverse (c :: mid)).
  2:{ rewrite !reverse_cons, !reverse_app. simpl. by rewrite <-!(assoc_L (++)). }
  rewrite trim_start_by_app; [|by apply Forall_reverse|done].
  by rewrite reverse_cons, reverse_involutive.
Qed.
Lemma trim_start_is cs : trim_start cs = trim_start_by is_whitespace cs.
Proof. induction cs as [|c cs IH]; [done|]. simpl. by rewrite IH. Qed.
Lemma trim_chars_is cs : trim_chars cs = trim_matches is_whitespace cs.
Proof. unfold trim_chars, trim_matches. by rewrite !trim_start_is. Qed.
Lemma trim_chars_id c mid e :
  is_whitespace c = false → is_whitespace e = false → trim_chars (c :: mid ++ [e]) = c :: mid ++ [e].
Proof.
  intros Hc He. rewrite trim_chars_is.
  pose proof (trim_matches_body is_whitespace [] c mid e [] ltac:(done) ltac:(done) Hc He) as Ht.
  by rewrite app_nil_r in Ht.
Qed.

(** ** Printed summaries *)

(** The characters of a numeral are digits. *)
Lemma show_chars n c : u64 n → c ∈ show_u64 n → (48 ≤ c ≤ 57)%N.
Proof.
  intros Hn Hc. destruct (show_u64_spec n Hn) as (Hd & _). rewrite forallb_forall in Hd.
  apply list_elem_of_In, Hd in Hc. by apply bool_decide_eq_true in Hc.
Qed.
Lemma show_cons n : u64 n → ∃ d ds, show_u64 n = d :: ds ∧ (48 ≤ d ≤ 57)%N.
Proof.
  intros Hn. pose proof (show_chars n) as Hd. destruct (show_u64_spec n Hn) as (_ & Hne & _).
  destruct (show_u64 n) as [|d ds] eqn:E; [done|]. exists d, ds. split; [done|].
  apply Hd; [done|]. by left.
Qed.
Lemma show_free n c : u64 n → (c < 48 ∨ 57 < c)%N → c ∉ show_u64 n.
Proof. intros Hn Hc Hin. apply show_chars in Hin; [lia|done]. Qed.

(** [=== 2 passed, 1 failed in 0.03s ===]. *)
Definition pytest_body (passed failed : N) : Chars :=
  show_u64 passed ++ chars " passed, " ++ show_u64 failed ++ chars " failed in 0.03s".
Definition pytest_line (passed failed : N) : Chars :=
  chars "=== " ++ pytest_body passed failed ++ chars " ===".
(** A result line of cargo test under its header. *)
Definition cargo_header (tests : N) : Chars := chars "running " ++ show_u64 tests ++ chars " tests".
Definition CARGO_REST : Chars :=
  chars " failed; 0 ignored; 0 measured; 0 filtered out; finished in 0.00s".
Definition cargo_result (passed failed : N) : Chars :=
  chars "test result: ok. " ++ show_u64 passed ++ chars " passed; " ++ show_u64 failed ++ CARGO_REST.
Definition cargo_output (tests passed failed : N) : Chars :=
  cargo_header tests ++ [10%N] ++ cargo_result passed failed ++ [10%N].

Lemma show_plain n c : u64 n → c ∈ show_u64 n → is_whitespace c = false ∧ c ≠ 27%N ∧ c ∉ [10%N; 13%N].
Proof.
  intros Hn Hc. apply show_chars in Hc; [|done]. split_and!.
  - unfold is_whitespace. apply bool_decide_eq_false. lia.
  - lia.
  - set_unfold. lia.
Qed.

Section printed.
Context (passed failed : N) (Hp : u64 passed) (Hf : u64 failed).

Lemma count_passed : count (show_u64 passed) = Some (Z.of_N passed).
Proof. by apply show_u64_spec. Qed.
Lemma count_failed : count (show_u64 failed) = Some (Z.of_N failed).
Proof. by apply show_u64_spec. Qed.
Lemma add_passed : checked_add 0 (Z.of_N passed) = Some (Z.of_N passed).
Proof. unfold checked_add, u64_bound. unfold u64 in Hp. rewrite decide_True by lia. done. Qed.
Lemma add_failed : checked_add 0 (Z.of_N failed) = Some (Z.of_N failed).
Proof. unfold checked_add, u64_bound. unfold u64 in Hf. rewrite decide_True by lia. done. Qed.

Lemma pytest_body_trimmed :
  trim_matches (λ c, bool_decide (c = 61%N) || is_whitespace c) (pytest_line passed failed) =
  pytest_body passed failed.
Proof.
  unfold pytest_line, pytest_body.
  destruct (show_cons passed Hp) as (d & ds & -> & Hd).
  replace ((d :: ds) ++ chars " passed, " ++ show_u64 failed ++ chars " failed in 0.03s")
    with (d :: (ds ++ chars " passed, " ++ show_u64 failed ++ chars " failed in 0.03") ++ [115%N]).
  2:{ change (chars " failed in 0.03s") with (chars " failed in 0.03" ++ [115%N]).
      cbn [app]. by rewrite <-!(assoc_L (++)). }
  apply trim_matches_body.
  - by repeat constructor.
  - by repeat constructor.
  - rewrite bool_decide_false by lia. unfold is_whitespace. apply bool_decide_eq_false. lia.
  - done.
Qed.

Lemma pytest_summary_printed :
  pytest_summary (pytest_line passed failed) =
    Some (mkTestSummary FormatPytest (Z.of_N passed) (Z.of_N failed)).
Proof.
  unfold pytest_summary. rewrite pytest_body_trimmed. unfold pytest_body.
  rewrite !(assoc_L (++)).
  rewrite (rsplit_once_app _ _ (chars " failed in 0.03s") (chars " failed") (chars "0.03s"));
    [|by vm_compute]. cbn [mbind option_bind].
  replace (head (split_str (chars " (") (chars "0.03s"))) with (Some (chars "0.03s")) by by vm_compute.
  cbn [mbind option_bind].
  replace (strip_suffix (chars "s") (chars "0.03s")) with (Some (chars "0.03")) by by vm_compute.
  cbn [mbind option_bind].
  replace (bool_decide (chars "0.03" = []) ||
    negb (forallb (λ c, is_ascii_digit c || bool_decide (c = 46%N)) (chars "0.03")))
    with false by by vm_compute.
  unfold split_str. rewrite <-!(assoc_L (++)).
  change (chars ", ") with [44%N; 32%N].
  rewrite split_str_app by (apply show_free; [done|lia]).
  change (chars " passed, ") with (chars " passed" ++ [44%N; 32%N]). rewrite <-!(assoc_L (++)).
  rewrite split_str_app by (vm_compute; set_solver).
  cbn [app split_str_go starts_with length Nat.sub]. rewrite !bool_decide_true by done. cbn [andb].
  rewrite split_str_none.
  2:{ rewrite not_elem_of_app. split; [apply show_free; [done|lia]|vm_compute; set_solver]. }
  cbn [app pytest_counts].
  change (chars " passed") with (SPACE :: chars "passed").
  change (chars " failed") with (SPACE :: chars "failed").
  rewrite !split_once_app by (apply show_free; [done|unfold SPACE; lia]).
  cbn [mbind option_bind]. rewrite count_passed, count_failed. cbn [mbind option_bind].
  rewrite bool_decide_true by done. rewrite add_passed. cbn [mbind option_bind pytest_counts].
  rewrite bool_decide_false by by vm_compute.
  replace (existsb (λ w, bool_decide (chars "failed" = chars w)) PYTEST_FAILURES) with true
    by by vm_compute.
  by rewrite add_failed.
Qed.

(** *** cargo *)

Definition cargo_fields : list Chars :=
  [show_u64 passed ++ chars " passed"; show_u64 failed ++ chars " failed"; chars "0 ignored";
   chars "0 measured"; chars "0 filtered out"; chars "finished in 0.00s"].

Lemma cargo_fields_split :
  split_str (chars "; ") (show_u64 passed ++ chars " passed; " ++ show_u64 failed ++ CARGO_REST) =
  cargo_fields.
Proof.
  unfold split_str. change (chars "; ") with [59%N; 32%N].
  rewrite split_str_app by (apply show_free; [done|lia]).
  change (chars " passed; ") with (chars " passed" ++ [59%N; 32%N]). rewrite <-!(assoc_L (++)).
  rewrite split_str_app by (vm_compute; set_solver).
  cbn [app split_str_go starts_with length Nat.sub]. rewrite !bool_decide_true by done. cbn [andb].
  rewrite split_str_app by (apply show_free; [done|lia]). unfold CARGO_REST.
  replace (chars " failed; 0 ignored; 0 measured; 0 filtered out; finished in 0.00s") with
    (chars " failed" ++ chars "; 0 ignored; 0 measured; 0 filtered out; finished in 0.00s")
    by (vm_compute; reflexivity).
  rewrite split_str_app by (vm_compute; set_solver). cbn [app]. unfold cargo_fields.
  generalize (show_u64 passed ++ chars " passed"), (show_u64 failed ++ chars " failed").
  intros a b. by vm_compute.
Qed.

(** A field of the form [N word]. *)
Lemma cargo_field n word parts p f :
  u64 n → chars word ≠ [] → Forall (λ c, c ≠ 59%N) (chars word) →
  is_whitespace (default 32%N (last (chars word))) = false →
  cargo_parts ((show_u64 n ++ SPACE :: chars word) :: parts) p f =
    if bool_decide (chars word = chars "passed") then
      p ← checked_add p (Z.of_N n); cargo_parts parts p f
    else if bool_decide (chars word = chars "failed") then
      f ← checked_add f (Z.of_N n); cargo_parts parts p f
    else cargo_parts parts p f.
Proof.
  intros Hn Hne Hsemi Hlast. cbn [cargo_parts].
  rewrite split_any_none.
  2:{ apply Forall_app. split; [|apply Forall_cons; split; [by vm_compute; set_solver|]].
      - apply Forall_forall. intros c Hc. apply show_chars in Hc; [|done]. set_unfold. lia.
      - eapply Forall_impl; [done|]. simpl. intros c Hc. set_solver. }
  cbn [app head mbind option_bind].
  assert (trim_chars (show_u64 n ++ SPACE :: chars word) = show_u64 n ++ SPACE :: chars word) as ->.
  { destruct (show_cons n Hn) as (d & ds & -> & Hd).
    destruct (chars word) as [|x xs _] using rev_ind; [done|]. rewrite last_snoc in Hlast.
    change ((d :: ds) ++ SPACE :: xs ++ [x]) with (d :: ds ++ (SPACE :: xs) ++ [x]).
    rewrite (assoc_L (++)). apply trim_chars_id; [|done].
    unfold is_whitespace. apply bool_decide_eq_false. lia. }
  rewrite split_once_app by (apply show_free; [done|unfold SPACE; lia]).
  destruct (show_u64_spec n Hn) as (_ & _ & ->). done.
Qed.

Lemma cargo_parts_printed :
  cargo_parts cargo_fields 0 0 = Some (Z.of_N passed, Z.of_N failed).
Proof.
  unfold cargo_fields. change (chars " passed") with (SPACE :: chars "passed").
  change (chars " failed") with (SPACE :: chars "failed").
  rewrite cargo_field; [|done|by vm_compute|by vm_compute; repeat constructor|by vm_compute].
  rewrite bool_decide_true by done. rewrite add_passed. cbn [mbind option_bind].
  rewrite cargo_field; [|done|by vm_compute|by vm_compute; repeat constructor|by vm_compute].
  rewrite bool_decide_false by by vm_compute. rewrite bool_decide_true by done. rewrite add_failed.
  cbn [mbind option_bind].
  assert (∀ p f, cargo_parts [chars "0 ignored"; chars "0 measured"; chars "0 filtered out";
    chars "finished in 0.00s"] p f = Some (p, f)) as ->; [|done].
  intros p f. by vm_compute.
Qed.
End printed.

(** ** Whole outputs *)

Lemma show_list_plain n : u64 n → Forall (λ c, c ≠ 27%N ∧ c ∉ [10%N; 13%N]) (show_u64 n).
Proof. intros Hn. apply Forall_forall. intros c Hc. by apply (show_plain n) in Hc as (_ & ? & ?). Qed.
Definition plain (cs : Chars) : Prop := Forall (λ c, c ≠ 27%N ∧ c ∉ [10%N; 13%N]) cs.
Lemma plain_decide cs :
  forallb (λ c, negb (bool_decide (c = 27%N)) && negb (bool_decide (c ∈ [10%N; 13%N]))) cs = true → plain cs.
Proof.
  rewrite forallb_forall. intros Hc. apply Forall_forall. intros c Hin%list_elem_of_In%Hc.
  apply andb_true_iff in Hin as [H1 H2].
  apply negb_true_iff, bool_decide_eq_false in H1. by apply negb_true_iff, bool_decide_eq_false in H2.
Qed.
Lemma plain_ansi cs : plain cs → 27%N ∉ cs.
Proof. intros Hp Hin. by eapply Forall_forall in Hp as [? _]. Qed.
Lemma plain_lines cs : plain cs → Forall (λ c, c ∉ [10%N; 13%N]) cs.
Proof. intros Hp. eapply Forall_impl; [exact Hp|]. by intros c [_ ?]. Qed.

Lemma pytest_line_plain p f : u64 p → u64 f → plain (pytest_line p f).
Proof.
  intros Hp Hf. unfold pytest_line, pytest_body.
  repeat (apply Forall_app; split);
    first [by apply show_list_plain|apply plain_decide; by vm_compute].
Qed.
Lemma cargo_header_plain n : u64 n → plain (cargo_header n).
Proof.
  intros Hn. unfold cargo_header. repeat (apply Forall_app; split);
    first [by apply show_list_plain|apply plain_decide; by vm_compute].
Qed.
Lemma cargo_result_plain p f : u64 p → u64 f → plain (cargo_result p f).
Proof.
  intros Hp Hf. unfold cargo_result, CARGO_REST. repeat (apply Forall_app; split);
    first [by apply show_list_plain|apply plain_decide; by vm_compute].
Qed.

(** A text that begins and ends with these is not trimmed. *)
Lemma trim_ends a e mid rest :
  is_whitespace a = false → is_whitespace e = false → rest = a :: mid ++ [e] → trim_chars rest = rest.
Proof. intros Ha He ->. by apply trim_chars_id. Qed.

Lemma pytest_output_lines p f : u64 p → u64 f → output_lines (pytest_line p f) = [pytest_line p f].
Proof.
  intros Hp Hf. unfold output_lines. pose proof (pytest_line_plain p f Hp Hf) as Hplain.
  rewrite strip_ansi_plain by by apply plain_ansi.
  rewrite split_any_none by by apply plain_lines. cbn [app fmap list_fmap].
  rewrite (trim_ends 61 61 (chars "== " ++ pytest_body p f ++ chars " ==")); [|done|done|].
  - by rewrite filter_cons_True, filter_nil by done.
  - unfold pytest_line. change (chars "=== ") with (61%N :: chars "== ").
    change (chars " ===") with (chars " ==" ++ [61%N]). cbn [app]. by rewrite <-!(assoc_L (++)).
Qed.

Lemma cargo_output_lines n p f :
  u64 n → u64 p → u64 f → output_lines (cargo_output n p f) = [cargo_header n; cargo_result p f].
Proof.
  intros Hn Hp Hf. pose proof (cargo_header_plain n Hn) as Hh.
  pose proof (cargo_result_plain p f Hp Hf) as Hr.
  unfold output_lines, cargo_output.
  rewrite strip_ansi_plain.
  2:{ rewrite !not_elem_of_app. split_and!; try (by apply plain_ansi); set_solver. }
  rewrite split_any_app by by apply plain_lines. cbn [app split_any].
  rewrite bool_decide_true by set_solver.
  rewrite split_any_app by by apply plain_lines. cbn [app split_any].
  rewrite bool_decide_true by set_solver. cbn [fmap list_fmap].
  rewrite (trim_ends 114 115 (chars "unning " ++ show_u64 n ++ chars " test") (cargo_header n)); [|done|done|].
  2:{ unfold cargo_header. change (chars "running ") with (114%N :: chars "unning ").
      change (chars " tests") with (chars " test" ++ [115%N]). cbn [app]. by rewrite <-!(assoc_L (++)). }
  rewrite (trim_ends 116 115 (chars "est result: ok. " ++ show_u64 p ++ chars " passed; " ++ show_u64 f ++
    chars " failed; 0 ignored; 0 measured; 0 filtered out; finished in 0.00") (cargo_result p f));
    [|done|done|].
  2:{ unfold cargo_result, CARGO_REST. change (chars "test result: ok. ") with (116%N :: chars "est result: ok. ").
      replace (chars " failed; 0 ignored; 0 measured; 0 filtered out; finished in 0.00s") with
        (chars " failed; 0 ignored; 0 measured; 0 filtered out; finished in 0.00" ++ [115%N])
        by (vm_compute; reflexivity).
      cbn [app]. by rewrite <-!(assoc_L (++)). }
  replace (trim_chars []) with (@nil Char) by done.
  rewrite !filter_cons_True by done. by rewrite filter_cons_False, filter_nil by auto.
Qed.

Lemma running_header n : u64 n → is_running_header (cargo_header n) = true.
Proof.
  intros Hn. unfold is_running_header, cargo_header. rewrite strip_prefix_app, strip_suffix_app.
  destruct (show_u64_spec n Hn) as (_ & _ & ->). by rewrite bool_decide_true by eauto.
Qed.

Lemma pytest_line_no_cargo p f : cargo_summary [pytest_line p f] = None.
Proof.
  unfold cargo_summary, pytest_line. cbn [cargo_lines].
  change (chars "=== ") with (61%N :: chars "== ").
  change (chars "test result: ") with (116%N :: chars "est result: "). cbn [app strip_prefix].
  by rewrite decide_False by done.
Qed.
Lemma result_no_pytest p f : u64 p → u64 f → pytest_summary (cargo_result p f) = None.
Proof.
  intros Hp Hf. unfold pytest_summary.
  assert (trim_matches (λ c, bool_decide (c = 61%N) || is_whitespace c) (cargo_result p f) =
    cargo_result p f) as ->.
  { assert (cargo_result p f = 116%N :: (chars "est result: ok. " ++ show_u64 p ++
      chars " passed; " ++ show_u64 f ++
      chars " failed; 0 ignored; 0 measured; 0 filtered out; finished in 0.00") ++ [115%N]) as ->.
    { unfold cargo_result, CARGO_REST. change (chars "test result: ok. ") with (116%N :: chars "est result: ok. ").
      replace (chars " failed; 0 ignored; 0 measured; 0 filtered out; finished in 0.00s") with
        (chars " failed; 0 ignored; 0 measured; 0 filtered out; finished in 0.00" ++ [115%N])
        by (vm_compute; reflexivity).
      cbn [app]. by rewrite <-!(assoc_L (++)). }
    pose proof (trim_matches_body (λ c, bool_decide (c = 61%N) || is_whitespace c) [] 116
      (chars "est result: ok. " ++ show_u64 p ++ chars " passed; " ++ show_u64 f ++
      chars " failed; 0 ignored; 0 measured; 0 filtered out; finished in 0.00") 115 []
      ltac:(done) ltac:(done) eq_refl eq_refl) as Ht. by rewrite app_nil_r in Ht. }
  unfold cargo_result, CARGO_REST. rewrite !(assoc_L (++)).
  rewrite (rsplit_once_app _ _ (chars " failed; 0 ignored; 0 measured; 0 filtered out; finished in 0.00s")
    (chars " failed; 0 ignored; 0 measured; 0 filtered out; finished") (chars "0.00s"));
    [|by vm_compute]. cbn [mbind option_bind].
  replace (head (split_str (chars " (") (chars "0.00s"))) with (Some (chars "0.00s")) by by vm_compute.
  cbn [mbind option_bind].
  replace (strip_suffix (chars "s") (chars "0.00s")) with (Some (chars "0.00")) by by vm_compute.
  cbn [mbind option_bind].
  replace (bool_decide (chars "0.00" = []) ||
    negb (forallb (λ c, is_ascii_digit c || bool_decide (c = 46%N)) (chars "0.00")))
    with false by by vm_compute.
  unfold split_str. change (chars ", ") with [44%N; 32%N]. rewrite split_str_none.
  2:{ rewrite !not_elem_of_app. split_and!; try (apply show_free; [done|lia]);
      vm_compute; set_solver. }
  rewrite <-!(assoc_L (++)). cbn [pytest_counts].
  assert (∀ r, split_once [SPACE] ([] ++ chars "test result: ok. " ++ r) =
    Some (chars "test", chars "result: ok. " ++ r)) as ->; [|by vm_compute].
  intros r. change ([] ++ chars "test result: ok. " ++ r) with
    (chars "test" ++ SPACE :: (chars "result: ok. " ++ r)).
  apply split_once_app. vm_compute. set_solver.
Qed.

Lemma cargo_summary_printed n p f :
  u64 n → u64 p → u64 f →
  cargo_summary [cargo_header n; cargo_result p f] =
    Some (mkTestSummary FormatCargo (Z.of_N p) (Z.of_N f)).
Proof.
  intros Hn Hp Hf. unfold cargo_summary.
  assert (is_running_header (cargo_result p f) = false) as Hrun.
  { unfold is_running_header, cargo_result.
    change (chars "test result: ok. ") with (116%N :: chars "est result: ok. ").
    change (chars "running ") with (114%N :: chars "unning "). cbn [app strip_prefix].
    by rewrite decide_False by done. }
  rewrite filter_cons_True by by apply running_header.
  rewrite filter_cons_False by by rewrite Hrun. rewrite filter_nil.
  cbn [cargo_lines].
  assert (strip_prefix (chars "test result: ") (cargo_header n) = None) as ->.
  { unfold cargo_header. change (chars "test result: ") with (116%N :: chars "est result: ").
    change (chars "running ") with (114%N :: chars "unning "). cbn [app strip_prefix].
    by rewrite decide_False by done. }
  unfold cargo_result. change (chars "test result: ok. ") with (chars "test result: " ++ chars "ok. ").
  rewrite <-!(assoc_L (++)), !strip_prefix_app. cbn [mbind option_bind].
  rewrite cargo_fields_split by done.
  rewrite cargo_parts_printed by done. done.
Qed.

(** A runner's own summary is read back: an output that ends in pytest's
    summary line, or in a result line of cargo test under its header, gives
    exactly the counts it printed, for all counts of 64 bits. *)
Theorem printed_summary_is_read_back tests passed failed :
  u64 tests → u64 passed → u64 failed →
  summarize (pytest_line passed failed) =
    Some (mkTestSummary FormatPytest (Z.of_N passed) (Z.of_N failed)) ∧
  summarize (cargo_output tests passed failed) =
    Some (mkTestSummary FormatCargo (Z.of_N passed) (Z.of_N failed)).
Proof.
  intros Ht Hp Hf. unfold summarize. rewrite pytest_output_lines, cargo_output_lines by done.
  cbn [last mbind option_bind].
  rewrite pytest_summary_printed, pytest_line_no_cargo, result_no_pytest, cargo_summary_printed
    by done. done.
Qed.

(** ** Attached summaries *)

Lemma object_get_cons k v fields key :
  json_get ((k, v) :: fields) key = if decide (k = key) then Some v else json_get fields key.
Proof. unfold json_get. rewrite filter_cons. simpl. by case_decide. Qed.
Lemma json_get_insert key v fields key' :
  json_get (object_insert key v fields) key' =
    if decide (key = key') then Some v else json_get fields key'.
Proof.
  induction fields as [|[k x] fields IH]; cbn [object_insert].
  { by rewrite object_get_cons. }
  repeat case_decide; rewrite ?object_get_cons, ?IH; repeat case_decide; congruence.
Qed.

(** Two payloads that agree but for the summary. *)
Definition only_summary_differs (v v' : Value) : Prop :=
  ∀ key, key ≠ "test_summary" → value_get v' key = value_get v key.

Definition with_payload (ev : Evidence) (v : Value) : Evidence :=
  mkEvidence (ev_id ev) (ev_session_id ev) (ev_source_event_id ev) (ev_kind ev)
    (ev_observed_at ev) v (ev_provenance ev) (ev_source ev) (ev_extension ev)
    (evidence_purged ev).

Definition format_fits (kind : RunnerKind) (f : SummaryFormat) : Prop :=
  match kind, f with
  | RunPytest, FormatPytest | RunCargo, FormatCargo => True
  | _, _ => False
  end.

Section attached.
Context `{UnicodeTables}.

Lemma attach_get payload output key :
  value_get (attach_summary payload output) key =
    match output ≫= summarize, payload with
    | Some s, JObject _ =>
        if decide ("test_summary" = key) then Some (summary_to_json s) else value_get payload key
    | _, _ => value_get payload key
    end.
Proof.
  unfold attach_summary, summary_json. destruct output as [output|]; cbn [mbind option_bind];
    [|by destruct payload].
  destruct (summarize output) as [s|]; cbn [fmap option_fmap option_map]; [|by destruct payload].
  destruct payload; try done. cbn [value_get]. apply json_get_insert.
Qed.

Lemma summary_proven s kind :
  fits (ts_passed s) → fits (ts_failed s) →
  (match kind with
   | RunPytest => bool_decide (value_get (summary_to_json s) "format" ≫= as_str = Some "pytest")
   | RunCargo => bool_decide (value_get (summary_to_json s) "format" ≫= as_str = Some "cargo")
   | RunOther => false
   end &&
   match value_get (summary_to_json s) "passed" ≫= as_u64 with
   | Some n => bool_decide (1 ≤ n)%Z | None => false end &&
   bool_decide (value_get (summary_to_json s) "failed" ≫= as_u64 = Some 0%Z)) = true ↔
  format_fits kind (ts_format s) ∧ (1 ≤ ts_passed s)%Z ∧ ts_failed s = 0%Z.
Proof.
  unfold fits, u64_bound. intros Hp Hf.
  replace (value_get (summary_to_json s) "format" ≫= as_str) with
    (Some (format_as_str (ts_format s))) by done.
  assert (∀ n, (0 ≤ n < 2 ^ 64)%Z → as_u64 (JInt n) = Some n) as Hu.
  { intros n Hn. unfold as_u64. by rewrite decide_True. }
  assert (value_get (summary_to_json s) "passed" ≫= as_u64 = Some (ts_passed s)) as ->
    by (by apply Hu).
  assert (value_get (summary_to_json s) "failed" ≫= as_u64 = Some (ts_failed s)) as ->
    by (by apply Hu).
  rewrite !andb_true_iff, !bool_decide_eq_true.
  destruct kind, (ts_format s); cbn [format_as_str format_fits]; rewrite ?bool_decide_eq_true;
    (split; [intros [[? ?] ?]|intros (? & ? & ?)]); simplify_eq; split_and?; try done; congruence.
Qed.

(** C25. What an attached summary decides: a command's output changes nothing
    of the payload but the summary, and the verifiers take the test run as
    proven by it exactly when the command is provably that runner's and the
    output's own summary is of the runner's format, counts a passed test and
    no failed one. An output without a recognised summary leaves the payload
    as it is. *)
Theorem attached_summary_is_exact ev fields output :
  ev_payload ev = JObject fields →
  let ev' := with_payload ev (attach_summary (ev_payload ev) (Some output)) in
  only_summary_differs (ev_payload ev) (ev_payload ev') ∧
  match summarize output with
  | None => ev' = ev
  | Some s =>
      execution_proven ev' = true ↔
      ∃ kind, proven_runner (command_of ev) = Some kind ∧ format_fits kind (ts_format s) ∧
        (1 ≤ ts_passed s)%Z ∧ ts_failed s = 0%Z
  end.
Proof.
  intros Hpay ev'. split.
  - intros key Hkey. unfold ev', with_payload. cbn [ev_payload]. rewrite attach_get, Hpay.
    destruct (Some output ≫= summarize); [|done]. by rewrite decide_False.
  - destruct (summarize output) as [s|] eqn:Es.
    2:{ unfold ev', with_payload, attach_summary, summary_json. cbn [mbind option_bind].
        rewrite Es. cbn. by destruct ev. }
    destruct (summarize_fits _ _ Es) as [Hp Hf].
    assert (command_of ev' = command_of ev) as Hcmd.
    { unfold command_of, ev', with_payload. cbn [ev_payload]. rewrite attach_get, Hpay.
      cbn [mbind option_bind]. rewrite Es. by rewrite decide_False. }
    assert (value_get (ev_payload ev') "test_summary" = Some (summary_to_json s)) as Hsum.
    { unfold ev', with_payload. cbn [ev_payload]. rewrite attach_get, Hpay.
      cbn [mbind option_bind]. rewrite Es. by rewrite decide_True. }
    unfold execution_proven. rewrite Hcmd, Hsum.
    destruct (proven_runner (command_of ev)) as [kind|].
    + rewrite (summary_proven s kind Hp Hf). naive_solver.
    + naive_solver.
Qed.
End attached.

(** * Test summaries on concrete outputs

    Outputs of pytest and of cargo test as the runners print them, outputs
    that are refused, and the witnesses of the theorems on summaries. *)

#[local] Existing Instance ascii_tables.

Definition two_lines (a b : string) : Chars := chars a ++ [10%N] ++ chars b.
Definition bold (s : string) : Chars := [27%N; 91%N; 51%N; 50%N; 109%N] ++ chars s ++ [27%N; 91%N; 48%N; 109%N].

Example read_outputs :
  summarize (bold "===== 2 passed, 1 skipped in 0.03s =====") = Some (mkTestSummary FormatPytest 2 0) ∧
  summarize (chars "1 failed, 3 passed in 61.20s (0:01:01)") = Some (mkTestSummary FormatPytest 3 1) ∧
  summarize (two_lines "running 0 tests" "test result: ok. 0 passed; 0 failed; 0 ignored")
    = Some (mkTestSummary FormatCargo 0 0) ∧
  summarize (two_lines "running 1 test" "test result: FAILED. 0 passed; 1 failed") = None ∧
  summarize (chars "test result: ok. 9 passed; 0 failed") = None ∧
  summarize (two_lines "5 passed in 0.1s" "done") = None ∧
  summarize (chars "18446744073709551616 passed in 0.1s") = None ∧
  summarize (chars "18446744073709551615 passed, 1 passed in 0.1s") = None.
Proof. vm_compute. done. Qed.

Lemma printed_summary_is_read_back_witness :
  summarize (pytest_line 12 0) = Some (mkTestSummary FormatPytest 12 0) ∧
  summarize (cargo_output 12 12 0) = Some (mkTestSummary FormatCargo 12 0).
Proof. apply (printed_summary_is_read_back 12 12 0); reflexivity. Defined.

Definition pytest_evidence : Evidence :=
  mkEvidence 1 "s" 2 ExitCode "day 0"
    (JObject [("command", JArray [JString "pytest"; JString "-q"]); ("exit_code", JInt 0)]) "hook"
    None None false.

Lemma attached_summary_is_exact_witness :
  execution_proven
    (with_payload pytest_evidence
       (attach_summary (ev_payload pytest_evidence) (Some (chars "2 passed in 0.02s")))) = true.
Proof.
  pose proof (attached_summary_is_exact pytest_evidence
    [("command", JArray [JString "pytest"; JString "-q"]); ("exit_code", JInt 0)]
    (chars "2 passed in 0.02s") eq_refl) as Hex.
  destruct Hex as [_ Hex].
  assert (summarize (chars "2 passed in 0.02s") = Some (mkTestSummary FormatPytest 2 0)) as Hs
    by (vm_compute; reflexivity).
  rewrite Hs in Hex. apply Hex. exists RunPytest. vm_compute. repeat split; discriminate.
Defined.
