(* ===== verification/Upload.v ===== *)
(** * Staging and sealing of the metadata upload

    [fornax-store/src/upload.rs]: the outbox of metadata members, the sealed
    batches and the recorded gaps, and the operations of [Store] on them, over
    the event store and the egress store.

    The operations are a monad over these tables: outside a transaction every
    statement can fail on its own, and what came before it stays. The world
    ([UploadWorld]) answers the n-th statement, draws the n-th identifier and
    tells the n-th time. *)

From stdpp Require Import pretty.
From S2P Require Import Prelude.
From S2P Require Import Types.
From S2P Require Import Text.
From S2P Require Import PolicyContent.
From S2P Require Import AuditEvent.
From S2P Require Import AuditLedger.
From S2P Require Import EventStore.
From S2P Require Import EventRead.
From S2P Require Import Egress.
From S2P Require Import EgressStore.

Local Open Scope fornax_scope.

Definition CANONICALIZATION : string := "fornax-egress-canon-v1".
Definition MAX_BATCH_MEMBERS : nat := 2000.
Definition OUTBOX_MAX_BYTES : Z := 50 * 1024 * 1024.
Definition OUTBOX_MAX_AGE_DAYS : Z := 90.
Definition STAGE_CHUNK : nat := 5000.
Definition KINDS : list string := ["sessions"; "events"; "claims"; "evidence"; "findings"].

(** ** Tables *)

Inductive OutboxState := ObPending | ObInflight | ObAcknowledged | ObPoison | ObExpired.
#[export] Instance OutboxState_eq_dec : EqDecision OutboxState.
Proof. solve_decision. Defined.
Record OutboxRow := mkOutboxRow {
  ob_window_id : string;
  ob_member_json : string;
  ob_member_sha256 : string;
  ob_staged_at : string;
  ob_consent_id : string;
  ob_state : OutboxState;
  ob_batch_id : option string;
}.
Inductive BatchState := BtSealed | BtAcknowledged | BtPoison.
#[export] Instance BatchState_eq_dec : EqDecision BatchState.
Proof. solve_decision. Defined.
Record UploadBatchRow := mkUploadBatchRow {
  bt_window_id : string;
  bt_consent_id : string;
  bt_destination : string;
  bt_manifest_sha256 : string;
  bt_canonicalization : string;
  bt_member_count : Z;
  bt_byte_count : Z;
  bt_members_json : string;
  bt_state : BatchState;
  bt_attempts : Z;
  bt_last_error : option string;
  bt_sealed_at : string;
  bt_last_attempt_at : option string;
  bt_acked_at : option string;
}.
Record GapRow := mkGapRow {
  gp_window_id : string;
  gp_reason : string;
  gp_dropped_count : Z;
  gp_recorded_at : string;
}.

(** A request that left the machine: where to, under which credential and
    key, and its body. Only the sender ([UploadRun]) adds to them. *)
Record UploadRequest := mkUploadRequest {
  rq_to : string;
  rq_bearer : string;
  rq_idempotency_key : string;
  rq_device_id : string;
  rq_batch_id : string;
  rq_window_id : string;
  rq_manifest_sha256 : string;
  rq_members : Value;
}.

(** A request with the tables of the egress store and the step of the run when
    it left. *)
Record Sending := mkSending {
  sd_request : UploadRequest;
  sd_egress : EgressDb;
  sd_step : nat;
}.

(** The audit ledger is that of [up_egress]. *)
Record UploadDb := mkUploadDb {
  up_events : EventDb;
  up_egress : EgressDb;
  up_outbox : gmap (string * string) OutboxRow;
  up_batches : gmap string UploadBatchRow;
  up_gaps : list GapRow;
  up_requests : list Sending;
}.
Definition with_outbox (f : gmap (string * string) OutboxRow → gmap (string * string) OutboxRow)
    (db : UploadDb) : UploadDb :=
  mkUploadDb (up_events db) (up_egress db) (f (up_outbox db)) (up_batches db) (up_gaps db)
    (up_requests db).
Definition with_batches (f : gmap string UploadBatchRow → gmap string UploadBatchRow)
    (db : UploadDb) : UploadDb :=
  mkUploadDb (up_events db) (up_egress db) (up_outbox db) (f (up_batches db)) (up_gaps db)
    (up_requests db).
Definition with_gap (g : GapRow) (db : UploadDb) : UploadDb :=
  mkUploadDb (up_events db) (up_egress db) (up_outbox db) (up_batches db) (up_gaps db ++ [g])
    (up_requests db).
Definition with_egress (e : EgressDb) (db : UploadDb) : UploadDb :=
  mkUploadDb (up_events db) e (up_outbox db) (up_batches db) (up_gaps db) (up_requests db).

Definition set_state (st : OutboxState) (r : OutboxRow) : OutboxRow :=
  mkOutboxRow (ob_window_id r) (ob_member_json r) (ob_member_sha256 r) (ob_staged_at r)
    (ob_consent_id r) st (ob_batch_id r).
Definition set_batch (batch_id : string) (r : OutboxRow) : OutboxRow :=
  mkOutboxRow (ob_window_id r) (ob_member_json r) (ob_member_sha256 r) (ob_staged_at r)
    (ob_consent_id r) (ob_state r) (Some batch_id).
Definition set_consent (consent_id : string) (r : OutboxRow) : OutboxRow :=
  mkOutboxRow (ob_window_id r) (ob_member_json r) (ob_member_sha256 r) (ob_staged_at r)
    consent_id (ob_state r) (ob_batch_id r).
(** [UPDATE upload_outbox SET f WHERE P]. *)
Definition update_outbox (P : OutboxRow → bool) (f : OutboxRow → OutboxRow) (db : UploadDb) :
    UploadDb :=
  with_outbox (fmap (λ r, if P r then f r else r)) db.

(** ** The monad *)

Class UploadWorld := {
  stmt_ok : nat → bool;
  fresh_uuid : nat → string;
  utc_now : nat → Z;
}.
Definition UM (E A : Type) := nat → UploadDb → result E A * UploadDb * nat.
#[export] Instance um_ret {E} : MRet (UM E) := λ A a n db, (Ok a, db, n).
#[export] Instance um_bind {E} : MBind (UM E) := λ A B k m n db,
  match m n db with
  | (Ok a, db, n) => k a n db
  | (Err e, db, n) => (Err e, db, n)
  end.
Definition fail {E A} (e : E) : UM E A := λ n db, (Err e, db, n).
Definition lift_result {E A} (r : result E A) : UM E A := λ n db, (r, db, n).
Fixpoint for_each {E A} (l : list A) (f : A → UM E unit) : UM E unit :=
  match l with
  | [] => mret tt
  | a :: l => f a;; for_each l f
  end.

Section statements.
Context `{UploadWorld}.
(** A statement that changes the tables, a query, and a transaction. *)
Definition exec (f : UploadDb → UploadDb) : UM StoreError unit := λ n db,
  if stmt_ok n then (Ok tt, f db, S n) else (Err StoreDb, db, S n).
Definition query {A} (f : UploadDb → A) : UM StoreError A := λ n db,
  if stmt_ok n then (Ok (f db), db, S n) else (Err StoreDb, db, S n).
Definition transaction {A} (body : UploadDb → result StoreError (A * UploadDb)) :
    UM StoreError A := λ n db,
  if stmt_ok n then
    match body db with
    | Ok (a, db') => (Ok a, db', S n)
    | Err e => (Err e, db, S n)
    end
  else (Err StoreDb, db, S n).
Definition new_uuid {E} : UM E string := λ n db, (Ok (fresh_uuid n), db, S n).
Definition now {E} : UM E Z := λ n db, (Ok (utc_now n), db, S n).
End statements.

(** ** Canonical members *)

Section canonical.
Context `{EventJson}.
Fixpoint canonical_json (value : Value) : string :=
  match value with
  | JObject fields =>
      let members :=
        (fix go fs :=
           match fs with
           | [] => []
           | (k, v) :: fs =>
               (k, value_to_string (JString k) +:+ ":" +:+ canonical_json v) :: go fs
           end) fields in
      "{" +:+ String.concat "," (snd <$> sort_by_key fst members) +:+ "}"
  | JArray items => "[" +:+ String.concat "," (map canonical_json items) +:+ "]"
  | other => value_to_string other
  end.
End canonical.

Definition sha256_hex `{Sha256} (bytes : list N) : string :=
  bytes_string (sha256 bytes ≫= hex_byte).

Definition label_byte (b : N) : bool :=
  is_ascii_alphanumeric b || bool_decide (b ∈ string_bytes "_.:#/-").
Definition safe_label (raw : string) : string :=
  let bytes := string_bytes raw in
  if bool_decide (bytes ≠ []) && bool_decide (length bytes ≤ 128) && forallb label_byte bytes
  then raw else "redacted".

(** [DateTime::year] and [DateTime::month]. *)
Class ChronoDate := {
  year_of : Z → Z;
  month_of : Z → N;
}.
(** [{:04}] and [{:02}]. *)
Definition pad (width : nat) (s : string) : string :=
  String.concat "" (replicate (width - String.length s) "0") +:+ s.
Definition window_of `{ChronoDate} (ts : Z) : string :=
  pad 4 (pretty (year_of ts)) +:+ "-" +:+ pad 2 (pretty (month_of ts)).

Record StageReport := mkStageReport { sr_staged : nat; sr_expired_at_bound : nat }.
Record SealedBatch := mkSealedBatch {
  sb_batch_id : string;
  sb_window_id : string;
  sb_consent_id : string;
  sb_destination : string;
  sb_manifest_sha256 : string;
  sb_member_count : Z;
  sb_members_json : string;
  sb_attempts : Z;
}.

(** ** Consents *)

Section upload.
Context `{Chrono, ChronoFmt, ChronoDate, UrlParser, StringsJson, Sha256, AuditWire, EventJson}.
Context `{TableScan}.

(** [str < str]. *)
Definition str_lt (a b : string) : bool := bool_decide (¬ ord_le b a).
(** A stable sort, the greatest key first. *)
Definition sort_desc {A} (key : A → string) (l : list A) : list A :=
  reverse (sort_by_key key (reverse l)).

Definition consent_live (st : EgressState) (now : Z) (c : Consent) : bool :=
  bool_decide (con_purpose c = EvidenceBatchUpload) &&
  bool_decide (con_revoked_at c = None ∧ profile_generation c = es_generation st) &&
  match parse_from_rfc3339 (con_expires_at c) with
  | Some e => bool_decide (now < e)%Z
  | None => false
  end.
Definition live_consents (st : EgressState) (now : Z) : list Consent :=
  if decide (es_profile st = Personal)
  then sort_desc granted_at (filter (λ c, consent_live st now c = true) (consents st)) else [].

Definition profile_at (log : list (Z * Profile)) (ts : Z) : Profile :=
  match list_find (λ x, x.1 ≤ ts)%Z (reverse log) with
  | Some (_, x) => x.2
  | None => Unconfigured
  end.
Definition profile_history (rows : list (string * string * Z)) :
    result StoreError (list (Z * Profile)) :=
  collect_results
    ((λ r : string * string * Z,
        match parse_from_rfc3339 r.1.1, profile_parse r.1.2 with
        | Some ts, Some p => Ok (ts, p)
        | _, _ => Err (InvalidEgress "malformed profile log")
        end) <$> rows).

(** ** The records to stage *)

Record EventSrc := mkEventSrc {
  es_id : string;
  es_session_id : string;
  es_provider : string;
  es_kind : string;
  es_observed_at : string;
  es_tool_name : option string;
}.
Record ClaimSrc := mkClaimSrc {
  cl_id : string;
  cl_session_id : string;
  cl_source_event_id : string;
  cl_subject : string;
  cl_claimed_at : string;
  cl_parent_event_at : string;
}.
Record EvidenceSrc := mkEvidenceSrc {
  vs_id : string;
  vs_session_id : string;
  vs_source_event_id : string;
  vs_kind : string;
  vs_observed_at : string;
  vs_provenance : string;
  vs_parent_event_at : string;
}.
Record FindingSrc := mkFindingSrc {
  fs_id : string;
  fs_claim_id : string;
  fs_session_id : string;
  fs_verdict : string;
  fs_verifier_name : string;
  fs_computed_at : string;
  fs_claim_at : string;
  fs_parent_event_at : string;
}.

(** [substr(s, 1, 19)]. *)
Definition substr19 (s : string) : string := from_chars (take 19 (chars s)).
(** [LEFT JOIN upload_outbox .. WHERE o.object_id IS NULL AND substr(at) >=
    substr(since)], and the limit. *)
Definition due {A} (kind since : string) (id at_ : A → string)
    (outbox : gmap (string * string) OutboxRow) (l : list A) : list A :=
  take STAGE_CHUNK
    (filter (λ x, outbox !! (kind, id x) = None ∧ ord_le (substr19 since) (substr19 (at_ x))) l).

Definition event_at (db : EventDb) (id : string) : option string :=
  erow_observed_at <$> t_agent_events db !! id.
Definition event_srcs (db : EventDb) : list EventSrc :=
  (λ x : string * EventRow,
     mkEventSrc x.1 (erow_session_id x.2) (erow_provider x.2) (erow_kind x.2)
       (erow_observed_at x.2) (erow_tool_name x.2))
    <$> select_asc (λ _, true) erow_observed_at (t_agent_events db).
Definition claim_srcs (db : EventDb) : list ClaimSrc :=
  omap (λ x : string * ClaimRow,
     parent ← event_at db (crow_source_event_id x.2);
     Some (mkClaimSrc x.1 (crow_session_id x.2) (crow_source_event_id x.2) (crow_subject x.2)
             (crow_claimed_at x.2) parent))
    (select_asc (λ _, true) crow_claimed_at (t_claims db)).
Definition evidence_srcs (db : EventDb) : list EvidenceSrc :=
  omap (λ x : string * EvidenceRow,
     parent ← event_at db (vrow_source_event_id x.2);
     Some (mkEvidenceSrc x.1 (vrow_session_id x.2) (vrow_source_event_id x.2) (vrow_kind x.2)
             (vrow_observed_at x.2) (vrow_provenance x.2) parent))
    (select_asc (λ _, true) vrow_observed_at (t_evidence db)).
Definition finding_srcs (db : EventDb) : list FindingSrc :=
  omap (λ x : string * FindingsRow,
     c ← t_claims db !! frow_claim_id x.2;
     parent ← event_at db (crow_source_event_id c);
     Some (mkFindingSrc x.1 (frow_claim_id x.2) (crow_session_id c) (frow_verdict x.2)
             (frow_verifier_name x.2) (frow_computed_at x.2) (crow_claimed_at c) parent))
    (select_asc (λ _, true) frow_computed_at (t_findings db)).
(** [SELECT MIN(observed_at), provider]: of the session's earliest event. *)
Definition first_event (db : EventDb) (session : string) : option (string * string) :=
  (λ x : string * EventRow, (erow_observed_at x.2, erow_provider x.2))
    <$> head (select_asc (λ r, bool_decide (erow_session_id r = session)) erow_observed_at
                (t_agent_events db)).

(** A row to insert. *)
Record Member := mkMember {
  mb_kind : string;
  mb_object_id : string;
  mb_window : string;
  mb_fields : list (string * Value);
}.

Section eligible.
Context (eligible_since : Z) (history : list (Z * Profile)).

Definition eligible (ts : string) : option string :=
  parsed ← parse_from_rfc3339 ts;
  if bool_decide (parsed < eligible_since)%Z || bool_decide (profile_at history parsed ≠ Personal)
  then None else Some (window_of parsed).

Definition event_member (e : EventSrc) : option Member :=
  window ← eligible (es_observed_at e);
  Some (mkMember "events" (es_id e) window
          ([("id", JString (es_id e)); ("kind", JString (safe_label (es_kind e)));
            ("observed_at", JString (es_observed_at e));
            ("provider", JString (safe_label (es_provider e)));
            ("session_id", JString (es_session_id e))] ++
           match es_tool_name e with
           | Some t => [("tool_name", JString (safe_label t))]
           | None => []
           end)).
Definition session_member (db : EventDb) (session : string) : option Member :=
  '(first_seen, provider) ← first_event db session;
  window ← eligible first_seen;
  Some (mkMember "sessions" session window
          [("first_seen_at", JString first_seen); ("provider", JString (safe_label provider));
           ("session_id", JString session)]).
Definition claim_member (c : ClaimSrc) : option Member :=
  window ← eligible (cl_claimed_at c);
  _ ← eligible (cl_parent_event_at c);
  Some (mkMember "claims" (cl_id c) window
          [("claimed_at", JString (cl_claimed_at c)); ("id", JString (cl_id c));
           ("session_id", JString (cl_session_id c));
           ("source_event_id", JString (cl_source_event_id c));
           ("subject", JString (safe_label (cl_subject c)))]).
Definition evidence_member (v : EvidenceSrc) : option Member :=
  window ← eligible (vs_observed_at v);
  _ ← eligible (vs_parent_event_at v);
  Some (mkMember "evidence" (vs_id v) window
          [("id", JString (vs_id v)); ("kind", JString (safe_label (vs_kind v)));
           ("observed_at", JString (vs_observed_at v));
           ("provenance", JString (safe_label (vs_provenance v)));
           ("session_id", JString (vs_session_id v));
           ("source_event_id", JString (vs_source_event_id v))]).
Definition finding_member (f : FindingSrc) : option Member :=
  window ← eligible (fs_computed_at f);
  _ ← eligible (fs_claim_at f);
  _ ← eligible (fs_parent_event_at f);
  Some (mkMember "findings" (fs_id f) window
          [("claim_id", JString (fs_claim_id f)); ("computed_at", JString (fs_computed_at f));
           ("id", JString (fs_id f)); ("session_id", JString (fs_session_id f));
           ("verdict", JString (safe_label (fs_verdict f)));
           ("verifier_name", JString (safe_label (fs_verifier_name f)))]).

(** The sessions of the events that were eligible, each once, in order. *)
Definition staged_sessions (events : list EventSrc) : list string :=
  dedup (sort_by_key id
    (es_session_id <$> filter (λ e, is_Some (eligible (es_observed_at e))) events)).

Definition insert_member (staged_at consent_id : string)
    (st : nat * gmap (string * string) OutboxRow) (m : Member) :
    nat * gmap (string * string) OutboxRow :=
  match st.2 !! (mb_kind m, mb_object_id m) with
  | Some _ => st
  | None =>
      let json := canonical_json (JObject (mb_fields m)) in
      (S st.1,
       <[(mb_kind m, mb_object_id m) :=
           mkOutboxRow (mb_window m) json (sha256_hex (string_bytes json)) staged_at consent_id
             ObPending None]> st.2)
  end.

(** The transaction of [stage_upload_records]. *)
Definition stage_members (since staged_at consent_id : string) (db : EventDb)
    (outbox : gmap (string * string) OutboxRow) : nat * gmap (string * string) OutboxRow :=
  let stage ms st := foldl (insert_member staged_at consent_id) st ms in
  let events := due "events" since es_id es_observed_at outbox (event_srcs db) in
  let st := stage (omap event_member events) (0, outbox) in
  let st := stage (omap (session_member db) (staged_sessions events)) st in
  let st := stage (omap claim_member (due "claims" since cl_id cl_claimed_at st.2 (claim_srcs db))) st in
  let st :=
    stage (omap evidence_member (due "evidence" since vs_id vs_observed_at st.2 (evidence_srcs db))) st in
  stage (omap finding_member (due "findings" since fs_id fs_computed_at st.2 (finding_srcs db))) st.
End eligible.
End upload.

(** ** The operations *)

(** The outbox in the order SQLite visits it. *)
Class OutboxScan := {
  outbox_scan : gmap (string * string) OutboxRow → list ((string * string) * OutboxRow)
}.
Class OutboxScanOk `{OutboxScan} : Prop := outbox_scan_rows : ∀ m, outbox_scan m ≡ₚ map_to_list m.

(** A [COUNT] with its [GROUP BY], and the increments of a [BTreeMap]: how often each
    key occurs, in the order of the keys. *)
Definition tally (keys : list (string * string)) : gmap (string * string) nat :=
  foldr (λ k m, <[k := S (default 0 (m !! k))]> m) ∅ keys.
Definition counted (keys : list (string * string)) : list ((string * string) * nat) :=
  btree_iter (tally keys).

Section operations.
Context `{Chrono, ChronoFmt, ChronoDate, UrlParser, StringsJson, Sha256, AuditWire, EventJson}.
Context `{TableScan, OutboxScan, UploadWorld}.

Definition append_upload_event (event : AuditEvent) (at_ : Z) : UM StoreError unit := λ n db,
  let '(res, l) :=
    append_audit_event (if stmt_ok n then Commits else StatementFails) (t_ledger (up_egress db))
      event at_ in
  (let? a := res in Ok tt, with_egress (with_ledger (up_egress db) l) db, S n).
Definition audit_upload (action : AuditAction) (target : string) (outcome : AuditOutcome) :
    UM StoreError unit :=
  id ← new_uuid; t1 ← now; t2 ← now;
  append_upload_event
    (new_audit_event id (to_rfc3339 t1) ActorSystem action (TargetEgressPolicy target) outcome
       Metadata) t2.

Definition live_upload_consents : UM StoreError (list Consent) :=
  st ← query (λ db, egress_state (up_egress db));
  st ← lift_result st;
  t ← now;
  mret (live_consents st t).
Definition live_upload_consent : UM StoreError (option Consent) :=
  cs ← live_upload_consents; mret (head cs).

Definition is_pending (r : OutboxRow) : bool := bool_decide (ob_state r = ObPending).
Definition pending_rows (db : UploadDb) : list ((string * string) * OutboxRow) :=
  filter (λ x, is_pending x.2 = true) (outbox_scan (up_outbox db)).

(** *** The bound *)

Definition day_nanos : Z := 86400 * nanos_per_second.
(** SQLite's [length] of a text: its characters. *)
Definition text_length (s : string) : Z := Z.of_nat (length (chars s)).
Definition aged (cutoff : string) (r : OutboxRow) : bool := str_lt (ob_staged_at r) cutoff.

(** The oldest rows, until the excess is gone. *)
Fixpoint pick_victims (over : Z) (rows : list ((string * string) * OutboxRow)) :
    list ((string * string) * OutboxRow) :=
  match rows with
  | [] => []
  | x :: rows =>
      if decide (over ≤ 0)%Z then []
      else x :: pick_victims (over - text_length (ob_member_json x.2)) rows
  end.

Definition record_gap (window reason : string) (count : nat) (recorded_at : string) :
    UM StoreError unit :=
  exec (with_gap (mkGapRow window reason (Z.of_nat count) recorded_at));;
  audit_upload UploadGapRecorded
    ("gap:" +:+ window +:+ ":" +:+ reason +:+ ":" +:+ pretty count) Denied.

Definition expire_row (key : string * string) : UM StoreError unit :=
  exec (with_outbox (alter (λ r, if is_pending r then set_state ObExpired r else r) key)).

Definition enforce_outbox_bound (max_bytes : Z) (at_ : Z) : UM StoreError nat :=
  let cutoff := to_rfc3339 (at_ - OUTBOX_MAX_AGE_DAYS * day_nanos) in
  old ← query (λ db,
    ob_window_id <$> (filter (λ x, aged cutoff x.2 = true) (pending_rows db)).*2);
  young ← query (λ db, filter (λ x, aged cutoff x.2 = false) (pending_rows db));
  let total := foldr (λ x acc, text_length (ob_member_json x.2) + acc)%Z 0%Z young in
  let over := (total - max_bytes)%Z in
  victims ←
    (if decide (0 < over)%Z then
       oldest ← query (λ db,
         sort_by_key (λ x, ob_staged_at x.2)
           (filter (λ x, aged cutoff x.2 = false) (pending_rows db)));
       let victims := pick_victims over oldest in
       for_each victims (λ x, expire_row x.1);;
       mret victims
     else mret []);
  exec (update_outbox (λ r, is_pending r && aged cutoff r) (set_state ObExpired));;
  let dropped :=
    counted (((λ w, (w, "age_cap")) <$> old) ++
             ((λ x : (string * string) * OutboxRow, (ob_window_id x.2, "size_cap")) <$> victims)) in
  for_each dropped (λ d, record_gap d.1.1 d.1.2 d.2 (to_rfc3339 at_));;
  mret (sum_list (dropped.*2)).

(** *** Batches *)

Definition set_batch_state (st : BatchState) (error : option string) (acked : option string)
    (b : UploadBatchRow) : UploadBatchRow :=
  mkUploadBatchRow (bt_window_id b) (bt_consent_id b) (bt_destination b) (bt_manifest_sha256 b)
    (bt_canonicalization b) (bt_member_count b) (bt_byte_count b) (bt_members_json b) st
    (bt_attempts b) error (bt_sealed_at b) (bt_last_attempt_at b) acked.
Definition of_batch (batch_id : string) (r : OutboxRow) : bool :=
  bool_decide (ob_batch_id r = Some batch_id).

Definition acknowledge_upload_batch (batch_id : string) : UM StoreError unit :=
  t ← now;
  transaction (λ db,
    let db :=
      with_batches (alter (set_batch_state BtAcknowledged None (Some (to_rfc3339 t))) batch_id) db in
    Ok (tt, update_outbox (of_batch batch_id) (set_state ObAcknowledged) db));;
  audit_upload UploadBatchAcknowledged ("batch:" +:+ batch_id) Granted.
Definition poison_upload_batch (batch_id reason : string) : UM StoreError unit :=
  transaction (λ db,
    let db :=
      with_batches (alter (λ b, set_batch_state BtPoison (Some reason) (bt_acked_at b) b) batch_id)
        db in
    Ok (tt, update_outbox (of_batch batch_id) (set_state ObPoison) db));;
  audit_upload UploadBatchPoisoned ("batch:" +:+ batch_id) Denied.
Definition record_upload_attempt (batch_id : string) (error : option string) :
    UM StoreError unit :=
  t ← now;
  exec (with_batches (alter (λ b,
    mkUploadBatchRow (bt_window_id b) (bt_consent_id b) (bt_destination b) (bt_manifest_sha256 b)
      (bt_canonicalization b) (bt_member_count b) (bt_byte_count b) (bt_members_json b)
      (bt_state b) (bt_attempts b + 1) error (bt_sealed_at b) (Some (to_rfc3339 t))
      (bt_acked_at b)) batch_id)).

(** [SELECT batch_id, .. WHERE state = 'sealed']. *)
Definition sealed_batches (db : UploadDb) : list (string * UploadBatchRow) :=
  filter (λ x, bt_state x.2 = BtSealed) (scan (up_batches db)).

Definition retire_unauthorized_upload_work (live_consent_ids : list string) : UM StoreError nat :=
  stale ← query (λ db,
    counted ((λ x : (string * string) * OutboxRow, (ob_window_id x.2, ob_consent_id x.2))
               <$> pending_rows db));
  let ended := filter (λ g, g.1.2 ∉ live_consent_ids) stale in
  for_each ended (λ g,
    exec (update_outbox
            (λ r, is_pending r && bool_decide (ob_window_id r = g.1.1 ∧ ob_consent_id r = g.1.2))
            (set_state ObExpired));;
    t ← now;
    record_gap g.1.1 "consent_ended" g.2 (to_rfc3339 t));;
  sealed ← query sealed_batches;
  for_each (filter (λ b, bt_consent_id b.2 ∉ live_consent_ids) sealed) (λ b,
    poison_upload_batch b.1 "consent ended before the batch was acknowledged");;
  mret (sum_list (ended.*2)).

(** *** Staging *)

(** The renewed consent takes over the rows of the older ones with the same
    destination and data classes, and the earliest of their dates. *)
Fixpoint renew (consent : Consent) (older : list Consent) (since : string) :
    UM StoreError string :=
  match older with
  | [] => mret since
  | o :: older =>
      if bool_decide (con_destination o = con_destination consent ∧
                      data_classes o = data_classes consent)
      then
        exec (update_outbox (λ r, is_pending r && bool_decide (ob_consent_id r = con_id o))
                (set_consent (con_id consent)));;
        renew consent older (if str_lt (granted_at o) since then granted_at o else since)
      else renew consent older since
  end.

Definition stage_upload_records : UM StoreError StageReport :=
  live_all ← live_upload_consents;
  retired ← retire_unauthorized_upload_work (con_id <$> live_all);
  match live_all with
  | [] => mret (mkStageReport 0 retired)
  | consent :: older =>
      eligible_since_raw ← renew consent older (granted_at consent);
      match parse_from_rfc3339 eligible_since_raw with
      | None => mret (mkStageReport 0 retired)
      | Some eligible_since =>
          rows ← query (λ db, t_egress_profile_log (up_egress db));
          history ← lift_result (profile_history rows);
          t ← now;
          staged ← transaction (λ db,
            let '(n, outbox) :=
              stage_members eligible_since history (to_rfc3339 eligible_since) (to_rfc3339 t)
                (con_id consent) (up_events db) (up_outbox db) in
            Ok (n, with_outbox (λ _, outbox) db));
          t ← now;
          expired ← enforce_outbox_bound OUTBOX_MAX_BYTES t;
          mret (mkStageReport staged expired)
      end
  end.

(** *** Sealing *)

Definition members_of_kind (kind : string) (rows : list (string * Value)) : Value :=
  JArray (snd <$> filter (λ x, x.1 = kind) rows).
(** The members of the rows, and the object they are sealed as. *)
Definition member_values (rows : list ((string * string) * OutboxRow)) :
    result StoreError (list (string * Value)) :=
  collect_results
    ((λ x : (string * string) * OutboxRow,
        match value_from_str (ob_member_json x.2) with
        | Some v => Ok (x.1.1, v)
        | None => Err (StoreJson "upload_outbox member")
        end) <$> rows).
Definition members_object (values : list (string * Value)) : string :=
  canonical_json (JObject ((λ k, (k, members_of_kind k values)) <$> sort_by_key id KINDS)).
Definition seal_body (window_id consent_id destination batch_id at_ : string) (db : UploadDb) :
    result StoreError (option SealedBatch * UploadDb) :=
  let rows :=
    take MAX_BATCH_MEMBERS
      (sort_by_key fst
         (filter (λ x, is_pending x.2 &&
                       bool_decide (ob_window_id x.2 = window_id ∧ ob_consent_id x.2 = consent_id)
                       = true)
            (outbox_scan (up_outbox db)))) in
  match rows with
  | [] => Ok (None, db)
  | _ =>
      let? values := member_values rows in
      let members_json := members_object values in
      let manifest := sha256_hex (string_bytes members_json) in
      let count := Z.of_nat (length rows) in
      match up_batches db !! batch_id with
      | Some _ => Err StoreDb
      | None =>
          let db :=
            with_batches <[batch_id :=
              mkUploadBatchRow window_id consent_id destination manifest CANONICALIZATION count
                (Z.of_nat (length (string_bytes members_json))) members_json BtSealed 0 None at_
                None None]> db in
          let db :=
            with_outbox (λ m,
              foldr (λ x m, alter (λ r, set_batch batch_id (set_state ObInflight r)) x.1 m) m rows)
              db in
          Ok (Some (mkSealedBatch batch_id window_id consent_id destination manifest count
                      members_json 0), db)
      end
  end.
Definition seal_upload_batch (window_id consent_id destination : string) :
    UM StoreError (option SealedBatch) :=
  batch_id ← new_uuid; t ← now;
  sealed ← transaction (seal_body window_id consent_id destination batch_id (to_rfc3339 t));
  match sealed with
  | None => mret None
  | Some b =>
      audit_upload UploadBatchSealed
        ("batch:" +:+ batch_id +:+ ":" +:+ window_id +:+ ":" +:+ pretty (sb_member_count b)) Granted;;
      mret (Some b)
  end.

(** *** Reading *)

Definition batch_of_row (x : string * UploadBatchRow) : SealedBatch :=
  mkSealedBatch x.1 (bt_window_id x.2) (bt_consent_id x.2) (bt_destination x.2)
    (bt_manifest_sha256 x.2) (bt_member_count x.2) (bt_members_json x.2) (bt_attempts x.2).
Definition unfinished_upload_batches : UM StoreError (list SealedBatch) :=
  query (λ db, batch_of_row <$> sort_by_key (λ x, bt_sealed_at x.2) (sealed_batches db)).
Definition pending_upload_windows : UM StoreError (list string) :=
  query (λ db, dedup (sort_by_key id (ob_window_id <$> (pending_rows db).*2))).
Definition upload_gaps : UM StoreError (list GapRow) := query (λ db, reverse (up_gaps db)).
(** A few pending members of each kind, as they would be uploaded. *)
Definition preview_pending_members (window_id : option string) (per_kind : Z) :
    UM StoreError (list (string * string)) :=
  query (λ db,
    KINDS ≫= (λ kind,
      (λ x : (string * string) * OutboxRow, (kind, ob_member_json x.2)) <$>
        sql_limit per_kind
          (sort_by_key (λ x, x.1.2)
             (filter (λ x, x.1.1 = kind ∧ (window_id = None ∨ window_id = Some (ob_window_id x.2)))
                (pending_rows db))))).
Definition outbox_state_str (s : OutboxState) : string :=
  match s with
  | ObPending => "pending" | ObInflight => "inflight" | ObAcknowledged => "acknowledged"
  | ObPoison => "poison" | ObExpired => "expired"
  end.
Definition batch_state_str (s : BatchState) : string :=
  match s with BtSealed => "sealed" | BtAcknowledged => "acknowledged" | BtPoison => "poison" end.
Definition upload_window_counts : UM StoreError (list ((string * string) * nat)) :=
  query (λ db,
    counted ((λ x : (string * string) * OutboxRow, (ob_window_id x.2, outbox_state_str (ob_state x.2)))
               <$> outbox_scan (up_outbox db))).
Definition upload_batch_counts : UM StoreError (list (string * nat)) :=
  query (λ db,
    (λ g : (string * string) * nat, (g.1.1, g.2)) <$>
      counted ((λ x : string * UploadBatchRow, (batch_state_str (bt_state x.2), ""))
                 <$> scan (up_batches db))).
End operations.
