(* ===== verification/UploadRun.v ===== *)
(** * Sending the metadata upload

    [fornax-upload/src/lib.rs]: one run of the uploader, which stages, seals
    and sends batches under the live consent and asks the persisted egress
    decision before every request; and one tick of the daemon's schedule. The
    network, the environment, the lock file and the clock are the world's. *)

From S2P Require Import Prelude.
From S2P Require Import Types.
From S2P Require Import Text.
From S2P Require Import PolicyContent.
From S2P Require Import AuditEvent.
From S2P Require Import AuditLedger.
From S2P Require Import EventStore.
From S2P Require Import EventRead.
From S2P Require Import Egress.
From S2P Require Import EgressStore.
From S2P Require Import Upload.

Local Open Scope fornax_scope.

Definition MAX_ATTEMPTS_PER_RUN : nat := 4.

(** ** Backoff *)

Definition u64_max : Z := (2 ^ 64 - 1)%Z.
(** In milliseconds; [base] is the environment's. *)
Definition backoff (base : option Z) (attempt : Z) : Z :=
  Z.min (Z.min (default 1000%Z base * Z.shiftl 1 (Z.min attempt 6)) u64_max) 30000.
(** A [Retry-After] in seconds. *)
Definition retry_after (header : option Z) : option Z := Z.min 30 <$> header.

(** ** The lock *)

Definition LOCK_STALE_AFTER : Z := 30 * 60.
(** What creating the lock file answers: created, there already with its age
    if that can be told, or another error. *)
Inductive LockAnswer := LockCreated | LockExists (age : option Z) | LockError.
(** Two tries; a stale lock is removed before the second. *)
Definition acquire_lock (first second : LockAnswer) : result unit bool :=
  let stale age := match age with Some a => bool_decide (LOCK_STALE_AFTER < a)%Z | None => false end in
  match first with
  | LockCreated => Ok true
  | LockError => Err tt
  | LockExists age =>
      if stale age then
        match second with
        | LockCreated => Ok true
        | LockError => Err tt
        | LockExists _ => Ok false
        end
      else Ok false
  end.

(** ** The world *)

Inductive HttpAnswer :=
| Response (status : N)
| HttpTimeout
| HttpTransport.
Class HttpWorld := {
  http_post : nat → UploadRequest → HttpAnswer;
  cloud_sync_allowed : nat → bool;
  (** what other processes did to the egress tables before the n-th decision *)
  meanwhile : nat → EgressDb → EgressDb;
  (** [reqwest::Url::parse] and [as_str] *)
  url_text : string → option string;
}.

Inductive UploadError :=
| UpStore (e : StoreError)
| UpLock
| UpBusy
| UpNoConsent
| UpBadUrl
| UpDevice (e : string)
| UpCredential (e : string)
| UpMembers
| UpDenied (d : EgressDenial)
| UpPermitMismatch
| UpReceiver (reason : string)
| UpCredentialRejected (status : N).

Definition lift {A} (m : UM StoreError A) : UM UploadError A := λ n db,
  match m n db with
  | (Ok a, db, n) => (Ok a, db, n)
  | (Err e, db, n) => (Err (UpStore e), db, n)
  end.

Inductive Sent := SentAcknowledged | SentPoisoned | SentPending.

Definition upload_classes : gset EgressContentClass := {[EvidenceMetadata; FindingVerdicts]}.

Definition is_success (status : N) : bool := bool_decide (200 ≤ status < 300)%N.
Definition is_redirection (status : N) : bool := bool_decide (300 ≤ status < 400)%N.
Definition is_server_error (status : N) : bool := bool_decide (500 ≤ status < 600)%N.

Section run.
Context `{Chrono, ChronoFmt, ChronoDate, UrlParser, StringsJson, Sha256, AuditWire, EventJson}.
Context `{TableScan, OutboxScan, UploadWorld, HttpWorld}.

(** [Store::decide_egress] on the tables of this moment. *)
Definition ask_egress (url : string) : UM UploadError EgressPermit := λ n db,
  let db := with_egress (meanwhile n (up_egress db)) db in
  (match (if stmt_ok n
          then decide_egress (up_egress db) EvidenceBatchUpload url upload_classes
                 (cloud_sync_allowed n) (utc_now n)
          else Err StateUnreadable) with
   | Ok p => Ok p
   | Err d => Err (UpDenied d)
   end, db, S n).
Definition post (req : UploadRequest) : UM UploadError HttpAnswer := λ n db,
  (Ok (http_post n req),
   mkUploadDb (up_events db) (up_egress db) (up_outbox db) (up_batches db) (up_gaps db)
     (up_requests db ++ [mkSending req (up_egress db) n]), S n).

Definition status_text (status : N) : string := "http " +:+ pretty.pretty status.

(** One attempt: [Some] when the loop ends with it. *)
Definition attempt_answer (batch_id : string) (answer : HttpAnswer) : UM UploadError (option Sent) :=
  let again reason :=
    lift (record_upload_attempt batch_id (Some reason));; mret None in
  match answer with
  | HttpTimeout => again "timeout"
  | HttpTransport => again "transport error"
  | Response status =>
      if is_success status then
        lift (record_upload_attempt batch_id None);;
        lift (acknowledge_upload_batch batch_id);;
        mret (Some SentAcknowledged)
      else if is_redirection status || bool_decide (status ∈ [404; 405; 409; 413]%N) then
        let reason := if is_redirection status then "redirect refused" else status_text status in
        lift (record_upload_attempt batch_id (Some reason));;
        fail (UpReceiver reason)
      else if bool_decide (status = 401 ∨ status = 403)%N then
        lift (record_upload_attempt batch_id (Some "credential rejected"));;
        fail (UpCredentialRejected status)
      else if bool_decide (status = 408 ∨ status = 429)%N || is_server_error status then
        again (status_text status)
      else
        lift (record_upload_attempt batch_id (Some (status_text status)));;
        lift (poison_upload_batch batch_id (status_text status));;
        mret (Some SentPoisoned)
  end.
Fixpoint send_attempts (attempts : nat) (url : string) (req : UploadRequest) :
    UM UploadError Sent :=
  match attempts with
  | 0 => mret SentPending
  | S attempts =>
      permit ← ask_egress url;
      if authorizes permit EvidenceBatchUpload url then
        answer ← post req;
        ended ← attempt_answer (rq_batch_id req) answer;
        match ended with
        | Some sent => mret sent
        | None => send_attempts attempts url req
        end
      else fail UpPermitMismatch
  end.
Definition send_batch (url device credential : string) (b : SealedBatch) : UM UploadError Sent :=
  match value_from_str (sb_members_json b) with
  | None => fail UpMembers
  | Some members =>
      send_attempts MAX_ATTEMPTS_PER_RUN url
        (mkUploadRequest url credential (sb_manifest_sha256 b) device (sb_batch_id b)
           (sb_window_id b) (sb_manifest_sha256 b) members)
  end.

(** ** A run *)

Record RunReport := mkRunReport {
  rr_staged : nat;
  rr_expired_at_bound : nat;
  rr_sent : nat;
  rr_poisoned : nat;
  rr_pending : nat;
  rr_skipped : list string;
}.
(** The counters of the loop. *)
Record Tally := mkTally {
  ta_sent : nat;
  ta_poisoned : nat;
  ta_pending : nat;
  ta_skipped : list string;
}.
Definition tally_sent (t : Tally) : Tally :=
  mkTally (S (ta_sent t)) (ta_poisoned t) (ta_pending t) (ta_skipped t).
Definition tally_poisoned (t : Tally) : Tally :=
  mkTally (ta_sent t) (S (ta_poisoned t)) (ta_pending t) (ta_skipped t).
Definition tally_pending (t : Tally) : Tally :=
  mkTally (ta_sent t) (ta_poisoned t) (S (ta_pending t)) (ta_skipped t).
Definition tally_skipped (id : string) (t : Tally) : Tally :=
  mkTally (ta_sent t) (ta_poisoned t) (ta_pending t) (ta_skipped t ++ [id]).

Section loop.
Context (consent : Consent) (url device credential : string).

(** The loop first takes the unfinished batches, from the end of the list,
    which it never refills: [inl] is how it ended, [inr] the budget left when
    the list is empty. *)
Fixpoint resend (work : list SealedBatch) (budget : nat) (t : Tally) :
    UM UploadError (Tally + (nat * Tally)) :=
  match work with
  | [] => mret (inr (budget, t))
  | b :: work =>
      if decide (sb_destination b ≠ con_destination consent)
      then resend work budget (tally_skipped (sb_batch_id b) t)
      else
        match budget with
        | 0 => mret (inl (tally_pending t))
        | S budget =>
            sent ← send_batch url device credential b;
            match sent with
            | SentAcknowledged => resend work budget (tally_sent t)
            | SentPoisoned => mret (inl (tally_poisoned t))
            | SentPending => mret (inl (tally_pending t))
            end
        end
  end.
(** The first window with something to seal. *)
Fixpoint seal_next (windows : list string) : UM UploadError (option SealedBatch) :=
  match windows with
  | [] => mret None
  | w :: windows =>
      sealed ← lift (seal_upload_batch w (con_id consent) (con_destination consent));
      match sealed with
      | Some b => mret (Some b)
      | None => seal_next windows
      end
  end.
Fixpoint seal_and_send (windows : list string) (budget : nat) (t : Tally) : UM UploadError Tally :=
  next ← seal_next windows;
  match next with
  | None => mret t
  | Some b =>
      match budget with
      | 0 => mret (tally_pending t)
      | S budget =>
          sent ← send_batch url device credential b;
          match sent with
          | SentAcknowledged => seal_and_send windows budget (tally_sent t)
          | SentPoisoned => mret (tally_poisoned t)
          | SentPending => mret (tally_pending t)
          end
      end
  end.
End loop.

(** The lock, the device id and the credential are read from the environment
    and are arguments. *)
Definition run_upload (lock : result unit bool) (device credential : result UploadError string)
    (window : option string) (max_batches : nat) : UM UploadError RunReport :=
  match lock with
  | Err _ => fail UpLock
  | Ok false => fail UpBusy
  | Ok true =>
      live ← lift live_upload_consent;
      match live with
      | None => fail UpNoConsent
      | Some consent =>
          staged ← lift stage_upload_records;
          match url_text (con_destination consent) with
          | None => fail UpBadUrl
          | Some url =>
              device ← lift_result device;
              credential ← lift_result credential;
              work ← lift unfinished_upload_batches;
              windows ←
                match window with
                | Some w => mret [w]
                | None =>
                    t ← now;
                    ws ← lift pending_upload_windows;
                    mret (filter (λ w, str_lt w (window_of t) = true) ws)
                end;
              ended ← resend consent url device credential (reverse work) max_batches (mkTally 0 0 0 []);
              t ← match ended with
                  | inl t => mret t
                  | inr (budget, t) => seal_and_send consent url device credential windows budget t
                  end;
              mret (mkRunReport (sr_staged staged) (sr_expired_at_bound staged) (ta_sent t)
                      (ta_poisoned t) (ta_pending t) (ta_skipped t))
          end
      end
  end.

(** ** The schedule *)

Inductive TickOutcome :=
| TickDisabled
| TickBusy
| TickNoConsent
| TickNothingDue
| TickNotConfigured (e : UploadError)
| TickRan (report : RunReport).

Definition sync_allowed : UM UploadError bool := λ n db, (Ok (cloud_sync_allowed n), db, S n).
Definition closed_due (open : string) : UM UploadError bool :=
  ws ← lift pending_upload_windows; mret (existsb (λ w, str_lt w open) ws).
Definition run_or_busy (m : UM UploadError RunReport) : UM UploadError TickOutcome := λ n db,
  match m n db with
  | (Ok r, db, n) => (Ok (TickRan r), db, n)
  | (Err UpBusy, db, n) => (Ok TickBusy, db, n)
  | (Err e, db, n) => (Err e, db, n)
  end.
Definition scheduled_tick (lock : result unit bool) (device credential : result UploadError string) :
    UM UploadError TickOutcome :=
  allowed ← sync_allowed;
  if negb allowed then mret TickDisabled
  else
    live ← lift live_upload_consent;
    match live with
    | None => mret TickNoConsent
    | Some _ =>
        t ← now;
        let open := window_of t in
        closed ← closed_due open;
        due ← (if closed : bool then mret true
               else lift stage_upload_records;; closed_due open);
        unfinished ← (if due : bool then mret [] else lift unfinished_upload_batches);
        if negb due && bool_decide (length (unfinished : list SealedBatch) = 0)
        then mret TickNothingDue
        else
          match device, credential with
          | Err e, _ => mret (TickNotConfigured e)
          | Ok _, Err e => mret (TickNotConfigured e)
          | Ok _, Ok _ => run_or_busy (run_upload lock device credential None 8)
          end
    end.
End run.
