(* ===== verification/UploadSpec.v ===== *)
(** * The outbox and its batches

    What every operation of [Upload] does to the tables, whichever statement
    fails, and the invariant that ties the outbox to the batches: a row is
    pending or expired until it is sealed, a sealed row is in the state of its
    batch, and a batch's members are, for ever, exactly its rows. *)

From stdpp Require Import sorting.
From S2P Require Import Prelude.
From S2P Require Import Types.
From S2P Require Import Text.
From S2P Require Import PolicyContent.
From S2P Require Import AuditEvent.
From S2P Require Import AuditLedger.
From S2P Require Import EventStore.
From S2P Require Import EventRead.
From S2P Require Import Egress.
From S2P Require Import EgressStore.
From S2P Require Import Upload.

Local Open Scope fornax_scope.

(** ** What a computation keeps *)

Definition keeps {E A} (R : relation UploadDb) (m : UM E A) : Prop :=
  ∀ n db, R db (m n db).1.2.

Section keeps.
Context {E : Type} (R : relation UploadDb) `{!PreOrder R}.

Lemma keeps_ret {A} (a : A) : keeps R (mret a : UM E A).
Proof. by intros n db. Qed.
Lemma keeps_fail {A} (e : E) : keeps R (fail e : UM E A).
Proof. by intros n db. Qed.
Lemma keeps_lift_result {A} (r : result E A) : keeps R (lift_result r).
Proof. by intros n db. Qed.
Lemma keeps_bind {A B} (m : UM E A) (k : A → UM E B) :
  keeps R m → (∀ a, keeps R (k a)) → keeps R (m ≫= k).
Proof.
  intros Hm Hk n db. specialize (Hm n db). unfold mbind, um_bind.
  destruct (m n db) as [[[a|e] db1] n1]; [|done]. by trans db1; [|apply Hk].
Qed.
Lemma keeps_for_each {A} (l : list A) (f : A → UM E unit) :
  (∀ a, keeps R (f a)) → keeps R (for_each l f).
Proof.
  intros Hf. induction l; [apply keeps_ret|]. by apply keeps_bind.
Qed.

Context `{UploadWorld}.
Lemma keeps_new_uuid : keeps R (new_uuid (E := E)).
Proof. by intros n db. Qed.
Lemma keeps_now : keeps R (now (E := E)).
Proof. by intros n db. Qed.
End keeps.

Section statement_keeps.
Context `{UploadWorld} (R : relation UploadDb) `{!PreOrder R}.
Lemma keeps_query {A} (f : UploadDb → A) : keeps R (query f).
Proof. intros n db. unfold query. by destruct (stmt_ok n). Qed.
Lemma keeps_exec (f : UploadDb → UploadDb) : (∀ db, R db (f db)) → keeps R (exec f).
Proof. intros Hf n db. unfold exec. destruct (stmt_ok n); simpl; [apply Hf|done]. Qed.
Lemma keeps_transaction {A} (body : UploadDb → result StoreError (A * UploadDb)) :
  (∀ db a db', body db = Ok (a, db') → R db db') → keeps R (transaction body).
Proof.
  intros Hb n db. unfold transaction. destruct (stmt_ok n); simpl; [|done].
  destruct (body db) as [[a db']|] eqn:Eb; simpl; [by eapply Hb|done].
Qed.
End statement_keeps.
(** Goes through a computation, down to its statements. *)
Ltac keeps :=
  repeat match goal with
  | |- ∀ _, _ => intro
  | |- PreOrder _ => apply _
  | |- keeps _ (mret _) => apply keeps_ret
  | |- keeps _ (fail _) => apply keeps_fail
  | |- keeps _ (lift_result _) => apply keeps_lift_result
  | |- keeps _ new_uuid => apply keeps_new_uuid
  | |- keeps _ now => apply keeps_now
  | |- keeps _ (query _) => apply keeps_query
  | |- keeps _ (mbind _ _) => apply keeps_bind
  | |- keeps _ (for_each _ _) => apply keeps_for_each
  | |- keeps _ (match ?x with _ => _ end) => destruct x
  end.

(** ** The invariant *)

(** The state of the rows of a batch. *)
Definition rows_state (s : BatchState) : OutboxState :=
  match s with
  | BtSealed => ObInflight
  | BtAcknowledged => ObAcknowledged
  | BtPoison => ObPoison
  end.

Section invariant.
Context `{Sha256, EventJson}.
Implicit Types (outbox : gmap (string * string) OutboxRow) (batches : gmap string UploadBatchRow).

Definition row_ok batches (r : OutboxRow) : Prop :=
  ob_member_sha256 r = sha256_hex (string_bytes (ob_member_json r)) ∧
  match ob_batch_id r with
  | None => ob_state r = ObPending ∨ ob_state r = ObExpired
  | Some i =>
      ∃ b, batches !! i = Some b ∧ ob_state r = rows_state (bt_state b) ∧
        ob_window_id r = bt_window_id b ∧ ob_consent_id r = bt_consent_id b
  end.

(** The rows sealed in a batch, in the order of their keys. *)
Definition batch_rows (batch_id : string) outbox : list ((string * string) * OutboxRow) :=
  sort_by_key fst (filter (λ x, ob_batch_id x.2 = Some batch_id) (map_to_list outbox)).

Record batch_ok outbox (batch_id : string) (b : UploadBatchRow) : Prop := {
  bo_members : ∃ values, member_values (batch_rows batch_id outbox) = Ok values ∧
                         bt_members_json b = members_object values;
  bo_manifest : bt_manifest_sha256 b = sha256_hex (string_bytes (bt_members_json b));
  bo_bytes : bt_byte_count b = Z.of_nat (length (string_bytes (bt_members_json b)));
  bo_count : bt_member_count b = Z.of_nat (length (batch_rows batch_id outbox));
  bo_bound : 0 < length (batch_rows batch_id outbox) ≤ MAX_BATCH_MEMBERS;
}.

Record upload_inv (db : UploadDb) : Prop := {
  inv_rows : map_Forall (λ _ r, row_ok (up_batches db) r) (up_outbox db);
  inv_batches : map_Forall (batch_ok (up_outbox db)) (up_batches db);
}.
End invariant.

(** ** How the tables advance *)

Record row_next (r r' : OutboxRow) : Prop := {
  rn_window : ob_window_id r' = ob_window_id r;
  rn_json : ob_member_json r' = ob_member_json r;
  rn_sha256 : ob_member_sha256 r' = ob_member_sha256 r;
  rn_staged_at : ob_staged_at r' = ob_staged_at r;
  rn_batch : is_Some (ob_batch_id r) →
    ob_batch_id r' = ob_batch_id r ∧ ob_consent_id r' = ob_consent_id r;
  rn_pending : ob_state r ≠ ObPending → ob_state r' ≠ ObPending;
  rn_expired : ob_state r = ObExpired → ob_state r' = ObExpired;
}.
#[export] Instance row_next_preorder : PreOrder row_next.
Proof.
  split; [by intros r|]. intros r1 r2 r3 [] []. split; try congruence; eauto.
  intros Hs. destruct rn_batch0 as [H1 H2]; [done|]. rewrite H1 in rn_batch1.
  destruct rn_batch1 as [H3 H4]; [done|]. split; congruence.
Qed.

(** All but the state, the attempts and what they left. *)
Definition batch_content (b : UploadBatchRow) :=
  (bt_window_id b, bt_consent_id b, bt_destination b, bt_manifest_sha256 b,
   bt_canonicalization b, bt_member_count b, bt_byte_count b, bt_members_json b, bt_sealed_at b).
Definition batch_next (b b' : UploadBatchRow) : Prop :=
  batch_content b' = batch_content b ∧ (bt_state b ≠ BtSealed → bt_state b' ≠ BtSealed).
#[export] Instance batch_next_preorder : PreOrder batch_next.
Proof.
  split; [by intros b|]. intros b1 b2 b3 [H1 H2] [H3 H4]. split; [congruence|eauto].
Qed.

(** Every record of a table is still there, one step further. *)
Definition table_next {K A} `{Countable K} (R : relation A) (m m' : gmap K A) : Prop :=
  ∀ k a, m !! k = Some a → ∃ a', m' !! k = Some a' ∧ R a a'.
#[export] Instance table_next_preorder {K A} `{Countable K} (R : relation A) :
  PreOrder R → PreOrder (table_next (K := K) R).
Proof.
  intros ?. split; [intros m k a Ha; by exists a|].
  intros m1 m2 m3 H1 H2 k a Ha. destruct (H1 k a Ha) as (b & Hb & ?).
  destruct (H2 k b Hb) as (c & Hc & ?). exists c. split; [done|by trans b].
Qed.

Record advances (db db' : UploadDb) : Prop := {
  ad_outbox : table_next row_next (up_outbox db) (up_outbox db');
  ad_batches : table_next batch_next (up_batches db) (up_batches db');
  ad_gaps : up_gaps db `prefix_of` up_gaps db';
}.
#[export] Instance advances_preorder : PreOrder advances.
Proof.
  split; [by intros db; split|]. intros db1 db2 db3 [] [].
  split; [by trans (up_outbox db2)|by trans (up_batches db2)|by trans (up_gaps db2)].
Qed.

(** From a state that satisfies the invariant. *)
Definition sound_step `{Sha256, EventJson} : relation UploadDb := λ db db',
  upload_inv db → upload_inv db' ∧ advances db db'.
#[export] Instance sound_step_preorder `{Sha256, EventJson} : PreOrder sound_step.
Proof.
  split; [by intros db|]. intros db1 db2 db3 H1' H2' Hi. destruct (H1' Hi) as [Hi2 ?].
  destruct (H2' Hi2) as [? ?]. split; [done|by trans db2].
Qed.

(** ** The members of a batch *)

Section members.
Context `{Sha256, EventJson}.
Implicit Types (outbox : gmap (string * string) OutboxRow).

(** The members sealed in a batch. *)
Definition sealed_map (batch_id : string) outbox : gmap (string * string) string :=
  omap (λ r, if decide (ob_batch_id r = Some batch_id) then Some (ob_member_json r) else None)
    outbox.

Lemma sealed_map_lookup batch_id outbox k json :
  sealed_map batch_id outbox !! k = Some json ↔
  ∃ r, outbox !! k = Some r ∧ ob_batch_id r = Some batch_id ∧ ob_member_json r = json.
Proof.
  unfold sealed_map. rewrite lookup_omap, bind_Some. split.
  - intros (r & Hr & Hj). case_decide; simplify_eq. eauto.
  - intros (r & Hr & Hb & <-). exists r. by rewrite decide_True.
Qed.

Lemma fst_sorted {A B} (f : A → B) (l : list ((string * string) * A)) :
  StronglySorted (key_le fst) l → StronglySorted (key_le fst) (prod_map id f <$> l).
Proof.
  induction 1 as [|x l Hl IH Hx]; constructor; [done|].
  by apply Forall_fmap.
Qed.
Lemma fst_prod_map {A B} (f : A → B) (l : list ((string * string) * A)) :
  (prod_map id f <$> l).*1 = l.*1.
Proof. rewrite <- list_fmap_compose. by apply list_fmap_ext. Qed.
Lemma filter_keys_NoDup {A} (P : (string * string) * A → Prop) `{∀ x, Decision (P x)}
    (m : gmap (string * string) A) : NoDup (filter P (map_to_list m)).*1.
Proof. apply NoDup_fmap_fst; [|apply NoDup_filter, NoDup_map_to_list].
  intros k a1 a2 [_ Ha1%elem_of_map_to_list]%list_elem_of_filter
    [_ Ha2%elem_of_map_to_list]%list_elem_of_filter. congruence.
Qed.

Lemma batch_rows_members batch_id outbox :
  prod_map id ob_member_json <$> batch_rows batch_id outbox =
  sort_by_key fst (map_to_list (sealed_map batch_id outbox)).
Proof.
  assert (NoDup (prod_map id ob_member_json <$> batch_rows batch_id outbox).*1) as Hnd.
  { rewrite fst_prod_map. unfold batch_rows. rewrite sort_by_key_Permutation.
    apply filter_keys_NoDup. }
  apply (sorted_by_key_unique fst);
    [done| |apply fst_sorted, sort_by_key_sorted|apply sort_by_key_sorted].
  apply NoDup_Permutation; [by eapply NoDup_fmap_1| |].
  { rewrite sort_by_key_Permutation. apply NoDup_map_to_list. }
  intros [k json]. rewrite elem_of_sort_by_key, elem_of_map_to_list, sealed_map_lookup.
  rewrite list_elem_of_fmap. unfold batch_rows. setoid_rewrite elem_of_sort_by_key.
  setoid_rewrite list_elem_of_filter. split.
  - intros ([k' r] & [= -> ->] & Hb & Hr%elem_of_map_to_list). eauto.
  - intros (r & Hr & Hb & <-). exists (k, r). by rewrite elem_of_map_to_list.
Qed.

(** Only the keys and the members of the rows matter. *)
Lemma member_values_members rows rows' :
  prod_map id ob_member_json <$> rows = prod_map id ob_member_json <$> rows' →
  member_values rows = member_values rows'.
Proof.
  intros Heq. unfold member_values. f_equal.
  pose (g := λ x : (string * string) * string,
    match value_from_str x.2 with
    | Some v => Ok (x.1.1, v)
    | None => Err (StoreJson "upload_outbox member")
    end).
  trans (g <$> (prod_map id ob_member_json <$> rows)).
  - rewrite <- list_fmap_compose. by apply list_fmap_ext.
  - rewrite Heq, <- list_fmap_compose. by apply list_fmap_ext.
Qed.

Lemma batch_ok_sealed batch_id outbox outbox' b b' :
  sealed_map batch_id outbox' = sealed_map batch_id outbox →
  batch_content b' = batch_content b → batch_ok outbox batch_id b → batch_ok outbox' batch_id b'.
Proof.
  intros Hs [= _ _ _ Hm _ Hc Hy Hj _] [(values & Hv & Hvj) ????].
  pose proof (batch_rows_members batch_id outbox) as Heq.
  rewrite <- Hs, <- batch_rows_members in Heq.
  assert (length (batch_rows batch_id outbox') = length (batch_rows batch_id outbox)) as Hl
    by by rewrite <- (length_fmap (prod_map id ob_member_json)), <- Heq, length_fmap.
  split; rewrite ?Hm, ?Hc, ?Hy, ?Hj, ?Hl; [|done..].
  exists values. by rewrite (member_values_members _ (batch_rows batch_id outbox)).
Qed.
End members.

(** ** Statements *)

Section statements.
Context `{Sha256, EventJson}.

(** A pending row may change its consent or expire. *)
Definition row_edit (r r' : OutboxRow) : Prop :=
  r' = r ∨ ob_state r = ObPending ∧ row_next r r' ∧ ob_batch_id r' = ob_batch_id r ∧
           (ob_state r' = ObPending ∨ ob_state r' = ObExpired).

Lemma row_edit_next r r' : row_edit r r' → row_next r r'.
Proof. by intros [->|(_ & ? & _)]. Qed.
Lemma pending_unsealed batches r : row_ok batches r → ob_state r = ObPending → ob_batch_id r = None.
Proof.
  intros [_ Hb] Hp. destruct (ob_batch_id r); [|done].
  destruct Hb as (b & _ & Hs & _). rewrite Hp in Hs. by destruct (bt_state b).
Qed.

Lemma edit_sound db db' :
  up_batches db' = up_batches db → up_gaps db `prefix_of` up_gaps db' →
  (upload_inv db → ∀ k, option_Forall2 row_edit (up_outbox db !! k) (up_outbox db' !! k)) →
  sound_step db db'.
Proof.
  intros Hb Hg Hedit Hinv. specialize (Hedit Hinv). destruct Hinv as [Hr Hbs]. split; [split|split; [|by rewrite Hb|done]].
  - rewrite Hb. intros k r' Hr'. specialize (Hedit k). rewrite Hr' in Hedit.
    inversion Hedit as [r ? [->|(Hp & Hn & Hbi & Hst)] Hk|]; subst.
    { by eapply Hr. }
    assert (row_ok (up_batches db) r) as Hok by by eapply Hr.
    pose proof (pending_unsealed _ _ Hok Hp) as Hnone. destruct Hok as [Hsha _].
    split; [by rewrite (rn_sha256 _ _ Hn), (rn_json _ _ Hn)|]. by rewrite Hbi, Hnone.
  - rewrite Hb. intros i b Hi. eapply batch_ok_sealed; [|done|by apply Hbs].
    apply map_eq. intros k. unfold sealed_map. rewrite !lookup_omap.
    specialize (Hedit k). destruct (up_outbox db !! k) as [r|] eqn:Ek; inversion Hedit
      as [? r' [->|(Hp & Hn & Hbi & Hst)]|]; subst; simpl; try done.
    rewrite Hbi. by rewrite (pending_unsealed _ _ (Hr _ _ Ek) Hp).
  - intros k r Hk. specialize (Hedit k). rewrite Hk in Hedit.
    inversion Hedit as [? r' He|]; subst. exists r'. split; [done|by apply row_edit_next].
Qed.

Lemma update_sound P f db :
  (∀ r, row_ok (up_batches db) r → P r = true → row_edit r (f r)) →
  sound_step db (update_outbox P f db).
Proof.
  intros Hf. apply edit_sound; [done..|]. intros [Hr _] k. simpl. rewrite lookup_fmap.
  destruct (up_outbox db !! k) as [r|] eqn:Ek; simpl; constructor.
  destruct (P r) eqn:Ep; [apply Hf; [by eapply Hr|done]|by left].
Qed.
Lemma alter_sound k f db :
  (∀ r, row_edit r (f r)) → sound_step db (with_outbox (alter f k) db).
Proof.
  intros Hf. apply edit_sound; [done..|]. intros _ k'. simpl. rewrite lookup_alter.
  case_decide; [|destruct (up_outbox db !! k'); constructor; by left].
  subst. destruct (up_outbox db !! k'); simpl; constructor. apply Hf.
Qed.
Lemma gap_sound g db : sound_step db (with_gap g db).
Proof.
  apply edit_sound; [done|by eexists|]. intros _ k. simpl.
  destruct (up_outbox db !! k); constructor. by left.
Qed.

Lemma expire_edit r : is_pending r = true → row_edit r (set_state ObExpired r).
Proof.
  intros Hp%bool_decide_eq_true. right. split_and!; [done| |done|by right].
  split; simpl; rewrite ?Hp; done.
Qed.
Lemma consent_edit batches c r :
  row_ok batches r → is_pending r = true → row_edit r (set_consent c r).
Proof.
  intros Hok Hp%bool_decide_eq_true. pose proof (pending_unsealed _ _ Hok Hp) as Hb. right. split_and!; [done| |done|by left].
  split; simpl; rewrite ?Hp, ?Hb; try done; by intros [].
Qed.

Lemma egress_sound e db : sound_step db (with_egress e db).
Proof.
  apply edit_sound; [done..|]. intros _ k. simpl.
  destruct (up_outbox db !! k); constructor. by left.
Qed.

(** The batch and its rows change together. *)
Lemma batch_sound batch_id f h db db' :
  (∀ b, batch_next b (f b)) →
  (∀ r b, ob_state r = rows_state (bt_state b) → h r = set_state (rows_state (bt_state (f b))) r) →
  up_batches db' = alter f batch_id (up_batches db) →
  up_outbox db' = (λ r, if of_batch batch_id r then h r else r) <$> up_outbox db →
  up_gaps db' = up_gaps db →
  sound_step db db'.
Proof.
  intros Hf Hh Hb Ho Hg [Hr Hbs].
  assert (∀ k r, up_outbox db !! k = Some r → of_batch batch_id r = true →
    ∃ b, up_batches db !! batch_id = Some b ∧ h r = set_state (rows_state (bt_state (f b))) r
         ∧ ob_window_id r = bt_window_id b ∧ ob_consent_id r = bt_consent_id b
         ∧ ob_state r = rows_state (bt_state b)) as Hof.
  { intros k r Hk Hof%bool_decide_eq_true. destruct (Hr _ _ Hk) as [_ Hrow]. rewrite Hof in Hrow.
    destruct Hrow as (b & ? & ? & ? & ?). exists b. split_and!; auto. }
  split; [split|split].
  - rewrite Ho. intros k r' Hk. rewrite lookup_fmap in Hk.
    apply fmap_Some in Hk as (r & Hk & ->). destruct (Hr _ _ Hk) as [Hsha Hrow].
    destruct (of_batch batch_id r) eqn:Eof.
    + destruct (Hof _ _ Hk Eof) as (b & Hbb & -> & ? & ? & _). apply bool_decide_eq_true in Eof.
      split; [done|]. simpl. rewrite Eof. exists (f b). rewrite Hb, lookup_alter_eq, Hbb. simpl.
      destruct (Hf b) as [[= -> -> _ _ _ _ _ _ _] _]. done.
    + split; [done|]. destruct (ob_batch_id r) as [i|] eqn:Ei; [|done].
      apply bool_decide_eq_false in Eof. rewrite Ei in Eof.
      destruct Hrow as (b & ? & ?). exists b. by rewrite Hb, lookup_alter_ne by congruence.
  - rewrite Hb. intros i b' Hi.
    assert (∃ b, up_batches db !! i = Some b ∧ batch_content b' = batch_content b) as (b & Hi' & Hc).
    { rewrite lookup_alter in Hi. case_decide; subst; [|by eauto].
      apply fmap_Some in Hi as (b & Hi & ->). exists b. split; [done|]. apply Hf. }
    eapply batch_ok_sealed; [|done|by apply Hbs].
    apply map_eq. intros k. unfold sealed_map. rewrite Ho, !lookup_omap, lookup_fmap.
    destruct (up_outbox db !! k) as [r|] eqn:Ek; simpl; [|done].
    destruct (of_batch batch_id r) eqn:Eof; [|done].
    by destruct (Hof _ _ Ek Eof) as (? & _ & -> & _).
  - rewrite Ho. intros k r Hk. rewrite lookup_fmap, Hk. simpl. eexists. split; [done|].
    destruct (of_batch batch_id r) eqn:Eof; [|done].
    destruct (Hof _ _ Hk Eof) as (b & _ & -> & _ & _ & Hs).
    split; try done; simpl; rewrite Hs; clear; by destruct (bt_state b), (bt_state (f b)).
  - rewrite Hb. intros i b Hi. rewrite lookup_alter.
    case_decide; subst; [|by exists b]. rewrite Hi. simpl. eauto.
  - by rewrite Hg.
Qed.
End statements.

(** ** Staging adds rows *)

Section staging.
Context `{Sha256, EventJson}.
Implicit Types (outbox : gmap (string * string) OutboxRow).

Definition fresh_row (r : OutboxRow) : Prop :=
  ob_member_sha256 r = sha256_hex (string_bytes (ob_member_json r)) ∧
  ob_batch_id r = None ∧ ob_state r = ObPending.
Definition extends outbox outbox' : Prop :=
  outbox ⊆ outbox' ∧ ∀ k r, outbox' !! k = Some r → outbox !! k = None → fresh_row r.
#[export] Instance extends_preorder : PreOrder extends.
Proof.
  split; [split; [done|congruence]|]. intros m1 m2 m3 [Hs1 Hf1] [Hs2 Hf2].
  split; [by trans m2|]. intros k r Hk Hn. destruct (m2 !! k) as [r2|] eqn:E2; [|by eauto].
  assert (m3 !! k = Some r2) by by eapply lookup_weaken. simplify_eq. eauto.
Qed.

Lemma extends_sound db outbox' :
  extends (up_outbox db) outbox' → sound_step db (with_outbox (λ _, outbox') db).
Proof.
  intros [Hs Hf] [Hr Hb]. split; [split|split; [|done..]]; simpl.
  - intros k r Hk. destruct (up_outbox db !! k) as [r0|] eqn:E0.
    + assert (outbox' !! k = Some r0) by by eapply lookup_weaken. simplify_eq. eauto.
    + destruct (Hf _ _ Hk E0) as (? & Hn & Hp). split; [done|]. rewrite Hn. by left.
  - intros i b Hi. eapply batch_ok_sealed; [|done|by apply Hb]. apply map_eq. intros k.
    unfold sealed_map. rewrite !lookup_omap. destruct (up_outbox db !! k) as [r|] eqn:E0.
    + by rewrite (lookup_weaken _ _ _ _ E0 Hs).
    + destruct (outbox' !! k) as [r|] eqn:E1; simpl; [|done].
      destruct (Hf _ _ E1 E0) as (_ & -> & _). done.
  - intros k r Hk. exists r. split; [by eapply lookup_weaken|done].
Qed.

Lemma insert_member_extends at_ consent st m :
  extends st.2 (insert_member at_ consent st m).2.
Proof.
  unfold insert_member. destruct (st.2 !! _) as [r|] eqn:El; [done|]. simpl.
  split; [by apply insert_subseteq|]. intros k r [[<- <-]|[? Hk]]%lookup_insert_Some Hn; [done|].
  congruence.
Qed.
Lemma insert_members_extends at_ consent ms st :
  extends st.2 (foldl (insert_member at_ consent) st ms).2.
Proof.
  revert st. induction ms as [|m ms IH]; intros st; simpl; [done|].
  trans (insert_member at_ consent st m).2; [apply insert_member_extends|apply IH].
Qed.
End staging.

Section stage_extends.
Context `{Chrono, ChronoFmt, ChronoDate, UrlParser, StringsJson, Sha256, AuditWire, EventJson}.
Context `{TableScan}.
Lemma stage_members_extends eligible_since history since at_ consent db outbox :
  extends outbox (stage_members eligible_since history since at_ consent db outbox).2.
Proof.
  unfold stage_members. cbv zeta.
  do 4 (etrans; [|apply insert_members_extends]). apply (insert_members_extends _ _ _ (0, outbox)).
Qed.
End stage_extends.

(** ** Sealing moves rows into a batch *)

Section sealing.
Context `{Sha256, EventJson}.
Context `{OutboxScan, !OutboxScanOk}.
Implicit Types (outbox : gmap (string * string) OutboxRow).

Definition seal_row (batch_id : string) (r : OutboxRow) : OutboxRow :=
  set_batch batch_id (set_state ObInflight r).
Lemma seal_rows_lookup batch_id (rows : list ((string * string) * OutboxRow)) outbox k :
  foldr (λ x m, alter (seal_row batch_id) x.1 m) outbox rows !! k =
  if decide (k ∈ rows.*1) then seal_row batch_id <$> outbox !! k else outbox !! k.
Proof.
  induction rows as [|x rows IH]; [done|].
  rewrite fmap_cons. cbn [foldr]. rewrite lookup_alter.
  destruct (decide (x.1 = k)) as [->|Hne]; rewrite IH.
  - destruct (decide (k ∈ k :: rows.*1)) as [_|[]]; [|by left].
    case_decide; [|done]. by destruct (outbox !! k).
  - destruct (decide (k ∈ rows.*1)), (decide (k ∈ x.1 :: rows.*1)); set_solver.
Qed.

Lemma take_sorted {A} (R : relation A) n l : StronglySorted R l → StronglySorted R (take n l).
Proof.
  intros Hs. revert n. induction Hs as [|x l Hs IH Hx]; intros [|n]; simpl; constructor; try done.
  by apply Forall_take.
Qed.

Variables (window_id consent_id batch_id : string) (outbox : gmap (string * string) OutboxRow).
Definition sealable (x : (string * string) * OutboxRow) : Prop :=
  is_pending x.2 && bool_decide (ob_window_id x.2 = window_id ∧ ob_consent_id x.2 = consent_id)
  = true.
#[local] Instance sealable_dec x : Decision (sealable x).
Proof. unfold sealable. apply _. Defined.
Definition rows_to_seal : list ((string * string) * OutboxRow) :=
  take MAX_BATCH_MEMBERS (sort_by_key fst (filter sealable (outbox_scan outbox))).
Definition sealed_outbox : gmap (string * string) OutboxRow :=
  foldr (λ x m, alter (seal_row batch_id) x.1 m) outbox rows_to_seal.

Lemma rows_to_seal_keys : NoDup rows_to_seal.*1.
Proof.
  unfold rows_to_seal. rewrite fmap_take.
  assert (NoDup (sort_by_key fst (filter sealable (outbox_scan outbox))).*1) as Hnd;
    [|by rewrite <- (take_drop MAX_BATCH_MEMBERS), NoDup_app in Hnd; apply Hnd].
  rewrite sort_by_key_Permutation, outbox_scan_rows. apply filter_keys_NoDup.
Qed.
Lemma rows_to_seal_elem x :
  x ∈ rows_to_seal →
  outbox !! x.1 = Some x.2 ∧ ob_state x.2 = ObPending ∧ ob_window_id x.2 = window_id ∧
  ob_consent_id x.2 = consent_id.
Proof.
  intros (i & Hi%list_elem_of_lookup_2 & _)%elem_of_take.
  rewrite elem_of_sort_by_key, list_elem_of_filter, outbox_scan_rows in Hi.
  destruct x as [k r], Hi as [[Hp Hw%bool_decide_eq_true]%andb_true_iff Hr%elem_of_map_to_list].
  apply bool_decide_eq_true in Hp. simpl in *. destruct Hw. by split_and!.
Qed.
Lemma rows_to_seal_lookup k : k ∈ rows_to_seal.*1 → ∃ r, (k, r) ∈ rows_to_seal.
Proof. intros ([k' r] & -> & Hr)%list_elem_of_fmap. by exists r. Qed.

(** The new batch's rows are the ones it was sealed with. *)
Lemma sealed_rows batches :
  map_Forall (λ _ r, row_ok batches r) outbox → batches !! batch_id = None →
  prod_map id ob_member_json <$> batch_rows batch_id sealed_outbox =
  prod_map id ob_member_json <$> rows_to_seal.
Proof.
  intros Hok Hnew. rewrite batch_rows_members. symmetry.
  assert (NoDup (prod_map id ob_member_json <$> rows_to_seal).*1) as Hnd
    by (rewrite fst_prod_map; apply rows_to_seal_keys).
  apply (sorted_by_key_unique fst);
    [done| |apply fst_sorted, take_sorted, sort_by_key_sorted|apply sort_by_key_sorted].
  apply NoDup_Permutation; [by eapply NoDup_fmap_1| |].
  { rewrite sort_by_key_Permutation. apply NoDup_map_to_list. }
  intros [k json]. rewrite elem_of_sort_by_key, elem_of_map_to_list, sealed_map_lookup.
  rewrite list_elem_of_fmap. unfold sealed_outbox. setoid_rewrite seal_rows_lookup. split.
  - intros ([k' r] & [= -> ->] & Hx). destruct (rows_to_seal_elem _ Hx) as (Hr & _). simpl in Hr.
    exists (seal_row batch_id r). rewrite decide_True, Hr; [done|].
    apply list_elem_of_fmap. by exists (k', r).
  - intros (r & Hr & Hb & <-). case_decide as Hk.
    + apply rows_to_seal_lookup in Hk as [r0 Hx]. exists (k, r0).
      destruct (rows_to_seal_elem _ Hx) as (Hr0 & _). simpl in Hr0. rewrite Hr0 in Hr.
      by simplify_eq/=.
    + destruct (Hok _ _ Hr) as [_ Hrow]. rewrite Hb in Hrow. destruct Hrow as (b & ? & _).
      congruence.
Qed.

Lemma sealed_others batches i :
  map_Forall (λ _ r, row_ok batches r) outbox → i ≠ batch_id →
  sealed_map i sealed_outbox = sealed_map i outbox.
Proof.
  intros Hok Hi. apply map_eq. intros k. unfold sealed_map. rewrite !lookup_omap.
  unfold sealed_outbox. rewrite seal_rows_lookup. case_decide as Hk; [|done].
  apply rows_to_seal_lookup in Hk as [r Hx].
  destruct (rows_to_seal_elem _ Hx) as (Hr & Hp & _). simpl in Hr. rewrite Hr. simpl in *.
  rewrite (pending_unsealed _ _ (Hok _ _ Hr) Hp). rewrite !decide_False by congruence. done.
Qed.
End sealing.

Section seal_step.
Context `{Sha256, EventJson}.
Context `{OutboxScan, !OutboxScanOk}.

Lemma seal_body_cases window consent dest batch at_ db res db' :
  seal_body window consent dest batch at_ db = Ok (res, db') →
  (res = None ∧ db' = db) ∨
  ∃ values,
    let rows := rows_to_seal window consent (up_outbox db) in
    let json := members_object values in
    let manifest := sha256_hex (string_bytes json) in
    let count := Z.of_nat (length rows) in
    rows ≠ [] ∧ member_values rows = Ok values ∧ up_batches db !! batch = None ∧
    res = Some (mkSealedBatch batch window consent dest manifest count json 0) ∧
    db' = with_outbox (λ _, sealed_outbox window consent batch (up_outbox db))
            (with_batches <[batch :=
               mkUploadBatchRow window consent dest manifest CANONICALIZATION count
                 (Z.of_nat (length (string_bytes json))) json BtSealed 0 None at_ None None]> db).
Proof.
  unfold seal_body. fold (sealable window consent).
  destruct (take MAX_BATCH_MEMBERS _) as [|x rows] eqn:Erows; [left; by simplify_eq|].
  destruct (member_values (x :: rows)) as [values|] eqn:Ev; [|done].
  destruct (up_batches db !! batch) eqn:Eb; [done|]. intros [= <- <-]. right. exists values.
  cbv zeta.
  assert (rows_to_seal window consent (up_outbox db) = x :: rows) as Hr by exact Erows.
  unfold sealed_outbox. rewrite Hr. split_and!; done.
Qed.

Lemma seal_sound window consent dest batch at_ db res db' :
  seal_body window consent dest batch at_ db = Ok (res, db') → sound_step db db'.
Proof.
  intros [[_ ->]|(values & Hne & Hv & Hnew & _ & ->)]%seal_body_cases; [done|].
  intros [Hr Hb].
  pose proof (sealed_rows window consent batch (up_outbox db) _ Hr Hnew) as Hrows.
  assert (length (batch_rows batch (sealed_outbox window consent batch (up_outbox db))) =
          length (rows_to_seal window consent (up_outbox db))) as Hlen
    by by rewrite <- (length_fmap (prod_map id ob_member_json)), Hrows, length_fmap.
  split; [split|split; [..|done]]; simpl.
  - intros k r Hk. unfold sealed_outbox in Hk. rewrite seal_rows_lookup in Hk.
    case_decide as Hin.
    + apply rows_to_seal_lookup in Hin as [r0 Hx].
      destruct (rows_to_seal_elem _ _ _ _ Hx) as (Hr0 & _ & Hw & Hc). simpl in *.
      rewrite Hr0 in Hk. simplify_eq/=. split; [by apply (Hr _ _ Hr0)|]. simpl.
      eexists. by rewrite lookup_insert_eq.
    + destruct (Hr _ _ Hk) as [Hsha Hrow]. split; [done|]. destruct (ob_batch_id r) as [i|]; [|done].
      destruct Hrow as (b & Hi & Hrest). exists b. rewrite lookup_insert_ne; [done|congruence].
  - intros i b [[<- <-]|[Hi Hib]]%lookup_insert_Some.
    + split; simpl; rewrite ?Hlen; [|done..|].
      * exists values. by rewrite (member_values_members _ _ Hrows).
      * unfold rows_to_seal in *. rewrite length_take in *.
        destruct (sort_by_key fst _) eqn:Es; [done|]. unfold MAX_BATCH_MEMBERS. simpl length. lia.
    + eapply batch_ok_sealed; [|done|by apply Hb]. by eapply sealed_others.
  - intros k r Hk. unfold sealed_outbox. rewrite seal_rows_lookup, Hk. case_decide as Hin; [|by exists r].
    apply rows_to_seal_lookup in Hin as [r0 Hx].
    destruct (rows_to_seal_elem _ _ _ _ Hx) as (Hr0 & Hp & _). simpl in *. simplify_eq.
    exists (seal_row batch r). split; [done|].
    split; try done; simpl; rewrite ?Hp, ?(pending_unsealed _ _ (Hr _ _ Hk) Hp); try done; by intros [].
  - intros i b Hi. exists b. rewrite lookup_insert_ne; [done|congruence].
Qed.
End seal_step.

(** ** Every operation *)

Section operations.
Context `{Chrono, ChronoFmt, ChronoDate, UrlParser, StringsJson, Sha256, AuditWire, EventJson}.
Context `{TableScan, OutboxScan, !OutboxScanOk, UploadWorld}.

Lemma keeps_append event at_ : keeps sound_step (append_upload_event event at_).
Proof.
  intros n db. unfold append_upload_event.
  destruct (append_audit_event _ _ _ _) as [res l]. apply egress_sound.
Qed.
Lemma keeps_audit action target outcome : keeps sound_step (audit_upload action target outcome).
Proof. unfold audit_upload. keeps. apply keeps_append. Qed.

Lemma keeps_gap window reason count at_ : keeps sound_step (record_gap window reason count at_).
Proof.
  unfold record_gap. keeps; [|apply keeps_audit]. apply keeps_exec; [apply _|]. intros. apply gap_sound.
Qed.
Lemma keeps_expire_row k : keeps sound_step (expire_row k).
Proof.
  apply keeps_exec; [apply _|]. intros db. apply alter_sound. intros r.
  destruct (is_pending r) eqn:Ep; [by apply expire_edit|by left].
Qed.
Lemma keeps_expire P :
  (∀ r, P r = true → is_pending r = true) → keeps sound_step (exec (update_outbox P (set_state ObExpired))).
Proof.
  intros HP. apply keeps_exec; [apply _|]. intros db. apply update_sound. intros r _ Hr.
  by apply expire_edit, HP.
Qed.

Lemma keeps_bound max at_ : keeps sound_step (enforce_outbox_bound max at_).
Proof.
  unfold enforce_outbox_bound. keeps; [apply keeps_expire_row| |apply keeps_gap].
  apply keeps_expire. by intros r [? _]%andb_true_iff.
Qed.

Lemma poison_sound batch_id reason db :
  sound_step db
    (update_outbox (of_batch batch_id) (set_state ObPoison)
       (with_batches
          (alter (λ b, set_batch_state BtPoison (Some reason) (bt_acked_at b) b) batch_id) db)).
Proof. by eapply batch_sound; [..|done|done|done]; [intros b; split|]. Qed.
Lemma acknowledge_sound batch_id at_ db :
  sound_step db
    (update_outbox (of_batch batch_id) (set_state ObAcknowledged)
       (with_batches (alter (set_batch_state BtAcknowledged None (Some at_)) batch_id) db)).
Proof. by eapply batch_sound; [..|done|done|done]; [intros b; split|]. Qed.

Lemma keeps_acknowledge batch_id : keeps sound_step (acknowledge_upload_batch batch_id).
Proof.
  unfold acknowledge_upload_batch. keeps; [|apply keeps_audit].
  apply keeps_transaction; [apply _|]. intros db r db' [= _ <-]. apply acknowledge_sound.
Qed.
Lemma keeps_poison batch_id reason : keeps sound_step (poison_upload_batch batch_id reason).
Proof.
  unfold poison_upload_batch. keeps; [|apply keeps_audit].
  apply keeps_transaction; [apply _|]. intros db r db' [= _ <-]. apply poison_sound.
Qed.
Lemma keeps_attempt batch_id error : keeps sound_step (record_upload_attempt batch_id error).
Proof.
  unfold record_upload_attempt. keeps. apply keeps_exec; [apply _|]. intros db.
  eapply (batch_sound batch_id _ id); [| |done| |done].
  - by intros b.
  - intros r b Hs. destruct r. simpl in *. by rewrite Hs.
  - simpl. rewrite <- map_fmap_id at 1. apply map_fmap_ext. intros k r _. by case_match.
Qed.

Lemma keeps_retire live : keeps sound_step (retire_unauthorized_upload_work live).
Proof.
  unfold retire_unauthorized_upload_work. keeps; [|apply keeps_gap|apply keeps_poison].
  apply keeps_expire. by intros r [? _]%andb_true_iff.
Qed.

Lemma keeps_renew consent older since : keeps sound_step (renew consent older since).
Proof.
  revert since. induction older as [|o older IH]; intros since; simpl; keeps; [|apply IH..].
  apply keeps_exec; [apply _|]. intros db. apply update_sound.
  intros r Hr [Hp _]%andb_true_iff. by eapply consent_edit.
Qed.

Lemma keeps_stage : keeps sound_step stage_upload_records.
Proof.
  unfold stage_upload_records, live_upload_consents.
  keeps; [apply keeps_retire|apply keeps_renew| |apply keeps_bound].
  apply keeps_transaction; [apply _|]. intros db x db'.
  destruct (stage_members _ _ _ _ _ _ _) as [m outbox] eqn:Es. intros [= _ <-].
  apply extends_sound.
  change outbox with (m, outbox).2. rewrite <- Es. apply stage_members_extends.
Qed.
Lemma keeps_seal window consent dest : keeps sound_step (seal_upload_batch window consent dest).
Proof.
  unfold seal_upload_batch. keeps; [|apply keeps_audit].
  apply keeps_transaction; [apply _|]. intros db x db'. apply seal_sound.
Qed.
End operations.
