(* ===== verification/UploadStageSpec.v ===== *)
(** * What staging puts into the outbox

    Only records whose every date falls under a live consent and the personal
    profile are staged, and what is staged depends on their metadata columns
    only: no text, no payload and no tool input or output reaches the outbox.
    The bound of the outbox holds after staging, and every row it drops is
    counted in a recorded gap. *)

From S2P Require Import Prelude.
From S2P Require Import Types.
From S2P Require Import Text.
From S2P Require Import PolicyContent.
From S2P Require Import AuditEvent.
From S2P Require Import AuditLedger.
From S2P Require Import Egress.
From S2P Require Import EgressStore.
From S2P Require Import EventStore.
From S2P Require Import EventRead.
From S2P Require Import Upload.
From S2P Require Import UploadSpec.

Local Open Scope fornax_scope.

Section staging.
Context `{Chrono, ChronoFmt, ChronoDate, UrlParser, StringsJson, Sha256, AuditWire, EventJson}.
Context `{TableScan, !TableScanOk}.

Lemma select_lookup {A} (P : A → bool) key (m : gmap string A) x :
  x ∈ select_asc P key m → m !! x.1 = Some x.2 ∧ P x.2 = true.
Proof.
  unfold select_asc. rewrite elem_of_sort_by_key. intros [HP Hx]%list_elem_of_filter.
  rewrite scan_rows in Hx. destruct x. by apply elem_of_map_to_list in Hx.
Qed.
Lemma elem_of_due {A} kind since (id at_ : A → string) outbox l x :
  x ∈ due kind since id at_ outbox l → x ∈ l.
Proof.
  intros (i & Hi%list_elem_of_lookup_2 & _)%elem_of_take.
  by apply list_elem_of_filter in Hi as [_ ?].
Qed.

(** ** The records of the members *)

(** The dates a record is judged by, its own first. *)
Definition timestamps (db : EventDb) (key : string * string) : option (list string) :=
  let '(kind, id) := key in
  if decide (kind = "events") then
    r ← t_agent_events db !! id; Some [erow_observed_at r]
  else if decide (kind = "sessions") then
    f ← first_event db id; Some [f.1]
  else if decide (kind = "claims") then
    r ← t_claims db !! id; e ← event_at db (crow_source_event_id r);
    Some [crow_claimed_at r; e]
  else if decide (kind = "evidence") then
    r ← t_evidence db !! id; e ← event_at db (vrow_source_event_id r);
    Some [vrow_observed_at r; e]
  else if decide (kind = "findings") then
    r ← t_findings db !! id; c ← t_claims db !! frow_claim_id r;
    e ← event_at db (crow_source_event_id c);
    Some [frow_computed_at r; crow_claimed_at c; e]
  else None.

Section eligible.
Context (since : Z) (history : list (Z * Profile)) (db : EventDb).

(** The date is not before the consent, and under the personal profile. *)
Definition consented (ts : string) : Prop :=
  ∃ t, parse_from_rfc3339 ts = Some t ∧ (since ≤ t)%Z ∧ profile_at history t = Personal.
Lemma eligible_Some ts window :
  eligible since history ts = Some window →
  consented ts ∧ ∃ t, parse_from_rfc3339 ts = Some t ∧ window = window_of t.
Proof.
  unfold eligible. destruct (parse_from_rfc3339 ts) as [t|] eqn:Et; [|done]. simpl.
  case_bool_decide; [done|]. case_bool_decide as Hp; [done|]. simpl.
  intros [= <-]. split; [|by exists t]. exists t. split_and!; [done|lia|done].
Qed.

Definition certified (m : Member) : Prop :=
  ∃ ts rest t, timestamps db (mb_kind m, mb_object_id m) = Some (ts :: rest) ∧
    Forall consented (ts :: rest) ∧ parse_from_rfc3339 ts = Some t ∧ mb_window m = window_of t.

Lemma certify m ts rest window :
  timestamps db (mb_kind m, mb_object_id m) = Some (ts :: rest) →
  eligible since history ts = Some window → Forall consented rest → mb_window m = window →
  certified m.
Proof.
  intros Hts [Hc (t & Ht & ->)]%eligible_Some Hrest Hw. exists ts, rest, t. by split_and!; [|constructor|..].
Qed.

Lemma events_certified outbox start m :
  m ∈ omap (event_member since history) (due "events" start es_id es_observed_at outbox (event_srcs db)) →
  certified m.
Proof.
  intros (e & He%elem_of_due & Hm)%list_elem_of_omap.
  apply list_elem_of_fmap in He as (x & -> & [Hx _]%select_lookup).
  apply bind_Some in Hm as (window & Hw & [= <-]). eapply certify; [|done|constructor|done].
  simpl. by rewrite Hx.
Qed.
Lemma sessions_certified events m :
  m ∈ omap (session_member since history db) (staged_sessions since history events) → certified m.
Proof.
  intros (s & _ & Hm)%list_elem_of_omap. unfold session_member in Hm.
  apply bind_Some in Hm as ([ts provider] & Hf & Hm).
  apply bind_Some in Hm as (window & Hw & [= <-]). eapply certify; [|done|constructor|done].
  simpl. by rewrite Hf.
Qed.
Lemma claims_certified outbox start m :
  m ∈ omap (claim_member since history) (due "claims" start cl_id cl_claimed_at outbox (claim_srcs db)) →
  certified m.
Proof.
  intros (e & He%elem_of_due & Hm)%list_elem_of_omap.
  apply list_elem_of_omap in He as (x & [Hx _]%select_lookup & He).
  apply bind_Some in He as (parent & Hp & [= <-]).
  apply bind_Some in Hm as (window & Hw & Hm). apply bind_Some in Hm as (w' & Hw' & [= <-]).
  eapply (certify _ _ [_]); [|exact Hw| |done];
    [|apply Forall_singleton; by apply (eligible_Some _ _ Hw')].
  simpl. rewrite Hx. simpl. by rewrite Hp.
Qed.
Lemma evidence_certified outbox start m :
  m ∈ omap (evidence_member since history)
        (due "evidence" start vs_id vs_observed_at outbox (evidence_srcs db)) →
  certified m.
Proof.
  intros (e & He%elem_of_due & Hm)%list_elem_of_omap.
  apply list_elem_of_omap in He as (x & [Hx _]%select_lookup & He).
  apply bind_Some in He as (parent & Hp & [= <-]).
  apply bind_Some in Hm as (window & Hw & Hm). apply bind_Some in Hm as (w' & Hw' & [= <-]).
  eapply (certify _ _ [_]); [|exact Hw| |done];
    [|apply Forall_singleton; by apply (eligible_Some _ _ Hw')].
  simpl. rewrite Hx. simpl. by rewrite Hp.
Qed.
Lemma findings_certified outbox start m :
  m ∈ omap (finding_member since history)
        (due "findings" start fs_id fs_computed_at outbox (finding_srcs db)) →
  certified m.
Proof.
  intros (e & He%elem_of_due & Hm)%list_elem_of_omap.
  apply list_elem_of_omap in He as (x & [Hx _]%select_lookup & He).
  apply bind_Some in He as (c & Hc & He). apply bind_Some in He as (parent & Hp & [= <-]).
  apply bind_Some in Hm as (window & Hw & Hm). apply bind_Some in Hm as (w1 & Hw1 & Hm).
  apply bind_Some in Hm as (w2 & Hw2 & [= <-]).
  eapply (certify _ _ [_; _]); [|exact Hw| |done].
  - simpl. rewrite Hx. simpl. rewrite Hc. simpl. by rewrite Hp.
  - repeat constructor; [apply (eligible_Some _ _ Hw1)|apply (eligible_Some _ _ Hw2)].
Qed.

(** A row added for a member. *)
Definition staged_row (at_ consent : string) (m : Member) : OutboxRow :=
  let json := canonical_json (JObject (mb_fields m)) in
  mkOutboxRow (mb_window m) json (sha256_hex (string_bytes json)) at_ consent ObPending None.
Definition adds (at_ consent : string) (outbox outbox' : gmap (string * string) OutboxRow) : Prop :=
  ∀ k r, outbox' !! k = Some r → outbox !! k = Some r ∨
    ∃ m, certified m ∧ k = (mb_kind m, mb_object_id m) ∧ r = staged_row at_ consent m.
Lemma adds_trans at_ consent m1 m2 m3 :
  adds at_ consent m1 m2 → adds at_ consent m2 m3 → adds at_ consent m1 m3.
Proof. intros H12 H23 k r Hk. destruct (H23 k r Hk); auto. Qed.
Lemma insert_members_add at_ consent ms st :
  (∀ m, m ∈ ms → certified m) →
  adds at_ consent st.2 (foldl (insert_member at_ consent) st ms).2.
Proof.
  revert st. induction ms as [|m ms IH]; intros st Hms; simpl; [intros k r; auto|].
  apply (adds_trans _ _ _ (insert_member at_ consent st m).2);
    [|apply IH; intros; apply Hms; by right].
  unfold insert_member. destruct (st.2 !! _); [intros k r; auto|]. simpl.
  intros k r [[<- <-]|[_ ?]]%lookup_insert_Some; [right|by left].
  exists m. split_and!; [apply Hms; by left|done|done].
Qed.
Lemma stage_members_add start at_ consent outbox :
  adds at_ consent outbox (stage_members since history start at_ consent db outbox).2.
Proof.
  unfold stage_members. cbv zeta.
  eapply adds_trans; [|apply insert_members_add; intros m; apply findings_certified].
  eapply adds_trans; [|apply insert_members_add; intros m; apply evidence_certified].
  eapply adds_trans; [|apply insert_members_add; intros m; apply claims_certified].
  eapply adds_trans; [|apply insert_members_add; intros m; apply sessions_certified].
  apply (insert_members_add _ _ _ (0, outbox)). intros m. apply events_certified.
Qed.
End eligible.
End staging.

(** ** The operation *)

(** The events and the egress tables, but for the audit trail, and the keys of
    the outbox, are as they were. *)
Definition framed : relation UploadDb := λ db db',
  up_events db' = up_events db ∧
  with_ledger (up_egress db') empty_ledger = with_ledger (up_egress db) empty_ledger.
Definition same_keys : relation UploadDb := λ db db',
  framed db db' ∧ dom (up_outbox db') = dom (up_outbox db).
(** And rows of the outbox at most expired. *)
Definition only_expires : relation UploadDb := λ db db',
  framed db db' ∧
  ∀ k, option_Forall2 (λ r r', r' = r ∨ r' = set_state ObExpired r) (up_outbox db !! k)
         (up_outbox db' !! k).
#[export] Instance framed_preorder : PreOrder framed.
Proof. split; [by intros db|]. intros db1 db2 db3 [] []. split; congruence. Qed.
#[export] Instance same_keys_preorder : PreOrder same_keys.
Proof. split; [by intros db|]. intros db1 db2 db3 [] []. split; [by trans db2|congruence]. Qed.
#[export] Instance only_expires_preorder : PreOrder only_expires.
Proof.
  split.
  - intros db. split; [done|]. intros k. destruct (up_outbox db !! k); constructor. by left.
  - intros db1 db2 db3 [? H12] [? H23]. split; [by trans db2|]. intros k.
    specialize (H12 k). specialize (H23 k). revert H23.
    inversion H12 as [r r' Hr|]; inversion 1 as [? r'' Hr''|]; subst; constructor.
    destruct Hr as [->| ->], Hr'' as [->| ->]; auto.
Qed.

Section operation.
Context `{Chrono, ChronoFmt, ChronoDate, UrlParser, StringsJson, Sha256, AuditWire, EventJson}.
Context `{TableScan, !TableScanOk, OutboxScan, UploadWorld}.

Lemma keys_of_update P f db : same_keys db (update_outbox P f db).
Proof. split; [done|]. simpl. by rewrite dom_fmap_L. Qed.
Lemma keys_exec f : (∀ db, same_keys db (f db)) → keeps same_keys (exec f).
Proof. apply keeps_exec, _. Qed.
Lemma audit_keeps action target outcome :
  keeps same_keys (audit_upload action target outcome) ∧
  keeps only_expires (audit_upload action target outcome).
Proof.
  split; unfold audit_upload; keeps; intros n db; unfold append_upload_event;
    destruct (append_audit_event _ _ _ _); split; try done.
  intros k. simpl. destruct (up_outbox db !! k); constructor. by left.
Qed.
Lemma gap_keeps window reason count at_ :
  keeps same_keys (record_gap window reason count at_) ∧
  keeps only_expires (record_gap window reason count at_).
Proof.
  split; unfold record_gap; keeps; try apply audit_keeps; apply keeps_exec; [apply _|done|apply _|].
  intros db. split; [done|]. intros k. simpl. destruct (up_outbox db !! k); constructor. by left.
Qed.

Lemma poison_keys batch_id reason : keeps same_keys (poison_upload_batch batch_id reason).
Proof.
  unfold poison_upload_batch. keeps; [|apply audit_keeps].
  apply keeps_transaction; [apply _|]. intros db x db' [= _ <-].
  split; [done|]. simpl. by rewrite dom_fmap_L.
Qed.
Lemma retire_keys live : keeps same_keys (retire_unauthorized_upload_work live).
Proof.
  unfold retire_unauthorized_upload_work. keeps; [|apply gap_keeps|apply poison_keys].
  apply keys_exec. intros. apply keys_of_update.
Qed.
Lemma renew_keys consent older since : keeps same_keys (renew consent older since).
Proof.
  revert since. induction older as [|o older IH]; intros since; simpl; keeps; [|apply IH..].
  apply keys_exec. intros. apply keys_of_update.
Qed.
Lemma bound_expires max at_ : keeps only_expires (enforce_outbox_bound max at_).
Proof.
  unfold enforce_outbox_bound, expire_row. keeps; [| |apply gap_keeps];
    apply keeps_exec; try apply _; intros db; (split; [done|]); intros k; simpl.
  - rewrite lookup_alter. case_decide; subst; destruct (up_outbox db !! _) as [r|]; constructor;
      [destruct (is_pending r); auto|auto].
  - rewrite lookup_fmap. destruct (up_outbox db !! k) as [r|]; constructor.
    destruct (is_pending r && _); auto.
Qed.

(** The consent's own date or that of an older one it renews. *)
Definition renews (consent c : Consent) : Prop :=
  con_destination c = con_destination consent ∧ data_classes c = data_classes consent.
Lemma renew_since consent older since n db s db1 n1 :
  renew consent older since n db = (Ok s, db1, n1) →
  s = since ∨ ∃ c, c ∈ older ∧ renews consent c ∧ s = granted_at c.
Proof.
  revert since n db. induction older as [|o older IH]; intros since n db; simpl.
  { intros [= <- _ _]. by left. }
  case_bool_decide as Hr.
  - unfold mbind, um_bind. destruct (exec _ n db) as [[[]] ?]; [|done].
    intros [->|(c & ? & ?)]%IH; [|right; exists c; by split; [right|]].
    destruct (str_lt _ _); [right; exists o; by split; [left|]|by left].
  - intros [->|(c & ? & ?)]%IH; [by left|right; exists c; by split; [right|]].
Qed.

Lemma live_consents_elem st t c :
  c ∈ live_consents st t →
  es_profile st = Personal ∧ c ∈ consents st ∧ consent_live st t c = true.
Proof.
  unfold live_consents. case_decide; [|by intros ?%not_elem_of_nil].
  unfold sort_desc. rewrite elem_of_reverse, elem_of_sort_by_key, elem_of_reverse.
  by intros [? ?]%list_elem_of_filter.
Qed.
Lemma live_ok n db cs db1 n1 :
  live_upload_consents n db = (Ok cs, db1, n1) →
  ∃ st i, egress_state (up_egress db) = Ok st ∧ cs = live_consents st (utc_now i).
Proof.
  unfold live_upload_consents, mbind, um_bind, query, lift_result. cbn [now].
  destruct (stmt_ok n); [|done]. destruct (egress_state (up_egress db)) as [st|]; [|done].
  intros [= <- _ _]. by exists st, (S n).
Qed.
Lemma live_keys : keeps same_keys live_upload_consents.
Proof. unfold live_upload_consents. keeps. Qed.

(** What a live consent and the history allow to be staged. *)
Definition staging_allowed (db : UploadDb) (key : string * string) (r : OutboxRow) : Prop :=
  ∃ st i consent first since history ts rest t,
    egress_state (up_egress db) = Ok st ∧ es_profile st = Personal ∧
    profile_history (t_egress_profile_log (up_egress db)) = Ok history ∧
    consent ∈ consents st ∧ consent_live st (utc_now i) consent = true ∧
    first ∈ consents st ∧ consent_live st (utc_now i) first = true ∧ renews consent first ∧
    parse_from_rfc3339 (granted_at first) = Some since ∧
    timestamps (up_events db) key = Some (ts :: rest) ∧
    Forall (consented since history) (ts :: rest) ∧
    parse_from_rfc3339 ts = Some t ∧
    ob_consent_id r = con_id consent ∧ ob_window_id r = window_of t ∧
    (ob_state r = ObPending ∨ ob_state r = ObExpired).

(** The row and the key of a table are new. *)
Definition newly (db db' : UploadDb) (key : string * string) (r : OutboxRow) : Prop :=
  up_outbox db' !! key = Some r ∧ up_outbox db !! key = None.
Lemma no_new db db' key r : same_keys db db' → ¬ newly db db' key r.
Proof.
  intros [_ Hd] [Hr Hn]. apply not_elem_of_dom in Hn. rewrite <- Hd in Hn.
  by apply elem_of_dom_2 in Hr.
Qed.

(** The transaction, after the consents have been settled, and the bound. *)
Lemma staged_allowed st i consent older since raw n1 db0 db db' m key r :
  egress_state (up_egress db0) = Ok st → consent :: older = live_consents st (utc_now i) →
  (raw = granted_at consent ∨ ∃ c, c ∈ older ∧ renews consent c ∧ raw = granted_at c) →
  parse_from_rfc3339 raw = Some since → same_keys db0 db → up_outbox db0 !! key = None →
  profile_history (t_egress_profile_log (up_egress db)) = Ok m →
  only_expires
    (with_outbox (λ _, (stage_members since m (to_rfc3339 since) (to_rfc3339 (utc_now n1))
                          (con_id consent) (up_events db) (up_outbox db)).2) db)
    db' →
  up_outbox db' !! key = Some r → staging_allowed db0 key r.
Proof.
  intros Hst Hlive Hraw Hsince Hkeys Hnone Hhist [_ Hexp] Hr.
  pose proof Hkeys as [[Hev Heg] Hdom].
  assert (t_egress_profile_log (up_egress db) = t_egress_profile_log (up_egress db0)) as Hlog
    by by injection Heg.
  specialize (Hexp key). rewrite Hr in Hexp. inversion Hexp as [r0 ? Hr0 Hk|]; subst. simpl in Hk.
  destruct (stage_members_add since m (up_events db) (to_rfc3339 since) (to_rfc3339 (utc_now n1))
    (con_id consent) (up_outbox db) key r0) as [Hold|(mb & (ts & rest & t & Hts & Hc & Ht & Hw) & -> & ->)].
  { by rewrite Hk. }
  { exfalso. by eapply no_new. }
  assert (∀ c, c ∈ consent :: older → c ∈ consents st ∧ consent_live st (utc_now i) c = true
    ∧ es_profile st = Personal) as Hall.
  { intros c. rewrite Hlive. intros (? & ? & ?)%live_consents_elem. done. }
  assert (∃ first, first ∈ consent :: older ∧ renews consent first ∧ raw = granted_at first)
    as (first & Hf & Hren & ->).
  { destruct Hraw as [->|(c & ? & ? & ->)]; [exists consent; by split_and!; [left|..]|].
    exists c. by split_and!; [right|..]. }
  destruct (Hall consent) as (? & ? & ?); [by left|]. destruct (Hall first Hf) as (? & ? & _).
  exists st, i, consent, first, since, m, ts, rest, t. rewrite <- Hlog, <- Hev.
  split_and!; try done; destruct Hr0 as [->| ->]; auto.
Qed.

(** C28. Whatever staging adds to the outbox belongs to a live consent for
    batch uploads under the personal profile, and every date of its record (a
    claim's and its event's; a finding's, its claim's and that event's; a
    session's first event's) can be read, is not before that consent (or one
    it renews, for the same destination and classes, itself still live), and
    lies in a period of the personal profile; its window is its date's. So no
    record of a corporate or unconfigured period, and none from before the
    consent, is ever staged, whichever statements fail. *)
Theorem staged_records_are_consented n db key r :
  newly db (stage_upload_records n db).1.2 key r → staging_allowed db key r.
Proof.
  unfold stage_upload_records, mbind, um_bind.
  pose proof (live_keys n db) as Hk1.
  destruct (live_upload_consents n db) as [[[cs|] db1] n1] eqn:El; simpl in Hk1;
    [|by intros ?%no_new].
  destruct (live_ok _ _ _ _ _ El) as (st & i & Hst & ->).
  pose proof (retire_keys (con_id <$> live_consents st (utc_now i)) n1 db1) as Hk2.
  destruct (retire_unauthorized_upload_work _ n1 db1) as [[[retired|] db2] n2]; simpl in Hk2;
    (assert (same_keys db db2) as Hk02 by by trans db1); [|by intros ?%no_new].
  destruct (live_consents st (utc_now i)) as [|consent older] eqn:Elive; [by intros ?%no_new|].
  pose proof (renew_keys consent older (granted_at consent) n2 db2) as Hk3.
  destruct (renew _ _ _ n2 db2) as [[[raw|] db3] n3] eqn:Eren; simpl in Hk3;
    (assert (same_keys db db3) as Hk03 by by trans db2); [|by intros ?%no_new].
  apply renew_since in Eren.
  destruct (parse_from_rfc3339 raw) as [since|] eqn:Esince; [|by intros ?%no_new].
  unfold query, lift_result, transaction. cbn [now].
  destruct (stmt_ok n3); [|by intros ?%no_new].
  destruct (profile_history _) as [history|] eqn:Eh; [|by intros ?%no_new].
  destruct (stmt_ok _); [|by intros ?%no_new].
  match goal with |- context [stage_members ?a ?b ?c ?d ?e ?f ?g] =>
    destruct (stage_members a b c d e f g) as [staged outbox] eqn:Es end.
  match goal with |- context [enforce_outbox_bound ?m ?t ?k ?d] =>
    pose proof (bound_expires m t k d) as Hexp;
    destruct (enforce_outbox_bound m t k d) as [[[expired|] db5] n5] end;
    simpl in Hexp; intros [Hr Hn]; simpl in Hr;
    eapply (staged_allowed st i consent older since raw _ db db3 db5 history); try done;
    rewrite Es; exact Hexp.
Qed.
End operation.

(** * Staging reads metadata columns only

    What the uploader stages does not depend on any text of a claim, payload
    of a piece of evidence, rationale of a finding, or input or output of a
    tool: two stores that differ in those columns stage, row for row, the same
    outbox. *)

(** The rows of a table are visited in an order that does not depend on their
    contents. *)
Class TableScanNatural `{TableScan} : Prop :=
  scan_fmap : ∀ A B (f : A → B) (m : gmap string A), scan (f <$> m) = prod_map id f <$> scan m.

(** ** The columns that are not metadata *)

Definition blank_event (r : EventRow) : EventRow :=
  mkEventRow (erow_session_id r) (erow_provider r) (erow_kind r) (erow_observed_at r)
    (erow_tool_name r) None None "".
Definition blank_claim (r : ClaimRow) : ClaimRow :=
  mkClaimRow (crow_session_id r) (crow_source_event_id r) "" (crow_subject r) (crow_claimed_at r).
Definition blank_evidence (r : EvidenceRow) : EvidenceRow :=
  mkEvidenceRow (vrow_session_id r) (vrow_source_event_id r) (vrow_kind r) (vrow_observed_at r) ""
    (vrow_provenance r) None None false None.
Definition blank_finding (r : FindingsRow) : FindingsRow :=
  mkFindingsRow (frow_claim_id r) (frow_verdict r) "" (frow_verifier_name r) ""
    (frow_computed_at r).
(** The store with those columns, and every other table, wiped. *)
Definition blank (db : EventDb) : EventDb :=
  mkEventDb (blank_event <$> t_agent_events db) ∅ (blank_claim <$> t_claims db)
    (blank_evidence <$> t_evidence db) (blank_finding <$> t_findings db) ∅ ∅ ∅ [] empty_ledger.

Lemma sort_by_key_fmap {A B} (key : B → string) (f : A → B) (l : list A) :
  sort_by_key key (f <$> l) = f <$> sort_by_key (λ x, key (f x)) l.
Proof.
  assert (∀ x l, insert_by_key key (f x) (f <$> l) = f <$> insert_by_key (λ x, key (f x)) x l) as Hi.
  { intros x l'. induction l' as [|y l' IH]; [done|]. simpl. unfold key_le.
    destruct (decide _); [done|]. rewrite fmap_cons. f_equal. apply IH. }
  induction l as [|x l IH]; [done|]. rewrite fmap_cons. cbn [sort_by_key foldr].
  change (foldr (insert_by_key key) []) with (sort_by_key key). rewrite IH. apply Hi.
Qed.

Section hides.
Context `{Chrono, ChronoFmt, ChronoDate, UrlParser, StringsJson, Sha256, AuditWire, EventJson}.
Context `{TableScan, !TableScanNatural}.

Lemma select_fmap {A B} (P : B → bool) key (f : A → B) (m : gmap string A) :
  select_asc P key (f <$> m) =
  prod_map id f <$> select_asc (λ x, P (f x)) (λ x, key (f x)) m.
Proof.
  unfold select_asc. rewrite scan_fmap.
  etrans; [|apply (sort_by_key_fmap (λ x, key x.2) (prod_map id f))]. f_equal.
  induction (scan m) as [|x l IH]; [done|].
  rewrite fmap_cons, !filter_cons. simpl. case_decide; simpl; by rewrite IH.
Qed.

Lemma event_at_blank db id : event_at (blank db) id = event_at db id.
Proof. unfold event_at. simpl. rewrite lookup_fmap. by destruct (t_agent_events db !! id). Qed.
Lemma first_event_blank db session : first_event (blank db) session = first_event db session.
Proof.
  unfold first_event. simpl. rewrite select_fmap. simpl. by destruct (select_asc _ _ _).
Qed.
Lemma event_srcs_blank db : event_srcs (blank db) = event_srcs db.
Proof.
  unfold event_srcs. simpl. rewrite select_fmap, <- list_fmap_compose. by apply list_fmap_ext.
Qed.
Lemma omap_prod_map {A B C} (g : string * B → option C) (f : A → B) (l : list (string * A)) :
  omap g (prod_map id f <$> l) = omap (λ x, g (x.1, f x.2)) l.
Proof.
  induction l as [|[i a] l IH]; [done|]. rewrite fmap_cons. csimpl.
  rewrite IH. done.
Qed.
Lemma omap_same {A B} (f g : A → option B) (l : list A) : (∀ x, f x = g x) → omap f l = omap g l.
Proof. intros Hfg. induction l as [|x l IH]; [done|]. csimpl. by rewrite Hfg, IH. Qed.

Lemma claim_srcs_blank db : claim_srcs (blank db) = claim_srcs db.
Proof.
  unfold claim_srcs. simpl. rewrite select_fmap, omap_prod_map. apply omap_same. intros x. simpl.
  by rewrite event_at_blank.
Qed.
Lemma evidence_srcs_blank db : evidence_srcs (blank db) = evidence_srcs db.
Proof.
  unfold evidence_srcs. simpl. rewrite select_fmap, omap_prod_map. apply omap_same. intros x. simpl.
  by rewrite event_at_blank.
Qed.
Lemma finding_srcs_blank db : finding_srcs (blank db) = finding_srcs db.
Proof.
  unfold finding_srcs. simpl. rewrite select_fmap, omap_prod_map. apply omap_same. intros x. simpl.
  rewrite lookup_fmap. destruct (t_claims db !! frow_claim_id x.2); simpl; [|done].
  by rewrite event_at_blank.
Qed.

Lemma stage_members_blank since history start at_ consent db outbox :
  stage_members since history start at_ consent (blank db) outbox =
  stage_members since history start at_ consent db outbox.
Proof.
  unfold stage_members. rewrite event_srcs_blank, claim_srcs_blank, evidence_srcs_blank,
    finding_srcs_blank.
  assert (∀ l : list string, omap (session_member since history (blank db)) l =
               omap (session_member since history db) l) as Hs; [|by rewrite !Hs].
  intros l. apply omap_same. intros s. unfold session_member. by rewrite first_event_blank.
Qed.
Lemma stage_members_same since history start at_ consent db db' outbox :
  blank db' = blank db →
  stage_members since history start at_ consent db' outbox =
  stage_members since history start at_ consent db outbox.
Proof. intros Hb. by rewrite <- stage_members_blank, Hb, stage_members_blank. Qed.
End hides.

(** ** The operations *)

Definition with_event_db (e : EventDb) (db : UploadDb) : UploadDb :=
  mkUploadDb e (up_egress db) (up_outbox db) (up_batches db) (up_gaps db) (up_requests db).

(** The computation does the same on events with the same metadata, and leaves
    them alone. *)
Definition blind {E A} (m : UM E A) : Prop := ∀ n db e,
  blank e = blank (up_events db) →
  m n (with_event_db e db) = (let '(r, db', n') := m n db in (r, with_event_db e db', n')) ∧
  up_events (m n db).1.2 = up_events db.

Section blind.
Context `{UploadWorld}.
Lemma blind_ret {E A} (a : A) : blind (mret a : UM E A).
Proof. by intros n db e. Qed.
Lemma blind_lift_result {E A} (r : result E A) : blind (lift_result r).
Proof. by intros n db e. Qed.
Lemma blind_bind {E A B} (m : UM E A) (k : A → UM E B) :
  blind m → (∀ a, blind (k a)) → blind (m ≫= k).
Proof.
  intros Hm Hk n db e He. destruct (Hm n db e He) as [Hm1 Hm2]. unfold mbind, um_bind.
  rewrite Hm1. destruct (m n db) as [[[a|err] db1] n1]; [|done]. simpl in Hm2.
  destruct (Hk a n1 db1 e) as [-> Hk2]; [by rewrite Hm2|]. split; [done|]. by rewrite Hk2.
Qed.
Lemma blind_for_each {E A} (l : list A) (f : A → UM E unit) :
  (∀ a, blind (f a)) → blind (for_each l f).
Proof. intros Hf. induction l; [apply blind_ret|]. by apply blind_bind. Qed.
Lemma blind_now {E} : blind (now (E := E)).
Proof. by intros n db e. Qed.
Lemma blind_new_uuid {E} : blind (new_uuid (E := E)).
Proof. by intros n db e. Qed.
Lemma blind_query {A} (f : UploadDb → A) : (∀ db e, f (with_event_db e db) = f db) → blind (query f).
Proof. intros Hf n db e _. unfold query. rewrite Hf. by destruct (stmt_ok n). Qed.
Lemma blind_exec f :
  (∀ db e, f (with_event_db e db) = with_event_db e (f db) ∧ up_events (f db) = up_events db) →
  blind (exec f).
Proof.
  intros Hf n db e _. unfold exec. destruct (Hf db e) as [-> ?]. by destruct (stmt_ok n).
Qed.
Lemma blind_transaction {A} (body : UploadDb → result StoreError (A * UploadDb)) :
  (∀ db e, blank e = blank (up_events db) →
     match body db with
     | Ok (a, db') => body (with_event_db e db) = Ok (a, with_event_db e db') ∧
                      up_events db' = up_events db
     | Err err => body (with_event_db e db) = Err err
     end) → blind (transaction body).
Proof.
  intros Hb n db e He. specialize (Hb db e He). unfold transaction.
  destruct (stmt_ok n); [|done]. destruct (body db) as [[a db']|err]; [|by rewrite Hb].
  by destruct Hb as [-> ?].
Qed.
End blind.
Ltac blind :=
  repeat match goal with
  | |- ∀ _, _ => intro
  | |- blind (mret _) => apply blind_ret
  | |- blind (lift_result _) => apply blind_lift_result
  | |- blind new_uuid => apply blind_new_uuid
  | |- blind now => apply blind_now
  | |- blind (query _) => by apply blind_query
  | |- blind (exec _) => by apply blind_exec
  | |- blind (mbind _ _) => apply blind_bind
  | |- blind (for_each _ _) => apply blind_for_each
  | |- blind (match ?x with _ => _ end) => destruct x
  end.

Section operations.
Context `{Chrono, ChronoFmt, ChronoDate, UrlParser, StringsJson, Sha256, AuditWire, EventJson}.
Context `{TableScan, !TableScanNatural, OutboxScan, UploadWorld}.

Lemma blind_audit action target outcome : blind (audit_upload action target outcome).
Proof.
  unfold audit_upload. blind. intros n db e _. unfold append_upload_event. simpl.
  by destruct (append_audit_event _ _ _ _).
Qed.
Lemma blind_gap window reason count at_ : blind (record_gap window reason count at_).
Proof. unfold record_gap. blind. apply blind_audit. Qed.
Lemma blind_bound max at_ : blind (enforce_outbox_bound max at_).
Proof. unfold enforce_outbox_bound, expire_row. blind. apply blind_gap. Qed.
Lemma blind_poison batch_id reason : blind (poison_upload_batch batch_id reason).
Proof.
  unfold poison_upload_batch. blind; [|apply blind_audit]. by apply blind_transaction.
Qed.
Lemma blind_retire live : blind (retire_unauthorized_upload_work live).
Proof.
  unfold retire_unauthorized_upload_work. blind; [apply blind_gap|apply blind_poison].
Qed.
Lemma blind_renew consent older since : blind (renew consent older since).
Proof. revert since. induction older as [|o older IH]; intros since; simpl; blind; apply IH. Qed.

(** C30. Staging is blind to contents: on two stores that agree on the
    identifiers, kinds, dates, labels and verdicts of their records, and may
    differ in every text of a claim, payload of evidence, rationale of a
    finding, raw event, tool input and tool response, and in every other
    table, it gives the same answer and leaves the same outbox, batches,
    gaps and audit trail, whichever statements fail. *)
Theorem staging_is_blind_to_contents n db contents :
  blank contents = blank (up_events db) →
  stage_upload_records n (with_event_db contents db) =
    (let '(res, db', n') := stage_upload_records n db in (res, with_event_db contents db', n')) ∧
  up_events (stage_upload_records n db).1.2 = up_events db.
Proof.
  revert n db contents. fold (blind stage_upload_records).
  unfold stage_upload_records, live_upload_consents.
  blind; [apply blind_retire|apply blind_renew| |apply blind_bound].
  apply blind_transaction. intros db e He. simpl. rewrite (stage_members_same _ _ _ _ _ _ _ _ He).
  by destruct (stage_members _ _ _ _ _ _ _).
Qed.
End operations.

(** * The bound of the outbox

    After the bound is enforced no pending row is older than the age limit and
    the pending members fit the size limit; what was dropped to get there is
    the oldest, and is counted, row for row, in the recorded gaps. *)

(** ** Lists of rows *)

Local Notation Rows := (list ((string * string) * OutboxRow)).

Definition weight (l : Rows) : Z :=
  foldr (λ x acc, text_length (ob_member_json x.2) + acc)%Z 0%Z l.
Lemma weight_nonneg l : (0 ≤ weight l)%Z.
Proof. induction l; simpl; [done|]. unfold text_length in *. lia. Qed.
Lemma weight_app l1 l2 : weight (l1 ++ l2) = (weight l1 + weight l2)%Z.
Proof. induction l1; simpl; lia. Qed.
#[export] Instance weight_proper : Proper ((≡ₚ) ==> (=)) weight.
Proof. intros l1 l2. induction 1; simpl; lia. Qed.

(** Enough of the oldest rows are picked. *)
Lemma pick_victims_prefix over l :
  ∃ rest, l = pick_victims over l ++ rest ∧ (rest = [] ∨ over ≤ weight (pick_victims over l))%Z.
Proof.
  revert over. induction l as [|x l IH]; intros over; simpl; [by exists []; auto|].
  case_decide; [exists (x :: l); simpl; auto|].
  destruct (IH (over - text_length (ob_member_json x.2))%Z) as (rest & Heq & Hw).
  exists rest. simpl. split; [by f_equal|]. destruct Hw; [auto|right; lia].
Qed.

(** ** Counts *)

Definition total (m : gmap (string * string) nat) : nat := sum_list (map_to_list m).*2.
Lemma total_insert k m :
  total (<[k := S (default 0 (m !! k))]> m) = S (total m).
Proof.
  unfold total. destruct (m !! k) as [c|] eqn:Ek; simpl.
  - rewrite <- insert_delete_eq, map_to_list_insert by apply lookup_delete_eq.
    rewrite <- (insert_id m k c) at 2 by done.
    rewrite <- insert_delete_eq, map_to_list_insert by apply lookup_delete_eq. done.
  - by rewrite map_to_list_insert.
Qed.
Lemma total_tally keys : total (tally keys) = length keys.
Proof. induction keys as [|k keys IH]; [done|]. simpl. by rewrite total_insert, IH. Qed.
Lemma counted_sum keys : sum_list (counted keys).*2 = length keys.
Proof.
  unfold counted. rewrite <- total_tally. unfold total. by rewrite btree_iter_Permutation.
Qed.

(** ** The pending rows *)

Definition pending_list (outbox : gmap (string * string) OutboxRow) : Rows :=
  filter (λ x, is_pending x.2 = true) (map_to_list outbox).
Lemma elem_of_pending_list outbox x :
  x ∈ pending_list outbox ↔ outbox !! x.1 = Some x.2 ∧ ob_state x.2 = ObPending.
Proof.
  unfold pending_list, is_pending. rewrite list_elem_of_filter, bool_decide_eq_true.
  destruct x as [k r]. rewrite elem_of_map_to_list. naive_solver.
Qed.
Lemma pending_list_NoDup outbox : NoDup (pending_list outbox).
Proof. apply NoDup_filter, NoDup_map_to_list. Qed.

(** Expires the pending rows of the keys and those of a condition. *)
Definition drop_rows (keys : list (string * string)) (P : OutboxRow → bool)
    (outbox : gmap (string * string) OutboxRow) : gmap (string * string) OutboxRow :=
  map_imap (λ k r,
    Some (if is_pending r && (bool_decide (k ∈ keys) || P r) then set_state ObExpired r else r))
    outbox.
Lemma pending_dropped keys P outbox (rest : Rows) :
  NoDup rest →
  (∀ x, x ∈ rest ↔ x ∈ pending_list outbox ∧ x.1 ∉ keys ∧ P x.2 = false) →
  pending_list (drop_rows keys P outbox) ≡ₚ rest.
Proof.
  intros Hnd Hrest. apply NoDup_Permutation; [apply pending_list_NoDup|done|].
  intros [k r]. rewrite Hrest, !elem_of_pending_list. simpl. unfold drop_rows.
  rewrite map_lookup_imap. destruct (outbox !! k) as [r0|]; simpl; [|by split; [intros [? _]|intros [[? _] _]]].
  unfold is_pending. split.
  - intros [[= Hr] Hp]. case_bool_decide as Hp0; simpl in Hr; [|by subst].
    case_bool_decide as Hk; simpl in Hr; [by subst|].
    destruct (P r0) eqn:EP; [by subst|]. by subst.
  - intros [[[= ->] Hp] [Hk HP]]. rewrite HP, (bool_decide_eq_false_2 (k ∈ keys)) by done.
    by rewrite andb_false_r.
Qed.

(** ** Statements that all succeed *)

Definition same_outbox : relation UploadDb := λ db db', up_outbox db' = up_outbox db.
#[local] Instance same_outbox_preorder : PreOrder same_outbox.
Proof. unfold same_outbox. split; [by intros db|]. intros db1 db2 db3. congruence. Qed.

Section bound.
Context `{Chrono, ChronoFmt, ChronoDate, UrlParser, StringsJson, Sha256, AuditWire, EventJson}.
Context `{TableScan, OutboxScan, !OutboxScanOk, UploadWorld}.
Hypothesis all_ok : ∀ n, stmt_ok n = true.

Lemma query_all {A} (f : UploadDb → A) n db : query f n db = (Ok (f db), db, S n).
Proof. unfold query. by rewrite all_ok. Qed.
Lemma exec_all f n db : exec f n db = (Ok tt, f db, S n).
Proof. unfold exec. by rewrite all_ok. Qed.
Lemma bind_ok {E A B} (m : UM E A) (k : A → UM E B) n db a db1 n1 :
  m n db = (Ok a, db1, n1) → (m ≫= k) n db = k a n1 db1.
Proof. unfold mbind, um_bind. by intros ->. Qed.

Lemma expire_all l n db :
  ∃ n', for_each l (λ x : (string * string) * OutboxRow, expire_row x.1) n db =
    (Ok tt, with_outbox (drop_rows l.*1 (λ _, false)) db, n').
Proof.
  revert n db. induction l as [|x l IH]; intros n db.
  - exists n. cbn [for_each]. unfold mret, um_ret. do 2 f_equal. destruct db. unfold with_outbox.
    f_equal. apply map_eq. intros k. simpl. unfold drop_rows. rewrite map_lookup_imap.
    destruct (_ !! k) as [r|]; simpl; [|done]. by rewrite andb_false_r.
  - rewrite fmap_cons. cbn [for_each]. unfold expire_row at 1. erewrite bind_ok by apply exec_all.
    edestruct IH as [n' ->]. exists n'. do 2 f_equal. unfold with_outbox. simpl. f_equal.
    apply map_eq. intros k. unfold drop_rows. rewrite !map_lookup_imap, lookup_alter.
    destruct (decide (x.1 = k)) as [->|Hne].
    + destruct (up_outbox db !! k) as [r|]; simpl; [|done].
      rewrite (bool_decide_eq_true_2 (k ∈ k :: _)) by set_solver.
      destruct (is_pending r) eqn:Ep; simpl; [done|]. by rewrite Ep.
    + destruct (up_outbox db !! k) as [r|]; simpl; [|done].
      rewrite (bool_decide_ext (k ∈ x.1 :: l.*1) (k ∈ l.*1)) by set_solver. done.
Qed.

Lemma gap_same_outbox window reason count at_ : keeps same_outbox (record_gap window reason count at_).
Proof.
  unfold record_gap, audit_upload. keeps; [by apply keeps_exec; [apply _|]|].
  intros n db. unfold append_upload_event. by destruct (append_audit_event _ _ _ _).
Qed.
Lemma gap_recorded window reason count at_ n db db' n' :
  record_gap window reason count at_ n db = (Ok tt, db', n') →
  up_gaps db' = up_gaps db ++ [mkGapRow window reason (Z.of_nat count) at_].
Proof.
  unfold record_gap, audit_upload, mbind, um_bind, exec. rewrite all_ok. cbn [new_uuid now].
  unfold append_upload_event. destruct (append_audit_event _ _ _ _) as [[a|e] ledger]; [|done].
  by intros [= <- _].
Qed.
Lemma gaps_recorded (l : list ((string * string) * nat)) at_ n db db' n' :
  for_each l (λ d, record_gap d.1.1 d.1.2 d.2 at_) n db = (Ok tt, db', n') →
  up_gaps db' = up_gaps db ++ ((λ d, mkGapRow d.1.1 d.1.2 (Z.of_nat d.2) at_) <$> l).
Proof.
  revert n db. induction l as [|d l IH]; intros n db.
  { intros [= <- _]. by rewrite app_nil_r. }
  cbn [for_each]. rewrite fmap_cons. unfold mbind, um_bind.
  destruct (record_gap _ _ _ _ n db) as [[[[]|e] db1] n1] eqn:Eg; [|done].
  intros ->%IH. rewrite (gap_recorded _ _ _ _ _ _ _ _ Eg), <- app_assoc. done.
Qed.

(** The rows the age limit leaves. *)
Definition young_list (cutoff : string) (db : UploadDb) : Rows :=
  filter (λ x, aged cutoff x.2 = false) (pending_rows db).
Definition old_list (cutoff : string) (db : UploadDb) : Rows :=
  filter (λ x, aged cutoff x.2 = true) (pending_rows db).

Lemma pending_rows_list db : pending_rows db ≡ₚ pending_list (up_outbox db).
Proof. unfold pending_rows, pending_list. by rewrite outbox_scan_rows. Qed.
Lemma pending_split cutoff db :
  length (pending_list (up_outbox db)) =
  length (old_list cutoff db) + length (young_list cutoff db).
Proof.
  rewrite <- pending_rows_list. unfold old_list, young_list.
  induction (pending_rows db) as [|x l IH]; [done|]. rewrite !filter_cons. simpl length.
  destruct (aged cutoff x.2); simpl; lia.
Qed.
Lemma young_keys cutoff db (l : Rows) : l ≡ₚ young_list cutoff db → NoDup l.*1.
Proof.
  intros ->. unfold young_list. rewrite pending_rows_list. unfold pending_list.
  rewrite list_filter_filter. apply filter_keys_NoDup.
Qed.

(** The choice of what to drop for size. *)
Definition choice (max : Z) (cutoff : string) (db : UploadDb) (victims rest : Rows) : Prop :=
  victims ++ rest ≡ₚ young_list cutoff db ∧ (weight rest ≤ max)%Z ∧
  ∀ v x, v ∈ victims → x ∈ rest → ord_le (ob_staged_at v.2) (ob_staged_at x.2).

Lemma sorted_split {A} (R : relation A) l1 l2 x y :
  StronglySorted R (l1 ++ l2) → x ∈ l1 → y ∈ l2 → R x y.
Proof.
  induction l1 as [|z l1 IH]; simpl; [by intros _ ?%not_elem_of_nil|].
  inversion 1 as [|?? Hs Hf]; subst. intros [->|Hx]%elem_of_cons Hy; [|by apply IH].
  rewrite Forall_app in Hf. destruct Hf as [_ Hf]. rewrite Forall_forall in Hf. by apply Hf.
Qed.
Lemma choice_oldest max cutoff db :
  (0 ≤ max)%Z →
  let oldest := sort_by_key (λ x, ob_staged_at x.2) (young_list cutoff db) in
  ∃ rest, choice max cutoff db (pick_victims (weight (young_list cutoff db) - max) oldest) rest.
Proof.
  intros Hmax oldest.
  destruct (pick_victims_prefix (weight (young_list cutoff db) - max) oldest) as (rest & Heq & Hw).
  set (victims := pick_victims _ oldest) in *. exists rest. split_and!.
  - rewrite <- Heq. apply sort_by_key_Permutation.
  - destruct Hw as [->|Hw]; [done|].
    assert (weight oldest = weight (young_list cutoff db)) as Ho
      by (unfold oldest; by rewrite sort_by_key_Permutation).
    rewrite Heq, weight_app in Ho. lia.
  - intros v x Hv Hx. apply (sorted_split (key_le (λ x, ob_staged_at x.2)) victims rest v x);
      [|done..]. rewrite <- Heq. apply sort_by_key_sorted.
Qed.
Lemma choice_none max cutoff db :
  (weight (young_list cutoff db) ≤ max)%Z → choice max cutoff db [] (young_list cutoff db).
Proof. intros Hw. split_and!; [done|done|]. by intros v x ?%not_elem_of_nil. Qed.

Lemma choice_pending max cutoff db victims rest :
  choice max cutoff db victims rest →
  pending_list (drop_rows victims.*1 (aged cutoff) (up_outbox db)) ≡ₚ rest.
Proof.
  intros (Hp & _ & _). pose proof (young_keys _ _ _ Hp) as Hnd. rewrite fmap_app in Hnd.
  apply NoDup_app in Hnd as (_ & Hdis & Hnd).
  apply pending_dropped; [by eapply NoDup_fmap_1|]. intros x.
  assert (x ∈ victims ++ rest ↔ x ∈ pending_list (up_outbox db) ∧ aged cutoff x.2 = false) as Hx.
  { rewrite Hp. unfold young_list. rewrite list_elem_of_filter, pending_rows_list. tauto. }
  rewrite elem_of_app in Hx. split.
  - intros Hr. split_and!; [tauto| |tauto]. intros Hv. apply (Hdis _ Hv). by apply list_elem_of_fmap_2.
  - intros (Hpe & Hn & Ha). destruct (proj2 Hx) as [Hv|Hr]; [done| |done].
    destruct Hn. by apply list_elem_of_fmap_2.
Qed.

(** Expired for size, then for age: at once. *)
Lemma drop_both keys P db :
  update_outbox (λ r, is_pending r && P r) (set_state ObExpired)
    (with_outbox (drop_rows keys (λ _, false)) db) =
  with_outbox (drop_rows keys P) db.
Proof.
  unfold update_outbox, with_outbox. simpl. f_equal. apply map_eq. intros k.
  unfold drop_rows. rewrite lookup_fmap, !map_lookup_imap.
  destruct (up_outbox db !! k) as [r|]; simpl; [|done]. f_equal. rewrite orb_false_r.
  destruct (is_pending r) eqn:Ep; simpl; [|by rewrite Ep].
  case_bool_decide; simpl; [done|]. by rewrite Ep.
Qed.
Lemma drop_none db : with_outbox (drop_rows [] (λ _, false)) db = db.
Proof.
  destruct db. unfold with_outbox. simpl. f_equal. apply map_eq. intros k. unfold drop_rows.
  rewrite map_lookup_imap. destruct (_ !! k); simpl; [|done]. by rewrite andb_false_r.
Qed.

Definition cutoff_of (at_ : Z) : string := to_rfc3339 (at_ - OUTBOX_MAX_AGE_DAYS * day_nanos).
Definition dropped_of (cutoff : string) (db : UploadDb) (victims : Rows) :
    list ((string * string) * nat) :=
  counted (((λ w, (w, "age_cap")) <$> (ob_window_id <$> (old_list cutoff db).*2)) ++
           ((λ x : (string * string) * OutboxRow, (ob_window_id x.2, "size_cap")) <$> victims)).

Lemma enforce_run max at_ n db :
  (0 ≤ max)%Z →
  ∃ victims rest n1, choice max (cutoff_of at_) db victims rest ∧
    let dropped := dropped_of (cutoff_of at_) db victims in
    enforce_outbox_bound max at_ n db =
    (for_each dropped (λ d, record_gap d.1.1 d.1.2 d.2 (to_rfc3339 at_));;
     mret (sum_list (dropped.*2))) n1
      (with_outbox (drop_rows victims.*1 (aged (cutoff_of at_))) db).
Proof.
  intros Hmax. unfold enforce_outbox_bound. fold (cutoff_of at_). cbv zeta.
  erewrite bind_ok by apply query_all. erewrite bind_ok by apply query_all.
  fold (young_list (cutoff_of at_) db) (old_list (cutoff_of at_) db) (weight (young_list (cutoff_of at_) db)).
  destruct (decide (0 < weight (young_list (cutoff_of at_) db) - max)%Z) as [Hover|Hover].
  - destruct (choice_oldest max (cutoff_of at_) db Hmax) as [rest Hch].
    set (victims := pick_victims _ _) in *.
    destruct (expire_all victims (S (S (S n))) db) as [n' Hex].
    exists victims, rest, (S n'). split; [done|]. erewrite bind_ok.
    2:{ erewrite bind_ok by apply query_all.
        change (filter (λ x, aged (cutoff_of at_) x.2 = false) (pending_rows db))
          with (young_list (cutoff_of at_) db).
        fold victims. erewrite bind_ok by exact Hex. reflexivity. }
    erewrite bind_ok by apply exec_all. by rewrite drop_both.
  - exists [], (young_list (cutoff_of at_) db), (S (S (S n))). split; [apply choice_none; lia|].
    erewrite bind_ok by reflexivity. erewrite bind_ok by apply exec_all.
    cbv zeta. rewrite <- (drop_both _ (aged _) db). change ([].*1) with (@nil (string * string)).
    by rewrite drop_none.
Qed.

(** C35. When the statements succeed, the bound holds on return, whatever the
    audit trail answers: no pending row was staged before the age limit, and
    the pending members together are at most [max_bytes] characters. What was
    dropped within the age limit is never newer than what stays. If the
    operation reports a count, it is exactly the number of rows that are no
    longer pending, and the gaps it recorded add up to it: no row is dropped
    silently. *)
Theorem outbox_bound_is_enforced max_bytes at_ n db :
  (0 ≤ max_bytes)%Z →
  let '(res, db', _) := enforce_outbox_bound max_bytes at_ n db in
  (∀ x, x ∈ pending_list (up_outbox db') → aged (cutoff_of at_) x.2 = false) ∧
  (weight (pending_list (up_outbox db')) ≤ max_bytes)%Z ∧
  (∀ x y, x ∈ pending_list (up_outbox db) → x ∉ pending_list (up_outbox db') →
     y ∈ pending_list (up_outbox db') →
     aged (cutoff_of at_) x.2 = true ∨ ord_le (ob_staged_at x.2) (ob_staged_at y.2)) ∧
  ∀ dropped, res = Ok dropped →
    length (pending_list (up_outbox db)) = dropped + length (pending_list (up_outbox db')) ∧
    ∃ gaps, up_gaps db' = up_gaps db ++ gaps ∧
      foldr (λ g acc, gp_dropped_count g + acc)%Z 0%Z gaps = Z.of_nat dropped.
Proof.
  intros Hmax. destruct (enforce_run max_bytes at_ n db Hmax) as (victims & rest & n1 & Hch & ->).
  pose proof (choice_pending _ _ _ _ _ Hch) as Hpend. destruct Hch as (Hp & Hw & Hold).
  set (cutoff := cutoff_of at_) in *. cbv zeta. set (dropped := dropped_of cutoff db victims).
  set (db1 := with_outbox _ db). change (drop_rows _ _ _) with (up_outbox db1) in Hpend.
  assert (∀ x, x ∈ rest → aged cutoff x.2 = false) as Hyoung.
  { intros x Hx. assert (x ∈ victims ++ rest) as Hin by (apply elem_of_app; by right).
    rewrite Hp in Hin. by apply list_elem_of_filter in Hin as [? _]. }
  assert (∀ x y, x ∈ pending_list (up_outbox db) → x ∉ rest → y ∈ rest →
    aged cutoff x.2 = true ∨ ord_le (ob_staged_at x.2) (ob_staged_at y.2)) as Horder.
  { intros x y Hx Hn Hy. destruct (aged cutoff x.2) eqn:Ea; [by left|right]. apply Hold; [|done].
    assert (x ∈ victims ++ rest) as [?|?]%elem_of_app; [|done..].
    rewrite Hp. apply list_elem_of_filter. by rewrite pending_rows_list. }
  assert (length (pending_list (up_outbox db)) = sum_list dropped.*2 + length rest) as Hlen.
  { unfold dropped, dropped_of. rewrite counted_sum, (pending_split cutoff db), <- Hp.
    rewrite !length_app, !length_fmap. lia. }
  pose proof (keeps_for_each same_outbox dropped
    (λ d, record_gap d.1.1 d.1.2 d.2 (to_rfc3339 at_)) (λ d, gap_same_outbox _ _ _ _) n1 db1) as Ho.
  unfold mbind, um_bind.
  destruct (for_each dropped _ n1 db1) as [[[[]|e] db2] n2] eqn:Ef;
    unfold same_outbox in Ho; cbn [fst snd] in Ho; cbn [mret um_ret]; rewrite Ho;
    setoid_rewrite Hpend; (split_and!; [done..|]); [|done].
  intros d [= <-]. split; [done|]. rewrite (gaps_recorded _ _ _ _ _ _ Ef).
  eexists. split; [done|]. clear. induction dropped as [|d l IH]; [done|].
  rewrite !fmap_cons. cbn [foldr gp_dropped_count]. rewrite IH.
  change (sum_list (d.2 :: l.*2)) with (d.2 + sum_list l.*2). lia.
Qed.
End bound.
