(* ===== verification/UploadRunSpec.v ===== *)
(** * What a run of the uploader sends

    Every request is permitted by the egress tables of its moment and carries,
    unchanged, a batch that was sealed for its destination; a batch is
    acknowledged only when the receiver accepted such a request; and no run,
    whatever fails in it, breaks the invariant of the outbox. *)

From stdpp Require Import pretty.
From S2P Require Import Prelude.
From S2P Require Import Types.
From S2P Require Import Text.
From S2P Require Import PolicyContent.
From S2P Require Import AuditEvent.
From S2P Require Import AuditLedger.
From S2P Require Import Egress.
From S2P Require Import EgressStore.
From S2P Require Import EgressSpec.
From S2P Require Import EventStore.
From S2P Require Import EventRead.
From S2P Require Import Upload.
From S2P Require Import UploadRun.
From S2P Require Import UploadSpec.
From S2P Require Import UploadStageSpec.

Local Open Scope fornax_scope.

(** ** Store operations send and acknowledge nothing *)

Definition acknowledged (batches : gmap string UploadBatchRow) (batch_id : string) : Prop :=
  ∃ b, batches !! batch_id = Some b ∧ bt_state b = BtAcknowledged.
Definition quiet : relation UploadDb := λ db db',
  up_requests db' = up_requests db ∧
  ∀ i, acknowledged (up_batches db') i → acknowledged (up_batches db) i.
#[export] Instance quiet_preorder : PreOrder quiet.
Proof. split; [by intros db|]. intros db1 db2 db3 [? ?] [? ?]. split; [congruence|eauto]. Qed.

Lemma quiet_same db db' :
  up_requests db' = up_requests db → up_batches db' = up_batches db → quiet db db'.
Proof. intros Hr Hb. split; [done|]. by rewrite Hb. Qed.
Lemma quiet_alter f i db :
  (∀ b, bt_state (f b) = BtAcknowledged → bt_state b = BtAcknowledged) →
  quiet db (with_batches (alter f i) db).
Proof.
  intros Hf. split; [done|]. intros j (b & Hb & Ha). simpl in Hb. rewrite lookup_alter in Hb.
  case_decide; subst; [|by exists b]. apply fmap_Some in Hb as (b0 & Hb0 & ->). exists b0. auto.
Qed.
Lemma quiet_update P f db : quiet db (update_outbox P f db).
Proof. by apply quiet_same. Qed.

Section quiet.
Context `{Chrono, ChronoFmt, ChronoDate, UrlParser, StringsJson, Sha256, AuditWire, EventJson}.
Context `{TableScan, OutboxScan, UploadWorld}.

Lemma quiet_audit action target outcome : keeps quiet (audit_upload action target outcome).
Proof.
  unfold audit_upload. keeps. intros n db. unfold append_upload_event.
  destruct (append_audit_event _ _ _ _). by apply quiet_same.
Qed.
Lemma quiet_exec f :
  (∀ db, up_requests (f db) = up_requests db ∧ up_batches (f db) = up_batches db) →
  keeps quiet (exec f).
Proof. intros Hf. apply keeps_exec; [apply _|]. intros db. destruct (Hf db). by apply quiet_same. Qed.
Lemma quiet_gap window reason count at_ : keeps quiet (record_gap window reason count at_).
Proof. unfold record_gap. keeps; [by apply quiet_exec|apply quiet_audit]. Qed.
Lemma quiet_bound max at_ : keeps quiet (enforce_outbox_bound max at_).
Proof. unfold enforce_outbox_bound, expire_row. keeps; [by apply quiet_exec..|apply quiet_gap]. Qed.
Lemma quiet_poison batch_id reason : keeps quiet (poison_upload_batch batch_id reason).
Proof.
  unfold poison_upload_batch. keeps; [|apply quiet_audit].
  apply keeps_transaction; [apply _|]. intros db x db' [= _ <-].
  etrans; [|apply quiet_update]. by apply quiet_alter.
Qed.
Lemma quiet_attempt batch_id error : keeps quiet (record_upload_attempt batch_id error).
Proof.
  unfold record_upload_attempt. keeps. apply keeps_exec; [apply _|]. intros db.
  by apply quiet_alter.
Qed.
Lemma quiet_retire live : keeps quiet (retire_unauthorized_upload_work live).
Proof.
  unfold retire_unauthorized_upload_work. keeps; [by apply quiet_exec|apply quiet_gap|apply quiet_poison].
Qed.
Lemma quiet_renew consent older since : keeps quiet (renew consent older since).
Proof.
  revert since. induction older as [|o older IH]; intros since; simpl; keeps;
    [by apply quiet_exec|apply IH..].
Qed.
Lemma quiet_stage : keeps quiet stage_upload_records.
Proof.
  unfold stage_upload_records, live_upload_consents.
  keeps; [apply quiet_retire|apply quiet_renew| |apply quiet_bound].
  apply keeps_transaction; [apply _|]. intros db x db'.
  destruct (stage_members _ _ _ _ _ _ _). intros [= _ <-]. by apply quiet_same.
Qed.
End quiet.

(** ** What a request certifies *)

Section sending.
Context `{Chrono, ChronoFmt, ChronoDate, UrlParser, StringsJson, Sha256, AuditWire, EventJson}.
Context `{TableScan, !TableScanOk, OutboxScan, !OutboxScanOk, UploadWorld, HttpWorld}.
Implicit Types (db : UploadDb) (s : Sending).

(** The egress tables permitted it, at the step before it left. *)
Definition permitted s : Prop :=
  ∃ k st d, sd_step s = S k ∧ egress_state (sd_egress s) = Ok st ∧
    destination_parse (rq_to (sd_request s)) = Ok d ∧
    may_ship st (mkEgressRequest EvidenceBatchUpload (rq_to (sd_request s)) upload_classes
                   (cloud_sync_allowed k) (to_rfc3339 (utc_now k))) d.
(** The body is that of a batch, sealed for this destination. *)
Definition carries_batch (batches : gmap string UploadBatchRow) (req : UploadRequest) : Prop :=
  ∃ b, batches !! rq_batch_id req = Some b ∧
    rq_window_id req = bt_window_id b ∧ rq_manifest_sha256 req = bt_manifest_sha256 b ∧
    rq_idempotency_key req = bt_manifest_sha256 b ∧
    value_from_str (bt_members_json b) = Some (rq_members req) ∧
    url_text (bt_destination b) = Some (rq_to req).
Definition accepted (batch_id : string) s : Prop :=
  rq_batch_id (sd_request s) = batch_id ∧
  ∃ status, http_post (sd_step s) (sd_request s) = Response status ∧ is_success status = true.

(** At most [k] requests, each permitted and carrying a batch. *)
Definition sent (k : nat) : relation UploadDb := λ db db',
  upload_inv db →
  upload_inv db' ∧ advances db db' ∧
  ∃ log, up_requests db' = up_requests db ++ log ∧ length log ≤ k ∧
    Forall (λ s, permitted s ∧ carries_batch (up_batches db') (sd_request s)) log ∧
    ∀ i, acknowledged (up_batches db') i → acknowledged (up_batches db) i ∨ Exists (accepted i) log.

Lemma carries_next batches batches' req :
  table_next batch_next batches batches' → carries_batch batches req → carries_batch batches' req.
Proof.
  intros Hn (b & Hb & Hrest). destruct (Hn _ _ Hb) as (b' & Hb' & [= Hw _ Hd Hm _ _ _ Hj _] & _).
  exists b'. by rewrite Hw, Hd, Hm, Hj.
Qed.

Lemma sent_quiet db db' : sound_step db db' → quiet db db' → sent 0 db db'.
Proof.
  intros Hs [Hr Ha] Hi. destruct (Hs Hi). split_and!; [done..|]. exists [].
  rewrite app_nil_r. split_and!; [done|done|constructor|auto].
Qed.
Lemma sent_refl db : sent 0 db db.
Proof. by apply sent_quiet. Qed.
Lemma sent_weaken k k' db db' : k ≤ k' → sent k db db' → sent k' db db'.
Proof.
  intros Hk Hs Hi. destruct (Hs Hi) as (? & ? & log & ? & ? & ?). split_and!; [done..|].
  exists log. split_and!; [done|lia|tauto..].
Qed.
Lemma sent_trans k1 k2 db1 db2 db3 : sent k1 db1 db2 → sent k2 db2 db3 → sent (k1 + k2) db1 db3.
Proof.
  intros Hs1 Hs2 Hi. destruct (Hs1 Hi) as (Hi2 & Ha1 & l1 & Hr1 & Hl1 & Hc1 & Hk1).
  destruct (Hs2 Hi2) as (Hi3 & Ha2 & l2 & Hr2 & Hl2 & Hc2 & Hk2).
  split_and!; [done|by trans db2|]. exists (l1 ++ l2).
  rewrite Hr2, Hr1, app_assoc, length_app. split_and!; [done|lia| |].
  - apply Forall_app. split; [|done]. eapply Forall_impl; [done|]. intros s [? ?].
    split; [done|]. by eapply carries_next; [apply ad_batches|].
  - intros i [Hi'|]%Hk2; [|right; apply Exists_app; by right].
    destruct (Hk1 _ Hi'); [by left|right; apply Exists_app; by left].
Qed.

(** A computation, and one after it. *)
Lemma sent_bind {A B} (m : UM UploadError A) (f : A → UM UploadError B) k1 k2 n db :
  sent k1 db (m n db).1.2 →
  (∀ a db1 n1, m n db = (Ok a, db1, n1) → sent k2 db1 (f a n1 db1).1.2) →
  sent (k1 + k2) db ((m ≫= f) n db).1.2.
Proof.
  intros Hm Hf. unfold mbind, um_bind. destruct (m n db) as [[[a|e] db1] n1].
  - by eapply sent_trans; [|apply Hf].
  - eapply sent_weaken; [|done]. lia.
Qed.
Lemma sent_bind0 {A B} (m : UM UploadError A) (f : A → UM UploadError B) k n db :
  sent 0 db (m n db).1.2 →
  (∀ a db1 n1, m n db = (Ok a, db1, n1) → sent k db1 (f a n1 db1).1.2) →
  sent k db ((m ≫= f) n db).1.2.
Proof. apply (sent_bind m f 0 k). Qed.

Lemma sent_lift {A} (m : UM StoreError A) n db :
  keeps sound_step m → keeps quiet m → sent 0 db (lift m n db).1.2.
Proof.
  intros Hs Hq. specialize (Hs n db). specialize (Hq n db). unfold lift.
  destruct (m n db) as [[[a|e] db1] n1]; by apply sent_quiet.
Qed.
Lemma lift_ok {A} (m : UM StoreError A) n db a db1 n1 :
  lift m n db = (Ok a, db1, n1) → m n db = (Ok a, db1, n1).
Proof. unfold lift. destruct (m n db) as [[[a'|e] db'] n']; by intros [= <- <- <-]. Qed.
Lemma sent_ret {A} (a : A) n db : sent 0 db ((mret a : UM UploadError A) n db).1.2.
Proof. apply sent_refl. Qed.

(** *** One attempt *)

Lemma permit_ships e url gate t p :
  decide_egress e EvidenceBatchUpload url upload_classes gate t = Ok p →
  ∃ st d, egress_state e = Ok st ∧ destination_parse url = Ok d ∧
    may_ship st (mkEgressRequest EvidenceBatchUpload url upload_classes gate (to_rfc3339 t)) d.
Proof.
  unfold decide_egress. destruct (egress_state e) as [st|] eqn:Est; [|done].
  intros (d & Hd & _ & _ & [(? & _)|(_ & Hal & [(? & _)|(c & Hc & _ & Hs & _)])])%decide_certified;
    try done. exists st, d. destruct (Hs eq_refl) as (? & ? & ?).
  split_and!; [done..|]. split_and!; [done..|]. by exists c.
Qed.

Lemma keeps_lift {A} R (m : UM StoreError A) : keeps R m → keeps R (lift m).
Proof.
  intros Hm n db. specialize (Hm n db). unfold lift. by destruct (m n db) as [[[a|e] db1] n1].
Qed.
Lemma answer_sound batch_id answer : keeps sound_step (attempt_answer batch_id answer).
Proof.
  unfold attempt_answer. cbv zeta. keeps; apply keeps_lift;
    solve [apply keeps_attempt | apply keeps_acknowledge | apply keeps_poison].
Qed.
Lemma answer_quiet batch_id answer :
  (∀ status, answer = Response status → is_success status = false) →
  keeps quiet (attempt_answer batch_id answer).
Proof.
  intros Hno. unfold attempt_answer. cbv zeta.
  destruct answer as [status| |]; [rewrite (Hno status) by done|..]; keeps; apply keeps_lift;
    solve [apply quiet_attempt | apply quiet_poison].
Qed.

(** Nothing is acknowledged but one batch. *)
Definition quiet_but (i : string) : relation UploadDb := λ db db',
  up_requests db' = up_requests db ∧
  ∀ j, acknowledged (up_batches db') j → acknowledged (up_batches db) j ∨ j = i.
#[local] Instance quiet_but_preorder i : PreOrder (quiet_but i).
Proof.
  split; [intros db; split; auto|]. intros db1 db2 db3 [? Ha1] [? Ha2].
  split; [congruence|]. intros j [?|?]%Ha2; [auto|by right].
Qed.
Lemma keeps_quiet_but {E A} i (m : UM E A) : keeps quiet m → keeps (quiet_but i) m.
Proof. intros Hm n db. destruct (Hm n db). split; auto. Qed.
Lemma acknowledge_quiet_but i : keeps (quiet_but i) (acknowledge_upload_batch i).
Proof.
  unfold acknowledge_upload_batch. keeps; [|apply keeps_quiet_but, quiet_audit].
  apply keeps_transaction; [apply _|]. intros db x db' [= _ <-]. split; [done|].
  intros j (b & Hb & Ha). simpl in Hb. destruct (decide (i = j)) as [->|Hne]; [by right|].
  rewrite lookup_alter_ne in Hb by done. left. by exists b.
Qed.
Lemma answer_quiet_but batch_id answer : keeps (quiet_but batch_id) (attempt_answer batch_id answer).
Proof.
  destruct answer as [status| |]; [|by apply keeps_quiet_but, answer_quiet..].
  destruct (is_success status) eqn:Es;
    [|apply keeps_quiet_but, answer_quiet; intros ? [= <-]; done].
  unfold attempt_answer. rewrite Es. keeps; apply keeps_lift;
    [apply keeps_quiet_but, quiet_attempt|apply acknowledge_quiet_but].
Qed.

Lemma delivered req n n1 db :
  permitted (mkSending req (up_egress db) n) → carries_batch (up_batches db) req →
  sent 1 db
    (attempt_answer (rq_batch_id req) (http_post n req) n1 (post req n db).1.2).1.2.
Proof.
  intros Hp Hc Hi. set (s := mkSending req (up_egress db) n). set (db1 := (post req n db).1.2).
  assert (upload_inv db1 ∧ advances db db1) as [Hi1 Ha1] by (by destruct Hi).
  destruct (answer_sound (rq_batch_id req) (http_post n req) n1 db1 Hi1) as [Hi2 Ha2].
  destruct (answer_quiet_but (rq_batch_id req) (http_post n req) n1 db1) as [Hr2 Hk2].
  split_and!; [done|by trans db1|]. exists [s]. split_and!; [done|done| |].
  - apply Forall_singleton. split; [done|]. eapply carries_next; [by apply ad_batches|]. done.
  - intros i Hk. destruct (http_post n req) as [status| |] eqn:Eh;
      [destruct (is_success status) eqn:Es|..].
    { destruct (Hk2 i Hk) as [?| ->]; [by left|right]. apply Exists_cons. left. split; [done|].
      by exists status. }
    all: left; refine (proj2 (answer_quiet (rq_batch_id req) _ _ n1 db1) i Hk); naive_solver.
Qed.

Lemma send_attempts_sent attempts url req n db :
  rq_to req = url → carries_batch (up_batches db) req →
  sent attempts db (send_attempts attempts url req n db).1.2.
Proof.
  intros Hto. revert n db. induction attempts as [|attempts IH]; intros n db Hc; [apply sent_refl|].
  cbn [send_attempts].
  set (db1 := with_egress (meanwhile n (up_egress db)) db).
  assert (sent 0 db db1) as Hask by (apply sent_quiet; [apply egress_sound|by apply quiet_same]).
  unfold mbind at 1, um_bind at 1. unfold ask_egress at 1. fold db1.
  destruct (stmt_ok n); [|eapply sent_weaken, Hask; lia].
  destruct (decide_egress _ _ _ _ _ _) as [p|] eqn:Ed; [|eapply sent_weaken, Hask; lia].
  destruct (authorizes p EvidenceBatchUpload url); [|eapply sent_weaken, Hask; lia].
  apply (sent_trans 0 (S attempts) _ db1); [done|].
  assert (permitted (mkSending req (up_egress db1) (S n))) as Hp.
  { destruct (permit_ships _ _ _ _ _ Ed) as (st & d & ?). exists n, st, d. by subst url. }
  unfold mbind at 1, um_bind at 1. cbn [post].
  pose proof (delivered req (S n) (S (S n)) db1 Hp Hc) as Hdel.
  unfold mbind, um_bind. cbn [post fst snd] in Hdel.
  destruct (attempt_answer _ _ _ _) as [[[[sent'|]|e] db2] n2] eqn:Ea;
    [eapply sent_weaken, Hdel; lia| |eapply sent_weaken, Hdel; lia].
  intros Hi.
  assert (carries_batch (up_batches db2) req) as Hc2.
  { assert (upload_inv db1) as Hi1 by apply Hi. destruct (Hdel Hi1) as (_ & Ha & _).
    by eapply carries_next; [apply ad_batches|]. }
  apply (sent_trans 1 attempts db1 db2); [done|by apply IH|done].
Qed.

(** *** Batches *)

(** The batch as read from its row. *)
Definition known (batches : gmap string UploadBatchRow) (b : SealedBatch) : Prop :=
  ∃ r, batches !! sb_batch_id b = Some r ∧ sb_window_id b = bt_window_id r ∧
    sb_destination b = bt_destination r ∧ sb_manifest_sha256 b = bt_manifest_sha256 r ∧
    sb_members_json b = bt_members_json r.
Lemma known_next batches batches' b :
  table_next batch_next batches batches' → known batches b → known batches' b.
Proof.
  intros Hn (r & Hr & Hrest). destruct (Hn _ _ Hr) as (r' & Hr' & [= Hw _ Hd Hm _ _ _ Hj _] & _).
  exists r'. by rewrite Hw, Hd, Hm, Hj.
Qed.
Lemma known_sent k db db' b :
  upload_inv db → sent k db db' → known (up_batches db) b → known (up_batches db') b.
Proof. intros Hi Hs. destruct (Hs Hi) as (_ & [] & _). by apply known_next. Qed.

Lemma send_batch_sent url device credential b n db :
  known (up_batches db) b → url_text (sb_destination b) = Some url →
  sent MAX_ATTEMPTS_PER_RUN db (send_batch url device credential b n db).1.2.
Proof.
  intros (r & Hr & Hw & Hd & Hm & Hj) Hurl. unfold send_batch.
  destruct (value_from_str _) as [members|] eqn:Ev; [|eapply sent_weaken, sent_refl; lia].
  apply send_attempts_sent; [done|]. exists r. simpl. split_and!; [done..| |].
  - by rewrite <- Hj.
  - by rewrite <- Hd.
Qed.

Section loop.
Context (consent : Consent) (url device credential : string).
Hypothesis Hurl : url_text (con_destination consent) = Some url.

(** The requests of the budget used so far. *)
Lemma resend_sent work budget t n db :
  upload_inv db → Forall (known (up_batches db)) work →
  ∃ used, used ≤ budget ∧
    sent (MAX_ATTEMPTS_PER_RUN * used) db
      (resend consent url device credential work budget t n db).1.2 ∧
    ∀ left t', (resend consent url device credential work budget t n db).1.1 = Ok (inr (left, t')) →
      used + left ≤ budget.
Proof.
  revert budget t n db. induction work as [|b work IH]; intros budget t n db Hi Hk; cbn [resend].
  { exists 0. split_and!; [lia|apply sent_refl|]. intros left t' [= <- _]. lia. }
  apply Forall_cons in Hk as [Hb Hk]. case_decide as Hd; [by apply IH|].
  destruct budget as [|budget]; [exists 0; split_and!; [lia|apply sent_refl|done]|].
  pose proof (send_batch_sent url device credential b n db Hb) as Hs.
  rewrite Hd in Hs. specialize (Hs Hurl). unfold mbind, um_bind.
  destruct (send_batch _ _ _ _ _ _) as [[[[]|e] db1] n1]; simpl in Hs.
  2-4: exists 1; rewrite Nat.mul_1_r; split_and!; [lia|done..].
  destruct (IH budget (tally_sent t) n1 db1) as (used & Hu & Hs' & Hleft).
  { by destruct (Hs Hi). }
  { eapply Forall_impl; [done|]. intros b'. by eapply known_sent. }
  exists (S used). split_and!; [lia| |intros left t' Hl; apply Hleft in Hl; lia].
  rewrite Nat.mul_succ_r, Nat.add_comm. by eapply sent_trans.
Qed.

Lemma seal_known window consent_id dest n db b db1 n1 :
  seal_upload_batch window consent_id dest n db = (Ok (Some b), db1, n1) →
  known (up_batches db1) b ∧ sb_destination b = dest.
Proof.
  unfold seal_upload_batch, mbind, um_bind. cbn [new_uuid now].
  unfold transaction. destruct (stmt_ok _); [|done].
  destruct (seal_body _ _ _ _ _ _) as [[[b'|] db']|] eqn:Es; [|done..].
  match goal with |- context [audit_upload UploadBatchSealed ?x ?y ?m ?d] =>
    destruct (audit_upload UploadBatchSealed x y m d) as [[[[]|e] db2] n2] eqn:Ea end; [|done].
  intros [= <- <- <-].
  assert (up_batches db2 = up_batches db') as Hb.
  { revert Ea. unfold audit_upload, mbind, um_bind. cbn [new_uuid now].
    unfold append_upload_event. destruct (append_audit_event _ _ _ _). by intros [= _ <- _]. }
  rewrite Hb.
  destruct (seal_body_cases _ _ _ _ _ _ _ _ Es) as [[? _]|(values & _ & _ & _ & [= ->] & ->)]; [done|].
  split; [|done]. eexists. simpl. by rewrite lookup_insert_eq.
Qed.

Lemma quiet_seal window consent_id dest : keeps quiet (seal_upload_batch window consent_id dest).
Proof.
  unfold seal_upload_batch. keeps; [|apply quiet_audit].
  apply keeps_transaction; [apply _|]. intros db x db'.
  intros [[_ ->]|(values & _ & _ & _ & _ & ->)]%seal_body_cases; [done|].
  split; [done|]. intros i (b & Hb & Hst). simpl in Hb. rewrite lookup_insert in Hb.
  case_decide; simplify_eq/=; by exists b.
Qed.

Lemma seal_next_sent windows n db :
  sent 0 db (seal_next consent windows n db).1.2 ∧
  ∀ b db1 n1, seal_next consent windows n db = (Ok (Some b), db1, n1) →
    known (up_batches db1) b ∧ sb_destination b = con_destination consent.
Proof.
  revert n db. induction windows as [|w windows IH]; intros n db; cbn [seal_next];
    [split; [apply sent_refl|done]|].
  unfold mbind, um_bind.
  assert (sent 0 db (lift (seal_upload_batch w (con_id consent) (con_destination consent)) n db).1.2)
    as Hs by (apply sent_lift; [apply keeps_seal|apply quiet_seal]).
  destruct (lift _ n db) as [[[[b|]|e] db1] n1] eqn:El; simpl in Hs.
  - split; [done|]. intros ??? [= <- <- <-]. apply lift_ok in El. by eapply seal_known.
  - destruct (IH n1 db1) as [Hs' Hk]. split; [by eapply (sent_trans 0 0)|done].
  - done.
Qed.

Lemma seal_and_send_sent windows budget t n db :
  upload_inv db →
  sent (MAX_ATTEMPTS_PER_RUN * budget) db
    (seal_and_send consent url device credential windows budget t n db).1.2.
Proof.
  revert t n db. induction budget as [|budget IH]; intros t n db Hi; cbn [seal_and_send];
    unfold mbind at 1, um_bind at 1; destruct (seal_next_sent windows n db) as [Hs Hk];
    destruct (seal_next consent windows n db) as [[[[b|]|e] db1] n1] eqn:En; simpl in Hs;
    try (by eapply sent_weaken; [|exact Hs]; lia).
  destruct (Hk b db1 n1 eq_refl) as [Hb Hd].
  pose proof (send_batch_sent url device credential b n1 db1 Hb) as Hs1.
  rewrite Hd in Hs1. specialize (Hs1 Hurl). unfold mbind, um_bind.
  apply (sent_trans 0 (MAX_ATTEMPTS_PER_RUN * S budget) _ db1); [done|].
  assert (upload_inv db1) as Hi1 by by destruct (Hs Hi).
  destruct (send_batch _ _ _ _ _ _) as [[[[]|e] db2] n2]; simpl in Hs1;
    try (by eapply sent_weaken; [|exact Hs1]; lia).
  rewrite Nat.mul_succ_r, Nat.add_comm. eapply sent_trans; [done|]. apply IH.
  by destruct (Hs1 Hi1).
Qed.
End loop.

(** *** A run and a tick *)

Lemma query_ok {A} (f : UploadDb → A) n db a db1 n1 :
  query f n db = (Ok a, db1, n1) → a = f db ∧ db1 = db.
Proof. unfold query. by destruct (stmt_ok n); intros [= <- <- _]. Qed.
Lemma sent_query {A} (f : UploadDb → A) n db : sent 0 db (lift (query f) n db).1.2.
Proof. apply sent_lift; apply keeps_query, _. Qed.
Lemma unfinished_known n db work db1 n1 :
  lift unfinished_upload_batches n db = (Ok work, db1, n1) →
  Forall (known (up_batches db1)) (reverse work).
Proof.
  intros [-> ->]%lift_ok%query_ok. rewrite Forall_reverse, Forall_fmap. apply Forall_forall.
  intros [i r]. rewrite elem_of_sort_by_key. intros [_ Hr]%list_elem_of_filter.
  rewrite scan_rows in Hr. apply elem_of_map_to_list in Hr. by exists r.
Qed.
Lemma sent_live n db : sent 0 db (lift live_upload_consent n db).1.2.
Proof. apply sent_lift; unfold live_upload_consent, live_upload_consents; keeps. Qed.
Lemma sent_stage n db : sent 0 db (lift stage_upload_records n db).1.2.
Proof. apply sent_lift; [apply keeps_stage|apply quiet_stage]. Qed.

Lemma loop_sent consent url device credential work windows max n db :
  upload_inv db → url_text (con_destination consent) = Some url →
  Forall (known (up_batches db)) work →
  sent (MAX_ATTEMPTS_PER_RUN * max) db
    ((ended ← resend consent url device credential work max (mkTally 0 0 0 []);
      match ended with
      | inl t => mret t
      | inr (budget, t) => seal_and_send consent url device credential windows budget t
      end) n db).1.2.
Proof.
  intros Hi Hurl Hk.
  destruct (resend_sent consent url device credential Hurl work max (mkTally 0 0 0 []) n db Hi Hk)
    as (used & Hu & Hs & Hleft).
  unfold mbind, um_bind.
  destruct (resend _ _ _ _ _ _ _ _ _) as [[[[t|[budget t]]|e] db1] n1]; cbn [fst snd] in Hs, Hleft;
    try (by eapply sent_weaken, Hs; apply Nat.mul_le_mono_l).
  specialize (Hleft _ _ eq_refl).
  apply (sent_weaken (MAX_ATTEMPTS_PER_RUN * used + MAX_ATTEMPTS_PER_RUN * budget));
    [rewrite <- Nat.mul_add_distr_l; by apply Nat.mul_le_mono_l|].
  eapply sent_trans; [done|]. apply seal_and_send_sent; [done|]. by destruct (Hs Hi).
Qed.

Lemma run_sent lock device credential window max n db :
  sent (MAX_ATTEMPTS_PER_RUN * max) db (run_upload lock device credential window max n db).1.2.
Proof.
  assert (∀ db, sent (MAX_ATTEMPTS_PER_RUN * max) db db) as Hr
    by (intros db'; apply (sent_weaken 0); [apply Nat.le_0_l|apply sent_refl]).
  unfold run_upload. destruct lock as [[]|]; [|apply Hr..].
  apply sent_bind0; [apply sent_live|]. intros [consent|] db1 n1 _; [|apply Hr].
  apply sent_bind0; [apply sent_stage|]. intros staged db2 n2 _.
  destruct (url_text _) as [url|] eqn:Eurl; [|apply Hr].
  destruct device as [device|]; [|apply Hr]. apply sent_bind0; [apply sent_refl|].
  intros ? ? ? [= <- <- <-].
  destruct credential as [credential|]; [|apply Hr]. apply sent_bind0; [apply sent_refl|].
  intros ? ? ? [= <- <- <-].
  apply sent_bind0; [apply sent_query|]. intros work db3 n3 Hwork%unfinished_known.
  apply sent_bind0.
  { destruct window; [apply sent_ret|]. apply sent_bind0; [apply sent_refl|]. intros t db4 n4 _.
    apply sent_bind0; [apply sent_query|]. intros ws db5 n5 _. apply sent_ret. }
  intros windows db4 n4 Hw Hi.
  assert (db4 = db3) as ->.
  { destruct window; unfold mret, um_ret, mbind, um_bind in Hw; [by injection Hw|].
    cbn [now] in Hw.
    destruct (lift pending_upload_windows _ db3) as [[[ws|] ?] ?] eqn:Ew; [|done].
    apply lift_ok, query_ok in Ew as [_ ->]. by injection Hw. }
  pose proof (loop_sent consent url device credential (reverse work) windows max n4 db3 Hi Eurl
    Hwork) as Hloop.
  revert Hi. change (sent (MAX_ATTEMPTS_PER_RUN * max) db3
    ((ended ← resend consent url device credential (reverse work) max (mkTally 0 0 0 []);
      t ← match ended with
          | inl t => mret t
          | inr (budget, t) => seal_and_send consent url device credential windows budget t
          end;
      mret (mkRunReport (sr_staged staged) (sr_expired_at_bound staged) (ta_sent t)
              (ta_poisoned t) (ta_pending t) (ta_skipped t))) n4 db3).1.2).
  revert Hloop. unfold mbind, um_bind, mret, um_ret.
  destruct (resend _ _ _ _ _ _ _ _ _) as [[[[t|[budget t]]|e] db5] n5]; simpl; [done| |done].
  by destruct (seal_and_send _ _ _ _ _ _ _ _ _) as [[[t'|] db6] n6].
Qed.

Lemma tick_sent lock device credential n db :
  sent (MAX_ATTEMPTS_PER_RUN * 8) db (scheduled_tick lock device credential n db).1.2.
Proof.
  assert (∀ db, sent (MAX_ATTEMPTS_PER_RUN * 8) db db) as Hr
    by (intros db'; apply (sent_weaken 0); [apply Nat.le_0_l|apply sent_refl]).
  assert (∀ open n db, sent 0 db (closed_due open n db).1.2) as Hdue.
  { intros open n' db'. apply sent_bind0; [apply sent_query|]. intros. apply sent_ret. }
  unfold scheduled_tick. apply sent_bind0; [apply sent_refl|]. intros [] db1 n1 _; [|apply Hr].
  apply sent_bind0; [apply sent_live|]. intros [consent|] db2 n2 _; [|apply Hr].
  apply sent_bind0; [apply sent_refl|]. intros t db3 n3 _.
  apply sent_bind0; [apply Hdue|]. intros closed db4 n4 _. apply sent_bind0.
  { destruct closed; [apply sent_ret|]. apply sent_bind0; [apply sent_stage|]. intros. apply Hdue. }
  intros due db5 n5 _. apply sent_bind0.
  { destruct due; [apply sent_ret|apply sent_query]. }
  intros unfinished db6 n6 _. destruct (negb due && _); [apply Hr|].
  destruct device as [device|]; [|apply Hr]. destruct credential as [credential|]; [|apply Hr].
  pose proof (run_sent lock (Ok device) (Ok credential) None 8 n6 db6) as Hs. unfold run_or_busy.
  by destruct (run_upload _ _ _ _ _ _ _) as [[[r|[]] db7] n7].
Qed.

(** ** The system *)

(** A run of the operator, a tick of the schedule, the staging of a retention
    sweep; in between, other operations change the events and the egress
    tables. Every one may fail anywhere. *)
Inductive upload_step : relation UploadDb :=
| us_run lock device credential window max n db :
    upload_step db (run_upload lock device credential window max n db).1.2
| us_tick lock device credential n db :
    upload_step db (scheduled_tick lock device credential n db).1.2
| us_sweep n db : upload_step db (stage_upload_records n db).1.2
| us_others events egress db :
    upload_step db
      (mkUploadDb events egress (up_outbox db) (up_batches db) (up_gaps db) (up_requests db)).

Definition empty_upload (events : EventDb) (egress : EgressDb) : UploadDb :=
  mkUploadDb events egress ∅ ∅ [] [].
Lemma empty_upload_inv events egress : upload_inv (empty_upload events egress).
Proof. split; apply map_Forall_empty. Qed.

Lemma step_sent db db' : upload_step db db' → ∃ k, sent k db db'.
Proof.
  destruct 1.
  - eexists. apply run_sent.
  - eexists. apply tick_sent.
  - exists 0. apply sent_quiet; [apply keeps_stage|apply quiet_stage].
  - exists 0. apply sent_quiet; [|by apply quiet_same].
    apply edit_sound; [done..|]. intros _ k. simpl.
    destruct (up_outbox db !! k); constructor. by left.
Qed.
Lemma steps_sent db db' : rtc upload_step db db' → ∃ k, sent k db db'.
Proof.
  induction 1 as [db|db1 db2 db3 Hstep _ [k2 IH]]; [exists 0; apply sent_refl|].
  destruct (step_sent _ _ Hstep) as [k1 Hs]. exists (k1 + k2). by eapply sent_trans.
Qed.

(** C27. In every state the uploader can reach, whichever statements fail and
    however runs, ticks and sweeps follow each other: a row of the outbox is
    pending or expired until it is sealed, and then in the state of its batch,
    with the batch's window and consent; the members and the manifest of a
    batch are those of exactly its rows, 1 to 2000 of them. And whatever
    happens next, no row and no batch disappears or changes its content, no
    row leaves its batch or is ever pending again, an expired one stays so,
    and no gap is forgotten. *)
Theorem sealed_work_is_immutable events egress db db' :
  rtc upload_step (empty_upload events egress) db → rtc upload_step db db' →
  upload_inv db ∧ upload_inv db' ∧ advances db db'.
Proof.
  intros [k1 Hs1]%steps_sent [k2 Hs2]%steps_sent.
  destruct (Hs1 (empty_upload_inv _ _)) as (Hi & _). destruct (Hs2 Hi) as (? & ? & _).
  by split_and!.
Qed.

(** C19. Every request the uploader ever made was permitted by the egress
    tables as they were at that moment (the personal profile, cloud sync on,
    metadata classes only, an allowlisted destination, a live consent that
    covers it), however other processes changed them; it carried, under the
    manifest's hash as its key, the members of a batch as they were sealed
    for that destination. A batch is acknowledged only if the receiver
    answered such a request for it with success. A run makes at most four
    requests for each batch of its budget. *)
Theorem every_upload_was_permitted events egress db :
  rtc upload_step (empty_upload events egress) db →
  (∀ s, s ∈ up_requests db →
     permitted s ∧
     ∃ b, up_batches db !! rq_batch_id (sd_request s) = Some b ∧
       bt_manifest_sha256 b = sha256_hex (string_bytes (bt_members_json b)) ∧
       rq_idempotency_key (sd_request s) = bt_manifest_sha256 b ∧
       rq_manifest_sha256 (sd_request s) = bt_manifest_sha256 b ∧
       value_from_str (bt_members_json b) = Some (rq_members (sd_request s)) ∧
       url_text (bt_destination b) = Some (rq_to (sd_request s))) ∧
  (∀ i, acknowledged (up_batches db) i → Exists (accepted i) (up_requests db)) ∧
  ∀ lock device credential window max n,
    length (up_requests (run_upload lock device credential window max n db).1.2) ≤
    length (up_requests db) + MAX_ATTEMPTS_PER_RUN * max.
Proof.
  intros [k Hs]%steps_sent.
  destruct (Hs (empty_upload_inv _ _)) as (Hi & _ & log & Hr & _ & Hlog & Hack).
  simpl in Hr. subst log. split_and!.
  - intros s Hin. rewrite Forall_forall in Hlog. destruct (Hlog s Hin) as [? (b & Hb & ?)].
    split; [done|]. exists b. split; [done|]. split; [|tauto]. by apply (inv_batches _ Hi _ _ Hb).
  - intros i [(b & Hb & _)|]%Hack; [|done]. by simpl in Hb; simplify_map_eq.
  - intros lock device credential window max n.
    destruct (run_sent lock device credential window max n db Hi) as (_ & _ & l & -> & ? & _).
    rewrite length_app. lia.
Qed.
End sending.

(** * The upload on a concrete store

    A store under the personal profile with a consent, an allowlisted
    destination and three records, and runs of the uploader on it: they
    witness the theorems about the upload, and show what it does when a
    statement fails between a drop and its gap. *)

(** ** The libraries and the world, concretely *)

(** Dates are letters, ten seconds apart. *)
#[local] Instance up_chrono : Chrono := {
  parse_from_rfc3339 s :=
    match s with
    | String a EmptyString => Some (10 * (Z.of_N (Ascii.N_of_ascii a) - 97))%Z
    | _ => None
    end;
  num_seconds d := Z.quot d nanos_per_second;
}.
#[local] Instance up_fmt : ChronoFmt := {
  to_rfc3339 t := String (Ascii.ascii_of_N (97 + Z.to_N (t / 10))) "";
  add_days t d := Some (t + 10 * d)%Z;
}.
#[local] Instance up_date : ChronoDate := { year_of _ := 2026%Z; month_of t := Z.to_N (t / 10) }.
Definition up_url : string := "https://a.test:443/v1".
#[local] Instance up_url_parser : UrlParser := {
  url_parse s :=
    if decide (s = up_url)
    then Some (mkUrl "https" "" None (Some "a.test") (Some 443%N) "/v1" None None) else None;
}.
#[local] Instance up_strings : StringsJson := {
  strings_to_json l := String.concat "," l;
  strings_from_json s := Some ["evidence_metadata"; "finding_verdicts"];
}.
#[local] Instance up_sha : Sha256 := { sha256 m := replicate 32 0%N }.
#[local] Instance up_audit_wire : AuditWire := {
  event_to_json e := Ok (ae_event_id e);
  event_from_json s := Err s;
  export_class_tag _ := "metadata";
}.
#[local] Instance up_json : EventJson := {
  value_to_string v := match v with JString s => s | _ => "value" end;
  value_from_str s := Some (JString s);
  source_to_json _ := "source";
  source_from_json _ := None;
  extension_to_json _ := "extension";
  extension_from_json _ := None;
  uuids_to_json _ := "uuids";
  uuids_from_json _ := None;
  uuid_parse_str _ := None;
}.
#[local] Instance up_scan : TableScan := { scan A m := map_to_list m }.
#[local] Instance up_scan_ok : TableScanOk.
Proof. by intros A m. Qed.
#[local] Instance up_scan_natural : TableScanNatural.
Proof. intros A B f m. apply map_to_list_fmap. Qed.
#[local] Instance up_outbox_scan : OutboxScan := { outbox_scan m := map_to_list m }.
#[local] Instance up_outbox_scan_ok : OutboxScanOk.
Proof. by intros m. Qed.

(** Everything succeeds, and it is always "e". *)
#[local] Instance up_world : UploadWorld := {
  stmt_ok _ := true;
  fresh_uuid n := "u" +:+ pretty n;
  utc_now _ := 40%Z;
}.
(** The receiver accepts. *)
#[local] Instance up_http : HttpWorld := {
  http_post _ _ := Response 200;
  cloud_sync_allowed _ := true;
  meanwhile _ e := e;
  url_text s := Some s;
}.

(** ** A store *)

Definition up_egress_db : EgressDb :=
  mkEgressDb (Some (mkProfileRow "personal" 1 "a" "cli"))
    [mkConsentRow "c" "evidence_batch_upload" up_url "classes" "b" "k" None None 1 None]
    [mkAllowRow "al" "evidence_batch_upload" up_url "a" None]
    [("a", "personal", 1%Z)] empty_ledger.
(** An event from before the consent, one after it, and a claim about that. *)
Definition up_event (at_ : string) (raw : string) : EventRow :=
  mkEventRow "s" "claude_code" "post_tool_use" at_ (Some "Bash") (Some raw) None raw.
Definition up_event_db (text : string) : EventDb :=
  mkEventDb (<["e1" := up_event "a" text]> (<["e2" := up_event "c" text]> ∅)) ∅
    (<["q" := mkClaimRow "s" "e2" text "tests" "c"]> ∅) ∅ ∅ ∅ ∅ ∅ [] empty_ledger.
Definition up_start : UploadDb := empty_upload (up_event_db "secret") up_egress_db.

Definition up_run (n : nat) (db : UploadDb) : UploadDb :=
  (run_upload (Ok true) (Ok "device") (Ok "key") None 8 n db).1.2.
Definition up_end : UploadDb := up_run 0 up_start.

(** The old event is not staged; the others are sealed, sent once and
    acknowledged. *)
Example up_run_sends :
  map (λ x, (x.1, ob_state x.2)) (map_to_list (up_outbox up_end)) =
    [(("claims", "q"), ObAcknowledged); (("events", "e2"), ObAcknowledged)] ∧
  (rq_to ∘ sd_request <$> up_requests up_end) = [up_url] ∧
  (bt_state <$> (map_to_list (up_batches up_end)).*2) = [BtAcknowledged].
Proof. split_and!; vm_compute; reflexivity. Qed.

(** The receiver is not available, and the consent is revoked before the
    second attempt: one request has left, the batch stays sealed. *)
Definition revoked (e : EgressDb) : EgressDb :=
  mkEgressDb (t_egress_profile e) (revoke_row "e" "operator" <$> t_egress_consents e)
    (t_egress_allowlist e) (t_egress_profile_log e) (t_ledger e).
Definition unavailable : HttpWorld := {|
  http_post _ _ := Response 503;
  cloud_sync_allowed _ := true;
  meanwhile n e := if decide (25 ≤ n) then revoked e else e;
  url_text s := Some s;
|}.
Example revocation_stops_the_next_attempt :
  let '(res, db, _) := run_upload (H10 := unavailable) (Ok true) (Ok "d") (Ok "k") None 8 0 up_start in
  res = Err (UpDenied ConsentRevoked) ∧ length (up_requests db) = 1 ∧
  (bt_state <$> (map_to_list (up_batches db)).*2) = [BtSealed].
Proof. vm_compute. split_and!; reflexivity. Qed.

(** ** Drops *)

Definition up_staged : UploadDb := (stage_upload_records 0 up_start).1.2.
Example up_staged_pending :
  map (λ x, (x.1, ob_state x.2)) (map_to_list (up_outbox up_staged)) =
    [(("claims", "q"), ObPending); (("events", "e2"), ObPending)].
Proof. vm_compute. reflexivity. Qed.

(** The statement that records the gap fails: the rows are expired already,
    and no gap is left. *)
Definition gap_fails : UploadWorld := {|
  stmt_ok n := negb (n =? 6);
  fresh_uuid n := "u" +:+ pretty n;
  utc_now _ := 40%Z;
|}.
Lemma drop_without_gap :
  let '(res, db, _) := enforce_outbox_bound (H9 := gap_fails) 0 40 0 up_staged in
  res = Err StoreDb ∧ up_gaps db = [] ∧
  (ob_state <$> (map_to_list (up_outbox db)).*2) = [ObExpired; ObExpired].
Proof. vm_compute. split_and!; reflexivity. Qed.

(** The consent is replaced by one for other classes: the staged rows expire
    with it, and the report of the next staging counts none of them. *)
Definition up_replaced : UploadDb :=
  with_egress
    (mkEgressDb (Some (mkProfileRow "personal" 1 "a" "cli"))
       [mkConsentRow "c2" "evidence_batch_upload" up_url "classes" "e" "k" None None 1 None]
       [mkAllowRow "al" "evidence_batch_upload" up_url "a" None]
       [("a", "personal", 1%Z)] empty_ledger) up_staged.
Lemma retired_rows_are_not_reported :
  let '(res, db, _) := stage_upload_records 0 up_replaced in
  res = Ok (mkStageReport 0 0) ∧
  (ob_state <$> (map_to_list (up_outbox db)).*2) = [ObExpired; ObExpired] ∧
  (gp_dropped_count <$> up_gaps db) = [2%Z].
Proof. vm_compute. split_and!; reflexivity. Qed.

(** ** Witnesses *)

Lemma sealed_work_is_immutable_witness :
  upload_inv up_staged ∧ upload_inv (up_run 7 up_staged) ∧ advances up_staged (up_run 7 up_staged).
Proof.
  apply (sealed_work_is_immutable (up_event_db "secret") up_egress_db).
  - apply rtc_once. apply us_sweep.
  - apply rtc_once. apply us_run.
Defined.
Lemma every_upload_was_permitted_witness :
  Exists (accepted "u16") (up_requests up_end) ∧ length (up_requests up_end) = 1.
Proof.
  split; [|vm_compute; reflexivity].
  apply (every_upload_was_permitted (up_event_db "secret") up_egress_db up_end).
  - apply rtc_once. apply us_run.
  - eexists. vm_compute. split; reflexivity.
Defined.
Lemma staged_records_are_consented_witness :
  ∃ r, newly up_start up_staged ("claims", "q") r ∧ staging_allowed up_start ("claims", "q") r.
Proof.
  eexists. assert (newly up_start up_staged ("claims", "q")
    (default (mkOutboxRow "" "" "" "" "" ObPoison None) (up_outbox up_staged !! ("claims", "q")))) as Hn
    by (split; vm_compute; reflexivity).
  split; [exact Hn|]. apply (staged_records_are_consented 0). exact Hn.
Defined.
Lemma staging_is_blind_to_contents_witness :
  up_outbox (stage_upload_records 0 (with_event_db (up_event_db "another") up_start)).1.2 =
  up_outbox up_staged.
Proof.
  destruct (staging_is_blind_to_contents 0 up_start (up_event_db "another")) as [Heq _].
  - vm_compute. reflexivity.
  - rewrite Heq. reflexivity.
Defined.
Lemma outbox_bound_is_enforced_witness :
  ∃ db' n', enforce_outbox_bound 0 40 0 up_staged = (Ok 2, db', n') ∧
    (weight (pending_list (up_outbox db')) ≤ 0)%Z.
Proof.
  destruct (enforce_outbox_bound 0 40 0 up_staged) as [[res db'] n'] eqn:Ee.
  assert (res = Ok 2) as ->.
  { apply (f_equal (λ x, x.1.1)) in Ee. cbn [fst] in Ee. rewrite <- Ee. vm_compute. reflexivity. }
  exists db', n'. split; [reflexivity|].
  pose proof (outbox_bound_is_enforced (λ n, eq_refl) 0 40 0 up_staged ltac:(lia)) as Hb.
  rewrite Ee in Hb. apply Hb.
Defined.
