(* ===== verification/Budget.v ===== *)
(** * The verification budget

    [fornax-verify/src/verification_budget.rs]: how much verification a claim
    gets. A plan selects steps for the unmet obligations of a claim's contract
    within a budget, and says which obligations it could not cover; the floor
    keeps a claim from proceeding on such a plan; and the benchmark compares
    policies. The promotion gate compares costs as floating-point numbers and
    is not modelled. A [Duration] is a number of nanoseconds; texts are as in [Voi]. *)

From S2P Require Import Prelude.
From S2P Require Import Types.
From S2P Require Import Graph.
From S2P Require Import Contract.
From S2P Require Import UnionFind.
From S2P Require Import Independence.
From S2P Require Import Fusion.
From S2P Require Import Calibration.
From S2P Require Import Decision.
From S2P Require Import PolicyContent.
From S2P Require Import Voi.
From S2P Require Import ContractSat.

Local Open Scope fornax_scope.

Definition VERIFICATION_BUDGET_SCHEMA_VERSION : N := 1.

(** [Duration::from_millis] and [Duration::from_secs]. *)
Definition from_millis (n : N) : N := n * 1000000.
Definition from_secs (n : N) : N := n * 1000000000.

(** ** Data *)

Inductive BlastRadius :=
| ReadOnlyObservation | ReversibleLocal | ReversibleExternal | IrreversibleOrPrivileged.
(** The derived [Ord]. *)
Definition blast_rank (b : BlastRadius) : N :=
  match b with
  | ReadOnlyObservation => 0
  | ReversibleLocal => 1
  | ReversibleExternal => 2
  | IrreversibleOrPrivileged => 3
  end.

Record VerificationBudget := mkVerificationBudget {
  vb_schema_version : N;
  max_latency : N;
  max_cost_units : N;
  max_resource_units : N;
  max_probe_count : N;
  max_review_burden : N;
  max_execution_risk : BlastRadius;
  allowed_side_effects : SideEffectAllowList;
  credential_use_allowed : bool;
}.
Definition minimal : VerificationBudget :=
  mkVerificationBudget VERIFICATION_BUDGET_SCHEMA_VERSION (from_secs 5) 1 1 1 0 ReadOnlyObservation
    (mkSideEffectAllowList []) false.

Inductive VerificationStepKind :=
| DeterministicCheck (probe : ProbeKind)
| SemanticMonitor (description : string)
| ActiveEvidenceProbe (probe : ProbeKind)
| ShadowExecution (probe : ProbeKind)
| HumanEscalation (reason : string).

Record VerificationStep := mkVerificationStep {
  vs_kind : VerificationStepKind;
  targets_requirement_id : option string;
  estimated_latency : N;
  estimated_cost_units : N;
  estimated_resource_units : N;
  vs_side_effects : SideEffectAllowList;
  requires_credentials : bool;
  review_burden : N;
}.

Inductive StepRejectionReason :=
| SideEffectNotGranted (class : SideEffectClass)
| DestructiveSideEffectNeverApprovable
| CredentialUseNotAllowed
| LatencyBudgetExhausted
| CostBudgetExhausted
| ResourceBudgetExhausted
| ProbeCountBudgetExhausted
| ReviewBurdenBudgetExhausted.
Record RejectedStep := mkRejectedStep { rs_step : VerificationStep; rs_reason : StepRejectionReason }.

Inductive PlanOutcome :=
| Planned
| InsufficientVerification (unmet_requirement_ids : list string).

Record VerificationPlan := mkVerificationPlan {
  vp_claim_class : ClaimClassId;
  vp_policy_name : string;
  vp_policy_version : N;
  budget_schema_version : N;
  vp_steps : list VerificationStep;
  rejected_steps : list RejectedStep;
  total_estimated_latency : N;
  total_estimated_cost_units : N;
  total_review_burden : N;
  vp_outcome : PlanOutcome;
}.

(** ** Gating *)

(** [SideEffectAllowList::is_read_only]. *)
Definition is_read_only (l : SideEffectAllowList) : bool := bool_decide (allowed l = []).

Definition gate_step (step : VerificationStep) (budget : VerificationBudget) :
    option StepRejectionReason :=
  if permits (vs_side_effects step) FilesystemWriteOutsideWorktree
  then Some DestructiveSideEffectNeverApprovable
  else
    let ungranted class :=
      permits (vs_side_effects step) class && negb (permits (allowed_side_effects budget) class) in
    match list_find (λ class, ungranted class = true)
            [EphemeralWorktreeMutation; ProcessSpawn; NetworkCall] with
    | Some (_, class) => Some (SideEffectNotGranted class)
    | None =>
        if requires_credentials step && negb (credential_use_allowed budget)
        then Some CredentialUseNotAllowed else None
    end.

(** ** Planning *)

Record VerificationContext := mkVerificationContext {
  vc_claim_id : Uuid;
  vc_satisfaction : ClaimAssessment;
  vc_blast_radius : BlastRadius;
  vc_risk_class : RiskClass;
  vc_drift : option DriftState;
}.

(** [Debug] of a string. *)
Class DebugStr := { debug_str : string → string }.

Section plan.
Context `{DebugStr}.

Definition step_for_probe (requirement_id : option string) (req : EvidenceRequest) :
    VerificationStep :=
  let kind :=
    match req_kind req with
    | BoundedReplayExperiment => ShadowExecution (req_kind req)
    | HumanReview => HumanEscalation (req_description req)
    | _ =>
        if is_read_only (required_side_effects req) then DeterministicCheck (req_kind req)
        else ActiveEvidenceProbe (req_kind req)
    end in
  let '(latency, cost, resources) :=
    match req_kind req with
    | InspectVcsState | VerifyArtifactHash => (from_millis 50, 0, 0)%N
    | RerunTest => (from_secs 30, 2, 2)%N
    | QueryCiStatus => (from_secs 2, 1, 0)%N
    | BoundedReplayExperiment => (from_secs 60, 4, 3)%N
    | HumanReview => (0, 0, 0)%N
    end in
  mkVerificationStep kind requirement_id latency cost resources (required_side_effects req)
    (bool_decide (req_kind req = QueryCiStatus))
    (match kind with HumanEscalation _ => 1 | _ => 0 end).

Definition gap_requirement (gap : EvidenceGap) : option string :=
  match eg_kind gap with
  | ContractObligationUnmet requirement_id _ => Some requirement_id
  | _ => None
  end.
Definition candidates (ctx : VerificationContext) : list VerificationStep :=
  gaps_from_assessment (vc_claim_id ctx) (vc_satisfaction ctx) ≫=
    (λ gap, step_for_probe (gap_requirement gap) <$> probes_for_gap gap).

(** The derived [Debug]. *)
Definition step_kind_debug (k : VerificationStepKind) : string :=
  match k with
  | DeterministicCheck probe => "DeterministicCheck { probe: " +:+ probe_kind_debug probe +:+ " }"
  | SemanticMonitor d => "SemanticMonitor { description: " +:+ debug_str d +:+ " }"
  | ActiveEvidenceProbe probe => "ActiveEvidenceProbe { probe: " +:+ probe_kind_debug probe +:+ " }"
  | ShadowExecution probe => "ShadowExecution { probe: " +:+ probe_kind_debug probe +:+ " }"
  | HumanEscalation reason => "HumanEscalation { reason: " +:+ debug_str reason +:+ " }"
  end.
Definition step_key (s : VerificationStep) : N * N * string :=
  (if is_read_only (vs_side_effects s) then 0%N else 1%N, estimated_cost_units s,
   step_kind_debug (vs_kind s)).

Definition is_required (ra : RequirementAssessment) : bool :=
  match ra_level ra with Required | Conditional _ => true | Recommended => false end &&
  match ra_state ra with SSatisfied | SNotApplicable => false | _ => true end.
Definition required_unsatisfied (a : ClaimAssessment) : gset string :=
  list_to_set (requirement_id <$> filter (λ ra, is_required ra = true) (per_requirement a)).

(** The locals of the loop. *)
Record PlanState := mkPlanState {
  ps_accepted : list VerificationStep;
  ps_rejected : list RejectedStep;
  used_latency : N;
  used_cost : N;
  used_resources : N;
  used_probes : N;
  used_review_burden : N;
  covered_requirements : gset string;
}.
Definition start_state : PlanState := mkPlanState [] [] 0 0 0 0 0 ∅.

Definition u32_bound : N := 2 ^ 32.
(** [u32]'s [+] of a release build. *)
Definition add_u32 (a b : N) : N := (a + b) mod u32_bound.

Definition reject (step : VerificationStep) (reason : StepRejectionReason) (st : PlanState) :
    PlanState :=
  mkPlanState (ps_accepted st) (ps_rejected st ++ [mkRejectedStep step reason]) (used_latency st)
    (used_cost st) (used_resources st) (used_probes st) (used_review_burden st)
    (covered_requirements st).

Definition plan_step (ctx : VerificationContext) (budget : VerificationBudget) (st : PlanState)
    (step : VerificationStep) : PlanState :=
  match gate_step step budget with
  | Some reason => reject step reason st
  | None =>
      if negb (is_read_only (vs_side_effects step)) &&
         bool_decide (blast_rank (max_execution_risk budget) < blast_rank (vc_blast_radius ctx))%N
      then reject step (SideEffectNotGranted ProcessSpawn) st
      else
        let next_latency := (used_latency st + estimated_latency step)%N in
        let next_cost := add_u32 (used_cost st) (estimated_cost_units step) in
        let next_resources := add_u32 (used_resources st) (estimated_resource_units step) in
        let next_probes := add_u32 (used_probes st) 1 in
        let next_review := add_u32 (used_review_burden st) (review_burden step) in
        if bool_decide (max_latency budget < next_latency)%N
        then reject step LatencyBudgetExhausted st
        else if bool_decide (max_cost_units budget < next_cost)%N
        then reject step CostBudgetExhausted st
        else if bool_decide (max_resource_units budget < next_resources)%N
        then reject step ResourceBudgetExhausted st
        else if bool_decide (max_probe_count budget < next_probes)%N
        then reject step ProbeCountBudgetExhausted st
        else if bool_decide (max_review_burden budget < next_review)%N
        then reject step ReviewBurdenBudgetExhausted st
        else
          mkPlanState (ps_accepted st ++ [step]) (ps_rejected st) next_latency next_cost next_resources
            next_probes next_review
            (match targets_requirement_id step with
             | Some rid => {[rid]} ∪ covered_requirements st
             | None => covered_requirements st
             end)
  end.

Definition POLICY_NAME : string := "deterministic_budget_policy_v1".
Definition plan (ctx : VerificationContext) (budget : VerificationBudget) : VerificationPlan :=
  let steps := sort_by_key step_key (candidates ctx) in
  let st := foldl (plan_step ctx budget) start_state steps in
  let unmet :=
    btree_set_iter (required_unsatisfied (vc_satisfaction ctx) ∖ covered_requirements st) in
  mkVerificationPlan (ca_claim_class (vc_satisfaction ctx)) POLICY_NAME 1
    (vb_schema_version budget) (ps_accepted st) (ps_rejected st) (used_latency st) (used_cost st)
    (used_review_burden st)
    (match unmet with [] => Planned | _ => InsufficientVerification unmet end).

Definition minimal_only_plan (ctx : VerificationContext) (budget : VerificationBudget) :
    VerificationPlan :=
  plan ctx
    (mkVerificationBudget (vb_schema_version budget) (max_latency budget) (max_cost_units budget)
       (max_resource_units budget) (N.min 1 (max_probe_count budget)) 0
       (max_execution_risk budget) (allowed_side_effects budget) (credential_use_allowed budget)).
Definition half_u32 : N := (u32_bound - 1) / 2.
Definition maximal_depth_plan (ctx : VerificationContext) (budget : VerificationBudget) :
    VerificationPlan :=
  plan ctx
    (mkVerificationBudget (vb_schema_version budget) (from_secs 3600) half_u32 half_u32 half_u32 half_u32
       IrreversibleOrPrivileged (allowed_side_effects budget) (credential_use_allowed budget)).
End plan.

(** ** The floor *)

Definition apply_verification_floor (rec : Recommendation) (p : VerificationPlan) : Recommendation :=
  match vp_outcome p with
  | Planned => rec
  | InsufficientVerification unmet =>
      if decide (rec_action rec ≠ Proceed) then rec
      else mkRecommendation (rec_claim_id rec) ReviewAction (rec_risk_class rec)
             (rec_policy_name rec) (rec_policy_version rec)
             (SVerificationFloor (rationale_summary rec) unmet)
  end.

(** ** The benchmark *)

Record PolicyBenchmarkResult := mkPolicyBenchmarkResult {
  pb_policy_name : string;
  fixtures_evaluated : N;
  critical_misses : N;
  false_positives : N;
  total_cost_units : N;
  total_latency : N;
  pb_review_burden : N;
}.
(** A context and whether it has a real critical obligation. *)
Definition BenchmarkFixture : Type := VerificationContext * bool.

Definition u64_bound : N := 2 ^ 64.
Definition evaluate_policy (name : string)
    (policy : VerificationContext → VerificationBudget → VerificationPlan)
    (budget : VerificationBudget) (fixtures : list BenchmarkFixture) : PolicyBenchmarkResult :=
  foldl (λ r (f : BenchmarkFixture),
      let p := policy f.1 budget in
      let insufficient := match vp_outcome p with Planned => false | _ => true end in
      mkPolicyBenchmarkResult (pb_policy_name r) (fixtures_evaluated r)
        (if f.2 && insufficient then add_u32 (critical_misses r) 1 else critical_misses r)
        (if negb f.2 && insufficient then add_u32 (false_positives r) 1 else false_positives r)
        ((total_cost_units r + total_estimated_cost_units p) mod u64_bound)
        (total_latency r + total_estimated_latency p)
        ((pb_review_burden r + total_review_burden p) mod u64_bound))
    (mkPolicyBenchmarkResult name (N.of_nat (length fixtures) mod u32_bound) 0 0 0 0 0) fixtures.

Definition benchmark `{DebugStr} (budget : VerificationBudget) (fixtures : list BenchmarkFixture) :
    list PolicyBenchmarkResult :=
  [evaluate_policy POLICY_NAME plan budget fixtures;
   evaluate_policy "minimal_only_baseline_v1" minimal_only_plan budget fixtures;
   evaluate_policy "maximal_depth_baseline_v1" maximal_depth_plan budget fixtures].

(** * What a verification plan promises

    A plan never exceeds its budget and never contains a step the budget's
    issuer did not grant; every candidate is planned or rejected for a reason
    that still holds at the end, so nothing that fits is left out; and the
    outcome names exactly the binding obligations no planned step covers. *)

(** ** Sums *)

Definition sum_of (f : VerificationStep → N) (l : list VerificationStep) : N :=
  foldr (λ s acc, f s + acc)%N 0%N l.
Lemma sum_of_snoc f l s : sum_of f (l ++ [s]) = (sum_of f l + f s)%N.
Proof. induction l; simpl; lia. Qed.
Lemma sum_of_bound f l k : Forall (λ s, f s ≤ k)%N l → (sum_of f l ≤ k * N.of_nat (length l))%N.
Proof. induction 1; simpl; lia. Qed.

(** ** What is promised of a step *)

Section spec.
Context `{DebugStr} (ctx : VerificationContext) (budget : VerificationBudget).

(** The budget's issuer granted what the step does. *)
Definition granted (s : VerificationStep) : Prop :=
  permits (vs_side_effects s) FilesystemWriteOutsideWorktree = false ∧
  (∀ class, permits (vs_side_effects s) class = true →
     permits (allowed_side_effects budget) class = true) ∧
  (requires_credentials s = true → credential_use_allowed budget = true) ∧
  (is_read_only (vs_side_effects s) = false →
     blast_rank (vc_blast_radius ctx) ≤ blast_rank (max_execution_risk budget))%N.

(** The reason given for a rejected step holds of what the plan uses. *)
Definition justified (latency cost resources probes review : N) (r : RejectedStep) : Prop :=
  let s := rs_step r in
  match rs_reason r with
  | DestructiveSideEffectNeverApprovable =>
      permits (vs_side_effects s) FilesystemWriteOutsideWorktree = true
  | SideEffectNotGranted class =>
      (permits (vs_side_effects s) class = true ∧
       permits (allowed_side_effects budget) class = false) ∨
      (is_read_only (vs_side_effects s) = false ∧
       blast_rank (max_execution_risk budget) < blast_rank (vc_blast_radius ctx))%N
  | CredentialUseNotAllowed => requires_credentials s = true ∧ credential_use_allowed budget = false
  | LatencyBudgetExhausted => (max_latency budget < latency + estimated_latency s)%N
  | CostBudgetExhausted => (max_cost_units budget < cost + estimated_cost_units s)%N
  | ResourceBudgetExhausted => (max_resource_units budget < resources + estimated_resource_units s)%N
  | ProbeCountBudgetExhausted => (max_probe_count budget < probes + 1)%N
  | ReviewBurdenBudgetExhausted => (max_review_burden budget < review + review_burden s)%N
  end.
Lemma justified_mono l c x p v l' c' x' p' v' r :
  (l ≤ l')%N → (c ≤ c')%N → (x ≤ x')%N → (p ≤ p')%N → (v ≤ v')%N →
  justified l c x p v r → justified l' c' x' p' v' r.
Proof. unfold justified. intros ?????. destruct (rs_reason r); try done; lia. Qed.

Lemma gate_granted s :
  gate_step s budget = None →
  negb (is_read_only (vs_side_effects s)) &&
    bool_decide (blast_rank (max_execution_risk budget) < blast_rank (vc_blast_radius ctx))%N = false →
  granted s.
Proof.
  unfold gate_step.
  destruct (permits (vs_side_effects s) FilesystemWriteOutsideWorktree) eqn:Ef; [done|].
  destruct (list_find _ _) as [[i c]|] eqn:El; [done|].
  destruct (requires_credentials s && _) eqn:Ec; [done|]. intros _ Hb.
  split_and!; [done| | |].
  - intros class Hp. apply list_find_None in El. rewrite Forall_forall in El.
    destruct (permits (allowed_side_effects budget) class) eqn:Ea; [done|].
    destruct (decide (class = FilesystemWriteOutsideWorktree)) as [->|Hne]; [congruence|].
    exfalso. apply (El class); [destruct class; set_solver|]. by rewrite Hp, Ea.
  - intros Hr. rewrite Hr in Ec. by destruct (credential_use_allowed budget).
  - intros Hr. rewrite Hr in Hb. simpl in Hb. apply bool_decide_eq_false in Hb. lia.
Qed.
Lemma gate_justified s reason l c x p v :
  gate_step s budget = Some reason → justified l c x p v (mkRejectedStep s reason).
Proof.
  unfold gate_step.
  destruct (permits (vs_side_effects s) FilesystemWriteOutsideWorktree) eqn:Ef; [by intros [= <-]|].
  destruct (list_find _ _) as [[i class]|] eqn:El.
  - apply list_find_Some in El as (_ & [Hp Ha%negb_true_iff]%andb_true_iff & _).
    intros [= <-]. by left.
  - destruct (requires_credentials s && _) eqn:Ec; [|done]. intros [= <-].
    apply andb_true_iff in Ec as [? ?%negb_true_iff]. done.
Qed.

(** ** The loop *)

(** What a candidate costs at most. *)
Definition small (s : VerificationStep) : Prop :=
  (estimated_cost_units s ≤ 4 ∧ estimated_resource_units s ≤ 4 ∧ review_burden s ≤ 4)%N.

Record plan_inv (seen : list VerificationStep) (st : PlanState) : Prop := {
  pi_perm : ps_accepted st ++ (rs_step <$> ps_rejected st) ≡ₚ seen;
  pi_latency : used_latency st = sum_of estimated_latency (ps_accepted st);
  pi_cost : used_cost st = sum_of estimated_cost_units (ps_accepted st);
  pi_resources : used_resources st = sum_of estimated_resource_units (ps_accepted st);
  pi_probes : used_probes st = N.of_nat (length (ps_accepted st));
  pi_review : used_review_burden st = sum_of review_burden (ps_accepted st);
  pi_within : (used_latency st ≤ max_latency budget ∧ used_cost st ≤ max_cost_units budget ∧
               used_resources st ≤ max_resource_units budget ∧
               used_probes st ≤ max_probe_count budget ∧
               used_review_burden st ≤ max_review_burden budget)%N;
  pi_granted : Forall granted (ps_accepted st);
  pi_justified : Forall (justified (used_latency st) (used_cost st) (used_resources st)
                           (used_probes st) (used_review_burden st)) (ps_rejected st);
  pi_covered : ∀ rid, rid ∈ covered_requirements st ↔
    ∃ s, s ∈ ps_accepted st ∧ targets_requirement_id s = Some rid;
}.

Lemma plan_start_inv : plan_inv [] start_state.
Proof.
  split; try done; [simpl; lia|]. intros rid. simpl. split; [set_solver|].
  by intros (s & ?%not_elem_of_nil & _).
Qed.

Lemma reject_inv seen st s reason :
  plan_inv seen st →
  justified (used_latency st) (used_cost st) (used_resources st) (used_probes st)
    (used_review_burden st) (mkRejectedStep s reason) →
  plan_inv (seen ++ [s]) (reject s reason st).
Proof.
  intros [] Hj. split; try done; simpl.
  - rewrite fmap_app, app_assoc. simpl. by rewrite pi_perm0.
  - by apply Forall_app, conj, Forall_singleton.
Qed.

Lemma add_small a b : (a + b < u32_bound)%N → add_u32 a b = (a + b)%N.
Proof. apply N.mod_small. Qed.

(** Nothing a few candidates add up to overflows. *)
Lemma inv_small seen st f :
  plan_inv seen st → Forall small seen →
  f = estimated_cost_units ∨ f = estimated_resource_units ∨ f = review_burden →
  (sum_of f (ps_accepted st) ≤ 4 * N.of_nat (length seen) ∧
   N.of_nat (length (ps_accepted st)) ≤ N.of_nat (length seen))%N.
Proof.
  intros Hinv Hs Hf. pose proof (pi_perm _ _ Hinv) as Hp.
  assert (length (ps_accepted st) ≤ length seen) as Hl.
  { rewrite <- Hp, length_app. lia. }
  assert (Forall small (ps_accepted st)) as Ha.
  { rewrite <- Hp in Hs. by apply Forall_app in Hs as [? _]. }
  split; [|lia].
  etrans; [apply (sum_of_bound f _ 4)|lia].
  eapply Forall_impl; [done|]. intros s (? & ? & ?). by destruct Hf as [->|[->| ->]].
Qed.

Lemma plan_step_inv seen st s :
  plan_inv seen st → Forall small seen → small s →
  (4 * N.of_nat (S (length seen)) < u32_bound)%N →
  plan_inv (seen ++ [s]) (plan_step ctx budget st s).
Proof.
  intros Hinv Hsmall (Hc & Hx & Hv) Hlen. unfold plan_step.
  destruct (gate_step s budget) as [reason|] eqn:Eg; [by apply reject_inv, gate_justified|].
  destruct (negb _ && _) eqn:Er.
  { apply reject_inv; [done|]. apply andb_true_iff in Er as [Er%negb_true_iff Hb%bool_decide_eq_true].
    right. done. }
  pose proof (gate_granted s Eg Er) as Hg. clear Eg Er.
  destruct (inv_small seen st estimated_cost_units) as [Hsc Hsl]; [done|done|auto|].
  destruct (inv_small seen st estimated_resource_units) as [Hsx _]; [done|done|auto|].
  destruct (inv_small seen st review_burden) as [Hsv _]; [done|done|auto|].
  pose proof Hinv as [Hp Hl Hco Hxo Hpo Hvo Hw Hgr Hj Hcov].
  rewrite !add_small by lia.
  case_bool_decide as Hb1; [by apply reject_inv|]. case_bool_decide as Hb2; [by apply reject_inv|].
  case_bool_decide as Hb3; [by apply reject_inv|]. case_bool_decide as Hb4; [by apply reject_inv|].
  case_bool_decide as Hb5; [by apply reject_inv|].
  split; cbn [ps_accepted ps_rejected used_latency used_cost used_resources used_probes
              used_review_burden covered_requirements]; rewrite ?sum_of_snoc; try lia.
  - rewrite <- Hp. rewrite <- app_assoc. rewrite (Permutation_app_comm [s]). by rewrite app_assoc.
  - rewrite length_app. simpl. lia.
  - apply Forall_app, conj, Forall_singleton; done.
  - eapply Forall_impl; [exact Hj|]. intros r. apply justified_mono; lia.
  - intros rid. setoid_rewrite elem_of_app. setoid_rewrite list_elem_of_singleton.
    destruct (targets_requirement_id s) as [rid'|] eqn:Et.
    + rewrite elem_of_union, elem_of_singleton, Hcov. naive_solver.
    + rewrite Hcov. naive_solver.
Qed.

Lemma plan_loop_inv seen st l :
  plan_inv seen st → Forall small (seen ++ l) →
  (4 * N.of_nat (length (seen ++ l)) < u32_bound)%N →
  plan_inv (seen ++ l) (foldl (plan_step ctx budget) st l).
Proof.
  revert seen st. induction l as [|s l IH]; intros seen st Hinv Hs Hlen; simpl.
  { by rewrite app_nil_r. }
  rewrite cons_middle, app_assoc in Hs, Hlen |- *. apply IH; [|done..].
  rewrite !Forall_app, Forall_singleton in Hs. destruct Hs as [[Hs1 Hs2] _].
  apply plan_step_inv; [done..|]. rewrite !length_app in Hlen. simpl in Hlen. lia.
Qed.

Lemma probe_small rid req : small (step_for_probe rid req).
Proof.
  unfold small, step_for_probe.
  destruct (req_kind req), (is_read_only (required_side_effects req)); split_and!; simpl; lia.
Qed.
Lemma candidates_small : Forall small (candidates ctx).
Proof.
  unfold candidates. apply Forall_bind, Forall_forall. intros gap _. apply Forall_fmap, Forall_forall.
  intros req _. apply probe_small.
Qed.

Lemma elem_of_required rid :
  rid ∈ required_unsatisfied (vc_satisfaction ctx) ↔
  ∃ ra, ra ∈ per_requirement (vc_satisfaction ctx) ∧ is_required ra = true ∧ requirement_id ra = rid.
Proof.
  unfold required_unsatisfied. rewrite elem_of_list_to_set, list_elem_of_fmap.
  setoid_rewrite list_elem_of_filter. naive_solver.
Qed.

(** C20. A verification plan keeps its budget and its word. Its steps are
    within every ceiling of the budget, latency, cost, resources, number of
    probes and review burden, and its totals are theirs; none writes outside
    the worktree, has a side effect or uses a credential that was not
    granted, or any side effect at all for an action of greater consequence
    than the budget allows. Every candidate is planned or rejected, once, and
    a rejected one is refused by the budget or would not fit beside the
    planned ones. The outcome names exactly the binding unsatisfied
    requirements no planned step is for, and a recommendation to proceed
    survives the floor exactly when there is none. *)
Theorem plan_keeps_its_budget rec :
  (4 * N.of_nat (length (candidates ctx)) < u32_bound)%N →
  let p := plan ctx budget in
  let unmet rid :=
    (∃ ra, ra ∈ per_requirement (vc_satisfaction ctx) ∧ is_required ra = true ∧
           requirement_id ra = rid) ∧
    ¬ ∃ s, s ∈ vp_steps p ∧ targets_requirement_id s = Some rid in
  (total_estimated_latency p = sum_of estimated_latency (vp_steps p) ∧
   total_estimated_cost_units p = sum_of estimated_cost_units (vp_steps p) ∧
   total_review_burden p = sum_of review_burden (vp_steps p) ∧
   total_estimated_latency p ≤ max_latency budget ∧
   total_estimated_cost_units p ≤ max_cost_units budget ∧
   sum_of estimated_resource_units (vp_steps p) ≤ max_resource_units budget ∧
   N.of_nat (length (vp_steps p)) ≤ max_probe_count budget ∧
   total_review_burden p ≤ max_review_burden budget)%N ∧
  Forall granted (vp_steps p) ∧
  vp_steps p ++ (rs_step <$> rejected_steps p) ≡ₚ candidates ctx ∧
  Forall (justified (total_estimated_latency p) (total_estimated_cost_units p)
            (sum_of estimated_resource_units (vp_steps p)) (N.of_nat (length (vp_steps p)))
            (total_review_burden p)) (rejected_steps p) ∧
  match vp_outcome p with
  | Planned => ∀ rid, ¬ unmet rid
  | InsufficientVerification rids => rids ≠ [] ∧ ∀ rid, rid ∈ rids ↔ unmet rid
  end ∧
  (rec_action (apply_verification_floor rec p) = Proceed ↔
   rec_action rec = Proceed ∧ ∀ rid, ¬ unmet rid).
Proof.
  intros Hlen p unmet. unfold p, plan in *. cbv zeta in *.
  set (steps := sort_by_key step_key (candidates ctx)) in *.
  assert (steps ≡ₚ candidates ctx) as Hperm by apply sort_by_key_Permutation.
  set (st := foldl (plan_step ctx budget) start_state steps) in *.
  assert (plan_inv steps st) as Hinv.
  { apply (plan_loop_inv []); [apply plan_start_inv| |]; simpl; rewrite Hperm; [apply candidates_small|done]. }
  destruct Hinv as [Hp Hl Hc Hx Hpr Hv Hw Hg Hj Hcov].
  set (left := btree_set_iter _) in *.
  assert (∀ rid, rid ∈ left ↔ unmet rid) as Hleft.
  { intros rid. unfold left, btree_set_iter.
    rewrite elem_of_sort_by_key, elem_of_elements, elem_of_difference, elem_of_required, Hcov. done. }
  assert (match (match left with [] => Planned | _ => InsufficientVerification left end) with
    | Planned => ∀ rid, ¬ unmet rid
    | InsufficientVerification rids => rids ≠ [] ∧ ∀ rid, rid ∈ rids ↔ unmet rid
    end) as Hout.
  { destruct left as [|rid rids]; [|done]. intros rid Hu%Hleft. by apply not_elem_of_nil in Hu. }
  cbn [vp_steps rejected_steps total_estimated_latency total_estimated_cost_units
       total_review_burden vp_outcome].
  rewrite <- Hx, <- Hpr. split_and!; try tauto; try (by rewrite Hp).
  unfold apply_verification_floor. cbn [vp_outcome].
  destruct left as [|rid rids]; [tauto|]. split.
  - case_decide; [done|]. by intros.
  - intros [_ Hno]. destruct (Hno rid). apply Hleft. by left.
Qed.
End spec.

(** ** A concrete plan *)

#[local] Instance sample_debug : DebugStr := { debug_str s := s }.
Definition sample_assessment : ClaimAssessment :=
  mkClaimAssessment (mkClaimClassId "tests_passed" 1)
    [mkRequirementAssessment "exit_code" Required SUnsatisfied [] [];
     mkRequirementAssessment "corroboration" Required SStale [] [];
     mkRequirementAssessment "approval" Required SUnknown [] []] SUnsatisfied.
Definition sample_context : VerificationContext :=
  mkVerificationContext 1 sample_assessment ReversibleLocal Strict None.

(** The minimal budget has room for one read-only check. The requirement whose
    state is unknown has no gap, so no budget covers it. *)
Example sample_plan :
  let p := plan sample_context minimal in
  (targets_requirement_id <$> vp_steps p) = [Some "exit_code"] ∧
  (rs_reason <$> rejected_steps p) =
    [ProbeCountBudgetExhausted; ProbeCountBudgetExhausted; ProbeCountBudgetExhausted] ∧
  vp_outcome p = InsufficientVerification ["approval"; "corroboration"] ∧
  vp_outcome (maximal_depth_plan sample_context minimal) = InsufficientVerification ["approval"].
Proof. vm_compute. split_and!; reflexivity. Qed.

Definition sample_recommendation : Recommendation :=
  mkRecommendation 1 Proceed Strict "policy" 1
    (SDecided Verified Corroborated Strict Proceed "policy" 1 1).
Lemma plan_keeps_its_budget_witness :
  rec_action sample_recommendation = Proceed ∧
  rec_action (apply_verification_floor sample_recommendation (plan sample_context minimal)) ≠ Proceed.
Proof.
  split; [reflexivity|]. intros Hp.
  assert (4 * N.of_nat (length (candidates sample_context)) < u32_bound)%N as Hlen
    by (vm_compute; reflexivity).
  pose proof (plan_keeps_its_budget sample_context minimal sample_recommendation Hlen) as Hspec. cbv zeta in Hspec.
  destruct Hspec as (_ & _ & _ & _ & _ & Hfloor). apply Hfloor in Hp as [_ Hno].
  apply (Hno "approval"). split.
  - exists (mkRequirementAssessment "approval" Required SUnknown [] []).
    split_and!; [|reflexivity..]. right. right. left.
  - intros (s & Hs & Ht).
    assert (Forall (λ s, targets_requirement_id s ≠ Some "approval")
              (vp_steps (plan sample_context minimal))) as Hall
      by (vm_compute; repeat constructor; discriminate).
    rewrite Forall_forall in Hall. exact (Hall s Hs Ht).
Defined.
